(* ===== verification/_CoqProject ===== *)
-Q . S2P
Prelude.v
Utf8.v
ByteUtil.v
Varint.v
Crc32x.v
PrefixScan.v
Bloom.v
SkipList.v
SkipListIter.v
Os.v
Wal.v
SSTable.v
SSTableFacts.v
SSTableWriter.v
SSTableProps.v
Heap.v
Compact.v
TableEnds.v
SSTableSpec.v
CompactFacts.v
CompactMerge.v
CompactProps.v
OsFacts.v
OsFaults.v
WalErrors.v
Manifest.v
ManifestFacts.v
ManifestProps.v
Faults.v
FileLock.v
Kill.v
KillParts.v
Db.v
DbProps.v
DbSpec.v
DbFiles.v
DbLedger.v
DbState.v
DbFlush.v
DbRefine.v
DbIter.v
DbCompact.v
DbOpen.v
DbRun.v
DbCrash.v
DbReopen.v
DbKill.v
DbEnds.v
DbSteps.v
DbThreads.v
