(* ===== verification/Prelude.v ===== *)
(** * go-prefix-scan: an embedded LSM-tree key-value store

    A verification of the Go library under src/: package lsmkv, a key-value
    database that logs its writes, keeps recent ones in a sorted table in
    memory, flushes that to immutable table files and merges them; and the
    internal packages it is made of.

    ** The program's parts

    - lsmkv/db.go: a [DB] holds a lock file, the write-ahead log, the memtable,
      the manifest and the open tables.  [Put], [Delete] and [Write] append to the
      log and change the memtable; when that is full [flushLocked] writes it to a
      table, records the table in the manifest and empties the log.  [Get] asks
      the memtable, then the tables, and takes the entry with the highest
      sequence number.  [Compact] merges tables.  [Open] takes the lock, reads the
      manifest, recovers the log's tail, opens the tables and replays the log.
    - internal/wal: frames with a length, a type and a checksum; recovery cuts a
      torn tail off; batches are one frame.
    - internal/memtable: a skip list of entries.
    - internal/sstable: blocks of prefix-compressed entries with restart points
      and a checksum each, an index, a bloom filter, a footer.
    - internal/manifest: the file MANIFEST, replaced by renaming.
    - internal/compact: the k-way merge and the choice of its inputs.
    - internal/filelock, bloomx, crc32x, varintx, byteutil: the lock file and the
      basic encodings; internal/prefixscan: a cursor over sorted keys (used by
      no other package).

    ** The files of the development

    Each model keeps the names of the code; a method of a type T that has a
    namesake lives in a Module T, and loops that are not functions in the code
    are Fixpoints next to the function they belong to.

    - Prelude (this file): Go's scalars (machine integers are [Z] with their
      wrap-around written out), byte slices and their bounds checks, [outcome]
      (a value, an error, a panic, or [Stuck]: out of fuel), the state monad [M]
      in which methods on pointers run, sort.Search, the byte order of keys,
      and the automation: rewrite database [go] and hint database [ends], tactics
      [divlia], [run_M], [m_ends] and others.
    - Utf8: the check of package unicode/utf8 that ByteUtil calls, with the
      proof that it accepts exactly what the encoder writes.
    - ByteUtil, Varint, Crc32x, Bloom, PrefixScan: the packages of these names
      (byteutil/bytes.go and buffer.go, varint.go, crc32x.go, bloom.go,
      prefixscan.go), each with its theorems.
    - SkipList: memtable/skiplist.go on an explicit heap of nodes with towers of
      forward pointers.  [repr] relates it to a sorted list of entries, and each
      operation is proved to be the list operation.  SkipListIter: iterators
      over a list that is written to.
    - Os, OsFacts, OsFaults: the world the file operations run in: names, inodes, open
      files, and a schedule of failures, so that any call can fail and a
      failing write may leave a prefix of its data.  OsFacts has the behaviour
      of whole-file operations when nothing fails, and the relations [grows] (old
      files and descriptors stay) and [steady] (those of other names do).
      OsFaults says what holds under every schedule: a program that succeeds has
      done what it does when nothing fails ([follows]), one that fails has
      touched its own files only ([within], and [ManifestFacts.aside] for a
      temporary file that may be there already); Faults proves both of the log's
      appends and resets, of table writes and of manifest updates.
    - Wal: wal/wal.go.  [log_on] relates the log's file to a list of operations.
      WalErrors: a read that fails while a log is opened.
    - SSTable: sstable/sstable.go (Writer, Reader, blockIter, Iterator).
      SSTableFacts: blocks, indexes and iterators read what was encoded.
      SSTableWriter: the invariant of the Writer, up to the bytes of a finished
      table.  SSTableSpec: the interface [TableAccess], what the clients of a
      table rely on, and its instance.  SSTableProps: the package's theorems.
    - Heap: container/heap as in the standard library, with its invariants.
    - Compact: compact/compact.go.  CompactFacts: the order of the heap, and the
      merge as a function on sorted entries.  CompactMerge: the loop of
      MergeFiles, proved against [TableAccess].  CompactProps: the theorems.
      TableEnds: iterating, merging and writing tables return on any files.
    - Manifest, ManifestFacts, ManifestProps: manifest/manifest.go, its formats,
      the states of its file, and the theorems.
    - FileLock: filelock/lock.go.
    - Db: lsmkv/db.go, composed of the above.  DbProps: refused calls, and
      computed examples of what failures do to a database.
    - The refinement of Db to a finite map.  DbSpec: the map that a collection of
      sequence-numbered entries means ([contents]), and how writes, flushes and
      merges change it.  DbFiles: the directory of a database as the sum of its
      files ([directory]).  DbLedger: tables and log as one collection, and its
      sizes ([ledger]).  DbState: the invariant of an open database
      ([holds_map]).  DbFlush, DbRefine, DbIter, DbCompact: each operation
      against the invariant.  DbOpen: directories that no process uses
      ([at_rest]), with or without a lock file, opening, closing, and crashes.
      DbRun: the theorems, and what opening does after a death ([reopens]).
      DbCrash: failing calls, and the death of the process after them ([killed]).
      DbEnds: no call runs for ever, whatever the files hold.
    - Kill: a process that dies at one of its calls of package os ([killed_at]),
      and the rule for composing what survives that ([surviving_bind]), for
      programs made of such calls ([mortal]).  KillParts: the packages' programs.
      DbReopen: processes killed while they open or close a directory.  DbKill: a
      database whose processes are killed anywhere.
    - DbSteps: the methods of Db cut at every call where a goroutine may be
      interrupted ([code]), each proved to be the method when it runs through
      ([implements]).  DbThreads: goroutines, the read-write mutex of a database
      and the steps they make ([cstep], and [step_thread] to compute them).

    ** What the theorems show

    - Durability: what was appended to the log is replayed after reopening
      ([Wal.Open_append_Replay]), also when the file is cut anywhere
      ([Wal.crash_recovery]); sequence numbers increase over resets; MANIFEST is
      replaced atomically whatever fails ([ManifestProps.persist_atomic]) and
      reopening gives the manifest in memory.
    - The database is a map: whatever calls a client makes, reopening included,
      [Get], [Has] and iterators answer as a finite map
      ([DbRun.database_is_map]); a crash in the middle of a write leaves the map
      before or after it ([DbRun.crash_keeps_writes]); [Flush] and [Compact]
      rearrange the files without changing an answer.
    - Deaths and the lock: a process that dies leaves every file, its lock file
      included, and [FileLock.Acquire] does not look whether the holder lives.
      So after a death, [Open] is refused with [ErrLocked] and changes nothing,
      until the lock file is 24 hours old or somebody removes it; from then on it
      succeeds.  The theorems about deaths state both ([DbRun.reopens],
      [DbKill.recovers]), for later processes with any clock; [DbOpen.unlock] is
      the removal.  What else a dead process left, an unfinished MANIFEST.tmp,
      log frame or table, stays and is dealt with by the code.
    - Concurrency: however the steps of goroutines interleave, their calls are a
      history of one map in the order in which they return
      ([DbThreads.goroutines_serialized]); they do not deadlock
      ([DbThreads.goroutines_progress]), but for one that writes while it
      iterates ([DbThreads.iterator_blocks_writes]).  A memtable's iterator, which holds
      no lock between its steps, is weakly consistent
      ([SkipListIter.Iterator_weakly_consistent]).
    - Failure atomicity: whatever calls of package os fail, writes and flushes
      that reported success survive the death of the process, and one that
      failed has its whole effect or none ([DbCrash.interrupted_calls]).
    - Kills: a process may be killed at any of its calls of package os, within
      a compaction or while it recovers a directory, again and again; once its
      lock file does not count any more, the database can be opened and has lost
      nothing ([DbKill.kills_survived]).  Not so if a read fails while the log is
      opened: what follows is cut off, or left out of the memtable
      ([WalErrors.read_error_truncates], [WalErrors.read_error_hides]).
    - Refinement and functional behaviour: the skip list implements a sorted
      list, hence a map of newest writes; a table answers lookups and iterates
      as the list of entries it was written from; a merge answers for every key
      the newest of its inputs' entries ([CompactProps.MergeFiles_merges]).
    - Round trips of every encoding: varints, length-prefixed slices, bloom
      filters, blocks, the log, both manifest formats.
    - Detection of damage: checksums detect bursts ([Crc32x.CheckTrailingLE_bursts])
      and a damaged block is an error of the lookups that reach it, never a
      wrong answer ([SSTableProps.WriteFile_damage]).
    - Termination on arbitrary input: opening a directory with any files, and
      then every call on the database, comes to an end, whichever calls of
      package os fail ([DbEnds.calls_end]); corrupt files can make it a panic.
      So do recovery, table lookups, [Acquire] and manifest decoding, the latter
      without a panic and with a well-typed state ([ManifestProps.decodeBinary_safe]).
    - Errors: which calls are refused and that a refused call changes nothing
      ([DbProps.refused_calls]); a failed write of a table leaves no file.
    - What goes wrong: theorems that exhibit the flaws the modelling found
      (PROJECT.json lists them), such as a failed [AddFile] that leaves its table
      in the manifest ([ManifestProps.failed_AddFile_sticks]), and examples.

    ** Fuel

    Loops without a structural measure take fuel, and [Stuck] is the outcome
    when it runs out; theorems of the form [ends _] say that it does not.  The
    fuel is a bound computed from the data: ten groups for a varint, the
    length of the list for loops over slices, the file's size for the log's
    frames (each has a header), the number of nodes for the skip list, the
    width of the interval for binary search, [reader_fuel] (the sizes of the
    blocks, an entry taking at least a byte) for iterators and merges.
    [Acquire], whose attempts depend on the clock, takes its fuel as an argument
    and [FileLock.Acquire_returns] says how much is enough.

    ** Bounds

    The theorems of DbRun hold for databases to which less than a terabyte was
    ever written: [V] in [holds_map] bounds the sizes of all entries, the
    sequence numbers and the table numbers at once, so that no counter of the
    code wraps around ([ledger]).  [room cap V] says besides that no table can
    have more than [cap] entries, and [blooms_fit cap] that the filters of such
    tables get an acceptable size from the float64 arithmetic.  An operation has
    at most 256 MB ([loggable]), the limit of the log's reader.

    ** Parameters

    - [Bloom.Float64]: the float64 operations and logarithms that size a filter.
      No law is assumed; a theorem that needs a bound on the size states it.
    - [Manifest.Json], [ManifestFacts.JsonOk]: encoding/json on a State and the
      text of the current time.  The laws are that Unmarshal inverts
      MarshalIndent, and that the clock does not foresee failures; [ManifestProps.Codec] is an instance.
    - [FileLock.Env]: process id, host name, the clock, the age of files, and
      what happens to the world during a sleep.  [KillParts.ClockOk]: the clock
      and the ages of files do not foresee failures.
    - the numbers of the skip list's random generator ([seed]).

    ** Not modelled

    - The mutexes of the log, the memtable and the manifest, which a database
      uses under its own: in DbThreads a call of one of their methods is one
      step.  Goroutines call neither [Close] nor [Sync] nor [Stats], and close their
      own iterators; the scheduler may be unfair.  Races of the memtable iterator's unlocked reads, as the memory
      model has them, are not.
    - Crashes are modelled for the log (a file cut at any byte, also under a
      database), after any failing call of a write or a flush, and at any call
      of any method, but not within the first opening of an empty directory; a
      crash keeps the data of completed writes, so Sync matters only through its
      errors.
    - The order in which [Compact] removes the merged files, which is that of a Go
      map: the model removes them in the order of the inputs.
    - Directories, permissions and links: a path is a string, MkdirAll has no
      effect.  The content of a slice is a value: no theorem is about two slices
      that share storage.
    - [DB.String] (formatting of statistics), formatting of error texts beyond
      the wrapped error, and exhaustion of memory. *)

From Stdlib Require Import ZArith Lia Strings.Byte.
From stdpp Require Import base decidable list gmap strings numbers countable sorting.

#[local] Open Scope Z_scope.

(** ** Go scalars *)

(** [len l] is Go's [len(l)]: slice lengths are [int]s, hence integers. *)
Abbreviation len l := (Z.of_nat (length l)).

(** A machine integer is a [Z]; these functions are Go's conversions, which
    keep the low bits.  [i64] is also Go's [int] on the 64-bit platforms the
    library is built for. *)
Definition u8 (z : Z) : Z := z mod 2 ^ 8.
Definition u16 (z : Z) : Z := z mod 2 ^ 16.
Definition u32 (z : Z) : Z := z mod 2 ^ 32.
Definition u64 (z : Z) : Z := z mod 2 ^ 64.
Definition i64 (z : Z) : Z := (z + 2 ^ 63) mod 2 ^ 64 - 2 ^ 63.

(** ** Bytes *)

(** The value of a byte and the byte holding the low eight bits of an integer
    (Go's conversions [uint64(c)] and [byte(x)]). *)
Definition b2z (b : byte) : Z := Z.of_N (Byte.to_N b).
Definition z2b (z : Z) : byte := default x00 (Byte.of_N (Z.to_N (u8 z))).

#[export] Instance byte_eq_dec : EqDecision byte := Byte.byte_eq_dec.
#[export] Program Instance byte_countable : Countable byte :=
  inj_countable' Byte.to_N (fun n => default x00 (Byte.of_N n)) _.
Next Obligation. intros x. cbn beta. by rewrite Byte.of_to_N. Qed.

(** A Go [[]byte] value: [None] is the nil slice, which has the same elements
    as an empty one but is distinguished by comparisons with [nil].  Slices are
    values here: no claim below depends on two slices sharing storage. *)
Abbreviation slice := (option (list byte)).
Definition bs (s : slice) : list byte := match s with Some l => l | None => [] end.
Definition is_nil (s : slice) : bool := if s is None then true else false.

(** [append([]byte(nil), b...)]: nil when there is nothing to append. *)
Definition append_nil (b : list byte) : slice := if b is [] then None else Some b.

(** [copy(dst[off:], src)] for an offset inside [dst]: overwrites as many bytes
    as both sides have. *)
Definition copy_at (dst : list byte) (off : nat) (src : list byte) : list byte :=
  take off dst ++ take (length dst - off) src ++ drop (off + length src) dst.

(** ** Little- and big-endian fixed-width integers (package encoding/binary) *)

Fixpoint le_bytes (n : nat) (z : Z) : list byte :=
  match n with
  | O => []
  | S n' => z2b z :: le_bytes n' (Z.shiftr z 8)
  end.

Fixpoint le_val (l : list byte) : Z :=
  match l with
  | [] => 0
  | b :: l' => b2z b + 256 * le_val l'
  end.

Definition be_bytes (n : nat) (z : Z) : list byte := rev (le_bytes n z).
Definition be_val (l : list byte) : Z := le_val (rev l).

(** ** Errors, panics and outcomes *)

(** Kinds of operating-system failure the code tells apart. *)
Inductive os_errkind := ErrNotExist | ErrExist | ErrIO.

(** A Go error value.  Sentinels made by [errors.New] are told apart by their
    message (no two sentinels of the program share one); [fmt.Errorf] errors
    keep their format string. *)
Inductive error :=
  | errors_New (msg : string)
  | fmt_Errorf (format : string)
  | os_error (k : os_errkind).

#[export] Instance os_errkind_eq_dec : EqDecision os_errkind.
Proof. solve_decision. Defined.
#[export] Instance error_eq_dec : EqDecision error.
Proof. solve_decision. Defined.

Definition io_EOF : error := errors_New "EOF".
Definition io_ErrUnexpectedEOF : error := errors_New "unexpected EOF".
Definition io_ErrShortWrite : error := errors_New "short write".

(** Run-time panics, and [panic(err)]. *)
Inductive panic := IndexOutOfRange | SliceBounds | MakeSlice | NilDeref | DivideByZero | PanicErr (e : error).

(** What a call does: it returns, it returns a non-nil error (and the zero
    value for its other results, unless its definition says otherwise), it
    panics, or the fuel given to one of its loops is used up ([Stuck], which
    the theorems rule out). *)
Inductive outcome (A : Type) :=
  | Ok (a : A)
  | Err (e : error)
  | Panic (p : panic)
  | Stuck.
Arguments Ok {_} _.
Arguments Err {_} _.
Arguments Panic {_} _.
Arguments Stuck {_}.

#[export] Instance outcome_ret : MRet outcome := @Ok.
#[export] Instance outcome_bind : MBind outcome := fun A B f m =>
  match m with
  | Ok a => f a
  | Err e => Err e
  | Panic p => Panic p
  | Stuck => Stuck
  end.
#[export] Instance outcome_fmap : FMap outcome := fun A B f m =>
  match m with
  | Ok a => Ok (f a)
  | Err e => Err e
  | Panic p => Panic p
  | Stuck => Stuck
  end.

(** [if err != nil { return ..., e' }]: any error becomes [e']. *)
Definition or_err {A} (e' : error) (m : outcome A) : outcome A :=
  match m with Err _ => Err e' | _ => m end.

Definition is_ok {A} (m : outcome A) : bool := if m is Ok _ then true else false.

(** [b[i]], with the run-time bounds check. *)
Definition index {A} (l : list A) (i : Z) : outcome A :=
  if decide (0 <= i) then
    match l !! Z.to_nat i with Some a => Ok a | None => Panic IndexOutOfRange end
  else Panic IndexOutOfRange.

(** [b[i:j]] and [b[i:]] for a slice whose capacity is its length. *)
Definition subslice {A} (l : list A) (i j : Z) : outcome (list A) :=
  if decide (0 <= i /\ i <= j /\ j <= len l)
  then Ok (take (Z.to_nat (j - i)) (drop (Z.to_nat i) l))
  else Panic SliceBounds.

Definition slice_from {A} (l : list A) (i : Z) : outcome (list A) :=
  if decide (0 <= i /\ i <= len l) then Ok (drop (Z.to_nat i) l) else Panic SliceBounds.

(** [binary.LittleEndian.UintN(b[i:j])]. *)
Definition uint_at (b : list byte) (i j : Z) : outcome Z := s ← subslice b i j; Ok (le_val s).

(** [b[i] = v]. *)
Definition set_index {A} (l : list A) (i : Z) (v : A) : outcome (list A) :=
  if decide (0 <= i /\ i < len l) then Ok (<[Z.to_nat i := v]> l) else Panic IndexOutOfRange.

(** [make([]T, n)] and [make([]T, 0, n)] with elements of [size] bytes: the
    allocator of 64-bit Go refuses more than 2^48 bytes. *)
Definition make_check (size n : Z) : outcome unit :=
  if decide (0 <= n /\ n * size <= 2 ^ 48) then Ok tt else Panic MakeSlice.

(** ** State *)

(** A method that may change a state of type [S]: whatever the outcome, the
    state it leaves behind is kept, as in Go. *)
Definition M (S A : Type) : Type := S -> outcome A * S.

#[export] Instance M_ret S : MRet (M S) := fun A a s => (Ok a, s).
#[export] Instance M_bind S : MBind (M S) := fun A B f m s =>
  match m s with
  | (Ok a, s') => f a s'
  | (Err e, s') => (Err e, s')
  | (Panic p, s') => (Panic p, s')
  | (Stuck, s') => (Stuck, s')
  end.

(** Reading the state, changing it, and lifting an outcome. *)
Definition gets {S A} (f : S -> A) : M S A := fun s => (Ok (f s), s).
Definition modify {S} (f : S -> S) : M S unit := fun s => (Ok tt, f s).
Definition lift {S A} (m : outcome A) : M S A := fun s => (m, s).
Definition throw {S A} (e : error) : M S A := fun s => (Err e, s).

(** [v, err := m] without the early return: the caller looks at the error. *)
Definition try_ {S A} (m : M S A) : M S (A + error) := fun s =>
  match m s with
  | (Ok a, s') => (Ok (inl a), s')
  | (Err e, s') => (Ok (inr e), s')
  | (Panic p, s') => (Panic p, s')
  | (Stuck, s') => (Stuck, s')
  end.

(** Running a method of a component of the state. *)
Definition zoom {S T A} (get : S -> T) (put : T -> S -> S) (m : M T A) : M S A := fun s =>
  match m (get s) with (r, t) => (r, put t s) end.

(** A call [m] on a local object [l] next to the state; the object is dropped
    when the call fails. *)
Definition scoped {L S A} (m : M (L * S) A) (l : L) : M S (A * L) := fun s =>
  match m (l, s) with
  | (Ok a, (l', s')) => (Ok (a, l'), s')
  | (Err e, (_, s')) => (Err e, s')
  | (Panic p, (_, s')) => (Panic p, s')
  | (Stuck, (_, s')) => (Stuck, s')
  end.

(** ** Counted loops

    [for i := 0; i < n; i++] over a state [S]; the body returns [inr] to leave
    the enclosing function.  [loop_pos] runs the body as many times as its
    binary argument says, so that no fuel is needed even for the 64-bit counts
    the decoders read from their input. *)
Fixpoint loop_nat {S R} (n : nat) (body : S -> outcome (S + R)) (s : S) : outcome (S + R) :=
  match n with
  | O => Ok (inl s)
  | S n => r ← body s; match r with inl s => loop_nat n body s | inr r => Ok (inr r) end
  end.

Fixpoint loop_pos {S R} (p : positive) (body : S -> outcome (S + R)) (s : S) : outcome (S + R) :=
  match p with
  | xH => body s
  | xO p =>
      r ← loop_pos p body s;
      match r with inl s => loop_pos p body s | inr r => Ok (inr r) end
  | xI p =>
      r ← body s;
      match r with
      | inl s =>
          r ← loop_pos p body s;
          match r with inl s => loop_pos p body s | inr r => Ok (inr r) end
      | inr r => Ok (inr r)
      end
  end.

Definition loop {S R} (n : Z) (body : S -> outcome (S + R)) (s : S) : outcome (S + R) :=
  match n with Zpos p => loop_pos p body s | _ => Ok (inl s) end.

(** Unfolds the operations of the two monads. *)
Ltac run_M :=
  unfold mbind, outcome_bind, M_bind, mret, outcome_ret, M_ret, fmap, outcome_fmap,
    gets, modify, lift, throw, try_, zoom, or_err; cbn beta iota zeta.

(** ** The order of byte strings (package bytes) *)

Fixpoint lex (a b : list byte) : comparison :=
  match a, b with
  | [], [] => Eq
  | [], _ :: _ => Lt
  | _ :: _, [] => Gt
  | x :: a', y :: b' =>
      match b2z x ?= b2z y with Eq => lex a' b' | c => c end
  end.

(** [bytes.Compare]. *)
Definition bytes_Compare (a b : list byte) : Z :=
  match lex a b with Lt => -1 | Eq => 0 | Gt => 1 end.

Definition blt (a b : list byte) : Prop := lex a b = Lt.
Definition ble (a b : list byte) : Prop := lex a b <> Gt.

#[export] Instance blt_dec a b : Decision (blt a b).
Proof. unfold blt. apply _. Defined.
#[export] Instance ble_dec a b : Decision (ble a b).
Proof. unfold ble. apply _. Defined.

(** * Lemmas *)

Create HintDb go.
Create Rewrite HintDb go.

(** ** Scalars *)

Lemma u8_range z : 0 <= u8 z < 2 ^ 8.
Proof. unfold u8. apply Z.mod_pos_bound. lia. Qed.
Lemma u16_range z : 0 <= u16 z < 2 ^ 16.
Proof. unfold u16. apply Z.mod_pos_bound. lia. Qed.
Lemma u32_range z : 0 <= u32 z < 2 ^ 32.
Proof. unfold u32. apply Z.mod_pos_bound. lia. Qed.
Lemma u64_range z : 0 <= u64 z < 2 ^ 64.
Proof. unfold u64. apply Z.mod_pos_bound. lia. Qed.
Lemma i64_range z : - 2 ^ 63 <= i64 z < 2 ^ 63.
Proof. unfold i64. pose proof (Z.mod_pos_bound (z + 2 ^ 63) (2 ^ 64)). lia. Qed.

Lemma u8_small z : 0 <= z < 2 ^ 8 -> u8 z = z.
Proof. apply Z.mod_small. Qed.
Lemma u16_small z : 0 <= z < 2 ^ 16 -> u16 z = z.
Proof. apply Z.mod_small. Qed.
Lemma u32_small z : 0 <= z < 2 ^ 32 -> u32 z = z.
Proof. apply Z.mod_small. Qed.
Lemma u64_small z : 0 <= z < 2 ^ 64 -> u64 z = z.
Proof. apply Z.mod_small. Qed.
Lemma i64_small z : - 2 ^ 63 <= z < 2 ^ 63 -> i64 z = z.
Proof. intros. unfold i64. rewrite Z.mod_small; lia. Qed.

#[export] Hint Resolve u8_range u16_range u32_range u64_range i64_range : go.

(** Congruence: wrapping a sum of wrapped terms is wrapping the sum. *)
Lemma u64_add_l a b : u64 (u64 a + b) = u64 (a + b).
Proof. unfold u64. apply Zplus_mod_idemp_l. Qed.
Lemma u32_add_l a b : u32 (u32 a + b) = u32 (a + b).
Proof. unfold u32. apply Zplus_mod_idemp_l. Qed.
Lemma i64_add_l a b : i64 (i64 a + b) = i64 (a + b).
Proof.
  unfold i64. f_equal.
  replace ((a + 2 ^ 63) mod 2 ^ 64 - 2 ^ 63 + b + 2 ^ 63) with ((a + 2 ^ 63) mod 2 ^ 64 + b) by lia.
  rewrite Zplus_mod_idemp_l. f_equal. lia.
Qed.
Lemma i64_assoc a b c : i64 (a + i64 (b + c)) = i64 (i64 (a + b) + c).
Proof.
  rewrite i64_add_l, Z.add_comm, i64_add_l. f_equal. lia.
Qed.
Lemma i64_sub_r a b : i64 (a - i64 b) = i64 (a - b).
Proof.
  unfold i64. f_equal.
  replace (a - ((b + 2 ^ 63) mod 2 ^ 64 - 2 ^ 63) + 2 ^ 63)
    with ((a + 2 ^ 64) - (b + 2 ^ 63) mod 2 ^ 64) by lia.
  rewrite Zminus_mod_idemp_r. f_equal. lia.
Qed.

(** [lia] with the division equations. *)
Ltac divlia := Z.to_euclidean_division_equations; lia.

(** Bits: an [or] that does not overlap is a sum, and [xor] with all ones is a
    difference. *)
Lemma testbit_high a s i : 0 <= a < 2 ^ s -> 0 <= s <= i -> Z.testbit a i = false.
Proof.
  intros Ha Hs. assert (a = a mod 2 ^ s) as -> by (symmetry; by apply Z.mod_small).
  by apply Z.mod_pow2_bits_high.
Qed.

Lemma land_low_high a b s : 0 <= s -> 0 <= a < 2 ^ s -> Z.land a (Z.shiftl b s) = 0.
Proof.
  intros Hs Ha. apply Z.bits_inj'. intros i Hi. rewrite Z.land_spec, Z.bits_0.
  destruct (Z.lt_ge_cases i s).
  - rewrite Z.shiftl_spec_low by lia. apply andb_false_r.
  - by rewrite (testbit_high a s).
Qed.

Lemma lor_low_high a b s : 0 <= s -> 0 <= a < 2 ^ s -> Z.lor a (Z.shiftl b s) = a + b * 2 ^ s.
Proof.
  intros Hs Ha. rewrite <- Z.shiftl_mul_pow2 by done.
  pose proof (Z.add_lor_land a (Z.shiftl b s)) as E. rewrite land_low_high in E by done. lia.
Qed.

Lemma lxor_ones a n : 0 <= n -> 0 <= a < 2 ^ n -> Z.lxor a (Z.ones n) = Z.ones n - a.
Proof.
  intros Hn Ha.
  assert (forall i, 0 <= i -> Z.testbit a i = true -> Z.testbit (Z.ones n) i = true) as Hb.
  { intros i Hi Ht. apply Z.ones_spec_low. split; [done|].
    destruct (Z.lt_ge_cases i n); [done|]. by rewrite (testbit_high a n) in Ht. }
  rewrite Z.sub_nocarry_ldiff; apply Z.bits_inj'; intros i Hi; specialize (Hb i Hi);
    rewrite ?Z.ldiff_spec, ?Z.lxor_spec, ?Z.bits_0;
    destruct (Z.testbit a i), (Z.testbit (Z.ones n) i); naive_solver.
Qed.

(** A decidable fact about the integers below [n], by evaluation. *)
Lemma below_forall (n : nat) (P : Z -> bool) :
  forallb (fun k => P (Z.of_nat k)) (seq 0 n) = true -> forall z, 0 <= z < Z.of_nat n -> P z = true.
Proof.
  rewrite forallb_forall. intros H z Hz. rewrite <- (Z2Nat.id z) by lia.
  apply H, in_seq. lia.
Qed.

(** ** Bytes *)

Lemma b2z_range b : 0 <= b2z b < 256.
Proof.
  unfold b2z. pose proof (Byte.to_N_bounded b). lia.
Qed.
#[export] Hint Resolve b2z_range : go.

Lemma z2b_b2z b : z2b (b2z b) = b.
Proof.
  unfold z2b. rewrite u8_small by (apply b2z_range).
  unfold b2z. by rewrite N2Z.id, Byte.of_to_N.
Qed.

Lemma b2z_z2b z : b2z (z2b z) = u8 z.
Proof.
  unfold z2b, b2z. pose proof (u8_range z).
  destruct (Byte.of_N (Z.to_N (u8 z))) eqn:E; cbn.
  - apply Byte.to_of_N in E. rewrite E. lia.
  - apply Byte.of_N_None_iff in E. lia.
Qed.

Lemma b2z_inj a b : b2z a = b2z b -> a = b.
Proof. intros E. by rewrite <- (z2b_b2z a), E, z2b_b2z. Qed.
#[export] Instance b2z_Inj : Inj (=) (=) b2z.
Proof. intros a b. apply b2z_inj. Qed.

Lemma z2b_u8 z : z2b (u8 z) = z2b z.
Proof. apply b2z_inj. rewrite !b2z_z2b. unfold u8. by rewrite Z.mod_mod. Qed.

#[export] Hint Rewrite z2b_b2z b2z_z2b : go.

(** ** Fixed-width integers *)

Lemma length_le_bytes n z : length (le_bytes n z) = n.
Proof. revert z. induction n as [|n IH]; intros z; cbn; auto. Qed.
Lemma length_be_bytes n z : length (be_bytes n z) = n.
Proof. unfold be_bytes. by rewrite length_rev, length_le_bytes. Qed.
#[export] Hint Rewrite length_le_bytes length_be_bytes : go.

Lemma le_val_range l : 0 <= le_val l < 256 ^ len l.
Proof.
  induction l as [|b l IH]; cbn [le_val length]; [lia|].
  rewrite Nat2Z.inj_succ, Z.pow_succ_r by lia. pose proof (b2z_range b). lia.
Qed.

Lemma le_val_app l k : le_val (l ++ k) = le_val l + 256 ^ len l * le_val k.
Proof.
  induction l as [|b l IH]; cbn [app le_val length]; [lia|].
  rewrite IH, Nat2Z.inj_succ, Z.pow_succ_r by lia. lia.
Qed.

Lemma le_val_high l k : Z.shiftr (le_val (l ++ k)) (8 * len l) = le_val k.
Proof.
  rewrite Z.shiftr_div_pow2, Z.pow_mul_r, le_val_app by lia. change (2 ^ 8) with 256.
  rewrite (Z.mul_comm (256 ^ _)), Z.div_add by lia.
  rewrite Z.div_small by apply le_val_range. lia.
Qed.

Lemma le_val_bytes n z : le_val (le_bytes n z) = z mod 256 ^ Z.of_nat n.
Proof.
  revert z. induction n as [|n IH]; intros z; [by rewrite Z.mod_1_r|].
  cbn [le_bytes le_val]. rewrite IH, b2z_z2b, Z.shiftr_div_pow2 by lia.
  rewrite Nat2Z.inj_succ, Z.pow_succ_r by lia. unfold u8.
  rewrite Z.rem_mul_r by lia. reflexivity.
Qed.

Lemma le_bytes_val l : le_bytes (length l) (le_val l) = l.
Proof.
  induction l as [|b l IH]; [done|]. cbn [length le_val le_bytes]. f_equal.
  - rewrite <- z2b_u8. unfold u8.
    rewrite (Z.mul_comm 256), Z.mod_add, Z.mod_small, z2b_b2z; auto with go; lia.
  - rewrite Z.shiftr_div_pow2 by lia. pose proof (b2z_range b).
    replace ((b2z b + 256 * le_val l) / 2 ^ 8) with (le_val l); [done|].
    apply Z.div_unique with (b2z b); lia.
Qed.

Lemma be_val_bytes n z : be_val (be_bytes n z) = z mod 256 ^ Z.of_nat n.
Proof. unfold be_val, be_bytes. by rewrite rev_involutive, le_val_bytes. Qed.

Lemma be_bytes_val l : be_bytes (length l) (be_val l) = l.
Proof.
  unfold be_val, be_bytes. rewrite <- (length_rev l), le_bytes_val. apply rev_involutive.
Qed.

Lemma le_bytes_val_n n l : length l = n -> le_bytes n (le_val l) = l.
Proof. intros <-. apply le_bytes_val. Qed.
Lemma be_bytes_val_n n l : length l = n -> be_bytes n (be_val l) = l.
Proof. intros <-. apply be_bytes_val. Qed.

(** The three widths the code uses. *)
Lemma le_val_bytes2 z : le_val (le_bytes 2 z) = u16 z.
Proof. apply le_val_bytes. Qed.
Lemma le_val_bytes4 z : le_val (le_bytes 4 z) = u32 z.
Proof. apply le_val_bytes. Qed.
Lemma le_val_bytes8 z : le_val (le_bytes 8 z) = u64 z.
Proof. apply le_val_bytes. Qed.
#[export] Hint Rewrite le_val_bytes2 le_val_bytes4 le_val_bytes8 : go.

(** ** Lists *)

Lemma filter_all {A} (P : A -> Prop) `{!forall x, Decision (P x)} l : Forall P l -> filter P l = l.
Proof.
  induction 1 as [|x l Hx _ IH]; [done|]. rewrite filter_cons, decide_True by done. by rewrite IH.
Qed.

Lemma filter_none {A} (P : A -> Prop) `{!forall x, Decision (P x)} l :
  Forall (fun x => ~ P x) l -> filter P l = [].
Proof.
  induction 1 as [|x l Hx _ IH]; [done|]. by rewrite filter_cons, decide_False.
Qed.

Lemma take_app_exact {A} (l k : list A) n : n = length l -> take n (l ++ k) = l.
Proof. intros ->. apply take_app_length. Qed.
Lemma drop_app_exact {A} (l k : list A) n : n = length l -> drop n (l ++ k) = k.
Proof. intros ->. apply drop_app_length. Qed.

Lemma copy_at_0 dst src :
  copy_at dst 0 src = take (length dst) src ++ drop (length src) dst.
Proof. unfold copy_at. by rewrite take_0, Nat.sub_0_r. Qed.

Lemma copy_at_app dst1 dst2 dst3 src off :
  off = length dst1 -> length dst2 = length src ->
  copy_at (dst1 ++ dst2 ++ dst3) off src = dst1 ++ src ++ dst3.
Proof.
  intros -> Hl. unfold copy_at. rewrite take_app_length. f_equal.
  rewrite (take_ge src) by (rewrite !length_app; lia). f_equal.
  rewrite app_assoc, drop_app_exact; [done|]. rewrite length_app. lia.
Qed.

Lemma length_copy_at dst off src :
  (off <= length dst)%nat -> length (copy_at dst off src) = length dst.
Proof.
  intros. unfold copy_at. rewrite !length_app, !length_take, length_drop. lia.
Qed.

Lemma index_lookup {A} (l : list A) i a :
  index l i = Ok a <-> 0 <= i /\ l !! Z.to_nat i = Some a.
Proof.
  unfold index. case_decide; [|naive_solver].
  destruct (l !! Z.to_nat i) eqn:E; naive_solver.
Qed.

Lemma index_app_r {A} (l k : list A) a i : i = len l -> index (l ++ a :: k) i = Ok a.
Proof.
  intros ->. apply index_lookup. split; [lia|].
  rewrite Nat2Z.id. by apply list_lookup_middle.
Qed.

Lemma slice_from_app {A} (l k : list A) i : i = len l -> slice_from (l ++ k) i = Ok k.
Proof.
  intros ->. unfold slice_from. rewrite decide_True by (rewrite length_app; lia).
  by rewrite Nat2Z.id, drop_app_length.
Qed.

Lemma slice_from_0 {A} (l : list A) : slice_from l 0 = Ok l.
Proof. by apply (slice_from_app []). Qed.

Lemma subslice_app {A} (l k m : list A) i j :
  i = len l -> j = len l + len k -> subslice (l ++ k ++ m) i j = Ok k.
Proof.
  intros -> ->. unfold subslice.
  rewrite decide_True by (rewrite !length_app; lia).
  rewrite Nat2Z.id, drop_app_length, take_app_exact; [done|lia].
Qed.

Lemma subslice_0 {A} (k m : list A) j : j = len k -> subslice (k ++ m) 0 j = Ok k.
Proof. intros ->. by apply (subslice_app []). Qed.

Lemma subslice_take {A} (l : list A) i : 0 <= i <= len l -> subslice l 0 i = Ok (take (Z.to_nat i) l).
Proof. intros. unfold subslice. rewrite decide_True by lia. by rewrite Z.sub_0_r. Qed.

Lemma uint_at_nonneg b i j v : uint_at b i j = Ok v -> 0 <= v.
Proof.
  unfold uint_at, subslice. destruct (decide _); [|done]. intros [= <-]. apply le_val_range.
Qed.

(** [solve_len] proves linear facts about lengths; [zif] decides the integer
    tests of the goal that [solve_len] settles. *)
#[export] Hint Rewrite @length_app @length_take @length_drop @length_replicate @length_insert
  @length_map @length_rev @Nat2Z.inj_add @Nat2Z.inj_succ : go.
Ltac solve_len := autorewrite with go in *; cbn [length] in *; lia.
Ltac zif :=
  repeat match goal with
  | |- context [?a >? ?b] => rewrite (Z.gtb_ltb a b)
  | |- context [?a >=? ?b] => rewrite (Z.geb_leb a b)
  | |- context [?a <? ?b] =>
      first [rewrite (proj2 (Z.ltb_ge a b)) by solve_len
            |rewrite (proj2 (Z.ltb_lt a b)) by solve_len]
  | |- context [?a <=? ?b] =>
      first [rewrite (proj2 (Z.leb_gt a b)) by solve_len
            |rewrite (proj2 (Z.leb_le a b)) by solve_len]
  | |- context [?a =? ?b] =>
      first [rewrite (proj2 (Z.eqb_neq a b)) by solve_len
            |rewrite (proj2 (Z.eqb_eq a b)) by solve_len]
  end; cbn [negb andb orb].

(** The same for [decide]. *)
Ltac dsolve := first [done | solve_len | (split_and!; first [done | solve_len])
  | (intros ?; destruct_and?; first [done | solve_len])].
Ltac ddec :=
  repeat match goal with
  | |- context [@decide ?P _] =>
      first [rewrite (decide_True (P := P)) by dsolve | rewrite (decide_False (P := P)) by dsolve]
  end.

(** ** Outcomes *)

Lemma outcome_bind_Ok {A B} (a : A) (f : A -> outcome B) : (Ok a ≫= f) = f a.
Proof. done. Qed.

Lemma bind_Ok_inv {A B} (m : outcome A) (f : A -> outcome B) b :
  m ≫= f = Ok b -> exists a, m = Ok a /\ f a = Ok b.
Proof. destruct m; cbn; naive_solver. Qed.

Lemma M_bind_Ok {S A B} (m : M S A) (f : A -> M S B) s a s' :
  m s = (Ok a, s') -> (m ≫= f) s = f a s'.
Proof. unfold mbind, M_bind. by intros ->. Qed.

Lemma M_bind_Err {S A B} (m : M S A) (f : A -> M S B) s e s' :
  m s = (Err e, s') -> (m ≫= f) s = (Err e, s').
Proof. unfold mbind, M_bind. by intros ->. Qed.

Lemma loop_nat_app {S R} n k (body : S -> outcome (S + R)) s :
  loop_nat (n + k) body s =
    (r ← loop_nat n body s;
     match r with inl s => loop_nat k body s | inr r => Ok (inr r) end).
Proof.
  revert s. induction n as [|n IH]; intros s; cbn [loop_nat Nat.add]; [done|].
  destruct (body s) as [[s'|r]| | |]; cbn; [apply IH|done..].
Qed.

Lemma loop_pos_nat {S R} p (body : S -> outcome (S + R)) s :
  loop_pos p body s = loop_nat (Pos.to_nat p) body s.
Proof.
  revert s. induction p as [p IH|p IH|]; intros s; cbn [loop_pos].
  - rewrite Pos2Nat.inj_xI. cbn [loop_nat]. destruct (body s) as [[s'|r]| | |]; cbn; try done.
    rewrite Nat.add_0_r, loop_nat_app, IH. destruct (loop_nat _ _ _) as [[]| | |]; cbn; [apply IH|done..].
  - rewrite Pos2Nat.inj_xO. cbn [Nat.mul]. rewrite Nat.add_0_r, loop_nat_app, IH.
    destruct (loop_nat _ _ _) as [[]| | |]; cbn; [apply IH|done..].
  - change (Pos.to_nat 1) with 1%nat. cbn. by destruct (body s) as [[s1|r]| | |].
Qed.

Lemma loop_loop_nat {S R} n (body : S -> outcome (S + R)) s :
  loop n body s = loop_nat (Z.to_nat n) body s.
Proof. destruct n; [done|apply loop_pos_nat|done]. Qed.

(** ** Termination

    A call [ends] when its outcome is not that of exhausted fuel; the tactics
    decide it by the shape of the definition. *)
Definition ends {A} (m : outcome A) : Prop := m <> Stuck.
Definition always_ends {S A} (m : M S A) : Prop := forall s, ends (fst (m s)).

Lemma ends_bind {A B} (m : outcome A) (g : A -> outcome B) :
  ends m -> (forall a, ends (g a)) -> ends (m ≫= g).
Proof. unfold ends. destruct m; cbn; auto; done. Qed.

Lemma ends_or_err {A} e (m : outcome A) : ends m -> ends (or_err e m).
Proof. by destruct m. Qed.
Lemma ends_slice_from {A} (l : list A) i : ends (slice_from l i).
Proof. unfold slice_from. by case_decide. Qed.
Lemma ends_subslice {A} (l : list A) i j : ends (subslice l i j).
Proof. unfold subslice. by case_decide. Qed.
Lemma ends_index {A} (l : list A) i : ends (index l i).
Proof. unfold index. case_decide; [|done]. by case_match. Qed.
Lemma ends_make n k : ends (make_check n k).
Proof. unfold make_check. by case_decide. Qed.
Lemma ends_loop_nat {S R} n (body : S -> outcome (S + R)) s :
  (forall s, ends (body s)) -> ends (loop_nat n body s).
Proof.
  intros Hb. revert s. induction n as [|n IH]; intros s; cbn [loop_nat]; [done|].
  apply ends_bind; [done|]. intros [s'|r]; [apply IH|done].
Qed.

Create HintDb ends.
#[export] Hint Resolve ends_or_err ends_slice_from ends_subslice ends_index ends_make : ends.
#[export] Hint Extern 1 (ends (Ok _)) => (unfold ends; discriminate) : ends.
#[export] Hint Extern 1 (ends (Err _)) => (unfold ends; discriminate) : ends.
Ltac ends_tac := repeat first [ done | (unfold ends; discriminate) | solve [eauto with ends]
  | apply ends_or_err | (apply ends_bind; [|intros])
  | match goal with |- forall _, _ => intros ? end | case_match ].

Lemma mbind_ends {S A B} (m : M S A) (g : A -> M S B) :
  always_ends m -> (forall a, always_ends (g a)) -> always_ends (m ≫= g).
Proof.
  intros Hm Hg s. specialize (Hm s). unfold mbind, M_bind. destruct (m s) as [[a|e|q|] s']; try done.
  apply Hg.
Qed.
Lemma mbind_ends_at {S A B} (m : M S A) (g : A -> M S B) s :
  ends (fst (m s)) -> (forall a s', m s = (Ok a, s') -> ends (fst (g a s'))) ->
  ends (fst ((m ≫= g) s)).
Proof. unfold mbind, M_bind. destruct (m s) as [[a|e|q|] s'] eqn:E; cbn; auto; done. Qed.
Lemma M_bind_inv {S A B} (m : M S A) (g : A -> M S B) s b s' :
  (m ≫= g) s = (Ok b, s') -> exists a s1, m s = (Ok a, s1) /\ g a s1 = (Ok b, s').
Proof. unfold mbind, M_bind. destruct (m s) as [[a|e|q|] s1]; [|done..]. by exists a, s1. Qed.
(** Taking a run apart. *)
Lemma bind_inv {S A B} (m : M S A) (k : A -> M S B) s r s' : (m ≫= k) s = (r, s') ->
  (exists a s1, m s = (Ok a, s1) /\ k a s1 = (r, s')) \/ (exists r0, m s = (r0, s') /\ (forall a, r0 <> Ok a) /\ forall b, r <> Ok b).
Proof.
  unfold mbind, M_bind. destruct (m s) as [[a|e|p|] s1]; [intros H; left; by exists a, s1|..];
    intros [= <- <-]; right; by eexists.
Qed.
Lemma try_inv {S A} (m : M S A) s r s' : try_ m s = (r, s') -> exists r0, m s = (r0, s').
Proof. unfold try_. destruct (m s) as [[a|e|p|] s1]; intros [= <- <-]; by eexists. Qed.
Lemma try_bind_inv {S A B} (m : M S A) (k : A + error -> M S B) s r s' : (try_ m ≫= k) s = (r, s') ->
  (exists a s1, m s = (Ok a, s1) /\ k (inl a) s1 = (r, s')) \/
  (exists r0 s1, m s = (r0, s1) /\ (forall a, r0 <> Ok a) /\ ((exists e, k (inr e) s1 = (r, s')) \/ s' = s1)).
Proof.
  unfold mbind, M_bind, try_. destruct (m s) as [[a|e|p|] s1]; intros H; [left; by exists a, s1|right..];
    eexists _, s1; (split; [done|]); (split; [done|]); [left; by exists e|injection H as _ <-; by right..].
Qed.
Lemma try_Ok {S A} (m : M S A) s a s' : m s = (Ok a, s') -> try_ m s = (Ok (inl a), s').
Proof. unfold try_. by intros ->. Qed.
Lemma try_ends {S A} (m : M S A) : always_ends m -> always_ends (try_ m).
Proof. intros Hm s. specialize (Hm s). unfold try_. by destruct (m s) as [[a|e|q|] s']. Qed.
Lemma lift_ends {S A} (m : outcome A) : ends m -> always_ends (lift (S := S) m).
Proof. by intros H s. Qed.
Lemma throw_ends {S A} e : always_ends (throw (S := S) (A := A) e).
Proof. by intros s. Qed.
Lemma mret_ends {S A} (a : A) : always_ends (mret (M := M S) a).
Proof. by intros s. Qed.
Lemma gets_ends {S A} (g : S -> A) : always_ends (gets g).
Proof. by intros s. Qed.
Lemma modify_ends {S} (g : S -> S) : always_ends (modify g).
Proof. by intros s. Qed.
Lemma zoom_ends {S T A} (g : S -> T) p (m : M T A) : always_ends m -> always_ends (zoom g p m).
Proof. intros Hm s. specialize (Hm (g s)). unfold zoom. by destruct (m (g s)). Qed.
Lemma lift_bind_ends {S A B} (m : outcome A) (g : A -> M S B) :
  ends m -> (forall a, m = Ok a -> always_ends (g a)) -> always_ends (lift m ≫= g).
Proof. intros Hm Hg s. unfold mbind, M_bind, lift. destruct m; try done. by apply Hg. Qed.

#[export] Hint Resolve lift_ends throw_ends mret_ends gets_ends modify_ends try_ends zoom_ends : ends.
Ltac m_ends := repeat first [ solve [eauto with ends] | apply mbind_ends; [|intros]
  | match goal with |- forall _, _ => intros ? end | case_match ].

(** From a state with [I] the call ends in a state with [I], with any outcome
    but that of exhausted fuel. *)
Definition returns {S A} (I : S -> Prop) (m : M S A) : Prop := forall s, I s -> ends (fst (m s)) /\ I (snd (m s)).

Section returns.
Context {S : Type} (I : S -> Prop).

Lemma returns_ret {A} (a : A) : returns I (mret a).
Proof. by intros s. Qed.
Lemma returns_throw {A} e : returns I (throw (A := A) e).
Proof. by intros s. Qed.
Lemma returns_gets {A} (g : S -> A) : returns I (gets g).
Proof. by intros s. Qed.
Lemma returns_lift {A} (m : outcome A) : ends m -> returns I (lift m).
Proof. by intros Hm s. Qed.
Lemma returns_modify (g : S -> S) : (forall s, I s -> I (g s)) -> returns I (modify g).
Proof. intros Hg s Hs. split; [done|by apply Hg]. Qed.
Lemma returns_bind {A B} (m : M S A) (g : A -> M S B) : returns I m -> (forall a, returns I (g a)) -> returns I (m ≫= g).
Proof.
  intros Hm Hg s Hs. destruct (Hm s Hs) as [He Hi]. unfold mbind, M_bind. destruct (m s) as [[a|e|p|] s']; [by apply Hg|done..].
Qed.
Lemma returns_lift_bind {A B} (m : outcome A) (g : A -> M S B) :
  ends m -> (forall a, m = Ok a -> returns I (g a)) -> returns I (lift m ≫= g).
Proof. intros Hm Hg s Hs. unfold mbind, M_bind, lift. destruct m; [by apply Hg|done..]. Qed.
Lemma returns_try {A} (m : M S A) : returns I m -> returns I (try_ m).
Proof. intros Hm s Hs. destruct (Hm s Hs) as [He Hi]. unfold try_. by destruct (m s) as [[a|e|p|] s']. Qed.
(** A part of the state that [I] says nothing about, or that has an invariant
    of its own. *)
Lemma returns_zoom {T A} (J : T -> Prop) (g : S -> T) p (m : M T A) :
  (forall s, I s -> J (g s)) -> (forall s t, I s -> J t -> I (p t s)) -> returns J m -> returns I (zoom g p m).
Proof.
  intros Hg Hp Hm s Hs. destruct (Hm (g s) (Hg s Hs)) as [He Hi]. unfold zoom. destruct (m (g s)) as [o t]. split; [done|by apply Hp].
Qed.
Lemma returns_part {T A} (g : S -> T) p (m : M T A) :
  (forall s t, I s -> I (p t s)) -> always_ends m -> returns I (zoom g p m).
Proof. intros Hp Hm. apply (returns_zoom (fun _ => True)); [done|by intros; apply Hp|]. intros s _. by split. Qed.
End returns.

(** From one state. *)
Definition returns_at {S A} (I : S -> Prop) (m : M S A) (s : S) : Prop := ends (fst (m s)) /\ I (snd (m s)).

Lemma returns_at_bind {S A B} (I : S -> Prop) (m : M S A) (g : A -> M S B) s :
  returns_at I m s -> (forall a s', m s = (Ok a, s') -> I s' -> returns_at I (g a) s') -> returns_at I (m ≫= g) s.
Proof.
  intros [He Hi] Hg. unfold returns_at, mbind, M_bind. destruct (m s) as [[a|e|p|] s'] eqn:E; [by apply Hg|done..].
Qed.
Lemma returns_at_bind_to {S A B} (I K : S -> Prop) (m : M S A) (g : A -> M S B) s :
  returns_at I m s -> (forall s, I s -> K s) -> (forall a s', m s = (Ok a, s') -> I s' -> returns_at K (g a) s') -> returns_at K (m ≫= g) s.
Proof.
  intros [He Hi] HK Hg. unfold returns_at, mbind, M_bind. destruct (m s) as [[a|e|p|] s'] eqn:E; [by apply Hg|by split; [|apply HK]..].
Qed.
Lemma try_ends_at {S A} (m : M S A) s : ends (fst (m s)) -> ends (fst (try_ m s)).
Proof. intros Hm. unfold try_. by destruct (m s) as [[a|e|p|] s']. Qed.
Lemma returns_at_try {S A} (I : S -> Prop) (m : M S A) s : returns_at I m s -> returns_at I (try_ m) s.
Proof. intros [He Hi]. unfold returns_at, try_. by destruct (m s) as [[a|e|p|] s']. Qed.
Lemma returns_at_of {S A} (I : S -> Prop) (m : M S A) s : returns I m -> I s -> returns_at I m s.
Proof. intros Hm Hs. by apply Hm. Qed.

Create HintDb returns.
#[export] Hint Resolve returns_ret returns_throw returns_gets returns_try : returns.
#[export] Hint Extern 2 (returns _ (lift _)) => (apply returns_lift; solve [eauto with ends]) : returns.
Ltac returns_tac := repeat first [ solve [eauto with returns]
  | match goal with
    | |- forall _, _ => intros ?
    | |- returns _ (try_ _) => apply returns_try
    | |- returns _ (_ ≫= _) => apply returns_bind
    end | progress cbv beta zeta | case_match ].

(** ** The order of byte strings *)

Lemma lex_refl a : lex a a = Eq.
Proof. induction a as [|x a IH]; cbn; [done|]. by rewrite Z.compare_refl. Qed.

Lemma lex_eq a b : lex a b = Eq <-> a = b.
Proof.
  split; [|intros ->; apply lex_refl].
  revert b. induction a as [|x a IH]; intros [|y b]; cbn; try done.
  destruct (Z.compare_spec (b2z x) (b2z y)) as [E| |]; try done.
  intros H. apply b2z_inj in E as ->. f_equal. auto.
Qed.

Lemma lex_antisym a b : lex b a = CompOpp (lex a b).
Proof.
  revert b. induction a as [|x a IH]; intros [|y b]; cbn; try done.
  rewrite (Z.compare_antisym (b2z x)). destruct (b2z x ?= b2z y); cbn; auto.
Qed.

Lemma blt_trans a b c : blt a b -> blt b c -> blt a c.
Proof.
  unfold blt. revert b c. induction a as [|x a IH]; intros [|y b] [|z c]; cbn; try done.
  destruct (Z.compare_spec (b2z x) (b2z y)), (Z.compare_spec (b2z y) (b2z z)),
    (Z.compare_spec (b2z x) (b2z z)); try done; try lia. eauto.
Qed.

Lemma blt_irrefl a : ~ blt a a.
Proof. unfold blt. by rewrite lex_refl. Qed.

#[export] Instance blt_strict : StrictOrder blt.
Proof. split; [exact blt_irrefl|exact blt_trans]. Qed.

Lemma blt_total a b : blt a b \/ a = b \/ blt b a.
Proof.
  unfold blt. rewrite (lex_antisym a b), <- (lex_eq a b). destruct (lex a b); cbn; auto.
Qed.

Lemma ble_alt a b : ble a b <-> blt a b \/ a = b.
Proof.
  unfold ble, blt. rewrite <- lex_eq. destruct (lex a b); naive_solver.
Qed.

Lemma not_blt a b : ~ blt a b <-> ble b a.
Proof. unfold ble, blt. rewrite (lex_antisym a b). destruct (lex a b); cbn; naive_solver. Qed.

Lemma not_ble a b : ~ ble a b <-> blt b a.
Proof. unfold ble, blt. rewrite (lex_antisym a b). destruct (lex a b); cbn; naive_solver. Qed.

#[export] Instance ble_total_order : TotalOrder ble.
Proof.
  split; [split; [split|]|].
  - intros a. apply ble_alt. auto.
  - intros a b c. rewrite !ble_alt. intros [?| ->] [?| ->]; auto.
    left. by transitivity b.
  - intros a b. rewrite !ble_alt. intros [H1| ->] [H2|E]; auto.
    by destruct (blt_irrefl a); transitivity b.
  - intros a b. unfold strict. rewrite !not_ble.
    destruct (blt_total a b) as [H|[H|H]]; [left|right; by left|right; right];
      (split; [apply ble_alt; by left|done]).
Qed.

Lemma blt_ble_trans a b c : blt a b -> ble b c -> blt a c.
Proof. rewrite ble_alt. intros ? [?| ->]; [by transitivity b|done]. Qed.
Lemma ble_blt_trans a b c : ble a b -> blt b c -> blt a c.
Proof. rewrite ble_alt. intros [?| ->] ?; [by transitivity b|done]. Qed.

Lemma compare_eq a b : bytes_Compare a b = 0 <-> a = b.
Proof. unfold bytes_Compare. rewrite <- lex_eq. destruct (lex a b); split; (done || lia). Qed.
Lemma compare_lt a b : bytes_Compare a b < 0 <-> blt a b.
Proof. unfold bytes_Compare, blt. destruct (lex a b); split; (done || lia). Qed.
Lemma compare_le a b : bytes_Compare a b <= 0 <-> ble a b.
Proof. unfold bytes_Compare, ble. destruct (lex a b); split; (done || lia). Qed.
Lemma compare_ge a b : 0 <= bytes_Compare a b <-> ble b a.
Proof. rewrite <- not_blt, <- compare_lt. lia. Qed.
Lemma compare_gt a b : 0 < bytes_Compare a b <-> blt b a.
Proof. rewrite <- not_ble, <- compare_le. lia. Qed.

Lemma blt_app_r a b : b <> [] -> blt a (a ++ b).
Proof.
  intros. unfold blt. induction a as [|x a IH]; cbn; [by destruct b|].
  by rewrite Z.compare_refl.
Qed.
