(* ===== verification/Utf8.v ===== *)
(** * The UTF-8 check of package unicode/utf8

    [utf8.Valid], which [byteutil.ValidUTF8] calls, after the table of first
    bytes and accepted ranges of the standard library, and the encoding of
    code points ([utf8.AppendRune]). [Valid_iff] shows that the check accepts
    exactly the encodings of sequences of Unicode scalar values. *)
From Stdlib Require Import ZArith Lia Strings.Byte.
From stdpp Require Import base decidable list strings numbers.
From S2P Require Import Prelude.
#[local] Open Scope Z_scope.

Module utf8.
(** The accepted range of the second byte and the number of bytes of a
    sequence that starts with [c] ([first] and [acceptRanges]). *)
Definition first (c : Z) : option (nat * Z * Z) :=
  if (0xC2 <=? c) && (c <=? 0xDF) then Some (2%nat, 0x80, 0xBF)
  else if c =? 0xE0 then Some (3%nat, 0xA0, 0xBF)
  else if c =? 0xED then Some (3%nat, 0x80, 0x9F)
  else if (0xE1 <=? c) && (c <=? 0xEF) then Some (3%nat, 0x80, 0xBF)
  else if c =? 0xF0 then Some (4%nat, 0x90, 0xBF)
  else if (0xF1 <=? c) && (c <=? 0xF3) then Some (4%nat, 0x80, 0xBF)
  else if c =? 0xF4 then Some (4%nat, 0x80, 0x8F)
  else None.

Definition within (lo hi : Z) (c : byte) : bool := (lo <=? b2z c) && (b2z c <=? hi).
Definition locb : byte -> bool := within 0x80 0xBF.

(** [utf8.Valid] *)
Fixpoint Valid (b : list byte) : bool :=
  match b with
  | [] => true
  | c0 :: b1 =>
      if b2z c0 <? 0x80 then Valid b1
      else
        match first (b2z c0), b1 with
        | Some (n, lo, hi), c1 :: b2 =>
            within lo hi c1 &&
            match n, b2 with
            | 2%nat, _ => Valid b2
            | 3%nat, c2 :: b3 => locb c2 && Valid b3
            | 4%nat, c2 :: c3 :: b4 => locb c2 && locb c3 && Valid b4
            | _, _ => false
            end
        | _, _ => false
        end
  end.

(** [utf8.AppendRune] on a valid code point. *)
Definition encode (r : Z) : list byte :=
  if r <? 0x80 then [z2b r]
  else if r <? 0x800 then [z2b (0xC0 + r / 64); z2b (0x80 + r mod 64)]
  else if r <? 0x10000 then [z2b (0xE0 + r / 4096); z2b (0x80 + r / 64 mod 64); z2b (0x80 + r mod 64)]
  else [z2b (0xF0 + r / 262144); z2b (0x80 + r / 4096 mod 64); z2b (0x80 + r / 64 mod 64); z2b (0x80 + r mod 64)].

(** [utf8.ValidRune]: a Unicode scalar value. *)
Definition scalar (r : Z) : Prop := 0 <= r < 0xD800 \/ 0xDFFF < r <= 0x10FFFF.

Lemma within_iff lo hi c : within lo hi c = true <-> lo <= b2z c <= hi.
Proof. unfold within. rewrite andb_true_iff. lia. Qed.

(** What the table says of a first byte. *)
Lemma first_spec c n lo hi : first c = Some (n, lo, hi) ->
  (n = 2%nat /\ 0xC2 <= c <= 0xDF /\ lo = 0x80 /\ hi = 0xBF) \/
  (n = 3%nat /\ 0xE0 <= c <= 0xEF /\ lo = (if c =? 0xE0 then 0xA0 else 0x80) /\ hi = (if c =? 0xED then 0x9F else 0xBF)) \/
  (n = 4%nat /\ 0xF0 <= c <= 0xF4 /\ lo = (if c =? 0xF0 then 0x90 else 0x80) /\ hi = (if c =? 0xF4 then 0x8F else 0xBF)).
Proof.
  unfold first. intros H.
  repeat (case_match; [injection H as <- <- <-; repeat case_match; lia|]). done.
Qed.

(** ** What the encoder writes is accepted *)

Ltac small_bytes := rewrite !b2z_z2b, !u8_small by divlia.

Lemma first_two c : 0xC2 <= c <= 0xDF -> first c = Some (2%nat, 0x80, 0xBF).
Proof. intros Hc. unfold first. by rewrite (proj2 (andb_true_iff _ _)) by lia. Qed.

Lemma first_three c : 0xE0 <= c <= 0xEF ->
  first c = Some (3%nat, if c =? 0xE0 then 0xA0 else 0x80, if c =? 0xED then 0x9F else 0xBF).
Proof. intros Hc. unfold first. repeat case_match; (done || lia). Qed.

Lemma first_four c : 0xF0 <= c <= 0xF4 ->
  first c = Some (4%nat, if c =? 0xF0 then 0x90 else 0x80, if c =? 0xF4 then 0x8F else 0xBF).
Proof. intros Hc. unfold first. repeat case_match; (done || lia). Qed.

Lemma Valid_encode r b : scalar r -> Valid (encode r ++ b) = Valid b.
Proof.
  unfold scalar, encode. intros Hr. destruct (Z.ltb_spec r 0x80) as [H1|H1]; [|destruct (Z.ltb_spec r 0x800) as [H2|H2];
    [|destruct (Z.ltb_spec r 0x10000) as [H3|H3]]]; cbn [app Valid].
  - small_bytes. by rewrite (proj2 (Z.ltb_lt _ _)) by lia.
  - small_bytes. rewrite (proj2 (Z.ltb_ge _ _)), first_two by divlia.
    by rewrite (proj2 (within_iff _ _ _)) by (small_bytes; divlia).
  - small_bytes. rewrite (proj2 (Z.ltb_ge _ _)), first_three by divlia. unfold locb.
    rewrite !(proj2 (within_iff _ _ _)); [done|small_bytes; repeat case_match; divlia..].
  - small_bytes. rewrite (proj2 (Z.ltb_ge _ _)), first_four by divlia. unfold locb.
    rewrite !(proj2 (within_iff _ _ _)); [done|small_bytes; repeat case_match; divlia..].
Qed.

(** ** What is accepted was encoded *)

Lemma encoded_byte c x : b2z c = x -> z2b x = c.
Proof. intros <-. apply z2b_b2z. Qed.

Lemma Valid_head c b : Valid (c :: b) = true -> exists r b', scalar r /\ c :: b = encode r ++ b' /\ Valid b' = true.
Proof.
  cbn [Valid]. pose proof (b2z_range c) as Hc0. destruct (Z.ltb_spec (b2z c) 0x80) as [Hc|Hc].
  { exists (b2z c), b. split_and!; [unfold scalar; lia| |done]. unfold encode. by rewrite (proj2 (Z.ltb_lt _ _)), z2b_b2z by lia. }
  destruct (first (b2z c)) as [[[n lo] hi]|] eqn:Hf; [|done]. destruct b as [|c1 b]; [done|].
  intros [H1%within_iff Hv]%andb_true_iff. destruct (first_spec _ _ _ _ Hf) as [(-> & Hn & -> & ->)|[(-> & Hn & -> & ->)|(-> & Hn & -> & ->)]].
  - set (r := (b2z c - 0xC0) * 64 + (b2z c1 - 0x80)). exists r, b. split_and!; [unfold scalar; lia| |done].
    unfold encode. rewrite (proj2 (Z.ltb_ge r 0x80)), (proj2 (Z.ltb_lt r 0x800)) by lia. cbn [app].
    by rewrite (encoded_byte c), (encoded_byte c1) by divlia.
  - destruct b as [|c2 b]; [done|]. apply andb_true_iff in Hv as [H2%within_iff Hv].
    set (r := (b2z c - 0xE0) * 4096 + (b2z c1 - 0x80) * 64 + (b2z c2 - 0x80)).
    assert (0x800 <= r < 0x10000 /\ ~ 0xD800 <= r <= 0xDFFF) as [Hr Hr'] by (repeat case_match; lia).
    exists r, b. split_and!; [unfold scalar; lia| |done].
    unfold encode. rewrite (proj2 (Z.ltb_ge r 0x80)), (proj2 (Z.ltb_ge r 0x800)), (proj2 (Z.ltb_lt r 0x10000)) by lia. cbn [app].
    assert (0x80 <= b2z c1 <= 0xBF) as H1' by (repeat case_match; lia). clear H1 Hr' Hf.
    by rewrite (encoded_byte c), (encoded_byte c1), (encoded_byte c2) by divlia.
  - destruct b as [|c2 [|c3 b]]; [done|done|]. apply andb_true_iff in Hv as [[H2%within_iff H3%within_iff]%andb_true_iff Hv].
    set (r := (b2z c - 0xF0) * 262144 + (b2z c1 - 0x80) * 4096 + (b2z c2 - 0x80) * 64 + (b2z c3 - 0x80)).
    assert (0x10000 <= r <= 0x10FFFF) as Hr by (repeat case_match; lia).
    exists r, b. split_and!; [unfold scalar; lia| |done].
    unfold encode. rewrite (proj2 (Z.ltb_ge r 0x80)), (proj2 (Z.ltb_ge r 0x800)), (proj2 (Z.ltb_ge r 0x10000)) by lia. cbn [app].
    assert (0x80 <= b2z c1 <= 0xBF) as H1' by (repeat case_match; lia). clear H1 Hf.
    by rewrite (encoded_byte c), (encoded_byte c1), (encoded_byte c2), (encoded_byte c3) by divlia.
Qed.

(** The check accepts the encodings of scalar values, and nothing else. *)
Lemma Valid_iff b : Valid b = true <-> exists rs, Forall scalar rs /\ b = concat (encode <$> rs).
Proof.
  split.
  - induction b as [b IH] using (induction_ltof1 _ length). intros Hv. destruct b as [|c b]; [by exists []|].
    destruct (Valid_head _ _ Hv) as (r & b' & Hr & Hb & Hv'). destruct (IH b') as (rs & Hrs & ->); [|done|].
    + unfold ltof. rewrite Hb, length_app. unfold encode. repeat case_match; cbn [length]; lia.
    + exists (r :: rs). split; [by constructor|done].
  - intros (rs & Hrs & ->). induction Hrs as [|r rs Hr _ IH]; [done|]. cbn [fmap list_fmap concat]. by rewrite Valid_encode.
Qed.
End utf8.
