(* ===== verification/ByteUtil.v ===== *)
(** * ByteUtil: package internal/byteutil

    The byte-slice helpers of [bytes.go] and the growable [Buffer], buffer
    [Pool] and [SliceReader] of [buffer.go].  Functions that look at whether a
    slice is nil take and return a [slice]; the others take its elements.
    Functions that write through a slice argument return the new elements. *)

From Stdlib Require Import ZArith Lia Strings.Byte.
From stdpp Require Import base decidable list gmap strings numbers countable.
From S2P Require Import Prelude Utf8.
#[local] Open Scope Z_scope.

(** ** bytes.go *)

Definition ErrShortBuffer : error := errors_New "byteutil: short buffer".
Definition ErrOverflow : error := errors_New "byteutil: overflow".

Definition Compare (a b : list byte) : Z := bytes_Compare a b.
Definition Equal (a b : list byte) : bool := bool_decide (a = b).

Definition Clone (b : slice) : slice :=
  match b with
  | None => None
  | Some l => Some (copy_at (replicate (length l) x00) 0 l)
  end.

Definition CloneN (b : slice) (n : Z) : outcome slice :=
  if n <=? 0 then Ok None
  else
    let n := if n >? len (bs b) then len (bs b) else n in
    src ← subslice (bs b) 0 n;
    Ok (Some (copy_at (replicate (Z.to_nat n) x00) 0 src)).

(** The capacity computed by the first loop does not show in the result. *)
Definition Concat (parts : list (list byte)) : list byte :=
  fold_left (fun out p => out ++ p) parts [].

(** A slice with its capacity, for the code that manages capacities. *)
Record vec := mkVec { elems : list byte; cap : Z }.

Definition AppendGrow (dst : vec) (src : list byte) : vec :=
  let need := len (elems dst) + len src in
  if cap dst >=? need then mkVec (elems dst ++ src) (cap dst)
  else
    let capNew := Z.quot (i64 (cap dst * 3)) 2 in
    let capNew := if capNew <? need then need else capNew in
    let capNew := if capNew <? 64 then 64 else capNew in
    let n := mkVec (copy_at (replicate (length (elems dst)) x00) 0 (elems dst)) capNew in
    mkVec (elems n ++ src) (cap n).

Definition PutU16LE (b : list byte) (v : Z) : outcome (list byte) :=
  if len b <? 2 then Err ErrShortBuffer else Ok (copy_at b 0 (le_bytes 2 v)).
Definition PutU32LE (b : list byte) (v : Z) : outcome (list byte) :=
  if len b <? 4 then Err ErrShortBuffer else Ok (copy_at b 0 (le_bytes 4 v)).
Definition PutU64LE (b : list byte) (v : Z) : outcome (list byte) :=
  if len b <? 8 then Err ErrShortBuffer else Ok (copy_at b 0 (le_bytes 8 v)).
Definition U16LE (b : list byte) : outcome Z :=
  if len b <? 2 then Err ErrShortBuffer else Ok (le_val (take 2 b)).
Definition U32LE (b : list byte) : outcome Z :=
  if len b <? 4 then Err ErrShortBuffer else Ok (le_val (take 4 b)).
Definition U64LE (b : list byte) : outcome Z :=
  if len b <? 8 then Err ErrShortBuffer else Ok (le_val (take 8 b)).
Definition PutU16BE (b : list byte) (v : Z) : outcome (list byte) :=
  if len b <? 2 then Err ErrShortBuffer else Ok (copy_at b 0 (be_bytes 2 v)).
Definition PutU32BE (b : list byte) (v : Z) : outcome (list byte) :=
  if len b <? 4 then Err ErrShortBuffer else Ok (copy_at b 0 (be_bytes 4 v)).
Definition PutU64BE (b : list byte) (v : Z) : outcome (list byte) :=
  if len b <? 8 then Err ErrShortBuffer else Ok (copy_at b 0 (be_bytes 8 v)).
Definition U16BE (b : list byte) : outcome Z :=
  if len b <? 2 then Err ErrShortBuffer else Ok (be_val (take 2 b)).
Definition U32BE (b : list byte) : outcome Z :=
  if len b <? 4 then Err ErrShortBuffer else Ok (be_val (take 4 b)).
Definition U64BE (b : list byte) : outcome Z :=
  if len b <? 8 then Err ErrShortBuffer else Ok (be_val (take 8 b)).

(** [for i < n && a[i] == b[i] { i++ }]; [n] iterations at most. *)
Fixpoint shared_prefix_loop (fuel : nat) (a b : list byte) (n i : nat) : nat :=
  match fuel with
  | O => i
  | S fuel =>
      if decide ((i < n)%nat /\ a !! i = b !! i)
      then shared_prefix_loop fuel a b n (S i)
      else i
  end.

Definition SharedPrefixLen (a b : list byte) : nat :=
  let n := length a in
  let n := if decide (length b < n)%nat then length b else n in
  shared_prefix_loop n a b n 0.

Definition HasPrefix (b prefix : list byte) : bool :=
  (len prefix <=? len b) && Equal (take (length prefix) b) prefix.
Definition HasSuffix (b suffix : list byte) : bool :=
  (len suffix <=? len b) && Equal (drop (length b - length suffix) b) suffix.

Fixpoint IsASCII (b : list byte) : bool :=
  match b with
  | [] => true
  | c :: b => if b2z c >=? 0x80 then false else IsASCII b
  end.

Definition ValidUTF8 (b : list byte) : bool := utf8.Valid b.

(** [for i := i; i < n; i++ { out[i] = v }] *)
Fixpoint fill_loop (k i : nat) (v : byte) (out : list byte) : list byte :=
  match k with
  | O => out
  | S k => fill_loop k (S i) v (<[i := v]> out)
  end.

Definition PadRight (b : slice) (n : Z) (pad : byte) : slice :=
  if len (bs b) >=? n then Clone b
  else
    let out := copy_at (replicate (Z.to_nat n) x00) 0 (bs b) in
    Some (fill_loop (Z.to_nat n - length (bs b)) (length (bs b)) pad out).

(** [for i > 0 && b[i-1] == 0 { i-- }] *)
Fixpoint trim_loop (b : list byte) (i : nat) : nat :=
  match i with
  | O => O
  | S j => if decide (b !! j = Some x00) then trim_loop b j else i
  end.

Definition TrimRightZeros (b : slice) : slice :=
  let i := trim_loop (bs b) (length (bs b)) in
  Clone (take i <$> b).

Definition Fill (b : list byte) (v : byte) : list byte := fill_loop (length b) 0 v b.

(** [for i := range a { dst[i] = a[i] ^ b[i] }], the indices still to do given
    by the tails of [a] and [b]. *)
Fixpoint xor_loop (i : nat) (a b dst : list byte) : list byte :=
  match a, b with
  | x :: a, y :: b => xor_loop (S i) a b (<[i := z2b (Z.lxor (b2z x) (b2z y))]> dst)
  | _, _ => dst
  end.

Definition XORInto (dst a b : list byte) : outcome (list byte) :=
  if negb (len a =? len b) || (len dst <? len a) then Err ErrShortBuffer
  else Ok (xor_loop 0 a b dst).

Definition MinBytes (a b : list byte) : list byte := if Compare a b <=? 0 then a else b.
Definition MaxBytes (a b : list byte) : list byte := if Compare a b >=? 0 then a else b.

Definition InRange (key : list byte) (lo hi : slice) : bool :=
  if negb (is_nil lo) && (Compare key (bs lo) <? 0) then false
  else if negb (is_nil hi) && (Compare key (bs hi) >=? 0) then false
  else true.

Definition KeySuccessor (k : list byte) : list byte :=
  <[length k := x00]> (copy_at (replicate (length k + 1) x00) 0 k).

Definition EstimateSize (parts : list (list byte)) : Z :=
  fold_left (fun n p => n + (4 + len p)) parts 0.

(** [io.Reader] and [io.Writer], the interfaces [ReadFullExact] and [WriteAll]
    are written against: [Read] fills a buffer of the given length and returns
    the bytes read and an optional error. *)
Class Reader (R : Type) := Read : nat -> R -> (list byte * option error) * R.
Class Writer (W : Type) := Write : list byte -> W -> (Z * option error) * W.

(** [io.ReadFull]: [Read] until the buffer is full or a call fails. *)
Fixpoint read_full_loop `{Reader R} (fuel : nat) (want : nat) (got : list byte) (r : R)
    : outcome (list byte) * R :=
  if decide (want <= length got)%nat then (Ok got, r)
  else
    match fuel with
    | O => (Stuck, r)
    | S fuel =>
        match Read (want - length got) r with
        | ((p, None), r) => read_full_loop fuel want (got ++ p) r
        | ((p, Some e), r) =>
            let got := got ++ p in
            if decide (want <= length got)%nat then (Ok got, r)
            else if decide (length got <> 0%nat /\ e = io_EOF)
                 then (Err io_ErrUnexpectedEOF, r)
                 else (Err e, r)
        end
    end.

(** One more call than bytes wanted is enough for a reader that reads at least
    one byte or fails. *)
Definition ReadFullExact `{Reader R} (r : R) (n : Z) : outcome (list byte) * R :=
  if n <? 0 then (Err ErrOverflow, r)
  else read_full_loop (S (Z.to_nat n)) (Z.to_nat n) [] r.

Fixpoint write_all_loop `{Writer W} (fuel : nat) (b : list byte) (w : W) : outcome unit * W :=
  match b with
  | [] => (Ok tt, w)
  | _ =>
      match fuel with
      | O => (Stuck, w)
      | S fuel =>
          match Write b w with
          | ((_, Some e), w) => (Err e, w)
          | ((n, None), w) =>
              match slice_from b n with
              | Ok b => write_all_loop fuel b w
              | _ => (Panic SliceBounds, w)
              end
          end
      end
  end.

Definition WriteAll `{Writer W} (w : W) (b : list byte) : outcome unit * W :=
  write_all_loop (length b) b w.

(** ** buffer.go: Buffer *)

Module Buffer.

Record Buffer := mkBuffer { buf : vec }.

Definition NewBuffer (capHint : Z) : Buffer :=
  let capHint := if capHint <? 0 then 0 else capHint in
  mkBuffer (mkVec [] capHint).

Definition Reset : M Buffer unit := modify (fun b => mkBuffer (mkVec [] (cap (buf b)))).
Definition Len (b : Buffer) : Z := len (elems (buf b)).
Definition Cap (b : Buffer) : Z := cap (buf b).
Definition Bytes (b : Buffer) : list byte := elems (buf b).
Definition CloneBytes (b : Buffer) : slice := Clone (Some (elems (buf b))).

Definition Grow (n : Z) : M Buffer unit := modify (fun b =>
  if n <=? 0 then b
  else
    let need := len (elems (buf b)) + n in
    if cap (buf b) >=? need then b
    else
      let capNew := i64 (cap (buf b) * 2) in
      let capNew := if capNew <? need then need else capNew in
      let capNew := if capNew <? 64 then 64 else capNew in
      mkBuffer (mkVec (copy_at (replicate (length (elems (buf b))) x00) 0 (elems (buf b))) capNew)).

Definition Write (p : list byte) : M Buffer Z := fun b =>
  (Ok (len p), mkBuffer (AppendGrow (buf b) p)).

Definition WriteByte (c : byte) : M Buffer unit :=
  Grow 1;; modify (fun b => mkBuffer (mkVec (elems (buf b) ++ [c]) (cap (buf b)))).

(** A Go string is its bytes. *)
Definition WriteString (s : list byte) : M Buffer Z := fun b =>
  (Ok (len s), mkBuffer (AppendGrow (buf b) s)).

(** [_ = PutX(tmp[:], v)]: on an error, [tmp] would stay as it was. *)
Definition put_tmp (put : list byte -> Z -> outcome (list byte)) (n : nat) (v : Z) : list byte :=
  match put (replicate n x00) v with Ok tmp => tmp | _ => replicate n x00 end.

Definition WriteU16LE (v : Z) : M Buffer unit := _ ← Write (put_tmp PutU16LE 2 v); mret tt.
Definition WriteU32LE (v : Z) : M Buffer unit := _ ← Write (put_tmp PutU32LE 4 v); mret tt.
Definition WriteU64LE (v : Z) : M Buffer unit := _ ← Write (put_tmp PutU64LE 8 v); mret tt.
Definition WriteU16BE (v : Z) : M Buffer unit := _ ← Write (put_tmp PutU16BE 2 v); mret tt.
Definition WriteU32BE (v : Z) : M Buffer unit := _ ← Write (put_tmp PutU32BE 4 v); mret tt.
Definition WriteU64BE (v : Z) : M Buffer unit := _ ← Write (put_tmp PutU64BE 8 v); mret tt.

Definition WriteLP32 (data : list byte) : M Buffer unit :=
  WriteU32LE (u32 (len data));; _ ← Write data; mret tt.

Definition Truncate (n : Z) : M Buffer unit := fun b =>
  let n := if n <? 0 then 0 else n in
  let n := if n >? Len b then Len b else n in
  match subslice (elems (buf b)) 0 n with
  | Ok l => (Ok tt, mkBuffer (mkVec l (cap (buf b))))
  | _ => (Panic SliceBounds, b)
  end.

End Buffer.

#[export] Instance buffer_writer : Writer Buffer.Buffer := fun p b =>
  match Buffer.Write p b with
  | (Ok n, b) => ((n, None), b)
  | (_, b) => ((0, None), b)
  end.

(** ** buffer.go: Pool *)

Module Pool.

(** The buffers currently pooled.  [sync.Pool] may drop any of them at any
    time, so [Get] is a relation. *)
Record Pool := mkPool { capHint : Z; items : list Buffer.Buffer }.

Definition NewPool (capHint : Z) : Pool := mkPool capHint [].

(** [p.p.Get()]: a pooled buffer, or a new one. *)
Inductive take_from (p : Pool) : Buffer.Buffer -> Pool -> Prop :=
  | take_new : take_from p (Buffer.NewBuffer (capHint p)) p
  | take_pooled l1 b l2 : items p = l1 ++ b :: l2 -> take_from p b (mkPool (capHint p) (l1 ++ l2)).

Inductive Get (p : Pool) : Buffer.Buffer -> Pool -> Prop :=
  | Get_intro b p' : take_from p b p' -> Get p (snd (Buffer.Reset b)) p'.

Definition Put (p : Pool) (b : option Buffer.Buffer) : Pool :=
  match b with
  | None => p
  | Some b =>
      if Buffer.Cap b >? Z.shiftl 1 20 then p
      else mkPool (capHint p) (snd (Buffer.Reset b) :: items p)
  end.

Definition DefaultPool : Pool := NewPool 4096.

End Pool.

(** ** buffer.go: SliceReader *)

Module SliceReader.

Record SliceReader := mkReader { b : list byte; off : Z }.

Definition NewSliceReader (b : list byte) : SliceReader := mkReader b 0.
Definition Remaining (r : SliceReader) : Z := len (b r) - off r.
Definition Offset (r : SliceReader) : Z := off r.

(** [Read(p)] with [n = len(p)]: the bytes copied into [p]. *)
Definition Read (n : nat) : M SliceReader (list byte) := fun r =>
  if off r >=? len (b r) then (Err io_EOF, r)
  else
    match slice_from (b r) (off r) with
    | Ok rest =>
        let p := take n rest in
        (Ok p, mkReader (b r) (off r + len p))
    | _ => (Panic SliceBounds, r)
    end.

Definition ReadByte : M SliceReader byte := fun r =>
  if off r >=? len (b r) then (Err io_EOF, r)
  else
    match index (b r) (off r) with
    | Ok c => (Ok c, mkReader (b r) (off r + 1))
    | _ => (Panic IndexOutOfRange, r)
    end.

Definition ReadN (n : Z) : M SliceReader (list byte) := fun r =>
  if n <? 0 then (Err ErrOverflow, r)
  else if i64 (off r + n) >? len (b r) then (Err io_EOF, r)
  else
    match subslice (b r) (off r) (i64 (off r + n)) with
    | Ok out => (Ok out, mkReader (b r) (i64 (off r + n)))
    | _ => (Panic SliceBounds, r)
    end.

Definition ReadU32LE : M SliceReader Z := b ← ReadN 4; lift (U32LE b).
Definition ReadU64LE : M SliceReader Z := b ← ReadN 8; lift (U64LE b).
Definition ReadLP32 : M SliceReader (list byte) := n ← ReadU32LE; ReadN (i64 n).

Definition Seek (o : Z) : M SliceReader unit := fun r =>
  if (o <? 0) || (o >? len (b r)) then (Err ErrOverflow, r)
  else (Ok tt, mkReader (b r) o).

End SliceReader.

#[export] Instance slice_reader : Reader SliceReader.SliceReader := fun n r =>
  match SliceReader.Read n r with
  | (Ok p, r) => ((p, None), r)
  | (Err e, r) => (([], Some e), r)
  | (_, r) => (([], None), r)
  end.

(** * Lemmas *)

(** ** Copies into fresh storage *)

Lemma copy_at_fresh n l :
  (length l <= n)%nat -> copy_at (replicate n x00) 0 l = l ++ replicate (n - length l) x00.
Proof.
  intros. by rewrite copy_at_0, length_replicate, take_ge, drop_replicate by lia.
Qed.

Lemma copy_at_self l : copy_at (replicate (length l) x00) 0 l = l.
Proof. rewrite copy_at_fresh by lia. by rewrite Nat.sub_diag, app_nil_r. Qed.
#[export] Hint Rewrite copy_at_self : go.

(** A copy has the value of the original, nil included. *)
Lemma Clone_id b : Clone b = b.
Proof. destruct b as [l|]; cbn; [|done]. by rewrite copy_at_self. Qed.
#[export] Hint Rewrite Clone_id : go.

Lemma CloneN_prefix b n :
  CloneN b n = Ok (if n <=? 0 then None else Some (take (Z.to_nat n) (bs b))).
Proof.
  unfold CloneN. destruct (Z.leb_spec n 0) as [|Hn]; [done|]. cbv zeta.
  rewrite Z.gtb_ltb. set (n' := if len (bs b) <? n then len (bs b) else n).
  assert (n' = n `min` len (bs b)) as -> by (subst n'; destruct (Z.ltb_spec (len (bs b)) n); lia).
  unfold subslice. rewrite decide_True, outcome_bind_Ok by lia.
  change (Z.to_nat 0) with 0%nat. rewrite drop_0, Z.sub_0_r.
  destruct (Z.le_ge_cases n (len (bs b))) as [Hl|Hl].
  - rewrite Z.min_l by done. rewrite copy_at_fresh by (rewrite length_take; lia).
    rewrite length_take, Nat.min_l, Nat.sub_diag, app_nil_r by lia. done.
  - rewrite Z.min_r, Nat2Z.id by lia. rewrite firstn_all, (take_ge (bs b)) by lia.
    by rewrite copy_at_self.
Qed.

Lemma Concat_concat parts : Concat parts = concat parts.
Proof.
  unfold Concat. enough (forall out, fold_left (fun o p => o ++ p) parts out = out ++ concat parts)
    as H by apply H.
  induction parts as [|p parts IH]; intros out; cbn; [by rewrite app_nil_r|].
  by rewrite IH, app_assoc.
Qed.

Lemma EstimateSize_spec parts :
  EstimateSize parts = 4 * len parts + len (Concat parts).
Proof.
  rewrite Concat_concat. unfold EstimateSize.
  enough (forall n, fold_left (fun n p => n + (4 + len p)) parts n
    = n + 4 * len parts + len (concat parts)) as H by (rewrite H; lia).
  induction parts as [|p parts IH]; intros n; cbn [fold_left concat length]; [lia|].
  rewrite IH, length_app. lia.
Qed.

(** ** Capacities *)

Lemma AppendGrow_elems d s : elems (AppendGrow d s) = elems d ++ s.
Proof.
  unfold AppendGrow. destruct (_ >=? _); [done|]. cbn [elems]. by rewrite copy_at_self.
Qed.
#[export] Hint Rewrite AppendGrow_elems : go.

Definition vec_ok (v : vec) : Prop := len (elems v) <= cap v.

Lemma AppendGrow_ok d s : vec_ok (AppendGrow d s).
Proof.
  unfold vec_ok. rewrite AppendGrow_elems, length_app. unfold AppendGrow.
  cbv zeta. rewrite Z.geb_leb. destruct (Z.leb_spec (len (elems d) + len s) (cap d)); cbn [cap]; [lia|].
  repeat case_match; lia.
Qed.

(** ** Fixed-width integers in a buffer *)

Lemma take_copy_at b l : (length l <= length b)%nat -> take (length l) (copy_at b 0 l) = l.
Proof.
  intros. rewrite copy_at_0, (take_ge l) by lia. apply take_app_length.
Qed.

Lemma drop_copy_at b l : (length l <= length b)%nat ->
  drop (length l) (copy_at b 0 l) = drop (length l) b.
Proof.
  intros. rewrite copy_at_0, (take_ge l) by lia. apply drop_app_length.
Qed.

Lemma copy_at_exact b l : length b = length l -> copy_at b 0 l = l.
Proof.
  intros E. rewrite copy_at_0, (take_ge l), drop_ge by lia.
  apply app_nil_r.
Qed.

(** ** Searching *)

Lemma shared_prefix_loop_spec fuel a b n i :
  (n <= i + fuel)%nat -> take i a = take i b -> (i <= n)%nat ->
  let r := shared_prefix_loop fuel a b n i in
  take r a = take r b /\ (i <= r <= n)%nat /\ (r = n \/ a !! r <> b !! r).
Proof.
  revert i. induction fuel as [|fuel IH]; intros i Hf Ht Hi; cbn [shared_prefix_loop]; cbv zeta.
  - split_and!; [done|lia..].
  - case_decide as Hd.
    + destruct Hd as [Hlt E]. destruct (IH (S i)) as (?&?&?); [lia| |lia|split_and!; auto; lia].
      destruct (a !! i) eqn:Ea, (b !! i) eqn:Eb; try done.
      * injection E as ->. by erewrite !take_S_r, Ht by done.
      * apply lookup_ge_None in Ea, Eb. rewrite !take_ge in * by lia. by subst.
    + split_and!; [done|lia..|]. destruct (decide (i = n)); [by left|right]. intros E. apply Hd. split; [lia|done].
Qed.

Lemma SharedPrefixLen_spec a b :
  let r := SharedPrefixLen a b in
  take r a = take r b /\ (r <= length a)%nat /\ (r <= length b)%nat /\
  (r = length a \/ r = length b \/ a !! r <> b !! r).
Proof.
  unfold SharedPrefixLen. cbv zeta. set (n := if decide _ then _ else _).
  destruct (shared_prefix_loop_spec n a b n 0) as (Ht&Hr&Hm); [lia|done|lia|].
  assert (n = (length a `min` length b)%nat) as Hn by (unfold n; case_decide; lia).
  split_and!; try done; try lia. destruct Hm; [|auto]. lia.
Qed.

Lemma fill_loop_spec k i v out :
  (i + k <= length out)%nat ->
  fill_loop k i v out = take i out ++ replicate k v ++ drop (i + k) out.
Proof.
  revert i out. induction k as [|k IH]; intros i out Hl; cbn [fill_loop replicate app].
  - by rewrite Nat.add_0_r, take_drop.
  - rewrite IH by (rewrite length_insert; lia).
    destruct (lookup_lt_is_Some_2 out i) as [x Hx]; [lia|].
    erewrite take_S_r by (apply list_lookup_insert_eq; lia).
    rewrite take_insert_ge, drop_insert_lt, <- app_assoc by lia.
    by rewrite Nat.add_succ_comm.
Qed.

Lemma PadRight_spec b n pad :
  bs (PadRight b n pad) = bs b ++ replicate (Z.to_nat n - length (bs b)) pad.
Proof.
  unfold PadRight. rewrite Z.geb_leb. destruct (Z.leb_spec n (len (bs b))).
  - rewrite Clone_id. replace (_ - _)%nat with 0%nat by lia. by rewrite app_nil_r.
  - cbn [bs]. rewrite copy_at_fresh by lia.
    rewrite fill_loop_spec by (rewrite length_app, length_replicate; lia).
    rewrite take_app_length, drop_ge, app_nil_r; [done|].
    rewrite length_app, length_replicate. lia.
Qed.

Lemma Fill_spec b v : Fill b v = replicate (length b) v.
Proof. unfold Fill. rewrite fill_loop_spec by lia. by rewrite take_0, drop_ge, app_nil_r by lia. Qed.

Lemma trim_loop_spec b i :
  (i <= length b)%nat ->
  let j := trim_loop b i in
  (j <= i)%nat /\ take i b = take j b ++ replicate (i - j) x00 /\
  (j = 0%nat \/ b !! (j - 1)%nat <> Some x00).
Proof.
  induction i as [|i IH]; intros Hi; cbn [trim_loop]; cbv zeta.
  - split_and!; [lia| |by left]. by rewrite take_0.
  - case_decide as Hd; [|].
    + destruct IH as (?&E&?); [lia|]. split_and!; [lia| |done].
      erewrite take_S_r, E, <- app_assoc by done. f_equal.
      replace (S i - trim_loop b i)%nat with (S (i - trim_loop b i)) by lia.
      by rewrite replicate_S_end.
    + split_and!; [lia| |].
      * by rewrite Nat.sub_diag, app_nil_r.
      * right. by replace (S i - 1)%nat with i by lia.
Qed.

Lemma xor_loop_spec a b pre d :
  length a = length b -> (length a <= length d)%nat ->
  xor_loop (length pre) a b (pre ++ d) =
  pre ++ zip_with (fun x y => z2b (Z.lxor (b2z x) (b2z y))) a b ++ drop (length a) d.
Proof.
  revert b pre d. induction a as [|x a IH]; intros [|y b] pre d Hl Hd; try done.
  destruct d as [|z d]; cbn in Hl, Hd; [lia|]. cbn [xor_loop].
  rewrite insert_app_r_alt, Nat.sub_diag by lia. cbn [insert list_insert length].
  rewrite (cons_middle _ pre), app_assoc.
  replace (S (length pre)) with (length (pre ++ [z2b (Z.lxor (b2z x) (b2z y))]))
    by (rewrite length_app; cbn; lia).
  rewrite IH by lia. rewrite <- app_assoc. done.
Qed.

Lemma XORInto_spec dst a b :
  XORInto dst a b =
  if decide (length a = length b /\ (length a <= length dst)%nat)
  then Ok (zip_with (fun x y => z2b (Z.lxor (b2z x) (b2z y))) a b ++ drop (length a) dst)
  else Err ErrShortBuffer.
Proof.
  unfold XORInto. destruct (Z.eqb_spec (len a) (len b)), (Z.ltb_spec (len dst) (len a)); cbn;
    case_decide; try lia; try done.
  f_equal. apply (xor_loop_spec a b []); lia.
Qed.

(** ** Buffers and readers *)

Module BufferFacts.
Import Buffer.

Lemma Write_bytes p b : Bytes (snd (Write p b)) = Bytes b ++ p.
Proof. unfold Bytes, Write. cbn. by rewrite AppendGrow_elems. Qed.

Lemma Grow_bytes n b : Bytes (snd (Grow n b)) = Bytes b.
Proof.
  unfold Grow, modify, Bytes. cbn. repeat case_match; cbn; by rewrite ?copy_at_self.
Qed.

Lemma put_tmp_u32 v : put_tmp PutU32LE 4 v = le_bytes 4 v.
Proof. unfold put_tmp, PutU32LE. cbn [length replicate]. by rewrite copy_at_exact. Qed.

Lemma WriteLP32_bytes d b :
  fst (WriteLP32 d b) = Ok tt /\
  Bytes (snd (WriteLP32 d b)) = Bytes b ++ le_bytes 4 (u32 (len d)) ++ d.
Proof.
  unfold WriteLP32, WriteU32LE, Bytes, Write. run_M. cbn [fst snd buf].
  by rewrite put_tmp_u32, !AppendGrow_elems, <- app_assoc.
Qed.

(** The framing of a list of blobs. *)
Definition frames (ds : list (list byte)) : list byte :=
  concat (map (fun d => le_bytes 4 (len d) ++ d) ds).

Lemma mapM_WriteLP32 ds b :
  Forall (fun d => len d < 2 ^ 32) ds ->
  exists us b', mapM WriteLP32 ds b = (Ok us, b') /\ Bytes b' = Bytes b ++ frames ds.
Proof.
  intros Hd. revert b. induction Hd as [|d ds Hd _ IH]; intros b.
  - exists [], b. split; [done|]. by rewrite app_nil_r.
  - destruct (WriteLP32_bytes d b) as [H1 H2].
    destruct (WriteLP32 d b) as [r b1] eqn:E1. cbn [fst snd] in H1, H2. subst r.
    destruct (IH b1) as (us & b2 & E & Hb). cbn [mapM].
    erewrite M_bind_Ok, M_bind_Ok by eassumption.
    exists (tt :: us), b2. split; [done|]. rewrite Hb, H2, u32_small by lia.
    unfold frames. cbn. by rewrite <- !app_assoc.
Qed.
End BufferFacts.

Module SliceReaderFacts.
Import SliceReader.

(** A reader over [pre ++ rest] that has consumed [pre]. *)
Definition at_ (pre rest : list byte) : SliceReader := mkReader (pre ++ rest) (len pre).

Lemma ReadN_at pre p rest :
  len (pre ++ p ++ rest) < 2 ^ 63 ->
  ReadN (len p) (at_ pre (p ++ rest)) = (Ok p, at_ (pre ++ p) rest).
Proof.
  intros Hl. rewrite !length_app in Hl. unfold ReadN, at_. cbn [off b].
  rewrite i64_small by lia. zif.
  rewrite subslice_app by done. by rewrite length_app, <- app_assoc, Nat2Z.inj_add.
Qed.

(** [Read] on a reader placed at [off]. *)
Lemma Read_end n l off :
  len l <= off -> ByteUtil.Read n (mkReader l off) = (([], Some io_EOF), mkReader l off).
Proof. intros. unfold ByteUtil.Read, slice_reader, Read. cbn [SliceReader.off SliceReader.b]. by zif. Qed.

Lemma Read_some n l off :
  0 <= off < len l ->
  let p := take n (drop (Z.to_nat off) l) in
  ByteUtil.Read n (mkReader l off) = ((p, None), mkReader l (off + len p)).
Proof.
  intros. unfold ByteUtil.Read, slice_reader, Read. cbn [SliceReader.off SliceReader.b]. zif.
  unfold slice_from. by rewrite decide_True by lia.
Qed.

Lemma ReadU32LE_at pre z rest :
  len (pre ++ le_bytes 4 z ++ rest) < 2 ^ 63 ->
  ReadU32LE (at_ pre (le_bytes 4 z ++ rest)) = (Ok (u32 z), at_ (pre ++ le_bytes 4 z) rest).
Proof.
  intros Hl. unfold ReadU32LE. pose proof (ReadN_at pre (le_bytes 4 z) rest Hl) as E.
  erewrite M_bind_Ok by apply E. unfold lift, U32LE. zif.
  by rewrite take_ge, le_val_bytes4 by solve_len.
Qed.

Lemma ReadLP32_at pre d rest :
  len d < 2 ^ 32 -> len (pre ++ (le_bytes 4 (len d) ++ d) ++ rest) < 2 ^ 63 ->
  ReadLP32 (at_ pre ((le_bytes 4 (len d) ++ d) ++ rest)) =
    (Ok d, at_ (pre ++ le_bytes 4 (len d) ++ d) rest).
Proof.
  intros Hd Hl. rewrite <- app_assoc in *. unfold ReadLP32.
  erewrite M_bind_Ok by (by apply ReadU32LE_at). rewrite u32_small, i64_small by lia.
  rewrite ReadN_at by (by rewrite <- app_assoc). by rewrite <- app_assoc.
Qed.

Lemma mapM_ReadLP32 ds pre :
  Forall (fun d => len d < 2 ^ 32) ds -> len (pre ++ BufferFacts.frames ds) < 2 ^ 63 ->
  mapM (fun _ => ReadLP32) ds (at_ pre (BufferFacts.frames ds)) =
    (Ok ds, at_ (pre ++ BufferFacts.frames ds) []).
Proof.
  intros Hd. revert pre. induction Hd as [|d ds Hd _ IH]; intros pre Hl.
  - unfold BufferFacts.frames. cbn. by rewrite app_nil_r.
  - unfold BufferFacts.frames in Hl |- *. cbn [map concat mapM] in Hl |- *.
    erewrite M_bind_Ok by (by apply ReadLP32_at). fold (BufferFacts.frames ds) in Hl |- *.
    erewrite M_bind_Ok by (apply IH; by rewrite <- app_assoc).
    by rewrite <- app_assoc.
Qed.
End SliceReaderFacts.

(** ** Fixed-width codecs *)

(** [put] and [get] are a store and a load of [n] bytes with conversion [wrap]:
    both need [n] bytes; a store keeps the length and the bytes after the
    first [n]; a load returns the value stored, converted; and storing a loaded
    value changes nothing. *)
Definition codec_ok (n : nat) (wrap : Z -> Z)
    (put : list byte -> Z -> outcome (list byte)) (get : list byte -> outcome Z) : Prop :=
  forall b,
    ((length b < n)%nat -> (forall v, put b v = Err ErrShortBuffer) /\ get b = Err ErrShortBuffer) /\
    ((n <= length b)%nat ->
      (forall v, exists b', put b v = Ok b' /\ length b' = length b /\ drop n b' = drop n b /\
         get b' = Ok (wrap v)) /\
      (exists v, get b = Ok v /\ wrap v = v /\ put b v = Ok b)).

Section codec.
Variables (n : nat) (wrap : Z -> Z) (enc : Z -> list byte) (dec : list byte -> Z).
Hypothesis enc_len : forall z, length (enc z) = n.
Hypothesis dec_enc : forall z, dec (enc z) = wrap z.
Hypothesis enc_dec : forall l, length l = n -> enc (dec l) = l.

Lemma codec_intro :
  codec_ok n wrap
    (fun b v => if len b <? Z.of_nat n then Err ErrShortBuffer else Ok (copy_at b 0 (enc v)))
    (fun b => if len b <? Z.of_nat n then Err ErrShortBuffer else Ok (dec (take n b))).
Proof.
  intros b. split; intros Hb; [split; [intros v|]; by zif|].
  assert (length (take n b) = n) as Ht by (rewrite length_take; lia). split.
  - intros v. exists (copy_at b 0 (enc v)). zif.
    rewrite length_copy_at, <- (enc_len v), take_copy_at, drop_copy_at, dec_enc
      by (rewrite ?enc_len; lia). rewrite enc_len. by zif.
  - exists (dec (take n b)). zif. rewrite <- dec_enc, enc_dec by done. split_and!; [done..|].
    f_equal. rewrite copy_at_0, take_ge, Ht by lia. apply take_drop.
Qed.
End codec.

(** * Properties *)

(** the sixteen-, thirty-two- and sixty-four-bit stores and loads of both
    byte orders: each fails with ErrShortBuffer exactly on a buffer that is too
    short; a store followed by a load gives the value back modulo the width and
    leaves the other bytes alone; storing what was loaded changes nothing. *)
Theorem fixed_width_codecs :
  codec_ok 2 u16 PutU16LE U16LE /\ codec_ok 4 u32 PutU32LE U32LE /\
  codec_ok 8 u64 PutU64LE U64LE /\ codec_ok 2 u16 PutU16BE U16BE /\
  codec_ok 4 u32 PutU32BE U32BE /\ codec_ok 8 u64 PutU64BE U64BE.
Proof.
  split_and!; apply codec_intro; intros;
    first [apply length_le_bytes | apply length_be_bytes | apply le_val_bytes
          |apply be_val_bytes | by apply le_bytes_val_n | by apply be_bytes_val_n].
Qed.

(** SharedPrefixLen returns the length of a common prefix of both slices,
    and no common prefix is longer. *)
Theorem SharedPrefixLen_longest a b :
  let r := SharedPrefixLen a b in
  (r <= length a)%nat /\ (r <= length b)%nat /\ take r a = take r b /\
  forall n, (n <= length a)%nat -> (n <= length b)%nat -> take n a = take n b -> (n <= r)%nat.
Proof.
  destruct (SharedPrefixLen_spec a b) as (Ht & Ha & Hb & Hm). split_and!; try done.
  intros n Hna Hnb E. destruct Hm as [Hm|[Hm|Hm]]; [lia..|].
  destruct (decide (n <= SharedPrefixLen a b)%nat); [done|]. destruct Hm.
  apply (f_equal (fun l => l !! SharedPrefixLen a b)) in E.
  by rewrite !lookup_take_lt in E by lia.
Qed.

(** a list of blobs written to a fresh Buffer with WriteLP32 is read back
    unchanged, in order and to the last byte, by ReadLP32 on a SliceReader over
    the buffer's bytes, as long as each blob fits a 32-bit length and all of
    them an int. *)
Theorem LP32_roundtrip hint ds
    (Hd : Forall (fun d => len d < 2 ^ 32) ds)
    (Hl : len (BufferFacts.frames ds) < 2 ^ 63) :
  let '(w, b) := mapM Buffer.WriteLP32 ds (Buffer.NewBuffer hint) in
  let '(r, rd) := mapM (fun _ => SliceReader.ReadLP32) ds
                    (SliceReader.NewSliceReader (Buffer.Bytes b)) in
  is_ok w = true /\ r = Ok ds /\ SliceReader.Remaining rd = 0.
Proof.
  destruct (BufferFacts.mapM_WriteLP32 ds (Buffer.NewBuffer hint) Hd) as (us & b & E & Hb).
  rewrite E. rewrite app_nil_l in Hb. rewrite Hb.
  change (SliceReader.NewSliceReader (BufferFacts.frames ds))
    with (SliceReaderFacts.at_ [] (BufferFacts.frames ds)).
  rewrite SliceReaderFacts.mapM_ReadLP32 by done. split_and!; [done..|].
  unfold SliceReader.Remaining. cbn. rewrite app_nil_r. lia.
Qed.

Lemma LP32_roundtrip_witness :
  let ds := [[x01; x02]; []; [x03]] in
  let '(w, b) := mapM Buffer.WriteLP32 ds (Buffer.NewBuffer 0) in
  let '(r, rd) := mapM (fun _ => SliceReader.ReadLP32) ds
                    (SliceReader.NewSliceReader (Buffer.Bytes b)) in
  is_ok w = true /\ r = Ok ds /\ SliceReader.Remaining rd = 0.
Proof.
  apply LP32_roundtrip; [repeat constructor|reflexivity].
Defined.

(** C31: ReadN on a well-placed reader: it reads exactly the next n bytes when
    there are that many; past the end it reports io.EOF, except that an n for
    which off+n overflows int makes the guard pass and the slice expression
    panics. *)
Theorem ReadN_behaviour r n
    (Hr : 0 <= SliceReader.off r <= len (SliceReader.b r)) (Hl : len (SliceReader.b r) < 2 ^ 63)
    (Hn : 0 <= n < 2 ^ 63) :
  SliceReader.ReadN n r =
  if decide (n <= SliceReader.Remaining r) then
    (Ok (take (Z.to_nat n) (drop (Z.to_nat (SliceReader.off r)) (SliceReader.b r))),
     SliceReader.mkReader (SliceReader.b r) (SliceReader.off r + n))
  else if decide (SliceReader.off r + n < 2 ^ 63) then (Err io_EOF, r)
  else (Panic SliceBounds, r).
Proof.
  unfold SliceReader.ReadN, SliceReader.Remaining. destruct r as [b off]. cbn in *.
  zif. case_decide; [|case_decide].
  - rewrite i64_small by lia. zif. unfold subslice. rewrite decide_True by lia.
    by replace (off + n - off) with n by lia.
  - rewrite i64_small by lia. by zif.
  - assert (i64 (off + n) < 0) as Hneg.
    { unfold i64. replace (off + n + 2 ^ 63) with (off + n - 2 ^ 63 + 1 * 2 ^ 64) by lia.
      rewrite Z.mod_add, Z.mod_small; lia. }
    zif. unfold subslice. by rewrite decide_False by lia.
Qed.

Lemma ReadN_behaviour_witness :
  SliceReader.ReadN (2 ^ 63 - 1) (SliceReader.mkReader [x00; x01] 1) =
    (Panic SliceBounds, SliceReader.mkReader [x00; x01] 1).
Proof.
  rewrite ReadN_behaviour; [reflexivity|cbn; lia..].
Defined.

(** ReadFullExact over a SliceReader: n bytes when that many remain, io.EOF
    when none do, io.ErrUnexpectedEOF (with the rest consumed) otherwise, and
    ErrOverflow for a negative n; the retry loop never runs out. *)
Theorem ReadFullExact_SliceReader r n
    (Hr : 0 <= SliceReader.off r <= len (SliceReader.b r)) :
  let rest := drop (Z.to_nat (SliceReader.off r)) (SliceReader.b r) in
  let at_ o := SliceReader.mkReader (SliceReader.b r) o in
  ReadFullExact r n =
  if decide (n < 0) then (Err ErrOverflow, r)
  else if decide (n <= SliceReader.Remaining r) then
    (Ok (take (Z.to_nat n) rest), at_ (SliceReader.off r + n))
  else if decide (SliceReader.Remaining r = 0) then (Err io_EOF, r)
  else (Err io_ErrUnexpectedEOF, at_ (len (SliceReader.b r))).
Proof.
  cbv zeta. unfold ReadFullExact, SliceReader.Remaining. destruct r as [b off].
  cbn [SliceReader.off SliceReader.b] in Hr |- *.
  case_decide; [by zif|]. zif.
  destruct (Z.to_nat n) as [|k] eqn:Ek.
  { assert (n = 0) as -> by lia. rewrite decide_True by lia. cbn. by rewrite Z.add_0_r, take_0. }
  cbn [read_full_loop length]. rewrite decide_False, Nat.sub_0_r by lia.
  destruct (Z.le_gt_cases (len b) off).
  { rewrite SliceReaderFacts.Read_end by lia. cbn [app length].
    by ddec. }
  rewrite SliceReaderFacts.Read_some by lia. cbv zeta. cbn [app].
  set (p := take (S k) (drop (Z.to_nat off) b)).
  assert (length p = (S k `min` (length b - Z.to_nat off))%nat) as Hp
    by (subst p; by rewrite length_take, length_drop).
  case_decide; [rewrite decide_True by lia; do 2 f_equal; lia|].
  rewrite SliceReaderFacts.Read_end by lia. rewrite app_nil_r.
  ddec. do 2 f_equal. lia.
Qed.

Lemma ReadFullExact_SliceReader_witness :
  let r := SliceReader.mkReader [x00; x01; x02] 1 in
  ReadFullExact r 2 = (Ok [x01; x02], SliceReader.mkReader [x00; x01; x02] 3) /\
  ReadFullExact r 3 = (Err io_ErrUnexpectedEOF, SliceReader.mkReader [x00; x01; x02] 3).
Proof.
  cbv zeta.
  split; (rewrite ReadFullExact_SliceReader; [reflexivity|cbn; lia]).
Defined.

(** [KeySuccessor k] is the least key above [k], so the half-open range
    from [k] to its successor contains [k] and nothing else. *)
Theorem KeySuccessor_range k x :
  blt k (KeySuccessor k) /\ InRange x (Some k) (Some (KeySuccessor k)) = bool_decide (x = k).
Proof.
  assert (KeySuccessor k = k ++ [x00]) as ->.
  { unfold KeySuccessor. rewrite copy_at_fresh by lia.
    replace (length k + 1 - length k)%nat with 1%nat by lia.
    rewrite insert_app_r_alt, Nat.sub_diag by lia. done. }
  split; [by apply blt_app_r|].
  unfold InRange, Compare. cbn [is_nil negb andb bs].
  case_bool_decide as Hx.
  - subst x. rewrite (proj2 (Z.ltb_ge _ _)) by (apply compare_ge; reflexivity).
    rewrite Z.geb_leb, (proj2 (Z.leb_gt _ _)); [done|]. apply compare_lt, blt_app_r. done.
  - destruct (Z.ltb_spec (bytes_Compare x k) 0) as [|Hge]; [done|].
    rewrite Z.geb_leb, (proj2 (Z.leb_le _ _)); [done|]. apply compare_ge in Hge. apply compare_ge.
    assert (blt k x) as Hlt by (apply ble_alt in Hge; naive_solver). clear Hge Hx.
    unfold ble, blt in *. revert x Hlt.
    induction k as [|c k IH]; intros [|d x]; cbn; try done.
    + pose proof (b2z_range d). destruct (b2z d), x; (done || lia).
    + destruct (b2z c ?= b2z d); try done. apply IH.
Qed.
