(* ===== verification/Varint.v ===== *)
(** * Varint: package internal/varintx

    Variable-length unsigned and zig-zag signed integers.  [uint64] values are
    integers between 0 and 2^64, [int64] values between -2^63 and 2^63.  The
    loops that shift a value right by seven bits run at most ten times, the
    fuel they are given. *)

From Stdlib Require Import ZArith Lia Strings.Byte.
From stdpp Require Import base decidable list strings numbers.
From S2P Require Import Prelude ByteUtil.
#[local] Open Scope Z_scope.

Definition ErrOverflow : error := errors_New "varintx: overflow".
Definition ErrShortBuffer : error := errors_New "varintx: short buffer".
Definition ErrTruncated : error := errors_New "varintx: truncated".

Definition MaxUint64Len : Z := 10.
Definition MaxUint32Len : Z := 5.

(** [for { n++; x >>= 7; if x == 0 { break } }] *)
Fixpoint size_loop (fuel : nat) (n x : Z) : Z :=
  let n := n + 1 in
  let x := Z.shiftr x 7 in
  if x =? 0 then n
  else match fuel with O => n | S fuel => size_loop fuel n x end.

Definition SizeUint64 (x : Z) : Z := size_loop 9 0 x.
Definition SizeUint32 (x : Z) : Z := SizeUint64 x.

(** [for x >= 0x80 { dst = append(dst, byte(x)|0x80); x >>= 7 };
    append(dst, byte(x))] *)
Fixpoint encode_loop (fuel : nat) (dst : list byte) (x : Z) : list byte :=
  if x >=? 0x80 then
    match fuel with
    | O => dst
    | S fuel => encode_loop fuel (dst ++ [z2b (Z.lor (u8 x) 0x80)]) (Z.shiftr x 7)
    end
  else dst ++ [z2b x].

Definition EncodeUint64 (dst : list byte) (x : Z) : list byte := encode_loop 9 dst x.
Definition EncodeUint32 (dst : list byte) (x : Z) : list byte := EncodeUint64 dst x.

Fixpoint put_loop (fuel : nat) (b : list byte) (x i : Z) : outcome (Z * list byte) :=
  if x >=? 0x80 then
    match fuel with
    | O => Stuck
    | S fuel =>
        b ← set_index b i (z2b (Z.lor (u8 x) 0x80));
        put_loop fuel b (Z.shiftr x 7) (i + 1)
    end
  else
    b ← set_index b i (z2b x);
    Ok (i + 1, b).

(** The bytes written and the new contents of [b]. *)
Definition PutUint64 (b : list byte) (x : Z) : outcome (Z * list byte) :=
  let need := SizeUint64 x in
  if len b <? need then Err ErrShortBuffer else put_loop 9 b x 0.
Definition PutUint32 (b : list byte) (x : Z) : outcome (Z * list byte) := PutUint64 b x.

(** [for i, c := range b], the rest of [b] in hand. *)
Fixpoint decode_loop (b : list byte) (i s x : Z) : outcome (Z * Z) :=
  match b with
  | [] => Err ErrTruncated
  | c :: b =>
      if i =? MaxUint64Len then Err ErrOverflow
      else if b2z c <? 0x80 then
        if (i =? MaxUint64Len - 1) && (b2z c >? 1) then Err ErrOverflow
        else Ok (Z.lor x (u64 (Z.shiftl (b2z c) s)), i + 1)
      else decode_loop b (i + 1) (s + 7) (Z.lor x (u64 (Z.shiftl (Z.land (b2z c) 0x7f) s)))
  end.

Definition DecodeUint64 (b : list byte) : outcome (Z * Z) := decode_loop b 0 0 0.

Definition DecodeUint32 (b : list byte) : outcome (Z * Z) :=
  '(x, n) ← DecodeUint64 b;
  if x >? 2 ^ 32 - 1 then Err ErrOverflow else Ok (u32 x, n).

Definition ZigZagEncode (x : Z) : Z := u64 (Z.lxor (i64 (Z.shiftl x 1)) (Z.shiftr x 63)).
Definition ZigZagDecode (u : Z) : Z := i64 (Z.lxor (Z.shiftr u 1) (u64 (- Z.land u 1))).

Definition EncodeInt64 (dst : list byte) (x : Z) : list byte := EncodeUint64 dst (ZigZagEncode x).

Definition DecodeInt64 (b : list byte) : outcome (Z * Z) :=
  '(u, n) ← DecodeUint64 b; Ok (ZigZagDecode u, n).

Definition SizeInt64 (x : Z) : Z := SizeUint64 (ZigZagEncode x).

(** ** Reader: varints from an [io.ByteReader] *)

Class ByteReader (R : Type) := ReadByte : M R byte.

#[export] Instance slice_byte_reader : ByteReader SliceReader.SliceReader := SliceReader.ReadByte.

Module Reader.

(** [for i := 0; i < MaxUint64Len; i++], [k] iterations left. *)
Fixpoint uint64_loop `{ByteReader R} (k : nat) (i s x : Z) : M R Z :=
  match k with
  | O => throw ErrOverflow
  | S k =>
      c ← try_ ReadByte;
      match c with
      | inr e => if i =? 0 then throw e else throw ErrTruncated
      | inl c =>
          if b2z c <? 0x80 then
            if (i =? MaxUint64Len - 1) && (b2z c >? 1) then throw ErrOverflow
            else mret (Z.lor x (u64 (Z.shiftl (b2z c) s)))
          else uint64_loop k (i + 1) (s + 7) (Z.lor x (u64 (Z.shiftl (Z.land (b2z c) 0x7f) s)))
      end
  end.

Definition Uint64 `{ByteReader R} : M R Z := uint64_loop 10 0 0 0.
Definition Int64 `{ByteReader R} : M R Z := u ← Uint64; mret (ZigZagDecode u).

End Reader.

(** ** Writer: varints appended to a slice *)

Module Writer.

Record Writer := mkWriter { buf : list byte }.

Definition NewWriter (capHint : Z) : outcome Writer :=
  make_check 1 capHint;; Ok (mkWriter []).
Definition Reset : M Writer unit := modify (fun w => mkWriter []).
Definition Bytes (w : Writer) : list byte := buf w.
Definition Uint64 (x : Z) : M Writer unit := modify (fun w => mkWriter (EncodeUint64 (buf w) x)).
Definition Int64 (x : Z) : M Writer unit := modify (fun w => mkWriter (EncodeInt64 (buf w) x)).
Definition Uint32 (x : Z) : M Writer unit := modify (fun w => mkWriter (EncodeUint32 (buf w) x)).
Definition Len (w : Writer) : Z := len (buf w).

End Writer.

(** ** Cursors, pairs and comparisons *)

(** The three results: value, new offset (the old one on an error), error. *)
Definition ConsumeUint64 (b : list byte) (off : Z) : outcome (Z * Z * option error) :=
  if (off <? 0) || (off >? len b) then Ok (0, off, Some ErrShortBuffer)
  else
    rest ← slice_from b off;
    match DecodeUint64 rest with
    | Ok (v, n) => Ok (v, off + n, None)
    | Err e => Ok (0, off, Some e)
    | Panic p => Panic p
    | Stuck => Stuck
    end.

Definition ConsumeInt64 (b : list byte) (off : Z) : outcome (Z * Z * option error) :=
  '(u, noff, err) ← ConsumeUint64 b off;
  match err with
  | Some e => Ok (0, off, Some e)
  | None => Ok (ZigZagDecode u, noff, None)
  end.

Definition EncodePair (dst : list byte) (a b : Z) : list byte :=
  let dst := EncodeUint64 dst a in
  EncodeUint64 dst b.

Definition DecodePair (buf : list byte) : outcome (Z * Z * Z) :=
  '(a, n1) ← DecodeUint64 buf;
  rest ← slice_from buf n1;
  '(b, n2) ← DecodeUint64 rest;
  Ok (a, b, n1 + n2).

Fixpoint skip_loop (b : list byte) (i : Z) : outcome Z :=
  match b with
  | [] => Err ErrTruncated
  | c :: b =>
      if i >=? MaxUint64Len then Err ErrOverflow
      else if b2z c <? 0x80 then Ok (i + 1)
      else skip_loop b (i + 1)
  end.

Definition Skip (b : list byte) : outcome Z := skip_loop b 0.

Definition MustEncodeUint64 (x : Z) : list byte := EncodeUint64 [] x.

Definition CompareEncoded (a b : list byte) : outcome Z :=
  '(va, _) ← DecodeUint64 a;
  '(vb, _) ← DecodeUint64 b;
  Ok (if va <? vb then -1 else if va >? vb then 1 else 0).

(** [varintx.DecodeUint64(payload[off:])], as the client packages write it. *)
Definition decode_at (payload : list byte) (off : Z) : outcome (Z * Z) :=
  b ← slice_from payload off; DecodeUint64 b.

(** * Lemmas *)

(** ** Encoding *)

(** The encoding of [x] on its own. *)
Definition varint (x : Z) : list byte := EncodeUint64 [] x.

Lemma encode_loop_app fuel dst x : encode_loop fuel dst x = dst ++ encode_loop fuel [] x.
Proof.
  revert dst x. induction fuel as [|fuel IH]; intros dst x; cbn [encode_loop];
    (destruct (x >=? 0x80); [|done]).
  - by rewrite app_nil_r.
  - rewrite IH, (IH ([] ++ _)). by rewrite <- app_assoc.
Qed.

Lemma EncodeUint64_app dst x : EncodeUint64 dst x = dst ++ varint x.
Proof. apply encode_loop_app. Qed.

Lemma encode_loop_S fuel dst x :
  encode_loop (S fuel) dst x =
  if x >=? 0x80 then encode_loop fuel (dst ++ [z2b (Z.lor (u8 x) 0x80)]) (Z.shiftr x 7)
  else dst ++ [z2b x].
Proof. done. Qed.

Lemma varint_pos x : (1 <= length (varint x))%nat.
Proof.
  unfold varint, EncodeUint64. rewrite encode_loop_S. case_match; [|cbn; lia].
  rewrite encode_loop_app, length_app. cbn [length app]. lia.
Qed.

Lemma shiftr7 x : Z.shiftr x 7 = x / 128.
Proof. by rewrite Z.shiftr_div_pow2. Qed.

(** Seven bits fewer than a bound on the number of groups. *)
Lemma shiftr7_bound (n : nat) x :
  x < 2 ^ (7 * (Z.of_nat (S n) + 1)) -> Z.shiftr x 7 < 2 ^ (7 * (Z.of_nat n + 1)).
Proof.
  intros Hx. rewrite Z.shiftr_div_pow2 by lia. apply Z.div_lt_upper_bound; [lia|].
  rewrite <- Z.pow_add_r by lia. eapply Z.lt_le_trans; [exact Hx|]. apply Z.pow_le_mono_r; lia.
Qed.

Lemma encode_loop_fuel fuel dst x :
  x < 2 ^ (7 * (Z.of_nat fuel + 1)) -> encode_loop (S fuel) dst x = encode_loop fuel dst x.
Proof.
  revert dst x. induction fuel as [|fuel IH]; intros dst x Hx; rewrite encode_loop_S.
  - cbn [encode_loop]. change (2 ^ (7 * (Z.of_nat 0 + 1))) with 128 in Hx. by zif.
  - rewrite (encode_loop_S fuel dst x). destruct (x >=? 128); [|done].
    apply IH. by apply shiftr7_bound.
Qed.

(** The loop's own equation: the fuel is enough for every [uint64]. *)
Lemma varint_unfold x :
  0 <= x < 2 ^ 64 ->
  varint x = if x >=? 0x80 then z2b (Z.lor (u8 x) 0x80) :: varint (Z.shiftr x 7) else [z2b x].
Proof.
  intros Hx. unfold varint, EncodeUint64. rewrite <- (encode_loop_fuel 9).
  - rewrite encode_loop_S. destruct (x >=? 128); [|done]. by rewrite encode_loop_app.
  - cbn. lia.
Qed.

Lemma cont_byte x :
  let c := b2z (z2b (Z.lor (u8 x) 0x80)) in 128 <= c /\ Z.land c 0x7f = x mod 128.
Proof.
  cbv zeta. rewrite b2z_z2b.
  replace (x mod 128) with (u8 x mod 128).
  2: { unfold u8. change (2 ^ 8) with (128 * 2). rewrite Z.rem_mul_r by lia.
       rewrite Z.mul_comm, Z.mod_add, Z.mod_mod; lia. }
  pose proof (below_forall 256 (fun y => (128 <=? u8 (Z.lor y 128)) &&
    (Z.land (u8 (Z.lor y 128)) 127 =? y mod 128)) ltac:(vm_compute; reflexivity)
    (u8 x) (u8_range x)) as H.
  apply andb_true_iff in H. lia.
Qed.

(** Induction along the groups of seven bits of a [uint64]. *)
Lemma varint_ind (P : Z -> Prop) :
  (forall x, 0 <= x < 128 -> P x) ->
  (forall x, 128 <= x < 2 ^ 64 -> 0 <= Z.shiftr x 7 < 2 ^ 57 -> P (Z.shiftr x 7) -> P x) ->
  forall x, 0 <= x < 2 ^ 64 -> P x.
Proof.
  intros Hs Hl x Hx.
  induction x as [x IH] using (well_founded_induction (Z.lt_wf 0)).
  destruct (Z.lt_ge_cases x 128); [apply Hs; lia|].
  assert (0 <= x / 128 < 2 ^ 57) by divlia.
  apply Hl; rewrite ?shiftr7; [lia..|]. apply IH; [divlia|lia].
Qed.

Lemma varint_nonempty x : 0 <= x < 2 ^ 64 -> 1 <= len (varint x).
Proof. intros Hx. rewrite varint_unfold by done. destruct (_ >=? _); cbn [length]; lia. Qed.

Lemma varint_small x : 0 <= x < 128 -> varint x = [z2b x].
Proof. intros. rewrite varint_unfold by lia. by zif. Qed.

Lemma size_loop_add fuel n x : size_loop fuel n x = n + size_loop fuel 0 x.
Proof.
  revert n x. induction fuel as [|fuel IH]; intros n x; cbn [size_loop];
    (destruct (_ =? 0); [lia|]); [lia|]. rewrite IH, (IH (0 + 1)). lia.
Qed.

Lemma size_loop_varint fuel x :
  0 <= x < 2 ^ 64 -> x < 2 ^ (7 * (Z.of_nat fuel + 1)) -> size_loop fuel 0 x = len (varint x).
Proof.
  revert x. induction fuel as [|fuel IH]; intros x Hx Hf; cbn [size_loop].
  - change (2 ^ (7 * (Z.of_nat 0 + 1))) with 128 in Hf.
    rewrite Z.shiftr_div_pow2, Z.div_small, varint_small by lia. done.
  - rewrite varint_unfold, Z.geb_leb by done.
    apply shiftr7_bound in Hf.
    rewrite shiftr7 in *.
    assert (0 <= x / 128 < 2 ^ 64 /\ (x / 128 = 0 <-> x < 128)) by divlia.
    destruct (Z.leb_spec 128 x); zif; [|done]. rewrite size_loop_add, IH by lia.
    cbn [length]. lia.
Qed.

Lemma SizeUint64_varint x : 0 <= x < 2 ^ 64 -> SizeUint64 x = len (varint x).
Proof. intros. apply size_loop_varint; [done|]. cbn. lia. Qed.

(** ** Decoding *)

Lemma decode_loop_varint x :
  0 <= x < 2 ^ 64 -> forall rest i acc,
  0 <= i -> x * 2 ^ (7 * i) < 2 ^ 64 -> i <= 9 -> 0 <= acc < 2 ^ (7 * i) ->
  decode_loop (varint x ++ rest) i (7 * i) acc
    = Ok (acc + x * 2 ^ (7 * i), i + len (varint x)).
Proof.
  intros Hx. pattern x. revert x Hx. apply varint_ind.
  - intros x Hx rest i acc Hi Hf Hi9 Ha. rewrite varint_small by done. cbn [app decode_loop length].
    unfold MaxUint64Len. rewrite b2z_z2b, u8_small by lia. zif.
    assert ((i =? 10 - 1) && (1 <? x) = false) as ->.
    { destruct (Z.eqb_spec i (10 - 1)) as [->|]; [|done]. cbn in Hf |- *. zif. done. }
    rewrite u64_small; [|rewrite Z.shiftl_mul_pow2; nia].
    rewrite lor_low_high by lia. do 2 f_equal.
  - intros x Hx Hs IH rest i acc Hi Hf Hi9 Ha. rewrite varint_unfold by lia. zif.
    cbn [app decode_loop length]. unfold MaxUint64Len. destruct (cont_byte x) as [Hc ->].
    assert (i <= 8) as Hi8.
    { destruct (Z.le_gt_cases i 8); [done|]. assert (i = 9) as -> by lia. cbn in Hf. lia. }
    zif. pose proof (Z.mod_pos_bound x 128). pose proof (Z.div_mod x 128).
    assert (2 ^ (7 * (i + 1)) = 128 * 2 ^ (7 * i)) as E
      by (rewrite Z.mul_add_distr_l, Z.pow_add_r by lia; lia).
    pose proof (shiftr7 x) as E7.
    rewrite u64_small by (rewrite Z.shiftl_mul_pow2; nia).
    rewrite lor_low_high by lia.
    replace (7 * i + 7) with (7 * (i + 1)) by lia.
    rewrite IH, E, E7, Nat2Z.inj_succ; [|lia|rewrite E, E7; nia|lia|rewrite E; nia].
    do 2 f_equal; [nia|lia].
Qed.

Lemma DecodeUint64_varint x rest :
  0 <= x < 2 ^ 64 -> DecodeUint64 (varint x ++ rest) = Ok (x, len (varint x)).
Proof.
  intros Hx. pose proof (decode_loop_varint x Hx rest 0 0) as E.
  rewrite !Z.mul_1_r in E. by apply E; lia.
Qed.

(** What a successful decoding looked at: at most ten bytes, and nothing after
    them. *)
Lemma last_group c i :
  0 <= i <= 9 -> 0 <= c < 128 -> (i =? 10 - 1) && (c >? 1) = false ->
  0 <= c * 2 ^ (7 * i) <= 2 ^ 64 - 2 ^ (7 * i).
Proof.
  intros Hi Hc E. destruct (Z.eqb_spec i (10 - 1)) as [->|Hne]; cbn in E |- *; [lia|].
  assert (2 ^ 64 = 2 ^ (64 - 7 * i) * 2 ^ (7 * i)) as -> by (rewrite <- Z.pow_add_r; f_equal; lia).
  assert (2 ^ 7 <= 2 ^ (64 - 7 * i)) by (apply Z.pow_le_mono_r; lia). nia.
Qed.

Lemma decode_loop_ok b i x v n :
  decode_loop b i (7 * i) x = Ok (v, n) -> 0 <= i <= 9 -> 0 <= x < 2 ^ (7 * i) ->
  0 <= v < 2 ^ 64 /\ i + 1 <= n <= 10 /\ n <= i + len b /\
  forall c, decode_loop (take (Z.to_nat (n - i)) b ++ c) i (7 * i) x = Ok (v, n).
Proof.
  revert i x. induction b as [|c b IH]; intros i x; cbn [decode_loop]; [done|].
  unfold MaxUint64Len. intros H Hi Hx. pose proof (b2z_range c) as Hc.
  rewrite (proj2 (Z.eqb_neq i 10)) in H by lia.
  destruct (Z.ltb_spec (b2z c) 128).
  - destruct ((i =? 10 - 1) && (b2z c >? 1)) eqn:E9; [done|]. injection H as <- <-.
    pose proof (last_group (b2z c) i Hi ltac:(lia) E9) as Hm.
    assert (u64 (b2z c ≪ (7 * i)) = b2z c ≪ (7 * i)) as Eu
      by (apply u64_small; rewrite Z.shiftl_mul_pow2; lia).
    cbn [length]. split_and!; [|rewrite Eu, lor_low_high by lia; lia|lia|lia|lia|].
    { rewrite Eu, lor_low_high by lia. lia. }
    intros c'. replace (i + 1 - i) with 1 by lia. change (take (Z.to_nat 1) (c :: b)) with [c].
    cbn [app decode_loop]. unfold MaxUint64Len.
    rewrite (proj2 (Z.eqb_neq i 10)), (proj2 (Z.ltb_lt (b2z c) 128)) by lia. by rewrite E9.
  - destruct (Z.eq_dec i 9) as [->|Hi9]; [by destruct b|].
    replace (7 * i + 7) with (7 * (i + 1)) in H by lia.
    assert (Z.land (b2z c) 127 = b2z c mod 128) as Ec by (by rewrite (Z.land_ones _ 7)).
    pose proof (Z.mod_pos_bound (b2z c) 128).
    assert (2 ^ (7 * (i + 1)) = 128 * 2 ^ (7 * i)) as E
      by (rewrite Z.mul_add_distr_l, Z.pow_add_r by lia; lia).
    assert (2 ^ (7 * (i + 1)) <= 2 ^ 63) by (apply Z.pow_le_mono_r; lia).
    assert (u64 (Z.land (b2z c) 127 ≪ (7 * i)) = (b2z c mod 128) ≪ (7 * i)) as Eu.
    { rewrite Ec. apply u64_small. rewrite Z.shiftl_mul_pow2 by lia. nia. }
    apply IH in H as (?&?&?&Hr); [|lia|rewrite Eu, lor_low_high by lia; nia].
    cbn [length]. split_and!; try lia. intros c'.
    replace (Z.to_nat (n - i)) with (S (Z.to_nat (n - (i + 1)))) by lia.
    cbn [firstn app decode_loop]. unfold MaxUint64Len.
    rewrite (proj2 (Z.eqb_neq i 10)), (proj2 (Z.ltb_ge (b2z c) 128)) by lia.
    replace (7 * i + 7) with (7 * (i + 1)) by lia. apply Hr.
Qed.

Lemma DecodeUint64_ok b v n :
  DecodeUint64 b = Ok (v, n) ->
  0 <= v < 2 ^ 64 /\ 1 <= n <= 10 /\ n <= len b /\
  forall c, DecodeUint64 (take (Z.to_nat n) b ++ c) = Ok (v, n).
Proof.
  intros H. apply (decode_loop_ok b 0 0 v n) in H as (?&?&?&Hr); [|cbn; lia..].
  split_and!; try lia. intros c. rewrite <- (Hr c). by rewrite Z.sub_0_r.
Qed.

(** Decoding never panics. *)
Lemma DecodeUint64_defined b :
  match DecodeUint64 b with Ok _ | Err _ => True | _ => False end.
Proof.
  unfold DecodeUint64.
  assert (forall i s x, match decode_loop b i s x with Ok _ | Err _ => True | _ => False end) as H;
    [|apply H].
  induction b as [|c b IH]; intros i s x; cbn [decode_loop]; [done|].
  destruct (i =? MaxUint64Len); [done|]. destruct (b2z c <? 0x80); [|apply IH].
  by destruct (_ && _).
Qed.

Lemma ends_decode b : ends (DecodeUint64 b).
Proof. pose proof (DecodeUint64_defined b). unfold ends. by destruct (DecodeUint64 b). Qed.
#[export] Hint Resolve ends_decode : ends.

Lemma varint_length x : 0 <= x < 2 ^ 64 -> 1 <= len (varint x) <= 10.
Proof.
  intros Hx. pose proof (DecodeUint64_varint x [] Hx) as E.
  apply DecodeUint64_ok in E. tauto.
Qed.

(** ** Writing in place *)

Lemma ends_decode_at payload off : ends (decode_at payload off).
Proof. unfold decode_at. ends_tac. Qed.
#[export] Hint Resolve ends_decode_at : ends.

Lemma decode_at_varint payload pre x post off :
  payload = pre ++ varint x ++ post -> off = len pre -> 0 <= x < 2 ^ 64 ->
  decode_at payload off = Ok (x, len (varint x)).
Proof.
  intros -> -> Hx. unfold decode_at. rewrite slice_from_app, outcome_bind_Ok by done.
  by apply DecodeUint64_varint.
Qed.

(** A length-prefixed field, as the decoders read it. *)
Definition field (d : list byte) : list byte := varint (len d) ++ d.

Lemma field_spec payload pre d post off :
  payload = pre ++ field d ++ post -> off = len pre -> len payload < 2 ^ 62 ->
  decode_at payload off = Ok (len d, len (varint (len d))) /\
  let off1 := i64 (off + len (varint (len d))) in
  (len payload <? i64 (off1 + i64 (len d))) = false /\
  subslice payload off1 (i64 (off1 + i64 (len d))) = Ok d /\
  i64 (off1 + i64 (len d)) = len (pre ++ field d).
Proof.
  intros -> -> Hl. unfold field in *. rewrite !length_app in Hl. split.
  { apply decode_at_varint with pre (d ++ post); [by rewrite <- !app_assoc|done|lia]. }
  rewrite (i64_small (len d)), (i64_small (len pre + _)), (i64_small (_ + len d)) by lia.
  cbv zeta. rewrite !length_app. split_and!; [zif; done| |lia].
  replace (pre ++ (varint (len d) ++ d) ++ post) with ((pre ++ varint (len d)) ++ d ++ post)
    by (by rewrite <- !app_assoc).
  apply subslice_app; rewrite length_app; lia.
Qed.

Lemma put_loop_varint fuel x pre post i rest :
  0 <= x < 2 ^ 64 -> x < 2 ^ (7 * (Z.of_nat fuel + 1)) -> i = len pre ->
  len post = len (varint x) ->
  put_loop fuel (pre ++ post ++ rest) x i = Ok (i + len (varint x), pre ++ varint x ++ rest).
Proof.
  assert (forall (l r : list byte) c d, set_index (l ++ c :: r) (len l) d = Ok (l ++ d :: r)) as Hset.
  { intros. unfold set_index. rewrite decide_True by (rewrite length_app; cbn [length]; lia).
    by rewrite Nat2Z.id, insert_app_r_alt, Nat.sub_diag by lia. }
  revert x pre post i. induction fuel as [|fuel IH]; intros x pre post i Hx Hf -> Hp.
  - change (2 ^ (7 * (Z.of_nat 0 + 1))) with 128 in Hf. cbn [put_loop].
    rewrite varint_small in * by lia. destruct post as [|c [|]]; try (cbn [length] in Hp; lia).
    cbn [app]. rewrite Z.geb_leb, (proj2 (Z.leb_gt _ _)), Hset by lia. done.
  - rewrite varint_unfold, Z.geb_leb in Hp |- * by done. cbn [put_loop]. rewrite Z.geb_leb.
    apply shiftr7_bound in Hf.
    destruct (Z.leb_spec 128 x); (destruct post as [|c post]; [cbn [length] in Hp; lia|]); cbn [app].
    + rewrite Hset, outcome_bind_Ok. rewrite (cons_middle _ pre), app_assoc.
      assert (0 <= Z.shiftr x 7 < 2 ^ 64) by (rewrite shiftr7; divlia).
      rewrite (IH _ (pre ++ [z2b (Z.lor (u8 x) 128)]) post);
        [|done..|rewrite length_app; cbn [length]; lia|cbn [length] in Hp; lia].
      rewrite <- app_assoc. cbn [app length]. do 2 f_equal. lia.
    + rewrite Hset. destruct post; [done|cbn [length] in Hp; lia].
Qed.

(** ** Reading from a stream *)

Module ReaderFacts.
Import Reader.

Lemma ReadByte_at pre c rest :
  try_ ReadByte (SliceReaderFacts.at_ pre (c :: rest)) =
    (Ok (inl c), SliceReaderFacts.at_ (pre ++ [c]) rest).
Proof.
  unfold try_, ReadByte, slice_byte_reader, SliceReader.ReadByte, SliceReaderFacts.at_.
  cbn [SliceReader.off SliceReader.b].
  rewrite Z.geb_leb, (proj2 (Z.leb_gt _ _)) by (rewrite length_app; cbn; lia).
  rewrite index_app_r by done. rewrite <- app_assoc, length_app, Nat2Z.inj_add. done.
Qed.

Lemma ReadByte_end pre :
  try_ ReadByte (SliceReaderFacts.at_ pre []) = (Ok (inr io_EOF), SliceReaderFacts.at_ pre []).
Proof.
  unfold try_, ReadByte, slice_byte_reader, SliceReader.ReadByte, SliceReaderFacts.at_.
  cbn [SliceReader.off SliceReader.b].
  by rewrite app_nil_r, Z.geb_leb, (proj2 (Z.leb_le _ _)).
Qed.

(** Both loops, started at the same place, accept the same encodings. *)
Lemma uint64_loop_decode k b pre i s x :
  i = 10 - Z.of_nat k -> 0 <= i ->
  match decode_loop b i s x with
  | Ok (v, n) =>
      uint64_loop k i s x (SliceReaderFacts.at_ pre b) =
        (Ok v, SliceReaderFacts.at_ (pre ++ take (Z.to_nat (n - i)) b) (drop (Z.to_nat (n - i)) b))
  | _ => is_ok (fst (uint64_loop k i s x (SliceReaderFacts.at_ pre b))) = false
  end.
Proof.
  revert k pre i s x. induction b as [|c b IH]; intros k pre i s x Hi Hp.
  - destruct k as [|k]; [done|]. cbn [uint64_loop decode_loop].
    erewrite M_bind_Ok by apply ReadByte_end. by destruct (i =? 0).
  - cbn [decode_loop]. unfold MaxUint64Len. destruct (Z.eqb_spec i 10) as [E|Hn].
    { destruct k; [done|lia]. }
    destruct k as [|k]; [lia|]. cbn [uint64_loop].
    pose proof (M_bind_Ok _ (fun c' : byte + error => match c' with
      | inl c => if b2z c <? 128 then if (i =? MaxUint64Len - 1) && (b2z c >? 1) then throw ErrOverflow
          else mret (Z.lor x (u64 (Z.shiftl (b2z c) s)))
          else uint64_loop k (i + 1) (s + 7) (Z.lor x (u64 (Z.shiftl (Z.land (b2z c) 0x7f) s)))
      | inr e => if i =? 0 then throw e else throw ErrTruncated end) _ _ _ (ReadByte_at pre c b)) as ->.
    unfold MaxUint64Len. destruct (b2z c <? 128) eqn:Ec.
    + destruct ((i =? 10 - 1) && (b2z c >? 1)); [done|].
      replace (i + 1 - i) with 1 by lia. done.
    + specialize (IH k (pre ++ [c]) (i + 1) (s + 7)
        (Z.lor x (u64 (Z.shiftl (Z.land (b2z c) 0x7f) s))) ltac:(lia) ltac:(lia)).
      destruct (decode_loop b _ _ _) as [[v n]|e|p|] eqn:Ed; try exact IH.
      rewrite IH, <- app_assoc. cbn [app].
      assert (i + 1 < n) as Hin.
      { clear -Ed. revert Ed. generalize (i + 1) (s + 7) (Z.lor x (u64 (Z.shiftl (Z.land (b2z c) 127) s))).
        induction b as [|d b IHb]; intros j t y; cbn [decode_loop]; [done|].
        repeat case_match; try done; [intros [= _ <-]; lia|]. intros H'%IHb. lia. }
      replace (Z.to_nat (n - i)) with (S (Z.to_nat (n - (i + 1)))) by lia. done.
Qed.
End ReaderFacts.

(** ** Zig-zag *)

Lemma ZigZagEncode_spec x :
  - 2 ^ 63 <= x < 2 ^ 63 -> ZigZagEncode x = if decide (0 <= x) then 2 * x else - 2 * x - 1.
Proof.
  intros Hx. unfold ZigZagEncode. rewrite Z.shiftl_mul_pow2, Z.shiftr_div_pow2 by lia.
  change (2 ^ 1) with 2. case_decide.
  - rewrite Z.div_small, Z.lxor_0_r by lia. unfold i64, u64.
    rewrite Zminus_mod_idemp_l. replace (x * 2 + 2 ^ 63 - 2 ^ 63) with (2 * x) by lia.
    apply Z.mod_small. lia.
  - replace (x / 2 ^ 63) with (-1) by divlia. rewrite Z.lxor_m1_r. unfold Z.lnot, i64, u64.
    replace (Z.pred (- ((x * 2 + 2 ^ 63) mod 2 ^ 64 - 2 ^ 63)))
      with ((2 ^ 63 - 1) - (x * 2 + 2 ^ 63) mod 2 ^ 64) by lia.
    rewrite Zminus_mod_idemp_r.
    replace (2 ^ 63 - 1 - (x * 2 + 2 ^ 63)) with (- 2 * x - 1) by lia. apply Z.mod_small. lia.
Qed.

Lemma ZigZagDecode_spec u :
  0 <= u < 2 ^ 64 -> ZigZagDecode u = if decide (u mod 2 = 0) then u / 2 else - (u / 2) - 1.
Proof.
  intros Hu. unfold ZigZagDecode. change (Z.land u 1) with (Z.land u (Z.ones 1)).
  rewrite Z.land_ones, Z.shiftr_div_pow2 by lia.
  change (2 ^ 1) with 2. pose proof (Z.mod_pos_bound u 2). assert (0 <= u / 2 < 2 ^ 63) by divlia.
  case_decide as E.
  - rewrite E. change (u64 (- 0)) with 0. rewrite Z.lxor_0_r. apply i64_small. lia.
  - assert (u mod 2 = 1) as -> by lia. change (u64 (- (1))) with (Z.ones 64).
    rewrite lxor_ones by lia. unfold i64. change (Z.ones 64) with (2 ^ 64 - 1).
    replace (2 ^ 64 - 1 - u / 2 + 2 ^ 63) with (2 ^ 63 - 1 - u / 2 + 1 * 2 ^ 64) by lia.
    rewrite Z.mod_add, Z.mod_small; lia.
Qed.

Lemma ZigZagEncode_range x : 0 <= ZigZagEncode x < 2 ^ 64.
Proof. apply u64_range. Qed.

Lemma ZigZagDecode_Encode x : - 2 ^ 63 <= x < 2 ^ 63 -> ZigZagDecode (ZigZagEncode x) = x.
Proof.
  intros Hx. rewrite ZigZagDecode_spec by apply ZigZagEncode_range.
  rewrite ZigZagEncode_spec by done. repeat case_decide; divlia.
Qed.

Lemma ZigZagEncode_Decode u : 0 <= u < 2 ^ 64 -> ZigZagEncode (ZigZagDecode u) = u.
Proof.
  intros Hu. rewrite ZigZagEncode_spec by apply i64_range.
  rewrite ZigZagDecode_spec by done. repeat case_decide; divlia.
Qed.

(** * Properties *)

(** a uint64 appended with EncodeUint64 is decoded from what was appended,
    whatever follows it, together with its exact encoded size, which is what
    SizeUint64 computes and never exceeds MaxUint64Len; the bytes already in
    the destination are kept. *)
Theorem DecodeUint64_EncodeUint64 dst rest x (Hx : 0 <= x < 2 ^ 64) :
  exists enc, EncodeUint64 dst x = dst ++ enc /\ len enc = SizeUint64 x /\
    1 <= SizeUint64 x <= MaxUint64Len /\ DecodeUint64 (enc ++ rest) = Ok (x, SizeUint64 x).
Proof.
  exists (varint x). rewrite SizeUint64_varint, DecodeUint64_varint by done.
  split_and!; try done; [apply EncodeUint64_app|by apply varint_length..].
Qed.

Lemma DecodeUint64_EncodeUint64_witness :
  exists enc, EncodeUint64 [x07] 300 = [x07] ++ enc /\ len enc = SizeUint64 300 /\
    1 <= SizeUint64 300 <= MaxUint64Len /\ DecodeUint64 (enc ++ [xff]) = Ok (300, SizeUint64 300).
Proof. apply DecodeUint64_EncodeUint64. lia. Defined.

(** PutUint64 fails with ErrShortBuffer exactly when the buffer is shorter
    than the encoding; otherwise it overwrites the front of the buffer with the
    bytes EncodeUint64 produces, leaves the rest alone and returns their
    number: its loop neither indexes out of range nor runs on. *)
Theorem PutUint64_spec b x (Hx : 0 <= x < 2 ^ 64) :
  PutUint64 b x =
  if decide (len b < SizeUint64 x) then Err ErrShortBuffer
  else Ok (SizeUint64 x, EncodeUint64 [] x ++ drop (Z.to_nat (SizeUint64 x)) b).
Proof.
  unfold PutUint64. fold (varint x). rewrite SizeUint64_varint by done.
  destruct (Z.ltb_spec (len b) (len (varint x))); case_decide; try done; try lia.
  rewrite Nat2Z.id. rewrite <- (take_drop (length (varint x)) b) at 1.
  apply (put_loop_varint 9 x []); [done|cbn; lia|done|rewrite length_take; lia].
Qed.

Lemma PutUint64_spec_witness :
  PutUint64 [x00; x00; x00] 300 = Ok (2, [xac; x02; x00]) /\
  PutUint64 [x00] 300 = Err ErrShortBuffer.
Proof. split; (rewrite PutUint64_spec; [reflexivity|lia]). Defined.

(** DecodeUint64 on any bytes: it never panics; when it succeeds the value
    fits 64 bits, between one and ten bytes were used, the bytes after them do
    not matter, and Skip advances over the same bytes. *)
Theorem DecodeUint64_total b :
  match DecodeUint64 b with
  | Ok (v, n) =>
      0 <= v < 2 ^ 64 /\ 1 <= n <= MaxUint64Len /\ n <= len b /\ Skip b = Ok n /\
      forall c, DecodeUint64 (take (Z.to_nat n) b ++ c) = Ok (v, n)
  | Err e => e = ErrTruncated \/ e = ErrOverflow
  | _ => False
  end.
Proof.
  assert (forall b i s x, match decode_loop b i s x with
    | Ok (v, n) => i <= 10 -> skip_loop b i = Ok n
    | Err e => e = ErrTruncated \/ e = ErrOverflow | _ => False end) as Hs.
  { clear b. induction b as [|c b IH]; intros i s x; cbn [decode_loop skip_loop]; [by left|].
    unfold MaxUint64Len. destruct (Z.eqb_spec i 10); [by right|].
    destruct (b2z c <? 128).
    - destruct ((i =? 10 - 1) && (b2z c >? 1)); [by right|]. intros. by zif.
    - specialize (IH (i + 1) (s + 7) (Z.lor x (u64 (Z.shiftl (Z.land (b2z c) 127) s)))).
      destruct (decode_loop b _ _ _) as [[v m]|e|p|]; [|done..]. intros Hi. zif. apply IH. lia. }
  specialize (Hs b 0 0 0). fold (DecodeUint64 b) in Hs.
  destruct (DecodeUint64 b) as [[v n]|e|p|] eqn:E; [|done..].
  apply DecodeUint64_ok in E as (?&?&?&?). split_and!; try done; try lia; [|by apply Hs].
  unfold MaxUint64Len. lia.
Qed.

(** the streaming Reader over a SliceReader accepts exactly the encodings
    DecodeUint64 accepts: on success it returns the same value and has consumed
    the same bytes, otherwise it fails. *)
Theorem Reader_Uint64_DecodeUint64 pre b :
  let r := SliceReader.mkReader (pre ++ b) (len pre) in
  match DecodeUint64 b with
  | Ok (v, n) => Reader.Uint64 r = (Ok v, SliceReader.mkReader (pre ++ b) (len pre + n))
  | _ => is_ok (fst (Reader.Uint64 r)) = false
  end.
Proof.
  cbv zeta. pose proof (ReaderFacts.uint64_loop_decode 10 b pre 0 0 0 eq_refl ltac:(lia)) as H.
  fold (DecodeUint64 b) in H. destruct (DecodeUint64 b) as [[v n]|e|p|] eqn:E; try exact H.
  apply DecodeUint64_ok in E as (?&?&?&?). rewrite Z.sub_0_r in H.
  unfold Reader.Uint64. etrans; [exact H|]. unfold SliceReaderFacts.at_.
  rewrite <- app_assoc, take_drop, length_app, length_take. do 2 f_equal. lia.
Qed.

(** zig-zag coding is a bijection between int64 and uint64 that maps small
    magnitudes to small values, and signed varints round trip through it. *)
Theorem ZigZag_bijection x u rest (Hx : - 2 ^ 63 <= x < 2 ^ 63) (Hu : 0 <= u < 2 ^ 64) :
  0 <= ZigZagEncode x < 2 ^ 64 /\ - 2 ^ 63 <= ZigZagDecode u < 2 ^ 63 /\
  ZigZagDecode (ZigZagEncode x) = x /\ ZigZagEncode (ZigZagDecode u) = u /\
  ZigZagEncode x = (if decide (0 <= x) then 2 * x else - 2 * x - 1) /\
  DecodeInt64 (EncodeInt64 [] x ++ rest) = Ok (x, SizeInt64 x).
Proof.
  pose proof (ZigZagEncode_range x). split_and!.
  1,2: lia. 1,2: apply i64_range.
  - by apply ZigZagDecode_Encode.
  - by apply ZigZagEncode_Decode.
  - by apply ZigZagEncode_spec.
  - unfold DecodeInt64, EncodeInt64, SizeInt64. fold (varint (ZigZagEncode x)).
    rewrite DecodeUint64_varint, outcome_bind_Ok, ZigZagDecode_Encode by done.
    by rewrite SizeUint64_varint.
Qed.

Lemma ZigZag_bijection_witness :
  DecodeInt64 (EncodeInt64 [] (-3) ++ [xff]) = Ok (-3, SizeInt64 (-3)) /\
  ZigZagEncode (ZigZagDecode 7) = 7.
Proof.
  destruct (ZigZag_bijection (-3) 7 [xff]) as (_&_&_&H1&_&H2); [lia|lia|]. by split.
Defined.

(** two varints written by EncodePair are read back by DecodePair, with the
    offset just after the second. *)
Theorem DecodePair_EncodePair a b rest (Ha : 0 <= a < 2 ^ 64) (Hb : 0 <= b < 2 ^ 64) :
  DecodePair (EncodePair [] a b ++ rest) = Ok (a, b, SizeUint64 a + SizeUint64 b).
Proof.
  unfold EncodePair, DecodePair. fold (varint a). rewrite EncodeUint64_app, <- app_assoc.
  rewrite DecodeUint64_varint, outcome_bind_Ok by done.
  rewrite slice_from_app, outcome_bind_Ok by done.
  rewrite DecodeUint64_varint, outcome_bind_Ok by done. by rewrite !SizeUint64_varint.
Qed.

Lemma DecodePair_EncodePair_witness :
  DecodePair (EncodePair [] 300 1 ++ [xff]) = Ok (300, 1, SizeUint64 300 + SizeUint64 1).
Proof. apply DecodePair_EncodePair; lia. Defined.
