(* ===== verification/Crc32x.v ===== *)
(** * Crc32x: package internal/crc32x

    The checksums of the log, the tables and the manifest.  Module [crc32] is
    the part of Go's hash/crc32 the package calls: table construction and the
    byte-at-a-time update in the reflected form.  A [*Table] that may be nil is
    an option. *)

From Stdlib Require Import ZArith Lia Strings.Byte.
From stdpp Require Import base decidable list strings numbers.
From S2P Require Import Prelude ByteUtil.
#[local] Open Scope Z_scope.

(** ** hash/crc32 *)

Module crc32.

Definition IEEE : Z := 0xedb88320.
Definition Castagnoli : Z := 0x82f63b78.
Definition Koopman : Z := 0xeb31d82e.

Fixpoint table_bits (k : nat) (poly crc : Z) : Z :=
  match k with
  | O => crc
  | S k =>
      table_bits k poly
        (if Z.land crc 1 =? 1 then Z.lxor (Z.shiftr crc 1) poly else Z.shiftr crc 1)
  end.

Definition MakeTable (poly : Z) : list Z :=
  map (fun i => table_bits 8 poly (Z.of_nat i)) (seq 0 256).

(** [^crc] on 32 bits. *)
Definition compl (crc : Z) : Z := Z.lxor crc 0xffffffff.

Definition step (tab : list Z) (crc : Z) (v : byte) : Z :=
  Z.lxor (nth (Z.to_nat (Z.lxor (Z.land crc 255) (b2z v))) tab 0) (Z.shiftr crc 8).

Definition run (tab : list Z) (crc : Z) (p : list byte) : Z := fold_left (step tab) p crc.

Definition Update (crc : Z) (tab : list Z) (p : list byte) : Z :=
  compl (run tab (compl crc) p).

Definition Checksum (p : list byte) (tab : list Z) : Z := Update 0 tab p.

End crc32.

(** ** Tables *)

Definition IEEE : Z := crc32.IEEE.
Definition Castagnoli : Z := crc32.Castagnoli.
Definition Koopman : Z := crc32.Koopman.

Definition ieeeTable : list Z := crc32.MakeTable IEEE.
Definition castagnoliTable : list Z := crc32.MakeTable Castagnoli.
Definition koopmanTable : list Z := crc32.MakeTable Koopman.

Record Table := mkTable { poly : Z; tab : option (list Z) }.

Definition IEEETable : Table := mkTable IEEE (Some ieeeTable).
Definition CastagnoliTable : Table := mkTable Castagnoli (Some castagnoliTable).
Definition KoopmanTable : Table := mkTable Koopman (Some koopmanTable).

Definition Poly (t : option Table) : Z :=
  match t with None => IEEE | Some t => poly t end.

Definition Update (t : option Table) (crc : Z) (data : list byte) : Z :=
  let table :=
    match t with
    | Some t => match tab t with Some l => l | None => ieeeTable end
    | None => ieeeTable
    end in
  crc32.Update crc table data.

Definition Checksum (t : option Table) (data : list byte) : Z := Update t 0 data.
Definition ChecksumIEEE (data : list byte) : Z := crc32.Checksum data ieeeTable.
Definition ChecksumCastagnoli (data : list byte) : Z := crc32.Checksum data castagnoliTable.
Definition Verify (t : option Table) (data : list byte) (expected : Z) : bool :=
  Checksum t data =? expected.

(** ** Digest *)

Module Digest.

Record Digest := mkDigest { crc : Z; dtab : Table }.

Definition New (t : option Table) : Digest :=
  mkDigest 0 (match t with None => IEEETable | Some t => t end).
Definition NewIEEE : Digest := New (Some IEEETable).
Definition NewCastagnoli : Digest := New (Some CastagnoliTable).

Definition Write (p : list byte) : M Digest Z := fun d =>
  (Ok (len p), mkDigest (Update (Some (dtab d)) (crc d) p) (dtab d)).

Definition Sum32 (d : Digest) : Z := crc d.
Definition Sum (d : Digest) (b : list byte) : list byte := b ++ be_bytes 4 (Sum32 d).
Definition Reset : M Digest unit := modify (fun d => mkDigest 0 (dtab d)).
Definition Size (d : Digest) : Z := 4.
Definition BlockSize (d : Digest) : Z := 1.
Definition Sum32LE (d : Digest) : list byte := le_bytes 4 (crc d).
Definition Sum32BE (d : Digest) : list byte := be_bytes 4 (crc d).

(** [_, _ = d.Write(p)] *)
Definition write (d : Digest) (p : list byte) : Digest := snd (Write p d).

End Digest.

Definition CombineIEEE (crc1 crc2 len2 : Z) : Z := Z.lxor crc1 crc2.

Definition FrameChecksum (typ : byte) (payload : list byte) : Z :=
  let d := Digest.NewCastagnoli in
  let d := Digest.write d [typ] in
  let d := Digest.write d payload in
  Digest.Sum32 d.

Definition AppendChecksumLE (dst data : list byte) : list byte :=
  let sum := ChecksumCastagnoli data in
  dst ++ le_bytes 4 sum.

Definition CheckTrailingLE (buf : list byte) : bool :=
  if len buf <? 4 then false
  else
    let body := take (length buf - 4) buf in
    let want := le_val (drop (length buf - 4) buf) in
    ChecksumCastagnoli body =? want.

Definition MultiPartChecksum (parts : list (list byte)) : Z :=
  Digest.Sum32 (fold_left Digest.write parts Digest.NewCastagnoli).

(** [crc32.New(table)] and [crc32.NewIEEE()]: running checksums. *)
Definition Hasher : Digest.Digest := Digest.mkDigest 0 CastagnoliTable.
Definition HasherIEEE : Digest.Digest := Digest.mkDigest 0 IEEETable.

Definition EqualChecksum (a b : Z) : bool := a =? b.

Definition Mask (crc : Z) : Z :=
  u32 (Z.lor (Z.shiftr crc 15) (u32 (Z.shiftl crc 17)) + 0xa282ead8).
Definition Unmask (masked : Z) : Z :=
  let rot := u32 (masked - 0xa282ead8) in
  Z.lor (Z.shiftr rot 17) (u32 (Z.shiftl rot 15)).

(** ** Rolling *)

Module Rolling.

Record Rolling := mkRolling
  { window : list byte; size : Z; pos : Z; filled : bool; rtab : Table }.

Definition NewRolling (n : Z) (t : option Table) : Rolling :=
  let n := if n <=? 0 then 1 else n in
  let t := match t with None => CastagnoliTable | Some t => t end in
  mkRolling (replicate (Z.to_nat n) x00) n 0 false t.

Definition Push (c : byte) : M Rolling Z := fun r =>
  match set_index (window r) (pos r) c with
  | Ok w =>
      let p := (pos r + 1) mod size r in
      let f := if p =? 0 then true else filled r in
      let r := mkRolling w (size r) p f (rtab r) in
      if negb f then (Ok (Checksum (Some (rtab r)) (take (Z.to_nat p) w)), r)
      else
        let ordered := replicate (Z.to_nat (size r)) x00 in
        let ordered := copy_at ordered 0 (drop (Z.to_nat p) w) in
        let ordered := copy_at ordered (Z.to_nat (size r - p)) (take (Z.to_nat p) w) in
        (Ok (Checksum (Some (rtab r)) ordered), r)
  | _ => (Panic IndexOutOfRange, r)
  end.

Definition Reset : M Rolling unit := modify (fun r =>
  mkRolling (replicate (length (window r)) x00) (size r) 0 false (rtab r)).

End Rolling.

(** * Lemmas *)

(** ** One step of the checksum *)

(** What the proofs need of a table: 256 entries of 32 bits whose top bytes are
    all different.  Every table the package makes has it. *)
Definition good_table (t : list Z) : Prop :=
  length t = 256%nat /\ Forall (fun e => 0 <= e < 2 ^ 32) t /\
  NoDup ((fun e => Z.shiftr e 24) <$> t).

Definition good_tableb (t : list Z) : bool :=
  Nat.eqb (length t) 256 && forallb (fun e => (0 <=? e) && (e <? 2 ^ 32)) t &&
  bool_decide (NoDup ((fun e => Z.shiftr e 24) <$> t)).

Lemma good_tableb_spec t : good_tableb t = true -> good_table t.
Proof.
  unfold good_tableb. rewrite !andb_true_iff, Nat.eqb_eq, bool_decide_eq_true, forallb_forall.
  intros [[Hl Hf] Hn]. split_and!; [done| |done]. apply Forall_forall. intros e He.
  specialize (Hf e He). apply andb_true_iff in Hf. lia.
Qed.

Lemma good_ieee : good_table ieeeTable.
Proof. apply good_tableb_spec. vm_compute. reflexivity. Qed.
Lemma good_castagnoli : good_table castagnoliTable.
Proof. apply good_tableb_spec. vm_compute. reflexivity. Qed.
Lemma good_koopman : good_table koopmanTable.
Proof. apply good_tableb_spec. vm_compute. reflexivity. Qed.
#[export] Hint Resolve good_ieee good_castagnoli good_koopman : go.

(** The table index a step uses. *)
Definition idx (crc : Z) (v : byte) : Z := Z.lxor (Z.land crc 255) (b2z v).

Lemma lxor_range a b n : 0 <= n -> 0 <= a < 2 ^ n -> 0 <= b < 2 ^ n -> 0 <= Z.lxor a b < 2 ^ n.
Proof.
  intros Hn Ha Hb. rewrite <- (Z.mod_small a (2 ^ n)), <- (Z.mod_small b (2 ^ n)) by done.
  assert (Z.lxor (a mod 2 ^ n) (b mod 2 ^ n) = Z.lxor (a mod 2 ^ n) (b mod 2 ^ n) mod 2 ^ n) as ->.
  { apply Z.bits_inj'. intros i Hi. destruct (Z.lt_ge_cases i n).
    - by rewrite Z.mod_pow2_bits_low.
    - rewrite (Z.mod_pow2_bits_high (Z.lxor _ _)), Z.lxor_spec, !Z.mod_pow2_bits_high by lia. done. }
  apply Z.mod_pos_bound. lia.
Qed.

Lemma land255 z : Z.land z 255 = u8 z.
Proof. by apply (Z.land_ones z 8). Qed.

Lemma idx_range crc v : 0 <= idx crc v < 256.
Proof.
  unfold idx. apply (lxor_range _ _ 8); [lia| |apply b2z_range].
  rewrite land255. apply u8_range.
Qed.

Section table.
Variable t : list Z.
Hypothesis Ht : good_table t.

Lemma entry_range i : 0 <= nth i t 0 < 2 ^ 32.
Proof.
  destruct Ht as (Hl & Hf & _). destruct (Nat.lt_ge_cases i (length t)).
  - rewrite Forall_forall in Hf. by apply Hf, nth_In.
  - rewrite nth_overflow by done. lia.
Qed.

Lemma step_range crc v : 0 <= crc < 2 ^ 32 -> 0 <= crc32.step t crc v < 2 ^ 32.
Proof.
  intros. unfold crc32.step. apply lxor_range; [lia|apply entry_range|].
  rewrite Z.shiftr_div_pow2 by lia. divlia.
Qed.

Lemma run_range p crc : 0 <= crc < 2 ^ 32 -> 0 <= crc32.run t crc p < 2 ^ 32.
Proof.
  revert crc. induction p as [|v p IH]; intros crc Hc; [done|]. cbn. by apply IH, step_range.
Qed.

(** Looking only at the bits from [8 * j] up, with [j < 4], the result of a step
    determines the index and the bits of the old checksum from [8 * (j + 1)]. *)
Lemma step_back j c1 c2 v1 v2 :
  0 <= j < 4 -> 0 <= c1 < 2 ^ 32 -> 0 <= c2 < 2 ^ 32 ->
  Z.shiftr (crc32.step t c1 v1) (8 * j) = Z.shiftr (crc32.step t c2 v2) (8 * j) ->
  idx c1 v1 = idx c2 v2 /\ Z.shiftr c1 (8 * (j + 1)) = Z.shiftr c2 (8 * (j + 1)).
Proof.
  intros Hj H1 H2 E. unfold crc32.step in E. fold (idx c1 v1) (idx c2 v2) in E.
  assert (idx c1 v1 = idx c2 v2) as Hi.
  { apply (f_equal (fun z => Z.shiftr z (24 - 8 * j))) in E.
    rewrite !Z.shiftr_shiftr, !Z.shiftr_lxor, !Z.shiftr_shiftr in E by lia.
    replace (8 + (8 * j + (24 - 8 * j))) with 32 in E by lia.
    replace (8 * j + (24 - 8 * j)) with 24 in E by lia.
    rewrite !(Z.shiftr_div_pow2 _ 32), !(Z.div_small _ (2 ^ 32)), !Z.lxor_0_r in E by lia.
    destruct Ht as (Hl & _ & Hn). pose proof (idx_range c1 v1). pose proof (idx_range c2 v2).
    assert (Z.to_nat (idx c1 v1) = Z.to_nat (idx c2 v2)); [|lia].
    destruct (lookup_lt_is_Some_2 t (Z.to_nat (idx c1 v1))) as [e1 He1]; [lia|].
    destruct (lookup_lt_is_Some_2 t (Z.to_nat (idx c2 v2))) as [e2 He2]; [lia|].
    rewrite !nth_lookup, He1, He2 in E. cbn in E.
    eapply NoDup_lookup; [exact Hn|rewrite list_lookup_fmap, He1; done|].
    by rewrite list_lookup_fmap, He2, E. }
  split; [done|]. rewrite Hi, !Z.shiftr_lxor, !Z.shiftr_shiftr in E by lia.
  replace (8 * (j + 1)) with (8 + 8 * j) by lia.
  apply (f_equal (Z.lxor (Z.shiftr (nth (Z.to_nat (idx c2 v2)) t 0) (8 * j)))) in E.
  by rewrite <- !Z.lxor_assoc, !Z.lxor_nilpotent, !Z.lxor_0_l in E.
Qed.
End table.

(** ** Bursts *)

(** The indices used along a string. *)
Fixpoint idxs (t : list Z) (crc : Z) (p : list byte) : list Z :=
  match p with
  | [] => []
  | v :: p => idx crc v :: idxs t (crc32.step t crc v) p
  end.

Lemma run_app t c p q : crc32.run t c (p ++ q) = crc32.run t (crc32.run t c p) q.
Proof. apply fold_left_app. Qed.

Lemma idxs_snoc t c p v : idxs t c (p ++ [v]) = idxs t c p ++ [idx (crc32.run t c p) v].
Proof.
  revert c. induction p as [|w p IH]; intros c; [done|]. cbn [app idxs]. by rewrite IH.
Qed.

Lemma idxs_inj t c p q : idxs t c p = idxs t c q -> p = q.
Proof.
  revert c q. induction p as [|v p IH]; intros c [|w q]; cbn [idxs]; try done.
  intros [= Ev E]. unfold idx in Ev. apply (f_equal (Z.lxor (Z.land c 255))) in Ev.
  rewrite <- !Z.lxor_assoc, !Z.lxor_nilpotent, !Z.lxor_0_l in Ev.
  apply b2z_inj in Ev as ->. f_equal. by eapply IH.
Qed.

Section burst.
Variable t : list Z.
Hypothesis Ht : good_table t.

Lemma run_back p q j c1 c2 :
  length p = length q -> 0 <= j -> j + len p <= 4 -> 0 <= c1 < 2 ^ 32 -> 0 <= c2 < 2 ^ 32 ->
  Z.shiftr (crc32.run t c1 p) (8 * j) = Z.shiftr (crc32.run t c2 q) (8 * j) ->
  idxs t c1 p = idxs t c2 q.
Proof.
  revert q j. induction p as [|v p IH] using rev_ind; intros q j Hl Hj Hn H1 H2 E.
  - by destruct q.
  - destruct q as [|w q _] using rev_ind; [rewrite length_app in Hl; cbn in Hl; lia|].
    rewrite !length_app in *. cbn [length] in *. rewrite !run_app in E. cbn [crc32.run fold_left] in E.
    apply step_back in E as [Ei E]; [|done|lia|by apply run_range..].
    rewrite !idxs_snoc. f_equal; [|by f_equal]. apply (IH q (j + 1)); try done; lia.
Qed.

Lemma step_inj c1 c2 v :
  0 <= c1 < 2 ^ 32 -> 0 <= c2 < 2 ^ 32 -> crc32.step t c1 v = crc32.step t c2 v -> c1 = c2.
Proof.
  intros H1 H2 E.
  destruct (step_back t Ht 0 c1 c2 v v ltac:(lia) H1 H2 ltac:(by rewrite E)) as [Ei Es].
  unfold idx in Ei. apply (f_equal (fun z => Z.lxor z (b2z v))) in Ei.
  rewrite !Z.lxor_assoc, !Z.lxor_nilpotent, !Z.lxor_0_r, !land255 in Ei.
  rewrite !Z.shiftr_div_pow2 in Es by lia. cbn in Es. unfold u8 in Ei. cbn in Ei. divlia.
Qed.

Lemma run_inj p c1 c2 :
  0 <= c1 < 2 ^ 32 -> 0 <= c2 < 2 ^ 32 -> crc32.run t c1 p = crc32.run t c2 p -> c1 = c2.
Proof.
  revert c1 c2. induction p as [|v p IH]; intros c1 c2 H1 H2 E; [done|].
  eapply step_inj; [done..|]. apply IH; [by apply step_range..|done].
Qed.

Lemma compl_range c : 0 <= c < 2 ^ 32 -> 0 <= crc32.compl c < 2 ^ 32.
Proof. intros. by apply lxor_range. Qed.

Lemma compl_compl c : crc32.compl (crc32.compl c) = c.
Proof. unfold crc32.compl. by rewrite Z.lxor_assoc, Z.lxor_nilpotent, Z.lxor_0_r. Qed.

Lemma Update_range c p : 0 <= c < 2 ^ 32 -> 0 <= crc32.Update c t p < 2 ^ 32.
Proof. intros. by apply compl_range, run_range, compl_range. Qed.

(** Two strings of the same length that differ only within four consecutive
    bytes, the last [j] of those four being beyond their end, have checksums
    that differ above the low [8 * j] bits. *)
Lemma burst pre b1 b2 post c j :
  0 <= c < 2 ^ 32 -> length b1 = length b2 -> 0 <= j -> j + len b1 <= 4 ->
  (j = 0 \/ post = []) ->
  Z.shiftr (crc32.Update c t (pre ++ b1 ++ post)) (8 * j) =
    Z.shiftr (crc32.Update c t (pre ++ b2 ++ post)) (8 * j) ->
  b1 = b2.
Proof.
  intros Hc Hl Hj Hn Hp E. unfold crc32.Update, crc32.compl in E.
  rewrite !Z.shiftr_lxor in E.
  apply (f_equal (fun z => Z.lxor z (Z.shiftr 0xffffffff (8 * j)))) in E.
  rewrite !Z.lxor_assoc, !Z.lxor_nilpotent, !Z.lxor_0_r in E.
  fold (crc32.compl c) in E. rewrite !run_app in E.
  set (c0 := crc32.run t (crc32.compl c) pre) in *.
  assert (0 <= c0 < 2 ^ 32) by (by apply run_range, compl_range).
  apply (idxs_inj t c0). apply run_back with (j := j); try done; try lia.
  destruct Hp as [->| ->]; [|done]. rewrite !Z.shiftr_0_r in *.
  apply run_inj in E; [done|by apply run_range..].
Qed.
End burst.

(** ** Chaining *)

Lemma Update_chain t c p q :
  crc32.Update (crc32.Update c t p) t q = crc32.Update c t (p ++ q).
Proof. unfold crc32.Update. by rewrite compl_compl, run_app. Qed.

Lemma write_Sum32 d p :
  Digest.write d p = Digest.mkDigest (Update (Some (Digest.dtab d)) (Digest.crc d) p) (Digest.dtab d).
Proof. done. Qed.

Lemma writes_concat parts c tb :
  fold_left Digest.write parts (Digest.mkDigest c tb) =
  Digest.mkDigest (fold_left (fun c p => Update (Some tb) c p) parts c) tb.
Proof. revert c. induction parts as [|p parts IH]; intros c; [done|]. apply IH. Qed.

Lemma Update_nil t c : crc32.Update c t [] = c.
Proof. apply compl_compl. Qed.

Lemma FrameChecksum_alt typ payload : FrameChecksum typ payload = ChecksumCastagnoli (typ :: payload).
Proof. apply (Update_chain castagnoliTable 0 [typ] payload). Qed.

Lemma ChecksumCastagnoli_range p : 0 <= ChecksumCastagnoli p < 2 ^ 32.
Proof. apply Update_range; [apply good_castagnoli|lia]. Qed.

Lemma FrameChecksum_range typ payload : 0 <= FrameChecksum typ payload < 2 ^ 32.
Proof. rewrite FrameChecksum_alt. apply ChecksumCastagnoli_range. Qed.
#[export] Hint Resolve ChecksumCastagnoli_range FrameChecksum_range : go.

(** ** The trailing checksum *)

Lemma CheckTrailingLE_iff buf :
  CheckTrailingLE buf = true <->
  exists body, buf = body ++ le_bytes 4 (ChecksumCastagnoli body).
Proof.
  unfold CheckTrailingLE. destruct (Z.ltb_spec (len buf) 4) as [Hl|Hl].
  - split; [done|]. intros (body & ->). rewrite length_app, length_le_bytes in Hl. lia.
  - rewrite Z.eqb_eq. split.
    + intros E. exists (take (length buf - 4) buf).
      rewrite E, le_bytes_val_n, take_drop; [done|]. rewrite length_drop. lia.
    + intros (body & ->). rewrite length_app, length_le_bytes, Nat.add_sub.
      rewrite take_app_length, drop_app_length, le_val_bytes4, u32_small; [done|].
      apply ChecksumCastagnoli_range.
Qed.

(** Splitting a string that is also a body and a trailer at a window. *)
Lemma window_split (body tr pre b post : list byte) :
  body ++ tr = pre ++ b ++ post ->
  let L := length body in
  body = take L pre ++ take (L - length pre) b ++ take (L - length pre - length b) post /\
  tr = drop L pre ++ drop (L - length pre) b ++ drop (L - length pre - length b) post.
Proof.
  intros E. cbv zeta. rewrite <- !take_app, <- !drop_app, <- E.
  by rewrite take_app_length, drop_app_length.
Qed.

(** Two checksummed strings that differ only within four consecutive bytes. *)
Lemma codewords_burst d1 d2 pre b1 b2 post :
  d1 ++ le_bytes 4 (ChecksumCastagnoli d1) = pre ++ b1 ++ post ->
  d2 ++ le_bytes 4 (ChecksumCastagnoli d2) = pre ++ b2 ++ post ->
  length b1 = length b2 -> len b1 <= 4 -> d1 = d2.
Proof.
  intros E1 E2 Hb H4.
  assert (length d1 = length d2) as Hd.
  { apply (f_equal length) in E1, E2. rewrite !length_app, length_le_bytes in E1, E2. lia. }
  apply window_split in E1 as [D1 T1], E2 as [D2 T2]. rewrite <- Hd, <- Hb in D2, T2.
  set (k := (length d1 - length pre)%nat) in *.
  pose proof (ChecksumCastagnoli_range d1) as R1. pose proof (ChecksumCastagnoli_range d2) as R2.
  apply (f_equal le_val) in T1, T2. rewrite le_val_bytes4, u32_small in T1, T2 by done.
  destruct (decide (length pre <= length d1)%nat) as [Hp|Hp].
  2: { rewrite D1, D2. subst k. replace (length d1 - length pre)%nat with 0%nat by lia. by rewrite !take_0. }
  rewrite (drop_ge pre), app_nil_l in T1, T2 by done.
  assert (take k b1 = take k b2) as Hk; [|by rewrite D1, D2, Hk].
  destruct (decide (length b1 <= k)%nat) as [Hin|Hin].
  - rewrite (drop_ge b1), app_nil_l in T1 by lia. rewrite (drop_ge b2), app_nil_l in T2 by lia.
    apply (burst castagnoliTable good_castagnoli (take (length d1) pre) _ _
             (take (k - length b1) post) 0 0); [lia|rewrite !length_take; lia|lia| |by left|].
    + rewrite length_take. lia.
    + f_equal. rewrite <- D1, <- D2. change (ChecksumCastagnoli d1 = ChecksumCastagnoli d2). congruence.
  - replace (k - length b1)%nat with 0%nat in * by lia. rewrite take_0 in D1, D2. rewrite drop_0 in T1, T2.
    apply (burst castagnoliTable good_castagnoli (take (length d1) pre) _ _ [] 0 (len (drop k b1)));
      [lia|rewrite !length_take; lia|lia| |by right|].
    + rewrite length_take, length_drop. lia.
    + rewrite <- D1, <- D2. change (crc32.Update 0 castagnoliTable) with ChecksumCastagnoli.
      rewrite T1, T2, le_val_high.
      replace (len (drop k b1)) with (len (drop k b2)) by (rewrite !length_drop; lia).
      by rewrite le_val_high.
Qed.

(** ** The rolling window *)

Module RollingFacts.
Import Rolling.

Definition tail_of (n : nat) (h : list byte) : list byte := drop (length h - n) h.

(** The window of a Rolling that has seen the bytes [h]. *)
Definition inv (r : Rolling) (h : list byte) : Prop :=
  exists n p, size r = Z.of_nat n /\ pos r = Z.of_nat p /\ length (window r) = n /\ (p < n)%nat /\
    if filled r then (n <= length h)%nat /\ drop p (window r) ++ take p (window r) = tail_of n h
    else p = length h /\ take p (window r) = h.

Lemma New_inv n t : inv (NewRolling n t) [].
Proof.
  exists (Z.to_nat (if n <=? 0 then 1 else n)), 0%nat. cbn.
  rewrite length_replicate. split_and!; try done; destruct (Z.leb_spec n 0); lia.
Qed.

Lemma ordered_rotation w p :
  (p <= length w)%nat ->
  copy_at (copy_at (replicate (length w) x00) 0 (drop p w)) (length w - p) (take p w)
    = drop p w ++ take p w.
Proof.
  intros Hp. rewrite copy_at_fresh by (rewrite length_drop; lia).
  rewrite <- (app_nil_r (replicate _ _)), copy_at_app;
    [by rewrite app_nil_r|by rewrite length_drop|].
  rewrite length_replicate, length_drop, length_take. lia.
Qed.

Lemma tail_snoc n h c w :
  (1 <= n)%nat -> (n <= length h)%nat -> tail_of n h = w -> tail_of n (h ++ [c]) = drop 1 w ++ [c].
Proof.
  intros H1 Hn <-. unfold tail_of. rewrite length_app. cbn [length].
  rewrite drop_app_le, drop_drop by lia. do 2 f_equal. lia.
Qed.

Lemma next_pos n p :
  (p < n)%nat -> (Z.of_nat p + 1) mod Z.of_nat n = Z.of_nat (if decide (S p = n) then 0 else S p).
Proof.
  intros Hp. case_decide.
  - subst n. replace (Z.of_nat p + 1) with (Z.of_nat (S p)) by lia. apply Z.mod_same. lia.
  - rewrite Z.mod_small; lia.
Qed.

Lemma insert_split (w : list byte) p c :
  (p < length w)%nat -> <[p:=c]> w = take p w ++ c :: drop (S p) w.
Proof. intros. by apply insert_take_drop. Qed.

(** What the circular buffer holds after one more byte. *)
Lemma window_after r h c :
  inv r h ->
  let n := Z.to_nat (size r) in
  let w := <[Z.to_nat (pos r) := c]> (window r) in
  let p := Z.to_nat ((pos r + 1) mod size r) in
  if (p =? 0)%nat || filled r then
    (n <= length (h ++ [c]))%nat /\ drop p w ++ take p w = tail_of n (h ++ [c])
  else p = length (h ++ [c]) /\ take p w = h ++ [c] /\ (p < n)%nat.
Proof.
  intros (n & p & Hs & Hp & Hl & Hlt & Hf). cbv zeta. rewrite Hs, Hp, next_pos, !Nat2Z.id by done.
  rewrite insert_split by lia. rewrite (length_app h). cbn [length].
  assert (length (take p (window r)) = p) as Ht by (rewrite length_take; lia).
  case_decide as Hn; cbn [Nat.eqb orb].
  - rewrite drop_0, take_0, app_nil_r, (drop_ge (window r)) by lia. destruct (filled r).
    + destruct Hf as [Hh Hw]. split; [lia|]. erewrite tail_snoc by (done || lia).
      rewrite drop_app_le by (rewrite length_drop; lia).
      by rewrite drop_drop, drop_ge by lia.
    + destruct Hf as [-> Hw]. split; [lia|]. rewrite Hw. unfold tail_of.
      by replace (length (h ++ [c]) - n)%nat with 0%nat by (rewrite length_app; cbn [length]; lia).
  - rewrite (cons_middle c), app_assoc.
    rewrite !drop_app_ge, !take_app_le by (rewrite length_app, Ht; cbn [length]; lia).
    rewrite (take_ge (take p (window r) ++ [c])) by (rewrite length_app, Ht; cbn [length]; lia).
    rewrite length_app, Ht. cbn [length].
    replace (S p - (p + 1))%nat with 0%nat by lia. rewrite drop_0.
    destruct (filled r).
    + destruct Hf as [Hh Hw]. split; [lia|]. erewrite tail_snoc by (done || lia).
      rewrite drop_app_le, drop_drop, <- app_assoc by (rewrite length_drop; lia).
      by rewrite Nat.add_1_r.
    + destruct Hf as [-> Hw]. rewrite Hw. split_and!; lia || done.
Qed.

Lemma Push_rolling r h c :
  inv r h ->
  fst (Push c r) = Ok (Checksum (Some (rtab r)) (tail_of (Z.to_nat (size r)) (h ++ [c]))) /\
  inv (snd (Push c r)) (h ++ [c]) /\
  size (snd (Push c r)) = size r /\ rtab (snd (Push c r)) = rtab r.
Proof.
  intros Hinv. pose proof (window_after r h c Hinv) as Hw. cbv zeta in Hw.
  destruct Hinv as (n & p & Hs & Hp & Hl & Hlt & _). unfold Push, set_index.
  rewrite decide_True by lia. cbv zeta. rewrite Hs, Hp, next_pos, !Nat2Z.id in * by done.
  set (w := <[p:=c]> (window r)) in *.
  assert (length w = n) as Hlw by (unfold w; by rewrite length_insert).
  set (q := if decide (S p = n) then 0%nat else S p) in *.
  assert (q < n)%nat as Hq by (unfold q; case_decide; lia).
  replace (Z.of_nat q =? 0) with (q =? 0)%nat by (destruct q; done).
  replace (if (q =? 0)%nat then true else filled r) with ((q =? 0)%nat || filled r)
    by (by destruct (q =? 0)%nat).
  destruct ((q =? 0)%nat || filled r); cbn [negb fst snd rtab size].
  - replace (Z.to_nat (Z.of_nat n - Z.of_nat q)) with (length w - q)%nat by lia.
    destruct Hw as [Hh Hw]. rewrite Nat2Z.id, <- Hw. split_and!; try done.
    { do 2 f_equal. rewrite <- Hlw at 1. apply ordered_rotation. lia. }
    exists n, q. cbn. by split_and!.
  - destruct Hw as (E & Hw & _). rewrite Hw. unfold tail_of. rewrite <- E.
    replace (q - n)%nat with 0%nat by lia. split_and!; try done.
    exists n, q. cbn. by split_and!.
Qed.
End RollingFacts.

(** * Properties *)

(** C32: a checksum does not depend on how the data is cut: chaining Update,
    writing to a Digest piece by piece, MultiPartChecksum and FrameChecksum all
    give the checksum of the concatenation, which is a 32-bit value. *)
Theorem checksum_chunking t parts typ payload :
  Digest.Sum32 (fold_left Digest.write parts (Digest.New t)) =
    Checksum (Some (default IEEETable t)) (concat parts) /\
  MultiPartChecksum parts = ChecksumCastagnoli (concat parts) /\
  FrameChecksum typ payload = ChecksumCastagnoli (typ :: payload) /\
  0 <= FrameChecksum typ payload < 2 ^ 32.
Proof.
  assert (forall tb c, fold_left (fun c p => Update (Some tb) c p) parts c
    = Update (Some tb) c (concat parts)) as Hc.
  { intros tb. induction parts as [|p parts IH]; intros c; cbn [fold_left concat].
    - unfold Update. by rewrite Update_nil.
    - rewrite IH. unfold Update. apply Update_chain. }
  split_and!; [| |apply FrameChecksum_alt|apply FrameChecksum_range..].
  - unfold Digest.New. rewrite writes_concat. cbn. rewrite Hc. by destruct t.
  - unfold MultiPartChecksum, Digest.NewCastagnoli, Digest.New. rewrite writes_concat. apply Hc.
Qed.

(** C29: a buffer ending in its checksum is accepted, and no corruption confined
    to four consecutive bytes, wherever they are, the checksum included, goes
    unnoticed. *)
Theorem CheckTrailingLE_bursts data pre b1 b2 post
    (Hf : AppendChecksumLE data data = pre ++ b1 ++ post)
    (Hl : length b1 = length b2) (H4 : len b1 <= 4) (Hne : b1 <> b2) :
  CheckTrailingLE (pre ++ b1 ++ post) = true /\ CheckTrailingLE (pre ++ b2 ++ post) = false.
Proof.
  unfold AppendChecksumLE in Hf. split.
  - apply CheckTrailingLE_iff. by exists data.
  - apply not_true_iff_false. intros [d2 E2]%CheckTrailingLE_iff.
    pose proof (codewords_burst data d2 pre b1 b2 post Hf (eq_sym E2) Hl H4) as <-.
    rewrite Hf in E2. apply Hne. by simplify_list_eq.
Qed.

Lemma CheckTrailingLE_bursts_witness :
  let data := [x01; x02; x03; x04; x05; x06] in
  CheckTrailingLE (data ++ le_bytes 4 (ChecksumCastagnoli data)) = true /\
  CheckTrailingLE ([x01] ++ [x42; x43; x44; x05] ++ [x06] ++ le_bytes 4 (ChecksumCastagnoli data))
    = false.
Proof.
  apply (CheckTrailingLE_bursts [x01; x02; x03; x04; x05; x06] [x01] [x02; x03; x04; x05]);
    [reflexivity|reflexivity|cbn; lia|discriminate].
Defined.

(** Mask and Unmask are inverse permutations of the 32-bit checksums. *)
Theorem Mask_Unmask c (Hc : 0 <= c < 2 ^ 32) :
  0 <= Mask c < 2 ^ 32 /\ Unmask (Mask c) = c /\ 0 <= Unmask c < 2 ^ 32 /\ Mask (Unmask c) = c.
Proof.
  assert (forall z s, 0 <= z < 2 ^ 32 -> 0 < s < 32 ->
    Z.lor (Z.shiftr z s) (u32 (Z.shiftl z (32 - s))) = z / 2 ^ s + (z mod 2 ^ s) * 2 ^ (32 - s)) as Hrot.
  { intros z s Hz Hs. unfold u32. rewrite Z.shiftl_mul_pow2, Z.shiftr_div_pow2 by lia.
    replace (2 ^ 32) with (2 ^ s * 2 ^ (32 - s)) by (rewrite <- Z.pow_add_r by lia; f_equal; lia).
    rewrite Z.mul_mod_distr_r, <- Z.shiftl_mul_pow2 by lia.
    rewrite lor_low_high; [by rewrite Z.shiftl_mul_pow2 by lia|lia|].
    assert (2 ^ 32 = 2 ^ s * 2 ^ (32 - s)) by (rewrite <- Z.pow_add_r by lia; f_equal; lia).
    split; [apply Z.div_pos; lia|]. apply Z.div_lt_upper_bound; lia. }
  unfold Mask, Unmask. pose proof (Hrot c 15 Hc ltac:(lia)) as E15. change (32 - 15) with 17 in E15.
  rewrite E15. set (r := c / 2 ^ 15 + _). assert (0 <= r < 2 ^ 32) as Hr by (unfold r; divlia).
  assert (u32 (u32 (r + 2726488792) - 2726488792) = r) as ->.
  { unfold u32. rewrite Zminus_mod_idemp_l, Z.add_simpl_r. by apply Z.mod_small. }
  pose proof (Hrot r 17 Hr ltac:(lia)) as E17. change (32 - 17) with 15 in E17. rewrite E17.
  set (q := u32 (c - 2726488792)). assert (0 <= q < 2 ^ 32) as Hq by apply u32_range.
  pose proof (Hrot q 17 Hq ltac:(lia)) as F17. change (32 - 17) with 15 in F17. rewrite F17.
  set (z := q / 2 ^ 17 + _). assert (0 <= z < 2 ^ 32) as Hz by (unfold z; divlia).
  pose proof (Hrot z 15 Hz ltac:(lia)) as F15. change (32 - 15) with 17 in F15. rewrite F15.
  split_and!; try apply u32_range; try lia; [unfold r; divlia|].
  assert (z / 2 ^ 15 + z mod 2 ^ 15 * 2 ^ 17 = q) as -> by (unfold z; divlia).
  unfold q, u32. rewrite Zplus_mod_idemp_l, Z.sub_add. by apply Z.mod_small.
Qed.

Lemma Mask_Unmask_witness : Unmask (Mask 0xdeadbeef) = 0xdeadbeef.
Proof. apply (Mask_Unmask 0xdeadbeef). lia. Defined.

(** a Rolling of size n, after any sequence of pushes, returns for the next
    byte the checksum of the last n bytes pushed (of all of them while there are
    fewer), and never indexes outside its window. *)
Theorem Rolling_window n t h c :
  let '(_, r) := mapM Rolling.Push h (Rolling.NewRolling n t) in
  fst (Rolling.Push c r) =
    Ok (Checksum (Some (default CastagnoliTable t))
          (RollingFacts.tail_of (Z.to_nat (Z.max 1 n)) (h ++ [c]))).
Proof.
  set (r0 := Rolling.NewRolling n t).
  assert (forall h0 r, RollingFacts.inv r h0 -> exists vs r', mapM Rolling.Push h r = (Ok vs, r') /\
    RollingFacts.inv r' (h0 ++ h) /\ Rolling.size r' = Rolling.size r /\
    Rolling.rtab r' = Rolling.rtab r) as Hm.
  { induction h as [|d h IH]; intros h0 r Hr.
    - exists [], r. by rewrite app_nil_r.
    - destruct (RollingFacts.Push_rolling r h0 d Hr) as (E & Hi & Es & Et).
      destruct (Rolling.Push d r) as [o r1] eqn:Ep. cbn in *. subst o.
      destruct (IH _ _ Hi) as (vs & r2 & Em & Hi2 & Es2 & Et2).
      eexists (_ :: vs), r2. erewrite M_bind_Ok, M_bind_Ok by eassumption.
      split_and!; [done| |congruence..]. by rewrite <- app_assoc in Hi2. }
  destruct (Hm [] r0 (RollingFacts.New_inv n t)) as (vs & r & -> & Hi & Es & Et).
  destruct (RollingFacts.Push_rolling r h c Hi) as (-> & _). rewrite Es, Et. do 3 f_equal.
  unfold r0, Rolling.NewRolling. cbn. destruct (Z.leb_spec n 0); f_equal; lia.
Qed.
