(* ===== verification/PrefixScan.v ===== *)
(** * PrefixScan: package internal/prefixscan

    A cursor over a slice of keys, where [Seek] skips the keys that compare less
    than or equal to its argument. *)

From Stdlib Require Import ZArith Lia Strings.Byte.
From stdpp Require Import base decidable list strings numbers.
From S2P Require Import Prelude.
#[local] Open Scope Z_scope.

(** Go strings are byte strings, ordered as bytes. *)
Record Iter := mkIter { keys : list (list byte); i : nat }.

Definition New (keys : list (list byte)) : Iter := mkIter keys 0.

(** [for it.i < len(it.keys) && it.keys[it.i] <= prefix { it.i++ }] *)
Fixpoint seek_loop (fuel : nat) (prefix : list byte) (it : Iter) : Iter :=
  match fuel with
  | O => it
  | S fuel =>
      match keys it !! i it with
      | Some k => if decide (ble k prefix) then seek_loop fuel prefix (mkIter (keys it) (S (i it))) else it
      | None => it
      end
  end.

Definition Seek (prefix : list byte) (it : Iter) : Iter :=
  seek_loop (length (keys it)) prefix (mkIter (keys it) 0).

Definition Key (it : Iter) : list byte :=
  match keys it !! i it with Some k => k | None => [] end.

(** * Lemmas *)

Lemma seek_loop_spec fuel prefix it :
  (length (keys it) <= i it + fuel)%nat -> (i it <= length (keys it))%nat ->
  Forall (fun k => ble k prefix) (take (i it) (keys it)) ->
  let r := seek_loop fuel prefix it in
  keys r = keys it /\ (i r <= length (keys it))%nat /\
  Forall (fun k => ble k prefix) (take (i r) (keys it)) /\
  (forall k, keys it !! i r = Some k -> blt prefix k).
Proof.
  revert it. induction fuel as [|fuel IH]; intros [ks j]; cbn [keys i]; intros Hf Hj Hb;
    cbn [seek_loop]; cbv zeta; cbn [keys i].
  - split_and!; try done. intros k Hk. apply lookup_lt_Some in Hk. lia.
  - destruct (ks !! j) as [k|] eqn:Ek; cbn [keys i].
    + case_decide as Hd.
      * apply (IH (mkIter ks (S j))); cbn [keys i]; [lia| |].
        -- apply lookup_lt_Some in Ek. lia.
        -- erewrite take_S_r by done. apply Forall_app. auto.
      * split_and!; try done. intros k' [= <-]%(eq_trans (eq_sym Ek)). by apply not_ble.
    + split_and!; try done. intros k Hk. congruence.
Qed.

(** * Properties *)

(** on sorted keys, Seek stops at the first key strictly greater than its
    argument (the end if there is none), and in particular steps over a key
    equal to it: the loop terminates, everything before the cursor is at most
    the prefix and everything from it on is greater. *)
Theorem Seek_strict ks prefix (Hs : Sorted.StronglySorted ble ks) it :
  keys it = ks ->
  let r := Seek prefix it in
  keys r = ks /\ Forall (fun k => ble k prefix) (take (i r) ks) /\
  Forall (fun k => blt prefix k) (drop (i r) ks).
Proof.
  intros <-. cbv zeta. unfold Seek.
  destruct (seek_loop_spec (length (keys it)) prefix (mkIter (keys it) 0)) as (Hk & Hi & Hb & Hn);
    cbn [keys i] in *; [lia..|constructor|].
  split_and!; [done..|]. set (j := i _) in *. clearbody j.
  destruct (keys it !! j) as [k|] eqn:Ek.
  - specialize (Hn k eq_refl). erewrite drop_S by done. constructor; [done|].
    assert (keys it = take j (keys it) ++ k :: drop (S j) (keys it)) as E
      by (symmetry; by apply take_drop_middle).
    rewrite E in Hs. clear -Hs Hn. induction (take j (keys it)) as [|x l IH]; cbn in Hs.
    + apply Sorted.StronglySorted_inv in Hs as [_ Hf]. eapply List.Forall_impl; [|exact Hf].
      intros. by eapply blt_ble_trans.
    + apply Sorted.StronglySorted_inv in Hs as [Hs _]. auto.
  - rewrite drop_ge; [constructor|]. by apply lookup_ge_None.
Qed.

(** The keys of the package's own test: seeking the key "ab" that is there lands
    on the key after it. *)
Lemma Seek_strict_witness :
  let ks := [[x61; x62]; [x61; x62; x63]; [x62]] in
  Forall (fun k => blt [x61; x62] k) (drop (i (Seek [x61; x62] (New ks))) ks) /\
  Key (Seek [x61; x62] (New ks)) = [x61; x62; x63].
Proof.
  cbv zeta. split; [|reflexivity].
  apply (Seek_strict [[x61; x62]; [x61; x62; x63]; [x62]] [x61; x62]); [|reflexivity].
  repeat constructor; discriminate.
Defined.
