(* ===== verification/Bloom.v ===== *)
(** * Bloom: package internal/bloomx

    The Bloom filter of the tables.  The sizing formulas use floating-point
    logarithms; [Float64] is the part of Go's float64 and package math they
    need, a parameter of this file.  No theorem depends on the sizes they
    produce beyond what it says. *)

From Stdlib Require Import ZArith Lia Strings.Byte QArith Qround.
From stdpp Require Import base decidable list strings numbers relations.
From S2P Require Import Prelude ByteUtil Crc32x.
#[local] Open Scope Z_scope.

Definition ErrCorrupt : error := errors_New "bloomx: corrupt filter".
Definition ErrInvalid : error := errors_New "bloomx: invalid argument".

Definition magic : Z := 0xB100F11E.
Definition version : Z := 1.

(** float64 and package math. *)
Class Float64 (F : Type) := {
  of_int : Z -> F;              (* float64(n), and literals without a fraction *)
  fopp : F -> F;
  fsub : F -> F -> F;
  fmul : F -> F -> F;
  fdiv : F -> F -> F;
  fltb : F -> F -> bool;
  fleb : F -> F -> bool;
  to_uint : F -> Z;             (* uint64(x); the result is a uint64 *)
  math_Log : F -> F;
  math_Exp : F -> F;
  math_Pow : F -> F -> F;
  math_Ceil : F -> F;
  math_Round : F -> F;
  math_Ln2 : F
}.

Record Filter := mkFilter { bits : list byte; m : Z; k : Z; nAdded : Z }.

(** ** Construction *)

Section sizing.
Context {F : Type} `{Float64 F}.

Definition OptimalBits (n : Z) (fp : F) : Z :=
  let m := fdiv (fmul (fopp (of_int n)) (math_Log fp)) (fmul math_Ln2 math_Ln2) in
  let m := if fltb m (of_int 64) then of_int 64 else m in
  u64 (to_uint (math_Ceil m)).

Definition OptimalHashFuncs (m n : Z) : Z :=
  if n <=? 0 then 1
  else
    let k := fmul (fdiv (of_int m) (of_int n)) math_Ln2 in
    let k := if fltb k (of_int 1) then of_int 1 else k in
    let k := if fltb (of_int 30) k then of_int 30 else k in
    u32 (to_uint (math_Round k)).

(** The literal 0.01. *)
Definition default_fp : F := fdiv (of_int 1) (of_int 100).

Definition New (n : Z) (fp : F) : outcome Filter :=
  let n := if n <=? 0 then 1 else n in
  let fp := if fleb fp (of_int 0) || fleb (of_int 1) fp then default_fp else fp in
  let m := OptimalBits n fp in
  let k := OptimalHashFuncs m n in
  let nbytes := u64 (m + 7) / 8 in
  make_check 1 nbytes;;
  Ok (mkFilter (replicate (Z.to_nat nbytes) x00) m k 0).
End sizing.

Definition NewWithParams (mBits k : Z) : outcome Filter :=
  let mBits := if mBits =? 0 then 64 else mBits in
  let k := if k =? 0 then 4 else k in
  let nbytes := u64 (mBits + 7) / 8 in
  make_check 1 nbytes;;
  Ok (mkFilter (replicate (Z.to_nat nbytes) x00) mBits k 0).

(** ** Hashing *)

Definition mix64 (z : Z) : Z :=
  let z := u64 (Z.lxor z (Z.shiftr z 30) * 0xbf58476d1ce4e5b9) in
  let z := u64 (Z.lxor z (Z.shiftr z 27) * 0x94d049bb133111eb) in
  Z.lxor z (Z.shiftr z 31).

Definition hashPair (key : list byte) : Z * Z :=
  let h1 := ChecksumCastagnoli key in
  let h2 := ChecksumIEEE key in
  let h2 := if h2 =? 0 then 0x9e3779b97f4a7c15 else h2 in
  let h1 := mix64 (Z.lxor h1 (u64 (len key * 0x9e3779b97f4a7c15))) in
  let h2 := mix64 (Z.lxor h2 h1) in
  (h1, h2).

(** ** Bits *)

Definition setBit (i : Z) (f : Filter) : outcome Filter :=
  c ← index (bits f) (i / 8);
  bits' ← set_index (bits f) (i / 8) (z2b (Z.lor (b2z c) (u8 (Z.shiftl 1 (i mod 8)))));
  Ok (mkFilter bits' (m f) (k f) (nAdded f)).

Definition getBit (f : Filter) (i : Z) : outcome bool :=
  c ← index (bits f) (i / 8);
  Ok (negb (Z.land (b2z c) (u8 (Z.shiftl 1 (i mod 8))) =? 0)).

(** The bit the [i]-th hash function selects. *)
Definition bit_index (h1 h2 : Z) (f : Filter) (i : Z) : Z := u64 (h1 + u64 (i * h2)) mod m f.

(** [for i := uint32(0); i < f.k; i++], [n] iterations left. *)
Fixpoint add_loop (n : nat) (i h1 h2 : Z) (f : Filter) : outcome Filter :=
  match n with
  | O => Ok f
  | S n => f ← setBit (bit_index h1 h2 f i) f; add_loop n (i + 1) h1 h2 f
  end.

(** A nil filter stays nil. *)
Definition Add (key : list byte) (f : option Filter) : outcome (option Filter) :=
  match f with
  | None => Ok None
  | Some f =>
      if m f =? 0 then Ok (Some f)
      else
        let (h1, h2) := hashPair key in
        f ← add_loop (Z.to_nat (k f)) 0 h1 h2 f;
        Ok (Some (mkFilter (bits f) (m f) (k f) (u64 (nAdded f + 1))))
  end.

Fixpoint contains_loop (n : nat) (i h1 h2 : Z) (f : Filter) : outcome bool :=
  match n with
  | O => Ok true
  | S n =>
      b ← getBit f (bit_index h1 h2 f i);
      if negb b then Ok false else contains_loop n (i + 1) h1 h2 f
  end.

Definition MayContain (f : option Filter) (key : list byte) : outcome bool :=
  match f with
  | None => Ok true
  | Some f =>
      if m f =? 0 then Ok true
      else
        let (h1, h2) := hashPair key in
        contains_loop (Z.to_nat (k f)) 0 h1 h2 f
  end.

Definition Reset (f : Filter) : Filter :=
  mkFilter (replicate (length (bits f)) x00) (m f) (k f) 0.

Definition NumBits (f : Filter) : Z := m f.
Definition NumHashes (f : Filter) : Z := k f.
Definition NumAdded (f : Filter) : Z := nAdded f.
Definition BitBytes (f : Filter) : Z := len (bits f).

(** [for x != 0 { n += int(x & 1); x >>= 1 }] on a byte: eight iterations. *)
Fixpoint popcount_loop (fuel : nat) (n x : Z) : Z :=
  if x =? 0 then n
  else match fuel with O => n | S fuel => popcount_loop fuel (n + Z.land x 1) (Z.shiftr x 1) end.
Definition popcount (x : byte) : Z := popcount_loop 8 0 (b2z x).

Section estimates.
Context {F : Type} `{Float64 F}.

Definition FillRatio (f : Filter) : F :=
  if len (bits f) =? 0 then of_int 0
  else
    let set := fold_left (fun set b => set + popcount b) (bits f) 0 in
    fdiv (of_int set) (of_int (m f)).

Definition EstimateFP (f : Filter) : F :=
  if (m f =? 0) || (k f =? 0) then of_int 1
  else
    let exp := fdiv (fmul (fopp (of_int (k f))) (of_int (nAdded f))) (of_int (m f)) in
    let base := fsub (of_int 1) (math_Exp exp) in
    math_Pow base (of_int (k f)).
End estimates.

(** ** Serialization *)

Definition MarshalBinary (f : option Filter) : outcome (list byte) :=
  match f with
  | None => Err ErrInvalid
  | Some f =>
      Ok (le_bytes 4 magic ++ [z2b version] ++ le_bytes 8 (m f) ++ le_bytes 4 (k f) ++
          le_bytes 8 (nAdded f) ++ bits f)
  end.

(** [binary.LittleEndian.UintN(data[i:j])] *)
Definition le_at (data : list byte) (i j : Z) : outcome Z :=
  s ← subslice data i j; Ok (le_val s).

Definition UnmarshalBinary (data : list byte) : outcome Filter :=
  if len data <? 25 then Err ErrCorrupt
  else
    mg ← le_at data 0 4;
    if negb (mg =? magic) then Err ErrCorrupt
    else
      v ← index data 4;
      if negb (b2z v =? version) then Err ErrCorrupt
      else
        m ← le_at data 5 13;
        k ← le_at data 13 17;
        nAdded ← le_at data 17 25;
        let need := i64 (u64 (m + 7) / 8) in
        if len data <? i64 (25 + need) then Err ErrCorrupt
        else
          make_check 1 need;;
          src ← subslice data 25 (i64 (25 + need));
          Ok (mkFilter (copy_at (replicate (Z.to_nat need) x00) 0 src) m k nAdded).

Definition Clone (f : option Filter) : option Filter :=
  match f with
  | None => None
  | Some f =>
      Some (mkFilter (copy_at (replicate (length (bits f)) x00) 0 (bits f)) (m f) (k f) (nAdded f))
  end.

(** [for i := range f.bits { f.bits[i] |= other.bits[i] }] *)
Definition or_bytes (a b : list byte) : list byte :=
  zip_with (fun x y => z2b (Z.lor (b2z x) (b2z y))) a b.

Definition Merge (other : option Filter) (f : Filter) : outcome Filter :=
  match other with
  | None => Ok f
  | Some o =>
      if negb (m f =? m o) || negb (k f =? k o) || negb (len (bits f) =? len (bits o))
      then Err ErrInvalid
      else Ok (mkFilter (or_bytes (bits f) (bits o)) (m f) (k f) (u64 (nAdded f + nAdded o)))
  end.

(** ** Builder *)

Module Builder.

Record Builder {F : Type} := mkBuilder { keys : list (list byte); fp : F }.
Arguments Builder : clear implicits.

Definition NewBuilder {F} `{Float64 F} (fp : F) : Builder F :=
  let fp := if fleb fp (of_int 0) || fleb (of_int 1) fp then default_fp else fp in
  mkBuilder F [] fp.

Definition Add {F} (key : list byte) (b : Builder F) : Builder F :=
  mkBuilder F (keys b ++ [copy_at (replicate (length key) x00) 0 key]) (fp b).

Definition Len {F} (b : Builder F) : Z := len (keys b).

Fixpoint add_all (ks : list (list byte)) (f : option Filter) : outcome (option Filter) :=
  match ks with
  | [] => Ok f
  | k :: ks => f ← Bloom.Add k f; add_all ks f
  end.

Definition Build {F} `{Float64 F} (b : Builder F) : outcome (option Filter) :=
  f ← New (len (keys b)) (fp b);
  add_all (keys b) (Some f).

Definition Reset {F} (b : Builder F) : Builder F := mkBuilder F [] (fp b).

End Builder.

(** * Lemmas *)

(** ** Single bits *)

Lemma mask_bit j : 0 <= j < 8 -> u8 (Z.shiftl 1 j) = 2 ^ j.
Proof.
  intros Hj. rewrite Z.shiftl_1_l. apply u8_small. split; [lia|]. apply Z.pow_lt_mono_r; lia.
Qed.

Lemma land_pow2 z j : 0 <= j -> (Z.land z (2 ^ j) =? 0) = negb (Z.testbit z j).
Proof.
  intros Hj. destruct (Z.testbit z j) eqn:E; cbn [negb].
  - apply Z.eqb_neq. intros H0. apply (f_equal (fun z => Z.testbit z j)) in H0.
    rewrite Z.land_spec, E, Z.pow2_bits_true, Z.bits_0 in H0 by done. done.
  - apply Z.eqb_eq, Z.bits_inj'. intros i Hi. rewrite Z.land_spec, Z.bits_0.
    destruct (Z.eq_dec i j) as [->|]; [by rewrite E|].
    rewrite Z.pow2_bits_false by lia. apply andb_false_r.
Qed.

(** The value of bit [i] of a bit array. *)
Definition bit_at (l : list byte) (i : Z) : option bool :=
  if decide (0 <= i) then
    (fun c => Z.testbit (b2z c) (i mod 8)) <$> l !! Z.to_nat (i / 8)
  else None.

Lemma div8_nonneg i : 0 <= i / 8 <-> 0 <= i.
Proof. divlia. Qed.

Lemma getBit_bit_at f i :
  getBit f i = match bit_at (bits f) i with Some b => Ok b | None => Panic IndexOutOfRange end.
Proof.
  unfold getBit, bit_at, index. pose proof (div8_nonneg i).
  case_decide; case_decide; try (done || tauto).
  destruct (bits f !! Z.to_nat (i / 8)) as [c|]; [|done]. cbn.
  by rewrite mask_bit, land_pow2, negb_involutive by (apply Z.mod_pos_bound; lia).
Qed.

Lemma set_byte_testbit c j1 j2 :
  0 <= j1 < 8 -> 0 <= j2 < 8 ->
  Z.testbit (b2z (z2b (Z.lor (b2z c) (2 ^ j1)))) j2 = Z.testbit (b2z c) j2 || (j1 =? j2).
Proof.
  intros H1 H2. rewrite b2z_z2b. unfold u8. rewrite Z.mod_pow2_bits_low by lia.
  rewrite Z.lor_spec, Z.pow2_bits_eqb by lia. done.
Qed.

(** Bits only go from clear to set. *)
Definition bits_le (l1 l2 : list byte) : Prop :=
  forall i, bit_at l1 i = Some true -> bit_at l2 i = Some true.

#[export] Instance bits_le_preorder : PreOrder bits_le.
Proof. split; [by intros l i|]. intros l1 l2 l3 H1 H2 i Hi. auto. Qed.

Lemma setBit_spec i f f' :
  setBit i f = Ok f' ->
  m f' = m f /\ k f' = k f /\ nAdded f' = nAdded f /\ length (bits f') = length (bits f) /\
  bits_le (bits f) (bits f') /\ bit_at (bits f') i = Some true.
Proof.
  unfold setBit. intros (c & Hc & H)%bind_Ok_inv. apply bind_Ok_inv in H as (l & Hl & [= <-]).
  apply index_lookup in Hc as [Hi Hc]. unfold set_index in Hl. case_decide; [|done].
  injection Hl as <-. cbn. rewrite length_insert. pose proof (proj1 (div8_nonneg i) Hi).
  rewrite mask_bit by (apply Z.mod_pos_bound; lia).
  split_and!; try done.
  - intros j. unfold bit_at. case_decide as Hj; [|done].
    destruct (decide (Z.to_nat (i / 8) = Z.to_nat (j / 8))) as [E|E].
    + rewrite <- E, Hc, list_lookup_insert_eq by (by eapply lookup_lt_Some).
      cbn. intros [= Hb]. rewrite set_byte_testbit, Hb by (apply Z.mod_pos_bound; lia). done.
    + by rewrite list_lookup_insert_ne.
  - unfold bit_at. rewrite decide_True by done. rewrite list_lookup_insert_eq by (by eapply lookup_lt_Some).
    cbn. by rewrite set_byte_testbit, Z.eqb_refl, orb_true_r by (apply Z.mod_pos_bound; lia).
Qed.

Lemma setBit_total i f :
  0 <= i -> i / 8 < len (bits f) -> exists f', setBit i f = Ok f'.
Proof.
  intros Hi Hl. pose proof (proj2 (div8_nonneg i) Hi). unfold setBit.
  destruct (lookup_lt_is_Some_2 (bits f) (Z.to_nat (i / 8))) as [c Hc]; [lia|].
  rewrite (proj2 (index_lookup _ _ c)) by done. rewrite outcome_bind_Ok. unfold set_index.
  rewrite decide_True by lia. eauto.
Qed.

(** ** Filters *)

(** A filter whose bit array covers its [m] bits. *)
Definition wf (f : Filter) : Prop :=
  0 <= m f < 2 ^ 64 /\ 0 <= k f < 2 ^ 32 /\ m f <= 8 * len (bits f).

(** [f2] has the shape of [f1] and at least its bits. *)
Definition grown (f1 f2 : Filter) : Prop :=
  m f2 = m f1 /\ k f2 = k f1 /\ length (bits f2) = length (bits f1) /\ bits_le (bits f1) (bits f2).

#[export] Instance grown_preorder : PreOrder grown.
Proof.
  split; [intros f; by split_and!|]. intros f g h (?&?&?&?) (?&?&?&?).
  split_and!; try congruence. by etrans.
Qed.

Lemma grown_wf f g : grown f g -> wf f -> wf g.
Proof. unfold wf. intros (->&->&->&_) ?. lia. Qed.

(** All the bits of a key are set. *)
Definition has_bits (n : nat) (i h1 h2 : Z) (f : Filter) : Prop :=
  forall j, i <= j < i + Z.of_nat n -> bit_at (bits f) (bit_index h1 h2 f j) = Some true.

Lemma has_bits_grown n i h1 h2 f g : grown f g -> has_bits n i h1 h2 f -> has_bits n i h1 h2 g.
Proof.
  intros (Hm&_&_&Hb) H j Hj. unfold bit_index. rewrite Hm. apply Hb, H, Hj.
Qed.

Lemma contains_loop_true n i h1 h2 f :
  contains_loop n i h1 h2 f = Ok true <-> has_bits n i h1 h2 f.
Proof.
  revert i. induction n as [|n IH]; intros i; cbn [contains_loop].
  - split; [|done]. intros _ j Hj. lia.
  - rewrite getBit_bit_at. split.
    + intros H j Hj. destruct (bit_at (bits f) (bit_index h1 h2 f i)) as [[]|] eqn:E; try done.
      destruct (Z.eq_dec j i) as [->|]; [done|]. apply (IH (i + 1)) in H. apply H. lia.
    + intros H. rewrite H by lia. cbn. apply IH. intros j Hj. apply H. lia.
Qed.

Lemma contains_loop_no_bits n i h1 h2 f :
  bits f = [] -> contains_loop (S n) i h1 h2 f = Panic IndexOutOfRange.
Proof.
  intros Hb. cbn [contains_loop]. rewrite getBit_bit_at. unfold bit_at. rewrite Hb.
  by case_decide.
Qed.

Lemma add_loop_spec n i h1 h2 f f' :
  add_loop n i h1 h2 f = Ok f' ->
  grown f f' /\ nAdded f' = nAdded f /\ has_bits n i h1 h2 f'.
Proof.
  revert i f. induction n as [|n IH]; intros i f; cbn [add_loop].
  - intros [= <-]. split_and!; try done. intros j Hj. lia.
  - intros (f1 & H1 & H2)%bind_Ok_inv. apply setBit_spec in H1 as (Hm&Hk&Hn&Hl&Hb&Hi).
    apply IH in H2 as (Hg & Hn' & Hh). split_and!; [|congruence|].
    + etrans; [|exact Hg]. by split_and!.
    + intros j Hj. destruct (Z.eq_dec j i) as [->|]; [|apply Hh; lia].
      destruct Hg as (Hgm&_&_&Hgb). unfold bit_index in *. rewrite Hgm, Hm. by apply Hgb.
Qed.

Lemma bit_index_range h1 h2 f i : 0 < m f -> 0 <= bit_index h1 h2 f i < m f.
Proof. intros. by apply Z.mod_pos_bound. Qed.

Lemma add_loop_total n i h1 h2 f :
  wf f -> 0 < m f -> exists f', add_loop n i h1 h2 f = Ok f'.
Proof.
  revert i f. induction n as [|n IH]; intros i f Hw Hm; cbn [add_loop]; [eauto|].
  pose proof (bit_index_range h1 h2 f i Hm). pose proof Hw as (_&_&?).
  destruct (setBit_total (bit_index h1 h2 f i) f) as [f1 E1]; [lia|divlia|].
  rewrite E1, outcome_bind_Ok. apply setBit_spec in E1 as (Hm1&Hk1&Hn1&Hl1&Hb1&Hi1).
  apply IH; [|lia]. eapply grown_wf; [|done]. by split_and!.
Qed.

(** What adding a key does, as seen by the later operations. *)
Definition has_key (key : list byte) (f : Filter) : Prop :=
  m f = 0 \/ has_bits (Z.to_nat (k f)) 0 (fst (hashPair key)) (snd (hashPair key)) f.

Lemma MayContain_has_key key f : MayContain (Some f) key = Ok true <-> has_key key f.
Proof.
  unfold MayContain, has_key. destruct (Z.eqb_spec (m f) 0); [naive_solver|].
  destruct (hashPair key) as [h1 h2]. rewrite contains_loop_true. cbn. naive_solver.
Qed.

Lemma has_key_grown key f g : grown f g -> has_key key f -> has_key key g.
Proof.
  intros Hg [H0|Hb]; [left; destruct Hg; congruence|right].
  assert (k g = k f) as -> by apply Hg. by eapply has_bits_grown.
Qed.

Lemma Add_spec key f f' :
  Add key (Some f) = Ok f' ->
  exists g, f' = Some g /\ grown f g /\ has_key key g /\
    nAdded g = if m f =? 0 then nAdded f else u64 (nAdded f + 1).
Proof.
  unfold Add. destruct (Z.eqb_spec (m f) 0) as [E|E].
  - intros [= <-]. exists f. split_and!; try done. by left.
  - destruct (hashPair key) as [h1 h2] eqn:Eh. intros (g & Hg & [= <-])%bind_Ok_inv.
    apply add_loop_spec in Hg as (Hgr & Hn & Hh). eexists; split_and!; [done| | |cbn; by rewrite Hn].
    + destruct Hgr as (?&?&?&?). by split_and!.
    + right. rewrite Eh. cbn [fst snd k]. assert (k g = k f) as -> by apply Hgr. exact Hh.
Qed.

Lemma Add_total key f : wf f -> exists g, Add key (Some f) = Ok (Some g).
Proof.
  intros Hw. unfold Add. destruct (Z.eqb_spec (m f) 0); [eauto|].
  destruct (hashPair key) as [h1 h2]. pose proof Hw as (?&?&?).
  destruct (add_loop_total (Z.to_nat (k f)) 0 h1 h2 f) as [g ->]; [done|lia|]. cbn. eauto.
Qed.

Lemma or_bytes_le a b : length a = length b -> bits_le a (or_bytes a b).
Proof.
  intros Hl i. unfold bit_at, or_bytes. case_decide; [|done]. rewrite lookup_zip_with.
  destruct (a !! Z.to_nat (i / 8)) as [x|] eqn:Ex; [|done].
  destruct (lookup_lt_is_Some_2 b (Z.to_nat (i / 8))) as [y Hy].
  { rewrite <- Hl. by eapply lookup_lt_Some. }
  rewrite Hy. cbn. intros [= Hb]. f_equal. rewrite b2z_z2b. unfold u8.
  assert (0 <= i mod 8 < 8) by (apply Z.mod_pos_bound; lia).
  by rewrite Z.mod_pow2_bits_low, Z.lor_spec, Hb by lia.
Qed.

Lemma or_bytes_comm a b : or_bytes a b = or_bytes b a.
Proof.
  revert b. induction a as [|x a IH]; intros [|y b]; cbn; try done.
  f_equal; [by rewrite Z.lor_comm|apply IH].
Qed.

Lemma Merge_spec o f g :
  Merge o f = Ok g -> grown f g /\ forall o', o = Some o' -> grown o' g.
Proof.
  unfold Merge. destruct o as [o|]; [|intros [= <-]; done].
  destruct (Z.eqb_spec (m f) (m o)), (Z.eqb_spec (k f) (k o)),
    (Z.eqb_spec (len (bits f)) (len (bits o))); cbn; try done.
  intros [= <-].
  assert (length (or_bytes (bits f) (bits o)) = length (bits f)) as Hl
    by (unfold or_bytes; rewrite length_zip_with; lia).
  split; [split_and!; [done..|]|intros o' [= <-]; split_and!; cbn; [done..|lia|]].
  - apply or_bytes_le. lia.
  - assert (or_bytes (bits f) (bits o) = or_bytes (bits o) (bits f)) as ->.
    { apply or_bytes_comm. }
    apply or_bytes_le. lia.
Qed.

(** The filters the package builds and reads back: exactly the bytes the bit
    count asks for. *)
Definition shaped (f : Filter) : Prop :=
  0 <= m f /\ m f + 7 < 2 ^ 64 /\ 0 <= k f < 2 ^ 32 /\ 0 <= nAdded f < 2 ^ 64 /\
  len (bits f) = (m f + 7) / 8 /\ len (bits f) <= 2 ^ 48.

Lemma shaped_wf f : shaped f -> wf f.
Proof. unfold shaped, wf. intros (?&?&?&?&->&?). split_and!; try lia; divlia. Qed.

Lemma shaped_grown f g : shaped f -> grown f g -> 0 <= nAdded g < 2 ^ 64 -> shaped g.
Proof.
  intros (?&?&?&?&?&?) (Em&Ek&El&_) Hn. unfold shaped. rewrite Em, Ek, El. lia.
Qed.

(** ** Serialization *)

Lemma le_at_seg d i j pre seg post :
  d = pre ++ seg ++ post -> i = len pre -> j = len pre + len seg -> le_at d i j = Ok (le_val seg).
Proof. intros -> -> ->. unfold le_at. by rewrite subslice_app. Qed.

(** The fixed part of a serialized filter. *)
Definition header (f : Filter) : list byte :=
  le_bytes 4 magic ++ [z2b version] ++ le_bytes 8 (m f) ++ le_bytes 4 (k f) ++ le_bytes 8 (nAdded f).

Lemma length_header f : length (header f) = 25%nat.
Proof. reflexivity. Qed.

(** Reading a header back. *)
Lemma Unmarshal_header f rest :
  shaped f ->
  UnmarshalBinary (header f ++ rest) =
    if len rest <? len (bits f) then Err ErrCorrupt
    else Ok (mkFilter (take (length (bits f)) rest) (m f) (k f) (nAdded f)).
Proof.
  intros (Hm & Hm7 & Hk & Hn & Hl & H48). unfold UnmarshalBinary.
  set (d := header f ++ rest).
  assert (len d = 25 + len rest) as Hd by (unfold d; rewrite length_app, length_header; lia).
  rewrite (proj2 (Z.ltb_ge _ _)) by lia.
  assert (Hseg: forall pre seg post i j, header f = pre ++ seg ++ post ->
    i = len pre -> j = len pre + len seg -> le_at d i j = Ok (le_val seg)).
  { intros pre seg post i j Hh. apply le_at_seg with (post ++ rest). unfold d.
    by rewrite Hh, <- !app_assoc. }
  rewrite (Hseg [] (le_bytes 4 magic) _ 0 4 eq_refl) by done.
  rewrite outcome_bind_Ok, le_val_bytes4. change (negb (u32 magic =? magic)) with false. cbv iota.
  replace (index d 4) with (Ok (A := byte) (z2b version)) by (symmetry; by apply index_lookup).
  rewrite outcome_bind_Ok. change (negb (b2z (z2b version) =? version)) with false. cbv iota.
  rewrite (Hseg (le_bytes 4 magic ++ [z2b version]) (le_bytes 8 (m f))
    (le_bytes 4 (k f) ++ le_bytes 8 (nAdded f)) 5 13) by done.
  rewrite outcome_bind_Ok, (Hseg (le_bytes 4 magic ++ [z2b version] ++ le_bytes 8 (m f))
    (le_bytes 4 (k f)) (le_bytes 8 (nAdded f)) 13 17) by done.
  rewrite outcome_bind_Ok, (Hseg (le_bytes 4 magic ++ [z2b version] ++ le_bytes 8 (m f)
    ++ le_bytes 4 (k f)) (le_bytes 8 (nAdded f)) [] 17 25) by done.
  rewrite outcome_bind_Ok, le_val_bytes4, !le_val_bytes8, u32_small, (u64_small (m f)),
    (u64_small (nAdded f)), (u64_small (m f + 7)) by lia.
  rewrite <- Hl, (i64_small (len (bits f))), (i64_small (25 + _)), Hd by lia.
  destruct (Z.ltb_spec (len rest) (len (bits f))); zif; try lia; [done|].
  unfold make_check. rewrite decide_True, outcome_bind_Ok by lia.
  set (n := length (bits f)) in *.
  assert (length (take n rest) = n) as Ht by (rewrite length_take; lia).
  replace d with (header f ++ take n rest ++ drop n rest) by (unfold d; by rewrite take_drop).
  rewrite subslice_app, outcome_bind_Ok by (rewrite length_header; lia).
  rewrite Nat2Z.id. f_equal. f_equal. rewrite <- Ht at 1. apply copy_at_self.
Qed.

Lemma MarshalBinary_header f : MarshalBinary (Some f) = Ok (header f ++ bits f).
Proof. unfold MarshalBinary, header. by rewrite <- !app_assoc. Qed.

Lemma Clone_spec f : Clone (Some f) = Some f.
Proof. unfold Clone. rewrite copy_at_self. by destruct f. Qed.

(** The operations a filter goes through once a key is in it. *)
Inductive step (f : Filter) : Filter -> Prop :=
  | step_add key g : Add key (Some f) = Ok (Some g) -> step f g
  | step_merge o g : Merge (Some o) f = Ok g -> step f g
  | step_merged o g : Merge (Some f) o = Ok g -> shaped o -> step f g
  | step_clone g : Clone (Some f) = Some g -> step f g
  | step_reload d g : MarshalBinary (Some f) = Ok d -> UnmarshalBinary d = Ok g -> step f g.

Lemma step_grown f g : shaped f -> step f g -> shaped g /\ grown f g.
Proof.
  intros Hs Hst. destruct Hst as [key g H|o g H|o g H Ho|g H|d g H1 H2].
  - apply Add_spec in H as (g' & [= <-] & Hg & _ & Hn). split; [|done].
    apply (shaped_grown f); [exact Hs|exact Hg|]. rewrite Hn. destruct (m f =? 0); [apply Hs|apply u64_range].
  - pose proof (Merge_spec _ _ _ H) as [Hg _]. split; [|done].
    apply (shaped_grown f); [exact Hs|exact Hg|]. unfold Merge in H. case_match; [done|].
    injection H as <-. apply u64_range.
  - pose proof (Merge_spec _ _ _ H) as [_ Hg]. specialize (Hg f eq_refl). split; [|done].
    apply (shaped_grown f); [exact Hs|exact Hg|]. unfold Merge in H. case_match; [done|].
    injection H as <-. apply u64_range.
  - rewrite Clone_spec in H. injection H as <-. by split.
  - rewrite MarshalBinary_header in H1. assert (d = header f ++ bits f) as -> by congruence.
    rewrite Unmarshal_header, Z.ltb_irrefl, firstn_all in H2 by done. injection H2 as <-. by split; destruct f.
Qed.

(** ** Builder *)

Lemma add_all_spec ks f f' :
  Builder.add_all ks (Some f) = Ok f' ->
  exists g, f' = Some g /\ grown f g /\ forall key, key ∈ ks -> has_key key g.
Proof.
  revert f. induction ks as [|key ks IH]; intros f; cbn [Builder.add_all].
  - intros [= <-]. exists f. split_and!; [done..|]. intros key Hk. by apply not_elem_of_nil in Hk.
  - intros (f1 & H1 & H2)%bind_Ok_inv. apply Add_spec in H1 as (g1 & -> & Hg1 & Hk1 & _).
    apply IH in H2 as (g & -> & Hg & Hks). exists g. split_and!; [done|by etrans|].
    intros key' [->|Hin]%elem_of_cons; [|auto]. by eapply has_key_grown.
Qed.

Lemma add_all_total ks f :
  shaped f -> exists g, Builder.add_all ks (Some f) = Ok (Some g) /\ shaped g.
Proof.
  revert f. induction ks as [|key ks IH]; intros f Hs; cbn [Builder.add_all]; [eauto|].
  destruct (Add_total key f (shaped_wf _ Hs)) as [g Hg]. rewrite Hg, outcome_bind_Ok.
  apply IH. by apply (step_grown f g Hs), step_add with key.
Qed.

Lemma Builder_keys {F} ks (b : Builder.Builder F) :
  fold_left (fun b key => Builder.Add key b) ks b =
    Builder.mkBuilder F (Builder.keys b ++ ks) (Builder.fp b).
Proof.
  revert b. induction ks as [|key ks IH]; intros b; cbn [fold_left].
  - rewrite app_nil_r. by destruct b.
  - rewrite IH. cbn. by rewrite copy_at_self, <- app_assoc.
Qed.

Lemma New_shaped {F} `{Float64 F} n (p : F) B :
  (forall q, q = p \/ q = default_fp -> OptimalBits (Z.max 1 n) q <= B) -> B <= 2 ^ 51 ->
  exists f, New n p = Ok f /\ shaped f /\ m f <= B.
Proof.
  intros Hb HB. unfold New.
  replace (if n <=? 0 then 1 else n) with (Z.max 1 n) by (destruct (Z.leb_spec n 0); lia).
  set (q := if _ || _ then _ else _).
  assert (OptimalBits (Z.max 1 n) q <= B) as Hq by (apply Hb; unfold q; case_match; auto).
  assert (0 <= OptimalBits (Z.max 1 n) q) as Hq0 by apply u64_range.
  assert (0 <= OptimalHashFuncs (OptimalBits (Z.max 1 n) q) (Z.max 1 n) < 2 ^ 32) as Hk.
  { unfold OptimalHashFuncs. case_match; [lia|apply u32_range]. }
  revert Hk. generalize (OptimalHashFuncs (OptimalBits (Z.max 1 n) q) (Z.max 1 n)).
  generalize dependent (OptimalBits (Z.max 1 n) q). intros mb ? ? kb ?.
  rewrite u64_small by lia. unfold make_check. rewrite decide_True by divlia.
  rewrite outcome_bind_Ok. eexists. split; [done|].
  unfold shaped. cbn [m k nAdded bits]. rewrite length_replicate. split_and!; try lia; divlia.
Qed.

(** A built filter knows every key of its builder. *)
Lemma Build_keys {F} `{Float64 F} (b : Builder.Builder F) B :
  (forall q, q = Builder.fp b \/ q = default_fp ->
    OptimalBits (Z.max 1 (len (Builder.keys b))) q <= B) -> B <= 2 ^ 51 ->
  exists f, Builder.Build b = Ok (Some f) /\ shaped f /\ m f <= B /\
    forall key, key ∈ Builder.keys b -> MayContain (Some f) key = Ok true.
Proof.
  intros Hb HB. unfold Builder.Build.
  destruct (New_shaped (len (Builder.keys b)) (Builder.fp b) B Hb HB) as (f & -> & Hs & Hm).
  rewrite outcome_bind_Ok. destruct (add_all_total (Builder.keys b) f Hs) as (g & Hg & Hsg). exists g.
  apply add_all_spec in Hg as Hg'. destruct Hg' as (g' & [= <-] & (Hmg & _) & Hk).
  split_and!; [done..|congruence|].
  intros key Hin. by apply MayContain_has_key, Hk.
Qed.

(** Membership tests of a well-formed filter succeed. *)
Lemma contains_loop_total n i h1 h2 f :
  wf f -> 0 < m f -> exists b, contains_loop n i h1 h2 f = Ok b.
Proof.
  intros Hw Hm. revert i. induction n as [|n IH]; intros i; cbn [contains_loop]; [eauto|].
  pose proof (bit_index_range h1 h2 f i Hm) as Hi. pose proof Hw as (_&_&?).
  rewrite getBit_bit_at. unfold bit_at. rewrite decide_True by lia.
  destruct (lookup_lt_is_Some_2 (bits f) (Z.to_nat (bit_index h1 h2 f i / 8))) as [c Hc]; [divlia|].
  rewrite Hc. cbn [fmap option_fmap option_map]. rewrite outcome_bind_Ok. case_match; eauto.
Qed.

Lemma MayContain_total f key : wf f -> exists b, MayContain (Some f) key = Ok b.
Proof.
  intros Hw. unfold MayContain. destruct (Z.eqb_spec (m f) 0); [eauto|].
  destruct (hashPair key) as [h1 h2]. apply contains_loop_total; [done|]. destruct Hw; lia.
Qed.

(** * The filter's promises *)

(** C18: adding a key to a well-shaped filter succeeds, and the key is reported
    as possibly present from then on, whatever else is added, merged in (or
    the filter merged into another), cloned, or written out and read back. *)
Theorem Add_no_false_negative key f (Hs : shaped f) :
  exists g, Add key (Some f) = Ok (Some g) /\
    forall h, rtc step g h -> MayContain (Some h) key = Ok true /\ shaped h.
Proof.
  destruct (Add_total key f (shaped_wf _ Hs)) as [g Hg]. exists g. split; [done|].
  assert (shaped g) as Hsg by (apply (step_grown f g Hs); by apply step_add with key).
  apply Add_spec in Hg as (g' & [= <-] & _ & Hk & _).
  intros h Hgh. rewrite MayContain_has_key.
  induction Hgh as [g|g g1 h Hst _ IH]; [by split|].
  destruct (step_grown g g1 Hsg Hst) as [Hs1 Hg1]. apply IH; first [exact Hs1 | by eapply has_key_grown].
Qed.

Lemma Add_no_false_negative_witness :
  let f := mkFilter (replicate 8 x00) 64 4 0 in
  shaped f /\
  exists g, Add [x61; x62] (Some f) = Ok (Some g) /\
    forall h, rtc step g h -> MayContain (Some h) [x61; x62] = Ok true /\ shaped h.
Proof.
  assert (shaped (mkFilter (replicate 8 x00) 64 4 0)) as Hs by (unfold shaped; cbn; divlia).
  split; [exact Hs|]. apply Add_no_false_negative. exact Hs.
Defined.

(** C39: a filter is read back from its serialized form (whatever follows it in
    the buffer), and every strict prefix of that form is rejected as corrupt. *)
Theorem MarshalBinary_UnmarshalBinary f (Hs : shaped f) :
  exists d, MarshalBinary (Some f) = Ok d /\
    (forall junk, UnmarshalBinary (d ++ junk) = Ok f) /\
    forall n, (n < length d)%nat -> UnmarshalBinary (take n d) = Err ErrCorrupt.
Proof.
  exists (header f ++ bits f). rewrite MarshalBinary_header. split; [done|]. split.
  - intros junk. rewrite <- app_assoc, Unmarshal_header by done. zif.
    rewrite take_app_length. by destruct f.
  - intros n Hn. rewrite length_app, length_header in Hn.
    destruct (Nat.lt_ge_cases n 25) as [H25|H25].
    + unfold UnmarshalBinary. rewrite (proj2 (Z.ltb_lt _ _)); [done|].
      rewrite length_take. lia.
    + rewrite take_app_ge by done. rewrite Unmarshal_header by done.
      rewrite (proj2 (Z.ltb_lt _ _)); [done|]. rewrite length_take, length_header. lia.
Qed.

Lemma MarshalBinary_UnmarshalBinary_witness :
  let f := mkFilter [x81; x42] 16 3 2 in
  shaped f /\
  exists d, MarshalBinary (Some f) = Ok d /\
    (forall junk, UnmarshalBinary (d ++ junk) = Ok f) /\
    forall n, (n < length d)%nat -> UnmarshalBinary (take n d) = Err ErrCorrupt.
Proof.
  assert (shaped (mkFilter [x81; x42] 16 3 2)) as Hs by (unfold shaped; cbn; divlia).
  split; [exact Hs|]. apply MarshalBinary_UnmarshalBinary. exact Hs.
Defined.

(** the size computation of [UnmarshalBinary] wraps around: a header that
    announces 2^64 - 1 bits and carries none is accepted, and every membership
    test of the resulting filter panics. *)
Theorem UnmarshalBinary_wraps :
  let f := mkFilter [] (2 ^ 64 - 1) 4 0 in
  UnmarshalBinary (header f) = Ok f /\
  forall key, MayContain (Some f) key = Panic IndexOutOfRange.
Proof.
  cbv zeta. split; [by vm_compute|]. intros key. unfold MayContain. cbn [m k].
  destruct (hashPair key) as [h1 h2]. change (2 ^ 64 - 1 =? 0) with false.
  cbv iota. change (Z.to_nat 4) with 4%nat. by rewrite contains_loop_no_bits.
Qed.

(** a builder with an attainable size builds, and the filter it builds
    contains every key that was added to the builder. *)
Theorem Builder_Build_contains {F} `{Float64 F} (p : F) ks
  (Hb : forall q, q = Builder.fp (Builder.NewBuilder p) \/ q = default_fp ->
    OptimalBits (Z.max 1 (len ks)) q <= 2 ^ 51) :
  exists f, Builder.Build
      (fold_left (fun b key => Builder.Add key b) ks (Builder.NewBuilder p)) = Ok (Some f) /\
    shaped f /\ forall key, key ∈ ks -> MayContain (Some f) key = Ok true.
Proof.
  rewrite Builder_keys. destruct (Build_keys (Builder.mkBuilder F ks (Builder.fp (Builder.NewBuilder p))) (2 ^ 51) Hb)
    as (f & Hf & Hs & _ & Hk); [lia|]. by exists f.
Qed.

(** A stand-in for float64 whose logarithm is crude: enough to run the code. *)
Definition Q_Float64 : Float64 Q := {|
  of_int := inject_Z;
  fopp := Qopp; fsub := Qminus; fmul := Qmult; fdiv := Qdiv;
  fltb := fun a b => negb (Qle_bool b a);
  fleb := Qle_bool;
  to_uint := fun q => u64 (Qfloor q);
  math_Log := fun q => (q - 1)%Q;
  math_Exp := fun q => (1 + q)%Q;
  math_Pow := fun q _ => q;
  math_Ceil := fun q => inject_Z (Qceiling q);
  math_Round := fun q => inject_Z (Qfloor (q + (1 # 2)));
  math_Ln2 := (69 # 100)%Q
|}.

Lemma Builder_Build_contains_witness :
  let ks := [[x61]; [x62]; []] in
  exists f, @Builder.Build Q Q_Float64 (fold_left (fun b key => Builder.Add key b) ks
      (@Builder.NewBuilder Q Q_Float64 (1 # 10)%Q)) = Ok (Some f) /\
    shaped f /\ forall key, key ∈ ks -> MayContain (Some f) key = Ok true.
Proof.
  apply (@Builder_Build_contains Q Q_Float64 (1 # 10)%Q [[x61]; [x62]; []]).
  intros q [->| ->]; vm_compute; discriminate.
Defined.
