(* ===== verification/SkipList.v ===== *)
(** * SkipList: package internal/memtable

    The skip list behind the memtable, on an explicit heap of nodes, and the
    MemTable wrapper.  Every operation is proved to implement the same
    operation on a list of entries sorted by key ([repr]). *)

From Stdlib Require Import ZArith Lia Strings.Byte.
From stdpp Require Import base decidable list sets strings numbers sorting.
From S2P Require Import Prelude ByteUtil.
#[local] Open Scope Z_scope.

Definition maxLevel : nat := 16.
Definition pNumerator : Z := 1.
Definition pDenominator : Z := 4.

Record Entry := mkEntry { Key : slice; Value : slice; Seq : Z; Deleted : bool }.

(** Entry{} *)
Definition zero_Entry : Entry := mkEntry None None 0 false.

(** A pointer to a node is an index into the heap; nil is [None]. *)
Abbreviation ptr := (option nat).

Record node := mkNode { entry : Entry; next : list ptr }.

(** [heap] holds every node allocated so far ([Clear] leaves the old ones to
    the iterators that still point at them); [rnd] is the generator's stream of
    numbers and [rpos] how many of them were drawn. *)
Record SkipList := mkSkipList {
  heap : list node;
  head : nat;
  level : nat;
  size : Z;
  bytes : Z;
  rnd : nat -> Z;
  rpos : nat
}.

(** rnd.Intn(n) *)
Definition Intn (n : Z) (s : SkipList) : Z * SkipList :=
  (rnd s (rpos s) mod n,
   mkSkipList (heap s) (head s) (level s) (size s) (bytes s) (rnd s) (S (rpos s))).

(** Reading and writing through pointers. *)
Definition deref (h : list node) (x : nat) : outcome node :=
  match h !! x with Some n => Ok n | None => Panic NilDeref end.
Definition load_next (h : list node) (x : nat) (i : nat) : outcome ptr :=
  n ← deref h x; index (next n) (Z.of_nat i).
Definition store_next (h : list node) (x : nat) (i : nat) (p : ptr) : outcome (list node) :=
  n ← deref h x;
  l ← set_index (next n) (Z.of_nat i) p;
  Ok (<[x := mkNode (entry n) l]> h).
Definition set_heap (h : list node) (s : SkipList) : SkipList :=
  mkSkipList h (head s) (level s) (size s) (bytes s) (rnd s) (rpos s).

Definition New (rnd : nat -> Z) : SkipList :=
  mkSkipList [mkNode zero_Entry (replicate maxLevel None)] 0 1 0 0 rnd 0.

(** At most [maxLevel - 1] iterations. *)
Fixpoint randomLevel_loop (n lvl : nat) (s : SkipList) : nat * SkipList :=
  match n with
  | O => (lvl, s)
  | S n =>
      let (r, s) := Intn pDenominator s in
      if r <? pNumerator then randomLevel_loop n (S lvl) s else (lvl, s)
  end.
Definition randomLevel (s : SkipList) : nat * SkipList := randomLevel_loop (maxLevel - 1) 1 s.

Definition compareKey (a b : list byte) : Z := bytes_Compare a b.

(** ** Searching *)

(** for x.next[i] != nil && compareKey(x.next[i].entry.Key, key) < 0 \{ x = x.next[i] \} *)
Fixpoint walk (fuel : nat) (h : list node) (i : nat) (key : list byte) (x : nat) : outcome nat :=
  match fuel with
  | O => Stuck
  | S fuel =>
      p ← load_next h x i;
      match p with
      | None => Ok x
      | Some y =>
          n ← deref h y;
          if compareKey (bs (Key (entry n))) key <? 0 then walk fuel h i key y else Ok x
      end
  end.

(** The level loop of Get, Seek and AscendRange: [n] levels left. *)
Fixpoint find (n : nat) (h : list node) (key : list byte) (x : nat) : outcome nat :=
  match n with
  | O => Ok x
  | S i => x ← walk (length h) h i key x; find i h key x
  end.

(** The level loop of set, which records the predecessors. *)
Fixpoint find_update (n : nat) (h : list node) (key : list byte) (x : nat) (update : list ptr) :
    outcome (nat * list ptr) :=
  match n with
  | O => Ok (x, update)
  | S i =>
      x ← walk (length h) h i key x;
      update ← set_index update (Z.of_nat i) (Some x);
      find_update i h key x update
  end.

Definition estimateBytes (e : Entry) : Z := len (bs (Key e)) + len (bs (Value e)) + 16.

(** ** Updates *)

(** for i := s.level; i < lvl; i++ \{ update[i] = s.head \}, [n] iterations. *)
Fixpoint raise_update (n i : nat) (hd : nat) (update : list ptr) : outcome (list ptr) :=
  match n with
  | O => Ok update
  | S n => update ← set_index update (Z.of_nat i) (Some hd); raise_update n (S i) hd update
  end.

(** for i := 0; i < lvl; i++ \{ n.next[i] = update[i].next[i]; update[i].next[i] = n \} *)
Fixpoint link (n i : nat) (a : nat) (update : list ptr) (h : list node) : outcome (list node) :=
  match n with
  | O => Ok h
  | S n =>
      u ← index update (Z.of_nat i);
      match u with
      | None => Panic NilDeref
      | Some u =>
          p ← load_next h u i;
          h ← store_next h a i p;
          h ← store_next h u i (Some a);
          link n (S i) a update h
      end
  end.

Definition set (key value : slice) (seq : Z) (deleted : bool) (s : SkipList) : outcome SkipList :=
  r ← find_update (level s) (heap s) (bs key) (head s) (replicate maxLevel None);
  let (x, update) := r : nat * list ptr in
  p ← load_next (heap s) x 0;
  found ← match p with
          | None => Ok None
          | Some y =>
              n ← deref (heap s) y;
              Ok (if compareKey (bs (Key (entry n))) (bs key) =? 0 then Some (y, n) else None)
          end;
  match found with
  | Some (y, n) =>
      if Seq (entry n) <=? seq then
        let oldBytes := estimateBytes (entry n) in
        let e := mkEntry (Key (entry n)) (Clone value) seq deleted in
        Ok (mkSkipList (<[y := mkNode e (next n)]> (heap s)) (head s) (level s) (size s)
              (i64 (bytes s + (estimateBytes e - oldBytes))) (rnd s) (rpos s))
      else Ok s
  | None =>
      let (lvl, s) := randomLevel s in
      update ← raise_update (lvl - level s) (level s) (head s) update;
      let e := mkEntry (Clone key) (Clone value) seq deleted in
      let a := length (heap s) in
      let h := heap s ++ [mkNode e (replicate lvl None)] in
      h ← link lvl 0 a update h;
      Ok (mkSkipList h (head s) (max (level s) lvl) (i64 (size s + 1))
            (i64 (bytes s + estimateBytes e)) (rnd s) (rpos s))
  end.

Definition Put (key value : slice) (seq : Z) : SkipList -> outcome SkipList := set key value seq false.
Definition Delete (key : slice) (seq : Z) : SkipList -> outcome SkipList := set key None seq true.

Definition Clear (s : SkipList) : SkipList :=
  mkSkipList (heap s ++ [mkNode zero_Entry (replicate maxLevel None)]) (length (heap s)) 1 0 0
    (rnd s) (rpos s).

(** ** Queries *)

Definition clone_entry (e : Entry) : Entry :=
  mkEntry (Clone (Key e)) (Clone (Value e)) (Seq e) (Deleted e).

(** The entry, or [None] for the false second result. *)
Definition Get (key : slice) (s : SkipList) : outcome (option Entry) :=
  x ← find (level s) (heap s) (bs key) (head s);
  p ← load_next (heap s) x 0;
  match p with
  | None => Ok None
  | Some y =>
      n ← deref (heap s) y;
      Ok (if compareKey (bs (Key (entry n))) (bs key) =? 0
          then Some (clone_entry (entry n)) else None)
  end.

Definition Len (s : SkipList) : Z := size s.
Definition ApproxBytes (s : SkipList) : Z := bytes s.
Definition Bytes (s : SkipList) : Z := bytes s.

(** for n := p; n != nil; n = n.next[0] \{ ... \}: the body may stop the loop. *)
Fixpoint scan {A} (fuel : nat) (h : list node) (body : Entry -> A -> bool * A) (p : ptr) (acc : A) :
    outcome A :=
  match p with
  | None => Ok acc
  | Some y =>
      match fuel with
      | O => Stuck
      | S fuel =>
          n ← deref h y;
          let (continue, acc) := body (entry n) acc in
          if continue then p ← load_next h y 0; scan fuel h body p acc else Ok acc
      end
  end.

Definition Snapshot (s : SkipList) : outcome (list Entry) :=
  p ← load_next (heap s) (head s) 0;
  scan (length (heap s)) (heap s) (fun e out => (true, out ++ [clone_entry e])) p [].

(** [fn] is a closure over a state of type [A]. *)
Definition Ascend {A} (fn : Entry -> A -> bool * A) (s : SkipList) (a : A) : outcome A :=
  p ← load_next (heap s) (head s) 0;
  scan (length (heap s)) (heap s) (fun e => fn (clone_entry e)) p a.

Definition AscendRange {A} (lo hi : slice) (fn : Entry -> A -> bool * A) (s : SkipList) (a : A) :
    outcome A :=
  x ← (match lo with
       | None => Ok (head s)
       | Some lo => find (level s) (heap s) lo (head s)
       end);
  p ← load_next (heap s) x 0;
  scan (length (heap s)) (heap s)
    (fun e a =>
       if (if hi is Some hi then 0 <=? compareKey (bs (Key e)) hi else false) then (false, a)
       else fn (clone_entry e) a) p a.

Definition MaxSeq (s : SkipList) : outcome Z :=
  p ← load_next (heap s) (head s) 0;
  scan (length (heap s)) (heap s) (fun e max => (true, if max <? Seq e then Seq e else max)) p 0.

(** ** Iterators *)

Module Iterator.

(** The list iterated over is passed to each method. *)
Record Iterator := mkIterator { cur : ptr }.

Definition NewIterator (s : SkipList) : Iterator := mkIterator (Some (head s)).

Definition SeekToFirst (s : SkipList) (it : Iterator) : outcome Iterator :=
  p ← load_next (heap s) (head s) 0; Ok (mkIterator p).

Definition Seek (target : slice) (s : SkipList) (it : Iterator) : outcome Iterator :=
  x ← find (level s) (heap s) (bs target) (head s);
  p ← load_next (heap s) x 0;
  Ok (mkIterator p).

Definition Valid (it : Iterator) : bool := if cur it is Some _ then true else false.

Definition Next (s : SkipList) (it : Iterator) : outcome Iterator :=
  match cur it with
  | None => Ok it
  | Some y => p ← load_next (heap s) y 0; Ok (mkIterator p)
  end.

(** The accessors look at the current entry, or return the zero value. *)
Definition current {A} (zero : A) (f : Entry -> A) (s : SkipList) (it : Iterator) : outcome A :=
  match cur it with
  | None => Ok zero
  | Some y => n ← deref (heap s) y; Ok (f (entry n))
  end.

Definition Key : SkipList -> Iterator -> outcome slice :=
  current None (fun e => Clone (Key e)).
Definition Value : SkipList -> Iterator -> outcome slice :=
  current None (fun e => Clone (Value e)).
Definition Seq : SkipList -> Iterator -> outcome Z := current 0 Seq.
Definition Deleted : SkipList -> Iterator -> outcome bool := current false Deleted.
Definition Entry : SkipList -> Iterator -> outcome Entry := current zero_Entry clone_entry.

End Iterator.

(** ** The wrapper *)

Module MemTable.

Record MemTable := mkMemTable { sl : SkipList; maxBytes : Z }.

Definition NewMemTable (rnd : nat -> Z) (maxBytes : Z) : MemTable :=
  mkMemTable (New rnd) (if maxBytes <=? 0 then Z.shiftl 4 20 else maxBytes).

Definition Underlying (m : MemTable) : SkipList := sl m.
Definition with_sl (m : MemTable) (r : outcome SkipList) : outcome MemTable :=
  s ← r; Ok (mkMemTable s (maxBytes m)).
Definition Put (key value : slice) (seq : Z) (m : MemTable) : outcome MemTable :=
  with_sl m (Put key value seq (sl m)).
Definition Delete (key : slice) (seq : Z) (m : MemTable) : outcome MemTable :=
  with_sl m (Delete key seq (sl m)).
Definition Get (key : slice) (m : MemTable) : outcome (option Entry) := Get key (sl m).
Definition ShouldFlush (m : MemTable) : bool := maxBytes m <=? Bytes (sl m).
Definition Bytes (m : MemTable) : Z := Bytes (sl m).
Definition Len (m : MemTable) : Z := Len (sl m).
Definition Snapshot (m : MemTable) : outcome (list Entry) := Snapshot (sl m).
Definition Clear (m : MemTable) : MemTable := mkMemTable (Clear (sl m)) (maxBytes m).
Definition MaxSeq (m : MemTable) : outcome Z := MaxSeq (sl m).
Definition NewIterator (m : MemTable) : Iterator.Iterator := Iterator.NewIterator (sl m).

End MemTable.

(** * Lemmas *)

(** ** Linked lists in the heap *)

(** The level-[i] successor of a node. *)
Definition nxt (h : list node) (i x : nat) : option ptr := n ← h !! x; next n !! i.

Lemma load_next_nxt h i x p : nxt h i x = Some p -> load_next h x i = Ok p.
Proof.
  unfold nxt, load_next, deref. destruct (h !! x) as [n|]; cbn; [|done]. intros Hp.
  apply index_lookup. split; [lia|]. by rewrite Nat2Z.id.
Qed.

(** [path f x l]: following [f] from [x] visits [l] and ends in nil. *)
Fixpoint path (f : nat -> option ptr) (x : nat) (l : list nat) : Prop :=
  match l with
  | [] => f x = Some None
  | y :: l => f x = Some (Some y) /\ path f y l
  end.

(** The last node of [x :: l]. *)
Fixpoint lasta (x : nat) (l : list nat) : nat :=
  match l with [] => x | y :: l => lasta y l end.

Lemma lasta_app x l k : lasta x (l ++ k) = lasta (lasta x l) k.
Proof. revert x. induction l; intros x; cbn; auto. Qed.

Lemma lasta_elem x l : lasta x l ∈ x :: l.
Proof.
  revert x. induction l as [|y l IH]; intros x; cbn [lasta]; [by apply list_elem_of_here|].
  apply list_elem_of_further, IH.
Qed.

Lemma path_from f x l k : path f x (l ++ k) -> path f (lasta x l) k.
Proof. revert x. induction l as [|y l IH]; intros x; cbn; [done|]. intros [_ H]. auto. Qed.

Lemma path_head f x l : path f x l -> f x = Some (hd_error l).
Proof. destruct l; cbn; [done|tauto]. Qed.

Lemma path_ext f g x l : path f x l -> (forall y, y ∈ x :: l -> g y = f y) -> path g x l.
Proof.
  revert x. induction l as [|y l IH]; cbn; intros x Hp He.
  - rewrite He; [done|]. apply list_elem_of_here.
  - destruct Hp as [Hx Hp]. split; [rewrite He; [done|apply list_elem_of_here]|].
    apply IH; [done|]. intros z Hz. apply He. by apply list_elem_of_further.
Qed.

(** The successor function after linking [a] behind [u]. *)
Definition link_fn (f : nat -> option ptr) (u a : nat) (x : nat) : option ptr :=
  if decide (x = u) then Some (Some a) else if decide (x = a) then f u else f x.

Lemma path_link f x l k a :
  path f x (l ++ k) -> NoDup (a :: x :: l ++ k) ->
  path (link_fn f (lasta x l) a) x (l ++ a :: k).
Proof.
  revert x. induction l as [|y l IH]; intros x Hp Hnd.
  - cbn in *. unfold link_fn at 1. rewrite decide_True by done. split; [done|].
    assert (a <> x) by (apply NoDup_cons in Hnd as [? _]; set_solver).
    destruct k as [|z k]; cbn in *; unfold link_fn at 1; rewrite decide_False, decide_True by done.
    + done.
    + destruct Hp as [Hx Hp]. split; [done|]. eapply path_ext; [done|].
      intros w Hw. unfold link_fn. apply NoDup_cons in Hnd as [Ha [Hx' _]%NoDup_cons].
      rewrite !decide_False; [done| |]; intros ->; set_solver.
  - destruct Hp as [Hx Hp]. cbn [app path lasta]. split.
    + unfold link_fn. pose proof (lasta_elem y l).
      apply NoDup_cons in Hnd as [Ha [Hx' _]%NoDup_cons].
      rewrite !decide_False; [done| |]; intros ->; set_solver.
    + apply IH; [done|]. apply NoDup_cons in Hnd as [Ha [Hx' Hn]%NoDup_cons].
      apply NoDup_cons. split; [set_solver|done].
Qed.

(** ** Stores *)

(** What no store changes: the entries and the heights of the nodes. *)
Definition shape (h : list node) : list (Entry * nat) := (fun n => (entry n, length (next n))) <$> h.

Lemma shape_lookup h h' x n :
  shape h' = shape h -> h !! x = Some n ->
  exists n', h' !! x = Some n' /\ entry n' = entry n /\ length (next n') = length (next n).
Proof.
  intros Hs Hx. assert (shape h' !! x = Some (entry n, length (next n))) as H.
  { rewrite Hs. unfold shape. by rewrite list_lookup_fmap, Hx. }
  unfold shape in H. rewrite list_lookup_fmap in H.
  destruct (h' !! x) as [n'|]; cbn in H; [|done]. injection H as H1 H2. eauto.
Qed.

Lemma shape_length h h' : shape h' = shape h -> length h' = length h.
Proof. intros H. apply (f_equal length) in H. unfold shape in H. by rewrite !length_fmap in H. Qed.

Lemma store_next_spec h x i p :
  is_Some (nxt h i x) ->
  exists h', store_next h x i p = Ok h' /\ shape h' = shape h /\
    forall j y, nxt h' j y = if decide (y = x /\ j = i) then Some p else nxt h j y.
Proof.
  intros [p0 Hp0]. unfold store_next, deref. unfold nxt in Hp0.
  destruct (h !! x) as [n|] eqn:Hx; cbn in Hp0; [|done]. rewrite outcome_bind_Ok.
  pose proof (lookup_lt_Some _ _ _ Hp0). pose proof (lookup_lt_Some _ _ _ Hx).
  unfold set_index. rewrite decide_True, outcome_bind_Ok, Nat2Z.id by lia.
  eexists. split; [done|]. split.
  - unfold shape. rewrite list_fmap_insert. cbn. rewrite length_insert.
    apply list_insert_id. by rewrite list_lookup_fmap, Hx.
  - intros j y. unfold nxt. destruct (decide (y = x)) as [->|Hy].
    + rewrite list_lookup_insert_eq, Hx by done. cbn.
      destruct (decide (j = i)) as [->|Hj].
      * by rewrite decide_True, list_lookup_insert_eq by done.
      * by rewrite decide_False, list_lookup_insert_ne by naive_solver.
    + by rewrite decide_False, list_lookup_insert_ne by naive_solver.
Qed.

Lemma link_spec n i a update h (us : nat -> nat) :
  (forall j, (i <= j < i + n)%nat ->
     update !! j = Some (Some (us j)) /\ us j <> a /\
     is_Some (nxt h j (us j)) /\ is_Some (nxt h j a)) ->
  exists h', link n i a update h = Ok h' /\ shape h' = shape h /\
    forall j x, nxt h' j x =
      if decide (i <= j < i + n)%nat then link_fn (nxt h j) (us j) a x else nxt h j x.
Proof.
  revert i h. induction n as [|n IH]; intros i h Hpre; cbn [link].
  - exists h. split_and!; [done..|]. intros j x. by rewrite decide_False by lia.
  - destruct (Hpre i) as (Hu & Hua & [p Hp] & Ha); [lia|].
    rewrite (proj2 (index_lookup _ _ (Some (us i)))) by (rewrite Nat2Z.id; split; [lia|done]).
    rewrite outcome_bind_Ok, (load_next_nxt _ _ _ p), outcome_bind_Ok by done.
    destruct (store_next_spec h a i p Ha) as (h1 & -> & Hs1 & Hn1). rewrite outcome_bind_Ok.
    assert (nxt h1 i (us i) = Some p) as Hu1 by (rewrite Hn1, decide_False by naive_solver; done).
    destruct (store_next_spec h1 (us i) i (Some a)) as (h2 & -> & Hs2 & Hn2); [by rewrite Hu1|].
    rewrite outcome_bind_Ok.
    assert (Hold: forall j x, j <> i -> nxt h2 j x = nxt h j x).
    { intros j x Hj. rewrite Hn2, Hn1, !decide_False by naive_solver. done. }
    destruct (IH (S i) h2) as (h' & Hl & Hs & Hn).
    { intros j Hj. rewrite !Hold by lia. apply Hpre. lia. }
    exists h'. split; [done|]. split; [congruence|]. intros j x. rewrite Hn.
    destruct (decide (j = i)) as [->|Hj].
    + rewrite decide_False, decide_True by lia. rewrite Hn2, Hn1. unfold link_fn.
      destruct (decide (x = us i)) as [->|]; [by rewrite decide_True by done|].
      rewrite decide_False by naive_solver.
      destruct (decide (x = a)) as [->|]; [by rewrite decide_True by done|].
      by rewrite decide_False by naive_solver.
    + destruct (decide (i <= j < i + S n)%nat).
      * rewrite decide_True by lia. unfold link_fn. by rewrite !Hold by done.
      * rewrite decide_False by lia. by apply Hold.
Qed.

(** ** The representation of a sorted list of entries *)

(** A node in key order: its address, entry and height. *)
Record cell := mkCell { addr : nat; ent : Entry; ht : nat }.
Definition ekey (e : Entry) : list byte := bs (Key e).
Definition ckey (c : cell) : list byte := ekey (ent c).

(** The cells that have a level-[i] link. *)
Definition tower (i : nat) (l : list cell) : list cell := filter (fun c => i < ht c)%nat l.

Definition cost (es : list Entry) : Z := foldr (fun e n => estimateBytes e + n) 0 es.

Definition cell_ok (h : list node) (lv : nat) (c : cell) : Prop :=
  exists nx, h !! addr c = Some (mkNode (ent c) nx) /\ length nx = ht c /\ (1 <= ht c <= lv)%nat.

Record rep (s : SkipList) (l : list cell) : Prop := {
  rep_head : exists n, heap s !! head s = Some n /\ length (next n) = maxLevel;
  rep_level : (1 <= level s <= maxLevel)%nat;
  rep_cells : Forall (cell_ok (heap s) (level s)) l;
  rep_paths i : (i < maxLevel)%nat -> path (nxt (heap s) i) (head s) (addr <$> tower i l);
  rep_nodup : NoDup (head s :: (addr <$> l));
  rep_sorted : StronglySorted blt (ckey <$> l);
  rep_size : size s = i64 (len l);
  rep_bytes : bytes s = i64 (cost (ent <$> l))
}.

(** The list of entries a skip list stands for. *)
Definition repr (s : SkipList) (es : list Entry) : Prop := exists l, rep s l /\ es = ent <$> l.

Lemma tower_app i l k : tower i (l ++ k) = tower i l ++ tower i k.
Proof. apply filter_app. Qed.

Lemma tower_0 l h lv : Forall (cell_ok h lv) l -> tower 0 l = l.
Proof.
  intros Hl. apply filter_all. eapply Forall_impl; [done|].
  intros c (? & ? & ? & ?). lia.
Qed.

Lemma tower_high l h lv i : Forall (cell_ok h lv) l -> (lv <= i)%nat -> tower i l = [].
Proof.
  intros Hl Hi. apply filter_none. eapply Forall_impl; [done|].
  intros c (? & ? & ? & ?). lia.
Qed.

(** The last cell of a level is on every lower level: the search goes on from
    there. *)
Lemma tower_split i l x :
  exists a b, tower i l = a ++ b /\ lasta x (addr <$> a) = lasta x (addr <$> tower (S i) l).
Proof.
  induction l as [|c l IH] using rev_ind.
  - by exists [], [].
  - destruct IH as (a & b & Hab & Hl). rewrite !tower_app. unfold tower at 2 4.
    rewrite !filter_cons, !filter_nil. destruct (decide (S i < ht c)%nat), (decide (i < ht c)%nat); try lia.
    + exists (tower i l ++ [c]), []. split; [by rewrite app_nil_r|].
      by rewrite !fmap_app, !lasta_app.
    + exists a, (b ++ [c]). rewrite app_nil_r, Hab, app_assoc. done.
    + exists a, b. by rewrite !app_nil_r.
Qed.

Lemma tower_incl i l c : c ∈ tower i l -> c ∈ l.
Proof. unfold tower. rewrite list_elem_of_filter. tauto. Qed.

(** ** Searching *)

(** Splitting a sorted list at a key. *)
Lemma sorted_split (key : list byte) l :
  StronglySorted blt (ckey <$> l) ->
  exists lo hi, l = lo ++ hi /\ Forall (fun c => blt (ckey c) key) lo /\
    Forall (fun c => ble key (ckey c)) hi.
Proof.
  induction l as [|c l IH]; cbn; intros Hs; [by exists [], []|].
  inversion Hs as [|? ? Hs' Hc]; subst. destruct (IH Hs') as (lo & hi & -> & Hlo & Hhi).
  destruct (decide (blt (ckey c) key)) as [Hb|Hb].
  - exists (c :: lo), hi. split_and!; [done|by constructor|done].
  - apply not_blt in Hb. exists [], (c :: lo ++ hi). split_and!; [done|constructor|].
    constructor; [done|]. rewrite Forall_fmap in Hc. eapply Forall_impl; [exact Hc|].
    intros c' Hc'. apply ble_alt. left. by eapply ble_blt_trans.
Qed.

Lemma deref_cell h lv c : cell_ok h lv c -> exists n, deref h (addr c) = Ok n /\ entry n = ent c.
Proof. intros (nx & Hn & _). unfold deref. rewrite Hn. eexists. split; [done|done]. Qed.

Lemma walk_spec h lv i key x lo hi fuel :
  path (nxt h i) x (addr <$> lo ++ hi) ->
  Forall (cell_ok h lv) (lo ++ hi) ->
  Forall (fun c => blt (ckey c) key) lo -> Forall (fun c => ble key (ckey c)) hi ->
  (length lo < fuel)%nat ->
  walk fuel h i key x = Ok (lasta x (addr <$> lo)).
Proof.
  revert x fuel. induction lo as [|c lo IH]; intros x [|fuel] Hp Hc Hlo Hhi Hf;
    cbn [length] in Hf; try lia; cbn [walk].
  - pose proof (path_head _ _ _ Hp) as Hx. cbn [app] in *.
    rewrite (load_next_nxt _ _ _ _ Hx), outcome_bind_Ok.
    destruct hi as [|c hi]; [done|]. cbn [fmap list_fmap hd_error].
    apply Forall_cons in Hc as [Hc _]. apply Forall_cons in Hhi as [Hk _].
    destruct (deref_cell _ _ _ Hc) as (n & -> & He). rewrite outcome_bind_Ok, He.
    apply compare_ge in Hk. unfold compareKey. unfold ckey, ekey in Hk. by zif.
  - cbn in Hp. destruct Hp as [Hx Hp]. rewrite (load_next_nxt _ _ _ _ Hx), outcome_bind_Ok.
    apply Forall_cons in Hc as [Hc Hcs]. apply Forall_cons in Hlo as [Hk Hlo].
    destruct (deref_cell _ _ _ Hc) as (n & -> & He). rewrite outcome_bind_Ok, He.
    apply compare_lt in Hk. unfold compareKey. unfold ckey, ekey in Hk. zif.
    apply IH; [done..|lia].
Qed.

(** The nodes of a list are distinct heap cells, so the heap bounds the
    number of steps along it. *)
Lemma rep_length s l : rep s l -> (length l < length (heap s))%nat.
Proof.
  intros [(n & Hn & _) _ Hc _ Hnd _ _ _].
  assert (head s :: (addr <$> l) ⊆+ seq 0 (length (heap s))) as Hsub.
  { apply NoDup_submseteq; [done|]. intros a Ha. apply elem_of_seq. split; [lia|].
    apply elem_of_cons in Ha as [->|(c & -> & Hin)%list_elem_of_fmap].
    - by eapply lookup_lt_Some.
    - rewrite Forall_forall in Hc. destruct (Hc c Hin) as (nx & ? & _). by eapply lookup_lt_Some. }
  apply submseteq_length in Hsub. rewrite length_seq in Hsub. cbn in Hsub.
  rewrite length_fmap in Hsub. lia.
Qed.

Lemma length_tower i l : (length (tower i l) <= length l)%nat.
Proof. apply length_filter. Qed.

(** One level of the search. *)
Lemma search_level s lo hi key i :
  rep s (lo ++ hi) -> (i < maxLevel)%nat ->
  Forall (fun c => blt (ckey c) key) lo -> Forall (fun c => ble key (ckey c)) hi ->
  walk (length (heap s)) (heap s) i key (lasta (head s) (addr <$> tower (S i) lo)) =
    Ok (lasta (head s) (addr <$> tower i lo)).
Proof.
  intros Hr Hi Hlo Hhi. destruct (tower_split i lo (head s)) as (a & b & Hab & Hl).
  pose proof (rep_paths _ _ Hr i Hi) as Hp. pose proof (rep_length _ _ Hr) as Hlen.
  pose proof (length_tower i lo) as Hlt. pose proof (rep_cells _ _ Hr) as Hc.
  rewrite tower_app, Hab, <- app_assoc, fmap_app in Hp. apply path_from in Hp.
  rewrite Hl in Hp. rewrite Hab in Hlt. rewrite length_app in *.
  rewrite (walk_spec _ (level s) _ _ _ b (tower i hi)).
  - rewrite Hab, fmap_app, lasta_app. by rewrite Hl.
  - done.
  - rewrite Forall_forall in *. intros c Hin. apply Hc. rewrite elem_of_app in *.
    destruct Hin as [Hin|Hin]; [left|right]; apply (tower_incl i); [|done].
    rewrite Hab. set_solver.
  - rewrite Forall_forall in *. intros c Hin. apply Hlo, (tower_incl i). rewrite Hab. set_solver.
  - rewrite Forall_forall in *. intros c Hin. by apply Hhi, (tower_incl i).
  - lia.
Qed.

Lemma find_from s lo hi key n :
  rep s (lo ++ hi) -> (n <= maxLevel)%nat ->
  Forall (fun c => blt (ckey c) key) lo -> Forall (fun c => ble key (ckey c)) hi ->
  find n (heap s) key (lasta (head s) (addr <$> tower n lo)) =
    Ok (lasta (head s) (addr <$> tower 0 lo)).
Proof.
  intros Hr Hn Hlo Hhi. induction n as [|i IH]; [done|]. cbn [find].
  rewrite (search_level s lo hi) by (done || lia). rewrite outcome_bind_Ok. apply IH. lia.
Qed.

Lemma tower_top s lo hi : rep s (lo ++ hi) -> tower (level s) lo = [].
Proof.
  intros Hr. pose proof (rep_cells _ _ Hr) as [Hc _]%Forall_app.
  by apply (tower_high lo (heap s) (level s)).
Qed.

Lemma find_spec s lo hi key :
  rep s (lo ++ hi) ->
  Forall (fun c => blt (ckey c) key) lo -> Forall (fun c => ble key (ckey c)) hi ->
  find (level s) (heap s) key (head s) = Ok (lasta (head s) (addr <$> lo)).
Proof.
  intros Hr Hlo Hhi. pose proof (find_from s lo hi key (level s) Hr) as Hf.
  rewrite (tower_top s lo hi) in Hf by done. change (lasta _ (addr <$> [])) with (head s) in Hf.
  rewrite Hf; [|apply (rep_level _ _ Hr)|done..].
  pose proof (rep_cells _ _ Hr) as [Hc _]%Forall_app. by rewrite (tower_0 _ _ _ Hc).
Qed.

Lemma find_update_from s lo hi key n update :
  rep s (lo ++ hi) -> (n <= maxLevel)%nat -> length update = maxLevel ->
  Forall (fun c => blt (ckey c) key) lo -> Forall (fun c => ble key (ckey c)) hi ->
  exists update',
    find_update n (heap s) key (lasta (head s) (addr <$> tower n lo)) update =
      Ok (lasta (head s) (addr <$> tower 0 lo), update') /\
    length update' = maxLevel /\
    forall j, update' !! j = if decide (j < n)%nat
      then Some (Some (lasta (head s) (addr <$> tower j lo))) else update !! j.
Proof.
  intros Hr Hn Hu Hlo Hhi. revert update Hu.
  induction n as [|i IH]; intros update Hu; cbn [find_update].
  - exists update. split_and!; [done..|]. intros j. by rewrite decide_False by lia.
  - rewrite (search_level s lo hi) by (done || lia). rewrite outcome_bind_Ok.
    unfold set_index. rewrite decide_True, outcome_bind_Ok, Nat2Z.id by lia.
    edestruct IH as (u' & -> & Hl & Hj); [lia|by rewrite length_insert|].
    exists u'. split_and!; [done..|]. intros j. rewrite Hj.
    destruct (decide (j = i)) as [->|].
    + by rewrite decide_False, decide_True, list_lookup_insert_eq by lia.
    + destruct (decide (j < i)%nat); [by rewrite decide_True by lia|].
      by rewrite decide_False, list_lookup_insert_ne by lia.
Qed.

Lemma find_update_spec s lo hi key :
  rep s (lo ++ hi) ->
  Forall (fun c => blt (ckey c) key) lo -> Forall (fun c => ble key (ckey c)) hi ->
  exists update,
    find_update (level s) (heap s) key (head s) (replicate maxLevel None) =
      Ok (lasta (head s) (addr <$> lo), update) /\ length update = maxLevel /\
    forall j, (j < level s)%nat -> update !! j = Some (Some (lasta (head s) (addr <$> tower j lo))).
Proof.
  intros Hr Hlo Hhi.
  destruct (find_update_from s lo hi key (level s) (replicate maxLevel None))
    as (u & Hf & Hl & Hj); [done|apply (rep_level _ _ Hr)|apply length_replicate|done..|].
  rewrite (tower_top s lo hi) in Hf by done. change (lasta _ (addr <$> [])) with (head s) in Hf.
  exists u.
  pose proof (rep_cells _ _ Hr) as [Hc _]%Forall_app. rewrite (tower_0 _ _ _ Hc) in Hf.
  split_and!; [done..|]. intros j Hlt. by rewrite Hj, decide_True.
Qed.

(** The node the search ends at is followed by the first entry not below the
    key. *)
Lemma rep_next0 s lo hi :
  rep s (lo ++ hi) ->
  load_next (heap s) (lasta (head s) (addr <$> lo)) 0 = Ok (hd_error (addr <$> hi)).
Proof.
  intros Hr. pose proof (rep_paths _ _ Hr 0%nat) as Hp.
  rewrite (tower_0 _ _ _ (rep_cells _ _ Hr)), fmap_app in Hp.
  apply load_next_nxt, path_head, path_from, Hp. unfold maxLevel. lia.
Qed.

(** ** Updates *)

(** What [set] does to the list of entries: the newest sequence number wins,
    the later write on a tie; a replaced entry keeps its first key. *)
Fixpoint upsert (e : Entry) (es : list Entry) : list Entry :=
  match es with
  | [] => [e]
  | e' :: r =>
      match lex (ekey e') (ekey e) with
      | Lt => e' :: upsert e r
      | Eq => (if Seq e' <=? Seq e then mkEntry (Key e') (Value e) (Seq e) (Deleted e) else e') :: r
      | Gt => e :: e' :: r
      end
  end.

Lemma upsert_app e lo hi :
  Forall (fun e' => blt (ekey e') (ekey e)) lo -> upsert e (lo ++ hi) = lo ++ upsert e hi.
Proof.
  induction 1 as [|e' lo He _ IH]; [done|]. cbn [app upsert]. unfold blt in He.
  by rewrite He, IH.
Qed.

Lemma cost_cons e es : cost (e :: es) = estimateBytes e + cost es.
Proof. done. Qed.

Lemma cost_app es es' : cost (es ++ es') = cost es + cost es'.
Proof. unfold cost. induction es as [|e es IH]; cbn; [done|]. rewrite IH. lia. Qed.

Lemma cell_ok_lookup h lv c : cell_ok h lv c -> exists nx, h !! addr c = Some (mkNode (ent c) nx).
Proof. intros (nx & H & _). eauto. Qed.

(** Replacing the entry of one cell by another with the same key. *)
Lemma rep_replace s lo c hi e nx :
  rep s (lo ++ c :: hi) -> ekey e = ckey c -> heap s !! addr c = Some (mkNode (ent c) nx) ->
  rep (mkSkipList (<[addr c := mkNode e nx]> (heap s)) (head s) (level s) (size s)
         (i64 (bytes s + (estimateBytes e - estimateBytes (ent c)))) (rnd s) (rpos s))
      (lo ++ mkCell (addr c) e (ht c) :: hi).
Proof.
  intros [(n & Hn & Hlen) Hlv Hc Hp Hnd Hs Hsz Hb] He Hx.
  assert (addr <$> lo ++ mkCell (addr c) e (ht c) :: hi = addr <$> lo ++ c :: hi) as Ha
    by (by rewrite !fmap_app).
  assert (head s <> addr c) as Hhc.
  { intros Heq. apply NoDup_cons in Hnd as [Hnd _]. apply Hnd. rewrite Heq.
    apply list_elem_of_fmap_2. set_solver. }
  constructor; cbn [heap head level size bytes].
  - exists n. by rewrite list_lookup_insert_ne.
  - done.
  - rewrite fmap_app, fmap_cons in Hnd. apply NoDup_cons in Hnd as [_ Hnd].
    apply NoDup_app in Hnd as (_ & Hd1 & [Hd2 _]%NoDup_cons).
    assert (Hother: forall c', c' ∈ lo \/ c' ∈ hi -> cell_ok (heap s) (level s) c' ->
      cell_ok (<[addr c:=mkNode e nx]> (heap s)) (level s) c').
    { intros c' Hin (nx' & Hx' & Hrest). exists nx'. split; [|done].
      rewrite list_lookup_insert_ne; [done|]. intros Heq. destruct Hin as [Hin|Hin].
      - apply (Hd1 (addr c')); [by apply list_elem_of_fmap_2|]. rewrite <- Heq. by left.
      - apply Hd2. rewrite Heq. by apply list_elem_of_fmap_2. }
    apply Forall_app in Hc as [Hc1 [Hc2 Hc3]%Forall_cons].
    apply Forall_app. split; [|apply Forall_cons; split].
    + rewrite Forall_forall in *. auto.
    + destruct Hc2 as (nx' & Hx' & Hrest). rewrite Hx in Hx'. injection Hx' as <-.
      exists nx. split; [|done]. cbn. apply list_lookup_insert_eq. by eapply lookup_lt_Some.
    + rewrite Forall_forall in *. auto.
  - intros i Hi. replace (addr <$> tower i (lo ++ mkCell (addr c) e (ht c) :: hi))
      with (addr <$> tower i (lo ++ c :: hi)).
    2: { unfold tower. rewrite !filter_app, !filter_cons. cbn [ht].
         destruct (decide _); by rewrite !fmap_app. }
    eapply path_ext; [by apply Hp|]. intros y _. unfold nxt.
    destruct (decide (y = addr c)) as [->|Hy].
    + rewrite Hx, list_lookup_insert_eq by (by eapply lookup_lt_Some). done.
    + by rewrite list_lookup_insert_ne.
  - by rewrite Ha.
  - replace (ckey <$> lo ++ mkCell (addr c) e (ht c) :: hi) with (ckey <$> lo ++ c :: hi); [done|].
    rewrite !fmap_app, !fmap_cons. change (ckey (mkCell _ e _)) with (ekey e). by rewrite He.
  - rewrite Hsz, !length_app. done.
  - rewrite Hb, i64_add_l, !fmap_app, !fmap_cons, !cost_app. f_equal. rewrite !cost_cons. cbn [ent]. lia.
Qed.

Lemma randomLevel_spec s :
  exists lvl k, randomLevel s = (lvl, mkSkipList (heap s) (head s) (level s) (size s) (bytes s) (rnd s) k) /\
    (1 <= lvl <= maxLevel)%nat.
Proof.
  unfold randomLevel.
  assert (forall n lvl s, exists lvl' k, randomLevel_loop n lvl s =
    (lvl', mkSkipList (heap s) (head s) (level s) (size s) (bytes s) (rnd s) k) /\
    (lvl <= lvl' <= lvl + n)%nat) as H.
  { clear. induction n as [|n IH]; intros lvl s; cbn [randomLevel_loop].
    - exists lvl, (rpos s). split; [by destruct s|lia].
    - unfold Intn. case_match.
      + destruct (IH (S lvl) (mkSkipList (heap s) (head s) (level s) (size s) (bytes s) (rnd s) (S (rpos s))))
          as (l' & k & -> & Hl). exists l', k. split; [done|lia].
      + exists lvl, (S (rpos s)). split; [done|lia]. }
  destruct (H (maxLevel - 1)%nat 1%nat s) as (lvl & k & -> & Hl). exists lvl, k.
  split; [done|]. unfold maxLevel in *. lia.
Qed.

Lemma raise_update_spec n i hd update :
  (i + n <= length update)%nat ->
  exists u, raise_update n i hd update = Ok u /\ length u = length update /\
    forall j, u !! j = if decide (i <= j < i + n)%nat then Some (Some hd) else update !! j.
Proof.
  revert i update. induction n as [|n IH]; intros i update Hl; cbn [raise_update].
  - exists update. split_and!; [done..|]. intros j. by rewrite decide_False by lia.
  - unfold set_index. rewrite decide_True, outcome_bind_Ok, Nat2Z.id by lia.
    destruct (IH (S i) (<[i:=Some hd]> update)) as (u & -> & Hlu & Hu); [rewrite length_insert; lia|].
    exists u. rewrite length_insert in Hlu. split_and!; [done..|]. intros j. rewrite Hu.
    destruct (decide (j = i)) as [->|].
    + rewrite decide_False, decide_True by lia. by rewrite list_lookup_insert_eq by lia.
    + rewrite list_lookup_insert_ne by done.
      destruct (decide (S i <= j < S i + n)%nat); by rewrite ?decide_True, ?decide_False by lia.
Qed.

Lemma nxt_alloc h n j x : (x < length h)%nat -> nxt (h ++ [n]) j x = nxt h j x.
Proof. intros. unfold nxt. by rewrite lookup_app_l. Qed.

Lemma nxt_new h e k j : (j < k)%nat ->
  nxt (h ++ [mkNode e (replicate k None)]) j (length h) = Some None.
Proof.
  intros. unfold nxt. rewrite list_lookup_middle by done. cbn. by apply lookup_replicate_2.
Qed.

Lemma rep_addr s l x : rep s l -> x ∈ head s :: (addr <$> l) -> (x < length (heap s))%nat.
Proof.
  intros [(n & Hn & _) _ Hc _ _ _ _ _] [->|(c & -> & Hin)%list_elem_of_fmap]%elem_of_cons.
  - by eapply lookup_lt_Some.
  - rewrite Forall_forall in Hc. destruct (Hc c Hin) as (nx & ? & _). by eapply lookup_lt_Some.
Qed.

Lemma cell_ok_shape h h' lv lv' c :
  shape h' = shape h -> (lv <= lv')%nat -> cell_ok h lv c -> cell_ok h' lv' c.
Proof.
  intros Hs Hlv (nx & Hx & Hl & Hr). destruct (shape_lookup _ _ _ _ Hs Hx) as ([e' nx'] & Hx' & He & Hln).
  cbn in *. subst e'. exists nx'. split_and!; [done|congruence|lia|lia].
Qed.

Lemma cell_ok_alloc h n lv c : cell_ok h lv c -> cell_ok (h ++ [n]) lv c.
Proof.
  intros (nx & Hx & Hr). exists nx. split; [|done]. rewrite lookup_app_l; [done|].
  by eapply lookup_lt_Some.
Qed.

Lemma tower_addr i l x a : a ∈ x :: (addr <$> tower i l) -> a ∈ x :: (addr <$> l).
Proof.
  rewrite !elem_of_cons, !list_elem_of_fmap. intros [?|(c & -> & Hin)]; [by left|right].
  exists c. split; [done|]. by eapply tower_incl.
Qed.

Lemma tower_NoDup i l : NoDup (addr <$> l) -> NoDup (addr <$> tower i l).
Proof.
  intros Hn. eapply sublist_NoDup; [exact Hn|]. apply fmap_sublist. unfold tower. clear Hn.
  induction l as [|c l IH]; [constructor|]. rewrite filter_cons.
  case_decide; by constructor.
Qed.

(** The tower of a level with a new cell between the two halves. *)
Lemma tower_link f g i hd lo hi c :
  path f hd (addr <$> tower i (lo ++ hi)) -> NoDup (hd :: (addr <$> lo ++ hi)) -> addr c ∉ hd :: (addr <$> lo ++ hi) ->
  (forall y, g y = if decide (i < ht c)%nat then link_fn f (lasta hd (addr <$> tower i lo)) (addr c) y else f y) ->
  path g hd (addr <$> tower i (lo ++ c :: hi)).
Proof.
  intros Hp [Hn1 Hn2]%NoDup_cons Hfresh Hg.
  assert (Hin: forall a, a ∈ addr <$> tower i (lo ++ hi) -> a ∈ addr <$> (lo ++ hi)).
  { intros a (c' & -> & Hc)%list_elem_of_fmap. apply list_elem_of_fmap_2. by eapply tower_incl. }
  rewrite tower_app in Hp, Hin. rewrite tower_app. change (c :: hi) with ([c] ++ hi). rewrite (tower_app i [c]).
  unfold tower at 2. rewrite filter_cons, filter_nil. destruct (decide (i < ht c)%nat) as [Hi|Hi].
  - rewrite fmap_app in Hp, Hin |- *. change (addr <$> [c] ++ tower i hi) with (addr c :: (addr <$> tower i hi)).
    eapply path_ext; [apply (path_link f hd (addr <$> tower i lo) (addr <$> tower i hi) (addr c)); [exact Hp|]|].
    + apply NoDup_cons. split; [rewrite elem_of_cons in Hfresh |- *; intros [?|Ha%Hin]; apply Hfresh; [by left|by right]|].
      apply NoDup_cons. split; [intros Ha%Hin; by apply Hn1|]. rewrite <- fmap_app, <- tower_app. by apply tower_NoDup.
    + intros y _. apply Hg.
  - cbn [app]. eapply path_ext; [exact Hp|]. intros y _. apply Hg.
Qed.

(** Linking a new node between the two halves of the list. *)
Lemma rep_insert s lo hi e lvl update k :
  rep s (lo ++ hi) -> (1 <= lvl <= maxLevel)%nat ->
  (forall j, (j < lvl)%nat -> update !! j = Some (Some (lasta (head s) (addr <$> tower j lo)))) ->
  Forall (fun c => blt (ckey c) (ekey e)) lo -> Forall (fun c => blt (ekey e) (ckey c)) hi ->
  exists h, link lvl 0 (length (heap s)) update (heap s ++ [mkNode e (replicate lvl None)]) = Ok h /\
    rep (mkSkipList h (head s) (max (level s) lvl) (i64 (size s + 1))
           (i64 (bytes s + estimateBytes e)) (rnd s) k)
        (lo ++ mkCell (length (heap s)) e lvl :: hi).
Proof.
  intros Hr Hlvl Hup Hlo Hhi. set (a := length (heap s)).
  set (h1 := heap s ++ [mkNode e (replicate lvl None)]).
  set (us j := lasta (head s) (addr <$> tower j lo)).
  assert (Hfresh: a ∉ head s :: (addr <$> lo ++ hi)).
  { intros Hin. apply (rep_addr s _ _ Hr) in Hin. unfold a in Hin. lia. }
  assert (Hpath1: forall j, (j < maxLevel)%nat -> path (nxt h1 j) (head s) (addr <$> tower j (lo ++ hi))).
  { intros j Hj. eapply path_ext; [by apply (rep_paths _ _ Hr)|]. intros y Hy%tower_addr.
    apply nxt_alloc. by apply (rep_addr s _ _ Hr). }
  assert (Hus: forall j, us j ∈ head s :: (addr <$> lo ++ hi)).
  { intros j. unfold us. pose proof (lasta_elem (head s) (addr <$> tower j lo)) as H%tower_addr.
    rewrite fmap_app. set_solver. }
  destruct (link_spec lvl 0 a update h1 us) as (h & Hl & Hshape & Hnxt).
  { intros j Hj. split_and!.
    - apply Hup. lia.
    - intros Heq. apply Hfresh. rewrite <- Heq. apply Hus.
    - pose proof (Hpath1 j ltac:(lia)) as Hp. rewrite tower_app, fmap_app in Hp.
      apply path_from, path_head in Hp. unfold us. by rewrite Hp.
    - unfold h1. rewrite nxt_new by lia. done. }
  exists h. split; [exact Hl|]. pose proof Hr as [Hhd Hlv Hc Hp Hnd Hs Hsz Hb].
  constructor; cbn [heap head level size bytes].
  - destruct Hhd as (n & Hn & Hlen).
    destruct (shape_lookup h1 h (head s) n Hshape) as (n' & ? & _ & ?); [|exists n'; split; [done|congruence]].
    unfold h1. rewrite lookup_app_l; [done|]. by eapply lookup_lt_Some.
  - lia.
  - assert (Forall (cell_ok h (max (level s) lvl)) (lo ++ hi)) as [Hc1 Hc2]%Forall_app.
    { eapply Forall_impl; [exact Hc|]. intros c Hok. apply (cell_ok_shape h1 h (level s)); [done|lia|].
      by apply cell_ok_alloc. }
    apply Forall_app; split; [done|]. apply Forall_cons; split; [|done].
    destruct (shape_lookup h1 h a (mkNode e (replicate lvl None)) Hshape) as ([e' nx] & Hx & He & Hln).
    { unfold h1. by apply list_lookup_middle. }
    cbn in *. subst e'. exists nx. rewrite length_replicate in Hln. cbn [ht addr ent]. split_and!; [done..|lia|lia].
  - intros i Hi. eapply tower_link; [by apply Hpath1|exact Hnd|exact Hfresh|]. intros y. rewrite Hnxt. cbn [ht addr].
    by destruct (decide (i < lvl)%nat); [rewrite decide_True by lia|rewrite decide_False by lia].
  - rewrite fmap_app in Hnd, Hfresh. rewrite fmap_app, fmap_cons. cbn [addr].
    rewrite <- Permutation_middle. rewrite Permutation_swap. by apply NoDup_cons.
  - rewrite fmap_app in Hs. rewrite fmap_app, fmap_cons. change (ckey (mkCell a e lvl)) with (ekey e).
    apply StronglySorted_app in Hs as (Hs0 & Hs1 & Hs2). rewrite Forall_forall in Hlo.
    apply StronglySorted_app. split_and!; [|done|constructor; [done|by apply Forall_fmap]].
    intros x1 x2 H1 [->|H2]%elem_of_cons; [|auto].
    apply list_elem_of_fmap in H1 as (c & -> & Hin). auto.
  - rewrite Hsz, i64_add_l. f_equal. rewrite !length_app. cbn. lia.
  - rewrite Hb, i64_add_l, !fmap_app, !fmap_cons, !cost_app. f_equal. rewrite !cost_cons. cbn [ent]. lia.
Qed.

(** Splitting the cells at a key, with the search positions for it. *)
Lemma rep_split s l (key : list byte) :
  rep s l -> exists lo hi, l = lo ++ hi /\
    Forall (fun c => blt (ckey c) key) lo /\ Forall (fun c => ble key (ckey c)) hi.
Proof. intros Hr. apply sorted_split, (rep_sorted _ _ Hr). Qed.

(** After the first cell of the upper half, keys are above the searched key. *)
Lemma rep_above s lo c hi key :
  rep s (lo ++ c :: hi) -> ble key (ckey c) -> Forall (fun c' => blt key (ckey c')) hi.
Proof.
  intros Hr Hk. pose proof (rep_sorted _ _ Hr) as Hs. rewrite fmap_app, fmap_cons in Hs.
  apply StronglySorted_app in Hs as (_ & _ & Hs). inversion Hs as [|? ? _ Hf]; subst.
  rewrite Forall_fmap in Hf. eapply Forall_impl; [exact Hf|]. intros c' Hc'.
  by eapply ble_blt_trans.
Qed.

Lemma rep_deref s lo c hi :
  rep s (lo ++ c :: hi) -> exists nx, heap s !! addr c = Some (mkNode (ent c) nx) /\
    deref (heap s) (addr c) = Ok (mkNode (ent c) nx).
Proof.
  intros Hr. pose proof (rep_cells _ _ Hr) as [_ [(nx & Hx & _) _]%Forall_cons]%Forall_app.
  exists nx. unfold deref. by rewrite Hx.
Qed.

Lemma upsert_cells lo hi e :
  Forall (fun c => blt (ckey c) (ekey e)) lo ->
  upsert e (ent <$> lo ++ hi) = (ent <$> lo) ++ upsert e (ent <$> hi).
Proof. intros H. rewrite fmap_app, upsert_app; [done|]. by apply Forall_fmap. Qed.

Lemma set_new s lo hi key value seq deleted x update :
  rep s (lo ++ hi) -> length update = maxLevel ->
  (forall j, (j < level s)%nat -> update !! j = Some (Some (lasta (head s) (addr <$> tower j lo)))) ->
  Forall (fun c => blt (ckey c) (bs key)) lo -> Forall (fun c => blt (bs key) (ckey c)) hi ->
  find_update (level s) (heap s) (bs key) (head s) (replicate maxLevel None) = Ok (x, update) ->
  x = lasta (head s) (addr <$> lo) ->
  exists s' c, set key value seq deleted s = Ok s' /\ rep s' (lo ++ c :: hi) /\
    ent c = mkEntry key value seq deleted.
Proof.
  intros Hr Hul Hup Hlo Hhi Hf ->. unfold set. rewrite Hf, outcome_bind_Ok. cbv beta iota.
  rewrite (rep_next0 _ _ _ Hr), outcome_bind_Ok.
  assert (match hd_error (addr <$> hi) with
    | None => Ok None
    | Some y => n ← deref (heap s) y;
        Ok (if compareKey (bs (Key (entry n))) (bs key) =? 0 then Some (y, n) else None)
    end = Ok (A := option (nat * node)) None) as ->.
  { destruct hi as [|c hi]; [done|]. cbn [fmap list_fmap hd_error].
    destruct (rep_deref _ _ _ _ Hr) as (nx & _ & ->). rewrite outcome_bind_Ok. cbn [entry].
    apply Forall_cons in Hhi as [Hk _]. apply compare_gt in Hk. unfold compareKey.
    unfold ckey, ekey in Hk. by zif. }
  rewrite outcome_bind_Ok. cbv beta iota.
  destruct (randomLevel_spec s) as (lvl & k & -> & Hlvl). cbn [heap level head size bytes rnd rpos].
  pose proof (rep_level _ _ Hr) as Hlv.
  destruct (raise_update_spec (lvl - level s) (level s) (head s) update) as (u & -> & Hu & Huj); [lia|].
  rewrite outcome_bind_Ok, !Clone_id.
  destruct (rep_insert s lo hi (mkEntry key value seq deleted) lvl u k) as (h & -> & Hr'); try done.
  { intros j Hj. rewrite Huj. destruct (decide (j < level s)%nat).
    - rewrite decide_False by lia. by apply Hup.
    - rewrite decide_True by lia. pose proof (rep_cells _ _ Hr) as [Hc _]%Forall_app.
      by rewrite (tower_high lo (heap s) (level s)) by (done || lia). }
  rewrite outcome_bind_Ok. eexists _, _. split_and!; [done|exact Hr'|done].
Qed.

(** The nodes of the list stay where they are, with their keys. *)
Definition place (c : cell) : nat * list byte := (addr c, ckey c).

Lemma set_cells s l key value seq deleted :
  rep s l ->
  exists s' l', set key value seq deleted s = Ok s' /\ rep s' l' /\
    ent <$> l' = upsert (mkEntry key value seq deleted) (ent <$> l) /\ place <$> l ⊆ place <$> l'.
Proof.
  intros Hr. destruct (rep_split s l (bs key) Hr) as (lo & hi & -> & Hlo & Hhi).
  destruct (find_update_spec s lo hi (bs key) Hr Hlo Hhi) as (update & Hf & Hul & Hup).
  assert (Hmid: forall c, place <$> lo ++ hi ⊆ place <$> lo ++ c :: hi).
  { intros c x. rewrite !fmap_app, fmap_cons, !elem_of_app, elem_of_cons. tauto. }
  rewrite upsert_cells by done.
  destruct hi as [|c hi].
  - destruct (set_new s lo [] key value seq deleted _ update Hr Hul Hup Hlo (Forall_nil_2 _) Hf eq_refl)
      as (s' & c & Hset & Hr' & Hc). exists s'. eexists. split_and!; [done|exact Hr'| |apply Hmid].
    rewrite fmap_app. cbn. by rewrite Hc.
  - apply Forall_cons in Hhi as [Hk Hhi]. pose proof (rep_above _ _ _ _ _ Hr Hk) as Habove.
    apply ble_alt in Hk as [Hk|Hk].
    + destruct (set_new s lo (c :: hi) key value seq deleted _ update Hr Hul Hup Hlo
        (Forall_cons_2 (fun c' => blt (bs key) (ckey c')) c hi Hk Habove) Hf eq_refl) as (s' & c' & Hset & Hr' & Hc). exists s'.
      eexists. split_and!; [done|exact Hr'| |apply Hmid]. rewrite fmap_app. cbn [fmap list_fmap upsert]. rewrite Hc.
      unfold blt, ckey, ekey in Hk. rewrite lex_antisym. unfold ekey. cbn [Key].
      by rewrite Hk.
    + unfold set. rewrite Hf, outcome_bind_Ok. cbv beta iota.
      rewrite (rep_next0 _ _ _ Hr), outcome_bind_Ok. cbn [fmap list_fmap hd_error].
      destruct (rep_deref _ _ _ _ Hr) as (nx & Hx & ->). rewrite outcome_bind_Ok. cbn [entry].
      unfold compareKey. rewrite (proj2 (compare_eq (bs (Key (ent c))) (bs key))) by done.
      change (0 =? 0) with true. cbn [Key]. rewrite outcome_bind_Ok. cbn [entry next upsert].
      rewrite (proj2 (lex_eq (ekey (ent c)) _)) by done. cbn [Seq Value Deleted].
      destruct (Z.leb_spec (Seq (ent c)) seq) as [Hs|Hs].
      * rewrite Clone_id. eexists. eexists. split_and!; [done| | |].
        -- apply (rep_replace s lo c hi (mkEntry (Key (ent c)) value seq deleted) nx Hr); done.
        -- by rewrite fmap_app.
        -- by rewrite !fmap_app.
      * eexists. eexists. split_and!; [done|exact Hr|by rewrite fmap_app|done].
Qed.

Lemma set_spec s es key value seq deleted :
  repr s es ->
  exists s', set key value seq deleted s = Ok s' /\
    repr s' (upsert (mkEntry key value seq deleted) es).
Proof.
  intros (l & Hr & ->). destruct (set_cells s l key value seq deleted Hr) as (s' & l' & Hs & Hr' & He & _).
  exists s'. split; [done|]. by exists l'.
Qed.

(** ** Queries *)

Lemma clone_entry_id e : clone_entry e = e.
Proof. unfold clone_entry. rewrite !Clone_id. by destruct e. Qed.

Definition lookup_entry (key : list byte) (es : list Entry) : option Entry :=
  List.find (fun e => bool_decide (ekey e = key)) es.

Lemma lookup_app_above key es es' :
  Forall (fun e => blt (ekey e) key) es -> lookup_entry key (es ++ es') = lookup_entry key es'.
Proof.
  unfold lookup_entry. induction 1 as [|e es He _ IH]; [done|]. cbn [app List.find].
  rewrite bool_decide_false; [done|]. intros Heq. rewrite Heq in He. by apply blt_irrefl in He.
Qed.

Lemma lookup_above key es : Forall (fun e => blt key (ekey e)) es -> lookup_entry key es = None.
Proof.
  unfold lookup_entry. induction 1 as [|e es He _ IH]; [done|]. cbn [List.find].
  rewrite bool_decide_false; [done|]. intros Heq. rewrite Heq in He. by apply blt_irrefl in He.
Qed.

Lemma lookup_upsert key e es :
  StronglySorted blt (ekey <$> es) ->
  lookup_entry key (upsert e es) =
    if decide (ekey e = key) then
      Some (match lookup_entry key es with
            | Some e0 => if Seq e0 <=? Seq e then mkEntry (Key e0) (Value e) (Seq e) (Deleted e) else e0
            | None => e
            end)
    else lookup_entry key es.
Proof.
  unfold lookup_entry. induction es as [|e0 es IH]; cbn [fmap list_fmap upsert List.find]; intros Hs.
  - case_decide; [by rewrite bool_decide_true|by rewrite bool_decide_false].
  - inversion Hs as [|? ? Hs' Hf]; subst. destruct (lex (ekey e0) (ekey e)) eqn:Hl; cbn [List.find].
    + apply lex_eq in Hl. rewrite <- Hl.
      replace (ekey (if Seq e0 <=? Seq e then mkEntry (Key e0) (Value e) (Seq e) (Deleted e) else e0))
        with (ekey e0) by (by destruct (Seq e0 <=? Seq e)).
      case_bool_decide; [by rewrite decide_True|by rewrite decide_False].
    + rewrite IH by done. case_bool_decide as Hk; [|done]. rewrite decide_False; [done|].
      intros He. rewrite Hk, He, lex_refl in Hl. done.
    + case_bool_decide as Hk; [|by rewrite decide_False].
      rewrite decide_True by done. case_bool_decide as Hk0.
      * rewrite Hk0, Hk, lex_refl in Hl. done.
      * change (Some e = Some (match lookup_entry key es with
          | Some e0 => if Seq e0 <=? Seq e then mkEntry (Key e0) (Value e) (Seq e) (Deleted e) else e0
          | None => e end)).
        rewrite lookup_above; [done|]. rewrite Forall_fmap in Hf. eapply Forall_impl; [exact Hf|].
        intros e' He'. cbn in He'. rewrite <- Hk. transitivity (ekey e0); [|done].
        unfold blt. by rewrite lex_antisym, Hl.
Qed.

Lemma repr_sorted s es : repr s es -> StronglySorted blt (ekey <$> es).
Proof. intros (l & Hr & ->). rewrite <- list_fmap_compose. apply (rep_sorted _ _ Hr). Qed.

Lemma repr_Len s es : repr s es -> Len s = i64 (len es).
Proof. intros (l & Hr & ->). unfold Len. by rewrite (rep_size _ _ Hr), length_fmap. Qed.

Lemma repr_Bytes_nil s : repr s [] -> Bytes s = 0.
Proof. intros (l & Hr & Hl). symmetry in Hl. apply fmap_nil_inv in Hl as ->. exact (rep_bytes _ _ Hr). Qed.

Lemma Get_spec s es key : repr s es -> Get key s = Ok (lookup_entry (bs key) es).
Proof.
  intros (l & Hr & ->). destruct (rep_split s l (bs key) Hr) as (lo & hi & -> & Hlo & Hhi).
  unfold Get. rewrite (find_spec s lo hi), outcome_bind_Ok by done.
  rewrite (rep_next0 _ _ _ Hr), outcome_bind_Ok.
  rewrite fmap_app, lookup_app_above by (by apply Forall_fmap).
  destruct hi as [|c hi]; [done|]. cbn [fmap list_fmap hd_error].
  destruct (rep_deref _ _ _ _ Hr) as (nx & _ & ->). rewrite outcome_bind_Ok. cbn [entry].
  apply Forall_cons in Hhi as [Hk _]. pose proof (rep_above _ _ _ _ _ Hr Hk) as Habove.
  unfold lookup_entry. cbn [List.find]. unfold compareKey, ekey at 1.
  rewrite clone_entry_id. case_bool_decide as Heq.
  - by rewrite (proj2 (compare_eq _ _) Heq).
  - rewrite (proj2 (Z.eqb_neq _ _)) by (by rewrite compare_eq). f_equal. symmetry.
    apply lookup_above. by apply Forall_fmap.
Qed.

(** A loop over entries that its body may stop. *)
Fixpoint fold_until {A} (fn : Entry -> A -> bool * A) (es : list Entry) (a : A) : A :=
  match es with
  | [] => a
  | e :: es => let (continue, a) := fn e a in if continue then fold_until fn es a else a
  end.

Lemma scan_spec {A} s lo hi (body : Entry -> A -> bool * A) fuel acc :
  rep s (lo ++ hi) -> (length hi <= fuel)%nat ->
  scan fuel (heap s) body (hd_error (addr <$> hi)) acc = Ok (fold_until body (ent <$> hi) acc).
Proof.
  revert lo fuel acc. induction hi as [|c hi IH]; intros lo fuel acc Hr Hf.
  - by destruct fuel.
  - destruct fuel as [|fuel]; [cbn in Hf; lia|]. cbn [fmap list_fmap hd_error scan fold_until].
    destruct (rep_deref _ _ _ _ Hr) as (nx & _ & ->). rewrite outcome_bind_Ok. cbn [entry].
    destruct (body (ent c) acc) as [[] acc']; [|done].
    change (c :: hi) with ([c] ++ hi) in Hr. rewrite app_assoc in Hr.
    pose proof (rep_next0 _ _ _ Hr) as Hn. rewrite fmap_app, lasta_app in Hn. cbn in Hn.
    rewrite Hn, outcome_bind_Ok. apply (IH (lo ++ [c])); [done|cbn in Hf; lia].
Qed.

Lemma scan_all {A} s l (body : Entry -> A -> bool * A) acc :
  rep s l ->
  (p ← load_next (heap s) (head s) 0; scan (length (heap s)) (heap s) body p acc) =
    Ok (fold_until body (ent <$> l) acc).
Proof.
  intros Hr. pose proof (rep_next0 s [] l Hr) as Hn. cbn [fmap list_fmap lasta] in Hn.
  rewrite Hn, outcome_bind_Ok. apply (scan_spec s [] l); [done|].
  pose proof (rep_length _ _ Hr). lia.
Qed.

Lemma Snapshot_repr s es : repr s es -> Snapshot s = Ok es.
Proof.
  intros (l & Hr & ->). unfold Snapshot. rewrite (scan_all s l) by done. f_equal.
  generalize (ent <$> l). clear. intros es.
  assert (forall out, fold_until (fun e out => (true, out ++ [clone_entry e])) es out = out ++ es) as H.
  { induction es as [|e es IH]; intros out; cbn [fold_until]; [by rewrite app_nil_r|].
    rewrite IH, clone_entry_id, <- app_assoc. done. }
  apply H.
Qed.

Lemma MaxSeq_repr s es : repr s es -> MaxSeq s = Ok (foldr (fun e m => Z.max (Seq e) m) 0 es).
Proof.
  intros (l & Hr & ->). unfold MaxSeq. rewrite (scan_all s l) by done. f_equal.
  generalize (ent <$> l). clear. intros es.
  assert (forall m, 0 <= m -> fold_until (fun e m => (true, if m <? Seq e then Seq e else m)) es m =
    Z.max m (foldr (fun e m => Z.max (Seq e) m) 0 es)) as H.
  { induction es as [|e es IH]; intros m Hm; cbn [fold_until foldr]; [lia|].
    rewrite IH; destruct (Z.ltb_spec m (Seq e)); lia. }
  rewrite H by lia. assert (0 <= foldr (fun e m => Z.max (Seq e) m) 0 es); [|lia].
  clear H. induction es; cbn [foldr]; lia.
Qed.

(** Ranges of entries. *)
Definition above (lo : slice) (e : Entry) : Prop := if lo is Some lo then ble lo (ekey e) else True.
Definition below (hi : slice) (e : Entry) : Prop := if hi is Some hi then blt (ekey e) hi else True.
#[export] Instance above_dec lo e : Decision (above lo e).
Proof. unfold above. destruct lo; apply _. Defined.
#[export] Instance below_dec hi e : Decision (below hi e).
Proof. unfold below. destruct hi; apply _. Defined.

Lemma fold_until_below {A} hi (fn : Entry -> A -> bool * A) es a :
  StronglySorted blt (ekey <$> es) ->
  fold_until (fun e a =>
      if (if hi is Some hi then 0 <=? compareKey (bs (Key e)) hi else false) then (false, a)
      else fn (clone_entry e) a) es a =
    fold_until fn (filter (below hi) es) a.
Proof.
  revert a. induction es as [|e es IH]; intros a Hs; [done|]. cbn in Hs.
  inversion Hs as [|? ? Hs' Hf]; subst. cbn [fold_until]. rewrite filter_cons, clone_entry_id.
  destruct (decide (below hi e)) as [Hb|Hb].
  - replace (if hi is Some hi then 0 <=? compareKey (bs (Key e)) hi else false) with false.
    2: { unfold below in Hb. destruct hi as [hi|]; [|done]. apply compare_lt in Hb.
         unfold compareKey. unfold ekey in Hb. symmetry. apply Z.leb_gt. lia. }
    cbn [fold_until]. destruct (fn e a) as [[] a']; [auto|done].
  - destruct hi as [hi|]; [|by destruct Hb]. cbn [below] in Hb. apply not_blt in Hb.
    rewrite (proj2 (Z.leb_le _ _)) by (by apply compare_ge).
    rewrite filter_none; [done|]. rewrite Forall_fmap in Hf. eapply Forall_impl; [exact Hf|].
    intros e' He' Hb'. cbn in He', Hb'. apply (blt_irrefl hi).
    eapply ble_blt_trans; [exact Hb|]. by transitivity (ekey e').
Qed.

Lemma filter_above lo (es es' : list Entry) :
  Forall (fun e => blt (ekey e) lo) es -> Forall (fun e => ble lo (ekey e)) es' ->
  filter (above (Some lo)) (es ++ es') = es'.
Proof.
  intros H1 H2. rewrite filter_app, filter_none, filter_all; [done|done|].
  eapply Forall_impl; [exact H1|]. intros e He. cbn. by rewrite not_ble.
Qed.

Lemma filter_above_None (es : list Entry) : filter (above None) es = es.
Proof. apply filter_all. by apply Forall_true. Qed.

(** ** Fresh lists *)

Lemma rep_empty h hd rnd k :
  h !! hd = Some (mkNode zero_Entry (replicate maxLevel None)) ->
  rep (mkSkipList h hd 1 0 0 rnd k) [].
Proof.
  intros Hh. constructor; cbn [heap head level size bytes]; try done.
  - by eexists.
  - unfold maxLevel. lia.
  - intros i Hi. cbn. unfold nxt. rewrite Hh. cbn [mbind option_bind next].
    by apply lookup_replicate_2.
  - cbn. apply NoDup_singleton.
  - constructor.
Qed.

Lemma repr_New rnd : repr (New rnd) [].
Proof. exists []. split; [by apply rep_empty|done]. Qed.

Lemma repr_Clear s : repr (Clear s) [].
Proof. exists []. split; [|done]. apply rep_empty. by apply list_lookup_middle. Qed.

(** ** Histories *)

Inductive op := OpPut (key value : slice) (seq : Z) | OpDelete (key : slice) (seq : Z) | OpClear.

Definition apply_op (o : op) (s : SkipList) : outcome SkipList :=
  match o with
  | OpPut key value seq => Put key value seq s
  | OpDelete key seq => Delete key seq s
  | OpClear => Ok (Clear s)
  end.

Fixpoint run (ops : list op) (s : SkipList) : outcome SkipList :=
  match ops with [] => Ok s | o :: ops => s ← apply_op o s; run ops s end.

(** The effect of an operation on the list of entries, and the writes of one
    key since the list was last cleared. *)
Definition op_entries (o : op) (es : list Entry) : list Entry :=
  match o with
  | OpPut key value seq => upsert (mkEntry key value seq false) es
  | OpDelete key seq => upsert (mkEntry key None seq true) es
  | OpClear => []
  end.

Definition op_writes (key : list byte) (ws : list Entry) (o : op) : list Entry :=
  match o with
  | OpPut k v seq => if decide (bs k = key) then ws ++ [mkEntry k v seq false] else ws
  | OpDelete k seq => if decide (bs k = key) then ws ++ [mkEntry k None seq true] else ws
  | OpClear => []
  end.
Definition writes (key : list byte) (ops : list op) : list Entry := fold_left (op_writes key) ops [].

(** [e] is the write that wins: no other write has a higher sequence number and
    no later one an equal one. *)
Definition newest_of (key : list byte) (ws : list Entry) (r : option Entry) : Prop :=
  match r with
  | None => ws = []
  | Some e =>
      ekey e = key /\
      exists pre w post, ws = pre ++ w :: post /\
        Forall (fun w' => Seq w' <= Seq w) pre /\ Forall (fun w' => Seq w' < Seq w) post /\
        Value e = Value w /\ Seq e = Seq w /\ Deleted e = Deleted w
  end.

Lemma newest_upsert key es ws e :
  StronglySorted blt (ekey <$> es) ->
  newest_of key ws (lookup_entry key es) ->
  newest_of key (if decide (ekey e = key) then ws ++ [e] else ws) (lookup_entry key (upsert e es)).
Proof.
  intros Hs Hn. rewrite lookup_upsert by done. destruct (decide (ekey e = key)) as [Hk|]; [|done].
  destruct (lookup_entry key es) as [e0|]; cbn [newest_of] in *.
  - destruct Hn as (Hk0 & pre & w & post & -> & Hpre & Hpost & Hv & Hseq & Hd).
    destruct (Z.leb_spec (Seq e0) (Seq e)) as [Hle|Hlt].
    + split; [done|]. exists (pre ++ w :: post), e, []. split_and!; try done.
      apply Forall_app; split; [|apply Forall_cons; split; [lia|]].
      * eapply Forall_impl; [exact Hpre|]. cbn. intros. lia.
      * eapply Forall_impl; [exact Hpost|]. cbn. intros. lia.
    + split; [done|]. exists pre, w, (post ++ [e]). rewrite <- app_assoc.
      split_and!; try done. apply Forall_app. split; [done|]. apply Forall_singleton. lia.
  - subst ws. split; [done|]. exists [], e, []. by split_and!.
Qed.

Lemma upsert_sorted e es :
  StronglySorted blt (ekey <$> es) -> StronglySorted blt (ekey <$> upsert e es).
Proof.
  assert (Hcons: forall e es, StronglySorted blt (ekey <$> e :: es) <->
    StronglySorted blt (ekey <$> es) /\ Forall (fun e' => blt (ekey e) (ekey e')) es).
  { clear. intros e es. rewrite fmap_cons. split.
    - intros H. inversion H as [|? ? H1 H2]; subst. split; [done|]. by rewrite Forall_fmap in H2.
    - intros [H1 H2]. constructor; [done|]. by rewrite Forall_fmap. }
  induction es as [|e0 es IH]; intros Hs; cbn [upsert].
  - constructor; [constructor|constructor].
  - pose proof (proj1 (Hcons _ _) Hs) as [Hs' Hf]. destruct (lex (ekey e0) (ekey e)) eqn:Hl.
    + apply Hcons. split; [done|]. destruct (Seq e0 <=? Seq e); exact Hf.
    + apply Hcons. split; [by apply IH|]. clear IH. induction es as [|e1 es IH2]; cbn [upsert].
      * by apply Forall_singleton.
      * apply Forall_cons in Hf as [Hf1 Hf2]. destruct (lex (ekey e1) (ekey e)).
        -- apply Forall_cons. split; [|done]. by destruct (Seq e1 <=? Seq e).
        -- apply Forall_cons. split; [done|]. apply Hcons in Hs' as [Hs' _].
           apply IH2; [by apply Hcons|done..].
        -- by repeat (apply Forall_cons; split).
    + apply Hcons. split; [done|]. assert (blt (ekey e) (ekey e0)) as He
        by (unfold blt; by rewrite lex_antisym, Hl).
      apply Forall_cons. split; [done|]. eapply Forall_impl; [exact Hf|]. intros e' He'. cbn in He'.
      by transitivity (ekey e0).
Qed.

Lemma apply_op_spec o s es :
  repr s es -> exists s', apply_op o s = Ok s' /\ repr s' (op_entries o es).
Proof.
  intros Hr. destruct o as [key value seq|key seq|]; cbn [apply_op op_entries].
  - by apply set_spec.
  - by apply set_spec.
  - eexists. split; [done|]. apply repr_Clear.
Qed.

Lemma op_entries_newest o key es ws :
  StronglySorted blt (ekey <$> es) -> newest_of key ws (lookup_entry key es) ->
  newest_of key (op_writes key ws o) (lookup_entry key (op_entries o es)).
Proof.
  intros Hs Hn. destruct o as [k v seq|k seq|]; cbn [op_writes op_entries]; [| |done].
  - by apply (newest_upsert key es ws (mkEntry k v seq false)).
  - by apply (newest_upsert key es ws (mkEntry k None seq true)).
Qed.

Lemma op_entries_sorted o es :
  StronglySorted blt (ekey <$> es) -> StronglySorted blt (ekey <$> op_entries o es).
Proof.
  intros Hs. destruct o; cbn [op_entries]; [by apply upsert_sorted..|constructor].
Qed.

(** Every history runs, to the list of entries of the abstract operations. *)
Lemma run_spec ops s es :
  repr s es ->
  exists s', run ops s = Ok s' /\ repr s' (fold_left (fun es o => op_entries o es) ops es).
Proof.
  revert s es. induction ops as [|o ops IH]; intros s es Hr; cbn [run fold_left]; [eauto|].
  destruct (apply_op_spec o s es Hr) as (s' & -> & Hr'). rewrite outcome_bind_Ok. by apply IH.
Qed.

Lemma history_newest ops key es ws :
  StronglySorted blt (ekey <$> es) -> newest_of key ws (lookup_entry key es) ->
  newest_of key (fold_left (op_writes key) ops ws)
    (lookup_entry key (fold_left (fun es o => op_entries o es) ops es)).
Proof.
  revert es ws. induction ops as [|o ops IH]; intros es ws Hs Hn; cbn [fold_left]; [done|].
  apply IH; [by apply op_entries_sorted|by apply op_entries_newest].
Qed.

(** * What the memtable promises *)

(** C11: [set], on a skip list that stands for a sorted list of entries,
    succeeds whatever levels the generator draws, and the result stands for the
    same list with the entry inserted, or replaced when the sequence number is
    not below the one stored. *)
Theorem set_refines_upsert s es key value seq deleted (Hr : repr s es) :
  exists s', set key value seq deleted s = Ok s' /\
    repr s' (upsert (mkEntry key value seq deleted) es).
Proof. by apply set_spec. Qed.

(** A list with three keys, one deleted. *)
Definition example_ops : list op :=
  [OpPut (Some [x62]) (Some [x01]) 1; OpPut (Some [x61]) None 2; OpDelete (Some [x62]) 3;
   OpPut (Some [x63; x00]) (Some [x02]) 4].
Definition example : SkipList :=
  match run example_ops (New (fun i => Z.of_nat i)) with Ok s => s | _ => New (fun _ => 0) end.
Definition example_entries : list Entry :=
  [mkEntry (Some [x61]) None 2 false; mkEntry (Some [x62]) None 3 true;
   mkEntry (Some [x63; x00]) (Some [x02]) 4 false].

Lemma repr_example : repr example example_entries.
Proof.
  destruct (run_spec example_ops (New (fun i => Z.of_nat i)) [] (repr_New _)) as (s & Hs & Hr).
  unfold example. by rewrite Hs.
Qed.

Lemma set_refines_upsert_witness :
  repr example example_entries /\
  exists s', set (Some [x62]) (Some [x01]) 7 false example = Ok s' /\
    repr s' (upsert (mkEntry (Some [x62]) (Some [x01]) 7 false) example_entries).
Proof.
  split; [exact repr_example|].
  exact (set_refines_upsert example example_entries (Some [x62]) (Some [x01]) 7 false repr_example).
Defined.

(** C17: after any sequence of puts, deletes and clears every operation has
    succeeded, and [Get] returns nothing for a key not written since the last
    clear, and otherwise the write of the key with the highest sequence number,
    the latest of them when several share it. *)
Theorem Get_returns_newest rnd ops key :
  exists s r, run ops (New rnd) = Ok s /\ Get key s = Ok r /\
    newest_of (bs key) (writes (bs key) ops) r.
Proof.
  destruct (run_spec ops (New rnd) [] (repr_New rnd)) as (s & Hs & Hr).
  exists s. eexists. split_and!; [done|by apply Get_spec|].
  apply history_newest; [constructor|done].
Qed.

(** C35: after any history, [Snapshot] lists one entry per written key in
    strictly ascending key order, each the one [Get] returns; [Len] and [Bytes]
    are its length and weight in 64-bit arithmetic, and [MaxSeq] is the highest
    sequence number in it. *)
Theorem Snapshot_is_contents rnd ops :
  exists s es, run ops (New rnd) = Ok s /\ Snapshot s = Ok es /\
    StronglySorted blt (ekey <$> es) /\
    (forall key, Get key s = Ok (lookup_entry (bs key) es)) /\
    Len s = i64 (len es) /\ Bytes s = i64 (cost es) /\
    MaxSeq s = Ok (foldr (fun e m => Z.max (Seq e) m) 0 es).
Proof.
  destruct (run_spec ops (New rnd) [] (repr_New rnd)) as (s & Hs & Hr).
  exists s. eexists. split_and!; [done|by apply Snapshot_repr| | | | |by apply MaxSeq_repr].
  - by apply (repr_sorted s).
  - intros key. by apply Get_spec.
  - by apply repr_Len.
  - destruct Hr as (l & Hr & ->). apply (rep_bytes _ _ Hr).
Qed.

(** C40: [AscendRange] calls its function on exactly the entries with keys in
    the half-open range, in key order, until the function stops it; a nil bound
    is no bound. *)
Theorem AscendRange_range {A} s es lo hi (fn : Entry -> A -> bool * A) a (Hr : repr s es) :
  AscendRange lo hi fn s a =
    Ok (fold_until fn (filter (below hi) (filter (above lo) es)) a).
Proof.
  pose proof (repr_sorted _ _ Hr) as Hs. destruct Hr as (l & Hr & ->). unfold AscendRange.
  destruct lo as [lo|].
  - destruct (rep_split s l lo Hr) as (l1 & l2 & -> & H1 & H2).
    rewrite (find_spec s l1 l2), outcome_bind_Ok by done.
    rewrite (rep_next0 _ _ _ Hr), outcome_bind_Ok.
    pose proof (rep_length _ _ Hr) as Hlen. rewrite length_app in Hlen.
    rewrite (scan_spec s l1 l2) by (done || lia). rewrite fmap_app in *.
    rewrite (filter_above lo) by (by apply Forall_fmap). f_equal. apply fold_until_below.
    rewrite fmap_app in Hs. by apply StronglySorted_app in Hs as (_ & _ & ?).
  - rewrite outcome_bind_Ok, (scan_all s l), filter_above_None by done. f_equal.
    by apply fold_until_below.
Qed.

Lemma AscendRange_range_witness :
  let fn := fun (e : Entry) (out : list slice) => (true, out ++ [Key e]) in
  repr example example_entries /\
  AscendRange (Some [x61; x00]) (Some [x63]) fn example [] = Ok [Some [x62]].
Proof.
  split; [exact repr_example|].
  rewrite (AscendRange_range example example_entries _ _ _ _ repr_example). reflexivity.
Defined.

(** The loop [for it.Seek(target); it.Valid(); it.Next()] collecting entries. *)
Fixpoint collect (fuel : nat) (s : SkipList) (it : Iterator.Iterator) : outcome (list Entry) :=
  if Iterator.Valid it then
    match fuel with
    | O => Stuck
    | S fuel =>
        e ← Iterator.Entry s it;
        it ← Iterator.Next s it;
        es ← collect fuel s it;
        Ok (e :: es)
    end
  else Ok [].

Lemma collect_spec s lo hi fuel :
  rep s (lo ++ hi) -> (length hi <= fuel)%nat ->
  collect fuel s (Iterator.mkIterator (hd_error (addr <$> hi))) = Ok (ent <$> hi).
Proof.
  revert lo fuel. induction hi as [|c hi IH]; intros lo fuel Hr Hf.
  - by destruct fuel.
  - destruct fuel as [|fuel]; [cbn in Hf; lia|]. cbn [fmap list_fmap hd_error].
    cbn [collect Iterator.Valid Iterator.cur]. unfold Iterator.Entry, Iterator.current, Iterator.Next.
    cbn [Iterator.cur]. destruct (rep_deref _ _ _ _ Hr) as (nx & _ & ->).
    rewrite !outcome_bind_Ok. cbn [entry]. change (c :: hi) with ([c] ++ hi) in Hr.
    rewrite app_assoc in Hr. pose proof (rep_next0 _ _ _ Hr) as Hn.
    rewrite fmap_app, lasta_app in Hn. cbn in Hn. rewrite Hn, !outcome_bind_Ok.
    unfold collect in IH. rewrite (IH (lo ++ [c])) by (done || (cbn in Hf; lia)).
    by rewrite outcome_bind_Ok, clone_entry_id.
Qed.

(** an iterator positioned by [Seek] and advanced by [Next] yields exactly
    the entries with keys not below the target, in order, and then becomes
    invalid; the loop ends after at most one step per entry. *)
Theorem Iterator_Seek_enumerates s es it target fuel (Hr : repr s es) (Hf : (length es <= fuel)%nat) :
  (it ← Iterator.Seek target s it; collect fuel s it) = Ok (filter (above (Some (bs target))) es).
Proof.
  destruct Hr as (l & Hr & ->). rewrite length_fmap in Hf.
  destruct (rep_split s l (bs target) Hr) as (lo & hi & -> & Hlo & Hhi).
  unfold Iterator.Seek. rewrite (find_spec s lo hi), outcome_bind_Ok by done.
  rewrite (rep_next0 _ _ _ Hr), !outcome_bind_Ok. rewrite length_app in Hf.
  rewrite (collect_spec s lo hi) by (done || lia). rewrite fmap_app, filter_above; [done|..];
    by apply Forall_fmap.
Qed.

Lemma Iterator_Seek_enumerates_witness :
  repr example example_entries /\ (length example_entries <= 3)%nat /\
  (it ← Iterator.Seek (Some [x62]) example (Iterator.NewIterator example); collect 3 example it) =
    Ok (filter (above (Some [x62])) example_entries).
Proof.
  split; [exact repr_example|]. split; [cbn; lia|].
  apply (Iterator_Seek_enumerates example example_entries _ (Some [x62]) 3 repr_example). cbn. lia.
Defined.
