(* ===== verification/SkipListIter.v ===== *)
(** * SkipListIter: iterators over a memtable that is written to

    An Iterator of memtable/skiplist.go takes the lock for one step at a time
    and keeps a pointer to its current node, so puts and deletions may come
    between any two of its steps.  What it then sees. *)

From Stdlib Require Import ZArith Lia Strings.Byte.
From stdpp Require Import base decidable list sorting.
From S2P Require Import Prelude ByteUtil SkipList.
#[local] Open Scope Z_scope.

(** ** Interleavings *)

(** What happens next: the loop that iterates looks at the current entry and
    calls [Next], or another goroutine puts or deletes a key. *)
Inductive turn := TNext | TPut (key value : slice) (seq : Z) | TDelete (key : slice) (seq : Z).

(** The entries that the iterating loop has seen, the list and the iterator
    afterwards.  Beyond its last entry the loop has ended. *)
Fixpoint interleave (ts : list turn) (s : SkipList) (it : Iterator.Iterator) :
    outcome (list Entry * SkipList * Iterator.Iterator) :=
  match ts with
  | [] => Ok ([], s, it)
  | TNext :: ts =>
      if Iterator.Valid it then
        e ← Iterator.Entry s it;
        it ← Iterator.Next s it;
        r ← interleave ts s it;
        let '(seen, s, it) := r : list Entry * SkipList * Iterator.Iterator in
        Ok (e :: seen, s, it)
      else interleave ts s it
  | TPut key value seq :: ts => s ← Put key value seq s; interleave ts s it
  | TDelete key seq :: ts => s ← Delete key seq s; interleave ts s it
  end.

(** The contents after the writes among [ts]. *)
Definition turn_entries (es : list Entry) (t : turn) : list Entry :=
  match t with
  | TNext => es
  | TPut key value seq => upsert (mkEntry key value seq false) es
  | TDelete key seq => upsert (mkEntry key None seq true) es
  end.
Definition contents_after (ts : list turn) (es : list Entry) : list Entry := fold_left turn_entries ts es.

(** [e] was in the list at one of the iterator's steps. *)
Definition present (ts : list turn) (es : list Entry) (e : Entry) : Prop :=
  exists ts1 ts2, ts = ts1 ++ TNext :: ts2 /\ e ∈ contents_after ts1 es.

Lemma present_later t ts es e : present ts (turn_entries es t) e -> present (t :: ts) es e.
Proof. intros (ts1 & ts2 & -> & He). by exists (t :: ts1), ts2. Qed.

(** ** The iterator's node *)

Lemma ended ts : forall s l it, rep s l -> Iterator.cur it = None ->
  exists s' l', interleave ts s it = Ok ([], s', it) /\ rep s' l' /\ ent <$> l' = contents_after ts (ent <$> l).
Proof.
  induction ts as [|t ts IH]; intros s l it Hr Hit; [by exists s, l|]. unfold contents_after. cbn [fold_left].
  destruct t as [|key value seq|key seq]; cbn [interleave turn_entries].
  - unfold Iterator.Valid. rewrite Hit. by apply IH.
  - destruct (set_cells s l key value seq false Hr) as (s1 & l1 & Hs & Hr1 & He & _). unfold Put.
    rewrite Hs, outcome_bind_Ok, <- He. by apply IH.
  - destruct (set_cells s l key None seq true Hr) as (s1 & l1 & Hs & Hr1 & He & _). unfold Delete.
    rewrite Hs, outcome_bind_Ok, <- He. by apply IH.
Qed.

(** What [interleave] gives from an iterator at a node with key [k]. *)
Definition goes (ts : list turn) (s : SkipList) (l : list cell) (it : Iterator.Iterator) (k : list byte) : Prop :=
  exists seen s' l' it', interleave ts s it = Ok (seen, s', it') /\ rep s' l' /\
    ent <$> l' = contents_after ts (ent <$> l) /\
    StronglySorted blt (ekey <$> seen) /\ Forall (fun e => ble k (ekey e)) seen /\
    Forall (present ts (ent <$> l)) seen /\
    (Iterator.Valid it' = false -> forall c, c ∈ l -> ble k (ckey c) -> ckey c ∈ ekey <$> seen).

(** A write leaves the nodes where they are. *)
Lemma place_kept (l l1 : list cell) c : place <$> l ⊆ place <$> l1 -> c ∈ l ->
  exists c1, c1 ∈ l1 /\ addr c1 = addr c /\ ckey c1 = ckey c.
Proof.
  intros Hp Hin. assert (place c ∈ place <$> l1) as (c1 & [= Ha Hk] & Hin1)%list_elem_of_fmap.
  { apply Hp. by apply list_elem_of_fmap_2. }
  by exists c1.
Qed.

Lemma goes_write ts s l s1 l1 t it k :
  ent <$> l1 = turn_entries (ent <$> l) t -> place <$> l ⊆ place <$> l1 ->
  interleave (t :: ts) s it = interleave ts s1 it -> goes ts s1 l1 it k -> goes (t :: ts) s l it k.
Proof.
  intros He Hp Hi (seen & s' & l' & it' & Hrun & Hr & Hc & Hs & Hk & Hpr & Hall).
  exists seen, s', l', it'. rewrite Hi. split_and!; try done.
  - by rewrite Hc, He.
  - rewrite He in Hpr. eapply Forall_impl; [exact Hpr|]. intros e. apply present_later.
  - intros Hv c Hin Hkc. destruct (place_kept _ _ _ Hp Hin) as (c1 & Hin1 & _ & Hk1). rewrite <- Hk1 in *. by apply Hall.
Qed.

(** The iterator's step to the next node. *)
Lemma goes_next ts s lo c hi :
  rep s (lo ++ c :: hi) ->
  (forall c', c' ∈ hi -> goes ts s (lo ++ c :: hi) (Iterator.mkIterator (Some (addr c'))) (ckey c')) ->
  goes (TNext :: ts) s (lo ++ c :: hi) (Iterator.mkIterator (Some (addr c))) (ckey c).
Proof.
  intros Hr IH. destruct (rep_deref _ _ _ _ Hr) as (nx & _ & Hd).
  pose proof Hr as Hn. change (c :: hi) with ([c] ++ hi) in Hn. rewrite app_assoc in Hn.
  apply rep_next0 in Hn. rewrite fmap_app, lasta_app in Hn. cbn in Hn.
  pose proof (rep_sorted _ _ Hr) as Hs. rewrite fmap_app, fmap_cons in Hs.
  apply StronglySorted_app in Hs as (Hlo & _ & Hs). inversion Hs as [|? ? Hs' Hf]; subst.
  assert (Hup: forall c', c' ∈ lo ++ c :: hi -> ble (ckey c) (ckey c') -> c' = c \/ c' ∈ hi).
  { intros c' [Hin|[->|Hin]%elem_of_cons]%elem_of_app Hb; [|by left|by right]. apply not_blt in Hb. destruct Hb.
    apply Hlo; [by apply list_elem_of_fmap_2|by left]. }
  assert (Hnow: present (TNext :: ts) (ent <$> lo ++ c :: hi) (ent c)).
  { exists [], ts. split; [done|]. cbn. apply list_elem_of_fmap_2, elem_of_app. right. by left. }
  unfold goes. cbn [interleave Iterator.Valid Iterator.cur]. unfold Iterator.Entry, Iterator.current, Iterator.Next.
  cbn [Iterator.cur]. rewrite Hd, !outcome_bind_Ok, clone_entry_id, Hn, !outcome_bind_Ok. cbn [entry].
  destruct hi as [|c' hi]; cbn [fmap list_fmap hd_error].
  - destruct (ended ts s _ (Iterator.mkIterator None) Hr eq_refl) as (s' & l' & -> & Hr' & He).
    rewrite outcome_bind_Ok. exists [ent c], s', l', (Iterator.mkIterator None). split_and!.
    1-3: done.
    + by repeat constructor.
    + constructor; [|done]. apply ble_alt. by right.
    + by constructor.
    + intros _ c' Hin Hb. destruct (Hup c' Hin Hb) as [->|Hin']; [by left|by apply elem_of_nil in Hin'].
  - destruct (IH c' ltac:(by left)) as (seen & s' & l' & it' & -> & Hr' & He & Hsort & Hk & Hpr & Hall).
    rewrite outcome_bind_Ok. apply Forall_cons in Hf as [Hcc Hf]. exists (ent c :: seen), s', l', it'. split_and!.
    1-3: done.
    + constructor; [done|]. apply Forall_fmap. eapply Forall_impl; [exact Hk|]. intros e Hb. by eapply blt_ble_trans.
    + constructor; [apply ble_alt; by right|]. eapply Forall_impl; [exact Hk|]. intros e Hb. apply ble_alt. left. by eapply blt_ble_trans.
    + constructor; [done|]. eapply Forall_impl; [exact Hpr|]. intros e. apply (present_later TNext).
    + intros Hv c'' Hin Hb. cbn [fmap list_fmap]. destruct (Hup c'' Hin Hb) as [->|Hin']; [by left|]. right. apply Hall; [done..|].
      apply elem_of_cons in Hin' as [->|Hin']; [apply ble_alt; by right|]. apply ble_alt. left.
      inversion Hs' as [|? ? _ Hf']; subst. rewrite Forall_forall in Hf'. apply Hf'. by apply list_elem_of_fmap_2.
Qed.

Lemma interleave_spec ts : forall s l c, rep s l -> c ∈ l ->
  goes ts s l (Iterator.mkIterator (Some (addr c))) (ckey c).
Proof.
  induction ts as [|t ts IH]; intros s l c Hr Hin.
  - exists [], s, l, (Iterator.mkIterator (Some (addr c))). split_and!; try done; constructor.
  - assert (Hwrite: forall key value seq deleted, turn_entries (ent <$> l) t = upsert (mkEntry key value seq deleted) (ent <$> l) ->
      (forall it, interleave (t :: ts) s it = s ← set key value seq deleted s; interleave ts s it) ->
      goes (t :: ts) s l (Iterator.mkIterator (Some (addr c))) (ckey c)).
    { intros key value seq deleted Ht Hi. destruct (set_cells s l key value seq deleted Hr) as (s1 & l1 & Hs & Hr1 & He & Hp).
      destruct (place_kept l l1 c Hp Hin) as (c1 & Hin1 & Ha & Hk). rewrite <- Ha, <- Hk.
      apply (goes_write ts s l s1 l1); [by rewrite Ht|done| |by apply IH]. by rewrite Hi, Hs, outcome_bind_Ok. }
    destruct t as [|key value seq|key seq]; [|by apply (Hwrite key value seq false)|by apply (Hwrite key None seq true)].
    apply list_elem_of_split in Hin as (lo & hi & ->). apply goes_next; [done|].
    intros c' Hin. apply IH; [done|]. apply elem_of_app. right. by right.
Qed.

(** * Theorem *)

(** C25: An iterator of the memtable is weakly consistent.  Position it with [Seek]
    and let puts and deletions come between its steps in any way: no step
    panics, the writes have the effect they have without it, and the keys that
    the loop sees ascend strictly from the target on.  Each entry it sees was in
    the list at the moment of a step; and when the iterator has come to its end,
    every key not below the target that was there at the start was seen. *)
Theorem Iterator_weakly_consistent s es target ts it0 (Hr : repr s es) :
  exists it seen s' it', Iterator.Seek target s it0 = Ok it /\ interleave ts s it = Ok (seen, s', it') /\
    repr s' (contents_after ts es) /\
    StronglySorted blt (ekey <$> seen) /\ Forall (fun e => ble (bs target) (ekey e)) seen /\
    Forall (present ts es) seen /\
    (Iterator.Valid it' = false -> forall e, e ∈ es -> ble (bs target) (ekey e) -> ekey e ∈ ekey <$> seen).
Proof.
  destruct Hr as (l & Hr & ->). destruct (rep_split s l (bs target) Hr) as (lo & hi & -> & Hlo & Hhi).
  exists (Iterator.mkIterator (hd_error (addr <$> hi))). unfold Iterator.Seek.
  rewrite (find_spec s lo hi), outcome_bind_Ok, (rep_next0 _ _ _ Hr), outcome_bind_Ok by done.
  assert (Hin: forall e, e ∈ ent <$> lo ++ hi -> ble (bs target) (ekey e) -> exists c, c ∈ hi /\ e = ent c).
  { intros e (c & -> & [Hin|Hin]%elem_of_app)%list_elem_of_fmap Hb; [|by exists c]. exfalso.
    rewrite Forall_forall in Hlo. apply not_blt in Hb. by destruct (Hb (Hlo c Hin)). }
  destruct hi as [|c hi]; cbn [fmap list_fmap hd_error].
  - destruct (ended ts s _ (Iterator.mkIterator None) Hr eq_refl) as (s' & l' & Hi & Hr' & He).
    exists [], s', (Iterator.mkIterator None). split_and!; try done; [by exists l'|constructor|].
    intros _ e He' Hb. destruct (Hin e He' Hb) as (c & Hc & _). by apply elem_of_nil in Hc.
  - apply Forall_cons in Hhi as [Hc Hhi]. pose proof (rep_above _ _ _ _ _ Hr Hc) as Habove.
    destruct (interleave_spec ts s _ c Hr) as (seen & s' & l' & it' & Hi & Hr' & He & Hs & Hk & Hpr & Hall); [apply elem_of_app; right; by left|].
    exists seen, s', it'. split_and!; try done; [by exists l'| |].
    + eapply Forall_impl; [exact Hk|]. intros e Hb. by etransitivity.
    + intros Hv e He' Hb. destruct (Hin e He' Hb) as (c' & Hc' & ->). apply Hall; [done|by apply elem_of_app; right|].
      apply elem_of_cons in Hc' as [->|Hc']; [apply ble_alt; by right|].
      pose proof (rep_above _ _ _ _ (ckey c) Hr ltac:(apply ble_alt; by right)) as Hf. rewrite Forall_forall in Hf. apply ble_alt. left. by apply Hf.
Qed.

(** A put behind the iterator, one in front of it, and a deletion of the key it
    is at. *)
Definition demo_turns : list turn :=
  [TNext; TPut (Some [x61; x61]) None 8; TDelete (Some [x62]) 9; TNext; TPut (Some [x64]) None 10; TNext; TNext; TNext].

Lemma Iterator_weakly_consistent_witness :
  repr example example_entries /\
  exists it seen s' it', Iterator.Seek (Some [x61]) example (Iterator.NewIterator example) = Ok it /\
    interleave demo_turns example it = Ok (seen, s', it') /\ repr s' (contents_after demo_turns example_entries) /\
    StronglySorted blt (ekey <$> seen).
Proof.
  split; [exact repr_example|].
  destruct (Iterator_weakly_consistent example example_entries (Some [x61]) demo_turns (Iterator.NewIterator example) repr_example)
    as (it & seen & s' & it' & H1 & H2 & H3 & H4 & _).
  exists it, seen, s', it'. split; [exact H1|]. split; [exact H2|]. split; [exact H3|exact H4].
Defined.

Example demo_seen : exists it r, Iterator.Seek (Some [x61]) example (Iterator.NewIterator example) = Ok it /\
  interleave demo_turns example it = Ok r /\ map Key (fst (fst r)) = [Some [x61]; Some [x62]; Some [x63; x00]; Some [x64]].
Proof. do 2 eexists. split; [by vm_compute|]. split; [by vm_compute|done]. Qed.
