(* ===== verification/Os.v ===== *)
(** * Os: the part of package os the library uses

    A world of named files, open files and scheduled failures.  Files are
    inodes, so that an open file survives a rename or removal of its name, and
    every call can be made to fail ([faults]); a failing write may still have
    written a prefix of its data.  Paths are compared as strings and
    directories are not modelled: [MkdirAll] has no effect. *)

From Stdlib Require Import ZArith Lia Strings.Byte.
From stdpp Require Import base decidable list gmap strings numbers.
From S2P Require Import Prelude.
#[local] Open Scope Z_scope.

(** An open file: its inode and its offset. *)
Record fd := mkFd { ino : nat; pos : Z; is_open : bool }.

(** [faults] says how the next calls go: [None] succeeds, [Some k] fails after
    [k] bytes; calls beyond its end succeed. *)
Record World := mkWorld {
  names : gmap string nat;
  inodes : list (list byte);
  fds : list fd;
  faults : list (option nat)
}.

Definition empty_world : World := mkWorld ∅ [] [] [].

Definition set_names (n : gmap string nat) (w : World) : World := mkWorld n (inodes w) (fds w) (faults w).
Definition set_inodes (i : list (list byte)) (w : World) : World := mkWorld (names w) i (fds w) (faults w).
Definition set_fds (f : list fd) (w : World) : World := mkWorld (names w) (inodes w) f (faults w).
Definition set_faults (f : list (option nat)) (w : World) : World := mkWorld (names w) (inodes w) (fds w) f.

Definition ErrClosed : error := errors_New "file already closed".
Definition EINVAL : error := errors_New "invalid argument".

Definition io_error : error := os_error ErrIO.

(** The next scheduled outcome. *)
Definition next_fault : M World (option nat) := fun w =>
  match faults w with
  | [] => (Ok None, w)
  | f :: fs => (Ok f, set_faults fs w)
  end.

(** A call that has no effect when it fails. *)
Definition syscall {A} (m : M World A) : M World A :=
  f ← next_fault;
  match f with Some _ => throw io_error | None => m end.

(** An open file and its contents; using a closed one is an error. *)
Definition open_fd (f : nat) : M World fd := fun w =>
  match fds w !! f with
  | Some d => if is_open d then (Ok d, w) else (Err ErrClosed, w)
  | None => (Err ErrClosed, w)
  end.
Definition content (i : nat) (w : World) : list byte := default [] (inodes w !! i).

Definition set_pos (f : nat) (d : fd) (p : Z) : M World unit :=
  modify (fun w => set_fds (<[f := mkFd (ino d) p (is_open d)]> (fds w)) w).
Definition set_content (i : nat) (c : list byte) : M World unit :=
  modify (fun w => set_inodes (<[i := c]> (inodes w)) w).

(** Contents after writing [b] at offset [p]: a gap is filled with zeros, but
    not for writing nothing. *)
Definition write_at (c : list byte) (p : nat) (b : list byte) : list byte :=
  match b with
  | [] => c
  | _ => take p (c ++ replicate (p - length c) x00) ++ b ++ drop (p + length b) c
  end.

(** ** Methods of os.File *)

(** f.Write(b): on success the count is [len b]; a failing write has written a
    prefix of [b]. *)
Definition File_Write (f : nat) (b : list byte) : M World Z :=
  d ← open_fd f;
  fault ← next_fault;
  let b' := match fault with None => b | Some k => take k b end in
  c ← gets (content (ino d));
  set_content (ino d) (write_at c (Z.to_nat (pos d)) b');;
  set_pos f d (pos d + len b');;
  match fault with None => mret (len b) | Some _ => throw io_error end.

(** f.ReadAt(buf, off) with len(buf) = n: all of [n] bytes or an error. *)
Definition File_ReadAt (f : nat) (n off : Z) : M World (list byte) :=
  d ← open_fd f;
  syscall (if off <? 0 then throw EINVAL else
    c ← gets (content (ino d));
    let b := take (Z.to_nat n) (drop (Z.to_nat off) c) in
    if len b <? n then throw io_EOF else mret b).

Inductive whence := SeekStart | SeekCurrent | SeekEnd.

Definition File_Seek (f : nat) (off : Z) (wh : whence) : M World Z :=
  d ← open_fd f;
  syscall (
    c ← gets (content (ino d));
    let p := match wh with SeekStart => off | SeekCurrent => pos d + off | SeekEnd => len c + off end in
    if p <? 0 then throw EINVAL else set_pos f d p;; mret p).

Definition File_Truncate (f : nat) (n : Z) : M World unit :=
  d ← open_fd f;
  syscall (if n <? 0 then throw EINVAL else
    c ← gets (content (ino d));
    set_content (ino d) (take (Z.to_nat n) (c ++ replicate (Z.to_nat n - length c) x00))).

(** f.Stat(), of which only Size() is used. *)
Definition File_Size (f : nat) : M World Z :=
  d ← open_fd f;
  syscall (gets (fun w => len (content (ino d) w))).

Definition File_Sync (f : nat) : M World unit := _ ← open_fd f; syscall (mret tt).

(** A failing close leaves the file closed, as the Go runtime does. *)
Definition File_Close (f : nat) : M World unit :=
  d ← open_fd f;
  modify (fun w => set_fds (<[f := mkFd (ino d) (pos d) false]> (fds w)) w);;
  syscall (mret tt).

(** ** Functions of package os *)

Record flags := mkFlags { O_CREATE : bool; O_EXCL : bool; O_TRUNC : bool }.

Definition new_fd (i : nat) : M World nat := fun w =>
  (Ok (length (fds w)), set_fds (fds w ++ [mkFd i 0 true]) w).

Definition OpenFile (path : string) (fl : flags) : M World nat :=
  syscall (fun w =>
    match names w !! path with
    | Some i =>
        if O_CREATE fl && O_EXCL fl then (Err (os_error ErrExist), w)
        else new_fd i (if O_TRUNC fl then set_inodes (<[i := []]> (inodes w)) w else w)
    | None =>
        if O_CREATE fl then
          let i := length (inodes w) in
          new_fd i (set_names (<[path := i]> (names w)) (set_inodes (inodes w ++ [[]]) w))
        else (Err (os_error ErrNotExist), w)
    end).

Definition Open (path : string) : M World nat := OpenFile path (mkFlags false false false).

Definition MkdirAll (path : string) : M World unit := syscall (mret tt).

Definition Remove (path : string) : M World unit :=
  syscall (fun w =>
    match names w !! path with
    | Some _ => (Ok tt, set_names (delete path (names w)) w)
    | None => (Err (os_error ErrNotExist), w)
    end).

Definition Rename (old new : string) : M World unit :=
  syscall (fun w =>
    match names w !! old with
    | Some i => (Ok tt, set_names (<[new := i]> (delete old (names w))) w)
    | None => (Err (os_error ErrNotExist), w)
    end).

Definition ReadFile (path : string) : M World (list byte) :=
  syscall (fun w =>
    match names w !! path with
    | Some i => (Ok (content i w), w)
    | None => (Err (os_error ErrNotExist), w)
    end).

(** os.WriteFile: open with truncation, write, close. *)
Definition WriteFile (path : string) (b : list byte) : M World unit :=
  f ← OpenFile path (mkFlags true false true);
  r ← try_ (File_Write f b);
  r' ← try_ (File_Close f);
  match r, r' with
  | inr e, _ => throw e
  | inl _, inr e => throw e
  | inl _, inl _ => mret tt
  end.

Definition IsNotExist (e : error) : bool := bool_decide (e = os_error ErrNotExist).
Definition IsExist (e : error) : bool := bool_decide (e = os_error ErrExist).

(** filepath.Join of a directory and a file name, for clean paths. *)
Definition filepath_Join (dir name : string) : string := (dir ++ "/" ++ name)%string.

(** * Lemmas: calls in a world without failures ahead *)

Definition calm (w : World) : Prop := faults w = [].

(** [has_file w f i p c]: [f] is open at offset [p] on inode [i] holding [c]. *)
Definition has_file (w : World) (f i : nat) (p : Z) (c : list byte) : Prop :=
  fds w !! f = Some (mkFd i p true) /\ inodes w !! i = Some c.

(** [put_file f i p c w] is [w] with that file changed to this state. *)
Definition put_file (f i : nat) (p : Z) (c : list byte) (w : World) : World :=
  mkWorld (names w) (<[i := c]> (inodes w)) (<[f := mkFd i p true]> (fds w)) (faults w).

Lemma put_file_id w f i p c : has_file w f i p c -> put_file f i p c w = w.
Proof.
  intros [Hf Hi]. unfold put_file. rewrite !list_insert_id by done. by destruct w.
Qed.

Lemma put_file_has w f i p c p' c' :
  has_file w f i p c -> has_file (put_file f i p' c' w) f i p' c'.
Proof.
  intros [Hf Hi]. split; cbn; apply list_lookup_insert_eq; by eapply lookup_lt_Some.
Qed.

Lemma put_file_put f i p c p' c' w : put_file f i p' c' (put_file f i p c w) = put_file f i p' c' w.
Proof. unfold put_file. cbn. by rewrite !list_insert_insert_eq. Qed.

Lemma put_file_calm f i p c w : calm w -> calm (put_file f i p c w).
Proof. done. Qed.
#[export] Hint Resolve put_file_calm put_file_has : go.

Lemma content_file w f i p c : has_file w f i p c -> content i w = c.
Proof. intros [_ Hi]. unfold content. by rewrite Hi. Qed.

Lemma open_fd_file w f i p c : has_file w f i p c -> open_fd f w = (Ok (mkFd i p true), w).
Proof. intros [Hf _]. unfold open_fd. by rewrite Hf. Qed.

Lemma next_fault_calm w : calm w -> next_fault w = (Ok None, w).
Proof. unfold next_fault. by intros ->. Qed.

Lemma syscall_calm {A} (m : M World A) w : calm w -> syscall m w = m w.
Proof. intros Hw. unfold syscall. by rewrite (M_bind_Ok _ _ _ None w) by (by apply next_fault_calm). Qed.

(** Appending at the end of a file. *)
Lemma write_at_end c b : write_at c (length c) b = c ++ b.
Proof.
  destruct b as [|x b]; [by rewrite app_nil_r|]. unfold write_at. rewrite Nat.sub_diag. cbn [replicate]. rewrite app_nil_r, take_ge by lia.
  rewrite drop_ge by lia. by rewrite app_nil_r.
Qed.

Lemma Write_end w f i c b :
  calm w -> has_file w f i (len c) c ->
  File_Write f b w = (Ok (len b), put_file f i (len c + len b) (c ++ b) w).
Proof.
  intros Hw Hf. unfold File_Write.
  rewrite (M_bind_Ok _ _ _ _ _ (open_fd_file _ _ _ _ _ Hf)).
  rewrite (M_bind_Ok _ _ _ _ _ (next_fault_calm _ Hw)).
  unfold gets. rewrite (M_bind_Ok _ _ _ (content i w) w) by done.
  rewrite (content_file _ _ _ _ _ Hf). cbn [pos ino]. rewrite Nat2Z.id, write_at_end.
  unfold set_content, set_pos, put_file. run_M. cbn. done.
Qed.

Lemma ReadAt_spec w f i p c n off :
  calm w -> has_file w f i p c -> 0 <= n -> 0 <= off ->
  File_ReadAt f n off w =
    (if len c <? off + n then (if n =? 0 then Ok [] else Err io_EOF)
     else Ok (take (Z.to_nat n) (drop (Z.to_nat off) c)), w).
Proof.
  intros Hw Hf Hn Hoff. unfold File_ReadAt.
  rewrite (M_bind_Ok _ _ _ _ _ (open_fd_file _ _ _ _ _ Hf)), syscall_calm by done.
  zif. unfold gets. rewrite (M_bind_Ok _ _ _ (content i w) w) by done.
  rewrite (content_file _ _ _ _ _ Hf). rewrite length_take, length_drop.
  destruct (Z.ltb_spec (len c) (off + n)).
  - destruct (Z.eqb_spec n 0) as [->|]; zif; done.
  - zif. done.
Qed.

(** Reading a segment of the file. *)
Lemma ReadAt_seg w f i p pre b post n off :
  calm w -> has_file w f i p (pre ++ b ++ post) -> off = len pre -> n = len b ->
  File_ReadAt f n off w = (Ok b, w).
Proof.
  intros Hw Hf -> ->. rewrite (ReadAt_spec w f i p (pre ++ b ++ post)) by (done || lia).
  zif. by rewrite !Nat2Z.id, drop_app_length, take_app_length.
Qed.

Lemma Seek_spec w f i p c off wh :
  calm w -> has_file w f i p c ->
  let q := match wh with SeekStart => off | SeekCurrent => p + off | SeekEnd => len c + off end in
  0 <= q -> File_Seek f off wh w = (Ok q, put_file f i q c w).
Proof.
  intros Hw Hf q Hq. unfold File_Seek.
  rewrite (M_bind_Ok _ _ _ _ _ (open_fd_file _ _ _ _ _ Hf)), syscall_calm by done.
  unfold gets. rewrite (M_bind_Ok _ _ _ (content i w) w) by done.
  rewrite (content_file _ _ _ _ _ Hf). cbn [pos]. fold q. zif.
  unfold set_pos, put_file. run_M. cbn. destruct Hf as [_ Hi]. by rewrite (list_insert_id (inodes w)).
Qed.

Lemma Truncate_spec w f i p c n :
  calm w -> has_file w f i p c -> 0 <= n <= len c ->
  File_Truncate f n w = (Ok tt, put_file f i p (take (Z.to_nat n) c) w).
Proof.
  intros Hw Hf Hn. unfold File_Truncate.
  rewrite (M_bind_Ok _ _ _ _ _ (open_fd_file _ _ _ _ _ Hf)), syscall_calm by done.
  zif. unfold gets. rewrite (M_bind_Ok _ _ _ (content i w) w) by done.
  rewrite (content_file _ _ _ _ _ Hf). cbn [ino].
  replace (Z.to_nat n - length c)%nat with 0%nat by lia. cbn [replicate]. rewrite app_nil_r.
  unfold set_content, put_file. run_M. cbn. destruct Hf as [Hd _]. by rewrite (list_insert_id (fds w)).
Qed.

Lemma Size_spec w f i p c : calm w -> has_file w f i p c -> File_Size f w = (Ok (len c), w).
Proof.
  intros Hw Hf. unfold File_Size.
  rewrite (M_bind_Ok _ _ _ _ _ (open_fd_file _ _ _ _ _ Hf)), syscall_calm by done.
  unfold gets. cbn [ino]. by rewrite (content_file _ _ _ _ _ Hf).
Qed.

Lemma Sync_spec w f i p c : calm w -> has_file w f i p c -> File_Sync f w = (Ok tt, w).
Proof.
  intros Hw Hf. unfold File_Sync.
  by rewrite (M_bind_Ok _ _ _ _ _ (open_fd_file _ _ _ _ _ Hf)), syscall_calm by done.
Qed.

(** Opening a file that exists, or creating it. *)
Lemma OpenFile_existing w path i c fl :
  calm w -> names w !! path = Some i -> inodes w !! i = Some c ->
  O_EXCL fl = false -> O_TRUNC fl = false ->
  exists w', OpenFile path fl w = (Ok (length (fds w)), w') /\ calm w' /\
    has_file w' (length (fds w)) i 0 c /\ names w' = names w /\ inodes w' = inodes w.
Proof.
  intros Hw Hn Hi Hx Ht. unfold OpenFile. rewrite syscall_calm, Hn, Hx, Ht, andb_false_r by done.
  unfold new_fd. eexists. split; [done|]. split_and!; try done. split; [cbn; by apply list_lookup_middle|done].
Qed.

(** Opening for reading only adds a descriptor. *)
Lemma Open_existing w path i c :
  calm w -> names w !! path = Some i -> inodes w !! i = Some c ->
  let w' := set_fds (fds w ++ [mkFd i 0 true]) w in
  Open path w = (Ok (length (fds w)), w') /\ calm w' /\ has_file w' (length (fds w)) i 0 c.
Proof.
  intros Hw Hn Hi w'. unfold Open, OpenFile. rewrite syscall_calm, Hn by done.
  split_and!; [done..|]. split; [cbn; by apply list_lookup_middle|done].
Qed.

Lemma OpenFile_create w path fl :
  calm w -> names w !! path = None -> O_CREATE fl = true ->
  exists w', OpenFile path fl w = (Ok (length (fds w)), w') /\ calm w' /\
    has_file w' (length (fds w)) (length (inodes w)) 0 [] /\
    names w' = <[path := length (inodes w)]> (names w) /\ inodes w' = inodes w ++ [[]].
Proof.
  intros Hw Hn Hc. unfold OpenFile. rewrite syscall_calm, Hn, Hc by done.
  unfold new_fd. eexists. split; [done|]. split_and!; try done. split; cbn; by apply list_lookup_middle.
Qed.

Lemma OpenFile_fds_kept path fl w f w' : OpenFile path fl w = (Ok f, w') -> forall g d, fds w !! g = Some d -> fds w' !! g = Some d.
Proof.
  unfold OpenFile, syscall, mbind, M_bind, next_fault, new_fd, throw. intros H g d Hd.
  destruct (faults w) as [|[k|] fs]; cbn in H; try done; repeat case_match; try done; simplify_eq; cbn;
    by apply lookup_app_l_Some.
Qed.

(** What every other user of the world sees of calls that change the contents
    of [i] and open files of their own. *)
Definition preserves (i : nat) (w w' : World) : Prop :=
  (forall j c, j <> i -> inodes w !! j = Some c -> inodes w' !! j = Some c) /\
  (forall g d, fds w !! g = Some d -> fds w' !! g = Some d).

(** Names refer to files. *)
Definition names_ok (w : World) : Prop := map_Forall (fun _ i => (i < length (inodes w))%nat) (names w).

(** [w'] differs from [w] in the open file [f] and the contents of [i] only. *)
Definition touches (f i : nat) (w w' : World) : Prop :=
  names w' = names w /\ (forall j, j <> i -> inodes w' !! j = inodes w !! j) /\
  (forall g, g <> f -> fds w' !! g = fds w !! g) /\
  length (inodes w') = length (inodes w) /\ length (fds w') = length (fds w).

#[export] Instance touches_preorder f i : PreOrder (touches f i).
Proof.
  split; [intros w; by split_and!|]. intros w1 w2 w3 (N1 & I1 & F1 & L1 & M1) (N2 & I2 & F2 & L2 & M2).
  split_and!; [congruence| | |congruence|congruence].
  - intros j Hj. by rewrite I2, I1.
  - intros g Hg. by rewrite F2, F1.
Qed.

Lemma put_file_touches f i p c w : touches f i w (put_file f i p c w).
Proof.
  split_and!; cbn; [done| | |by rewrite length_insert..].
  - intros j Hj. by apply list_lookup_insert_ne.
  - intros g Hg. by apply list_lookup_insert_ne.
Qed.
#[export] Hint Resolve put_file_touches : go.

Lemma Close_spec w f i p c :
  calm w -> has_file w f i p c ->
  exists w', File_Close f w = (Ok tt, w') /\ calm w' /\ touches f i w w' /\ inodes w' = inodes w.
Proof.
  intros Hw Hf. unfold File_Close. rewrite (M_bind_Ok _ _ _ _ _ (open_fd_file _ _ _ _ _ Hf)).
  eexists. split; [|split; [|split]].
  - rewrite (M_bind_Ok _ _ _ tt _) by done. by rewrite syscall_calm.
  - done.
  - split_and!; cbn; [done|done| |done|by rewrite length_insert].
    intros g Hg. by apply list_lookup_insert_ne.
  - done.
Qed.

(** Creating a file, or emptying the one that has the name. *)
Lemma OpenFile_trunc w path :
  calm w -> names_ok w ->
  exists w' i, OpenFile path (mkFlags true false true) w = (Ok (length (fds w)), w') /\ calm w' /\
    has_file w' (length (fds w)) i 0 [] /\ names w' = <[path := i]> (names w) /\ names_ok w' /\
    (names w !! path = Some i \/ i = length (inodes w)) /\
    (forall j c, j <> i -> inodes w !! j = Some c -> inodes w' !! j = Some c) /\
    (forall g d, fds w !! g = Some d -> fds w' !! g = Some d).
Proof.
  intros Hw Hn. unfold OpenFile. rewrite syscall_calm by done. cbn [O_CREATE O_EXCL O_TRUNC andb].
  destruct (names w !! path) as [i|] eqn:Hp; unfold new_fd.
  - exists (set_fds (fds w ++ [mkFd i 0 true]) (set_inodes (<[i:=[]]> (inodes w)) w)), i.
    pose proof (Hn path i Hp) as Hi. cbn in Hi. split_and!; try done.
    + split; cbn; [by apply list_lookup_middle|by apply list_lookup_insert_eq].
    + cbn. by rewrite insert_id.
    + unfold names_ok. cbn. by rewrite length_insert.
    + by left.
    + intros j c Hj Hc. cbn. by rewrite list_lookup_insert_ne.
    + intros g d Hd. cbn. by apply lookup_app_l_Some.
  - eexists _, _. split; [done|]. split_and!; try done.
    + split; cbn; by apply list_lookup_middle.
    + unfold names_ok. cbn. rewrite length_app. apply map_Forall_insert_2; [cbn; lia|].
      eapply map_Forall_impl; [exact Hn|]. cbn. lia.
    + by right.
    + intros j c Hj Hc. cbn. by apply lookup_app_l_Some.
    + intros g d Hd. cbn. by apply lookup_app_l_Some.
Qed.

(** Every call ends. *)
Lemma open_fd_ends fl : always_ends (open_fd fl).
Proof. intros w. unfold open_fd. by repeat case_match. Qed.
Lemma next_fault_ends : always_ends next_fault.
Proof. intros w. unfold next_fault. by case_match. Qed.
#[export] Hint Resolve open_fd_ends next_fault_ends : ends.

Lemma syscall_ends {A} (m : M World A) : always_ends m -> always_ends (syscall m).
Proof. intros Hm. unfold syscall. m_ends. Qed.
#[export] Hint Resolve syscall_ends : ends.

Lemma ReadAt_ends fl n off : always_ends (File_ReadAt fl n off).
Proof. unfold File_ReadAt. apply mbind_ends; [m_ends|]. intros. apply syscall_ends. m_ends. Qed.
Lemma Seek_ends fl off wh : always_ends (File_Seek fl off wh).
Proof. unfold File_Seek, set_pos. apply mbind_ends; [m_ends|]. intros. apply syscall_ends. m_ends. Qed.
Lemma Truncate_ends fl n : always_ends (File_Truncate fl n).
Proof. unfold File_Truncate, set_content. apply mbind_ends; [m_ends|]. intros. apply syscall_ends. m_ends. Qed.
Lemma Write_ends fl b : always_ends (File_Write fl b).
Proof. unfold File_Write, set_content, set_pos. m_ends. Qed.
Lemma Size_ends fl : always_ends (File_Size fl).
Proof. unfold File_Size. m_ends. Qed.
Lemma Sync_ends fl : always_ends (File_Sync fl).
Proof. unfold File_Sync. m_ends. Qed.
Lemma Close_ends fl : always_ends (File_Close fl).
Proof. unfold File_Close. m_ends. Qed.
Lemma OpenFile_ends path fl : always_ends (OpenFile path fl).
Proof.
  unfold OpenFile. apply syscall_ends. intros w. unfold new_fd. destruct (names w !! path); repeat case_match; done.
Qed.
Lemma Remove_ends p : always_ends (Remove p).
Proof. apply syscall_ends. intros w. by case_match. Qed.
Lemma Rename_ends p q : always_ends (Rename p q).
Proof. apply syscall_ends. intros w. by case_match. Qed.
Lemma ReadFile_ends p : always_ends (ReadFile p).
Proof. apply syscall_ends. intros w. by case_match. Qed.
Lemma MkdirAll_ends p : always_ends (MkdirAll p).
Proof. apply syscall_ends, mret_ends. Qed.
#[export] Hint Resolve ReadAt_ends Seek_ends Truncate_ends Write_ends Size_ends Sync_ends Close_ends
  OpenFile_ends Remove_ends Rename_ends ReadFile_ends MkdirAll_ends : ends.
Lemma WriteFile_ends p b : always_ends (WriteFile p b).
Proof. unfold WriteFile. m_ends. Qed.
#[export] Hint Resolve WriteFile_ends : ends.

(** Files below the size bound the clients assume. *)
Definition small (w : World) : Prop := Forall (fun c => len c < 2 ^ 61) (inodes w).

Lemma syscall_small {A} (m : M World A) w r w' :
  small w -> syscall m w = (r, w') -> (forall w r w', small w -> m w = (r, w') -> small w') -> small w'.
Proof.
  intros Hw H Hm. unfold syscall, mbind, M_bind, next_fault in H.
  destruct (faults w) as [|[k|] fs]; [by eapply Hm| |].
  - by injection H as _ <-.
  - by eapply (Hm (set_faults fs w)).
Qed.

Lemma OpenFile_small path fl w r w' : small w -> OpenFile path fl w = (r, w') -> small w'.
Proof.
  intros Hw H. eapply syscall_small; [exact Hw|exact H|]. clear w r w' Hw H. intros w r w' Hw.
  unfold new_fd. unfold small in *. destruct (names w !! path) as [i|].
  - destruct (_ && _); [by intros [= _ <-]|]. intros [= _ <-]. destruct (O_TRUNC fl); [|done].
    cbn. by apply Forall_insert.
  - destruct (O_CREATE fl); intros [= _ <-]; [|done]. cbn. apply Forall_app. by split; [|constructor].
Qed.

Lemma Size_small fl w z w' : small w -> File_Size fl w = (Ok z, w') -> 0 <= z < 2 ^ 61.
Proof.
  intros Hw H. assert (forall i, len (content i w) < 2 ^ 61) as Hc.
  { intros i. unfold content, small in *. destruct (inodes w !! i) as [c|] eqn:E; cbn; [|lia].
    by rewrite Forall_lookup in Hw; apply (Hw i). }
  unfold File_Size, mbind, M_bind, open_fd, syscall, next_fault, gets, throw in H.
  destruct (fds w !! fl) as [d|]; [|done]. destruct (is_open d); [|done]. unfold mbind, M_bind in H.
  destruct (faults w) as [|[k|] fs]; try done; injection H as <- _; (split; [lia|]); apply Hc.
Qed.
