(* ===== verification/Wal.v ===== *)
(** * Wal: package internal/wal

    The write-ahead log: frames, decoding, recovery of the tail, and the
    methods of [Log] over the world of Os. *)

From Stdlib Require Import ZArith Lia Strings.Byte.
From stdpp Require Import base decidable list gmap strings numbers sorting.
From S2P Require Import Prelude ByteUtil Varint Crc32x Os.
#[local] Open Scope Z_scope.

Definition ErrClosed : error := errors_New "wal: closed".
Definition ErrCorrupt : error := errors_New "wal: corrupt record".
Definition ErrBadType : error := errors_New "wal: bad record type".
Definition ErrShortWrite : error := errors_New "wal: short write".

Definition TypePut : byte := x01.
Definition TypeDelete : byte := x02.
Definition TypeBatch : byte := x03.

Definition headerSize : Z := 9.
Definition fileName : string := "wal.log".

Record Record_ := mkRecord {
  Type_ : byte; Key : slice; Value : slice; Seq : Z; Deleted : bool
}.

Record Options := mkOptions { SyncEveryN : Z; SyncOnWrite : bool; FileName : string }.

Definition normalize (o : option Options) : Options :=
  match o with
  | None => mkOptions 0 true fileName
  | Some o =>
      mkOptions (SyncEveryN o) (SyncOnWrite o)
        (if decide (FileName o = ""%string) then fileName else FileName o)
  end.

Record Log := mkLog {
  dir : string;
  path : string;
  f : nat;
  opts : Options;
  appends : Z;
  closed : bool;
  size : Z;
  nextSeq : Z
}.

Definition set_appends (a : Z) (l : Log) : Log :=
  mkLog (dir l) (path l) (f l) (opts l) a (closed l) (size l) (nextSeq l).
Definition set_closed (c : bool) (l : Log) : Log :=
  mkLog (dir l) (path l) (f l) (opts l) (appends l) c (size l) (nextSeq l).
Definition set_size (n : Z) (l : Log) : Log :=
  mkLog (dir l) (path l) (f l) (opts l) (appends l) (closed l) n (nextSeq l).
Definition set_nextSeq (n : Z) (l : Log) : Log :=
  mkLog (dir l) (path l) (f l) (opts l) (appends l) (closed l) (size l) n.

(** Methods of [Log] run on the log and the world. *)
Abbreviation MLog := (M (Log * World)).
Definition io {A} (m : M World A) : MLog A := zoom snd (fun w s => (fst s, w)) m.
Definition get_log {A} (g : Log -> A) : MLog A := gets (fun s => g (fst s)).
Definition upd_log (g : Log -> Log) : MLog unit := modify (fun s => (g (fst s), snd s)).

(** ** Payloads *)

Definition encodeKV (seq : Z) (key value : list byte) : list byte :=
  let b := EncodeUint64 [] seq in
  let b := EncodeUint64 b (len key) in
  let b := b ++ key in
  let b := EncodeUint64 b (len value) in
  b ++ value.

Definition decodeOne (typ : byte) (payload : list byte) : outcome Record_ :=
  '(seq, off) ← or_err ErrCorrupt (DecodeUint64 payload);
  '(klen, noff) ← or_err ErrCorrupt (decode_at payload off);
  let off := i64 (off + noff) in
  if len payload <? i64 (off + i64 klen) then Err ErrCorrupt
  else
    key ← subslice payload off (i64 (off + i64 klen));
    let off := i64 (off + i64 klen) in
    '(vlen, noff) ← or_err ErrCorrupt (decode_at payload off);
    let off := i64 (off + noff) in
    if len payload <? i64 (off + i64 vlen) then Err ErrCorrupt
    else
      val ← subslice payload off (i64 (off + i64 vlen));
      Ok (mkRecord typ (append_nil key) (append_nil val) seq (bool_decide (typ = TypeDelete))).

(** One iteration of decodeBatch's loop. *)
Definition batch_entry (payload : list byte) (s : Z * list Record_) :
    outcome (Z * list Record_ + list Record_) :=
  let (off, out) := s in
  '(seq, noff) ← or_err ErrCorrupt (decode_at payload off);
  let off := i64 (off + noff) in
  if len payload <=? off then Err ErrCorrupt
  else
    typ ← index payload off;
    let off := i64 (off + 1) in
    '(klen, noff) ← or_err ErrCorrupt (decode_at payload off);
    let off := i64 (off + noff) in
    if len payload <? i64 (off + i64 klen) then Err ErrCorrupt
    else
      key ← subslice payload off (i64 (off + i64 klen));
      let off := i64 (off + i64 klen) in
      '(vlen, noff) ← or_err ErrCorrupt (decode_at payload off);
      let off := i64 (off + noff) in
      if len payload <? i64 (off + i64 vlen) then Err ErrCorrupt
      else
        val ← subslice payload off (i64 (off + i64 vlen));
        let off := i64 (off + i64 vlen) in
        Ok (inl (off, out ++
          [mkRecord typ (append_nil key) (append_nil val) seq (bool_decide (typ = TypeDelete))])).

Definition decodeBatch (payload : list byte) : outcome (list Record_) :=
  '(n, off) ← or_err ErrCorrupt (DecodeUint64 payload);
  make_check 72 n;;
  r ← loop n (batch_entry payload) (off, []);
  match r with inl (_, out) => Ok out | inr out => Ok out end.

Definition decodeFrame (typ : byte) (payload : list byte) : outcome (list Record_) :=
  if decide (typ = TypePut \/ typ = TypeDelete) then
    r ← decodeOne typ payload; Ok [r]
  else if decide (typ = TypeBatch) then decodeBatch payload
  else Err ErrBadType.

(** The sequence number of a frame; [None] is the false second result.  Errors
    of the decoder become [None], but a slice past the end panics. *)
Definition or_none {A} (m : outcome (option A)) : outcome (option A) :=
  match m with Err _ => Ok None | _ => m end.

Definition peek_entry (payload : list byte) (s : Z * Z) : outcome (Z * Z + option Z) :=
  let (off, max) := s in
  '(seq, noff) ← decode_at payload off;
  let off := i64 (off + noff) in
  let max := if max <? seq then seq else max in
  if len payload <=? off then Ok (inr None)
  else
    let off := i64 (off + 1) in
    '(klen, noff) ← decode_at payload off;
    let off := i64 (off + i64 (noff + i64 klen)) in
    '(vlen, noff) ← decode_at payload off;
    let off := i64 (off + i64 (noff + i64 vlen)) in
    Ok (inl (off, max)).

Definition peekSeq (typ : byte) (payload : list byte) : outcome (option Z) :=
  if decide (typ = TypePut \/ typ = TypeDelete) then
    or_none ('(seq, _) ← DecodeUint64 payload; Ok (Some seq))
  else if decide (typ = TypeBatch) then
    or_none (
      '(n, off) ← DecodeUint64 payload;
      r ← loop n (peek_entry payload) (off, 0);
      match r with inl (_, max) => Ok (Some max) | inr r => Ok r end)
  else Ok None.

(** ** Recovery *)

Definition u32_at (b : list byte) (i j : Z) : outcome Z := s ← subslice b i j; Ok (le_val s).

(** The loop of scanValidPrefix; it ends because each frame has a header. *)
Fixpoint scan_loop (fuel : nat) (fl : nat) (size off maxSeq : Z) : M World (Z * Z) :=
  match fuel with
  | O => lift Stuck
  | S fuel =>
      if i64 (off + headerSize) <=? size then
        rb ← try_ (File_ReadAt fl headerSize off);
        match rb with
        | inr _ => mret (off, maxSeq)
        | inl buf =>
            plen ← lift (u32_at buf 0 4);
            typ ← lift (index buf 4);
            wantCRC ← lift (u32_at buf 5 9);
            if decide (typ <> TypePut /\ typ <> TypeDelete /\ typ <> TypeBatch) then mret (off, maxSeq)
            else
              let frameEnd := i64 (i64 (off + headerSize) + plen) in
              if size <? frameEnd then mret (off, maxSeq)
              else
                rp ← (if 0 <? plen then try_ (File_ReadAt fl plen (i64 (off + headerSize)))
                      else mret (inl []));
                match rp with
                | inr _ => mret (off, maxSeq)
                | inl payload =>
                    if negb (FrameChecksum typ payload =? wantCRC) then mret (off, maxSeq)
                    else
                      r ← lift (peekSeq typ payload);
                      let maxSeq :=
                        match r with Some seq => if maxSeq <? seq then seq else maxSeq | None => maxSeq end in
                      scan_loop fuel fl size frameEnd maxSeq
                end
        end
      else mret (off, maxSeq)
  end.

Definition scanValidPrefix (fl : nat) (size : Z) : M World (Z * Z) :=
  _ ← File_Seek fl 0 SeekStart;
  scan_loop (S (Z.to_nat size)) fl size 0 0.

Definition recoverTail : MLog unit :=
  sz ← get_log size;
  if sz =? 0 then mret tt
  else
    fl ← get_log f;
    '(validEnd, maxSeq) ← io (scanValidPrefix fl sz);
    upd_log (set_nextSeq maxSeq);;
    if validEnd <? sz then
      io (File_Truncate fl validEnd);;
      _ ← io (File_Seek fl validEnd SeekStart);
      upd_log (set_size validEnd)
    else
      _ ← io (File_Seek fl 0 SeekEnd);
      mret tt.

Definition Open (dir : string) (o : option Options) : M World Log :=
  let o := normalize o in
  MkdirAll dir;;
  let path := filepath_Join dir (FileName o) in
  fl ← OpenFile path (mkFlags true false false);
  st ← try_ (File_Size fl);
  match st with
  | inr e => _ ← try_ (File_Close fl); throw e
  | inl sz =>
      r ← try_ (scoped recoverTail (mkLog dir path fl o 0 false sz 0));
      match r with
      | inr e => _ ← try_ (File_Close fl); throw e
      | inl (_, l) => mret l
      end
  end.

(** ** Methods *)

Definition Path (l : Log) : string := path l.
Definition Size (l : Log) : Z := size l.
Definition NextSeq (l : Log) : Z := u64 (nextSeq l + 1).

Definition allocSeq : MLog Z :=
  upd_log (fun l => set_nextSeq (u64 (nextSeq l + 1)) l);; get_log nextSeq.

Definition frame_header (typ : byte) (payload : list byte) : list byte :=
  le_bytes 4 (u32 (len payload)) ++ [typ] ++ le_bytes 4 (FrameChecksum typ payload).

Definition writeFrame (typ : byte) (payload : list byte) : MLog unit :=
  if Z.shiftl 1 28 <? len payload then throw (fmt_Errorf "wal: payload too large: %d")
  else
    fl ← get_log f;
    let hdr := frame_header typ payload in
    n ← io (File_Write fl hdr);
    if negb (n =? len hdr) then throw ErrShortWrite
    else
      (if 0 <? len payload then
         n ← io (File_Write fl payload);
         if negb (n =? len payload) then throw ErrShortWrite else mret tt
       else mret tt);;
      upd_log (fun l => set_size (i64 (size l + (headerSize + len payload))) l);;
      upd_log (fun l => set_appends (i64 (appends l + 1)) l).

(** Go's [%] truncates; SyncEveryN is positive where it is used. *)
Definition maybeSyncLocked : MLog unit :=
  o ← get_log opts;
  fl ← get_log f;
  if 0 <? SyncEveryN o then
    a ← get_log appends;
    if Z.rem a (SyncEveryN o) =? 0 then io (File_Sync fl) else mret tt
  else if SyncOnWrite o then io (File_Sync fl)
  else mret tt.

(** if l.closed \{ return ErrClosed \} *)
Definition unless_closed {A} (m : MLog A) : MLog A :=
  c ← get_log closed; if (c : bool) then throw ErrClosed else m.

Definition AppendPut (key value : slice) : MLog Z := unless_closed (
  seq ← allocSeq;
  writeFrame TypePut (encodeKV seq (bs key) (bs value));;
  maybeSyncLocked;;
  mret seq).

Definition AppendDelete (key : slice) : MLog Z := unless_closed (
  seq ← allocSeq;
  writeFrame TypeDelete (encodeKV seq (bs key) []);;
  maybeSyncLocked;;
  mret seq).

Record BatchEntry := mkBatchEntry { bKey : slice; bValue : slice; bDeleted : bool }.

(** The encoding of one batch entry. *)
Definition encode_entry (payload : list byte) (seq : Z) (e : BatchEntry) : list byte :=
  let payload := EncodeUint64 payload seq in
  let payload := if bDeleted e then payload ++ [TypeDelete] else payload ++ [TypePut] in
  let payload := EncodeUint64 payload (len (bs (bKey e))) in
  let payload := payload ++ bs (bKey e) in
  let payload := EncodeUint64 payload (len (bs (bValue e))) in
  payload ++ bs (bValue e).

Fixpoint batch_loop (entries : list BatchEntry) (payload : list byte) (last : Z) :
    MLog (list byte * Z) :=
  match entries with
  | [] => mret (payload, last)
  | e :: entries => seq ← allocSeq; batch_loop entries (encode_entry payload seq e) seq
  end.

Definition AppendBatch (entries : list BatchEntry) : MLog Z := unless_closed (
  match entries with
  | [] => get_log nextSeq
  | _ =>
      '(payload, last) ← batch_loop entries (EncodeUint64 [] (len entries)) 0;
      writeFrame TypeBatch payload;;
      maybeSyncLocked;;
      mret last
  end).

Definition Sync : MLog unit := unless_closed (fl ← get_log f; io (File_Sync fl)).

Definition Close : MLog unit :=
  c ← get_log closed;
  if (c : bool) then mret tt
  else
    upd_log (set_closed true);;
    fl ← get_log f;
    r1 ← try_ (io (File_Sync fl));
    r2 ← try_ (io (File_Close fl));
    match r1, r2 with
    | inr e, _ => throw e
    | inl _, inr e => throw e
    | inl _, inl _ => mret tt
    end.

(** ** Replay *)

(** [fn] is a closure over a state of type [A], run next to the log. *)
Section replay.
Context {A : Type} (fn : Record_ -> M A unit).

Definition io_replay {B} (m : M World B) : M (A * (Log * World)) B :=
  zoom snd (fun s t => (fst t, s)) (io m).

Fixpoint call_all (recs : list Record_) : M (A * (Log * World)) unit :=
  match recs with
  | [] => mret tt
  | r :: recs => zoom fst (fun a t => (a, snd t)) (fn r);; call_all recs
  end.

Fixpoint replay_loop (fuel : nat) (fl : nat) (size off : Z) : M (A * (Log * World)) unit :=
  match fuel with
  | O => lift Stuck
  | S fuel =>
      if i64 (off + headerSize) <=? size then
        rb ← try_ (io_replay (File_ReadAt fl headerSize off));
        match rb with
        | inr _ => mret tt
        | inl hdr =>
            plen ← lift (u32_at hdr 0 4);
            typ ← lift (index hdr 4);
            want ← lift (u32_at hdr 5 9);
            let frameEnd := i64 (i64 (off + headerSize) + plen) in
            if size <? frameEnd then mret tt
            else
              rp ← (if 0 <? plen
                    then try_ (io_replay (File_ReadAt fl plen (i64 (off + headerSize))))
                    else mret (inl []));
              match rp with
              | inr _ => mret tt
              | inl payload =>
                  if negb (FrameChecksum typ payload =? want) then mret tt
                  else
                    recs ← lift (decodeFrame typ payload);
                    call_all recs;;
                    replay_loop fuel fl size frameEnd
              end
        end
      else mret tt
  end.

Definition Replay : M (A * (Log * World)) unit := fun s =>
  let l := fst (snd s) in
  if closed l then (Err ErrClosed, s)
  else
    (_ ← io_replay (File_Seek (f l) 0 SeekStart);
     replay_loop (S (Z.to_nat (size l))) (f l) (size l) 0;;
     _ ← io_replay (File_Seek (f l) (size l) SeekStart);
     mret tt) s.
End replay.

Definition Reset : MLog unit := unless_closed (
  fl ← get_log f;
  io (File_Truncate fl 0);;
  _ ← io (File_Seek fl 0 SeekStart);
  upd_log (set_size 0);;
  upd_log (set_appends 0);;
  io (File_Sync fl)).

Definition SetNextSeq (seq : Z) : MLog unit :=
  upd_log (fun l => if nextSeq l <? seq then set_nextSeq seq l else l).

Definition CRCTable : list Z := crc32.MakeTable crc32.Castagnoli.

(** * Lemmas *)

(** ** Decoding what was encoded *)

Lemma encodeKV_alt seq key value : encodeKV seq key value = varint seq ++ field key ++ field value.
Proof. unfold encodeKV, field. by rewrite !EncodeUint64_app, <- !app_assoc. Qed.

Lemma decodeOne_encodeKV typ seq key value :
  0 <= seq < 2 ^ 64 -> len (encodeKV seq key value) < 2 ^ 62 ->
  decodeOne typ (encodeKV seq key value) =
    Ok (mkRecord typ (append_nil key) (append_nil value) seq (bool_decide (typ = TypeDelete))).
Proof.
  rewrite encodeKV_alt. intros Hs Hl. set (payload := _ ++ _ ++ _) in *. unfold decodeOne.
  assert (DecodeUint64 payload = Ok (seq, len (varint seq))) as ->
    by (by apply DecodeUint64_varint). cbn [or_err].
  rewrite outcome_bind_Ok. cbv beta iota.
  destruct (field_spec payload (varint seq) key (field value) _ eq_refl eq_refl Hl) as (-> & E1 & E2 & E3).
  cbn [or_err]. rewrite outcome_bind_Ok. cbv beta iota zeta. rewrite E1, E2, outcome_bind_Ok, E3.
  destruct (field_spec payload (varint seq ++ field key) value [] _
    ltac:(by rewrite app_nil_r, <- app_assoc) eq_refl Hl) as (-> & F1 & F2 & _).
  cbn [or_err]. rewrite outcome_bind_Ok. cbv beta iota zeta. by rewrite F1, F2, outcome_bind_Ok.
Qed.

Lemma peekSeq_encodeKV typ seq key value :
  typ = TypePut \/ typ = TypeDelete -> 0 <= seq < 2 ^ 64 ->
  peekSeq typ (encodeKV seq key value) = Ok (Some seq).
Proof.
  intros Ht Hs. unfold peekSeq. rewrite decide_True by done.
  rewrite encodeKV_alt, DecodeUint64_varint by done. done.
Qed.

(** Batches. *)
Definition entry_bytes (seq : Z) (e : BatchEntry) : list byte :=
  varint seq ++ [if bDeleted e then TypeDelete else TypePut] ++
    field (bs (bKey e)) ++ field (bs (bValue e)).

Definition entry_record (seq : Z) (e : BatchEntry) : Record_ :=
  mkRecord (if bDeleted e then TypeDelete else TypePut)
    (append_nil (bs (bKey e))) (append_nil (bs (bValue e))) seq (bDeleted e).

Lemma encode_entry_app p seq e : encode_entry p seq e = p ++ entry_bytes seq e.
Proof.
  unfold encode_entry, entry_bytes, field. destruct (bDeleted e);
    by rewrite !EncodeUint64_app, <- !app_assoc.
Qed.

(** Entries numbered from [seq + 1]. *)
Fixpoint entries_bytes (seq : Z) (es : list BatchEntry) : list byte :=
  match es with [] => [] | e :: es => entry_bytes (seq + 1) e ++ entries_bytes (seq + 1) es end.
Fixpoint entries_records (seq : Z) (es : list BatchEntry) : list Record_ :=
  match es with [] => [] | e :: es => entry_record (seq + 1) e :: entries_records (seq + 1) es end.

Section batch.
Context (payload pre post : list byte) (seq : Z) (e : BatchEntry).
Context (Hp : payload = pre ++ entry_bytes seq e ++ post).
Context (Hs : 0 <= seq < 2 ^ 64) (Hl : len payload < 2 ^ 62).

Lemma entry_lens :
  len pre + len (varint seq) + 1 + len (field (bs (bKey e))) + len (field (bs (bValue e))) <= len payload.
Proof. rewrite Hp. unfold entry_bytes. rewrite !length_app. cbn [length]. lia. Qed.

(** The pieces of one entry, in the order both decoders read them. *)
Lemma entry_steps :
  let t := if bDeleted e then TypeDelete else TypePut in
  let pre1 := pre ++ varint seq ++ [t] in
  decode_at payload (len pre) = Ok (seq, len (varint seq)) /\
  i64 (len pre + len (varint seq)) = len pre + len (varint seq) /\
  (len payload <=? len pre + len (varint seq)) = false /\
  index payload (len pre + len (varint seq)) = Ok t /\
  i64 (len pre + len (varint seq) + 1) = len pre1 /\
  payload = pre1 ++ field (bs (bKey e)) ++ field (bs (bValue e)) ++ post /\
  payload = (pre1 ++ field (bs (bKey e))) ++ field (bs (bValue e)) ++ post /\
  (pre1 ++ field (bs (bKey e))) ++ field (bs (bValue e)) = pre ++ entry_bytes seq e.
Proof.
  pose proof entry_lens as Hle. intros t pre1.
  assert (payload = pre1 ++ field (bs (bKey e)) ++ field (bs (bValue e)) ++ post) as H1.
  { rewrite Hp. unfold pre1, entry_bytes. fold t. by rewrite <- !app_assoc. }
  split_and!.
  - eapply decode_at_varint; [|done..]. rewrite Hp. unfold entry_bytes. by rewrite <- !app_assoc.
  - apply i64_small. lia.
  - apply Z.leb_gt. lia.
  - replace payload with ((pre ++ varint seq) ++ t :: field (bs (bKey e)) ++ field (bs (bValue e)) ++ post)
      by (rewrite H1; unfold pre1; by rewrite <- !app_assoc).
    apply index_app_r. rewrite length_app. lia.
  - rewrite i64_small by lia. unfold pre1. rewrite !length_app. cbn [length]. lia.
  - done.
  - by rewrite <- app_assoc.
  - unfold pre1, entry_bytes. fold t. by rewrite <- !app_assoc.
Qed.

Lemma batch_entry_spec out :
  batch_entry payload (len pre, out) =
    Ok (inl (len (pre ++ entry_bytes seq e), out ++ [entry_record seq e])).
Proof.
  destruct entry_steps as (E1 & E2 & E3 & E4 & E5 & P1 & P2 & P3). unfold batch_entry.
  rewrite E1. cbn [or_err]. rewrite outcome_bind_Ok. cbv beta iota zeta.
  rewrite E2, E3, E4, outcome_bind_Ok, E5.
  destruct (field_spec _ _ _ _ _ P1 eq_refl Hl) as (-> & F1 & F2 & F3).
  cbn [or_err]. rewrite outcome_bind_Ok. cbv beta iota zeta. rewrite F1, F2, outcome_bind_Ok, F3.
  destruct (field_spec _ _ _ _ _ P2 eq_refl Hl) as (-> & G1 & G2 & G3).
  cbn [or_err]. rewrite outcome_bind_Ok. cbv beta iota zeta. rewrite G1, G2, outcome_bind_Ok, G3, P3.
  do 4 f_equal. unfold entry_record. f_equal. by destruct (bDeleted e).
Qed.

Lemma peek_entry_spec max :
  peek_entry payload (len pre, max) = Ok (inl (len (pre ++ entry_bytes seq e), Z.max max seq)).
Proof.
  destruct entry_steps as (E1 & E2 & E3 & _ & E5 & P1 & P2 & P3). unfold peek_entry.
  rewrite E1, outcome_bind_Ok. cbv beta iota zeta. rewrite E2, E3, E5.
  destruct (field_spec _ _ _ _ _ P1 eq_refl Hl) as (-> & _ & _ & F3).
  rewrite outcome_bind_Ok. cbv beta iota. rewrite i64_assoc, F3.
  destruct (field_spec _ _ _ _ _ P2 eq_refl Hl) as (-> & _ & _ & G3).
  rewrite outcome_bind_Ok. cbv beta iota. rewrite i64_assoc, G3, P3.
  do 3 f_equal. destruct (Z.ltb_spec max seq); lia.
Qed.
End batch.

Lemma batch_entries_spec payload es : forall pre post seq out,
  payload = pre ++ entries_bytes seq es ++ post -> len payload < 2 ^ 62 ->
  0 <= seq -> seq + len es < 2 ^ 64 ->
  loop_nat (length es) (batch_entry payload) (len pre, out) =
    Ok (inl (len (pre ++ entries_bytes seq es), out ++ entries_records seq es)).
Proof.
  induction es as [|e es IH]; intros pre post seq out Hp Hl Hs Hb; cbn [length loop_nat].
  - cbn. by rewrite !app_nil_r.
  - cbn [entries_bytes entries_records] in *. cbn [length] in Hb.
    rewrite (batch_entry_spec payload pre (entries_bytes (seq + 1) es ++ post) (seq + 1) e);
      [|by rewrite Hp, <- app_assoc|lia|done].
    rewrite outcome_bind_Ok, (IH _ post (seq + 1)); [|by rewrite Hp, <- !app_assoc|lia..].
    by rewrite <- !app_assoc.
Qed.

Lemma peek_entries_spec payload es : forall pre post seq max,
  payload = pre ++ entries_bytes seq es ++ post -> len payload < 2 ^ 62 ->
  0 <= seq -> seq + len es < 2 ^ 64 -> max <= seq ->
  loop_nat (length es) (peek_entry payload) (len pre, max) =
    Ok (inl (len (pre ++ entries_bytes seq es), if es is [] then max else seq + len es)).
Proof.
  induction es as [|e es IH]; intros pre post seq max Hp Hl Hs Hb Hm; cbn [length loop_nat].
  - cbn. by rewrite !app_nil_r.
  - cbn [entries_bytes] in *. cbn [length] in Hb.
    rewrite (peek_entry_spec payload pre (entries_bytes (seq + 1) es ++ post) (seq + 1) e);
      [|by rewrite Hp, <- app_assoc|lia|done].
    rewrite outcome_bind_Ok, Z.max_r by lia.
    rewrite (IH _ post (seq + 1)); [|by rewrite Hp, <- !app_assoc|lia..].
    rewrite <- !app_assoc. do 3 f_equal. destruct es; cbn [length]; lia.
Qed.

Definition batch_payload (seq : Z) (es : list BatchEntry) : list byte :=
  varint (len es) ++ entries_bytes seq es.

Lemma entries_bytes_length seq es : 0 <= seq -> seq + len es < 2 ^ 64 -> len es <= len (entries_bytes seq es).
Proof.
  revert seq. induction es as [|e es IH]; intros seq Hs Hb; cbn [entries_bytes length] in *; [lia|].
  specialize (IH (seq + 1)). rewrite length_app. unfold entry_bytes. rewrite !length_app. cbn [length]. lia.
Qed.

Section whole_batch.
Context (seq : Z) (es : list BatchEntry).
Context (Hs : 0 <= seq) (Hb : seq + len es < 2 ^ 64) (Hl : len (batch_payload seq es) < 2 ^ 40).

Lemma batch_count : DecodeUint64 (batch_payload seq es) = Ok (len es, len (varint (len es))).
Proof. apply DecodeUint64_varint. lia. Qed.

Lemma decodeBatch_payload : decodeBatch (batch_payload seq es) = Ok (entries_records seq es).
Proof.
  pose proof (entries_bytes_length seq es Hs Hb) as Hel.
  unfold decodeBatch. rewrite batch_count. cbn [or_err]. rewrite outcome_bind_Ok. cbv beta iota.
  unfold make_check. unfold batch_payload in Hl. rewrite length_app in Hl.
  rewrite decide_True, outcome_bind_Ok by lia.
  rewrite loop_loop_nat, Nat2Z.id, (batch_entries_spec _ es (varint (len es)) [] seq).
  - by rewrite outcome_bind_Ok.
  - by rewrite app_nil_r.
  - unfold batch_payload. rewrite length_app. lia.
  - done.
  - done.
Qed.

Lemma peekSeq_batch : es <> [] -> peekSeq TypeBatch (batch_payload seq es) = Ok (Some (seq + len es)).
Proof.
  intros Hne. unfold peekSeq. rewrite decide_False by (intros [?|?]; done). rewrite decide_True by done.
  rewrite batch_count, outcome_bind_Ok. cbv beta iota.
  rewrite loop_loop_nat, Nat2Z.id, (peek_entries_spec _ es (varint (len es)) [] seq).
  - rewrite outcome_bind_Ok. by destruct es.
  - by rewrite app_nil_r.
  - lia.
  - done.
  - done.
  - done.
Qed.
End whole_batch.

(** ** Logged operations *)

(** The calls that append, with the frame each writes when the last sequence
    number is [n], the records in it and how many numbers it uses. *)
Inductive op := OpPut (key value : slice) | OpDelete (key : slice) | OpBatch (es : list BatchEntry).

Definition op_type (o : op) : byte :=
  match o with OpPut _ _ => TypePut | OpDelete _ => TypeDelete | OpBatch _ => TypeBatch end.
Definition op_payload (n : Z) (o : op) : list byte :=
  match o with
  | OpPut k v => encodeKV (n + 1) (bs k) (bs v)
  | OpDelete k => encodeKV (n + 1) (bs k) []
  | OpBatch es => batch_payload n es
  end.
Definition op_count (o : op) : Z := match o with OpBatch es => len es | _ => 1 end.
Definition op_records (n : Z) (o : op) : list Record_ :=
  match o with
  | OpPut k v => [mkRecord TypePut (append_nil (bs k)) (append_nil (bs v)) (n + 1) false]
  | OpDelete k => [mkRecord TypeDelete (append_nil (bs k)) None (n + 1) true]
  | OpBatch es => entries_records n es
  end.
Definition append_op (o : op) : MLog Z :=
  match o with
  | OpPut k v => AppendPut k v
  | OpDelete k => AppendDelete k
  | OpBatch es => AppendBatch es
  end.

Definition frame (typ : byte) (payload : list byte) : list byte := frame_header typ payload ++ payload.
Definition op_frame (n : Z) (o : op) : list byte := frame (op_type o) (op_payload n o).

(** What the code can log: a batch that is not empty, a payload within the
    limit, sequence numbers that do not wrap. *)
Definition op_ok (n : Z) (o : op) : Prop :=
  0 <= n /\ n + op_count o < 2 ^ 64 /\ len (op_payload n o) <= 2 ^ 28 /\ o <> OpBatch [].

(** Sequences of operations. *)
Fixpoint log_bytes (n : Z) (os : list op) : list byte :=
  match os with [] => [] | o :: os => op_frame n o ++ log_bytes (n + op_count o) os end.
Fixpoint log_records (n : Z) (os : list op) : list Record_ :=
  match os with [] => [] | o :: os => op_records n o ++ log_records (n + op_count o) os end.
Fixpoint log_count (os : list op) : Z :=
  match os with [] => 0 | o :: os => op_count o + log_count os end.
Fixpoint log_ok (n : Z) (os : list op) : Prop :=
  match os with [] => True | o :: os => op_ok n o /\ log_ok (n + op_count o) os end.

Lemma log_bytes_app n os os' : log_bytes n (os ++ os') = log_bytes n os ++ log_bytes (n + log_count os) os'.
Proof.
  revert n. induction os as [|o os IH]; intros n; cbn [app log_bytes log_count].
  - by rewrite Z.add_0_r.
  - rewrite IH, <- app_assoc. by rewrite Z.add_assoc.
Qed.
Lemma log_records_app n os os' :
  log_records n (os ++ os') = log_records n os ++ log_records (n + log_count os) os'.
Proof.
  revert n. induction os as [|o os IH]; intros n; cbn [app log_records log_count].
  - by rewrite Z.add_0_r.
  - rewrite IH, <- app_assoc. by rewrite Z.add_assoc.
Qed.
Lemma log_count_app os os' : log_count (os ++ os') = log_count os + log_count os'.
Proof. induction os as [|o os IH]; cbn [app log_count]; [done|]. rewrite IH. lia. Qed.
Lemma log_ok_app n os os' :
  log_ok n (os ++ os') <-> log_ok n os /\ log_ok (n + log_count os) os'.
Proof.
  revert n. induction os as [|o os IH]; intros n; cbn [app log_ok log_count].
  - rewrite Z.add_0_r. tauto.
  - rewrite IH, Z.add_assoc. tauto.
Qed.

Lemma op_count_pos n o : op_ok n o -> 1 <= op_count o.
Proof. intros (_ & _ & _ & Hne). destruct o as [| |[|e es]]; cbn [op_count length]; try done; lia. Qed.

Lemma decodeFrame_op n o : op_ok n o -> decodeFrame (op_type o) (op_payload n o) = Ok (op_records n o).
Proof.
  intros (Hn & Hb & Hl & Hne). unfold decodeFrame. destruct o as [k v|k|es]; cbn [op_type op_payload op_records op_count] in *.
  - rewrite decide_True by (by left). by rewrite decodeOne_encodeKV by lia.
  - rewrite decide_True by (by right). by rewrite decodeOne_encodeKV by lia.
  - rewrite decide_False by (intros [?|?]; done). rewrite decide_True by done.
    apply decodeBatch_payload; lia.
Qed.

Lemma peekSeq_op n o : op_ok n o -> peekSeq (op_type o) (op_payload n o) = Ok (Some (n + op_count o)).
Proof.
  intros (Hn & Hb & Hl & Hne). destruct o as [k v|k|es]; cbn [op_type op_payload op_count] in *.
  - apply peekSeq_encodeKV; [by left|lia].
  - apply peekSeq_encodeKV; [by right|lia].
  - apply peekSeq_batch; try lia. by intros ->.
Qed.

(** ** Appending *)

Lemma io_run {A} (m : M World A) l w r w' : m w = (r, w') -> io m (l, w) = (r, (l, w')).
Proof. intros H. unfold io, zoom. cbn [fst snd]. by rewrite H. Qed.

(** An open log whose file is [c], in a world without failures ahead. *)
Definition log_on (s : Log * World) (i : nat) (c : list byte) : Prop :=
  calm (snd s) /\ closed (fst s) = false /\
  has_file (snd s) (f (fst s)) i (len c) c /\ size (fst s) = len c.

Lemma u32_payload n : 0 <= n <= 2 ^ 28 -> u32 n = n.
Proof. intros. apply u32_small. lia. Qed.

Lemma length_frame_header typ payload : length (frame_header typ payload) = 9%nat.
Proof. reflexivity. Qed.

Lemma length_frame typ payload : len (frame typ payload) = 9 + len payload.
Proof. unfold frame. rewrite length_app, length_frame_header. lia. Qed.

Lemma log_on_put l w i c c' a n :
  log_on (l, w) i c ->
  log_on (mkLog (dir l) (path l) (f l) (opts l) a (closed l) (len c') n,
          put_file (f l) i (len c') c' w) i c'.
Proof.
  intros (Hw & Hc & Hf & Hs). cbn [fst snd] in *. split_and!; try done.
  cbn. by eapply put_file_has.
Qed.

Lemma writeFrame_spec typ payload l w i c :
  log_on (l, w) i c -> len payload <= 2 ^ 28 -> len c < 2 ^ 61 ->
  let c' := c ++ frame typ payload in
  writeFrame typ payload (l, w) =
    (Ok tt, (mkLog (dir l) (path l) (f l) (opts l) (i64 (appends l + 1)) (closed l) (len c') (nextSeq l),
             put_file (f l) i (len c') c' w)).
Proof.
  intros (Hw & Hc & Hf & Hs) Hl Hcl c'. cbn [fst snd] in *. unfold writeFrame.
  change (Z.shiftl 1 28) with (2 ^ 28). rewrite (proj2 (Z.ltb_ge _ _)) by lia.
  rewrite (M_bind_Ok _ _ _ (f l) (l, w)) by done.
  set (hdr := frame_header typ payload).
  assert (len hdr = 9) as Hh by reflexivity.
  rewrite (M_bind_Ok _ _ _ _ _ (io_run _ l w _ _ (Write_end w (f l) i c hdr Hw Hf))).
  rewrite Z.eqb_refl. cbn [negb].
  assert (Hf1: has_file (put_file (f l) i (len c + len hdr) (c ++ hdr) w) (f l) i (len (c ++ hdr)) (c ++ hdr)).
  { replace (len c + len hdr) with (len (c ++ hdr)) by (rewrite length_app; lia). by eapply put_file_has. }
  assert (c' = c ++ hdr ++ payload) as Hc' by done.
  rewrite (M_bind_Ok _ _ _ tt (l, put_file (f l) i (len c') c' w)).
  2: { destruct (Z.ltb_spec 0 (len payload)) as [Hpos|Hz].
       - rewrite (M_bind_Ok _ _ _ _ _ (io_run _ l _ _ _
           (Write_end _ (f l) i (c ++ hdr) payload (put_file_calm _ _ _ _ _ Hw) Hf1))).
         rewrite Z.eqb_refl. cbn [negb]. rewrite put_file_put, <- app_assoc, <- Hc'.
         replace (len (c ++ hdr) + len payload) with (len c') by (rewrite Hc', !length_app; lia). done.
       - destruct payload; [|cbn in Hz; lia]. rewrite app_nil_r in Hc'. rewrite Hc'.
         replace (len c + len hdr) with (len (c ++ hdr)) by (rewrite length_app; lia). done. }
  unfold upd_log, modify. run_M. cbn [fst snd].
  unfold set_appends, set_size. cbn [dir path f opts appends closed size nextSeq].
  rewrite (i64_small (size l + _)), Hs; [|unfold headerSize; lia].
  replace (len c + (headerSize + len payload)) with (len c'); [done|].
  unfold c'. rewrite length_app, Nat2Z.inj_add, length_frame. unfold headerSize. lia.
Qed.

Lemma maybeSync_spec l w i c : log_on (l, w) i c -> maybeSyncLocked (l, w) = (Ok tt, (l, w)).
Proof.
  intros (Hw & Hc & Hf & Hs). cbn [fst snd] in *. unfold maybeSyncLocked.
  assert (io (File_Sync (f l)) (l, w) = (Ok tt, (l, w))) as Hsync
    by (by apply io_run, (Sync_spec w (f l) i (len c) c)).
  unfold get_log, gets. run_M. cbn [fst].
  destruct (0 <? SyncEveryN (opts l)); [|by destruct (SyncOnWrite (opts l))].
  by destruct (_ =? 0).
Qed.

Lemma allocSeq_spec l w :
  nextSeq l + 1 < 2 ^ 64 -> 0 <= nextSeq l ->
  allocSeq (l, w) = (Ok (nextSeq l + 1), (set_nextSeq (nextSeq l + 1) l, w)).
Proof.
  intros. unfold allocSeq, upd_log, get_log. run_M. cbn. by rewrite u64_small by lia.
Qed.

Lemma batch_loop_spec es : forall p last l w,
  0 <= nextSeq l -> nextSeq l + len es < 2 ^ 64 ->
  batch_loop es p last (l, w) =
    (Ok (p ++ entries_bytes (nextSeq l) es, if es is [] then last else nextSeq l + len es),
     (set_nextSeq (nextSeq l + len es) l, w)).
Proof.
  induction es as [|e es IH]; intros p last l w Hn Hb; cbn [batch_loop].
  - cbn. rewrite app_nil_r, Z.add_0_r. by destruct l.
  - cbn [length] in Hb. rewrite (M_bind_Ok _ _ _ _ _ (allocSeq_spec l w ltac:(lia) Hn)).
    rewrite IH by (cbn; lia). cbn [nextSeq set_nextSeq entries_bytes].
    rewrite encode_entry_app, <- app_assoc.
    replace (nextSeq l + 1 + len es) with (nextSeq l + len (e :: es)) by (cbn [length]; lia).
    by destruct es.
Qed.

Lemma set_nextSeq_on n l w i c : log_on (l, w) i c -> log_on (set_nextSeq n l, w) i c.
Proof. done. Qed.

(** Writing one operation's frame and syncing. *)
Lemma append_frame_spec (seq : Z) typ payload l w i c :
  log_on (l, w) i c -> len payload <= 2 ^ 28 -> len c < 2 ^ 61 ->
  exists a,
  (writeFrame typ payload;; maybeSyncLocked;; mret seq) (l, w) =
    (Ok seq, (mkLog (dir l) (path l) (f l) (opts l) a false (len (c ++ frame typ payload)) (nextSeq l),
             put_file (f l) i (len (c ++ frame typ payload)) (c ++ frame typ payload) w)).
Proof.
  intros Hon Hl Hc. exists (i64 (appends l + 1)).
  rewrite (M_bind_Ok _ _ _ _ _ (writeFrame_spec typ payload l w i c Hon Hl Hc)).
  rewrite (M_bind_Ok _ _ _ _ _ (maybeSync_spec _ _ i (c ++ frame typ payload) (log_on_put _ _ _ _ _ _ _ Hon))).
  destruct Hon as (_ & Hcl & _). cbn [fst] in Hcl. by rewrite Hcl.
Qed.

Lemma append_op_spec o l w i c :
  log_on (l, w) i c -> op_ok (nextSeq l) o -> len c < 2 ^ 61 ->
  let n := nextSeq l + op_count o in
  let c' := c ++ op_frame (nextSeq l) o in
  exists a, append_op o (l, w) =
    (Ok n, (mkLog (dir l) (path l) (f l) (opts l) a false (len c') n, put_file (f l) i (len c') c' w)).
Proof.
  intros Hon (Hn & Hb & Hl & Hne) Hc n c'. pose proof Hon as (_ & Hcl & _). cbn [fst] in Hcl.
  assert (forall A (m : MLog A), unless_closed m (l, w) = m (l, w)) as Hun.
  { intros A m. unfold unless_closed, get_log. run_M. cbn [fst]. by rewrite Hcl. }
  destruct o as [k v|k|es]; cbn [append_op op_payload op_count] in *.
  - unfold AppendPut. rewrite Hun, (M_bind_Ok _ _ _ _ _ (allocSeq_spec l w ltac:(lia) ltac:(lia))).
    apply (append_frame_spec n TypePut _ (set_nextSeq n l)); [done|lia|lia].
  - unfold AppendDelete. rewrite Hun, (M_bind_Ok _ _ _ _ _ (allocSeq_spec l w ltac:(lia) ltac:(lia))).
    apply (append_frame_spec n TypeDelete _ (set_nextSeq n l)); [done|lia|lia].
  - unfold AppendBatch. rewrite Hun. destruct es as [|e es]; [done|].
    rewrite (M_bind_Ok _ _ _ _ _ (batch_loop_spec (e :: es) _ 0 l w ltac:(lia) ltac:(lia))).
    cbv beta iota. apply (append_frame_spec n TypeBatch _ (set_nextSeq n l)); [done|exact Hl|lia].
Qed.

Fixpoint append_all (os : list op) : MLog (list Z) :=
  match os with [] => mret [] | o :: os => n ← append_op o; ns ← append_all os; mret (n :: ns) end.

(** The sequence numbers the calls return. *)
Fixpoint log_seqs (n : Z) (os : list op) : list Z :=
  match os with [] => [] | o :: os => (n + op_count o) :: log_seqs (n + op_count o) os end.

Lemma append_all_spec os : forall l w i c,
  log_on (l, w) i c -> log_ok (nextSeq l) os -> len (c ++ log_bytes (nextSeq l) os) < 2 ^ 61 ->
  let c' := c ++ log_bytes (nextSeq l) os in
  exists a, append_all os (l, w) =
    (Ok (log_seqs (nextSeq l) os),
     (mkLog (dir l) (path l) (f l) (opts l) a false (len c') (nextSeq l + log_count os),
      put_file (f l) i (len c') c' w)).
Proof.
  induction os as [|o os IH]; intros l w i c Hon Hok Hl; cbn [append_all log_bytes log_count log_seqs log_ok] in *.
  - exists (appends l). rewrite app_nil_r, Z.add_0_r. destruct Hon as (Hw & Hc & Hf & Hs). cbn [fst snd] in *.
    rewrite put_file_id by done. rewrite <- Hs, <- Hc. by destruct l.
  - destruct Hok as [Ho Hos]. rewrite app_assoc in Hl.
    destruct (append_op_spec o l w i c Hon Ho) as [a Ha]; [rewrite !length_app in Hl; lia|].
    rewrite (M_bind_Ok _ _ _ _ _ Ha).
    destruct (IH _ _ i _ (log_on_put l w i c (c ++ op_frame (nextSeq l) o) a (nextSeq l + op_count o) Hon))
      as [a' Ha']; [done|done|]. destruct Hon as (_ & Hcl & _). cbn [fst] in Hcl. rewrite Hcl in Ha'.
    exists a'. cbn [nextSeq dir path f opts] in Ha'.
    rewrite (M_bind_Ok _ _ _ _ _ Ha'), put_file_put, <- app_assoc, Z.add_assoc. done.
Qed.

(** The last sequence number of a log that starts after [n]; [mx] if it is empty. *)
Definition last_seq (mx n : Z) (os : list op) : Z := if os is [] then mx else n + log_count os.

Lemma last_seq_cons mx n o os : last_seq (n + op_count o) (n + op_count o) os = last_seq mx n (o :: os).
Proof. unfold last_seq. cbn [log_count]. destruct os; cbn; lia. Qed.
Lemma last_seq_0 os : last_seq 0 0 os = log_count os.
Proof. by destruct os. Qed.

(** ** Scanning *)

Lemma header_fields typ payload :
  len payload <= 2 ^ 28 ->
  u32_at (frame_header typ payload) 0 4 = Ok (len payload) /\
  index (frame_header typ payload) 4 = Ok typ /\
  u32_at (frame_header typ payload) 5 9 = Ok (FrameChecksum typ payload).
Proof.
  intros Hl. unfold u32_at, frame_header. split_and!.
  - rewrite subslice_0, outcome_bind_Ok, le_val_bytes4 by done. by rewrite !(u32_small (len payload)) by lia.
  - by apply (index_app_r (le_bytes 4 (u32 (len payload)))).
  - rewrite app_assoc, <- (app_nil_r (le_bytes 4 (FrameChecksum typ payload))).
    rewrite subslice_app, outcome_bind_Ok, le_val_bytes4 by done.
    by rewrite u32_small by apply FrameChecksum_range.
Qed.

(** What a crash can leave after the last complete frame: nothing, or part of
    a frame. *)
Definition torn (junk : list byte) : Prop :=
  junk = [] \/ exists typ payload rest,
    frame typ payload = junk ++ rest /\ rest <> [] /\ len payload <= 2 ^ 28.

Lemma torn_cases junk :
  torn junk -> (length junk < 9)%nat \/
  exists typ payload q, junk = frame_header typ payload ++ q /\ len q < len payload <= 2 ^ 28.
Proof.
  intros [->|(typ & payload & rest & Hf & Hr & Hl)]; [left; cbn; lia|].
  destruct (Nat.lt_ge_cases (length junk) 9) as [|H9]; [by left|right].
  unfold frame in Hf. exists typ, payload, (drop 9 junk).
  assert (junk = frame_header typ payload ++ drop 9 junk) as Hj.
  { rewrite <- (take_drop 9 junk) at 1. f_equal.
    apply (f_equal (take 9)) in Hf. rewrite (take_app_le junk) in Hf by lia.
    by rewrite take_app_exact in Hf by (by rewrite length_frame_header). }
  split; [done|]. split; [|done]. rewrite Hj in Hf. rewrite <- app_assoc in Hf. apply app_inv_head in Hf.
  rewrite Hf, length_app. destruct rest; [done|]. cbn [length]. lia.
Qed.

Section scan.
Context (w : World) (fl i : nat) (p : Z) (C : list byte).
Context (Hw : calm w) (Hf : has_file w fl i p C) (Hlen : len C < 2 ^ 61).

Lemma read_seg pre b post n :
  C = pre ++ b ++ post -> n = len b -> File_ReadAt fl n (len pre) w = (Ok b, w).
Proof. intros HC Hn. apply (ReadAt_seg w fl i p pre b post); [done|by rewrite <- HC|done..]. Qed.

Lemma scan_torn fuel pre junk m :
  C = pre ++ junk -> torn junk ->
  scan_loop (S fuel) fl (len C) (len pre) m w = (Ok (len pre, m), w).
Proof.
  intros HC Ht. pose proof Hlen as Hlen'. rewrite HC, length_app in Hlen'. cbn [scan_loop].
  unfold headerSize. rewrite (i64_small (len pre + 9)) by lia.
  assert (len C = len pre + len junk) as HlC by (rewrite HC, length_app; lia).
  destruct (torn_cases _ Ht) as [Hshort|(typ & payload & q & -> & Hq)].
  - by rewrite (proj2 (Z.leb_gt _ _)) by lia.
  - rewrite length_app, length_frame_header in HlC, Hlen'. rewrite (proj2 (Z.leb_le _ _)) by lia.
    rewrite (M_bind_Ok _ _ _ (inl (frame_header typ payload)) w).
    2: { unfold try_. by rewrite (read_seg pre (frame_header typ payload) q) by done. }
    destruct (header_fields typ payload) as (H1 & H2 & H3); [lia|].
    rewrite (M_bind_Ok _ _ _ (len payload) w) by (unfold lift; by rewrite H1).
    rewrite (M_bind_Ok _ _ _ typ w) by (unfold lift; by rewrite H2).
    rewrite (M_bind_Ok _ _ _ (FrameChecksum typ payload) w) by (unfold lift; by rewrite H3).
    case_decide; [done|]. cbv zeta. rewrite i64_small by lia.
    by rewrite (proj2 (Z.ltb_lt _ _)) by lia.
Qed.

Lemma op_type_known o : ~ (op_type o <> TypePut /\ op_type o <> TypeDelete /\ op_type o <> TypeBatch).
Proof. destruct o; cbn; tauto. Qed.

(** Reading back the frame of one operation. *)
Lemma read_frame n o pre post :
  C = pre ++ op_frame n o ++ post -> op_ok n o ->
  let payload := op_payload n o in
  File_ReadAt fl 9 (len pre) w = (Ok (frame_header (op_type o) payload), w) /\
  (if 0 <? len payload then try_ (File_ReadAt fl (len payload) (len pre + 9)) else mret (inl [])) w =
    (Ok (inl payload), w) /\
  len pre + 9 + len payload = len (pre ++ op_frame n o) /\
  len (pre ++ op_frame n o) + len post = len C.
Proof.
  intros HC Hok payload. unfold op_frame, frame in HC. split_and!.
  - apply read_seg with (payload ++ post); [by rewrite HC, <- app_assoc|done].
  - destruct (Z.ltb_spec 0 (len payload)) as [Hpos|Hz].
    + unfold try_. replace (len pre + 9) with (len (pre ++ frame_header (op_type o) payload))
        by (rewrite length_app, length_frame_header; lia).
      rewrite (read_seg _ payload post) by (rewrite ?HC, <- ?app_assoc; done). done.
    + by destruct payload; [|cbn in Hz; lia].
  - unfold op_frame, frame. rewrite !length_app, length_frame_header. unfold payload. lia.
  - rewrite HC. unfold op_frame, frame. rewrite !length_app. lia.
Qed.

Lemma scan_loop_spec os : forall fuel pre mx n junk,
  C = pre ++ log_bytes n os ++ junk -> torn junk -> log_ok n os -> mx <= n -> (length os < fuel)%nat ->
  scan_loop fuel fl (len C) (len pre) mx w = (Ok (len (pre ++ log_bytes n os), last_seq mx n os), w).
Proof.
  induction os as [|o os IH]; intros [|fuel] pre mx n junk HC Ht Hok Hmx Hfuel; cbn [length] in Hfuel; try lia.
  - cbn [log_bytes app] in *. rewrite app_nil_r. by eapply scan_torn.
  - cbn [log_bytes log_count log_ok] in *. destruct Hok as [Ho Hok]. rewrite <- app_assoc in HC.
    destruct (read_frame n o pre _ HC Ho) as (Hh & Hp & Hl1 & Hl2).
    assert (len (op_payload n o) <= 2 ^ 28) as Hpl by apply Ho.
    cbn [scan_loop]. unfold headerSize.
    rewrite (i64_small (len pre + 9)) by lia. rewrite (proj2 (Z.leb_le _ _)) by lia.
    rewrite (M_bind_Ok _ _ _ (inl (frame_header (op_type o) (op_payload n o))) w)
      by (unfold try_; by rewrite Hh).
    destruct (header_fields (op_type o) (op_payload n o) Hpl) as (H1 & H2 & H3).
    rewrite (M_bind_Ok _ _ _ (len (op_payload n o)) w) by (unfold lift; by rewrite H1).
    rewrite (M_bind_Ok _ _ _ (op_type o) w) by (unfold lift; by rewrite H2).
    rewrite (M_bind_Ok _ _ _ (FrameChecksum (op_type o) (op_payload n o)) w) by (unfold lift; by rewrite H3).
    rewrite decide_False by apply op_type_known. cbv zeta.
    rewrite (i64_small (_ + len (op_payload n o))) by lia. rewrite (proj2 (Z.ltb_ge _ _)) by lia.
    rewrite (M_bind_Ok _ _ _ _ _ Hp), Z.eqb_refl. cbn [negb].
    rewrite (M_bind_Ok _ _ _ (Some (n + op_count o)) w) by (unfold lift; by rewrite peekSeq_op).
    pose proof (op_count_pos n o Ho). rewrite (proj2 (Z.ltb_lt _ _)), Hl1 by lia.
    rewrite (IH fuel (pre ++ op_frame n o) (n + op_count o) (n + op_count o) junk);
      [by rewrite <- app_assoc, (last_seq_cons mx)|by rewrite HC, <- !app_assoc|done..|lia].
Qed.
End scan.

(** ** Replaying *)

Section replay_facts.
Context {A : Type} (fn : Record_ -> M A unit).

Lemma io_replay_run {B} (m : M World B) (a : A) l w r w' :
  m w = (r, w') -> io_replay m (a, (l, w)) = (r, (a, (l, w'))).
Proof. intros H. unfold io_replay, zoom. cbn [fst snd]. by rewrite (io_run _ _ _ _ _ H). Qed.

Lemma try_io_replay {B} (m : M World B) (a : A) l w b :
  m w = (Ok b, w) -> try_ (io_replay m) (a, (l, w)) = (Ok (inl b), (a, (l, w))).
Proof. intros H. unfold try_. by rewrite (io_replay_run _ _ _ _ _ _ H). Qed.

Lemma try_io_try {B} (m : M World B) (a : A) l w x :
  try_ m w = (Ok x, w) -> try_ (io_replay m) (a, (l, w)) = (Ok x, (a, (l, w))).
Proof.
  unfold try_, io_replay, io, zoom. cbn [fst snd].
  destruct (m w) as [[b|e|q|] w']; intros [= <- ->]; done.
Qed.

(** The callback only changes its own state. *)
Lemma call_all_state recs : forall a s, exists r a', call_all fn recs (a, s) = (r, (a', s)).
Proof.
  induction recs as [|x recs IH]; intros a s; cbn [call_all]; [by eexists _, _|].
  unfold mbind, M_bind, zoom. cbn [fst snd]. destruct (fn x a) as [[[]|e|q|] a']; eauto.
Qed.

Lemma call_all_app recs recs' s :
  call_all fn (recs ++ recs') s = (call_all fn recs;; call_all fn recs') s.
Proof.
  revert s. induction recs as [|x recs IH]; intros s; [done|]. cbn [app call_all].
  unfold mbind, M_bind, zoom in *. destruct (fn x (fst s)) as [[[]|e|q|] a']; [apply IH|done..].
Qed.

Context (w : World) (fl i : nat) (p : Z) (C : list byte) (l : Log).
Context (Hw : calm w) (Hf : has_file w fl i p C) (Hlen : len C < 2 ^ 61).

Lemma replay_torn fuel pre junk a :
  C = pre ++ junk -> torn junk ->
  replay_loop fn (S fuel) fl (len C) (len pre) (a, (l, w)) = (Ok tt, (a, (l, w))).
Proof.
  intros HC Ht. pose proof Hlen as Hlen'. rewrite HC, length_app in Hlen'. cbn [replay_loop].
  unfold headerSize. rewrite (i64_small (len pre + 9)) by lia.
  assert (len C = len pre + len junk) as HlC by (rewrite HC, length_app; lia).
  destruct (torn_cases _ Ht) as [Hshort|(typ & payload & q & -> & Hq)].
  - by rewrite (proj2 (Z.leb_gt _ _)) by lia.
  - rewrite length_app, length_frame_header in HlC, Hlen'. rewrite (proj2 (Z.leb_le _ _)) by lia.
    rewrite (M_bind_Ok _ _ _ (inl (frame_header typ payload)) (a, (l, w))).
    2: { apply try_io_replay. by eapply read_seg. }
    destruct (header_fields typ payload) as (H1 & H2 & H3); [lia|].
    rewrite (M_bind_Ok _ _ _ (len payload) (a, (l, w))) by (unfold lift; by rewrite H1).
    rewrite (M_bind_Ok _ _ _ typ (a, (l, w))) by (unfold lift; by rewrite H2).
    rewrite (M_bind_Ok _ _ _ (FrameChecksum typ payload) (a, (l, w))) by (unfold lift; by rewrite H3).
    cbv zeta. rewrite i64_small by lia. by rewrite (proj2 (Z.ltb_lt _ _)) by lia.
Qed.

Lemma replay_loop_spec os : forall fuel pre n junk a,
  C = pre ++ log_bytes n os ++ junk -> torn junk -> log_ok n os -> (length os < fuel)%nat ->
  replay_loop fn fuel fl (len C) (len pre) (a, (l, w)) = call_all fn (log_records n os) (a, (l, w)).
Proof.
  induction os as [|o os IH]; intros [|fuel] pre n junk a HC Ht Hok Hfuel; cbn [length] in Hfuel; try lia.
  - cbn [log_bytes log_records app call_all] in *. by eapply replay_torn.
  - cbn [log_bytes log_records log_ok] in *. destruct Hok as [Ho Hok]. rewrite <- app_assoc in HC.
    destruct (read_frame w fl i p C Hw Hf n o pre _ HC Ho) as (Hh & Hp & Hl1 & Hl2).
    assert (len (op_payload n o) <= 2 ^ 28) as Hpl by apply Ho.
    cbn [replay_loop]. unfold headerSize.
    rewrite (i64_small (len pre + 9)) by lia. rewrite (proj2 (Z.leb_le _ _)) by lia.
    rewrite (M_bind_Ok _ _ _ _ _ (try_io_replay _ a l w _ Hh)).
    destruct (header_fields (op_type o) (op_payload n o) Hpl) as (H1 & H2 & H3).
    rewrite (M_bind_Ok _ _ _ (len (op_payload n o)) (a, (l, w))) by (unfold lift; by rewrite H1).
    rewrite (M_bind_Ok _ _ _ (op_type o) (a, (l, w))) by (unfold lift; by rewrite H2).
    rewrite (M_bind_Ok _ _ _ (FrameChecksum (op_type o) (op_payload n o)) (a, (l, w)))
      by (unfold lift; by rewrite H3).
    cbv zeta. rewrite (i64_small (_ + len (op_payload n o))) by lia.
    rewrite (proj2 (Z.ltb_ge _ _)) by lia.
    rewrite (M_bind_Ok _ _ _ (inl (op_payload n o)) (a, (l, w))).
    2: { destruct (0 <? len (op_payload n o)); [|unfold mret, M_ret in Hp; injection Hp as Hp; by rewrite <- Hp].
         by apply try_io_try. }
    rewrite Z.eqb_refl. cbn [negb].
    rewrite (M_bind_Ok _ _ _ (op_records n o) (a, (l, w))) by (unfold lift; by rewrite decodeFrame_op).
    rewrite call_all_app. destruct (call_all_state (op_records n o) a (l, w)) as (r & a' & Hr).
    unfold mbind, M_bind. rewrite Hr. destruct r as [[]|e|q|]; try done. rewrite Hl1.
    apply (IH fuel (pre ++ op_frame n o) (n + op_count o) junk); [by rewrite HC, <- !app_assoc|done..|lia].
Qed.
End replay_facts.

Lemma frames_length n os : (9 * length os <= length (log_bytes n os))%nat.
Proof.
  revert n. induction os as [|o os IH]; intros n; cbn [log_bytes length]; [lia|].
  rewrite length_app. specialize (IH (n + op_count o)). pose proof (length_frame (op_type o) (op_payload n o)).
  unfold op_frame. lia.
Qed.

(** [Replay] hands the records to its callback in log order; afterwards the
    offset is back at the end, or left at the start when the callback fails. *)
Lemma Replay_spec {A} (fn : Record_ -> M A unit) a l w i n os :
  let c := log_bytes n os in
  log_on (l, w) i c -> log_ok n os -> len c < 2 ^ 61 ->
  Replay fn (a, (l, w)) =
    match call_all fn (log_records n os) (a, (l, w)) with
    | (Ok _, s) => (Ok tt, s)
    | (r, s) => (r, (fst s, (l, put_file (f l) i 0 c w)))
    end.
Proof.
  intros c (Hw & Hcl & Hf & Hs) Hok Hl. cbn [fst snd] in *. unfold Replay. cbn [fst snd]. rewrite Hcl.
  assert (has_file (put_file (f l) i 0 c w) (f l) i 0 c) as Hf0 by (by eapply put_file_has).
  rewrite (M_bind_Ok _ _ _ _ _
    (io_replay_run _ a l w _ _ (Seek_spec w (f l) i (len c) c 0 SeekStart Hw Hf ltac:(lia)))).
  rewrite Hs. pose proof (frames_length n os) as Hfr.
  assert (replay_loop fn (S (Z.to_nat (len c))) (f l) (len c) 0 (a, (l, put_file (f l) i 0 c w)) =
    call_all fn (log_records n os) (a, (l, put_file (f l) i 0 c w))) as Hloop.
  { apply (replay_loop_spec fn (put_file (f l) i 0 c w) (f l) i 0 c l (put_file_calm _ _ _ _ _ Hw) Hf0 Hl
      os _ [] n []); [by rewrite app_nil_r|by left|done|]. unfold c. lia. }
  assert (forall s, call_all fn (log_records n os) (a, s) =
    match call_all fn (log_records n os) (a, (l, w)) with (r, s') => (r, (fst s', s)) end) as Hindep.
  { intros s. generalize (log_records n os). intros recs. clear. revert a.
    induction recs as [|x recs IH]; intros a; [done|]. cbn [call_all].
    unfold mbind, M_bind, zoom. cbn [fst snd]. by destruct (fn x a) as [[[]|e|q|] a']. }
  rewrite Hindep in Hloop.
  destruct (call_all_state fn (log_records n os) a (l, w)) as (r & a' & Hr). rewrite Hr in Hloop |- *.
  cbn [fst] in Hloop. unfold mbind, M_bind. rewrite Hloop. destruct r as [[]|e|q|]; try done.
  rewrite (io_replay_run _ a' l _ _ _ (Seek_spec _ (f l) i 0 c (len c) SeekStart
    (put_file_calm _ _ _ _ _ Hw) Hf0 ltac:(lia))).
  rewrite put_file_put, put_file_id by done. done.
Qed.

(** ** Opening *)

Lemma scan_file w fl i p n os junk :
  calm w -> let C := log_bytes n os ++ junk in
  has_file w fl i p C -> len C < 2 ^ 61 -> 0 <= n -> log_ok n os -> torn junk ->
  scanValidPrefix fl (len C) w =
    (Ok (len (log_bytes n os), last_seq 0 n os), put_file fl i 0 C w).
Proof.
  intros Hw C Hf Hl Hn Hok Ht. unfold scanValidPrefix.
  rewrite (M_bind_Ok _ _ _ _ _ (Seek_spec w fl i p C 0 SeekStart Hw Hf ltac:(lia))).
  pose proof (frames_length n os) as Hfr.
  apply (scan_loop_spec (put_file fl i 0 C w) fl i 0 C (put_file_calm _ _ _ _ _ Hw)
    (put_file_has _ _ _ _ _ _ _ Hf) Hl os _ [] 0 n junk); [done..|].
  rewrite Nat2Z.id. unfold C. rewrite length_app. lia.
Qed.

Definition fresh_log (dir path : string) (fl : nat) (o : Options) (sz : Z) : Log :=
  mkLog dir path fl o 0 false sz 0.

Lemma recoverTail_spec w dir path fl o i n os junk :
  calm w -> let C := log_bytes n os ++ junk in
  has_file w fl i 0 C -> len C < 2 ^ 61 -> 0 <= n -> log_ok n os -> torn junk ->
  let c := log_bytes n os in
  recoverTail (fresh_log dir path fl o (len C), w) =
    (Ok tt, (mkLog dir path fl o 0 false (len c) (last_seq 0 n os), put_file fl i (len c) c w)).
Proof.
  intros Hw C Hf Hl Hn Hok Ht c. unfold recoverTail.
  rewrite (M_bind_Ok _ _ _ (len C) (fresh_log dir path fl o (len C), w)) by done.
  assert (len C = len c + len junk) as HlC by (unfold C, c; rewrite length_app; lia).
  destruct (Z.eqb_spec (len C) 0) as [E0|E0].
  - assert (C = []) as HC by (destruct C; [done|cbn in E0; lia]).
    unfold C in HC. apply app_eq_nil in HC as [Hc Hj]. unfold c, C in *. rewrite Hc, Hj in *.
    destruct os as [|op0 os]; [|exfalso; pose proof (frames_length n (op0 :: os)) as Hfr;
      rewrite Hc in Hfr; cbn in Hfr; lia].
    cbn. f_equal. f_equal. symmetry. by apply put_file_id.
  - rewrite (M_bind_Ok _ _ _ fl (fresh_log dir path fl o (len C), w)) by done.
    rewrite (M_bind_Ok _ _ _ _ _ (io_run _ _ w _ _ (scan_file w fl i 0 n os junk Hw Hf Hl Hn Hok Ht))).
    fold C c. cbv beta iota.
    rewrite (M_bind_Ok _ _ _ tt (set_nextSeq (last_seq 0 n os) (fresh_log dir path fl o (len C)),
      put_file fl i 0 C w)) by done.
    set (l1 := set_nextSeq _ _). set (w1 := put_file fl i 0 C w).
    assert (calm w1) as Hw1 by done.
    assert (has_file w1 fl i 0 C) as Hf1 by (by eapply put_file_has).
    destruct (Z.ltb_spec (len c) (len C)) as [Hlt|Hge].
    + assert (take (Z.to_nat (len c)) C = c) as Htk by (rewrite Nat2Z.id; unfold C; apply take_app_length).
      pose proof (Truncate_spec w1 fl i 0 C (len c) Hw1 Hf1 ltac:(lia)) as Htr. rewrite Htk in Htr.
      rewrite (M_bind_Ok _ _ _ _ _ (io_run _ l1 _ _ _ Htr)).
      assert (has_file (put_file fl i 0 c w1) fl i 0 c) as Hf2 by (by eapply put_file_has).
      rewrite (M_bind_Ok _ _ _ _ _ (io_run _ l1 _ _ _
        (Seek_spec (put_file fl i 0 c w1) fl i 0 c (len c) SeekStart Hw1 Hf2 ltac:(lia)))).
      unfold w1. by rewrite !put_file_put.
    + assert (junk = []) as Hj by (destruct junk; [done|cbn [length] in HlC; lia]).
      assert (C = c) as HCc by (unfold C; by rewrite Hj, app_nil_r).
      rewrite (M_bind_Ok _ _ _ _ _ (io_run _ l1 _ _ _
        (Seek_spec w1 fl i 0 C 0 SeekEnd Hw1 Hf1 ltac:(lia)))).
      unfold w1, l1. rewrite put_file_put, Z.add_0_r, HCc. reflexivity.
Qed.

(** [Open] on a log file that holds complete frames and a torn one. *)
Lemma Open_spec w dir o i n os junk :
  calm w -> names w !! filepath_Join dir (FileName (normalize o)) = Some i ->
  let C := log_bytes n os ++ junk in
  inodes w !! i = Some C -> len C < 2 ^ 61 -> 0 <= n -> log_ok n os -> torn junk ->
  exists l w', Open dir o w = (Ok l, w') /\ log_on (l, w') i (log_bytes n os) /\
    nextSeq l = last_seq 0 n os /\ f l = length (fds w) /\ names w' = names w /\ length (inodes w') = length (inodes w) /\
    preserves i w w'.
Proof.
  intros Hw Hn C Hi Hl Hn0 Hok Ht. unfold Open.
  rewrite (M_bind_Ok _ _ _ tt w) by (unfold MkdirAll; by rewrite syscall_calm).
  destruct (OpenFile_existing w _ i C (mkFlags true false false) Hw Hn Hi eq_refl eq_refl)
    as (w1 & Ho & Hw1 & Hf1 & Hn1 & Hi1).
  pose proof (OpenFile_fds_kept _ _ _ _ _ Ho) as Hfk.
  rewrite (M_bind_Ok _ _ _ _ _ Ho). set (fl := length (fds w)) in *.
  rewrite (M_bind_Ok _ _ _ (inl (len C)) w1) by (unfold try_; by rewrite (Size_spec w1 fl i 0 C)).
  pose proof (recoverTail_spec w1 dir (filepath_Join dir (FileName (normalize o))) fl (normalize o)
    i n os junk Hw1 Hf1 Hl Hn0 Hok Ht) as Hr.
  eexists _, _. split; [|split; [|split_and!]].
  - unfold mbind at 1, M_bind at 1. unfold try_, scoped. fold C in Hr. unfold fresh_log in Hr.
    rewrite Hr. done.
  - split_and!; try done. cbn. by eapply put_file_has.
  - done.
  - done.
  - done.
  - cbn. by rewrite length_insert, Hi1.
  - split.
    + intros j c Hj Hc. cbn. by rewrite list_lookup_insert_ne, Hi1 by done.
    + intros g d Hd. cbn. rewrite list_lookup_insert_ne; [by apply Hfk|]. apply lookup_lt_Some in Hd. unfold fl. lia.
Qed.

Lemma Open_fresh w dir o :
  calm w -> names w !! filepath_Join dir (FileName (normalize o)) = None ->
  exists l w', Open dir o w = (Ok l, w') /\ log_on (l, w') (length (inodes w)) [] /\ nextSeq l = 0 /\
    f l = length (fds w) /\
    names w' = <[filepath_Join dir (FileName (normalize o)) := length (inodes w)]> (names w) /\
    inodes w' = inodes w ++ [[]] /\ preserves (length (inodes w)) w w'.
Proof.
  intros Hw Hn. unfold Open.
  rewrite (M_bind_Ok _ _ _ tt w) by (unfold MkdirAll; by rewrite syscall_calm).
  destruct (OpenFile_create w _ (mkFlags true false false) Hw Hn eq_refl)
    as (w1 & Ho & Hw1 & Hf1 & Hn1 & Hi1).
  pose proof (OpenFile_fds_kept _ _ _ _ _ Ho) as Hfk.
  rewrite (M_bind_Ok _ _ _ _ _ Ho). set (fl := length (fds w)) in *.
  rewrite (M_bind_Ok _ _ _ (inl 0) w1) by (unfold try_; by rewrite (Size_spec w1 fl (length (inodes w)) 0 [])).
  eexists _, _. split; [done|]. split_and!; try done. split; [|done].
  intros j c Hj Hc. rewrite Hi1. by apply lookup_app_l_Some.
Qed.

(** Cutting a log anywhere leaves complete frames and a torn one. *)
Lemma log_cut os : forall n k, log_ok n os ->
  exists os1 os2 junk, os = os1 ++ os2 /\ take k (log_bytes n os) = log_bytes n os1 ++ junk /\
    torn junk /\ match os2 with [] => True | o :: _ => (k < length (log_bytes n (os1 ++ [o])))%nat end.
Proof.
  induction os as [|o os IH]; intros n k Hok; cbn [log_bytes log_ok] in *.
  - exists [], [], []. rewrite take_nil. split_and!; try done. by left.
  - destruct Hok as [Ho Hok]. destruct (Nat.lt_ge_cases k (length (op_frame n o))) as [Hlt|Hge].
    + exists [], (o :: os), (take k (op_frame n o)). split; [done|].
      rewrite take_app_le by lia. split; [done|]. split.
      * right. exists (op_type o), (op_payload n o), (drop k (op_frame n o)).
        split; [unfold op_frame; by rewrite take_drop|]. split; [|apply Ho].
        intros Hd. apply (f_equal length) in Hd. rewrite length_drop in Hd. change (length (@nil byte)) with 0%nat in Hd. lia.
      * cbn [app log_bytes]. by rewrite app_nil_r.
    + destruct (IH (n + op_count o) (k - length (op_frame n o))%nat Hok)
        as (os1 & os2 & junk & -> & Ht & Htorn & Hmax).
      exists (o :: os1), os2, junk. split; [done|]. rewrite take_app_ge by lia. rewrite Ht.
      split; [cbn [log_bytes]; by rewrite <- app_assoc|]. split; [done|].
      destruct os2 as [|o' os2]; [done|]. cbn [app log_bytes] in *. rewrite length_app. lia.
Qed.

(** Recording the replayed records. *)
Definition collect (r : Record_) : M (list Record_) unit := modify (fun out => out ++ [r]).

Lemma call_all_collect recs out s : call_all collect recs (out, s) = (Ok tt, (out ++ recs, s)).
Proof.
  revert out. induction recs as [|r recs IH]; intros out; cbn [call_all]; [by rewrite app_nil_r|].
  unfold mbind, M_bind, zoom, collect, modify in *. cbn [fst snd]. by rewrite IH, <- app_assoc.
Qed.

(** Appending to a recovered log and replaying it. *)
Lemma append_and_replay n os1 os l w i :
  log_on (l, w) i (log_bytes n os1) -> nextSeq l = n + log_count os1 ->
  log_ok n (os1 ++ os) -> len (log_bytes n (os1 ++ os)) < 2 ^ 61 ->
  exists l' w', append_all os (l, w) = (Ok (log_seqs (n + log_count os1) os), (l', w')) /\
    inodes w' !! i = Some (log_bytes n (os1 ++ os)) /\
    nextSeq l' = n + log_count (os1 ++ os) /\
    Replay collect ([], (l', w')) = (Ok tt, (log_records n (os1 ++ os), (l', w'))).
Proof.
  intros Hon Hn Hok Hl. pose proof (proj1 (log_ok_app _ _ _) Hok) as [_ Hok2].
  pose proof (log_bytes_app n os1 os) as Hb. rewrite <- Hn in Hok2, Hb.
  destruct (append_all_spec os l w i _ Hon Hok2) as [a Ha]; [by rewrite <- Hb|].
  rewrite <- Hb in Ha. eexists _, _. rewrite <- Hn. split; [exact Ha|].
  assert (log_on (mkLog (dir l) (path l) (f l) (opts l) a false (len (log_bytes n (os1 ++ os)))
    (nextSeq l + log_count os),
    put_file (f l) i (len (log_bytes n (os1 ++ os))) (log_bytes n (os1 ++ os)) w) i
    (log_bytes n (os1 ++ os))) as Hon'.
  { pose proof (log_on_put l w i _ (log_bytes n (os1 ++ os)) a (nextSeq l + log_count os) Hon) as H.
    destruct Hon as (_ & Hcl & _). cbn [fst] in Hcl. by rewrite Hcl in H. }
  split; [apply Hon'|]. split.
  - cbn [nextSeq]. rewrite Hn, log_count_app. lia.
  - by rewrite (Replay_spec collect [] _ _ i n (os1 ++ os) Hon' Hok Hl), call_all_collect.
Qed.

Lemma Reset_spec l w i c :
  log_on (l, w) i c ->
  exists l' w', Reset (l, w) = (Ok tt, (l', w')) /\ log_on (l', w') i [] /\ nextSeq l' = nextSeq l /\
    f l' = f l /\ w' = put_file (f l) i 0 [] w.
Proof.
  intros (Hw & Hcl & Hf & Hs). cbn [fst snd] in *. unfold Reset, unless_closed.
  rewrite (M_bind_Ok _ _ _ (closed l) (l, w)) by done. rewrite Hcl.
  rewrite (M_bind_Ok _ _ _ (f l) (l, w)) by done.
  rewrite (M_bind_Ok _ _ _ _ _ (io_run _ l _ _ _ (Truncate_spec w (f l) i (len c) c 0 Hw Hf ltac:(lia)))).
  change (take (Z.to_nat 0) c) with (@nil byte).
  assert (has_file (put_file (f l) i (len c) [] w) (f l) i (len c) []) as Hf1 by (by eapply put_file_has).
  rewrite (M_bind_Ok _ _ _ _ _ (io_run _ l _ _ _ (Seek_spec _ (f l) i (len c) [] 0 SeekStart
    (put_file_calm _ _ _ _ _ Hw) Hf1 ltac:(lia)))).
  rewrite put_file_put.
  assert (has_file (put_file (f l) i 0 [] w) (f l) i 0 []) as Hf2 by (by eapply put_file_has).
  rewrite (M_bind_Ok _ _ _ tt (set_size 0 l, put_file (f l) i 0 [] w)) by done.
  rewrite (M_bind_Ok _ _ _ tt (set_appends 0 (set_size 0 l), put_file (f l) i 0 [] w)) by done.
  rewrite (io_run _ _ _ _ _ (Sync_spec (put_file (f l) i 0 [] w) (f l) i 0 [] (put_file_calm _ _ _ _ _ Hw) Hf2)).
  eexists _, _. split; [done|]. by split_and!.
Qed.

Lemma log_Close_spec l w i c :
  log_on (l, w) i c ->
  exists l' w', Close (l, w) = (Ok tt, (l', w')) /\ calm w' /\ touches (f l) i w w' /\ inodes w' = inodes w.
Proof.
  intros (Hw & Hcl & Hf & Hs). cbn [fst snd] in *.
  destruct (Os.Close_spec w (f l) i _ _ Hw Hf) as (w' & Hclose & Hc' & Ht & Hi).
  exists (set_closed true l), w'. split_and!; try done. unfold Close, get_log, gets.
  rewrite (M_bind_Ok _ _ _ (closed l) (l, w)) by done. rewrite Hcl.
  rewrite (M_bind_Ok _ _ _ tt (set_closed true l, w)) by done.
  rewrite (M_bind_Ok _ _ _ (f l) (set_closed true l, w)) by done.
  rewrite (M_bind_Ok _ _ _ (inl tt) (set_closed true l, w)) by
    (unfold try_; by rewrite (io_run _ _ _ _ _ (Sync_spec w (f l) i _ _ Hw Hf))).
  by rewrite (M_bind_Ok _ _ _ (inl tt) (set_closed true l, w')) by (unfold try_; by rewrite (io_run _ _ _ _ _ Hclose)).
Qed.

(** ** Calls in any world

    The facts below hold whatever calls fail. *)

(** [leads f P m]: running [m] moves [f] of the log as [P] says. *)
Definition leads {A} (P : Log -> Log -> Prop) (m : MLog A) : Prop :=
  forall s, P (fst s) (fst (snd (m s))).

Lemma leads_bind {A B} (P : Log -> Log -> Prop) `{!Transitive P} (m : MLog A) (g : A -> MLog B) :
  leads P m -> (forall a, leads P (g a)) -> leads P (m ≫= g).
Proof.
  intros Hm Hg s. specialize (Hm s). unfold mbind, M_bind.
  destruct (m s) as [[a|e|q|] s'] eqn:E; cbn [fst snd] in *; try done.
  etrans; [exact Hm|apply Hg].
Qed.

Lemma leads_io {A} (P : Log -> Log -> Prop) `{!Reflexive P} (m : M World A) : leads P (io m).
Proof. intros [l w]. unfold io, zoom. cbn. by destruct (m w). Qed.
Lemma leads_get {A} (P : Log -> Log -> Prop) `{!Reflexive P} (g : Log -> A) : leads P (get_log g).
Proof. intros s. done. Qed.
Lemma leads_ret {A} (P : Log -> Log -> Prop) `{!Reflexive P} (a : A) : leads P (mret a).
Proof. intros s. done. Qed.
Lemma leads_throw {A} (P : Log -> Log -> Prop) `{!Reflexive P} e : leads P (throw (A := A) e).
Proof. intros s. done. Qed.
Lemma leads_upd (P : Log -> Log -> Prop) g : (forall l, P l (g l)) -> leads P (upd_log g).
Proof. intros H s. apply H. Qed.
Lemma leads_try {A} (P : Log -> Log -> Prop) (m : MLog A) : leads P m -> leads P (try_ m).
Proof. intros H s. specialize (H s). unfold try_. by destruct (m s) as [[a|e|q|] s']. Qed.

Create HintDb leads.
#[local] Hint Resolve leads_io leads_get leads_ret leads_throw leads_try : leads.
#[local] Hint Extern 5 (leads _ (upd_log _)) => (apply leads_upd; intros; done) : leads.
Ltac leads_tac :=
  repeat first [ solve [eauto with leads typeclass_instances] | apply leads_bind; [apply _| |intros ?]
               | case_match ].

(** The sequence counter stands still. *)
Definition same_seq (l l' : Log) : Prop := nextSeq l' = nextSeq l.
#[local] Instance same_seq_preorder : PreOrder same_seq.
Proof. split; [done|]. intros a b c H1 H2. unfold same_seq in *. congruence. Qed.

Lemma writeFrame_same_seq typ payload : leads same_seq (writeFrame typ payload).
Proof. unfold writeFrame. leads_tac. Qed.
Lemma maybeSync_same_seq : leads same_seq maybeSyncLocked.
Proof. unfold maybeSyncLocked. leads_tac. Qed.
#[local] Hint Resolve writeFrame_same_seq maybeSync_same_seq : leads.

Lemma Reset_same_seq : leads same_seq Reset.
Proof. unfold Reset, unless_closed. leads_tac. Qed.
Lemma Sync_same_seq : leads same_seq Sync.
Proof. unfold Sync, unless_closed. leads_tac. Qed.
Lemma Close_same_seq : leads same_seq Close.
Proof. unfold Close. leads_tac. Qed.

Lemma write_and_sync_seq (seq : Z) typ payload s :
  let r := (writeFrame typ payload;; maybeSyncLocked;; mret seq) s in
  nextSeq (fst (snd r)) = nextSeq (fst s) /\ forall n, fst r = Ok n -> n = seq.
Proof.
  assert (leads same_seq (writeFrame typ payload;; maybeSyncLocked;; mret seq)) as Hl by leads_tac.
  split; [apply Hl|]. intros n. unfold mbind, M_bind, mret, M_ret.
  destruct (writeFrame typ payload s) as [[[]|e|q|] s1]; cbn; try done.
  destruct (maybeSyncLocked s1) as [[[]|e|q|] s2]; cbn; try done. by intros [= <-].
Qed.

(** An append moves the counter by at most the numbers it needs, and returns
    the counter's new value. *)
Lemma append_op_seq o l w :
  0 <= nextSeq l -> nextSeq l + op_count o < 2 ^ 64 -> o <> OpBatch [] ->
  let r := append_op o (l, w) in
  let n' := nextSeq (fst (snd r)) in
  nextSeq l <= n' <= nextSeq l + op_count o /\
  forall n, fst r = Ok n -> nextSeq l < n /\ n = n'.
Proof.
  intros Hn Hb Hne. destruct (closed l) eqn:Hcl.
  { destruct o; cbn; unfold AppendPut, AppendDelete, AppendBatch, unless_closed, get_log; run_M;
      cbn [fst]; rewrite Hcl; cbn; (split; [lia|done]). }
  assert (forall A (m : MLog A), unless_closed m (l, w) = m (l, w)) as Hun.
  { intros A m. unfold unless_closed, get_log. run_M. cbn [fst]. by rewrite Hcl. }
  destruct o as [k v|k|[|e es]]; [| |done|]; cbn [append_op op_count] in *.
  - unfold AppendPut. rewrite Hun, (M_bind_Ok _ _ _ _ _ (allocSeq_spec l w ltac:(lia) Hn)).
    destruct (write_and_sync_seq (nextSeq l + 1) TypePut
      (encodeKV (nextSeq l + 1) (bs k) (bs v)) (set_nextSeq (nextSeq l + 1) l, w)) as [E1 E2].
    cbv zeta in *. rewrite E1. cbn. split; [lia|]. intros n Hok. apply E2 in Hok. lia.
  - unfold AppendDelete. rewrite Hun, (M_bind_Ok _ _ _ _ _ (allocSeq_spec l w ltac:(lia) Hn)).
    destruct (write_and_sync_seq (nextSeq l + 1) TypeDelete
      (encodeKV (nextSeq l + 1) (bs k) []) (set_nextSeq (nextSeq l + 1) l, w)) as [E1 E2].
    cbv zeta in *. rewrite E1. cbn. split; [lia|]. intros n Hok. apply E2 in Hok. lia.
  - unfold AppendBatch. rewrite Hun.
    rewrite (M_bind_Ok _ _ _ _ _ (batch_loop_spec (e :: es) _ 0 l w Hn Hb)). cbv beta iota.
    destruct (write_and_sync_seq (nextSeq l + len (e :: es)) TypeBatch
      (EncodeUint64 [] (len (e :: es)) ++ entries_bytes (nextSeq l) (e :: es))
      (set_nextSeq (nextSeq l + len (e :: es)) l, w)) as [E1 E2].
    cbv zeta in *. rewrite E1. cbn [fst set_nextSeq nextSeq]. split; [lia|].
    intros n Hok. apply E2 in Hok. cbn [length] in *. lia.
Qed.

(** Sequences of calls, some of which may fail. *)
Inductive call := CAppend (o : op) | CReset | CSync | CClose | CSetNextSeq (n : Z).

Definition acked (r : outcome Z) : list Z := match r with Ok n => [n] | _ => [] end.

(** The sequence numbers that were returned. *)
Fixpoint run_calls (cs : list call) (s : Log * World) : list Z * (Log * World) :=
  match cs with
  | [] => ([], s)
  | c :: cs =>
      let '(ack, s) :=
        match c with
        | CAppend o => let (r, s) := append_op o s in (acked r, s)
        | CReset => ([], snd (Reset s))
        | CSync => ([], snd (Sync s))
        | CClose => ([], snd (Close s))
        | CSetNextSeq n => ([], snd (SetNextSeq n s))
        end in
      let '(acks, s) := run_calls cs s in
      (ack ++ acks, s)
  end.

(** An upper bound for the counter after the calls. *)
Fixpoint seq_bound (n : Z) (cs : list call) : Z :=
  match cs with
  | [] => n
  | CAppend o :: cs => seq_bound (n + op_count o) cs
  | CSetNextSeq m :: cs => seq_bound (Z.max n m) cs
  | _ :: cs => seq_bound n cs
  end.

Lemma seq_bound_mono cs : forall n n', n <= n' -> n <= seq_bound n cs <= seq_bound n' cs.
Proof.
  induction cs as [|[o| | | |m] cs IH]; intros n n' Hn; cbn [seq_bound]; try (by apply IH); [lia| |].
  - assert (0 <= op_count o) by (destruct o; cbn; lia).
    pose proof (IH (n + op_count o) (n' + op_count o)). lia.
  - pose proof (IH (Z.max n m) (Z.max n' m)). lia.
Qed.

Lemma run_calls_seq cs : forall l w,
  0 <= nextSeq l -> seq_bound (nextSeq l) cs < 2 ^ 64 -> (forall o, CAppend o ∈ cs -> o <> OpBatch []) ->
  let (acks, s') := run_calls cs (l, w) in
  nextSeq l <= nextSeq (fst s') /\ StronglySorted Z.lt acks /\ Forall (fun n => nextSeq l < n) acks.
Proof.
  induction cs as [|c cs IH]; intros l w Hn Hb Hne; cbn [run_calls]; [split_and!; [done|constructor..]|].
  assert (Hkeep: forall (s : Log * World), nextSeq (fst s) = nextSeq l -> seq_bound (nextSeq l) cs < 2 ^ 64 ->
    let (acks, s') := run_calls cs s in
    nextSeq l <= nextSeq (fst s') /\ StronglySorted Z.lt ([] ++ acks) /\ Forall (fun n => nextSeq l < n) ([] ++ acks)).
  { intros [l1 w1] E Hb1. cbn [fst] in E. specialize (IH l1 w1). rewrite E in IH. apply IH; [done|done|].
    intros o Ho. apply Hne. by right. }
  destruct c as [o| | | |m]; cbn [seq_bound] in Hb.
  - pose proof (seq_bound_mono cs (nextSeq l + op_count o) (nextSeq l + op_count o) ltac:(lia)) as Hm.
    destruct (append_op_seq o l w Hn) as [H1 H2]; [lia|apply Hne; by left|].
    destruct (append_op o (l, w)) as [r [l1 w1]]. cbn [fst snd] in *.
    pose proof (seq_bound_mono cs (nextSeq l1) (nextSeq l + op_count o) ltac:(lia)) as Hm1.
    specialize (IH l1 w1 ltac:(lia) ltac:(lia)). destruct (run_calls cs (l1, w1)) as [acks s'].
    destruct IH as (I1 & I2 & I3); [intros o' Ho'; apply Hne; by right|].
    split; [lia|]. destruct r as [n|e|q|]; cbn [acked app].
    + destruct (H2 n eq_refl) as [H3 ->]. split; [by constructor|]. constructor; [done|].
      eapply Forall_impl; [exact I3|]. cbn. lia.
    + split; [done|]. eapply Forall_impl; [exact I3|]. cbn. lia.
    + split; [done|]. eapply Forall_impl; [exact I3|]. cbn. lia.
    + split; [done|]. eapply Forall_impl; [exact I3|]. cbn. lia.
  - specialize (Hkeep (snd (Reset (l, w))) (Reset_same_seq (l, w)) Hb). by destruct (run_calls cs _).
  - specialize (Hkeep (snd (Sync (l, w))) (Sync_same_seq (l, w)) Hb). by destruct (run_calls cs _).
  - specialize (Hkeep (snd (Close (l, w))) (Close_same_seq (l, w)) Hb). by destruct (run_calls cs _).
  - cbn [SetNextSeq upd_log modify snd fst].
    assert (nextSeq (if nextSeq l <? m then set_nextSeq m l else l) = Z.max (nextSeq l) m) as E
      by (destruct (Z.ltb_spec (nextSeq l) m); cbn; lia).
    specialize (IH (if nextSeq l <? m then set_nextSeq m l else l) w). rewrite E in IH.
    cbv zeta. unfold SetNextSeq, upd_log, modify. cbn [snd fst].
    destruct (run_calls cs _) as [acks s'].
    destruct IH as (I1 & I2 & I3); [lia|done|intros o' Ho'; apply Hne; by right|].
    split; [lia|]. split; [done|]. eapply Forall_impl; [exact I3|]. cbn. lia.
Qed.

(** ** Termination of the scans *)

Lemma ends_or_none {A} (m : outcome (option A)) : ends m -> ends (or_none m).
Proof. by destruct m. Qed.
#[local] Hint Resolve ends_or_none : ends.

Lemma ends_peek_entry payload s : ends (peek_entry payload s).
Proof. unfold peek_entry. ends_tac. Qed.
Lemma ends_batch_entry payload s : ends (batch_entry payload s).
Proof. unfold batch_entry. ends_tac. Qed.

Lemma ends_peekSeq typ payload : ends (peekSeq typ payload).
Proof.
  unfold peekSeq. case_decide; [apply ends_or_none; ends_tac|]. case_decide; [|done].
  apply ends_or_none, ends_bind; [ends_tac|]. intros [n off]. apply ends_bind; [|ends_tac].
  rewrite loop_loop_nat. apply ends_loop_nat. intros s. apply ends_peek_entry.
Qed.

Lemma ends_decodeFrame typ payload : ends (decodeFrame typ payload).
Proof.
  unfold decodeFrame, decodeOne, decodeBatch. case_decide; [ends_tac|]. case_decide; [|done].
  apply ends_bind; [ends_tac|]. intros [n off]. apply ends_bind; [ends_tac|]. intros [].
  apply ends_bind; [|ends_tac]. rewrite loop_loop_nat. apply ends_loop_nat. intros s. apply ends_batch_entry.
Qed.

Lemma u32_at_range b i j z : u32_at b i j = Ok z -> j - i <= 4 -> 0 <= z < 2 ^ 32.
Proof.
  unfold u32_at, subslice. case_decide as Hd; [|done]. cbn. intros [= <-] Hij.
  pose proof (le_val_range (take (Z.to_nat (j - i)) (drop (Z.to_nat i) b))) as Hr.
  split; [lia|]. eapply Z.lt_le_trans; [apply Hr|]. change (2 ^ 32) with (256 ^ 4).
  apply Z.pow_le_mono_r; [lia|]. rewrite length_take. lia.
Qed.

Lemma scan_loop_ends fuel fl size : forall off m,
  0 <= off <= size -> size < 2 ^ 61 -> size - off < Z.of_nat fuel -> always_ends (scan_loop fuel fl size off m).
Proof.
  induction fuel as [|fuel IH]; intros off m Hoff Hs Hf; [lia|]. cbn [scan_loop]. unfold headerSize.
  rewrite (i64_small (off + 9)) by lia. destruct (Z.leb_spec (off + 9) size); [|m_ends].
  apply mbind_ends; [m_ends|]. intros [buf|e]; [|m_ends].
  apply lift_bind_ends; [unfold u32_at; ends_tac|]. intros plen Hp. apply u32_at_range in Hp; [|lia].
  apply mbind_ends; [m_ends|]. intros typ. apply mbind_ends; [apply lift_ends; unfold u32_at; ends_tac|].
  intros want. case_decide; [m_ends|]. cbv zeta. rewrite i64_small by lia.
  destruct (Z.ltb_spec size (off + 9 + plen)); [m_ends|].
  apply mbind_ends; [m_ends|]. intros [payload|e]; [|m_ends]. destruct (negb _); [m_ends|].
  apply mbind_ends; [apply lift_ends, ends_peekSeq|]. intros r. apply IH; lia.
Qed.

(** The callback of a replay may need an invariant of its state. *)
Section replay_returns.
Context {A : Type} (I : A -> Prop) (fn : Record_ -> M A unit) (Hfn : forall r, returns I (fn r)).

Lemma returns_call_all recs : returns (fun t => I (fst t)) (call_all fn recs).
Proof.
  induction recs as [|r recs IH]; cbn [call_all]; [apply returns_ret|]. apply returns_bind; [|done].
  by apply (returns_zoom _ I).
Qed.
Lemma returns_io_replay {B} (m : M World B) : always_ends m -> returns (fun t => I (fst t)) (io_replay m).
Proof. intros Hm. unfold io_replay, io. apply returns_part; [done|m_ends]. Qed.
Hint Resolve returns_call_all : returns.

Lemma replay_loop_returns fuel fl size : forall off,
  0 <= off <= size -> size < 2 ^ 61 -> size - off < Z.of_nat fuel ->
  returns (fun t => I (fst t)) (replay_loop fn fuel fl size off).
Proof.
  induction fuel as [|fuel IH]; intros off Hoff Hs Hf; [lia|]. cbn [replay_loop]. unfold headerSize.
  rewrite (i64_small (off + 9)) by lia. destruct (Z.leb_spec (off + 9) size); [|returns_tac].
  apply returns_bind; [apply returns_try, returns_io_replay; m_ends|]. intros [buf|e]; [|returns_tac].
  apply returns_lift_bind; [unfold u32_at; ends_tac|]. intros plen Hp. apply u32_at_range in Hp; [|lia].
  apply returns_bind; [returns_tac|]. intros typ. apply returns_bind; [apply returns_lift; unfold u32_at; ends_tac|].
  intros want. cbv zeta. rewrite i64_small by lia.
  destruct (Z.ltb_spec size (off + 9 + plen)); [returns_tac|].
  apply returns_bind; [case_match; [apply returns_try, returns_io_replay; m_ends|returns_tac]|]. intros [payload|e]; [|returns_tac].
  destruct (negb _); [returns_tac|]. apply returns_bind; [apply returns_lift, ends_decodeFrame|]. intros recs.
  apply returns_bind; [returns_tac|]. intros _. apply IH; lia.
Qed.

Lemma Replay_returns a l w : I a -> 0 <= size l < 2 ^ 61 ->
  ends (fst (Replay fn (a, (l, w)))) /\ I (fst (snd (Replay fn (a, (l, w))))).
Proof.
  intros Ha Hs. unfold Replay. cbn [fst snd]. destruct (closed l); [done|]. revert Ha.
  apply (returns_bind (fun t : A * (Log * World) => I (fst t)) _ _) with (s := (a, (l, w))).
  { apply returns_io_replay. m_ends. }
  intros _. apply returns_bind; [apply replay_loop_returns; lia|]. intros _.
  apply returns_bind; [apply returns_io_replay; m_ends|returns_tac].
Qed.
End replay_returns.

Lemma scanValidPrefix_ends fl size : 0 <= size < 2 ^ 61 -> always_ends (scanValidPrefix fl size).
Proof. intros Hs. unfold scanValidPrefix. apply mbind_ends; [m_ends|]. intros _. apply scan_loop_ends; lia. Qed.

Lemma recoverTail_ends l w : 0 <= size l < 2 ^ 61 -> ends (fst (recoverTail (l, w))).
Proof.
  intros Hs. unfold recoverTail.
  rewrite (M_bind_Ok _ _ _ (size l) (l, w)) by done. destruct (_ =? 0); [done|].
  apply mbind_ends; [m_ends|]. intros fl.
  apply mbind_ends; [by apply zoom_ends, scanValidPrefix_ends|]. intros [e m].
  unfold upd_log, io. m_ends.
Qed.

Lemma Open_ends dir o w : small w -> ends (fst (Open dir o w)).
Proof.
  intros Hw. unfold Open, MkdirAll.
  apply mbind_ends_at; [apply syscall_ends, mret_ends|]. intros [] w1 H1.
  apply (syscall_small _ _ _ _ Hw) in H1; [|by intros ???? [= _ <-]].
  apply mbind_ends_at; [apply OpenFile_ends|]. intros fl w2 H2. apply (OpenFile_small _ _ _ _ _ H1) in H2.
  apply mbind_ends_at; [apply try_ends, Size_ends|]. intros [sz|e] w3 H3;
    [|apply mbind_ends; m_ends].
  assert (0 <= sz < 2 ^ 61) as Hsz.
  { unfold try_ in H3. destruct (File_Size fl w2) as [[sz'|e|q|] w2'] eqn:E; try done.
    injection H3 as -> ->. by apply (Size_small _ _ _ _ H2) in E. }
  apply mbind_ends_at; [|intros [[[] l]|e] w4 _; [done|apply mbind_ends; m_ends]].
  unfold try_, scoped. pose proof (recoverTail_ends (mkLog dir
    (filepath_Join dir (FileName (normalize o))) fl (normalize o) 0 false sz 0) w3 Hsz) as Hr.
  by destruct (recoverTail _) as [[[]|e|q|] [l4 w4]].
Qed.

Lemma scan_loop_range fuel fl size : forall off m w e mx w', 0 <= off <= size -> size < 2 ^ 61 ->
  scan_loop fuel fl size off m w = (Ok (e, mx), w') -> 0 <= e <= size.
Proof.
  induction fuel as [|fuel IH]; intros off m w e mx w' Hoff Hs; cbn [scan_loop]; [done|]. unfold headerSize.
  rewrite (i64_small (off + 9)) by lia. destruct (Z.leb_spec (off + 9) size); [|by intros [= <- <- _]].
  intros Hrun. apply M_bind_inv in Hrun as ([buf|e0] & w1 & _ & Hrun); [|by injection Hrun as <- <- _].
  apply M_bind_inv in Hrun as (plen & w2 & Hp & Hrun). injection Hp as Hp <-. apply u32_at_range in Hp; [|lia].
  apply M_bind_inv in Hrun as (typ & w3 & _ & Hrun). apply M_bind_inv in Hrun as (want & w4 & _ & Hrun).
  case_decide; [by injection Hrun as <- <- _|]. cbv zeta in Hrun. rewrite i64_small in Hrun by lia.
  destruct (Z.ltb_spec size (off + 9 + plen)); [by injection Hrun as <- <- _|].
  apply M_bind_inv in Hrun as ([payload|e0] & w5 & _ & Hrun); [|by injection Hrun as <- <- _].
  destruct (negb _); [by injection Hrun as <- <- _|]. apply M_bind_inv in Hrun as (r & w6 & _ & Hrun).
  eapply IH; [..|exact Hrun]; lia.
Qed.

Lemma recoverTail_size l w l' w' : 0 <= size l < 2 ^ 61 -> recoverTail (l, w) = (Ok tt, (l', w')) -> 0 <= size l' < 2 ^ 61.
Proof.
  intros Hs. unfold recoverTail. rewrite (M_bind_Ok _ _ _ (size l) (l, w)) by done. destruct (_ =? 0); [by intros [= <- _]|].
  rewrite (M_bind_Ok _ _ _ (f l) (l, w)) by done. intros ([e m] & s1 & Hsc & Hrun)%M_bind_inv.
  unfold io, zoom in Hsc. cbn [fst snd] in Hsc. destruct (scanValidPrefix (f l) (size l) w) as [o1 w1] eqn:E. injection Hsc as -> <-.
  unfold scanValidPrefix in E. apply M_bind_inv in E as (z & w0 & _ & E). apply scan_loop_range in E; [|lia..].
  rewrite (M_bind_Ok _ _ _ tt (set_nextSeq m l, w1)) in Hrun by done. cbv beta iota in Hrun. destruct (Z.ltb_spec e (size l)).
  - apply M_bind_inv in Hrun as (u & [l2 w2] & Ht & Hrun). apply M_bind_inv in Hrun as (z' & [l3 w3] & Hk & Hrun).
    unfold upd_log, modify in Hrun. injection Hrun as <- _. cbn. lia.
  - apply M_bind_inv in Hrun as (u & [l2 w2] & Ht & Hrun). injection Hrun as <- _.
    unfold io, zoom in Ht. cbn [fst snd] in Ht. destruct (File_Seek _ _ _ _). injection Ht as _ <- _. done.
Qed.

Lemma Open_size dir o w l w' : small w -> Open dir o w = (Ok l, w') -> 0 <= size l < 2 ^ 61.
Proof.
  intros Hw. unfold Open. intros ([] & w1 & H1 & Hrun)%M_bind_inv.
  apply (syscall_small _ _ _ _ Hw) in H1; [|by intros ???? [= _ <-]].
  apply M_bind_inv in Hrun as (fl & w2 & H2 & Hrun). apply (OpenFile_small _ _ _ _ _ H1) in H2.
  apply M_bind_inv in Hrun as ([sz|e] & w3 & H3 & Hrun); [|by apply M_bind_inv in Hrun as (x & w4 & _ & ?)].
  assert (0 <= sz < 2 ^ 61) as Hsz.
  { unfold try_ in H3. destruct (File_Size fl w2) as [[sz'|e|q|] w2'] eqn:E; try done.
    injection H3 as -> ->. by apply (Size_small _ _ _ _ H2) in E. }
  apply M_bind_inv in Hrun as ([[[] l1]|e] & w4 & H4 & Hrun); [|by apply M_bind_inv in Hrun as (x & w5 & _ & ?)].
  injection Hrun as <- _. unfold try_, scoped in H4.
  destruct (recoverTail _) as [[[]|e|q|] [l4 w5]] eqn:E; try done. injection H4 as -> _. by apply recoverTail_size in E.
Qed.

(** * What the log promises *)

(** C8: on a new log, any sequence of appends of records within the limits
    succeeds with consecutive sequence numbers, and [Replay] then hands over
    exactly the records written, in order (empty keys and values come back as
    nil), leaving the log as it was. *)
Theorem Open_append_Replay w dir o os
  (Hw : calm w) (Hn : names w !! filepath_Join dir (FileName (normalize o)) = None)
  (Hok : log_ok 0 os) (Hl : len (log_bytes 0 os) < 2 ^ 61) :
  exists l w1, Open dir o w = (Ok l, w1) /\
  exists l' w', append_all os (l, w1) = (Ok (log_seqs 0 os), (l', w')) /\
    Replay collect ([], (l', w')) = (Ok tt, (log_records 0 os, (l', w'))).
Proof.
  destruct (Open_fresh w dir o Hw Hn) as (l & w1 & Ho & Hon & Hs & _). exists l, w1. split; [done|].
  destruct (append_and_replay 0 [] os l w1 _ Hon Hs Hok Hl) as (l' & w' & Ha & _ & _ & Hr).
  exists l', w'. by split.
Qed.

Definition example_ops : list op :=
  [OpPut (Some [x61]) (Some [x01; x02]);
   OpBatch [mkBatchEntry (Some [x62]) (Some []) false; mkBatchEntry (Some [x61]) None true];
   OpDelete (Some [x62])].

Lemma example_ops_ok : log_ok 0 example_ops.
Proof.
  unfold example_ops, log_ok, op_ok. cbn [op_count length].
  split_and!; try done; apply Z.leb_le; by vm_compute.
Qed.

Lemma Open_append_Replay_witness :
  exists l w1, Open "db" None empty_world = (Ok l, w1) /\
  exists l' w', append_all example_ops (l, w1) = (Ok (log_seqs 0 example_ops), (l', w')) /\
    Replay collect ([], (l', w')) = (Ok tt, (log_records 0 example_ops, (l', w'))).
Proof.
  apply Open_append_Replay; [done|done|exact example_ops_ok|]. apply Z.ltb_lt. by vm_compute.
Defined.

(** C6: after a crash that kept any prefix of the log's bytes, opening the log
    keeps every operation whose frame is complete and nothing else: the torn
    frame is cut off, the sequence counter resumes after the kept operations,
    and the recovered log works like the original: operations appended to it
    are replayed after the kept ones. *)
Theorem crash_recovery w dir o i os k
  (Hw : calm w) (Hn : names w !! filepath_Join dir (FileName (normalize o)) = Some i)
  (Hi : inodes w !! i = Some (take k (log_bytes 0 os)))
  (Hok : log_ok 0 os) (Hl : len (log_bytes 0 os) < 2 ^ 61) :
  exists os1 os2 l w1,
    os = os1 ++ os2 /\
    match os2 with [] => True | o :: _ => (k < length (log_bytes 0 (os1 ++ [o])))%nat end /\
    Open dir o w = (Ok l, w1) /\ inodes w1 !! i = Some (log_bytes 0 os1) /\
    nextSeq l = log_count os1 /\
    forall os', log_ok 0 (os1 ++ os') -> len (log_bytes 0 (os1 ++ os')) < 2 ^ 61 ->
      exists l' w', append_all os' (l, w1) = (Ok (log_seqs (log_count os1) os'), (l', w')) /\
        Replay collect ([], (l', w')) = (Ok tt, (log_records 0 (os1 ++ os'), (l', w'))).
Proof.
  destruct (log_cut os 0 k Hok) as (os1 & os2 & junk & -> & Ht & Htorn & Hmax).
  rewrite Ht in Hi. apply log_ok_app in Hok as [Hok1 _].
  assert (len (log_bytes 0 os1 ++ junk) < 2 ^ 61) as Hl1 by (rewrite <- Ht, length_take; lia).
  destruct (Open_spec w dir o i 0 os1 junk Hw Hn Hi Hl1 ltac:(lia) Hok1 Htorn) as (l & w1 & Ho & Hon & Hs & _).
  rewrite last_seq_0 in Hs.
  exists os1, os2, l, w1. split_and!; try done; [apply Hon|]. intros os' Hok' Hl'.
  destruct (append_and_replay 0 os1 os' l w1 i Hon Hs Hok' Hl') as (l' & w' & Ha & _ & _ & Hr).
  exists l', w'. by split.
Qed.

(** A crash twenty bytes into the second frame. *)
Definition crashed_world : World :=
  mkWorld {["db/wal.log"%string := 0%nat]} [take 34 (log_bytes 0 example_ops)] [] [].

Lemma crash_recovery_witness :
  exists os1 os2 l w1,
    example_ops = os1 ++ os2 /\
    match os2 with [] => True | o :: _ => (34 < length (log_bytes 0 (os1 ++ [o])))%nat end /\
    Open "db" None crashed_world = (Ok l, w1) /\ inodes w1 !! 0%nat = Some (log_bytes 0 os1) /\
    nextSeq l = log_count os1 /\
    forall os', log_ok 0 (os1 ++ os') -> len (log_bytes 0 (os1 ++ os')) < 2 ^ 61 ->
      exists l' w', append_all os' (l, w1) = (Ok (log_seqs (log_count os1) os'), (l', w')) /\
        Replay collect ([], (l', w')) = (Ok tt, (log_records 0 (os1 ++ os'), (l', w'))).
Proof.
  apply crash_recovery; [done|by vm_compute|done|exact example_ops_ok|]. apply Z.ltb_lt. by vm_compute.
Defined.

(** [Reset] empties the log but not its counter: what is appended afterwards
    gets fresh sequence numbers, and only that is replayed. *)
Theorem Reset_keeps_counter l w i n os1 os
  (Hon : log_on (l, w) i (log_bytes n os1)) (Hs : nextSeq l = n + log_count os1)
  (Hok : log_ok (nextSeq l) os) (Hl : len (log_bytes (nextSeq l) os) < 2 ^ 61) :
  exists s1, Reset (l, w) = (Ok tt, s1) /\
  exists s', append_all os s1 = (Ok (log_seqs (n + log_count os1) os), s') /\
    Replay collect ([], s') = (Ok tt, (log_records (n + log_count os1) os, s')).
Proof.
  destruct (Reset_spec l w i _ Hon) as (l1 & w1 & Hr & Hon1 & Hs1 & _). exists (l1, w1). split; [done|].
  destruct (append_and_replay (nextSeq l) [] os l1 w1 i Hon1) as (l' & w' & Ha & _ & _ & Hp); try done.
  - cbn. lia.
  - exists (l', w'). rewrite Hs in *. cbn [log_count app] in *. rewrite Z.add_0_r in Ha. by split.
Qed.

Lemma Reset_keeps_counter_witness :
  let w := mkWorld {["db/wal.log"%string := 0%nat]} [log_bytes 0 example_ops]
    [mkFd 0 (len (log_bytes 0 example_ops)) true] [] in
  let l := mkLog "db" "db/wal.log" 0 (normalize None) 3 false (len (log_bytes 0 example_ops)) 4 in
  log_on (l, w) 0 (log_bytes 0 example_ops) /\
  exists s1, Reset (l, w) = (Ok tt, s1) /\
  exists s', append_all [OpDelete None] s1 = (Ok (log_seqs (0 + log_count example_ops) [OpDelete None]), s') /\
    Replay collect ([], s') = (Ok tt, (log_records (0 + log_count example_ops) [OpDelete None], s')).
Proof.
  intros w l. assert (log_on (l, w) 0 (log_bytes 0 example_ops)) as Hon by (by split_and!).
  split; [exact Hon|]. apply (Reset_keeps_counter l w 0 0 example_ops [OpDelete None] Hon eq_refl).
  - split; [|done]. split_and!; try done; apply Z.leb_le; by vm_compute.
  - apply Z.ltb_lt. by vm_compute.
Defined.

(** C24: whatever calls fail, and whatever resets, syncs and counter updates are
    mixed in, the sequence numbers the log hands out strictly increase and the
    counter never goes back. *)
Theorem sequence_numbers_increase cs l w
  (Hn : 0 <= nextSeq l) (Hb : seq_bound (nextSeq l) cs < 2 ^ 64)
  (Hne : forall o, CAppend o ∈ cs -> o <> OpBatch []) :
  let (acks, s') := run_calls cs (l, w) in
  nextSeq l <= nextSeq (fst s') /\ StronglySorted Z.lt acks /\ Forall (fun n => nextSeq l < n) acks.
Proof. by apply run_calls_seq. Qed.

Lemma sequence_numbers_increase_witness :
  let l := mkLog "db" "db/wal.log" 0 (normalize None) 0 false 0 0 in
  let w := mkWorld ∅ [[]] [mkFd 0 0 true] [None; Some 3%nat] in
  let cs := [CAppend (OpPut None None); CReset; CAppend (OpDelete None); CSetNextSeq 9;
             CAppend (OpPut (Some [x61]) None)] in
  let (acks, s') := run_calls cs (l, w) in
  nextSeq l <= nextSeq (fst s') /\ StronglySorted Z.lt acks /\ Forall (fun n => nextSeq l < n) acks.
Proof.
  intros l w cs. apply (sequence_numbers_increase cs l w); [by vm_compute|apply Z.ltb_lt; by vm_compute|].
  intros o Ho ->. unfold cs in Ho.
  repeat (apply elem_of_cons in Ho; destruct Ho as [?|Ho]; [discriminate|]).
  by apply not_elem_of_nil in Ho.
Defined.

(** opening and replaying terminate on any file contents below the size
    bound, in any world, corrupt frames and failing calls included: the loops
    never run past the number of frames the file has room for. *)
Theorem recovery_terminates {A} (fn : Record_ -> M A unit) dir o w a l
  (Hfn : forall r, always_ends (fn r))
  (Hsz : Forall (fun c => len c < 2 ^ 61) (inodes w)) (Hl : 0 <= size l < 2 ^ 61) :
  fst (Open dir o w) <> Stuck /\ fst (Replay fn (a, (l, w))) <> Stuck.
Proof.
  split.
  - apply Open_ends. done.
  - apply (Replay_returns (fun _ => True)); [|done..]. intros r s _. split; [apply Hfn|done].
Qed.

(** A log file with a corrupt second frame, in a world where the first read of
    the replay fails. *)
Lemma recovery_terminates_witness :
  let c := log_bytes 0 example_ops ++ [x03; x00; x00; x00; x07; x01; x02; x03; x04; xff; xff; xff] in
  let w := mkWorld {["db/wal.log"%string := 0%nat]} [c] [mkFd 0 0 true] [None; None; None; None; Some 0%nat] in
  let l := mkLog "db" "db/wal.log" 0 (normalize None) 0 false (len c) 4 in
  fst (Open "db" None w) <> Stuck /\ fst (Replay collect ([], (l, w))) <> Stuck.
Proof.
  intros c w l. apply (recovery_terminates collect "db" None w [] l).
  - intros r. apply modify_ends.
  - apply Forall_singleton. apply Z.ltb_lt. by vm_compute.
  - split; [apply Z.leb_le|apply Z.ltb_lt]; by vm_compute.
Defined.

(** A computed example: an append whose write fails leaves its torn frame in the
    middle of the log; the next append succeeds and is synced, but neither a
    replay nor a recovery after a restart finds it. *)
Example failed_append_hides_later_ones :
  exists l w1 s2 s3,
    Open "db" None (mkWorld ∅ [] [] [None; None; None; None; Some 0%nat]) = (Ok l, w1) /\
    AppendPut (Some [x61]) (Some [x01]) (l, w1) = (Err io_error, s2) /\
    AppendPut (Some [x62]) (Some [x02]) s2 = (Ok 2, s3) /\
    fst (Replay collect ([], s3)) = Ok tt /\ fst (snd (Replay collect ([], s3))) = [] /\
    exists l4 w4, Open "db" None (snd s3) = (Ok l4, w4) /\ nextSeq l4 = 0 /\ inodes w4 = [[]].
Proof.
  eexists _, _, _, _. split; [by vm_compute|]. split; [by vm_compute|]. split; [by vm_compute|].
  split; [by vm_compute|]. split; [by vm_compute|].
  eexists _, _. split; [by vm_compute|]. by split.
Qed.

(** A computed example: a replay whose callback fails leaves the file offset at the start: the
    next append overwrites the oldest frame, and only the new record is
    replayed. *)
Example failed_Replay_overwrites :
  let refuse : Record_ -> M unit unit := fun _ => throw (errors_New "stop") in
  let put k := mkRecord TypePut (Some [k]) (Some [x01]) in
  exists l w1 s2 s3 s4,
    Open "db" None empty_world = (Ok l, w1) /\
    AppendPut (Some [x61]) (Some [x01]) (l, w1) = (Ok 1, s2) /\
    fst (snd (Replay collect ([], s2))) = [put x61 1 false] /\
    Replay refuse (tt, s2) = (Err (errors_New "stop"), (tt, s3)) /\
    AppendPut (Some [x62]) (Some [x01]) s3 = (Ok 2, s4) /\
    fst (snd (Replay collect ([], s4))) = [put x62 2 false].
Proof.
  eexists _, _, _, _, _. repeat (split; [by vm_compute|]). by vm_compute.
Qed.
