(* ===== verification/SSTable.v ===== *)
(** * SSTable: package internal/sstable

    The writer, the reader, block iterators with restart points, point lookups
    and table iterators, over the world of Os.  The bloom filter's floating
    point is that of Bloom ([Float64]). *)

From Stdlib Require Import ZArith Lia Strings.Byte.
From stdpp Require Import base decidable list strings numbers sorting.
From S2P Require Import Prelude Varint Crc32x Bloom ByteUtil Os.
#[local] Open Scope Z_scope.

Definition ErrCorrupt : error := errors_New "sstable: corrupt file".
Definition ErrClosed : error := errors_New "sstable: closed".
Definition ErrNotFound : error := errors_New "sstable: not found".
Definition ErrInvalid : error := errors_New "sstable: invalid argument".
Definition ErrBadMagic : error := errors_New "sstable: bad magic".

Definition magicFooter : Z := 0x53535442.
Definition restartInterval : Z := 16.
Definition defaultBlockSize : Z := 4096.
Definition flagDelete : byte := x01.
Definition flagValue : byte := x00.

Record Entry := mkEntry { Key : slice; Value : slice; Seq : Z; Deleted : bool }.
Definition zero_Entry : Entry := mkEntry None None 0 false.

Record indexRec := mkIndexRec { lastKey : slice; offset : Z; length_ : Z }.

(** Meta describes a finished table. *)
Record Meta := mkMeta {
  mPath : string; MinKey : slice; MaxKey : slice; mMaxSeq : Z; mEntries : Z; mFileSize : Z
}.

(** ** The writer *)

Section writer.
Context {F : Type} `{Float64 F}.

Record WriterOptions := mkWriterOptions { BlockSize : Z; RestartInterval : Z; BloomFP : F }.

Record Writer := mkWriter {
  wf : nat;
  wpath : string;
  blockSize : Z;
  restartInt : Z;
  buf : list byte;
  restarts : list Z;
  entryCount : Z;
  blockEntries : Z;
  wlastKey : slice;
  index : list indexRec;
  bloom : Builder.Builder F;
  minKey : slice;
  maxKey : slice;
  maxSeq : Z;
  wclosed : bool
}.

Definition normalize (o : option WriterOptions) : WriterOptions :=
  match o with
  | None => mkWriterOptions defaultBlockSize restartInterval default_fp
  | Some o =>
      mkWriterOptions
        (if 0 <? BlockSize o then BlockSize o else defaultBlockSize)
        (if 0 <? RestartInterval o then RestartInterval o else restartInterval)
        (if fltb (of_int 0) (BloomFP o) then BloomFP o else default_fp)
  end.

(** filepath.Dir(path) matters only to [MkdirAll]. *)
Definition Create (path : string) (o : option WriterOptions) : M World Writer :=
  let o := normalize o in
  MkdirAll path;;
  f ← OpenFile path (mkFlags true false true);
  lift (make_check 1 (BlockSize o));;
  mret (mkWriter f path (BlockSize o) (RestartInterval o) [] [] 0 0 None []
          (Builder.NewBuilder (BloomFP o)) None None 0 false).

(** Methods run on the writer and the world. *)
Abbreviation MW := (M (Writer * World)).
Definition io {A} (m : M World A) : MW A := zoom snd (fun w s => (fst s, w)) m.
Definition get_w {A} (g : Writer -> A) : MW A := gets (fun s => g (fst s)).
Definition upd_w (g : Writer -> Writer) : MW unit := modify (fun s => (g (fst s), snd s)).

(** The block a full buffer becomes: data, restart array, count, checksum. *)
Definition add_restarts (rs : list Z) (block : list byte) : list byte :=
  fold_left (fun block off => block ++ le_bytes 4 off) rs block.
Definition block_bytes (data : list byte) (rs : list Z) : list byte :=
  let block := add_restarts rs data in
  let block := block ++ le_bytes 4 (u32 (len rs)) in
  let crc := ChecksumCastagnoli block in
  block ++ le_bytes 4 crc.

Definition flushBlock : MW unit :=
  w ← get_w id;
  if len (buf w) =? 0 then mret tt
  else
    let block := block_bytes (buf w) (restarts w) in
    off ← io (File_Seek (wf w) 0 SeekCurrent);
    n ← io (File_Write (wf w) block);
    if negb (n =? len block) then throw io_ErrShortWrite
    else upd_w (fun w =>
      mkWriter (wf w) (wpath w) (blockSize w) (restartInt w) [] [] (entryCount w) 0 (wlastKey w)
        (index w ++ [mkIndexRec (Clone (wlastKey w)) (u64 off) (u64 (len block))])
        (bloom w) (minKey w) (maxKey w) (maxSeq w) (wclosed w)).

(** The encoding of an entry that shares [shared] bytes with the key before. *)
Definition encode_entry (shared : Z) (e : Entry) : outcome (list byte) :=
  let nonShared := len (bs (Key e)) - shared in
  let enc := EncodeUint64 [] (u64 shared) in
  let enc := EncodeUint64 enc (u64 nonShared) in
  let enc := EncodeUint64 enc (len (bs (Value e))) in
  let enc := EncodeUint64 enc (Seq e) in
  let enc := enc ++ [if Deleted e then flagDelete else flagValue] in
  rest ← slice_from (bs (Key e)) shared;
  Ok (enc ++ rest ++ bs (Value e)).

Definition Add (e : Entry) : MW unit :=
  w ← get_w id;
  if wclosed w then throw ErrClosed
  else if is_nil (Key e) then throw ErrInvalid
  else if negb (is_nil (wlastKey w)) && (Compare (bs (Key e)) (bs (wlastKey w)) <? 0)
  then throw (fmt_Errorf "sstable: keys out of order: %q < %q")
  else
    let key := bs (Key e) in
    let min := if is_nil (minKey w) then Clone (Key e) else minKey w in
    let max := Clone (Key e) in
    let seq := if maxSeq w <? Seq e then Seq e else maxSeq w in
    let bl := Builder.Add key (bloom w) in
    let '(shared, rs) :=
      if negb (Z.rem (blockEntries w) (restartInt w) =? 0) && negb (is_nil (wlastKey w))
      then (Z.of_nat (SharedPrefixLen (bs (wlastKey w)) key), restarts w)
      else (0, restarts w ++ [u32 (len (buf w))]) in
    enc ← lift (encode_entry shared e);
    upd_w (fun w =>
      mkWriter (wf w) (wpath w) (blockSize w) (restartInt w) (buf w ++ enc) rs
        (i64 (entryCount w + 1)) (i64 (blockEntries w + 1)) (Clone (Key e))
        (index w) bl min max seq (wclosed w));;
    w ← get_w id;
    if blockSize w <=? len (buf w) then flushBlock else mret tt.

Definition index_bytes (index : list indexRec) : list byte :=
  fold_left (fun b rec =>
      let b := EncodeUint64 b (len (bs (lastKey rec))) in
      let b := b ++ bs (lastKey rec) in
      let b := EncodeUint64 b (offset rec) in
      EncodeUint64 b (length_ rec))
    index (EncodeUint64 [] (len index)).

Definition footer_bytes (indexOff indexLen bloomOff bloomLen maxSeq entries : Z) : list byte :=
  le_bytes 4 magicFooter ++ le_bytes 8 (u64 indexOff) ++ le_bytes 8 (u64 indexLen) ++
  le_bytes 8 (u64 bloomOff) ++ le_bytes 8 (u64 bloomLen) ++ le_bytes 8 maxSeq ++
  le_bytes 8 (u64 entries) ++ le_bytes 4 magicFooter.

Definition Finish : MW Meta :=
  w ← get_w id;
  if wclosed w then throw ErrClosed
  else
    flushBlock;;
    w ← get_w id;
    bloomOff ← io (File_Seek (wf w) 0 SeekCurrent);
    bf ← lift (Builder.Build (bloom w));
    bdata ← lift (MarshalBinary bf);
    _ ← io (File_Write (wf w) bdata);
    let bloomLen := len bdata in
    indexOff ← io (File_Seek (wf w) 0 SeekCurrent);
    let indexBuf := index_bytes (index w) in
    let indexCRC := ChecksumCastagnoli indexBuf in
    let indexBuf := indexBuf ++ le_bytes 4 indexCRC in
    _ ← io (File_Write (wf w) indexBuf);
    let indexLen := len indexBuf in
    _ ← io (File_Write (wf w)
         (footer_bytes indexOff indexLen bloomOff bloomLen (maxSeq w) (entryCount w)));
    io (File_Sync (wf w));;
    size ← io (File_Size (wf w));
    io (File_Close (wf w));;
    upd_w (fun w =>
      mkWriter (wf w) (wpath w) (blockSize w) (restartInt w) (buf w) (restarts w) (entryCount w)
        (blockEntries w) (wlastKey w) (index w) (bloom w) (minKey w) (maxKey w) (maxSeq w) true);;
    mret (mkMeta (wpath w) (minKey w) (maxKey w) (maxSeq w) (u64 (entryCount w)) size).

Definition Abort_ : MW unit :=
  w ← get_w id;
  if wclosed w then mret tt
  else
    upd_w (fun w =>
      mkWriter (wf w) (wpath w) (blockSize w) (restartInt w) (buf w) (restarts w) (entryCount w)
        (blockEntries w) (wlastKey w) (index w) (bloom w) (minKey w) (maxKey w) (maxSeq w) true);;
    _ ← try_ (io (File_Close (wf w)));
    io (Remove (wpath w)).

(** [for _, e := range entries]: a failing [Add] aborts the table. *)
Fixpoint add_all (es : list Entry) : MW unit :=
  match es with
  | [] => mret tt
  | e :: es =>
      r ← try_ (Add e);
      match r with
      | inr err => _ ← try_ Abort_; throw err
      | inl _ => add_all es
      end
  end.

Definition WriteFile (path : string) (entries : list Entry) (o : option WriterOptions) : M World Meta :=
  w ← Create path o;
  '(meta, _) ← scoped (add_all entries;; Finish) w;
  mret meta.
End writer.
Arguments WriterOptions : clear implicits.
Arguments Writer : clear implicits.

(** ** The reader *)

Record Reader := mkReader {
  rf : option nat;
  rpath : string;
  rindex : list indexRec;
  rbloom : option Filter;
  rmaxSeq : Z;
  rentries : Z;
  rminKey : slice;
  rmaxKey : slice;
  rfileSize : Z
}.

(** [_ = f.Close(); return nil, err] *)
Definition fail_closing {A} (f : nat) (e : error) : M World A := _ ← try_ (File_Close f); throw e.

(** The same for a call whose error is passed on, or replaced by [ErrCorrupt]. *)
Definition or_close {A} (f : nat) (m : M World A) : M World A :=
  r ← try_ m; match r with inl a => mret a | inr e => fail_closing f e end.

(** One record of the index, as Open reads it. *)
Definition index_entry (body : list byte) (s : Z * list indexRec) :
    outcome (Z * list indexRec + list indexRec) :=
  let (off, index) := s in
  '(klen, noff) ← or_err ErrCorrupt (decode_at body off);
  let off := i64 (off + noff) in
  if len body <? i64 (off + i64 klen) then Err ErrCorrupt
  else
    key ← subslice body off (i64 (off + i64 klen));
    let off := i64 (off + i64 klen) in
    '(boff, noff) ← or_err ErrCorrupt (decode_at body off);
    let off := i64 (off + noff) in
    '(blen, noff) ← or_err ErrCorrupt (decode_at body off);
    let off := i64 (off + noff) in
    Ok (inl (off, index ++ [mkIndexRec (Clone (Some key)) boff blen])).

Definition parse_index (body : list byte) : outcome (list indexRec) :=
  '(n, off) ← or_err ErrCorrupt (DecodeUint64 body);
  make_check 40 n;;
  r ← loop n (index_entry body) (off, []);
  match r with inl (_, index) => Ok index | inr index => Ok index end.


Definition Open (path : string) : M World Reader :=
  f ← Os.Open path;
  size ← or_close f (File_Size f);
  if size <? 56 then fail_closing f ErrCorrupt
  else
    footer ← or_close f (File_ReadAt f 56 (size - 56));
    m1 ← lift (uint_at footer 0 4);
    m2 ← lift (uint_at footer 52 56);
    if negb (m1 =? magicFooter) || negb (m2 =? magicFooter) then fail_closing f ErrBadMagic
    else
      indexOff ← lift (uint_at footer 4 12);
      indexLen ← lift (uint_at footer 12 20);
      bloomOff ← lift (uint_at footer 20 28);
      bloomLen ← lift (uint_at footer 28 36);
      maxSeq ← lift (uint_at footer 36 44);
      entries ← lift (uint_at footer 44 52);
      lift (make_check 1 (i64 bloomLen));;
      bloomData ← (if 0 <? i64 bloomLen then or_close f (File_ReadAt f (i64 bloomLen) (i64 bloomOff))
                   else mret []);
      bf ← or_close f (lift (UnmarshalBinary bloomData));
      lift (make_check 1 (i64 indexLen));;
      indexData ← or_close f (File_ReadAt f (i64 indexLen) (i64 indexOff));
      if len indexData <? 4 then fail_closing f ErrCorrupt
      else
        body ← lift (subslice indexData 0 (len indexData - 4));
        want ← lift (uint_at indexData (len indexData - 4) (len indexData));
        if negb (ChecksumCastagnoli body =? want) then fail_closing f ErrCorrupt
        else
          index ← or_close f (lift (parse_index body));
          mret (mkReader (Some f) path index (Some bf) maxSeq entries None
                 (match last index with
                  | Some rec => Clone (lastKey rec) | None => None end) size).

Definition Path (r : Reader) : string := rpath r.
Definition MaxSeq (r : Reader) : Z := rmaxSeq r.
Definition Entries (r : Reader) : Z := rentries r.
Definition FileSize (r : Reader) : Z := rfileSize r.
Definition MayContain (r : Reader) (key : list byte) : outcome bool := MayContain (rbloom r) key.

Definition Close : M (Reader * World) unit := fun s =>
  match rf (fst s) with
  | None => (Ok tt, s)
  | Some f =>
      let r := fst s in
      let r' := mkReader None (rpath r) (rindex r) (rbloom r) (rmaxSeq r) (rentries r) (rminKey r)
        (rmaxKey r) (rfileSize r) in
      match File_Close f (snd s) with (o, w) => (o, (r', w)) end
  end.

(** A reader without a file is a nil *os.File: its methods return an error. *)
Definition readBlock (r : Reader) (rec : indexRec) : M World (list byte) :=
  lift (make_check 1 (length_ rec));;
  buf ← (match rf r with
         | None => throw EINVAL
         | Some f => File_ReadAt f (length_ rec) (i64 (offset rec))
         end);
  if len buf <? 8 then throw ErrCorrupt
  else
    body ← lift (subslice buf 0 (len buf - 4));
    want ← lift (uint_at buf (len buf - 4) (len buf));
    if negb (ChecksumCastagnoli body =? want) then throw ErrCorrupt else mret body.

(** ** Blocks *)

Module blockIter.

Record blockIter := mkBlockIter {
  data : list byte;
  restarts : list Z;
  off : Z;
  key : slice;
  value : slice;
  seq : Z;
  deleted : bool;
  valid : bool
}.

(** [for i := 0; i < int(n); i++], [k] iterations left. *)
Fixpoint restarts_loop (k : nat) (block : list byte) (restartOff i : Z) : outcome (list Z) :=
  match k with
  | O => Ok []
  | S k =>
      r ← uint_at block (restartOff + i * 4) (restartOff + i * 4 + 4);
      rs ← restarts_loop k block restartOff (i + 1);
      Ok (r :: rs)
  end.

Definition parseRestarts (block : list byte) : outcome (list byte * list Z) :=
  if len block <? 4 then Err ErrCorrupt
  else
    n ← uint_at block (len block - 4) (len block);
    let need := n * 4 + 4 in
    if len block <? need then Err ErrCorrupt
    else
      let restartOff := len block - need in
      data ← subslice block 0 restartOff;
      rs ← restarts_loop (Z.to_nat n) block restartOff 0;
      Ok (data, rs).

(** [it.off = o; it.valid = false] *)
Definition invalid (it : blockIter) (o : Z) : blockIter :=
  mkBlockIter (data it) (restarts it) o (key it) (value it) (seq it) (deleted it) false.

(** A varint at offset [o], or an invalid iterator. *)
Definition read (it : blockIter) (o : Z) (k : Z -> Z -> outcome blockIter) : outcome blockIter :=
  match decode_at (data it) o with
  | Ok (v, noff) => k v (i64 (o + noff))
  | Err _ => Ok (invalid it o)
  | Panic p => Panic p
  | Stuck => Stuck
  end.

Definition Next (it : blockIter) : outcome blockIter :=
  if len (data it) <=? off it then Ok (invalid it (off it))
  else
    read it (off it) (fun shared o =>
    read it o (fun nonShared o =>
    read it o (fun vlen o =>
    read it o (fun seq o =>
      if len (data it) <=? o then Ok (invalid it o)
      else
        flag ← Prelude.index (data it) o;
        let o := i64 (o + 1) in
        if len (data it) <? i64 (i64 (o + i64 nonShared) + i64 vlen) then Ok (invalid it o)
        else
          let n := i64 (i64 shared + i64 nonShared) in
          make_check 1 n;;
          pre ← subslice (bs (key it)) 0 shared;
          let key := copy_at (replicate (Z.to_nat n) x00) 0 pre in
          rest ← subslice (data it) o (i64 (o + i64 nonShared));
          let key := copy_at key (Z.to_nat shared) rest in
          let o := i64 (o + i64 nonShared) in
          v ← subslice (data it) o (i64 (o + i64 vlen));
          let val := Clone (Some v) in
          let o := i64 (o + i64 vlen) in
          Ok (mkBlockIter (data it) (restarts it) o (Some key) val seq
                (bool_decide (flag = flagDelete)) true))))).

Definition newBlockIter (block : list byte) : outcome blockIter :=
  '(data, rs) ← parseRestarts block;
  Next (mkBlockIter data rs 0 None None 0 false false).

(** [it.off = o; it.key = nil; it.Next()] *)
Definition restart_at (it : blockIter) (o : Z) : outcome blockIter :=
  Next (mkBlockIter (data it) (restarts it) o None (value it) (seq it) (deleted it) (valid it)).

(** [for it.valid && byteutil.Compare(it.key, target) < 0 \{ it.Next() \}] *)
Fixpoint scan (fuel : nat) (target : list byte) (it : blockIter) : outcome blockIter :=
  if valid it && (Compare (bs (key it)) target <? 0) then
    match fuel with O => Stuck | S fuel => it ← Next it; scan fuel target it end
  else Ok it.

(** The binary search over restart points. *)
Fixpoint search (fuel : nat) (target : list byte) (lo hi : Z) (it : blockIter) : outcome (Z * blockIter) :=
  if lo <? hi then
    match fuel with
    | O => Stuck
    | S fuel =>
        let mid := (lo + hi + 1) / 2 in
        o ← Prelude.index (restarts it) mid;
        it ← restart_at it o;
        if negb (valid it) then search fuel target lo (mid - 1) it
        else if Compare (bs (key it)) target <=? 0 then search fuel target mid hi it
        else search fuel target lo (mid - 1) it
    end
  else Ok (lo, it).

Definition Seek (target : list byte) (it : blockIter) : outcome blockIter :=
  let n := len (restarts it) in
  if n =? 0 then
    it ← restart_at it 0;
    scan (length (data it)) target it
  else
    '(lo, it) ← search (length (restarts it)) target 0 (n - 1) it;
    o ← Prelude.index (restarts it) lo;
    it ← restart_at it o;
    scan (length (data it)) target it.

End blockIter.

(** sort.Search(n, f), with the standard library's binary search. *)
Fixpoint sort_Search_loop (fuel : nat) (f : nat -> bool) (i j : nat) : outcome nat :=
  if (i <? j)%nat then
    match fuel with
    | O => Stuck
    | S fuel =>
        let h := ((i + j) / 2)%nat in
        if negb (f h) then sort_Search_loop fuel f (S h) j else sort_Search_loop fuel f i h
    end
  else Ok i.
Definition sort_Search (n : nat) (f : nat -> bool) : outcome nat := sort_Search_loop n f 0 n.

(** The block search of Get and Iterator.Seek: index of the first block whose
    last key is not below the key. *)
Definition find_block (index : list indexRec) (key : list byte) : outcome nat :=
  sort_Search (length index) (fun i =>
    match index !! i with Some rec => 0 <=? Compare (bs (lastKey rec)) key | None => false end).

(** The entry, or [None] for the false second result. *)
Definition Get (r : Reader) (key : list byte) : M World (option Entry) :=
  may ← lift (MayContain r key);
  if negb may then mret None
  else if len (rindex r) =? 0 then mret None
  else
    idx ← lift (find_block (rindex r) key);
    match rindex r !! idx with
    | None => mret None
    | Some rec =>
        block ← readBlock r rec;
        it ← lift (blockIter.newBlockIter block);
        it ← lift (blockIter.Seek key it);
        if blockIter.valid it && Equal (bs (blockIter.key it)) key
        then mret (Some (mkEntry (Clone (blockIter.key it)) (Clone (blockIter.value it))
                          (blockIter.seq it) (blockIter.deleted it)))
        else mret None
    end.

(** ** Table iterators *)

Module Iterator.

Record Iterator := mkIterator {
  bi : Z; blockIt : option blockIter.blockIter; err : option error
}.

Definition Valid (it : Iterator) : bool :=
  match err it, blockIt it with
  | None, Some b => blockIter.valid b
  | _, _ => false
  end.

(** [for it.bi < len(it.r.index)], at most [fuel] iterations, then
    [it.blockIt = nil]. *)
Fixpoint next_block (fuel : nat) (r : Reader) (it : Iterator) : M World Iterator :=
  match rindex r !! Z.to_nat (bi it) with
  | None => mret (mkIterator (bi it) None None)
  | Some rec =>
      match fuel with
      | O => lift Stuck
      | S fuel =>
          block ← try_ (readBlock r rec);
          match block with
          | inr e => mret (mkIterator (bi it) (blockIt it) (Some e))
          | inl block =>
              match blockIter.newBlockIter block with
              | Err e => mret (mkIterator (bi it) (blockIt it) (Some e))
              | Ok b =>
                  if blockIter.valid b then mret (mkIterator (bi it) (Some b) None)
                  else next_block fuel r (mkIterator (bi it + 1) (Some b) None)
              | Panic p => lift (Panic p)
              | Stuck => lift Stuck
              end
          end
      end
  end.

Definition Next (r : Reader) (it : Iterator) : M World Iterator :=
  match err it with
  | Some _ => mret it
  | None =>
      b ← (match blockIt it with
           | None => mret None
           | Some b => b ← lift (blockIter.Next b); mret (Some b)
           end);
      if (if b is Some b then blockIter.valid b else false) then mret (mkIterator (bi it) b None)
      else next_block (length (rindex r)) r (mkIterator (bi it + 1) b None)
  end.

Definition NewIterator (r : Reader) : M World Iterator := Next r (mkIterator (-1) None None).

Definition Seek (r : Reader) (target : list byte) (it : Iterator) : M World Iterator :=
  if len (rindex r) =? 0 then mret (mkIterator (bi it) None None)
  else
    idx ← lift (find_block (rindex r) target);
    match rindex r !! idx with
    | None => mret (mkIterator (len (rindex r)) None None)
    | Some rec =>
        block ← try_ (readBlock r rec);
        match block with
        | inr e => mret (mkIterator (Z.of_nat idx) (blockIt it) (Some e))
        | inl block =>
            match blockIter.newBlockIter block with
            | Err e => mret (mkIterator (Z.of_nat idx) (blockIt it) (Some e))
            | Ok b =>
                b ← lift (blockIter.Seek target b);
                let it := mkIterator (Z.of_nat idx) (Some b) None in
                if blockIter.valid b then mret it else Next r it
            | Panic p => lift (Panic p)
            | Stuck => lift Stuck
            end
        end
    end.

(** The accessors return the zero value on an invalid iterator. *)
Definition current {A} (zero : A) (g : blockIter.blockIter -> A) (it : Iterator) : A :=
  if Valid it then match blockIt it with Some b => g b | None => zero end else zero.

Definition Key : Iterator -> slice := current None (fun b => Clone (blockIter.key b)).
Definition Value : Iterator -> slice := current None (fun b => Clone (blockIter.value b)).
Definition Seq : Iterator -> Z := current 0 blockIter.seq.
Definition Deleted : Iterator -> bool := current false blockIter.deleted.
Definition Err : Iterator -> option error := err.
Definition Entry_ (it : Iterator) : Entry :=
  if Valid it then mkEntry (Key it) (Value it) (Seq it) (Deleted it) else zero_Entry.

End Iterator.

(** The bytes in the blocks of a table, which bound the entries its iterators
    can yield: the fuel of the loops over an iterator. *)
Definition reader_fuel (r : Reader) : nat :=
  foldr (fun rec n => (Z.to_nat (length_ rec) + n)%nat) 0%nat (rindex r).
