(* ===== verification/SSTableFacts.v ===== *)
(** * SSTableFacts: what package internal/sstable promises

    Blocks are read back as they were written, [Seek] finds the first key not
    below its target, and a table written by [WriteFile] is opened, searched
    and enumerated correctly. *)

From Stdlib Require Import ZArith Lia Strings.Byte.
From stdpp Require Import base decidable list strings numbers sorting.
From S2P Require Import Prelude Varint Crc32x Bloom ByteUtil Os SSTable.
#[local] Open Scope Z_scope.

(** * Blocks *)

Definition ekey (e : Entry) : list byte := bs (Key e).

(** What the writer accepts and the format can hold; the value of a stored
    entry is never nil. *)
Definition entry_ok (e : Entry) : Prop :=
  Key e <> None /\ 0 <= Seq e < 2 ^ 64 /\ len (ekey e) < 2 ^ 40.
Definition stored (e : Entry) : Entry := mkEntry (Key e) (Some (bs (Value e))) (Seq e) (Deleted e).

(** ** The encoding of a list of entries *)

Definition entry_bytes (sh : nat) (e : Entry) : list byte :=
  varint (Z.of_nat sh) ++ varint (len (ekey e) - Z.of_nat sh) ++ varint (len (bs (Value e))) ++
  varint (Seq e) ++ [if Deleted e then flagDelete else flagValue] ++
  drop sh (ekey e) ++ bs (Value e).

Section block.
Context (ri : nat) (Hri : (0 < ri)%nat).

(** The prefix shared with the previous key: none at a restart point, which is
    every [ri]-th entry. *)
Definition shared_of (i : nat) (prev : slice) (e : Entry) : nat :=
  if decide ((i mod ri = 0)%nat \/ prev = None) then 0%nat else SharedPrefixLen (bs prev) (ekey e).

Fixpoint enc (i : nat) (prev : slice) (es : list Entry) : list byte :=
  match es with
  | [] => []
  | e :: es => entry_bytes (shared_of i prev e) e ++ enc (S i) (Key e) es
  end.

Fixpoint last_key (prev : slice) (es : list Entry) : slice :=
  match es with [] => prev | e :: es => last_key (Key e) es end.

Definition block_data (es : list Entry) : list byte := enc 0 None es.

(** The number of restart points of [n] entries and their offsets. *)
Definition nrestarts (n : nat) : nat := ((n + (ri - 1)) / ri)%nat.
Definition starts (es : list Entry) : list Z :=
  (fun k => len (block_data (take (k * ri) es))) <$> seq 0 (nrestarts (length es)).

Lemma enc_app es es' : forall i prev,
  enc i prev (es ++ es') = enc i prev es ++ enc (i + length es) (last_key prev es) es'.
Proof.
  induction es as [|e es IH]; intros i prev; cbn [app enc last_key length].
  - by rewrite Nat.add_0_r.
  - rewrite IH, <- app_assoc. do 2 f_equal. f_equal. lia.
Qed.

Lemma last_key_app prev es es' : last_key prev (es ++ es') = last_key (last_key prev es) es'.
Proof. revert prev. induction es; intros prev; cbn; auto. Qed.

Lemma last_key_snoc prev es e : last_key prev (es ++ [e]) = Key e.
Proof. by rewrite last_key_app. Qed.

Lemma block_data_snoc es e :
  block_data (es ++ [e]) = block_data es ++ entry_bytes (shared_of (length es) (last_key None es) e) e.
Proof. unfold block_data. rewrite enc_app. cbn [enc]. by rewrite app_nil_r. Qed.

Lemma block_data_split es1 e es2 :
  block_data (es1 ++ e :: es2) =
    block_data es1 ++ entry_bytes (shared_of (length es1) (last_key None es1) e) e ++
    enc (S (length es1)) (Key e) es2.
Proof. unfold block_data. by rewrite enc_app. Qed.

Lemma nrestarts_S n :
  nrestarts (S n) = if decide (n mod ri = 0)%nat then S (nrestarts n) else nrestarts n.
Proof.
  unfold nrestarts. pose proof (Nat.div_mod_eq n ri) as Hn. pose proof (Nat.mod_upper_bound n ri).
  case_decide as Hm.
  - rewrite Hm in Hn. replace (S n + (ri - 1))%nat with (0 + (n / ri + 1) * ri)%nat by lia.
    replace (n + (ri - 1))%nat with (ri - 1 + n / ri * ri)%nat by lia.
    rewrite !Nat.div_add, (Nat.div_small (ri - 1)), (Nat.div_small 0) by lia. lia.
  - replace (S n + (ri - 1))%nat with (n mod ri + (n / ri + 1) * ri)%nat by lia.
    replace (n + (ri - 1))%nat with (n mod ri - 1 + (n / ri + 1) * ri)%nat by lia.
    rewrite !Nat.div_add, (Nat.div_small (n mod ri)), (Nat.div_small (n mod ri - 1)) by lia. lia.
Qed.

Lemma nrestarts_mul n k : (k < nrestarts n)%nat -> (k * ri < n)%nat.
Proof.
  unfold nrestarts. intros Hk. pose proof (Nat.div_mod_eq (n + (ri - 1)) ri).
  pose proof (Nat.mod_upper_bound (n + (ri - 1)) ri). nia.
Qed.

Lemma nrestarts_last n : (n mod ri = 0)%nat -> (nrestarts n * ri = n)%nat.
Proof.
  intros Hm. unfold nrestarts. pose proof (Nat.div_mod_eq n ri) as Hn. rewrite Hm in Hn.
  replace (n + (ri - 1))%nat with (ri - 1 + n / ri * ri)%nat by lia.
  rewrite Nat.div_add, Nat.div_small by lia. lia.
Qed.

Lemma starts_snoc es e :
  starts (es ++ [e]) =
    starts es ++ (if decide (length es mod ri = 0)%nat then [len (block_data es)] else []).
Proof.
  unfold starts. rewrite length_app, Nat.add_1_r, nrestarts_S.
  assert (Hold: (fun k => len (block_data (take (k * ri) (es ++ [e])))) <$> seq 0 (nrestarts (length es)) =
    (fun k => len (block_data (take (k * ri) es))) <$> seq 0 (nrestarts (length es))).
  { apply list_fmap_ext. intros i k Hk. apply lookup_seq in Hk as [-> Hk].
    rewrite take_app_le; [done|]. pose proof (nrestarts_mul (length es) i Hk). cbn. lia. }
  case_decide as Hm.
  - rewrite seq_S, fmap_app, Hold. cbn [fmap list_fmap Nat.add]. rewrite nrestarts_last by done.
    by rewrite take_app_length.
  - by rewrite app_nil_r.
Qed.

Lemma starts_lookup es k :
  (k < nrestarts (length es))%nat -> starts es !! k = Some (len (block_data (take (k * ri) es))).
Proof.
  intros Hk. unfold starts. rewrite list_lookup_fmap, lookup_seq_lt by done. done.
Qed.

Lemma length_starts es : length (starts es) = nrestarts (length es).
Proof. unfold starts. by rewrite length_fmap, length_seq. Qed.

Lemma length_enc i prev es : (length es <= length (enc i prev es))%nat.
Proof.
  revert i prev. induction es as [|e es IH]; intros i prev; cbn [enc length]; [lia|].
  specialize (IH (S i) (Key e)). rewrite length_app. unfold entry_bytes. rewrite !length_app. cbn [length]. lia.
Qed.

Lemma shared_of_le i prev e : (shared_of i prev e <= length (ekey e))%nat.
Proof.
  unfold shared_of. case_decide; [lia|].
  destruct (SharedPrefixLen_spec (bs prev) (ekey e)) as (_ & _ & ? & _). done.
Qed.

(** ** One step of the block iterator *)

Definition on_entry (d : list byte) (rs : list Z) (o : Z) (e : Entry) : blockIter.blockIter :=
  blockIter.mkBlockIter d rs o (Key e) (Some (bs (Value e))) (Seq e) (Deleted e) true.

Lemma read_ok it o v n k :
  decode_at (blockIter.data it) o = Ok (v, n) -> blockIter.read it o k = k v (i64 (o + n)).
Proof. intros H. unfold blockIter.read. by rewrite H. Qed.

Lemma rebuild_key (prev key : list byte) sh :
  (sh <= length key)%nat -> (sh <= length prev)%nat -> take sh prev = take sh key ->
  copy_at (copy_at (replicate (length key) x00) 0 (take sh prev)) sh (drop sh key) = key.
Proof.
  intros Hk Hp Ht. rewrite Ht. pose proof (length_take_le key sh Hk) as Hlt.
  rewrite copy_at_fresh by lia. rewrite Hlt.
  replace (take sh key ++ replicate (length key - sh) x00)
    with (take sh key ++ replicate (length key - sh) x00 ++ []) by (by rewrite app_nil_r).
  rewrite copy_at_app; [by rewrite app_nil_r, take_drop|by rewrite Hlt|].
  by rewrite length_replicate, length_drop.
Qed.

(** A varint of the image is read past; bytes of the image are cut out. *)
Lemma read_varint it pre v post o k :
  blockIter.data it = pre ++ varint v ++ post -> o = len pre -> 0 <= v < 2 ^ 64 -> len (blockIter.data it) < 2 ^ 40 ->
  blockIter.read it o k = k v (len (pre ++ varint v)).
Proof.
  intros Hd -> Hv Hl. rewrite (read_ok it (len pre) v (len (varint v))) by (by apply decode_at_varint with pre post).
  rewrite length_app, i64_small; [f_equal; lia|]. rewrite Hd, !length_app in Hl. lia.
Qed.

Lemma subslice_seg {A} (d x y z : list A) i j : d = x ++ y ++ z -> i = len x -> j = len x + len y -> subslice d i j = Ok y.
Proof. intros -> -> ->. by apply subslice_app. Qed.

Lemma Next_entry it pre sh e post :
  blockIter.data it = pre ++ entry_bytes sh e ++ post -> blockIter.off it = len pre ->
  (sh <= length (ekey e))%nat -> (sh <= length (bs (blockIter.key it)))%nat ->
  take sh (bs (blockIter.key it)) = take sh (ekey e) ->
  entry_ok e -> len (blockIter.data it) < 2 ^ 40 ->
  blockIter.Next it =
    Ok (on_entry (blockIter.data it) (blockIter.restarts it) (len (pre ++ entry_bytes sh e)) e).
Proof.
  intros Hd Ho Hsh Hsp Ht (Hk & Hq & Hkl) Hl. unfold blockIter.Next.
  set (d := blockIter.data it) in *. fold (ekey e) in *. set (key := ekey e) in *. set (v := bs (Value e)) in *.
  set (a1 := varint (Z.of_nat sh)). set (a2 := varint (len key - Z.of_nat sh)).
  set (a3 := varint (len v)). set (a4 := varint (Seq e)).
  set (fl := if Deleted e then flagDelete else flagValue).
  assert (entry_bytes sh e = a1 ++ a2 ++ a3 ++ a4 ++ [fl] ++ drop sh key ++ v) as He by done.
  assert (len d = len pre + len a1 + len a2 + len a3 + len a4 + 1 + (len key - Z.of_nat sh) + len v + len post)
    as Hlen.
  { rewrite Hd, He, !length_app, length_drop. cbn [length]. lia. }
  rewrite He in Hd |- *. rewrite <- !app_assoc in Hd. cbn [app] in Hd. rewrite Ho. zif.
  rewrite (read_varint it pre (Z.of_nat sh) _ _ _ Hd) by (done || lia). fold a1.
  rewrite (app_assoc pre) in Hd. rewrite (read_varint it _ (len key - Z.of_nat sh) _ _ _ Hd) by (done || lia). fold a2.
  rewrite (app_assoc _ a2) in Hd. rewrite (read_varint it _ (len v) _ _ _ Hd) by (done || lia). fold a3.
  rewrite (app_assoc _ a3) in Hd. rewrite (read_varint it _ (Seq e) _ _ _ Hd) by (done || lia). fold a4 d.
  rewrite (app_assoc _ a4) in Hd. rewrite !(app_assoc pre), !(app_assoc _ a2), !(app_assoc _ a3).
  rewrite !(app_assoc _ a4). set (p := (((pre ++ a1) ++ a2) ++ a3) ++ a4) in *.
  assert (len p = len pre + len a1 + len a2 + len a3 + len a4) as Hp by (unfold p; rewrite !length_app; lia).
  clearbody p. zif. replace (Prelude.index d (len p)) with (Ok (A := byte) fl) by (rewrite Hd; symmetry; by apply index_app_r).
  remember (len p) as o eqn:Eo.
  rewrite outcome_bind_Ok. cbv zeta.
  rewrite (i64_small (len key - Z.of_nat sh)), (i64_small (len v)), (i64_small (Z.of_nat sh)),
    (i64_small (o + 1)), (i64_small (o + 1 + (len key - Z.of_nat sh))),
    (i64_small (o + 1 + (len key - Z.of_nat sh) + len v)), (i64_small (Z.of_nat sh + _)) by lia.
  zif. unfold make_check. rewrite decide_True, outcome_bind_Ok by lia.
  rewrite subslice_take, outcome_bind_Ok by lia. rewrite Nat2Z.id.
  rewrite (subslice_seg d (p ++ [fl]) (drop sh key) (v ++ post) (o + 1));
    [|by rewrite Hd, <- app_assoc|rewrite ?length_app, ?length_drop; cbn [length]; lia..].
  rewrite outcome_bind_Ok.
  rewrite (subslice_seg d (p ++ [fl] ++ drop sh key) v post);
    [|by rewrite Hd, <- !app_assoc|rewrite ?length_app, ?length_drop; cbn [length]; lia..].
  rewrite outcome_bind_Ok. unfold on_entry. do 2 f_equal.
  - rewrite !length_app, length_drop. cbn [length]. lia.
  - replace (Z.to_nat (Z.of_nat sh + (len key - Z.of_nat sh))) with (length key) by lia.
    rewrite rebuild_key; [|exact Hsh|exact Hsp|exact Ht]. unfold key, ekey. by destruct (Key e).
  - by rewrite Clone_id.
  - unfold fl. by destruct (Deleted e).
Qed.
(** ** Positions in a block *)

Section positions.
Context (es : list Entry) (rs : list Z).
Context (Hok : Forall entry_ok es) (Hlen : len (block_data es) < 2 ^ 40).

(** The iterator stands on the first of [es2], with [es1] before it. *)
Definition pos (es1 es2 : list Entry) (it : blockIter.blockIter) : Prop :=
  blockIter.data it = block_data es /\ blockIter.restarts it = rs /\
  match es2 with
  | [] => blockIter.valid it = false
  | e :: _ => it = on_entry (block_data es) rs (len (block_data (es1 ++ [e]))) e
  end.

Lemma shared_of_bounds e0 e i :
  Key e0 <> None -> (i mod ri <> 0)%nat ->
  let sh := shared_of i (Key e0) e in
  (sh <= length (ekey e0))%nat /\ take sh (ekey e0) = take sh (ekey e).
Proof.
  intros Hk Hi. unfold shared_of. rewrite decide_False by (intros [?|?]; done).
  destruct (SharedPrefixLen_spec (bs (Key e0)) (ekey e)) as (? & ? & _). done.
Qed.

(** Decoding one entry, at a restart point or behind its predecessor. *)
Lemma Next_at es1 e es2 it :
  es = es1 ++ e :: es2 -> blockIter.data it = block_data es -> blockIter.restarts it = rs ->
  blockIter.off it = len (block_data es1) ->
  ((length es1 mod ri = 0)%nat \/ blockIter.key it = last_key None es1) ->
  blockIter.Next it = Ok (on_entry (block_data es) rs (len (block_data (es1 ++ [e]))) e).
Proof.
  intros Hes Hd Hrs Ho Hk. pose proof (shared_of_le (length es1) (last_key None es1) e) as Hle.
  assert (Hpref: (shared_of (length es1) (last_key None es1) e <= length (bs (blockIter.key it)))%nat /\
    take (shared_of (length es1) (last_key None es1) e) (bs (blockIter.key it)) =
      take (shared_of (length es1) (last_key None es1) e) (ekey e)).
  { destruct (decide (length es1 mod ri = 0)%nat) as [Hm|Hm].
    - unfold shared_of. rewrite decide_True by (by left). split; [lia|by rewrite !take_0].
    - destruct Hk as [?|Hk]; [done|]. rewrite Hk.
      destruct es1 as [|e0 es0 _] using rev_ind; [by rewrite Nat.Div0.mod_0_l in Hm|].
      rewrite last_key_snoc. apply shared_of_bounds; [|done].
      rewrite Hes in Hok. apply Forall_app in Hok as [[_ H0]%Forall_app _].
      by apply Forall_singleton in H0 as [? _]. }
  rewrite (Next_entry it (block_data es1) (shared_of (length es1) (last_key None es1) e) e
    (enc (S (length es1)) (Key e) es2)).
  - rewrite Hd, Hrs. do 2 f_equal. by rewrite block_data_snoc.
  - by rewrite Hd, Hes, block_data_split.
  - done.
  - done.
  - apply Hpref.
  - apply Hpref.
  - rewrite Forall_forall in Hok. apply Hok. rewrite Hes. apply elem_of_app. right. by left.
  - by rewrite Hd.
Qed.

Lemma Next_pos es1 e es2 it :
  es = es1 ++ e :: es2 -> pos es1 (e :: es2) it ->
  exists it', blockIter.Next it = Ok it' /\ pos (es1 ++ [e]) es2 it'.
Proof.
  intros Hes (_ & _ & ->). destruct es2 as [|e' es2].
  - unfold blockIter.Next. cbn [on_entry blockIter.data blockIter.off].
    rewrite <- Hes, Z.leb_refl. eexists. split; [done|]. by split_and!.
  - eexists. split.
    + apply (Next_at (es1 ++ [e]) e' es2); [by rewrite Hes, <- app_assoc|done..|].
      right. by rewrite last_key_snoc.
    + by split_and!.
Qed.

Lemma restart_pos es1 e es2 it :
  es = es1 ++ e :: es2 -> blockIter.data it = block_data es -> blockIter.restarts it = rs ->
  (length es1 mod ri = 0)%nat ->
  exists it', blockIter.restart_at it (len (block_data es1)) = Ok it' /\ pos es1 (e :: es2) it'.
Proof.
  intros Hes Hd Hrs Hm. unfold blockIter.restart_at. eexists. split.
  - apply (Next_at es1 e es2); [done..|]. by left.
  - by split_and!.
Qed.

Lemma block_scan_spec target es2 : forall es1 it fuel,
  es = es1 ++ es2 -> pos es1 es2 it -> (length es2 <= fuel)%nat ->
  exists a b it', es2 = a ++ b /\ Forall (fun e => blt (ekey e) target) a /\
    (if b is e :: _ then ble target (ekey e) else True) /\
    blockIter.scan fuel target it = Ok it' /\ pos (es1 ++ a) b it'.
Proof.
  induction es2 as [|e es2 IH]; intros es1 it fuel Hes Hp Hf.
  - exists [], [], it. rewrite app_nil_r. split_and!; try done.
    destruct Hp as (_ & _ & Hv). destruct fuel; cbn [blockIter.scan]; by rewrite Hv.
  - destruct (decide (blt (ekey e) target)) as [Hlt|Hge].
    + destruct fuel as [|fuel]; [cbn in Hf; lia|]. cbn [length] in Hf.
      destruct (Next_pos es1 e es2 it Hes Hp) as (it1 & Hn & Hp1).
      destruct (IH (es1 ++ [e]) it1 fuel) as (a & b & it' & -> & Ha & Hb & Hs & Hp'); [|done|lia|].
      { by rewrite <- app_assoc. }
      exists (e :: a), b, it'. split; [done|]. split; [by constructor|]. split; [done|]. split.
      * destruct Hp as (_ & _ & ->). cbn [blockIter.scan on_entry blockIter.valid blockIter.key andb].
        unfold Compare. apply compare_lt in Hlt. unfold ekey in Hlt. zif.
        by rewrite Hn, outcome_bind_Ok.
      * by rewrite <- app_assoc in Hp'.
    + apply not_blt in Hge. exists [], (e :: es2), it. rewrite app_nil_r.
      split_and!; try done. destruct Hp as (_ & _ & ->).
      assert ((Compare (bs (Key e)) target <? 0) = false) as Hc
        by (apply Z.ltb_ge; by apply compare_ge).
      destruct fuel; cbn [blockIter.scan on_entry blockIter.valid blockIter.key andb]; by rewrite Hc.
Qed.
End positions.

(** ** Seeking in a block *)

Section seek.
Context (es : list Entry).
Context (Hok : Forall entry_ok es) (Hlen : len (block_data es) < 2 ^ 40).
Context (Hsort : StronglySorted blt (ekey <$> es)).

(** Restart point [l] is not above the target. *)
Definition low (target : list byte) (l : Z) : Prop :=
  l = 0 \/ exists e, es !! (Z.to_nat l * ri)%nat = Some e /\ ble (ekey e) target.

Lemma restart_split l :
  0 <= l -> (Z.to_nat l < nrestarts (length es))%nat ->
  exists es1 e es2, es = es1 ++ e :: es2 /\ length es1 = (Z.to_nat l * ri)%nat /\
    Prelude.index (starts es) l = Ok (len (block_data es1)).
Proof.
  intros Hl Hn. pose proof (nrestarts_mul (length es) _ Hn) as Hm.
  destruct (lookup_lt_is_Some_2 es (Z.to_nat l * ri)) as [e He]; [done|].
  exists (take (Z.to_nat l * ri) es), e, (drop (S (Z.to_nat l * ri)) es).
  split; [by rewrite take_drop_middle|]. split; [rewrite length_take; lia|].
  apply index_lookup. split; [done|]. by apply starts_lookup.
Qed.

Lemma search_spec target fuel : forall lo hi it,
  blockIter.data it = block_data es -> blockIter.restarts it = starts es ->
  0 <= lo <= hi -> (Z.to_nat hi < nrestarts (length es))%nat -> hi - lo <= Z.of_nat fuel ->
  low target lo ->
  exists lo' it', blockIter.search fuel target lo hi it = Ok (lo', it') /\ lo <= lo' <= hi /\
    blockIter.data it' = block_data es /\ blockIter.restarts it' = starts es /\ low target lo'.
Proof.
  induction fuel as [|fuel IH]; intros lo hi it Hd Hrs Hlo Hhi Hf Hlow; cbn [blockIter.search].
  - assert (lo = hi) as -> by lia. zif. eexists _, _. by split_and!.
  - destruct (Z.ltb_spec lo hi) as [Hlt|Hge]; [|eexists _, _; split_and!; first [done|lia]].
    set (mid := (lo + hi + 1) / 2).
    assert (lo < mid <= hi) as Hmid by (unfold mid; divlia).
    destruct (restart_split mid) as (es1 & e & es2 & Hes & Hl1 & Hi); [lia|lia|].
    rewrite Hrs, Hi, outcome_bind_Ok.
    destruct (restart_pos es (starts es) Hok Hlen es1 e es2 it Hes Hd Hrs) as (it1 & Hr & Hd1 & Hrs1 & Hit1).
    { rewrite Hl1. apply Nat.Div0.mod_mul. }
    rewrite Hr, outcome_bind_Ok. rewrite Hit1. cbn [on_entry blockIter.valid blockIter.key negb].
    rewrite <- Hit1. unfold Compare. destruct (Z.leb_spec (bytes_Compare (bs (Key e)) target) 0) as [Hc|Hc].
    + destruct (IH mid hi it1 Hd1 Hrs1 ltac:(lia) Hhi ltac:(lia)) as (lo' & it' & Hs & Hb & ? & ? & ?).
      * right. exists e. split; [|by apply compare_le]. rewrite <- Hl1. rewrite Hes at 1. by apply list_lookup_middle.
      * exists lo', it'. split_and!; first [done|lia].
    + destruct (IH lo (mid - 1) it1 Hd1 Hrs1 ltac:(lia) ltac:(lia) ltac:(lia) Hlow)
        as (lo' & it' & Hs & Hb & ? & ? & ?).
      exists lo', it'. split_and!; first [done|lia].
Qed.

(** What follows an entry not below the target is not below it. *)
Lemma suffix_ge target a b :
  es = a ++ b -> (if b is e :: _ then ble target (ekey e) else True) ->
  Forall (fun e => ble target (ekey e)) b.
Proof.
  intros Hes Hb. destruct b as [|e b]; [constructor|]. rewrite Hes, fmap_app in Hsort.
  apply StronglySorted_app in Hsort as (_ & _ & Hs). cbn in Hs. inversion Hs as [|? ? _ Hf]; subst.
  constructor; [done|]. rewrite Forall_fmap in Hf. eapply Forall_impl; [exact Hf|].
  intros e' He'. cbn in He'. apply ble_alt. left. by eapply ble_blt_trans.
Qed.

Lemma prefix_lt target a e b :
  es = a ++ e :: b -> ble (ekey e) target -> Forall (fun e => blt (ekey e) target) a.
Proof.
  intros Hes He. rewrite Hes, fmap_app in Hsort. apply StronglySorted_app in Hsort as (Hab & _ & _).
  rewrite Forall_forall. intros e' Hin. eapply blt_ble_trans; [|exact He].
  apply Hab; [by apply list_elem_of_fmap_2|]. cbn. by left.
Qed.

Lemma block_Seek_spec target it :
  blockIter.data it = block_data es -> blockIter.restarts it = starts es ->
  exists a b it', es = a ++ b /\ Forall (fun e => blt (ekey e) target) a /\
    Forall (fun e => ble target (ekey e)) b /\
    blockIter.Seek target it = Ok it' /\ pos es (starts es) a b it'.
Proof.
  intros Hd Hrs. unfold blockIter.Seek. rewrite Hrs, length_starts.
  pose proof (length_enc 0 None es) as Hle. fold (block_data es) in Hle.
  destruct (decide (es = [])) as [He|Hne].
  - exists [], [], (blockIter.invalid (blockIter.mkBlockIter (block_data es) (starts es) 0 None
      (blockIter.value it) (blockIter.seq it) (blockIter.deleted it) (blockIter.valid it)) 0).
    rewrite He in *. split_and!; try constructor; try done.
    unfold nrestarts. rewrite Nat.div_small by (cbn; lia). cbn [Z.of_nat Z.eqb].
    unfold blockIter.restart_at. rewrite Hd, Hrs. done.
  - assert (0 < nrestarts (length es))%nat as Hpos.
    { unfold nrestarts. destruct es; [done|]. cbn [length]. apply Nat.div_str_pos. lia. }
    zif. destruct (search_spec target (nrestarts (length es)) 0 (Z.of_nat (nrestarts (length es)) - 1) it Hd Hrs)
      as (lo & it1 & -> & Hlo & Hd1 & Hrs1 & Hlow); [lia..|by left|].
    rewrite outcome_bind_Ok. cbv beta iota.
    destruct (restart_split lo) as (es1 & e & es2 & Hes & Hl1 & Hi); [lia|lia|].
    rewrite Hrs1, Hi, outcome_bind_Ok.
    destruct (restart_pos es (starts es) Hok Hlen es1 e es2 it1 Hes Hd1 Hrs1) as (it2 & Hr & Hp2).
    { rewrite Hl1. apply Nat.Div0.mod_mul. }
    rewrite Hr, outcome_bind_Ok. pose proof Hp2 as (Hd2 & _ & _). rewrite Hd2.
    destruct (block_scan_spec es (starts es) Hok Hlen target (e :: es2) es1 it2 (length (block_data es)) Hes Hp2)
      as (a & b & it' & Hab & Ha & Hb & Hs & Hp'); [etrans; [|exact Hle]; rewrite Hes, length_app; lia|].
    exists (es1 ++ a), b, it'. rewrite Hs.
    assert (es = (es1 ++ a) ++ b) as Hes' by (rewrite <- app_assoc, <- Hab; done).
    split_and!; try done; [|by eapply suffix_ge].
    apply Forall_app. split; [|done]. destruct Hlow as [->|(e1 & He1 & Hble)].
    + cbn in Hl1. by destruct es1.
    + rewrite <- Hl1, Hes, list_lookup_middle in He1 by done. injection He1 as <-.
      by eapply prefix_lt.
Qed.
End seek.

(** ** Parsing a block *)

Definition rs_bytes (rs : list Z) : list byte := concat ((fun o => le_bytes 4 o) <$> rs).

Lemma add_restarts_app rs block : add_restarts rs block = block ++ rs_bytes rs.
Proof.
  unfold add_restarts, rs_bytes. revert block. induction rs as [|r rs IH]; intros block; cbn [fold_left].
  - cbn. by rewrite app_nil_r.
  - rewrite IH. cbn. by rewrite <- app_assoc.
Qed.

Lemma length_rs_bytes rs : length (rs_bytes rs) = (4 * length rs)%nat.
Proof. clear Hri ri. unfold rs_bytes. induction rs as [|r rs IH]; [done|]. cbn [fmap list_fmap concat]. rewrite length_app, IH. cbn. lia. Qed.

Lemma restarts_loop_spec rs : forall block pre post o i,
  block = pre ++ rs_bytes rs ++ post -> o + i * 4 = len pre -> Forall (fun r => 0 <= r < 2 ^ 32) rs ->
  blockIter.restarts_loop (length rs) block o i = Ok rs.
Proof.
  induction rs as [|r rs IH]; intros block pre post o i Hb Ho Hr; [done|]. cbn [length blockIter.restarts_loop].
  apply Forall_cons in Hr as [Hr Hrs]. unfold rs_bytes in Hb. cbn [fmap list_fmap concat] in Hb.
  fold (rs_bytes rs) in Hb. rewrite <- app_assoc in Hb.
  unfold uint_at. rewrite Hb at 1. rewrite subslice_app by (rewrite ?length_le_bytes; lia).
  rewrite !outcome_bind_Ok, le_val_bytes4, u32_small by done.
  rewrite (IH block (pre ++ le_bytes 4 r) post); [done|by rewrite Hb, <- app_assoc| |done].
  rewrite length_app, length_le_bytes. lia.
Qed.

(** The part of a block its checksum covers. *)
Definition block_body (es : list Entry) : list byte :=
  block_data es ++ rs_bytes (starts es) ++ le_bytes 4 (u32 (len (starts es))).

Lemma block_bytes_body es :
  block_bytes (block_data es) (starts es) = block_body es ++ le_bytes 4 (ChecksumCastagnoli (block_body es)).
Proof. unfold block_bytes, block_body. rewrite add_restarts_app. cbv zeta. by rewrite <- !app_assoc. Qed.

Lemma starts_range es : len (block_data es) < 2 ^ 32 -> Forall (fun r => 0 <= r < 2 ^ 32) (starts es).
Proof.
  intros Hl. unfold starts. rewrite Forall_fmap, Forall_forall. intros k _. cbn.
  rewrite <- (take_drop (k * ri) es) in Hl. unfold block_data in Hl at 1.
  rewrite enc_app, length_app in Hl. fold (block_data (take (k * ri) es)) in Hl. lia.
Qed.

Lemma nrestarts_le n : (nrestarts n <= n)%nat.
Proof.
  destruct (decide (nrestarts n = 0)%nat); [lia|].
  pose proof (nrestarts_mul n (nrestarts n - 1)). nia.
Qed.

Lemma parseRestarts_body es :
  len (block_data es) < 2 ^ 31 -> blockIter.parseRestarts (block_body es) = Ok (block_data es, starts es).
Proof.
  intros Hl. pose proof (length_enc 0 None es) as Hle. fold (block_data es) in Hle.
  pose proof (nrestarts_le (length es)) as Hn. rewrite <- length_starts in Hn.
  set (b := block_body es).
  assert (len b = len (block_data es) + 4 * len (starts es) + 4) as Hb.
  { unfold b, block_body. rewrite !length_app, length_rs_bytes, length_le_bytes. lia. }
  unfold blockIter.parseRestarts. zif.
  assert (uint_at b (len b - 4) (len b) = Ok (len (starts es))) as ->.
  { unfold uint_at. unfold b at 1, block_body.
    rewrite app_assoc, <- (app_nil_r (le_bytes 4 _)).
    rewrite subslice_app, outcome_bind_Ok, le_val_bytes4
      by (rewrite length_app, length_rs_bytes, ?length_le_bytes; lia).
    by rewrite !(u32_small (len _)) by lia. }
  rewrite outcome_bind_Ok. cbv zeta. zif.
  replace (len b - (len (starts es) * 4 + 4)) with (len (block_data es)) by lia.
  replace (subslice b 0 (len (block_data es))) with (Ok (block_data es))
    by (symmetry; by apply subslice_0).
  rewrite outcome_bind_Ok, Nat2Z.id.
  rewrite (restarts_loop_spec (starts es) b (block_data es) (le_bytes 4 (u32 (len (starts es)))));
    [done|done|lia|apply starts_range; lia].
Qed.

Lemma newBlockIter_body es :
  es <> [] -> Forall entry_ok es -> len (block_data es) < 2 ^ 31 ->
  exists it, blockIter.newBlockIter (block_body es) = Ok it /\ pos es (starts es) [] es it.
Proof.
  intros Hne Hok Hl. unfold blockIter.newBlockIter. rewrite parseRestarts_body, outcome_bind_Ok by done.
  cbv beta iota. destruct es as [|e es2]; [done|]. eexists. split.
  - apply (Next_at (e :: es2) (starts (e :: es2)) Hok ltac:(lia) [] e es2); [done..|]. by right.
  - by split_and!.
Qed.
End block.

(** * The index *)

Definition rec_bytes (rec : indexRec) : list byte :=
  field (bs (lastKey rec)) ++ varint (offset rec) ++ varint (length_ rec).

Definition rec_ok (rec : indexRec) : Prop :=
  lastKey rec <> None /\ 0 <= offset rec < 2 ^ 64 /\ 0 <= length_ rec < 2 ^ 64.

Lemma index_bytes_alt index :
  index_bytes index = varint (len index) ++ concat (rec_bytes <$> index).
Proof.
  unfold index_bytes. fold (varint (len index)). generalize (varint (len index)) as b.
  induction index as [|rec index IH]; intros b; cbn [fold_left].
  - cbn. by rewrite app_nil_r.
  - rewrite IH. cbn [fmap list_fmap concat]. unfold rec_bytes at 2, field.
    by rewrite !EncodeUint64_app, <- !app_assoc.
Qed.

Lemma index_entry_spec body pre rec post out :
  body = pre ++ rec_bytes rec ++ post -> rec_ok rec -> len body < 2 ^ 62 ->
  index_entry body (len pre, out) = Ok (inl (len (pre ++ rec_bytes rec), out ++ [rec])).
Proof.
  intros Hb (Hk & Ho & Hl) Hlen. unfold rec_bytes in *. unfold index_entry.
  set (k := bs (lastKey rec)) in *.
  assert (body = pre ++ field k ++ (varint (offset rec) ++ varint (length_ rec)) ++ post) as Hb1
    by (by rewrite Hb, <- !app_assoc).
  assert (len body = len pre + len (field k) + len (varint (offset rec)) + len (varint (length_ rec)) + len post)
    as Hlb by (rewrite Hb, !length_app; lia).
  destruct (field_spec _ _ _ _ _ Hb1 eq_refl Hlen) as (-> & F1 & F2 & F3).
  cbn [or_err]. rewrite outcome_bind_Ok. cbv beta iota zeta. rewrite F1, F2, outcome_bind_Ok, F3.
  rewrite (decode_at_varint body (pre ++ field k) (offset rec) (varint (length_ rec) ++ post));
    [|by rewrite Hb, <- !app_assoc|done..].
  cbn [or_err]. rewrite outcome_bind_Ok. cbv beta iota zeta. rewrite i64_small by (rewrite length_app; lia).
  rewrite (decode_at_varint body ((pre ++ field k) ++ varint (offset rec)) (length_ rec) post);
    [|by rewrite Hb, <- !app_assoc|rewrite !length_app; lia|done].
  cbn [or_err]. rewrite outcome_bind_Ok. cbv beta iota zeta. rewrite i64_small by (rewrite length_app; lia).
  rewrite Clone_id. do 3 f_equal.
  - rewrite !length_app. lia.
  - do 2 f_equal. unfold k. destruct rec as [[key|] o l]; cbn in *; [done|done].
Qed.

Lemma index_entries_spec body index : forall pre post out,
  body = pre ++ concat (rec_bytes <$> index) ++ post -> Forall rec_ok index -> len body < 2 ^ 62 ->
  loop_nat (length index) (index_entry body) (len pre, out) =
    Ok (inl (len (pre ++ concat (rec_bytes <$> index)), out ++ index)).
Proof.
  induction index as [|rec index IH]; intros pre post out Hb Hok Hl; cbn [length loop_nat].
  - cbn. by rewrite !app_nil_r.
  - apply Forall_cons in Hok as [Hr Hok]. cbn [fmap list_fmap concat] in Hb |- *.
    rewrite (index_entry_spec body pre rec (concat (rec_bytes <$> index) ++ post));
      [|by rewrite Hb, <- !app_assoc|done..].
    rewrite outcome_bind_Ok, (IH _ post); [by rewrite <- !app_assoc|by rewrite Hb, <- !app_assoc|done..].
Qed.

Lemma length_recs index : (length index <= length (concat (rec_bytes <$> index)))%nat.
Proof.
  induction index as [|rec index IH]; [done|]. cbn [fmap list_fmap concat length].
  rewrite length_app. unfold rec_bytes at 1, field. rewrite !length_app.
  pose proof (varint_pos (len (bs (lastKey rec)))). lia.
Qed.

Lemma parse_index_bytes index :
  Forall rec_ok index -> len (index_bytes index) < 2 ^ 40 ->
  parse_index (index_bytes index) = Ok index.
Proof.
  intros Hok Hl. pose proof (length_recs index) as Hr. rewrite index_bytes_alt in *.
  rewrite length_app in Hl. unfold parse_index.
  rewrite (DecodeUint64_varint (len index)) by lia. cbn [or_err]. rewrite outcome_bind_Ok. cbv beta iota.
  unfold make_check. rewrite decide_True, outcome_bind_Ok by lia.
  rewrite loop_loop_nat, Nat2Z.id.
  rewrite (index_entries_spec _ index (varint (len index)) []); [done|by rewrite app_nil_r|done|].
  rewrite length_app. lia.
Qed.

(** ** sort.Search *)

Lemma sort_Search_loop_spec fuel f n i j :
  (forall a b, (a <= b < n)%nat -> f a = true -> f b = true) ->
  (i <= j <= n)%nat -> (j - i <= fuel)%nat ->
  (forall a, (a < i)%nat -> f a = false) -> (forall a, (j <= a < n)%nat -> f a = true) ->
  exists r, sort_Search_loop fuel f i j = Ok r /\ (r <= n)%nat /\
    (forall a, (a < r)%nat -> f a = false) /\ (forall a, (r <= a < n)%nat -> f a = true).
Proof.
  intros Hm. revert i j. induction fuel as [|fuel IH]; intros i j Hij Hf Hlo Hhi; cbn [sort_Search_loop].
  - replace j with i in * by lia. rewrite Nat.ltb_irrefl. exists i. split_and!; try done; lia.
  - destruct (Nat.ltb_spec i j) as [Hlt|Hge].
    + set (h := ((i + j) / 2)%nat). assert (i <= h < j)%nat as Hh.
      { unfold h. split; [apply Nat.div_le_lower_bound; lia|apply Nat.Div0.div_lt_upper_bound; lia]. }
      destruct (f h) eqn:Efh; cbn [negb].
      * apply IH; [lia|lia|done|]. intros a Ha. apply (Hm h a); [lia|done].
      * apply IH; [lia|lia| |done]. intros a Ha. destruct (f a) eqn:Efa; [|done].
        rewrite (Hm a h) in Efh by (lia || done). done.
    + exists i. replace j with i in * by lia. split_and!; try done; lia.
Qed.

(** * Tables *)

Section table.
Context (ri : nat) (Hri : (0 < ri)%nat).

Definition image (es : list Entry) : list byte := block_bytes (block_data ri es) (starts ri es).

(** The index of consecutive blocks from offset [o]. *)
Fixpoint index_of (o : Z) (blocks : list (list Entry)) : list indexRec :=
  match blocks with
  | [] => []
  | es :: blocks => mkIndexRec (last_key None es) o (len (image es)) :: index_of (o + len (image es)) blocks
  end.

Definition images (blocks : list (list Entry)) : list byte := concat (image <$> blocks).

Lemma images_app b1 b2 : images (b1 ++ b2) = images b1 ++ images b2.
Proof. unfold images. by rewrite fmap_app, concat_app. Qed.

Lemma index_of_app b1 : forall o b2, index_of o (b1 ++ b2) = index_of o b1 ++ index_of (o + len (images b1)) b2.
Proof.
  induction b1 as [|es b1 IH]; intros o b2; cbn [app index_of].
  - by rewrite Z.add_0_r.
  - rewrite IH. unfold images. cbn [fmap list_fmap concat]. rewrite length_app.
    do 3 f_equal. lia.
Qed.

Lemma length_index_of o blocks : length (index_of o blocks) = length blocks.
Proof. revert o. induction blocks; intros o; cbn; auto. Qed.

Lemma index_of_lookup o b1 es b2 :
  index_of o (b1 ++ es :: b2) !! length b1 =
    Some (mkIndexRec (last_key None es) (o + len (images b1)) (len (image es))).
Proof. rewrite index_of_app. apply list_lookup_middle. by rewrite length_index_of. Qed.

Lemma image_body es : image es = block_body ri es ++ le_bytes 4 (ChecksumCastagnoli (block_body ri es)).
Proof. apply block_bytes_body. Qed.

Lemma length_body es : len (block_body ri es) = len (block_data ri es) + 4 * len (starts ri es) + 4.
Proof. unfold block_body. rewrite !length_app, length_rs_bytes, length_le_bytes. lia. Qed.

Lemma length_image es : len (image es) = len (block_data ri es) + 4 * len (starts ri es) + 8.
Proof. rewrite image_body, length_app, Nat2Z.inj_add, length_body, length_le_bytes. lia. Qed.

Definition block_ok (es : list Entry) : Prop :=
  es <> [] /\ Forall entry_ok es /\ len (block_data ri es) < 2 ^ 31.

(** What an open table needs: the blocks are in the file where the index says,
    their keys ascend, and the filter knows every key. *)
Record table (r : Reader) (w : World) (blocks : list (list Entry)) : Prop := {
  t_calm : calm w;
  t_file : exists f i p rest, rf r = Some f /\ has_file w f i p (images blocks ++ rest) /\
    len (images blocks ++ rest) < 2 ^ 61;
  t_index : rindex r = index_of 0 blocks;
  t_blocks : Forall block_ok blocks;
  t_sorted : StronglySorted blt (ekey <$> concat blocks);
  t_bloom : forall key, exists b, MayContain r key = Ok b /\
    (key ∈ ekey <$> concat blocks -> b = true)
}.

Context (r : Reader) (w : World) (blocks : list (list Entry)) (Ht : table r w blocks).

Lemma readBlock_spec b1 es b2 :
  blocks = b1 ++ es :: b2 ->
  readBlock r (mkIndexRec (last_key None es) (0 + len (images b1)) (len (image es))) w =
    (Ok (block_body ri es), w).
Proof.
  intros Hb. destruct (t_file _ _ _ Ht) as (f & i & p & rest & Hf & Hfile & Hlen).
  assert (images blocks ++ rest = images b1 ++ image es ++ images b2 ++ rest) as Hc.
  { rewrite Hb, images_app. unfold images at 2. cbn [fmap list_fmap concat]. by rewrite <- !app_assoc. }
  pose proof (t_blocks _ _ _ Ht) as Hok. rewrite Hb in Hok.
  apply Forall_app in Hok as [_ [(_ & _ & Hdl) _]%Forall_cons].
  rewrite Hc, !length_app in Hlen. unfold readBlock. cbn [length_ offset].
  rewrite (M_bind_Ok _ _ _ tt w).
  2: { unfold lift, make_check. rewrite decide_True; [done|]. rewrite length_image.
       pose proof (length_enc ri Hri 0 None es) as He. fold (block_data ri es) in He.
       pose proof (nrestarts_le ri Hri (length es)) as Hn. rewrite <- (length_starts ri es) in Hn. lia. }
  rewrite Hf, i64_small by lia. rewrite Hc in Hfile.
  rewrite (M_bind_Ok _ _ _ _ _ (ReadAt_seg w f i p (images b1) (image es) (images b2 ++ rest) _ _
    (t_calm _ _ _ Ht) Hfile eq_refl eq_refl)).
  rewrite (proj2 (Z.ltb_ge _ _)) by (rewrite length_image; lia).
  pose proof (ChecksumCastagnoli_range (block_body ri es)) as Hcr.
  rewrite image_body. set (body := block_body ri es) in *.
  assert (len (body ++ le_bytes 4 (ChecksumCastagnoli body)) - 4 = len body) as ->
    by (rewrite length_app, length_le_bytes; lia).
  rewrite (M_bind_Ok _ _ _ body w) by (unfold lift; by rewrite subslice_0).
  rewrite (M_bind_Ok _ _ _ (ChecksumCastagnoli body) w).
  2: { unfold lift, uint_at. rewrite <- (app_nil_r (le_bytes 4 (ChecksumCastagnoli body))).
       rewrite subslice_app, outcome_bind_Ok, le_val_bytes4, u32_small;
         [done|done|done|rewrite !length_app, length_le_bytes; cbn [length]; lia]. }
  by rewrite Z.eqb_refl.
Qed.

Lemma block_facts b1 es b2 :
  blocks = b1 ++ es :: b2 ->
  es <> [] /\ Forall entry_ok es /\ len (block_data ri es) < 2 ^ 31 /\
  StronglySorted blt (ekey <$> es) /\
  (forall e e', e ∈ concat b1 -> e' ∈ es ++ concat b2 -> blt (ekey e) (ekey e')) /\
  (forall e e', e ∈ es -> e' ∈ concat b2 -> blt (ekey e) (ekey e')).
Proof.
  intros Hb. pose proof (t_blocks _ _ _ Ht) as Hok. rewrite Hb in Hok.
  apply Forall_app in Hok as [_ [(H1 & H2 & H3) _]%Forall_cons].
  pose proof (t_sorted _ _ _ Ht) as Hs. rewrite Hb, concat_app in Hs. cbn [concat] in Hs.
  rewrite !fmap_app in Hs. apply StronglySorted_app in Hs as (Hs1 & _ & Hs).
  apply StronglySorted_app in Hs as (Hs2 & Hs3 & _). split_and!; try done.
  - intros e e' He He'. apply Hs1; [by apply list_elem_of_fmap_2|]. rewrite <- fmap_app.
    by apply list_elem_of_fmap_2.
  - intros e e' He He'. apply Hs2; by apply list_elem_of_fmap_2.
Qed.

(** ** Finding the block of a key *)

Lemma last_entry es : es <> [] -> exists es' e, es = es' ++ [e] /\ last_key None es = Key e.
Proof.
  destruct es as [|e es' _] using rev_ind; [done|]. intros _. exists es', e. by rewrite last_key_snoc.
Qed.

(** A block lies below a key exactly when its last key does. *)
Lemma block_below b1 es b2 key :
  blocks = b1 ++ es :: b2 -> blt (bs (last_key None es)) key <-> Forall (fun e => blt (ekey e) key) es.
Proof.
  intros Hb. destruct (block_facts _ _ _ Hb) as (Hne & _ & _ & Hs & _).
  destruct (last_entry es Hne) as (es' & e & -> & ->). split.
  - intros Hlt. apply Forall_app. split; [|by constructor]. rewrite Forall_forall. intros e' Hin.
    eapply blt_trans; [|exact Hlt]. rewrite fmap_app in Hs.
    apply StronglySorted_app in Hs as (Hab & _ & _). apply Hab; [by apply list_elem_of_fmap_2|cbn; by left].
  - intros [_ Hf]%Forall_app. by rewrite Forall_singleton in Hf.
Qed.

Lemma find_block_spec key :
  exists b1 b2, blocks = b1 ++ b2 /\ find_block (rindex r) key = Ok (length b1) /\
    Forall (fun e => blt (ekey e) key) (concat b1) /\
    (if b2 is es :: _ then ~ Forall (fun e => blt (ekey e) key) es else True).
Proof.
  rewrite (t_index _ _ _ Ht). unfold find_block. rewrite length_index_of.
  set (f := fun i => match index_of 0 blocks !! i with
    | Some rec => 0 <=? Compare (bs (lastKey rec)) key | None => false end).
  assert (Hf: forall a es, blocks !! a = Some es -> f a = false <-> Forall (fun e => blt (ekey e) key) es).
  { intros a es Ha. pose proof (take_drop_middle _ _ _ Ha) as Hsplit. symmetry in Hsplit.
    pose proof (index_of_lookup 0 (take a blocks) es (drop (S a) blocks)) as Hi.
    rewrite <- Hsplit in Hi. rewrite length_take_le in Hi by (apply lookup_lt_Some in Ha; lia).
    rewrite <- (block_below _ _ _ key Hsplit). unfold f. rewrite Hi. cbn [lastKey]. unfold Compare.
    rewrite <- compare_lt. rewrite Z.leb_gt. done. }
  assert (Hmono: forall a b, (a <= b < length blocks)%nat -> f a = true -> f b = true).
  { intros a b Hab Ha. destruct (decide (a = b)) as [->|Hne]; [done|].
    destruct (f b) eqn:Eb; [done|]. destruct (lookup_lt_is_Some_2 blocks a) as [ea Hea]; [lia|].
    destruct (lookup_lt_is_Some_2 blocks b) as [eb Heb]; [lia|].
    apply (Hf b eb Heb) in Eb. rewrite <- Ha. symmetry. apply (Hf a ea Hea).
    pose proof (take_drop_middle _ _ _ Hea) as Hsplit. symmetry in Hsplit.
    destruct (block_facts _ _ _ Hsplit) as (_ & _ & _ & _ & _ & Hlt).
    rewrite Forall_forall in Eb |- *. intros e He.
    pose proof (take_drop_middle _ _ _ Heb) as Hsplitb. symmetry in Hsplitb.
    destruct (block_facts _ _ _ Hsplitb) as (Hneb & _).
    destruct eb as [|e' eb]; [done|]. transitivity (ekey e'); [|apply Eb; by left].
    apply Hlt; [done|]. apply list_elem_of_In, in_concat. exists (e' :: eb).
    split; [|by left]. apply list_elem_of_In. apply list_elem_of_lookup. exists (b - S a)%nat.
    rewrite lookup_drop. by replace (S a + (b - S a))%nat with b by lia. }
  destruct (sort_Search_loop_spec (length blocks) f (length blocks) 0 (length blocks) Hmono)
    as (n & Hs & Hn & Hlo & Hhi); [lia|lia|intros; lia|intros; lia|].
  exists (take n blocks), (drop n blocks). split; [by rewrite take_drop|].
  split; [unfold sort_Search; by rewrite Hs, length_take_le by lia|]. split.
  - rewrite Forall_forall. intros e He. apply list_elem_of_In, in_concat in He as (es & Hes & He).
    apply list_elem_of_In in Hes, He. apply list_elem_of_lookup in Hes as (a & Ha).
    apply lookup_take_Some in Ha as [Ha Hlt]. specialize (Hlo a Hlt). apply (Hf a es Ha) in Hlo.
    rewrite Forall_forall in Hlo. auto.
  - destruct (drop n blocks) as [|es b2] eqn:Ed; [done|].
    assert (blocks !! n = Some es) as Hes by (rewrite <- (Nat.add_0_r n), <- lookup_drop, Ed; done).
    rewrite <- (Hf n es Hes). rewrite Hhi; [done|]. apply lookup_lt_Some in Hes. lia.
Qed.

(** ** Point lookups *)

Definition lookup_entry (key : list byte) (es : list Entry) : option Entry :=
  List.find (fun e => bool_decide (ekey e = key)) es.

Lemma lookup_below key es es' :
  Forall (fun e => blt (ekey e) key) es -> lookup_entry key (es ++ es') = lookup_entry key es'.
Proof.
  unfold lookup_entry. induction 1 as [|e es He _ IH]; [done|]. cbn [app List.find].
  rewrite bool_decide_false; [done|]. intros Heq. rewrite Heq in He. by apply blt_irrefl in He.
Qed.

Lemma lookup_not_in key es : key ∉ ekey <$> es -> lookup_entry key es = None.
Proof.
  unfold lookup_entry. induction es as [|e es IH]; [done|]. cbn [fmap list_fmap List.find].
  rewrite not_elem_of_cons. intros [Hne Hin]. rewrite bool_decide_false by congruence. auto.
Qed.

Lemma lookup_entry_above key es : Forall (fun e => blt key (ekey e)) es -> lookup_entry key es = None.
Proof.
  intros Hf. apply lookup_not_in. intros (e & -> & He)%list_elem_of_fmap.
  rewrite Forall_forall in Hf. apply Hf in He. by apply blt_irrefl in He.
Qed.

Lemma table_Get_spec key :
  Get r key w = (Ok (stored <$> lookup_entry key (concat blocks)), w).
Proof.
  destruct (t_bloom _ _ _ Ht key) as (may & Hmay & Hin). unfold Get.
  rewrite (M_bind_Ok _ _ _ may w) by (unfold lift; by rewrite Hmay).
  destruct may; cbn [negb].
  2: { rewrite lookup_not_in; [done|]. intros H. by apply Hin in H. }
  rewrite (t_index _ _ _ Ht), length_index_of.
  destruct (Z.eqb_spec (len blocks) 0) as [H0|H0].
  { assert (blocks = []) as -> by (destruct blocks; [done|cbn in H0; lia]). done. }
  destruct (find_block_spec key) as (b1 & b2 & Hb & Hf & Hlo & Hhi).
  rewrite (t_index _ _ _ Ht) in Hf.
  rewrite (M_bind_Ok _ _ _ (length b1) w) by (unfold lift; by rewrite Hf).
  rewrite Hb, concat_app, lookup_below by done.
  destruct b2 as [|es b2].
  { rewrite app_nil_r, lookup_ge_None_2 by (by rewrite length_index_of). done. }
  rewrite index_of_lookup. rewrite (M_bind_Ok _ _ _ _ _ (readBlock_spec b1 es b2 Hb)).
  destruct (block_facts _ _ _ Hb) as (Hne & Hok & Hl & Hs & _ & Hafter).
  destruct (newBlockIter_body ri Hri es Hne Hok Hl) as (it & Hnew & Hd & Hrs & _).
  rewrite (M_bind_Ok _ _ _ it w) by (unfold lift; by rewrite Hnew).
  destruct (block_Seek_spec ri Hri es Hok ltac:(lia) Hs key it Hd Hrs) as (a & b & it' & Hab & Ha & Hbge & Hseek & Hpos).
  rewrite (M_bind_Ok _ _ _ it' w) by (unfold lift; by rewrite Hseek).
  destruct Hpos as (_ & _ & Hpos). destruct b as [|e b].
  - exfalso. apply Hhi. by rewrite Hab, app_nil_r.
  - rewrite Hpos. cbn [on_entry blockIter.valid blockIter.key blockIter.value blockIter.seq blockIter.deleted andb].
    cbn [concat]. rewrite Hab, <- app_assoc, lookup_below by done. cbn [app].
    unfold lookup_entry. cbn [List.find]. unfold Equal. change (bs (Key e)) with (ekey e).
    case_bool_decide as Hke.
    + rewrite !Clone_id. done.
    + apply Forall_cons in Hbge as [Hge _].
      assert (blt key (ekey e)) as Hgt by (apply ble_alt in Hge as [?|?]; congruence).
      fold (lookup_entry key (b ++ concat b2)). rewrite lookup_entry_above; [done|].
      apply Forall_app. split; rewrite Forall_forall; intros e' He'; transitivity (ekey e); try done.
      * rewrite Hab, fmap_app in Hs. apply StronglySorted_app in Hs as (_ & _ & Hs).
        cbn in Hs. inversion Hs as [|? ? _ Hf2]; subst. rewrite Forall_fmap, Forall_forall in Hf2.
        by apply Hf2.
      * apply Hafter; [|done]. rewrite Hab. apply elem_of_app. right. by left.
Qed.

(** ** Enumeration *)

(** The iterator has [rest] still to yield. *)
Definition tpos (rest : list Entry) (it : Iterator.Iterator) : Prop :=
  Iterator.err it = None /\
  ((rest = [] /\ Iterator.blockIt it = None) \/
   exists b1 es b2 a b bit,
     blocks = b1 ++ es :: b2 /\ es = a ++ b /\ b <> [] /\ rest = b ++ concat b2 /\
     Iterator.bi it = len b1 /\ Iterator.blockIt it = Some bit /\ pos ri es (starts ri es) a b bit).

Lemma next_block_spec b1 b2 it :
  blocks = b1 ++ b2 -> Iterator.bi it = len b1 ->
  exists it', Iterator.next_block (length (rindex r)) r it w = (Ok it', w) /\ tpos (concat b2) it'.
Proof.
  intros Hb Hbi. assert (length (rindex r) = length blocks) as Hlr
    by (by rewrite (t_index _ _ _ Ht), length_index_of).
  destruct b2 as [|es b2].
  - eexists. assert (rindex r !! Z.to_nat (Iterator.bi it) = None) as Hnone.
    { apply lookup_ge_None_2. rewrite Hlr, Hb, app_nil_r, Hbi. lia. }
    split; [destruct (length (rindex r)); cbn [Iterator.next_block]; by rewrite Hnone|].
    split; [done|by left].
  - assert (rindex r !! Z.to_nat (Iterator.bi it) =
      Some (mkIndexRec (last_key None es) (0 + len (images b1)) (len (image es)))) as Hrec
      by (by rewrite Hbi, Nat2Z.id, (t_index _ _ _ Ht), Hb, index_of_lookup).
    destruct (block_facts _ _ _ Hb) as (Hne & Hok & Hl & _).
  destruct (newBlockIter_body ri Hri es Hne Hok Hl) as (bit & Hnew & Hp).
    pose proof Hp as (_ & _ & Hbit).
    exists (Iterator.mkIterator (Iterator.bi it) (Some bit) None). split.
    + destruct (length (rindex r)) as [|n]; [rewrite Hb, length_app in Hlr; cbn in Hlr; lia|].
      cbn [Iterator.next_block]. rewrite Hrec.
      rewrite (M_bind_Ok _ _ _ (inl (block_body ri es)) w)
        by (unfold try_; by rewrite (readBlock_spec b1 _ b2 Hb)).
      rewrite Hnew. destruct es; [done|]. by rewrite Hbit.
    + split; [done|]. right. exists b1, es, b2, [], es, bit. by split_and!.
Qed.

Lemma Next_spec e rest it :
  tpos (e :: rest) it -> exists it', Iterator.Next r it w = (Ok it', w) /\ tpos rest it'.
Proof.
  intros (He & [[? _]|(b1 & es & b2 & a & b & bit & Hb & Hes & Hne & Hrest & Hbi & Hbit & Hp)]); [done|].
  destruct b as [|e' b]; [done|]. cbn [app] in Hrest. injection Hrest as <- ->.
  destruct (block_facts _ _ _ Hb) as (_ & Hok & Hl & _).
  destruct (Next_pos ri Hri es (starts ri es) Hok ltac:(lia) a e b bit Hes Hp) as (bit' & Hn & Hp').
  unfold Iterator.Next. rewrite He, Hbit.
  rewrite (M_bind_Ok _ _ _ (Some bit') w) by (unfold lift, mbind, M_bind; by rewrite Hn).
  destruct b as [|e2 b].
  - destruct Hp' as (_ & _ & ->). cbn [app].
    apply (next_block_spec (b1 ++ [es]) b2); [by rewrite <- app_assoc|].
    cbn [Iterator.bi]. rewrite Hbi, length_app. cbn [length]. lia.
  - pose proof Hp' as (_ & _ & Hbit'). exists (Iterator.mkIterator (Iterator.bi it) (Some bit') None). split.
    + rewrite Hbit'. done.
    + split; [done|]. right. exists b1, es, b2, (a ++ [e]), (e2 :: b), bit'.
      split_and!; try done. by rewrite <- app_assoc.
Qed.

Lemma NewIterator_spec : exists it, Iterator.NewIterator r w = (Ok it, w) /\ tpos (concat blocks) it.
Proof. by apply (next_block_spec [] blocks). Qed.

Lemma Iterator_Seek_spec target it :
  exists it', Iterator.Seek r target it w = (Ok it', w) /\
    tpos (filter (fun e => ble target (ekey e)) (concat blocks)) it'.
Proof.
  unfold Iterator.Seek. rewrite (t_index _ _ _ Ht), length_index_of.
  destruct (Z.eqb_spec (len blocks) 0) as [H0|H0].
  { eexists. split; [done|]. split; [done|]. left. split; [|done].
    destruct blocks; [done|cbn in H0; lia]. }
  destruct (find_block_spec target) as (b1 & b2 & Hb & Hf & Hlo & Hhi).
  rewrite (t_index _ _ _ Ht) in Hf.
  rewrite (M_bind_Ok _ _ _ (length b1) w) by (unfold lift; by rewrite Hf).
  rewrite Hb, concat_app, filter_app, (filter_none _ (concat b1)).
  2: { eapply Forall_impl; [exact Hlo|]. intros e He. by rewrite not_ble. }
  cbn [app]. destruct b2 as [|es b2].
  { rewrite lookup_ge_None_2 by (by rewrite app_nil_r, length_index_of).
    eexists. split; [done|]. split; [done|]. by left. }
  rewrite index_of_lookup.
  rewrite (M_bind_Ok _ _ _ (inl (block_body ri es)) w)
    by (unfold try_; by rewrite (readBlock_spec b1 _ b2 Hb)).
  destruct (block_facts _ _ _ Hb) as (Hne & Hok & Hl & Hs & _ & Hafter).
  destruct (newBlockIter_body ri Hri es Hne Hok Hl) as (bit & Hnew & Hd & Hrs & _). rewrite Hnew.
  destruct (block_Seek_spec ri Hri es Hok ltac:(lia) Hs target bit Hd Hrs)
    as (a & b & bit' & Hab & Ha & Hbge & Hseek & Hpos).
  rewrite (M_bind_Ok _ _ _ bit' w) by (unfold lift; by rewrite Hseek).
  destruct b as [|e b]; [exfalso; apply Hhi; by rewrite Hab, app_nil_r|].
  exists (Iterator.mkIterator (len b1) (Some bit') None). split.
  - pose proof Hpos as (_ & _ & ->). done.
  - split; [done|]. right. exists b1, es, b2, a, (e :: b), bit'. split_and!; try done.
    cbn [concat]. rewrite filter_app, Hab, filter_app, (filter_none _ a), (filter_all _ (e :: b)), filter_all;
      [done| |done|].
    + rewrite Forall_forall. intros e' He'. apply ble_alt. left. apply Forall_cons in Hbge as [Hge _].
      eapply ble_blt_trans; [exact Hge|]. apply Hafter; [|done]. rewrite Hab. apply elem_of_app. right. by left.
    + eapply Forall_impl; [exact Ha|]. intros e' He'. by rewrite not_ble.
Qed.

Lemma tpos_Valid rest it : tpos rest it -> Iterator.Valid it = if rest is [] then false else true.
Proof.
  intros (He & [[-> Hn]|(b1 & es & b2 & a & b & bit & _ & _ & Hne & -> & _ & Hbit & (_ & _ & Hp))]);
    unfold Iterator.Valid; rewrite He; [by rewrite Hn|].
  rewrite Hbit. destruct b as [|e b]; [done|]. by rewrite Hp.
Qed.

Lemma tpos_Entry e rest it : tpos (e :: rest) it -> Iterator.Entry_ it = stored e.
Proof.
  intros Hp. pose proof (tpos_Valid _ _ Hp) as Hv. unfold Iterator.Entry_. rewrite Hv.
  destruct Hp as (_ & [[? _]|(b1 & es & b2 & a & b & bit & _ & _ & Hne & Hr & _ & Hbit & (_ & _ & Hp))]); [done|].
  destruct b as [|e' b]; [done|]. injection Hr as <- ->.
  unfold Iterator.Key, Iterator.Value, Iterator.Seq, Iterator.Deleted, Iterator.current.
  rewrite Hv, Hbit, Hp. cbn [on_entry blockIter.key blockIter.value blockIter.seq blockIter.deleted]. by rewrite !Clone_id.
Qed.

(** The loop [for ; it.Valid(); it.Next()] collecting entries. *)
Fixpoint collect (fuel : nat) (it : Iterator.Iterator) : M World (list Entry) :=
  if Iterator.Valid it then
    match fuel with
    | O => lift Stuck
    | S fuel =>
        it' ← Iterator.Next r it;
        es ← collect fuel it';
        mret (Iterator.Entry_ it :: es)
    end
  else mret [].

Lemma table_collect_spec rest : forall it fuel,
  tpos rest it -> (length rest <= fuel)%nat -> collect fuel it w = (Ok (stored <$> rest), w).
Proof.
  induction rest as [|e rest IH]; intros it fuel Hp Hf.
  - destruct fuel; cbn [collect]; by rewrite (tpos_Valid _ _ Hp).
  - destruct fuel as [|fuel]; [cbn in Hf; lia|]. cbn [collect]. rewrite (tpos_Valid _ _ Hp).
    destruct (Next_spec e rest it Hp) as (it' & Hn & Hp'). rewrite (M_bind_Ok _ _ _ _ _ Hn).
    rewrite (M_bind_Ok _ _ _ _ _ (IH it' fuel Hp' ltac:(cbn in Hf; lia))).
    by rewrite (tpos_Entry _ _ _ Hp).
Qed.
End table.
