(* ===== verification/SSTableWriter.v ===== *)
(** * SSTableWriter: tables written by internal/sstable are read back

    The writer's invariant (the file holds the images of the flushed blocks,
    the buffer the encoding of the current one), the bytes of a finished
    table, and the theorems about a table written by [WriteFile] and read
    through [Open], [Get] and the iterators. *)

From Stdlib Require Import ZArith Lia QArith Strings.Byte.
From stdpp Require Import base decidable list gmap strings numbers sorting.
From S2P Require Import Prelude Varint Crc32x Bloom ByteUtil Os SSTable SSTableFacts.
#[local] Open Scope Z_scope.

(** * Sizes *)

Definition esize (e : Entry) : Z := len (ekey e) + len (bs (Value e)) + 64.
Definition tsize (es : list Entry) : Z := foldr (fun e n => esize e + n) 0 es.

Lemma esize_lo e : 64 <= esize e.
Proof. unfold esize. lia. Qed.

Lemma tsize_app es es' : tsize (es ++ es') = tsize es + tsize es'.
Proof. unfold tsize. induction es as [|e es IH]; cbn; lia. Qed.

Lemma tsize_len es : 64 * len es <= tsize es.
Proof. induction es as [|e es IH]; [done|]. cbn. fold (tsize es). pose proof (esize_lo e). lia. Qed.

Lemma entry_bytes_size sh e :
  (sh <= length (ekey e))%nat -> 0 <= Seq e < 2 ^ 64 -> esize e < 2 ^ 40 ->
  len (entry_bytes sh e) <= esize e - 23.
Proof.
  intros Hsh Hq Hs. unfold esize in *. unfold entry_bytes. rewrite !length_app, length_drop. cbn [length].
  pose proof (varint_length (Z.of_nat sh)). pose proof (varint_length (len (ekey e) - Z.of_nat sh)).
  pose proof (varint_length (len (bs (Value e)))). pose proof (varint_length (Seq e)). lia.
Qed.

Lemma last_key_size es : es <> [] -> len (bs (last_key None es)) + 64 <= tsize es.
Proof.
  intros Hne. destruct (last_entry es Hne) as (es' & e & -> & ->). rewrite tsize_app. cbn.
  pose proof (tsize_len es'). unfold esize, ekey. lia.
Qed.

Lemma last_key_some es : es <> [] -> Forall entry_ok es -> last_key None es <> None.
Proof.
  intros Hne Hok. destruct (last_entry es Hne) as (es' & e & -> & ->).
  apply Forall_app in Hok as [_ Hok]. rewrite Forall_singleton in Hok. apply Hok.
Qed.

Definition max_seq (es : list Entry) : Z := fold_left (fun m e => Z.max m (Seq e)) es 0.

Lemma max_seq_snoc es e : max_seq (es ++ [e]) = Z.max (max_seq es) (Seq e).
Proof. unfold max_seq. by rewrite fold_left_app. Qed.

Lemma max_seq_range es : Forall entry_ok es -> 0 <= max_seq es < 2 ^ 64.
Proof.
  induction es as [|e es IH] using rev_ind; [done|]. rewrite max_seq_snoc, Forall_app.
  intros [Hok [(_ & ? & _) _]%Forall_cons]. specialize (IH Hok). lia.
Qed.

Section sizes.
Context (ri : nat) (Hri : (0 < ri)%nat).

Lemma enc_size es : forall i prev,
  Forall entry_ok es -> tsize es < 2 ^ 40 -> len (enc ri i prev es) <= tsize es - 23 * len es.
Proof.
  induction es as [|e es IH]; intros i prev Hok Hs; [done|]. cbn [enc tsize foldr] in *. fold (tsize es) in *.
  apply Forall_cons in Hok as [(_ & Hq & _) Hok]. rewrite length_app. cbn [length].
  pose proof (tsize_len es). pose proof (esize_lo e).
  pose proof (entry_bytes_size _ e (shared_of_le ri Hri i prev e) Hq).
  specialize (IH (S i) (Key e) Hok). lia.
Qed.

Lemma image_size es :
  es <> [] -> Forall entry_ok es -> tsize es < 2 ^ 40 -> len (image ri es) <= tsize es.
Proof.
  intros Hne Hok Hs. rewrite length_image by done. pose proof (enc_size es 0 None Hok Hs) as He.
  fold (block_data ri es) in He. pose proof (nrestarts_le ri Hri (length es)).
  rewrite length_starts by done. destruct es; [done|]. cbn [length] in *. lia.
Qed.

Lemma images_size blocks :
  Forall (fun es => es <> []) blocks -> Forall entry_ok (concat blocks) -> tsize (concat blocks) < 2 ^ 40 ->
  len (images ri blocks) <= tsize (concat blocks).
Proof.
  induction 1 as [|es blocks Hne _ IH]; [done|]. cbn [concat]. unfold images. cbn [fmap list_fmap concat].
  fold (images ri blocks). rewrite Forall_app, tsize_app, length_app. intros [Hok Hok'] Hs.
  pose proof (tsize_len (concat blocks)). pose proof (tsize_len es).
  pose proof (image_size es Hne Hok). specialize (IH Hok'). lia.
Qed.

Lemma index_of_ok blocks : forall o,
  Forall (fun es => es <> []) blocks -> Forall entry_ok (concat blocks) ->
  tsize (concat blocks) < 2 ^ 40 -> 0 <= o -> o + tsize (concat blocks) < 2 ^ 62 ->
  Forall rec_ok (index_of ri o blocks) /\
  len (concat (rec_bytes <$> index_of ri o blocks)) + 20 * len blocks <= tsize (concat blocks).
Proof.
  induction blocks as [|es blocks IH]; intros o Hne Hok Hs Ho Hso; [by split; [constructor|]|].
  apply Forall_cons in Hne as [Hne Hnes]. cbn [concat] in *. rewrite Forall_app in Hok. destruct Hok as [Hok Hok'].
  rewrite tsize_app in *. pose proof (tsize_len (concat blocks)). pose proof (tsize_len es).
  pose proof (image_size es Hne Hok ltac:(lia)) as Hi. pose proof (last_key_size es Hne) as Hl.
  destruct (IH (o + len (image ri es)) Hnes Hok' ltac:(lia) ltac:(lia) ltac:(lia)) as [IH1 IH2].
  cbn [index_of fmap list_fmap concat length]. split.
  - constructor; [|done]. split; [by apply last_key_some|]. cbn. lia.
  - rewrite length_app. unfold rec_bytes at 1, field. rewrite !length_app. cbn [lastKey offset length_].
    pose proof (varint_length (len (bs (last_key None es)))). pose proof (varint_length o).
    pose proof (varint_length (len (image ri es))). lia.
Qed.
End sizes.

(** * The writer *)

Section writer.
Context {F : Type} `{Float64 F}.
Context (ri : nat) (Hri : (0 < ri)%nat).

(** [blocks] are in the file and [cur] in the buffer. *)
Record writing (f i : nat) (path : string) (bsize : Z) (fp : F) (W0 : World)
    (s : Writer F * World) (blocks : list (list Entry)) (cur : list Entry) : Prop := {
  wr_calm : calm (snd s);
  wr_file : has_file (snd s) f i (len (images ri blocks)) (images ri blocks);
  wr_touches : touches f i W0 (snd s);
  wr_fd : wf (fst s) = f;
  wr_path : wpath (fst s) = path;
  wr_bsize : blockSize (fst s) = bsize;
  wr_ri : restartInt (fst s) = Z.of_nat ri;
  wr_buf : buf (fst s) = block_data ri cur;
  wr_restarts : restarts (fst s) = starts ri cur;
  wr_block_entries : blockEntries (fst s) = len cur;
  wr_entries : entryCount (fst s) = len (concat blocks ++ cur);
  wr_last : wlastKey (fst s) = last_key None (concat blocks ++ cur);
  wr_index : index (fst s) = index_of ri 0 blocks;
  wr_bloom : bloom (fst s) = Builder.mkBuilder F (ekey <$> concat blocks ++ cur) fp;
  wr_min : minKey (fst s) = (head (concat blocks ++ cur) ≫= Key);
  wr_max : maxKey (fst s) = last_key None (concat blocks ++ cur);
  wr_seq : maxSeq (fst s) = max_seq (concat blocks ++ cur);
  wr_open : wclosed (fst s) = false
}.

(** What the entries must satisfy, and how they are divided into blocks. *)
Record fits (es : list Entry) : Prop := {
  fit_ok : Forall entry_ok es;
  fit_each : Forall (fun e => esize e <= 2 ^ 29) es;
  fit_size : tsize es < 2 ^ 40
}.
Record packed (blocks : list (list Entry)) (cur : list Entry) : Prop := {
  pk_nonempty : Forall (fun es => es <> []) blocks;
  pk_blocks : Forall (fun es => len (block_data ri es) < 2 ^ 31) blocks;
  pk_cur : len (block_data ri cur) < 2 ^ 31
}.

Lemma fits_app es es' : fits (es ++ es') -> fits es /\ fits es'.
Proof.
  intros [Hok He Hs]. apply Forall_app in Hok as [? ?], He as [? ?]. rewrite tsize_app in Hs.
  pose proof (tsize_len es). pose proof (tsize_len es'). split; split; first [done|lia].
Qed.

Lemma writer_io_run {A} (m : M World A) (l : Writer F) w r w' : m w = (r, w') -> io m (l, w) = (r, (l, w')).
Proof. intros Hm. unfold io, zoom. cbn [fst snd]. by rewrite Hm. Qed.

Lemma flushBlock_spec f i path bsize fp W0 w W blocks cur :
  writing f i path bsize fp W0 (w, W) blocks cur -> fits (concat blocks ++ cur) ->
  Forall (fun es => es <> []) blocks -> cur <> [] ->
  exists w' W', flushBlock (w, W) = (Ok tt, (w', W')) /\
    writing f i path bsize fp W0 (w', W') (blocks ++ [cur]) [].
Proof.
  intros [Hcalm Hf Ht Hfd Hp Hbs Hr Hb Hrs Hbe He Hl Hix Hbl Hmin Hmax Hsq Ho] [Fok Feach Fs] Fne Hne.
  cbn [fst snd] in *. unfold flushBlock, get_w, gets. unfold id. rewrite (M_bind_Ok _ _ _ w (w, W)) by done.
  rewrite Hb, Hfd, Hrs. pose proof (length_enc ri Hri 0 None cur) as Hle. fold (block_data ri cur) in Hle.
  rewrite (proj2 (Z.eqb_neq _ _)) by (destruct cur; [done|cbn [length] in Hle; lia]).
  fold (image ri cur). cbv zeta.
  rewrite (M_bind_Ok _ _ _ _ _ (writer_io_run _ w W _ _ (Os.Seek_spec W f i _ _ 0 SeekCurrent Hcalm Hf ltac:(cbn; lia)))).
  rewrite Z.add_0_r, (put_file_id _ _ _ _ _ Hf).
  rewrite (M_bind_Ok _ _ _ _ _ (writer_io_run _ w W _ _ (Write_end W f i _ (image ri cur) Hcalm Hf))).
  rewrite Z.eqb_refl. cbn [negb]. unfold upd_w, modify. cbn [fst snd].
  assert (concat (blocks ++ [cur]) ++ [] = concat blocks ++ cur) as Hcat.
  { rewrite concat_app. cbn. by rewrite !app_nil_r. }
  rewrite Forall_app in Fok. destruct Fok as [Fok1 Fok2]. rewrite tsize_app in Fs.
  pose proof (tsize_len (concat blocks)). pose proof (tsize_len cur).
  pose proof (images_size ri Hri blocks Fne Fok1 ltac:(lia)) as Him.
  pose proof (image_size ri Hri cur Hne Fok2 ltac:(lia)) as Hsz.
  assert (images ri (blocks ++ [cur]) = images ri blocks ++ image ri cur) as Himg.
  { rewrite images_app. unfold images at 2. cbn. by rewrite app_nil_r. }
  eexists _, _. split; [reflexivity|].
  split; cbn [fst snd wf wpath blockSize restartInt buf restarts blockEntries entryCount wlastKey index
    bloom minKey maxKey maxSeq wclosed]; rewrite ?Hcat; try done.
  - rewrite Himg, length_app, Nat2Z.inj_add. by eapply put_file_has.
  - etrans; [exact Ht|apply put_file_touches].
  - unfold starts, nrestarts. cbn [length Nat.add]. by rewrite Nat.div_small by lia.
  - rewrite Hix, index_of_app by done. f_equal. cbn [index_of]. rewrite Z.add_0_l, Clone_id, Hl, !u64_small by lia.
    do 2 f_equal. destruct (last_entry cur Hne) as (es' & e & -> & ->).
    by rewrite app_assoc, last_key_snoc.
Qed.

Lemma encode_entry_spec sh e :
  (sh <= length (ekey e))%nat -> len (ekey e) < 2 ^ 63 ->
  encode_entry (Z.of_nat sh) e = Ok (entry_bytes sh e).
Proof.
  intros Hsh Hl. unfold encode_entry. fold (ekey e). rewrite !EncodeUint64_app, u64_small, u64_small by lia.
  unfold slice_from. rewrite decide_True, outcome_bind_Ok, Nat2Z.id by lia.
  unfold entry_bytes. by rewrite <- !app_assoc.
Qed.

Lemma shared_step cur prev e (key : slice) :
  key = last_key prev cur -> (cur <> [] -> key <> None) ->
  (if negb (Z.rem (len cur) (Z.of_nat ri) =? 0) && negb (is_nil key)
   then (Z.of_nat (SharedPrefixLen (bs key) (ekey e)), starts ri cur)
   else (0, starts ri cur ++ [u32 (len (block_data ri cur))])) =
  (Z.of_nat (shared_of ri (length cur) (last_key None cur) e),
   starts ri cur ++ (if decide (length cur mod ri = 0)%nat then [u32 (len (block_data ri cur))] else [])).
Proof.
  intros -> Hk. rewrite Z.rem_mod_nonneg, <- Nat2Z.inj_mod by lia. unfold shared_of.
  destruct (decide (length cur mod ri = 0)%nat) as [Hm|Hm].
  - rewrite Hm, decide_True by (by left). done.
  - rewrite (proj2 (Z.eqb_neq _ 0)) by lia. cbn [negb andb]. destruct cur as [|e0 cur].
    { by rewrite Nat.Div0.mod_0_l in Hm. }
    assert (last_key prev (e0 :: cur) = last_key None (e0 :: cur)) as Hlk by done.
    rewrite Hlk in *. specialize (Hk ltac:(done)). destruct (last_key None (e0 :: cur)) as [k|]; [|done].
    cbn [is_nil negb]. rewrite decide_False by (intros [?|?]; done). by rewrite app_nil_r.
Qed.

(** The state after the entry is encoded, before the block may be flushed. *)
Lemma writing_add f i path bsize fp W0 w W blocks cur e :
  writing f i path bsize fp W0 (w, W) blocks cur -> fits (concat blocks ++ cur ++ [e]) ->
  len (block_data ri cur) < 2 ^ 30 ->
  let w' := mkWriter (wf w) (wpath w) (blockSize w) (restartInt w)
    (block_data ri (cur ++ [e])) (starts ri (cur ++ [e]))
    (i64 (entryCount w + 1)) (i64 (blockEntries w + 1)) (Key e) (index w) (Builder.Add (ekey e) (bloom w))
    (if is_nil (minKey w) then Key e else minKey w) (Key e)
    (if maxSeq w <? Seq e then Seq e else maxSeq w) (wclosed w) in
  writing f i path bsize fp W0 (w', W) blocks (cur ++ [e]).
Proof.
  intros [Hcalm Hf Ht Hfd Hp Hbs Hr Hb Hrs Hbe He Hl Hix Hbl Hmin Hmax Hsq Ho] [Fok Feach Fs] Hcur w'.
  cbn [fst snd] in *. pose proof (tsize_len (concat blocks ++ cur ++ [e])) as Hlen.
  rewrite app_assoc, length_app in Hlen. cbn [length] in Hlen.
  assert (tsize (concat blocks ++ cur ++ [e]) = tsize ((concat blocks ++ cur) ++ [e])) as Hts by (by rewrite app_assoc).
  rewrite Hts in Fs. rewrite length_app in Hlen.
  unfold w'. split; cbn [fst snd wf wpath blockSize restartInt buf restarts blockEntries entryCount wlastKey
    index bloom minKey maxKey maxSeq wclosed]; rewrite ?app_assoc, ?last_key_snoc, ?max_seq_snoc; try done.
  - rewrite Hbe, length_app, i64_small by lia. cbn [length]. lia.
  - rewrite He, !length_app, i64_small by lia. cbn [length]. lia.
  - rewrite Hbl. unfold Builder.Add. cbn [Builder.keys Builder.fp]. rewrite copy_at_self.
    by rewrite !fmap_app.
  - rewrite Hmin. destruct (concat blocks ++ cur) as [|e0 es0] eqn:Eall; [done|].
    cbn [app head option_bind mbind]. rewrite app_assoc in Fok. rewrite Eall in Fok.
    apply Forall_cons in Fok as [(Hk0 & _) _]. change (Some e0 ≫= Key) with (Key e0).
    by destruct (Key e0).
  - rewrite Hsq. destruct (Z.ltb_spec (max_seq (concat blocks ++ cur)) (Seq e)); lia.
Qed.

Lemma Writer_Add_spec f i path bsize fp W0 w W blocks cur e :
  writing f i path bsize fp W0 (w, W) blocks cur -> packed blocks cur ->
  len (block_data ri cur) < bsize <= 2 ^ 30 -> 0 < bsize ->
  fits (concat blocks ++ cur ++ [e]) ->
  Forall (fun e' => ble (ekey e') (ekey e)) (concat blocks ++ cur) ->
  exists w' W' blocks' cur', Add e (w, W) = (Ok tt, (w', W')) /\
    writing f i path bsize fp W0 (w', W') blocks' cur' /\ packed blocks' cur' /\
    len (block_data ri cur') < bsize /\
    concat blocks' ++ cur' = concat blocks ++ cur ++ [e].
Proof.
  intros Hw [Hne Hbd Hcd] Hbs Hbp Hfit Hord. pose proof Hw as Hw0. destruct Hw0. cbn [fst snd] in *.
  unfold Add, get_w, gets. unfold id. rewrite (M_bind_Ok _ _ _ w (w, W)) by done.
  pose proof (fit_ok _ Hfit) as Hok. rewrite app_assoc, Forall_app in Hok. destruct Hok as [Hoks Hok].
  rewrite Forall_singleton in Hok. pose proof Hok as (Hk & Hq & Hkl).
  rewrite wr_open0. destruct (Key e) as [k|] eqn:Ek; [cbn [is_nil]|done].
  assert ((negb (is_nil (wlastKey w)) && (Compare (bs (Some k)) (bs (wlastKey w)) <? 0)) = false) as ->.
  { rewrite wr_last0. destruct (concat blocks ++ cur) as [|e0 es0] using rev_ind; [done|].
    rewrite last_key_snoc. apply andb_false_intro2, Z.ltb_ge. apply compare_ge.
    apply Forall_app in Hord as [_ Hord]. rewrite Forall_singleton in Hord.
    unfold ekey in Hord. by rewrite Ek in Hord. }
  rewrite <- Ek. cbv zeta. rewrite wr_block_entries0, wr_ri0, wr_restarts0, wr_buf0. fold (ekey e).
  rewrite (shared_step cur (last_key None (concat blocks)) e (wlastKey w)).
  2: { by rewrite wr_last0, last_key_app. }
  2: { intros Hc. rewrite wr_last0. apply last_key_some; [|done]. by destruct (concat blocks), cur. }
  rewrite u32_small by lia. rewrite <- (starts_snoc ri Hri cur e).
  rewrite (M_bind_Ok _ _ _ (entry_bytes (shared_of ri (length cur) (last_key None cur) e) e) (w, W)).
  2: { unfold lift. rewrite encode_entry_spec; [done|by apply shared_of_le|lia]. }
  unfold upd_w at 1. unfold modify at 1. erewrite (M_bind_Ok _ _ _ tt) by done. cbn [fst snd].
  rewrite wr_buf0, wr_block_entries0, !Clone_id. rewrite <- (block_data_snoc ri Hri).
  pose proof (writing_add _ _ _ _ _ _ _ _ _ _ _ Hw Hfit ltac:(lia)) as Hw'. cbv zeta in Hw'.
  rewrite wr_block_entries0 in Hw'.
  set (w1 := mkWriter _ _ _ _ _ _ _ _ _ _ _ _ _ _ _) in Hw' |- *.
  rewrite (M_bind_Ok _ _ _ w1 (w1, W)) by done.
  assert (blockSize w1 = bsize) as -> by done. assert (buf w1 = block_data ri (cur ++ [e])) as -> by done.
  assert (len (block_data ri (cur ++ [e])) < 2 ^ 31) as Hnew.
  { rewrite block_data_snoc, length_app by done.
    pose proof (fit_each _ Hfit) as He. rewrite app_assoc, Forall_app in He. destruct He as [_ He].
    rewrite Forall_singleton in He.
    pose proof (entry_bytes_size _ e (shared_of_le ri Hri (length cur) (last_key None cur) e) Hq). lia. }
  destruct (Z.leb_spec bsize (len (block_data ri (cur ++ [e])))) as [Hfull|Hroom].
  - destruct (flushBlock_spec _ _ _ _ _ _ _ _ _ _ Hw' Hfit Hne) as (w2 & W2 & Hfl & Hw2); [by destruct cur|].
    exists w2, W2, (blocks ++ [cur ++ [e]]), []. split_and!; [exact Hfl|exact Hw2| |done|].
    + split; [|apply Forall_app; split; [done|by apply Forall_singleton]|done].
      apply Forall_app. split; [done|]. apply Forall_singleton. by destruct cur.
    + rewrite concat_app. cbn. by rewrite !app_nil_r.
  - exists w1, W, blocks, (cur ++ [e]). split_and!; [done|exact Hw'|by split|done|done].
Qed.

Lemma writer_add_all_spec f i path bsize fp W0 es :
  0 < bsize <= 2 ^ 30 ->
  forall w W blocks cur,
  writing f i path bsize fp W0 (w, W) blocks cur -> packed blocks cur ->
  len (block_data ri cur) < bsize -> fits (concat blocks ++ cur ++ es) ->
  StronglySorted blt (ekey <$> concat blocks ++ cur ++ es) ->
  exists w' W' blocks' cur', add_all es (w, W) = (Ok tt, (w', W')) /\
    writing f i path bsize fp W0 (w', W') blocks' cur' /\ packed blocks' cur' /\
    concat blocks' ++ cur' = concat blocks ++ cur ++ es.
Proof.
  intros Hb. induction es as [|e es IH]; intros w W blocks cur Hw Hp Hroom Hfit Hs; cbn [add_all].
  - exists w, W, blocks, cur. rewrite app_nil_r. by split_and!.
  - assert (Hassoc: concat blocks ++ cur ++ e :: es = (concat blocks ++ cur ++ [e]) ++ es)
      by (by rewrite <- !app_assoc).
    rewrite Hassoc in Hfit, Hs. pose proof (fits_app _ _ Hfit) as [Hfit1 _].
    assert (Forall (fun e' => ble (ekey e') (ekey e)) (concat blocks ++ cur)) as Hord.
    { rewrite fmap_app in Hs. apply StronglySorted_app in Hs as (_ & Hs & _).
      rewrite app_assoc, fmap_app in Hs. apply StronglySorted_app in Hs as (Hs & _ & _).
      rewrite Forall_forall. intros e' He'. apply ble_alt. left.
      apply Hs; [by apply list_elem_of_fmap_2|cbn; by left]. }
    destruct (Writer_Add_spec _ _ _ _ _ _ _ _ _ _ e Hw Hp ltac:(lia) ltac:(lia) Hfit1 Hord)
      as (w1 & W1 & blocks1 & cur1 & Hadd & Hw1 & Hp1 & Hroom1 & Hall).
    rewrite (M_bind_Ok _ _ _ (inl tt) (w1, W1)) by (unfold try_; by rewrite Hadd).
    rewrite <- Hall, <- app_assoc in Hfit, Hs.
    destruct (IH w1 W1 blocks1 cur1 Hw1 Hp1 Hroom1 Hfit Hs)
      as (w2 & W2 & blocks2 & cur2 & Hes & Hw2 & Hp2 & Hall2).
    exists w2, W2, blocks2, cur2. split_and!; [exact Hes|exact Hw2|exact Hp2|].
    by rewrite Hall2, Hassoc, <- Hall, <- app_assoc.
Qed.

Lemma flush_last f i path bsize fp W0 w W blocks cur :
  writing f i path bsize fp W0 (w, W) blocks cur -> packed blocks cur -> fits (concat blocks ++ cur) ->
  exists w' W' blocks', flushBlock (w, W) = (Ok tt, (w', W')) /\
    writing f i path bsize fp W0 (w', W') blocks' [] /\ packed blocks' [] /\
    concat blocks' = concat blocks ++ cur.
Proof.
  intros Hw [Hne Hbd Hcd] Hfit. destruct cur as [|e cur].
  - exists w, W, blocks. rewrite app_nil_r. split_and!; [|exact Hw|by split|done].
    pose proof (wr_buf _ _ _ _ _ _ _ _ _ Hw) as Hb. cbn [fst] in Hb. unfold flushBlock, get_w, gets.
    rewrite (M_bind_Ok _ _ _ w (w, W)) by done. unfold id. by rewrite Hb.
  - destruct (flushBlock_spec _ _ _ _ _ _ _ _ _ _ Hw Hfit Hne ltac:(done)) as (w1 & W1 & Hfl & Hw1).
    exists w1, W1, (blocks ++ [e :: cur]). split_and!; [exact Hfl|exact Hw1| |].
    + split; [apply Forall_app; split; [done|by apply Forall_singleton]..|done].
    + rewrite concat_app. cbn. by rewrite app_nil_r.
Qed.

(** ** The bytes of a finished table *)

Definition bloom_bytes (bf : Filter) : list byte := header bf ++ bits bf.
Definition index_image (blocks : list (list Entry)) : list byte :=
  let b := index_bytes (index_of ri 0 blocks) in b ++ le_bytes 4 (ChecksumCastagnoli b).
Definition table_footer (blocks : list (list Entry)) (bf : Filter) : list byte :=
  footer_bytes (len (images ri blocks ++ bloom_bytes bf)) (len (index_image blocks))
    (len (images ri blocks)) (len (bloom_bytes bf)) (max_seq (concat blocks)) (len (concat blocks)).
Definition table_bytes (blocks : list (list Entry)) (bf : Filter) : list byte :=
  images ri blocks ++ bloom_bytes bf ++ index_image blocks ++ table_footer blocks bf.

Definition bloom_fits (fp : F) (n : Z) : Prop :=
  forall q, q = fp \/ q = default_fp -> OptimalBits (Z.max 1 n) q <= 2 ^ 50.

(** Appending to the file, seen through the writer. *)
Lemma io_append f i c b (w : Writer F) W :
  calm W -> has_file W f i (len c) c ->
  io (File_Write f b) (w, W) = (Ok (len b), (w, put_file f i (len (c ++ b)) (c ++ b) W)).
Proof.
  intros Hc Hf. rewrite (writer_io_run _ w W _ _ (Write_end W f i c b Hc Hf)).
  by rewrite length_app, Nat2Z.inj_add.
Qed.

Lemma io_tell f i c (w : Writer F) W :
  calm W -> has_file W f i (len c) c ->
  io (File_Seek f 0 SeekCurrent) (w, W) = (Ok (len c), (w, W)).
Proof.
  intros Hc Hf. rewrite (writer_io_run _ w W _ _ (Os.Seek_spec W f i _ _ 0 SeekCurrent Hc Hf ltac:(cbn; lia))).
  by rewrite Z.add_0_r, (put_file_id _ _ _ _ _ Hf).
Qed.

Lemma Finish_spec f i path bsize fp W0 w W blocks cur :
  writing f i path bsize fp W0 (w, W) blocks cur -> packed blocks cur ->
  fits (concat blocks ++ cur) -> bloom_fits fp (len (concat blocks ++ cur)) ->
  exists w' W' blocks' bf,
    let es := concat blocks' in
    let c := table_bytes blocks' bf in
    Finish (w, W) = (Ok (mkMeta path (head es ≫= Key) (last_key None es) (max_seq es) (len es) (len c)), (w', W')) /\
    es = concat blocks ++ cur /\ Forall (block_ok ri) blocks' /\
    shaped bf /\ m bf <= 2 ^ 50 /\ (forall key, key ∈ ekey <$> es -> Bloom.MayContain (Some bf) key = Ok true) /\
    calm W' /\ touches f i W0 W' /\ inodes W' !! i = Some c.
Proof.
  intros Hw Hp Hfit Hbl. destruct (flush_last _ _ _ _ _ _ _ _ _ _ Hw Hp Hfit) as (w1 & W1 & blocks' & Hfl & Hw1 & Hp1 & Hall).
  pose proof (wr_open _ _ _ _ _ _ _ _ _ Hw) as Hopen. rewrite <- Hall in Hfit, Hbl.
  destruct Hw1 as [Hc Hf Ht Hfd Hpath _ _ _ _ _ Hec _ Hix Hblm Hmin Hmax Hsq _]. cbn [fst snd] in *.
  rewrite app_nil_r in *. set (es := concat blocks') in *.
  destruct (Build_keys (Builder.mkBuilder F (ekey <$> es) fp) (2 ^ 50)) as (bf & Hbuild & Hshape & Hbm & Hin).
  { cbn [Builder.keys Builder.fp]. by rewrite length_fmap. }
  { lia. }
  set (c0 := images ri blocks') in *. set (c1 := c0 ++ bloom_bytes bf). set (c2 := c1 ++ index_image blocks').
  set (c3 := c2 ++ table_footer blocks' bf).
  assert (c3 = table_bytes blocks' bf) as Hc3 by (unfold c3, c2, c1, table_bytes; by rewrite <- !app_assoc).
  pose proof (put_file_has _ _ _ _ _ (len c1) c1 Hf) as Hf1.
  pose proof (put_file_has _ _ _ _ _ (len c2) c2 Hf1) as Hf2.
  pose proof (put_file_has _ _ _ _ _ (len c3) c3 Hf2) as Hf3. rewrite !put_file_put in Hf3. rewrite put_file_put in Hf2.
  destruct (Close_spec _ f i _ _ (put_file_calm _ _ _ _ _ Hc) Hf3) as (W2 & Hclose & Hc2 & Ht2 & Hi2).
  unfold Finish, get_w, gets. rewrite (M_bind_Ok _ _ _ w (w, W)) by done. unfold id. rewrite Hopen.
  rewrite (M_bind_Ok _ _ _ _ _ Hfl). rewrite (M_bind_Ok _ _ _ w1 (w1, W1)) by done. rewrite Hfd.
  rewrite (M_bind_Ok _ _ _ _ _ (io_tell f i c0 w1 W1 Hc Hf)), Hblm.
  rewrite (M_bind_Ok _ _ _ (Some bf) (w1, W1)) by (unfold lift; by rewrite Hbuild).
  rewrite (M_bind_Ok _ _ _ (bloom_bytes bf) (w1, W1)) by (unfold lift; by rewrite MarshalBinary_header).
  rewrite (M_bind_Ok _ _ _ _ _ (io_append f i c0 _ w1 W1 Hc Hf)). fold c1. cbv zeta.
  rewrite (M_bind_Ok _ _ _ _ _ (io_tell f i c1 w1 _ (put_file_calm _ _ _ _ _ Hc) Hf1)), Hix.
  fold (index_image blocks').
  rewrite (M_bind_Ok _ _ _ _ _ (io_append f i c1 _ w1 _ (put_file_calm _ _ _ _ _ Hc) Hf1)). fold c2.
  rewrite put_file_put, Hsq, Hec. fold (table_footer blocks' bf).
  rewrite (M_bind_Ok _ _ _ _ _ (io_append f i c2 _ w1 _ (put_file_calm _ _ _ _ _ Hc) Hf2)). fold c3.
  rewrite put_file_put.
  rewrite (M_bind_Ok _ _ _ _ _ (writer_io_run _ w1 _ _ _ (Sync_spec _ f i _ _ (put_file_calm _ _ _ _ _ Hc) Hf3))).
  rewrite (M_bind_Ok _ _ _ _ _ (writer_io_run _ w1 _ _ _ (Size_spec _ f i _ _ (put_file_calm _ _ _ _ _ Hc) Hf3))).
  rewrite (M_bind_Ok _ _ _ _ _ (writer_io_run _ w1 _ _ _ Hclose)).
  unfold upd_w, modify. erewrite (M_bind_Ok _ _ _ tt) by done. cbn [fst snd].
  pose proof (tsize_len es). pose proof (fit_size _ Hfit).
  rewrite Hpath, Hmin, Hmax, Hsq, Hec, Hc3, u64_small by lia.
  eexists _, W2, blocks', bf. cbv zeta. fold es. split; [reflexivity|]. destruct Hp1 as [Hne Hbd _].
  split_and!; try done.
  - rewrite Forall_forall. intros b Hb. rewrite Forall_forall in Hne, Hbd.
    split; [by apply Hne|]. split; [|by apply Hbd]. pose proof (fit_ok _ Hfit) as Hok.
    rewrite Forall_forall in Hok |- *. intros e He. apply Hok. apply list_elem_of_In, in_concat.
    exists b. split; by apply list_elem_of_In.
  - etrans; [exact Ht|]. etrans; [apply put_file_touches|exact Ht2].
  - rewrite Hi2, <- Hc3. apply Hf3.
Qed.
End writer.

(** * Opening a table *)

Lemma u64_idem z : u64 (u64 z) = u64 z.
Proof. apply u64_small, u64_range. Qed.

Lemma footer_fields indexOff indexLen bloomOff bloomLen maxSeq entries :
  let f := footer_bytes indexOff indexLen bloomOff bloomLen maxSeq entries in
  uint_at f 0 4 = Ok magicFooter /\ uint_at f 52 56 = Ok magicFooter /\
  uint_at f 4 12 = Ok (u64 indexOff) /\ uint_at f 12 20 = Ok (u64 indexLen) /\
  uint_at f 20 28 = Ok (u64 bloomOff) /\ uint_at f 28 36 = Ok (u64 bloomLen) /\
  uint_at f 36 44 = Ok (u64 maxSeq) /\ uint_at f 44 52 = Ok (u64 entries).
Proof.
  intros f.
  assert (Hseg: forall pre n v post i j, f = pre ++ le_bytes n v ++ post ->
    i = len pre -> j = len pre + Z.of_nat n -> uint_at f i j = Ok (le_val (le_bytes n v))).
  { intros pre n v post i j -> -> ->. unfold uint_at. rewrite subslice_app; [done|done|].
    by rewrite length_le_bytes. }
  set (a0 := le_bytes 4 magicFooter). set (a1 := le_bytes 8 (u64 indexOff)).
  set (a2 := le_bytes 8 (u64 indexLen)). set (a3 := le_bytes 8 (u64 bloomOff)).
  set (a4 := le_bytes 8 (u64 bloomLen)). set (a5 := le_bytes 8 maxSeq). set (a6 := le_bytes 8 (u64 entries)).
  split_and!.
  - by rewrite (Hseg [] 4%nat magicFooter (a1 ++ a2 ++ a3 ++ a4 ++ a5 ++ a6 ++ a0)).
  - by rewrite (Hseg (a0 ++ a1 ++ a2 ++ a3 ++ a4 ++ a5 ++ a6) 4%nat magicFooter []).
  - by rewrite (Hseg a0 8%nat (u64 indexOff) (a2 ++ a3 ++ a4 ++ a5 ++ a6 ++ a0)), le_val_bytes8, u64_idem.
  - by rewrite (Hseg (a0 ++ a1) 8%nat (u64 indexLen) (a3 ++ a4 ++ a5 ++ a6 ++ a0)), le_val_bytes8, u64_idem.
  - by rewrite (Hseg (a0 ++ a1 ++ a2) 8%nat (u64 bloomOff) (a4 ++ a5 ++ a6 ++ a0)), le_val_bytes8, u64_idem.
  - by rewrite (Hseg (a0 ++ a1 ++ a2 ++ a3) 8%nat (u64 bloomLen) (a5 ++ a6 ++ a0)), le_val_bytes8, u64_idem.
  - by rewrite (Hseg (a0 ++ a1 ++ a2 ++ a3 ++ a4) 8%nat maxSeq (a6 ++ a0)), le_val_bytes8.
  - by rewrite (Hseg (a0 ++ a1 ++ a2 ++ a3 ++ a4 ++ a5) 8%nat (u64 entries) a0), le_val_bytes8, u64_idem.
Qed.

Lemma index_checksum (b : list byte) :
  let d := b ++ le_bytes 4 (ChecksumCastagnoli b) in
  (len d <? 4) = false /\ subslice d 0 (len d - 4) = Ok b /\
  uint_at d (len d - 4) (len d) = Ok (ChecksumCastagnoli b).
Proof.
  intros d. assert (len d = len b + 4) as Hd by (unfold d; rewrite length_app, length_le_bytes; lia).
  rewrite Hd. replace (len b + 4 - 4) with (len b) by lia. split; [lia|]. split; [by apply subslice_0|].
  unfold uint_at, d. rewrite <- (app_nil_r (le_bytes 4 _)).
  rewrite subslice_app, outcome_bind_Ok, le_val_bytes4, u32_small
    by (first [apply ChecksumCastagnoli_range | rewrite ?length_le_bytes; lia]). done.
Qed.

Lemma or_close_Ok {A} f (m : M World A) w a w' : m w = (Ok a, w') -> or_close f m w = (Ok a, w').
Proof.
  intros Hm. unfold or_close. by rewrite (M_bind_Ok _ _ _ (inl a) w') by (unfold try_; by rewrite Hm).
Qed.

Lemma lift_bind {S A B} (m : outcome A) (a : A) (k : A -> M S B) (s : S) :
  m = Ok a -> (lift m ≫= k) s = k a s.
Proof. by intros ->. Qed.

Section opening.
Context (ri : nat) (Hri : (0 < ri)%nat).

Lemma index_image_size blocks :
  Forall (fun es => es <> []) blocks -> fits (concat blocks) ->
  Forall rec_ok (index_of ri 0 blocks) /\ len (index_bytes (index_of ri 0 blocks)) < 2 ^ 40.
Proof.
  intros Hne [Hok _ Hs]. pose proof (tsize_len (concat blocks)).
  destruct (index_of_ok ri Hri blocks 0 Hne Hok Hs) as [Hrec Hl]; [lia|lia|]. split; [done|].
  rewrite index_bytes_alt, length_app, length_index_of.
  assert (length blocks <= length (concat blocks))%nat.
  { clear - Hne. induction Hne as [|es blocks He _ IH]; [done|]. cbn [concat]. rewrite length_app.
    destruct es; [done|]. cbn [length]. lia. }
  pose proof (varint_length (len blocks)). destruct blocks; [by vm_compute|cbn [length] in *; lia].
Qed.

(** The four parts of a table image and their sizes. *)
Lemma table_layout blocks bf :
  let im := images ri blocks in let fb := bloom_bytes bf in
  let ix := index_image ri blocks in let ft := table_footer ri blocks bf in
  Forall (fun es => es <> []) blocks -> fits (concat blocks) -> shaped bf -> m bf <= 2 ^ 50 ->
  table_bytes ri blocks bf = im ++ fb ++ ix ++ ft /\ len ft = 56 /\ len im < 2 ^ 40 /\
  25 <= len fb <= 2 ^ 48 /\ 4 <= len ix < 2 ^ 41.
Proof.
  intros im fb ix ft Hne Hfit (Hm & Hm7 & Hk & Hna & Hbl & Hb48) Hbm.
  destruct (index_image_size blocks Hne Hfit) as [_ Hil].
  pose proof (images_size ri Hri blocks Hne (fit_ok _ Hfit) (fit_size _ Hfit)). pose proof (fit_size _ Hfit).
  assert (len fb = 25 + len (bits bf)) as Hfb by (unfold fb, bloom_bytes; rewrite length_app, length_header; lia).
  assert (len fb <= 2 ^ 48) by (rewrite Hfb, Hbl; clear - Hbm Hm; divlia).
  split_and!; try done; try lia; unfold im, ix, index_image; rewrite ?length_app, ?length_le_bytes; lia.
Qed.

(** The last key of the index is that of the table. *)
Lemma index_last_key blocks : Forall (fun es => es <> []) blocks ->
  (match last (index_of ri 0 blocks) with Some r => Clone (lastKey r) | None => None end) = last_key None (concat blocks).
Proof.
  intros Hne. destruct blocks as [|es blocks _] using rev_ind; [done|].
  rewrite index_of_app by done. cbn [index_of]. rewrite last_snoc, Clone_id. cbn [lastKey]. rewrite concat_app. cbn.
  rewrite app_nil_r. apply Forall_app in Hne as [_ Hne]. rewrite Forall_singleton in Hne.
  destruct (last_entry es Hne) as (es' & e & -> & ->). by rewrite app_assoc, last_key_snoc.
Qed.

Lemma table_Open_spec path W i blocks bf :
  calm W -> names W !! path = Some i -> inodes W !! i = Some (table_bytes ri blocks bf) ->
  Forall (block_ok ri) blocks -> fits (concat blocks) -> StronglySorted blt (ekey <$> concat blocks) ->
  shaped bf -> m bf <= 2 ^ 50 -> (forall key, key ∈ ekey <$> concat blocks -> Bloom.MayContain (Some bf) key = Ok true) ->
  exists r W', Open path W = (Ok r, W') /\ table ri r W' blocks /\
    W' = set_fds (fds W ++ [mkFd i 0 true]) W /\ rpath r = path /\ rf r = Some (length (fds W)) /\
    MaxSeq r = max_seq (concat blocks) /\ Entries r = len (concat blocks) /\
    rmaxKey r = last_key None (concat blocks) /\ FileSize r = len (table_bytes ri blocks bf).
Proof.
  intros Hc Hn Hi Hblk Hfit Hsort Hshape Hbm Hin.
  destruct (Open_existing W path i _ Hc Hn Hi) as (Hopen & Hc1 & Hf1).
  set (W1 := set_fds _ _) in *.
  set (f := length (fds W)) in *. set (c := table_bytes ri blocks bf) in *.
  assert (Hne: Forall (fun es => es <> []) blocks) by (eapply Forall_impl; [exact Hblk|by intros es [? _]]).
  destruct (index_image_size blocks Hne Hfit) as [Hrec Hil].
  destruct (table_layout blocks bf Hne Hfit Hshape Hbm) as (Hcc & Hft & Him & Hfb & Hix). fold c in Hcc.
  pose proof (fit_size _ Hfit) as Hts. pose proof (tsize_len (concat blocks)) as Htl.
  set (im := images ri blocks) in *. set (fb := bloom_bytes bf) in *.
  set (ix := index_image ri blocks) in *. set (ft := table_footer ri blocks bf) in *.
  assert (len c = len im + len fb + len ix + 56) as Hlc by (rewrite Hcc, !length_app; lia).
  destruct (footer_fields (len (im ++ fb)) (len ix) (len im) (len fb) (max_seq (concat blocks))
    (len (concat blocks))) as (F0 & F1 & F2 & F3 & F4 & F5 & F6 & F7). fold ft in F0, F1, F2, F3, F4, F5, F6, F7.
  rewrite u64_small in F2, F3, F4, F5, F7 by (rewrite ?length_app; lia).
  rewrite u64_small in F6 by (apply max_seq_range, Hfit).
  unfold Open. rewrite (M_bind_Ok _ _ _ _ _ Hopen). fold f.
  rewrite (M_bind_Ok _ _ _ _ _ (or_close_Ok _ _ _ _ _ (Size_spec _ _ _ _ _ Hc1 Hf1))).
  rewrite (proj2 (Z.ltb_ge _ 56)) by lia.
  assert (Hread: forall pre b post n off, c = pre ++ b ++ post -> off = len pre -> n = len b ->
    or_close f (File_ReadAt f n off) W1 = (Ok b, W1)).
  { intros pre b post n off Hcp Ho Hnn. apply or_close_Ok. rewrite Hcp in Hf1. by eapply ReadAt_seg. }
  rewrite (M_bind_Ok _ _ _ ft W1)
    by (apply (Hread (im ++ fb ++ ix) ft []); [by rewrite Hcc, app_nil_r, <- !app_assoc|rewrite !length_app; lia|done]).
  rewrite (lift_bind _ _ _ _ F0), (lift_bind _ _ _ _ F1). rewrite Z.eqb_refl. cbn [negb orb].
  rewrite (lift_bind _ _ _ _ F2), (lift_bind _ _ _ _ F3), (lift_bind _ _ _ _ F4), (lift_bind _ _ _ _ F5),
    (lift_bind _ _ _ _ F6), (lift_bind _ _ _ _ F7).
  rewrite length_app, !i64_small by lia.
  rewrite (lift_bind _ tt) by (unfold make_check; rewrite decide_True by lia; done).
  rewrite (proj2 (Z.ltb_lt 0 _)) by lia.
  rewrite (M_bind_Ok _ _ _ fb W1) by (by apply (Hread im fb (ix ++ ft))).
  rewrite (M_bind_Ok _ _ _ bf W1).
  2: { apply or_close_Ok. unfold lift, fb, bloom_bytes. rewrite Unmarshal_header, Z.ltb_irrefl, firstn_all by done.
       by destruct bf. }
  rewrite (lift_bind _ tt) by (unfold make_check; rewrite decide_True by lia; done).
  rewrite (M_bind_Ok _ _ _ ix W1)
    by (apply (Hread (im ++ fb) ix ft); [by rewrite Hcc, <- !app_assoc|rewrite length_app; lia|done]).
  destruct (index_checksum (index_bytes (index_of ri 0 blocks))) as (G1 & G2 & G3).
  fold (index_image ri blocks) in G1, G2, G3. fold ix in G1, G2, G3.
  rewrite G1, (lift_bind _ _ _ _ G2), (lift_bind _ _ _ _ G3), Z.eqb_refl. cbn [negb].
  rewrite (M_bind_Ok _ _ _ (index_of ri 0 blocks) W1).
  2: { apply or_close_Ok. unfold lift. rewrite parse_index_bytes; [done|done|lia]. }
  eexists _, W1. split; [reflexivity|]. split; [|split_and!; try done].
  - split; try done.
    + exists f, i, 0, (fb ++ ix ++ ft). cbn [rf]. split; [done|]. fold im. rewrite <- Hcc. split; [done|lia].
    + intros key. destruct (MayContain_total bf key (shaped_wf _ Hshape)) as [b Hb]. exists b.
      split; [exact Hb|]. intros Hkey. apply Hin in Hkey. rewrite Hb in Hkey. congruence.
  - by apply index_last_key.
Qed.
End opening.

(** * Writing a table and opening it *)

Section roundtrip.
Context {F : Type} `{Float64 F}.

(** Entries with ascending keys, within the format's limits. *)
Record writable (o : option (WriterOptions F)) (es : list Entry) : Prop := {
  wb_sorted : StronglySorted blt (ekey <$> es);
  wb_fits : fits es;
  wb_block : BlockSize (normalize o) <= 2 ^ 30;
  wb_bloom : bloom_fits (Builder.fp (Builder.NewBuilder (BloomFP (normalize o)))) (len es)
}.

Definition interval (o : option (WriterOptions F)) : nat := Z.to_nat (RestartInterval (normalize o)).

Lemma normalize_pos o : 0 < BlockSize (normalize o) /\ 0 < RestartInterval (normalize o).
Proof.
  unfold normalize. destruct o as [o|]; cbn; [|done]. split.
  - destruct (Z.ltb_spec 0 (BlockSize o)); [done|]. by vm_compute.
  - destruct (Z.ltb_spec 0 (RestartInterval o)); [done|]. by vm_compute.
Qed.

Lemma interval_pos o : (0 < interval o)%nat.
Proof. unfold interval. pose proof (normalize_pos o). lia. Qed.

(** A new table after its entries have been added. *)
Lemma Create_spec path o w :
  calm w -> names_ok w -> BlockSize (normalize o) <= 2 ^ 30 ->
  exists i wr w1,
    let f := length (fds w) in
    Create path o w = (Ok wr, w1) /\
    writing (interval o) f i path (BlockSize (normalize o))
      (Builder.fp (Builder.NewBuilder (BloomFP (normalize o)))) w1 (wr, w1) [] [] /\
    names w1 = <[path := i]> (names w) /\ names_ok w1 /\
    (names w !! path = Some i \/ i = length (inodes w)) /\ preserves i w w1.
Proof.
  intros Hc Hn Hbs. pose proof (interval_pos o) as Hri. pose proof (normalize_pos o) as [Hbp Hrp].
  destruct (OpenFile_trunc w path Hc Hn) as (w1 & i & Hopen & Hc1 & Hf1 & Hn1 & Hok1 & Hi1 & Hino & Hfds).
  set (f := length (fds w)) in *.
  exists i, (mkWriter f path (BlockSize (normalize o)) (RestartInterval (normalize o)) [] [] 0 0 None []
    (Builder.NewBuilder (BloomFP (normalize o))) None None 0 false), w1. cbv zeta. split_and!; try done.
  - unfold Create. cbv zeta. rewrite (M_bind_Ok _ _ _ tt w) by (unfold MkdirAll; by rewrite syscall_calm).
    rewrite (M_bind_Ok _ _ _ _ _ Hopen). rewrite (lift_bind _ tt); [done|].
    unfold make_check. by rewrite decide_True by lia.
  - split; try done.
    + cbn. unfold interval. lia.
    + unfold starts, nrestarts. cbn [length Nat.add]. by rewrite Nat.div_small by lia.
Qed.

Lemma Create_add path es o w :
  calm w -> names_ok w -> BlockSize (normalize o) <= 2 ^ 30 -> fits es -> StronglySorted blt (ekey <$> es) ->
  exists f i wr w1 wr2 w2 blocks cur,
    Create path o w = (Ok wr, w1) /\ add_all es (wr, w1) = (Ok tt, (wr2, w2)) /\
    writing (interval o) f i path (BlockSize (normalize o))
      (Builder.fp (Builder.NewBuilder (BloomFP (normalize o)))) w1 (wr2, w2) blocks cur /\
    packed (interval o) blocks cur /\ concat blocks ++ cur = es /\
    names w1 = <[path := i]> (names w) /\ names_ok w1 /\
    (names w !! path = Some i \/ i = length (inodes w)) /\ f = length (fds w) /\ preserves i w w1.
Proof.
  intros Hc Hn Hbs Hfit Hs. pose proof (interval_pos o) as Hri. pose proof (normalize_pos o) as [Hbp Hrp].
  destruct (Create_spec path o w Hc Hn Hbs) as (i & wr & w1 & Hcreate & Hw0 & R).
  destruct (writer_add_all_spec (interval o) Hri _ i path (BlockSize (normalize o)) _ w1 es (conj Hbp Hbs) wr w1 [] [] Hw0)
    as (wr2 & w2 & blocks2 & cur2 & Hadd & Hw2 & Hp2 & Hall); [by split|exact Hbp|exact Hfit|exact Hs|].
  exists (length (fds w)), i, wr, w1, wr2, w2, blocks2, cur2. destruct R as (R1 & R2 & R3 & R4). by split_and!.
Qed.

Lemma WriteFile_spec path es o w :
  calm w -> names_ok w -> writable o es ->
  exists blocks bf i w',
    let c := table_bytes (interval o) blocks bf in
    WriteFile path es o w =
      (Ok (mkMeta path (head es ≫= Key) (last_key None es) (max_seq es) (len es) (len c)), w') /\
    concat blocks = es /\ Forall (block_ok (interval o)) blocks /\ shaped bf /\ m bf <= 2 ^ 50 /\
    (forall key, key ∈ ekey <$> es -> Bloom.MayContain (Some bf) key = Ok true) /\
    calm w' /\ names w' = <[path := i]> (names w) /\ names_ok w' /\ inodes w' !! i = Some c /\
    (names w !! path = Some i \/ i = length (inodes w)) /\ preserves i w w'.
Proof.
  intros Hc Hn [Hs Hfit Hbs Hbl]. pose proof (interval_pos o) as Hri.
  destruct (Create_add path es o w Hc Hn Hbs Hfit Hs)
    as (f & i & wr & w1 & wr2 & w2 & blocks2 & cur2 & Hcreate & Hadd & Hw2 & Hp2 & Hall & Hn1 & Hok1 & Hi1 & Hf & P1 & P2).
  destruct (Finish_spec (interval o) Hri _ _ _ _ _ _ _ _ _ _ Hw2 Hp2) as
    (wr3 & w3 & blocks & bf & Hfin & Hes & Hblk & Hsh & Hm & Hin & Hc3 & Ht3 & Hi3); [by rewrite Hall..|].
  rewrite Hall in Hes. rewrite Hes in *. exists blocks, bf, i, w3. cbv zeta. destruct Ht3 as (T1 & T2 & T3 & T4 & T5).
  split_and!; try done.
  - unfold WriteFile. rewrite (M_bind_Ok _ _ _ _ _ Hcreate).
    erewrite (M_bind_Ok _ _ _ (_, wr3) w3); [reflexivity|].
    unfold scoped. rewrite (M_bind_Ok _ _ _ _ _ Hadd), Hfin. done.
  - by rewrite T1.
  - unfold names_ok. by rewrite T1, T4.
  - split.
    + intros j c Hj Hcj. rewrite T2 by done. by apply P1.
    + intros g d Hd. rewrite T3; [by apply P2|]. intros ->. apply lookup_lt_Some in Hd. lia.
Qed.

Lemma WriteFile_Open path es o w :
  calm w -> names_ok w -> writable o es ->
  exists meta r blocks i w1 w2,
    WriteFile path es o w = (Ok meta, w1) /\ Open path w1 = (Ok r, w2) /\
    table (interval o) r w2 blocks /\ concat blocks = es /\
    meta = mkMeta path (head es ≫= Key) (last_key None es) (max_seq es) (len es) (FileSize r) /\
    MaxSeq r = max_seq es /\ Entries r = len es /\ rmaxKey r = last_key None es /\
    names w2 = <[path := i]> (names w) /\
    (names w !! path = Some i \/ i = length (inodes w)) /\ preserves i w w2.
Proof.
  intros Hc Hn Hw. destruct (WriteFile_spec path es o w Hc Hn Hw) as
    (blocks & bf & i & w1 & Hwf & Hes & Hblk & Hsh & Hm & Hin & Hc1 & Hn1 & Hok1 & Hi1 & Hnew & [P1 P2]).
  destruct Hw as [Hs Hfit _ _]. rewrite <- Hes in Hs, Hfit, Hin.
  destruct (table_Open_spec (interval o) (interval_pos o) path w1 i blocks bf Hc1
    ltac:(rewrite Hn1; apply lookup_insert_eq) Hi1 Hblk Hfit Hs Hsh Hm Hin)
    as (r & w2 & Ho & Ht & Hw2 & _ & _ & Hms & Hen & Hmk & Hfs). rewrite Hes in Hms, Hen, Hmk.
  exists (mkMeta path (head es ≫= Key) (last_key None es) (max_seq es) (len es) (FileSize r)), r, blocks, i, w1, w2.
  split_and!; try done.
  - rewrite Hwf. by rewrite Hfs.
  - by rewrite Hw2.
  - split; [by rewrite Hw2|]. intros g d Hd. rewrite Hw2. cbn. apply lookup_app_l_Some. by apply P2.
Qed.
End roundtrip.
