(* ===== verification/SSTableProps.v ===== *)
(** * SSTableProps: the theorems about internal/sstable

    Round trips through a table file, the order of keys and the errors of the
    writer, detection of damaged blocks, and termination of the searches on
    arbitrary, possibly corrupt, files. *)

From Stdlib Require Import ZArith Lia QArith Strings.Byte.
From stdpp Require Import base decidable list gmap strings numbers sorting.
From S2P Require Import Prelude Varint Crc32x Bloom ByteUtil Os SSTable SSTableFacts SSTableWriter.
#[local] Open Scope Z_scope.

(** * Reading a block *)

(** What [readBlock] makes of the bytes it has read. *)
Definition block_check (d : list byte) : outcome (list byte) :=
  if len d <? 8 then Err ErrCorrupt
  else
    body ← subslice d 0 (len d - 4);
    want ← uint_at d (len d - 4) (len d);
    if negb (ChecksumCastagnoli body =? want) then Err ErrCorrupt else Ok body.

Lemma readBlock_seg r w f i p pre d post k off n :
  calm w -> rf r = Some f -> has_file w f i p (pre ++ d ++ post) ->
  off = len pre -> n = len d -> len pre < 2 ^ 63 -> len d <= 2 ^ 48 ->
  readBlock r (mkIndexRec k off n) w = (block_check d, w).
Proof.
  intros Hw Hf Hfile -> -> Hpre Hd. unfold readBlock. cbn [length_ offset].
  rewrite (lift_bind _ tt) by (unfold make_check; by rewrite decide_True by lia).
  rewrite Hf, i64_small by lia.
  rewrite (M_bind_Ok _ _ _ _ _ (ReadAt_seg w f i p pre d post _ _ Hw Hfile eq_refl eq_refl)).
  unfold block_check. destruct (len d <? 8); [done|].
  destruct (subslice d 0 (len d - 4)) as [body| | |]; [|done..].
  rewrite (lift_bind _ body) by done. rewrite outcome_bind_Ok.
  destruct (uint_at d (len d - 4) (len d)) as [want| | |]; [|done..].
  rewrite (lift_bind _ want) by done. rewrite outcome_bind_Ok. by case_match.
Qed.

Lemma block_check_Ok d b : block_check d = Ok b -> d = b ++ le_bytes 4 (ChecksumCastagnoli b).
Proof.
  unfold block_check. destruct (Z.ltb_spec (len d) 8); [done|].
  intros (body & Hb & Hd)%bind_Ok_inv. apply bind_Ok_inv in Hd as (want & Hw & Hd).
  destruct (Z.eqb_spec (ChecksumCastagnoli body) want) as [<-|]; [|done]. injection Hd as <-.
  unfold uint_at in Hw. apply bind_Ok_inv in Hw as (s & Hs & [= Hv]).
  unfold subslice in Hb, Hs. case_decide; [|done]. case_decide; [|done].
  injection Hb as <-. injection Hs as <-. rewrite <- Hv.
  rewrite Z.sub_0_r, drop_0. replace (len d - (len d - 4)) with 4 by lia.
  rewrite le_bytes_val_n by (rewrite length_take, length_drop; lia).
  rewrite <- (take_drop (Z.to_nat (len d - 4)) d) at 1. f_equal.
  rewrite take_ge; [done|]. rewrite length_drop. lia.
Qed.

Lemma block_check_cases d : (exists b, block_check d = Ok b) \/ block_check d = Err ErrCorrupt.
Proof.
  unfold block_check. destruct (Z.ltb_spec (len d) 8); [by right|].
  unfold uint_at, subslice. rewrite !decide_True by lia. rewrite !outcome_bind_Ok.
  case_match; [by right|left; eauto].
Qed.

Lemma block_check_body b : 4 <= len b -> block_check (b ++ le_bytes 4 (ChecksumCastagnoli b)) = Ok b.
Proof.
  intros Hb. destruct (index_checksum b) as (_ & H2 & H3). unfold block_check.
  rewrite (proj2 (Z.ltb_ge _ _)) by (rewrite length_app, length_le_bytes; lia).
  by rewrite H2, outcome_bind_Ok, H3, outcome_bind_Ok, Z.eqb_refl.
Qed.

(** A burst of at most four bytes is detected. *)
Lemma block_check_burst b pre x y post :
  b ++ le_bytes 4 (ChecksumCastagnoli b) = pre ++ x ++ post -> length x = length y -> len x <= 4 ->
  x <> y -> block_check (pre ++ y ++ post) = Err ErrCorrupt.
Proof.
  intros Hb Hl H4 Hne. destruct (block_check_cases (pre ++ y ++ post)) as [[b' Hb']|]; [|done].
  apply block_check_Ok in Hb'. pose proof (codewords_burst b b' pre x y post Hb (eq_sym Hb') Hl H4) as <-.
  rewrite Hb in Hb'. exfalso. apply Hne. by simplify_list_eq.
Qed.

(** * Damaged blocks *)

(** The part of [Get] after the block has been read. *)
Definition search_block (key block : list byte) : M World (option Entry) :=
  it ← lift (blockIter.newBlockIter block);
  it ← lift (blockIter.Seek key it);
  if blockIter.valid it && Equal (bs (blockIter.key it)) key
  then mret (Some (mkEntry (ByteUtil.Clone (blockIter.key it)) (ByteUtil.Clone (blockIter.value it))
                    (blockIter.seq it) (blockIter.deleted it)))
  else mret None.

Lemma search_block_pure key block w w' : fst (search_block key block w) = fst (search_block key block w').
Proof.
  unfold search_block, mbind, M_bind, lift. destruct (blockIter.newBlockIter block) as [it| | |]; [|done..].
  destruct (blockIter.Seek key it) as [it'| | |]; [|done..]. by case_match.
Qed.

Lemma search_block_world key block w : snd (search_block key block w) = w.
Proof.
  unfold search_block, mbind, M_bind, lift. destruct (blockIter.newBlockIter block) as [it| | |]; [|done..].
  destruct (blockIter.Seek key it) as [it'| | |]; [|done..]. by case_match.
Qed.

Section damage.
Context (ri : nat) (Hri : (0 < ri)%nat).
Context (r : Reader) (w : World) (b1 : list (list Entry)) (es : list Entry) (b2 : list (list Entry)).
Context (Ht : table ri r w (b1 ++ es :: b2)).
Context (f i : nat) (p : Z) (rest : list byte).
Context (Hf : rf r = Some f) (Hfile : has_file w f i p (images ri (b1 ++ es :: b2) ++ rest)).
Context (Hlen : len (images ri (b1 ++ es :: b2) ++ rest) < 2 ^ 61).

(** The file with the bytes of the block [es] replaced by [d]. *)
Definition damaged (d : list byte) : World :=
  put_file f i p (images ri b1 ++ d ++ images ri b2 ++ rest) w.

Lemma image_bounds b1' es' b2' :
  b1 ++ es :: b2 = b1' ++ es' :: b2' -> len (image ri es') <= 2 ^ 48 /\ 4 <= len (block_body ri es').
Proof.
  intros Hb. pose proof (t_blocks _ _ _ _ Ht) as Hok. rewrite Hb in Hok.
  apply Forall_app in Hok as [_ [(_ & _ & Hl) _]%Forall_cons].
  rewrite length_image, length_body by done. rewrite length_starts by done.
  pose proof (nrestarts_le ri Hri (length es')). pose proof (length_enc ri Hri 0 None es') as He.
  fold (block_data ri es') in He. lia.
Qed.

Lemma images_cons e bs : images ri (e :: bs) = image ri e ++ images ri bs.
Proof. done. Qed.

Lemma damaged_calm d : calm (damaged d).
Proof. apply put_file_calm, (t_calm _ _ _ _ Ht). Qed.

Lemma damaged_file d : has_file (damaged d) f i p (images ri b1 ++ d ++ images ri b2 ++ rest).
Proof. eapply put_file_has, Hfile. Qed.

Lemma images_bound b1' b2' : b1 ++ es :: b2 = b1' ++ b2' -> len (images ri b1') < 2 ^ 61.
Proof. intros Hb. rewrite Hb, images_app, !length_app in Hlen. lia. Qed.

Lemma read_damaged d k :
  length d = length (image ri es) ->
  readBlock r (mkIndexRec k (0 + len (images ri b1)) (len (image ri es))) (damaged d) = (block_check d, damaged d).
Proof.
  intros Hd. pose proof (images_bound b1 _ eq_refl). destruct (image_bounds b1 es b2 eq_refl) as [Hi _].
  eapply (readBlock_seg r _ f i p (images ri b1) d); [apply damaged_calm|done|apply damaged_file|lia..].
Qed.

Lemma read_other d b1' es' b2' k :
  length d = length (image ri es) -> b1 ++ es :: b2 = b1' ++ es' :: b2' -> length b1' <> length b1 ->
  readBlock r (mkIndexRec k (0 + len (images ri b1')) (len (image ri es'))) (damaged d) =
    (Ok (block_body ri es'), damaged d).
Proof.
  intros Hd Hb Hne. pose proof (images_bound b1' _ Hb). destruct (image_bounds _ _ _ Hb) as [Hi H4].
  assert (exists pre post, images ri b1 ++ d ++ images ri b2 ++ rest = pre ++ image ri es' ++ post /\
    len pre = len (images ri b1')) as (pre & post & Hc & Hpre).
  { destruct (decide (length b1' < length b1)%nat) as [Hlt|Hge].
    - pose proof (f_equal (take (length b1)) Hb) as Hb1. rewrite take_app_length, take_app_ge in Hb1 by lia.
      destruct (length b1 - length b1')%nat as [|k'] eqn:Ek; [lia|]. cbn [take firstn] in Hb1.
      exists (images ri b1'), (images ri (take k' b2') ++ d ++ images ri b2 ++ rest).
      rewrite Hb1, images_app, images_cons, <- !app_assoc. by split.
    - pose proof (f_equal (drop (length b1)) Hb) as Hb1. rewrite drop_app_length, drop_app_le in Hb1 by lia.
      pose proof (f_equal (take (length b1)) Hb) as Hb0. rewrite take_app_length, take_app_le in Hb0 by lia.
      destruct (drop (length b1) b1') as [|e0 mid] eqn:Ed.
      { apply (f_equal length) in Ed. rewrite length_drop in Ed. cbn in Ed. lia. }
      cbn [app] in Hb1. injection Hb1 as -> ->.
      exists (images ri b1 ++ d ++ images ri mid), (images ri b2' ++ rest).
      rewrite images_app, images_cons, <- !app_assoc. split; [done|].
      rewrite <- (take_drop (length b1) b1'), Ed, <- Hb0, images_app, images_cons, !length_app. lia. }
  pose proof (damaged_file d) as Hfd. rewrite Hc in Hfd.
  rewrite (readBlock_seg r _ f i p pre (image ri es') post); [|apply damaged_calm|done|exact Hfd|lia..].
  by rewrite image_body, block_check_body.
Qed.

(** The search finds the block [es] for each of its keys. *)
Lemma found_block b1' b2' key :
  b1 ++ es :: b2 = b1' ++ b2' -> Forall (fun e => blt (ekey e) key) (concat b1') ->
  (if b2' is es' :: _ then ~ Forall (fun e => blt (ekey e) key) es' else True) ->
  key ∈ ekey <$> es -> length b1' = length b1.
Proof.
  intros Hb Hlo Hhi (e & -> & He)%list_elem_of_fmap.
  destruct (block_facts ri r w _ Ht b1 es b2 eq_refl) as (_ & _ & _ & _ & Hbefore & _).
  destruct (Nat.lt_trichotomy (length b1') (length b1)) as [Hlt|[?|Hgt]]; [|done|].
  - exfalso. destruct b2' as [|es' b2'].
    { apply (f_equal length) in Hb. rewrite !length_app in Hb. cbn in Hb. lia. }
    apply Hhi. rewrite Forall_forall. intros e' He'. apply Hbefore; [|by apply elem_of_app; left].
    apply (f_equal (take (length b1))) in Hb. rewrite take_app_length, take_app_ge in Hb by lia.
    destruct (length b1 - length b1')%nat eqn:Ek; [lia|]. rewrite Hb, concat_app. cbn.
    apply elem_of_app. right. apply elem_of_app. by left.
  - exfalso. apply (f_equal (take (length b1'))) in Hb. rewrite take_app_length, take_app_ge in Hb by lia.
    destruct (length b1' - length b1)%nat eqn:Ek; [lia|]. rewrite <- Hb, concat_app in Hlo.
    apply Forall_app in Hlo as [_ Hlo]. cbn in Hlo. apply Forall_app in Hlo as [Hlo _].
    rewrite Forall_forall in Hlo. by apply (blt_irrefl (ekey e)), Hlo.
Qed.

(** A lookup in the damaged file answers as before, unless it meets the
    damaged block; a key of that block always does. *)
Lemma Get_damaged d key :
  length d = length (image ri es) -> block_check d = Err ErrCorrupt ->
  (Get r key (damaged d) = (Ok (stored <$> lookup_entry key (concat (b1 ++ es :: b2))), damaged d) /\
    key ∉ ekey <$> es) \/
  Get r key (damaged d) = (Err ErrCorrupt, damaged d).
Proof.
  intros Hd Hbad. pose proof (table_Get_spec ri Hri r w _ Ht key) as Hget.
  destruct (t_bloom _ _ _ _ Ht key) as (may & Hmay & Hin). unfold Get in Hget |- *.
  rewrite (M_bind_Ok _ _ _ may w) in Hget by (unfold lift; by rewrite Hmay).
  rewrite (M_bind_Ok _ _ _ may (damaged d)) by (unfold lift; by rewrite Hmay).
  destruct may; cbn [negb] in Hget |- *.
  2: { left. split; [by injection Hget as <-|]. intros Hk. discriminate Hin.
       rewrite concat_app, !fmap_app. apply elem_of_app. right. cbn [concat]. rewrite fmap_app.
       apply elem_of_app. by left. }
  destruct (find_block_spec ri Hri r w _ Ht key) as (b1' & b2' & Hb & Hf' & Hlo & Hhi).
  rewrite (t_index _ _ _ _ Ht), length_index_of in Hget |- *. rewrite (t_index _ _ _ _ Ht) in Hf'.
  rewrite (proj2 (Z.eqb_neq _ 0)) in Hget |- * by (rewrite length_app; cbn [length]; lia).
  rewrite (M_bind_Ok _ _ _ (length b1') w) in Hget by (unfold lift; by rewrite Hf').
  rewrite (M_bind_Ok _ _ _ (length b1') (damaged d)) by (unfold lift; by rewrite Hf').
  pose proof (found_block b1' b2' key Hb Hlo Hhi) as Hkey.
  destruct b2' as [|es' b2'].
  { left. rewrite lookup_ge_None_2 in Hget |- * by (by rewrite length_index_of, Hb, app_nil_r).
    split; [by injection Hget as <-|]. intros Hk. apply Hkey in Hk.
    apply (f_equal length) in Hb. rewrite !length_app in Hb. cbn in Hb. lia. }
  rewrite Hb in Hget |- *. rewrite index_of_lookup in Hget |- * by done. rewrite <- Hb in Hget |- *.
  destruct (decide (length b1' = length b1)) as [Heq|Hne].
  - right. destruct (app_inj_1 b1 b1' _ _ (eq_sym Heq) Hb) as [<- [= <- <-]].
    unfold mbind, M_bind. by rewrite read_damaged, Hbad.
  - left. split; [|by intros Hk%Hkey]. change (fun block => _) with (search_block key) in Hget |- *.
    rewrite (M_bind_Ok _ _ _ _ _ (readBlock_spec ri Hri r w _ Ht b1' es' b2' Hb)) in Hget.
    rewrite (M_bind_Ok _ _ _ _ _ (read_other d b1' es' b2' _ Hd Hb Hne)).
    apply (f_equal fst) in Hget. rewrite (search_block_pure _ _ _ (damaged d)) in Hget.
    rewrite (surjective_pairing (search_block key (block_body ri es') (damaged d))).
    rewrite search_block_world. f_equal. exact Hget.
Qed.
End damage.

(** * The searches end, whatever the file holds *)

Section progress.
Import blockIter.

Lemma read_inv it o k it' :
  0 <= o -> len (data it) <= 2 ^ 48 -> read it o k = Ok it' ->
  it' = invalid it o \/
  exists v n, 1 <= n /\ o + n <= len (data it) /\ k v (o + n) = Ok it'.
Proof.
  intros Ho Hl. unfold read, decode_at. destruct (slice_from (data it) o) as [b| | |] eqn:Es; cbn; try done.
  - destruct (DecodeUint64 b) as [[v n]| | |] eqn:Ed; [|intros [= <-]; by left|done..].
    apply DecodeUint64_ok in Ed as (_ & Hn & Hnl & _). unfold slice_from in Es. case_decide; [|done].
    injection Es as <-. rewrite length_drop in Hnl. rewrite i64_small by lia.
    intros Hk. right. exists v, n. split_and!; [lia|lia|done].
  - intros [= <-]. by left.
Qed.

(** Each valid step moves the offset forward, within the data. *)
Lemma Next_progress it it' :
  0 <= off it -> len (data it) <= 2 ^ 48 -> Next it = Ok it' ->
  data it' = data it /\ restarts it' = restarts it /\
  (valid it' = true -> off it < off it' <= len (data it)) /\ 0 <= off it'.
Proof.
  intros Ho Hl. unfold Next.
  assert (Hinv: forall o, 0 <= o -> data (invalid it o) = data it /\ restarts (invalid it o) = restarts it /\
    (valid (invalid it o) = true -> off it < off (invalid it o) <= len (data it)) /\ 0 <= off (invalid it o)) by done.
  destruct (Z.leb_spec (len (data it)) (off it)); [intros [= <-]; by apply Hinv|].
  intros [->|(sh & n1 & ? & ? & H1)]%read_inv; [apply Hinv; lia|..|lia|lia].
  apply read_inv in H1 as [->|(ns & n2 & ? & ? & H1)]; [apply Hinv; lia|..|lia|lia].
  apply read_inv in H1 as [->|(vl & n3 & ? & ? & H1)]; [apply Hinv; lia|..|lia|lia].
  apply read_inv in H1 as [->|(sq & n4 & ? & ? & H1)]; [apply Hinv; lia|..|lia|lia].
  remember (off it + n1 + n2 + n3 + n4) as o eqn:Eo.
  destruct (Z.leb_spec (len (data it)) o); [injection H1 as <-; apply Hinv; lia|].
  apply bind_Ok_inv in H1 as (flag & _ & H1). rewrite (i64_small (o + 1)) in H1 by lia.
  destruct (_ <? _); [injection H1 as <-; apply Hinv; lia|].
  apply bind_Ok_inv in H1 as (_ & _ & H1). apply bind_Ok_inv in H1 as (pre & _ & H1).
  apply bind_Ok_inv in H1 as (rest & Hr & H1). apply bind_Ok_inv in H1 as (v & Hv & H1).
  injection H1 as <-. cbn [data restarts valid off].
  unfold subslice in Hr, Hv. case_decide as D1; [|done]. case_decide as D2; [|done]. split_and!; first [done|lia].
Qed.

Lemma Next_ends it : ends (Next it).
Proof.
  assert (forall it o k, (forall v n, ends (k v n)) -> ends (read it o k)) as Hread.
  { intros it' o k Hk. unfold read. pose proof (ends_decode_at (data it') o) as Hd.
    destruct (decode_at (data it') o) as [[v n]| | |]; [apply Hk|done..]. }
  unfold Next. case_match; [done|]. do 4 (apply Hread; intros). case_match; [done|].
  apply ends_bind; [apply ends_index|]. intros flag. case_match; [done|]. ends_tac.
Qed.

Lemma restart_at_data it o it' :
  0 <= o -> len (data it) <= 2 ^ 48 -> restart_at it o = Ok it' ->
  data it' = data it /\ restarts it' = restarts it /\ (valid it' = true -> 1 <= off it' <= len (data it)).
Proof. intros Ho Hl Hr. apply Next_progress in Hr; cbn in *; [|done..]. destruct Hr as (? & ? & Hv & _). split_and!; [done..|]. intros Hv'. specialize (Hv Hv'). lia. Qed.

Lemma scan_ends target fuel : forall it,
  len (data it) <= 2 ^ 48 ->
  (valid it = true -> 1 <= off it <= len (data it) /\ len (data it) - off it < Z.of_nat fuel) ->
  ends (scan fuel target it).
Proof.
  induction fuel as [|fuel IH]; intros it Hl Hv; cbn [scan].
  - destruct (valid it); [|done]. specialize (Hv eq_refl). lia.
  - destruct (valid it); [|done]. specialize (Hv eq_refl). cbn [andb]. case_match; [|done].
    pose proof (Next_ends it) as He. destruct (Next it) as [it'| | |] eqn:En; [|done..]. rewrite outcome_bind_Ok.
    apply Next_progress in En as (Hd & _ & Hv' & _); [|lia|done]. apply IH; rewrite Hd; [done|].
    intros Hval. specialize (Hv' Hval). lia.
Qed.

Lemma search_ends target fuel : forall lo hi it,
  Forall (fun o => 0 <= o) (restarts it) -> len (data it) <= 2 ^ 48 ->
  0 <= lo -> hi - lo <= Z.of_nat fuel ->
  ends (search fuel target lo hi it) /\
  forall l it', search fuel target lo hi it = Ok (l, it') -> data it' = data it /\ restarts it' = restarts it.
Proof.
  induction fuel as [|fuel IH]; intros lo hi it Hrs Hl Hlo Hf; cbn [search].
  - rewrite (proj2 (Z.ltb_ge _ _)) by lia. split; [done|]. by intros l it' [= <- <-].
  - destruct (Z.ltb_spec lo hi) as [Hlt|]; [|split; [done|by intros l it' [= <- <-]]].
    set (mid := (lo + hi + 1) / 2). assert (lo < mid <= hi) as Hm by (unfold mid; divlia).
    pose proof (ends_index (restarts it) mid) as Hie.
    destruct (Prelude.index (restarts it) mid) as [o| | |] eqn:Ei; [|done..]. rewrite outcome_bind_Ok.
    apply index_lookup in Ei as [_ Ei]. pose proof (Next_ends (mkBlockIter (data it) (restarts it) o None
      (value it) (seq it) (deleted it) (valid it))) as Hne. fold (restart_at it o) in Hne.
    destruct (restart_at it o) as [it1| | |] eqn:Er; [|done..]. rewrite outcome_bind_Ok.
    rewrite Forall_lookup in Hrs. pose proof (Hrs _ _ Ei) as Ho. rewrite <- Forall_lookup in Hrs.
    apply restart_at_data in Er as (Hd & Hr & _); [|done..]. rewrite <- Hd, <- Hr in *.
    destruct (valid it1); cbn [negb]; [destruct (_ <=? 0)|]; apply IH; try done; lia.
Qed.

(** [Seek] ends on every block whose restart points are unsigned. *)
Lemma block_Seek_ends target it :
  Forall (fun o => 0 <= o) (restarts it) -> len (data it) <= 2 ^ 48 -> ends (Seek target it).
Proof.
  intros Hrs Hl. unfold Seek.
  assert (Hscan: forall it0 o, data it0 = data it -> 0 <= o ->
    ends (it ← restart_at it0 o; scan (length (data it)) target it)).
  { intros it0 o Hd Ho. pose proof (Next_ends (mkBlockIter (data it0) (restarts it0) o None
      (value it0) (seq it0) (deleted it0) (valid it0))) as Hne. fold (restart_at it0 o) in Hne.
    destruct (restart_at it0 o) as [it1| | |] eqn:Er; [|done..]. rewrite outcome_bind_Ok.
    apply restart_at_data in Er as (Hd1 & _ & Hv); [|done|by rewrite Hd]. apply scan_ends; [by rewrite Hd1, Hd|].
    intros Hval. specialize (Hv Hval). rewrite Hd1. lia. }
  destruct (_ =? 0).
  - by apply Hscan.
  - destruct (search_ends target (length (restarts it)) 0 (len (restarts it) - 1) it Hrs Hl) as [Hse Hsd]; [lia|lia|].
    destruct (search _ _ _ _ _) as [[lo it1]| | |]; [|done..]. rewrite outcome_bind_Ok. cbv beta iota.
    destruct (Hsd lo it1 eq_refl) as [Hd1 Hr1]. rewrite Hr1.
    pose proof (ends_index (restarts it) lo) as Hie.
    destruct (Prelude.index (restarts it) lo) as [o| | |] eqn:Ei; [|done..]. rewrite outcome_bind_Ok.
    apply index_lookup in Ei as [_ Ei]. rewrite Forall_lookup in Hrs. pose proof (Hrs _ _ Ei) as Ho.
    by apply Hscan.
Qed.
End progress.

(** A block iterator any bytes can give. *)
Definition sane (it : blockIter.blockIter) : Prop :=
  Forall (fun o => 0 <= o) (blockIter.restarts it) /\ len (blockIter.data it) <= 2 ^ 48 /\ 0 <= blockIter.off it.

Lemma restarts_loop_sane k block o : forall i,
  ends (blockIter.restarts_loop k block o i) /\
  forall rs, blockIter.restarts_loop k block o i = Ok rs -> Forall (fun o => 0 <= o) rs.
Proof.
  induction k as [|k IH]; intros i; cbn [blockIter.restarts_loop].
  - split; [done|]. intros rs [= <-]. constructor.
  - destruct (uint_at block (o + i * 4) (o + i * 4 + 4)) as [v| | |] eqn:Ev; [|done|done|].
    2: { exfalso. revert Ev. unfold uint_at, subslice. by case_decide. }
    rewrite outcome_bind_Ok. destruct (IH (i + 1)) as [He Hs].
    destruct (blockIter.restarts_loop k block o (i + 1)) as [rs| | |]; [|done..]. rewrite outcome_bind_Ok.
    split; [done|]. intros rs' [= <-]. constructor; [by eapply uint_at_nonneg|by apply Hs].
Qed.

Lemma newBlockIter_sane b :
  len b <= 2 ^ 48 ->
  ends (blockIter.newBlockIter b) /\ forall it, blockIter.newBlockIter b = Ok it -> sane it.
Proof.
  intros Hb. unfold blockIter.newBlockIter, blockIter.parseRestarts. case_match; [done|].
  destruct (uint_at b (len b - 4) (len b)) as [n| | |] eqn:En; [|done|done|].
  2: { exfalso. revert En. unfold uint_at, subslice. by case_decide. }
  rewrite outcome_bind_Ok. case_match; [done|]. unfold subslice. case_decide; [|done].
  rewrite outcome_bind_Ok. destruct (restarts_loop_sane (Z.to_nat n) b (len b - (n * 4 + 4)) 0) as [He Hs].
  destruct (blockIter.restarts_loop _ _ _ _) as [rs| | |]; [|done..]. rewrite !outcome_bind_Ok. cbv beta iota.
  split; [apply Next_ends|]. intros it Hn.
  set (d := take _ _) in Hn. assert (len d <= 2 ^ 48) as Hd by (unfold d; rewrite length_take, length_drop; lia).
  apply Next_progress in Hn as (Hd' & Hr' & _ & Ho); [|done..]. split; [|split].
  - rewrite Hr'. by apply Hs.
  - by rewrite Hd'.
  - done.
Qed.

Lemma ReadAt_len f n off w b w' : 0 <= n -> File_ReadAt f n off w = (Ok b, w') -> len b <= n.
Proof.
  intros Hn. unfold File_ReadAt, syscall, mbind, M_bind.
  destruct (open_fd f w) as [[d| | |] w1]; try done. destruct (next_fault w1) as [[[k|]| | |] w2]; try done.
  case_match; [done|]. unfold gets. case_match; [done|]. intros [= <- _]. rewrite length_take. lia.
Qed.

Lemma readBlock_len r rec w b w' : readBlock r rec w = (Ok b, w') -> len b <= 2 ^ 48.
Proof.
  unfold readBlock. unfold mbind at 1, M_bind at 1, lift at 1, make_check. case_decide as Hd; [|done].
  destruct (rf r) as [f|]; [|done]. unfold mbind at 1, M_bind at 1.
  destruct (File_ReadAt f (length_ rec) (i64 (offset rec)) w) as [[buf| | |] w1] eqn:Er; try done.
  assert (len buf <= length_ rec) as Hb by (eapply ReadAt_len; [|exact Er]; lia).
  case_match; [done|]. unfold mbind, M_bind, lift, uint_at, subslice. rewrite !decide_True by lia.
  cbn. case_match; [done|]. intros [= <- _]. rewrite length_take. lia.
Qed.

Lemma readBlock_ends r rec : always_ends (readBlock r rec).
Proof.
  unfold readBlock. apply lift_bind_ends; [apply ends_make|]. intros _ _. apply mbind_ends.
  - destruct (rf r); m_ends.
  - intros buf. case_match; [m_ends|]. apply lift_bind_ends; [apply ends_subslice|]. intros body _.
    apply lift_bind_ends; [unfold uint_at; ends_tac|]. intros want _. case_match; m_ends.
Qed.
#[export] Hint Resolve readBlock_ends : ends.

Lemma sort_Search_loop_ends fuel f : forall i j, (j - i <= fuel)%nat -> ends (sort_Search_loop fuel f i j).
Proof.
  induction fuel as [|fuel IH]; intros i j Hf; cbn [sort_Search_loop].
  - by rewrite (proj2 (Nat.ltb_ge _ _)) by lia.
  - destruct (Nat.ltb_spec i j) as [Hlt|]; [|done].
    assert (i <= (i + j) / 2 < j)%nat by (split; [apply Nat.div_le_lower_bound|apply Nat.Div0.div_lt_upper_bound]; lia).
    case_match; apply IH; lia.
Qed.

Lemma find_block_ends ix key : ends (find_block ix key).
Proof. apply sort_Search_loop_ends. lia. Qed.

Lemma contains_loop_ends n i h1 h2 f : ends (contains_loop n i h1 h2 f).
Proof.
  revert i. induction n as [|n IH]; intros i; cbn [contains_loop]; [done|].
  apply ends_bind; [unfold getBit; ends_tac|]. intros b. by case_match.
Qed.

Lemma MayContain_ends f key : ends (Bloom.MayContain f key).
Proof.
  destruct f as [f|]; [|done]. unfold Bloom.MayContain. case_match; [done|].
  destruct (hashPair key). apply contains_loop_ends.
Qed.

Lemma Get_ends r key : always_ends (Get r key).
Proof.
  unfold Get. apply lift_bind_ends; [apply MayContain_ends|]. intros may _. case_match; [m_ends|].
  case_match; [m_ends|]. apply lift_bind_ends; [apply find_block_ends|]. intros idx _.
  destruct (rindex r !! idx) as [rec|]; [|m_ends]. intros w. apply mbind_ends_at; [apply readBlock_ends|].
  intros block w' Hr%readBlock_len. apply newBlockIter_sane in Hr as [He Hs].
  revert w'. apply lift_bind_ends; [done|]. intros it Hit. destruct (Hs it Hit) as (H1 & H2 & _).
  apply lift_bind_ends; [by apply block_Seek_ends|]. intros it' _. case_match; m_ends.
Qed.

Lemma next_block_ends r fuel : forall it w,
  0 <= Iterator.bi it -> len (rindex r) <= Iterator.bi it + Z.of_nat fuel ->
  ends (fst (Iterator.next_block fuel r it w)) /\
  forall it' w', Iterator.next_block fuel r it w = (Ok it', w') -> 0 <= Iterator.bi it'.
Proof.
  induction fuel as [|fuel IH]; intros it w Hb Hf; cbn [Iterator.next_block].
  - rewrite lookup_ge_None_2 by lia. split; [done|]. by intros it' w' [= <- _].
  - destruct (rindex r !! Z.to_nat (Iterator.bi it)) as [rec|] eqn:Hrec; [|split; [done|by intros it' w' [= <- _]]].
    unfold mbind, M_bind, try_. pose proof (readBlock_ends r rec w) as He.
    destruct (readBlock r rec w) as [[block|e|q|] w1] eqn:Er; try done; [|split; [done|by intros it' w' [= <- _]]].
    apply readBlock_len, newBlockIter_sane in Er as [Hn _].
    destruct (blockIter.newBlockIter block) as [b|e|q|]; try done; [|split; [done|by intros it' w' [= <- _]]].
    destruct (blockIter.valid b); [split; [done|by intros it' w' [= <- _]]|].
    apply IH; cbn; lia.
Qed.

Lemma Iterator_Next_ends r it w :
  -1 <= Iterator.bi it ->
  ends (fst (Iterator.Next r it w)) /\
  forall it' w', Iterator.Next r it w = (Ok it', w') -> -1 <= Iterator.bi it'.
Proof.
  intros Hb. unfold Iterator.Next. destruct (Iterator.err it); [split; [done|by intros it' w' [= <- _]]|].
  assert (Hnb: forall b, ends (fst (Iterator.next_block (length (rindex r)) r (Iterator.mkIterator (Iterator.bi it + 1) b None) w)) /\
    forall it' w', Iterator.next_block (length (rindex r)) r (Iterator.mkIterator (Iterator.bi it + 1) b None) w = (Ok it', w') ->
    -1 <= Iterator.bi it').
  { intros b. destruct (next_block_ends r (length (rindex r)) (Iterator.mkIterator (Iterator.bi it + 1) b None) w)
      as [He Hv]; [cbn; lia..|]. split; [done|]. intros it' w' Hn. apply Hv in Hn. lia. }
  unfold mbind, M_bind. destruct (Iterator.blockIt it) as [b|]; [|apply Hnb]. unfold lift, mret, M_ret.
  pose proof (Next_ends b) as He. destruct (blockIter.Next b) as [b'| | |]; try done.
  destruct (blockIter.valid b'); [split; [done|by intros it' w' [= <- _]]|apply Hnb].
Qed.

Lemma Iterator_Seek_ends r target it w :
  -1 <= Iterator.bi it ->
  ends (fst (Iterator.Seek r target it w)) /\
  forall it' w', Iterator.Seek r target it w = (Ok it', w') -> -1 <= Iterator.bi it'.
Proof.
  intros Hb. unfold Iterator.Seek. case_match; [split; [done|by intros it' w' [= <- _]]|].
  unfold mbind, M_bind, lift. pose proof (find_block_ends (rindex r) target) as Hfe.
  destruct (find_block (rindex r) target) as [idx| | |]; try done.
  destruct (rindex r !! idx) as [rec|]; [|split; [done|intros it' w' [= <- _]; cbn; lia]].
  unfold try_. pose proof (readBlock_ends r rec w) as He.
  destruct (readBlock r rec w) as [[block|e|q|] w1] eqn:Er; try done;
    [|split; [done|intros it' w' [= <- _]; cbn; lia]].
  apply readBlock_len, newBlockIter_sane in Er as [Hn Hs].
  destruct (blockIter.newBlockIter block) as [b|e|q|]; try done; [|split; [done|intros it' w' [= <- _]; cbn; lia]].
  destruct (Hs b eq_refl) as (H1 & H2 & _). pose proof (block_Seek_ends target b H1 H2) as Hse.
  destruct (blockIter.Seek target b) as [b'| | |]; try done.
  destruct (blockIter.valid b'); [split; [done|intros it' w' [= <- _]; cbn; lia]|].
  apply Iterator_Next_ends. cbn. lia.
Qed.

(** * Entries the writer refuses *)

Section refusals.
Context {F : Type} `{Float64 F}.

Lemma add_all_app es1 es2 (s : Writer F * World) : add_all (es1 ++ es2) s = (add_all es1;; add_all es2) s.
Proof.
  revert s. induction es1 as [|e es1 IH]; intros s; [done|]. cbn [app add_all].
  unfold mbind, M_bind, try_. destruct (Add e s) as [[[]|err|q|] s1]; [apply IH|..|done|done].
  destruct (Abort_ s1) as [[[]|err'|q|] s2]; done.
Qed.

(** No key, or a key below its predecessor. *)
Definition refused (prev : slice) (e : Entry) : option error :=
  if is_nil (Key e) then Some ErrInvalid
  else if negb (is_nil prev) && (Compare (ekey e) (bs prev) <? 0)
  then Some (fmt_Errorf "sstable: keys out of order: %q < %q") else None.

Lemma Add_refused (w : Writer F) W e err :
  wclosed w = false -> refused (wlastKey w) e = Some err -> Add e (w, W) = (Err err, (w, W)).
Proof.
  intros Ho Hr. unfold Add, get_w, gets. rewrite (M_bind_Ok _ _ _ w (w, W)) by done. unfold id.
  rewrite Ho. unfold refused, ekey in Hr. destruct (is_nil (Key e)); [by injection Hr as <-|].
  destruct (_ && _); [by injection Hr as <-|done].
Qed.

Lemma Abort_spec f i ri path bsize fp W0 (w : Writer F) W blocks cur :
  writing ri f i path bsize fp W0 (w, W) blocks cur -> is_Some (names W0 !! path) ->
  exists w' W', Abort_ (w, W) = (Ok tt, (w', W')) /\ names W' = delete path (names W0).
Proof.
  intros [Hc Hf (T1 & T2 & T3 & T4 & T5) Hfd Hp _ _ _ _ _ _ _ _ _ _ _ _ Ho] [i' Hi]. cbn [fst snd] in *.
  destruct (Close_spec _ _ _ _ _ Hc Hf) as (W2 & Hcl & Hc2 & (N1 & _) & _).
  unfold Abort_, get_w, gets. rewrite (M_bind_Ok _ _ _ w (w, W)) by done. unfold id. rewrite Ho.
  unfold upd_w, modify. erewrite (M_bind_Ok _ _ _ tt) by done. cbn [fst snd].
  rewrite Hfd, Hp. erewrite (M_bind_Ok _ _ _ (inl tt)).
  2: { unfold try_. by rewrite (writer_io_run _ _ _ _ _ Hcl). }
  assert (HR: Remove path W2 = (Ok tt, set_names (delete path (names W2)) W2)).
  { unfold Remove. rewrite syscall_calm by done. by rewrite N1, T1, Hi. }
  rewrite (writer_io_run _ _ _ _ _ HR). eexists _, _. split; [done|]. cbn. by rewrite N1, T1.
Qed.
End refusals.

(** * Theorems *)

Section theorems.
Context {F : Type} `{Float64 F}.

(** C9: a table written by [WriteFile] from entries with ascending keys and
    opened again answers every point lookup: [Get] returns the entry written
    for a key, deletion marks included, and nothing for any other key. *)
Theorem WriteFile_Get path es (o : option (WriterOptions F)) w
  (Hc : calm w) (Hn : names_ok w) (Hw : writable o es) :
  exists meta w1 r w2, WriteFile path es o w = (Ok meta, w1) /\ Open path w1 = (Ok r, w2) /\
    forall key, Get r key w2 = (Ok (stored <$> lookup_entry key es), w2).
Proof.
  destruct (WriteFile_Open path es o w Hc Hn Hw) as (meta & r & blocks & i & w1 & w2 & H1 & H2 & Ht & <- & _).
  exists meta, w1, r, w2. split_and!; [done..|]. intros key. apply (table_Get_spec (interval o)); [apply interval_pos|done].
Qed.

(** C10: iterators over a written table: [NewIterator] yields the entries in
    order, and [Seek], from any position, yields those whose keys are not below
    the target; then the iterator is exhausted without an error. *)
Theorem WriteFile_iterators path es (o : option (WriterOptions F)) w
  (Hc : calm w) (Hn : names_ok w) (Hw : writable o es) :
  exists meta w1 r w2, WriteFile path es o w = (Ok meta, w1) /\ Open path w1 = (Ok r, w2) /\
    (exists it, Iterator.NewIterator r w2 = (Ok it, w2) /\
      collect r (length es) it w2 = (Ok (stored <$> es), w2)) /\
    forall target it, exists it', Iterator.Seek r target it w2 = (Ok it', w2) /\
      collect r (length es) it' w2 = (Ok (stored <$> filter (fun e => ble target (ekey e)) es), w2).
Proof.
  destruct (WriteFile_Open path es o w Hc Hn Hw) as (meta & r & blocks & i & w1 & w2 & H1 & H2 & Ht & Hes & _).
  pose proof (interval_pos o) as Hri. exists meta, w1, r, w2. split_and!; [done..| |].
  - destruct (NewIterator_spec (interval o) Hri r w2 blocks Ht) as (it & Hit & Hp). rewrite Hes in Hp.
    exists it. split; [done|]. by eapply table_collect_spec.
  - intros target it. destruct (Iterator_Seek_spec (interval o) Hri r w2 blocks Ht target it) as (it' & Hit & Hp).
    rewrite Hes in Hp. exists it'. split; [done|]. eapply table_collect_spec; [done..|]. apply length_filter.
Qed.

(** the Meta that [WriteFile] returns and the accessors of the reader that
    [Open] gives agree with the entries: path, smallest and largest key, highest
    sequence number, entry count and file size. *)
Theorem WriteFile_Meta path es (o : option (WriterOptions F)) w
  (Hc : calm w) (Hn : names_ok w) (Hw : writable o es) :
  exists r w1 w2,
    WriteFile path es o w =
      (Ok (mkMeta path (head es ≫= Key) (last_key None es) (max_seq es) (len es) (FileSize r)), w1) /\
    Open path w1 = (Ok r, w2) /\ MaxSeq r = max_seq es /\ Entries r = len es /\
    rmaxKey r = last_key None es.
Proof.
  destruct (WriteFile_Open path es o w Hc Hn Hw)
    as (meta & r & blocks & i & w1 & w2 & H1 & H2 & _ & _ & -> & H4 & H5 & H6 & _).
  by exists r, w1, w2.
Qed.

(** C19: damage to a written table is never mistaken for data.  If up to four
    consecutive bytes of one block are changed in the file, every lookup either
    gives the entry that was written or reports corruption, and a lookup of a
    key of that block always reports corruption. *)
Theorem WriteFile_damage path es (o : option (WriterOptions F)) w
  (Hc : calm w) (Hn : names_ok w) (Hw : writable o es) :
  exists meta w1 r w2 f i p blocks rest,
    WriteFile path es o w = (Ok meta, w1) /\ Open path w1 = (Ok r, w2) /\ rf r = Some f /\
    has_file w2 f i p (images (interval o) blocks ++ rest) /\ concat blocks = es /\
    forall b1 b b2 pre x y post key,
      blocks = b1 ++ b :: b2 -> image (interval o) b = pre ++ x ++ post ->
      length x = length y -> len x <= 4 -> x <> y ->
      let w3 := put_file f i p (images (interval o) b1 ++ (pre ++ y ++ post) ++ images (interval o) b2 ++ rest) w2 in
      (Get r key w3 = (Ok (stored <$> lookup_entry key es), w3) /\ key ∉ ekey <$> b) \/
      Get r key w3 = (Err ErrCorrupt, w3).
Proof.
  destruct (WriteFile_Open path es o w Hc Hn Hw) as (meta & r & blocks & j & w1 & w2 & H1 & H2 & Ht & Hes & _).
  destruct (t_file _ _ _ _ Ht) as (f & i & p & rest & Hf & Hfile & Hl).
  exists meta, w1, r, w2, f, i, p, blocks, rest. split_and!; [done..|].
  intros b1 b b2 pre x y post key Hb Him Hlen H4 Hne w3. subst blocks es. apply (Get_damaged (interval o) (interval_pos o) r w2 b1 b b2 Ht f i p rest Hf Hfile Hl).
  - rewrite Him, !length_app. lia.
  - rewrite image_body in Him. by eapply block_check_burst.
Qed.

(** C27: an entry without a key, or with a key below the key before it, makes
    [WriteFile] fail with the error that says so, whatever follows, and the
    partial table is removed from the directory. *)
Theorem WriteFile_refuses path es e rest (o : option (WriterOptions F)) w err
  (Hc : calm w) (Hn : names_ok w) (Hs : StronglySorted blt (ekey <$> es)) (Hfit : fits es)
  (Hbs : BlockSize (normalize o) <= 2 ^ 30) (Hr : refused (last_key None es) e = Some err) :
  exists w', WriteFile path (es ++ e :: rest) o w = (Err err, w') /\ names w' = delete path (names w).
Proof.
  destruct (Create_add path es o w Hc Hn Hbs Hfit Hs)
    as (f & i & wr & w1 & wr2 & w2 & blocks & cur & Hcreate & Hadd & Hw2 & _ & Hall & Hn1 & _).
  destruct (Abort_spec _ _ _ _ _ _ _ _ _ _ _ Hw2) as (wr3 & w3 & Hab & Hn3).
  { rewrite Hn1, lookup_insert_eq. eauto. }
  exists w3. split; [|by rewrite Hn3, Hn1, delete_insert_eq].
  unfold WriteFile. rewrite (M_bind_Ok _ _ _ _ _ Hcreate).
  assert (Hall2: add_all (es ++ e :: rest) (wr, w1) = (Err err, (wr3, w3))).
  { rewrite add_all_app, (M_bind_Ok _ _ _ _ _ Hadd). cbn [add_all].
    rewrite (M_bind_Ok _ _ _ (inr err) (wr2, w2)).
    2: { unfold try_. rewrite (Add_refused wr2 w2 e err); [done|apply (wr_open _ _ _ _ _ _ _ _ _ _ Hw2)|].
         pose proof (wr_last _ _ _ _ _ _ _ _ _ _ Hw2) as Hl. cbn [fst] in Hl. rewrite Hl, Hall. exact Hr. }
    rewrite (M_bind_Ok _ _ _ (inl tt) (wr3, w3)) by (unfold try_; by rewrite Hab). done. }
  unfold mbind, M_bind, scoped. unfold mbind, M_bind in Hall2 |- *. by rewrite Hall2.
Qed.
End theorems.

(** The iterators a client can hold. *)
Inductive reached (r : Reader) : Iterator.Iterator -> Prop :=
  | reached_new w it w' : Iterator.NewIterator r w = (Ok it, w') -> reached r it
  | reached_next it w it' w' : reached r it -> Iterator.Next r it w = (Ok it', w') -> reached r it'
  | reached_seek target it w it' w' :
      reached r it -> Iterator.Seek r target it w = (Ok it', w') -> reached r it'.

Lemma reached_bi r it : reached r it -> -1 <= Iterator.bi it.
Proof.
  induction 1 as [w it w' Hi|it w it' w' _ IH Hi|target it w it' w' _ IH Hi].
  - assert (-1 <= Iterator.bi (Iterator.mkIterator (-1) None None)) as H0 by (cbn; lia).
    by apply (Iterator_Next_ends r _ w H0) in Hi.
  - by apply (Iterator_Next_ends r it w IH) in Hi.
  - by apply (Iterator_Seek_ends r target it w IH) in Hi.
Qed.

(** lookups and iteration come to an end on any file, however corrupt, and
    whatever the file system does: [Get], [NewIterator], and [Next] and [Seek]
    of every iterator a client can reach. *)
Theorem lookups_terminate r key :
  always_ends (Get r key) /\ always_ends (Iterator.NewIterator r) /\
  forall it, reached r it -> always_ends (Iterator.Next r it) /\ always_ends (Iterator.Seek r key it).
Proof.
  split; [apply Get_ends|]. split.
  - intros w. apply Iterator_Next_ends. cbn. lia.
  - intros it Hit%reached_bi. split; intros w; [by apply Iterator_Next_ends|by apply Iterator_Seek_ends].
Qed.

(** ** Witnesses *)

Definition demo : list Entry :=
  [mkEntry (Some [x61]) (Some [x31; x32]) 7 false; mkEntry (Some [x61; x62]) None 9 true;
   mkEntry (Some [x62; x63]) (Some [x33]) 8 false].

(** Small blocks: one entry each. *)
Definition demo_opts : option (WriterOptions Q) := Some (mkWriterOptions 4 2 (1 # 10)%Q).

Lemma demo_fits : fits demo.
Proof. split; [repeat constructor; try done; by vm_compute..|by repeat constructor|by vm_compute]. Qed.

Lemma demo_sorted : StronglySorted blt (ekey <$> demo).
Proof. by repeat constructor. Qed.

Lemma demo_writable : @writable Q Q_Float64 demo_opts demo.
Proof.
  split; [apply demo_sorted|apply demo_fits|by vm_compute|].
  intros q [->| ->]; vm_compute; discriminate.
Qed.

Lemma empty_calm : calm empty_world.
Proof. done. Qed.
Lemma empty_names : names_ok empty_world.
Proof. by apply map_Forall_empty. Qed.

Lemma WriteFile_Get_witness :
  exists meta w1 r w2, @WriteFile Q Q_Float64 "t" demo demo_opts empty_world = (Ok meta, w1) /\
    Open "t" w1 = (Ok r, w2) /\
    forall key, Get r key w2 = (Ok (stored <$> lookup_entry key demo), w2).
Proof. apply (@WriteFile_Get Q Q_Float64); [apply empty_calm|apply empty_names|apply demo_writable]. Defined.

Lemma WriteFile_iterators_witness :
  exists meta w1 r w2, @WriteFile Q Q_Float64 "t" demo demo_opts empty_world = (Ok meta, w1) /\
    Open "t" w1 = (Ok r, w2) /\
    (exists it, Iterator.NewIterator r w2 = (Ok it, w2) /\
      collect r (length demo) it w2 = (Ok (stored <$> demo), w2)) /\
    forall target it, exists it', Iterator.Seek r target it w2 = (Ok it', w2) /\
      collect r (length demo) it' w2 = (Ok (stored <$> filter (fun e => ble target (ekey e)) demo), w2).
Proof. apply (@WriteFile_iterators Q Q_Float64); [apply empty_calm|apply empty_names|apply demo_writable]. Defined.

Lemma WriteFile_Meta_witness :
  exists r w1 w2,
    @WriteFile Q Q_Float64 "t" demo demo_opts empty_world =
      (Ok (mkMeta "t" (Some [x61]) (Some [x62; x63]) 9 3 (FileSize r)), w1) /\
    Open "t" w1 = (Ok r, w2) /\ MaxSeq r = 9 /\ Entries r = 3 /\ rmaxKey r = Some [x62; x63].
Proof.
  apply (@WriteFile_Meta Q Q_Float64 "t" demo demo_opts empty_world);
    [apply empty_calm|apply empty_names|apply demo_writable].
Defined.

Lemma WriteFile_damage_witness :
  exists meta w1 r w2 f i p blocks rest,
    @WriteFile Q Q_Float64 "t" demo demo_opts empty_world = (Ok meta, w1) /\ Open "t" w1 = (Ok r, w2) /\
    rf r = Some f /\ has_file w2 f i p (images (@interval Q Q_Float64 demo_opts) blocks ++ rest) /\
    concat blocks = demo /\
    forall b1 b b2 pre x y post key,
      blocks = b1 ++ b :: b2 -> image (@interval Q Q_Float64 demo_opts) b = pre ++ x ++ post ->
      length x = length y -> len x <= 4 -> x <> y ->
      let w3 := put_file f i p (images (@interval Q Q_Float64 demo_opts) b1 ++ (pre ++ y ++ post) ++
        images (@interval Q Q_Float64 demo_opts) b2 ++ rest) w2 in
      (Get r key w3 = (Ok (stored <$> lookup_entry key demo), w3) /\ key ∉ ekey <$> b) \/
      Get r key w3 = (Err ErrCorrupt, w3).
Proof. apply (@WriteFile_damage Q Q_Float64); [apply empty_calm|apply empty_names|apply demo_writable]. Defined.

Lemma WriteFile_refuses_witness :
  let bad := mkEntry (Some [x61; x62]) (Some [x31]) 12 false in
  exists w', @WriteFile Q Q_Float64 "t" (demo ++ [bad]) demo_opts empty_world =
      (Err (fmt_Errorf "sstable: keys out of order: %q < %q"), w') /\ names w' = delete "t"%string ∅.
Proof.
  apply (@WriteFile_refuses Q Q_Float64);
    [apply empty_calm|apply empty_names|apply demo_sorted|apply demo_fits|by vm_compute|by vm_compute].
Defined.

(** The reader and the iterators on the demonstration table, computed. *)
Example demo_lookups :
  (let '(_, w1) := @WriteFile Q Q_Float64 "t" demo demo_opts empty_world in
   match Open "t" w1 with
   | (Ok r, w2) => Some ((fun k => fst (Get r k w2)) <$> [[x61]; [x61; x62]; [x62]; [x62; x63]])
   | _ => None
   end) = Some [Ok (Some (mkEntry (Some [x61]) (Some [x31; x32]) 7 false));
                Ok (Some (mkEntry (Some [x61; x62]) (Some []) 9 true)); Ok None;
                Ok (Some (mkEntry (Some [x62; x63]) (Some [x33]) 8 false))].
Proof. by vm_compute. Qed.
