(* ===== verification/Heap.v ===== *)
(** * Heap: package container/heap of the standard library

    The binary heap the merge of package compact uses, over a list and a
    comparison [less], with its two sifting loops; [Push] and [Pop] keep the
    heap order and [Pop] takes a least element. *)

From Stdlib Require Import ZArith Lia.
From stdpp Require Import base decidable list numbers.
From S2P Require Import Prelude.

Section heap.
Context {A : Type} (less : A -> A -> bool).

(** [h.Less(i, j)] and [h.Swap(i, j)] of a slice of elements. *)
Definition Less (l : list A) (i j : nat) : bool :=
  match l !! i, l !! j with Some a, Some b => less a b | _, _ => false end.
Definition Swap (l : list A) (i j : nat) : list A :=
  match l !! i, l !! j with Some a, Some b => <[i := b]> (<[j := a]> l) | _, _ => l end.

(** [(j - 1) / 2] in Go, which is 0 for [j = 0]. *)
Definition parent (j : nat) : nat := (j - 1) / 2.

Fixpoint up (fuel : nat) (l : list A) (j : nat) : outcome (list A) :=
  match fuel with
  | O => Stuck
  | S fuel =>
      let i := parent j in
      if (i =? j)%nat || negb (Less l j i) then Ok l else up fuel (Swap l i j) i
  end.

Fixpoint down (fuel : nat) (l : list A) (i n : nat) : outcome (list A) :=
  match fuel with
  | O => Stuck
  | S fuel =>
      let j1 := (2 * i + 1)%nat in
      if (n <=? j1)%nat then Ok l
      else
        let j2 := S j1 in
        let j := if (j2 <? n)%nat && Less l j2 j1 then j2 else j1 in
        if negb (Less l j i) then Ok l else down fuel (Swap l i j) j n
  end.

Definition Push (x : A) (l : list A) : outcome (list A) :=
  let l := l ++ [x] in up (length l) l (length l - 1).

Definition Pop (l : list A) : outcome (A * list A) :=
  let n := (length l - 1)%nat in
  l ← down (S n) (Swap l 0 n) 0 n;
  match l !! n with Some x => Ok (x, take n l) | None => Panic IndexOutOfRange end.

(** ** Lemmas *)

Lemma parent_lt j : (0 < j)%nat -> (parent j < j)%nat.
Proof. intros Hj. unfold parent. apply Nat.Div0.div_lt_upper_bound. lia. Qed.

Lemma parent_cases j i : (0 < j)%nat -> parent j = i <-> (j = 2 * i + 1 \/ j = 2 * i + 2)%nat.
Proof. intros Hj. unfold parent. pose proof (Nat.div_mod_eq (j - 1) 2). pose proof (Nat.mod_upper_bound (j - 1) 2). lia. Qed.

Lemma Swap_Permutation l i j : Swap l i j ≡ₚ l.
Proof.
  unfold Swap. destruct (l !! i) as [a|] eqn:Ei; [|done]. destruct (l !! j) as [b|] eqn:Ej; [|done].
  by apply Permutation_insert_swap.
Qed.

Lemma length_Swap l i j : length (Swap l i j) = length l.
Proof. apply Permutation_length, Swap_Permutation. Qed.

Lemma Swap_lookup l i j k :
  (i < length l)%nat -> (j < length l)%nat ->
  Swap l i j !! k = if decide (k = i) then l !! j else if decide (k = j) then l !! i else l !! k.
Proof.
  intros Hi Hj. unfold Swap. destruct (lookup_lt_is_Some_2 l i Hi) as [a Ea].
  destruct (lookup_lt_is_Some_2 l j Hj) as [b Eb]. rewrite Ea, Eb.
  destruct (decide (k = i)) as [->|Hki].
  - apply list_lookup_insert_eq. by rewrite length_insert.
  - rewrite list_lookup_insert_ne by done. destruct (decide (k = j)) as [->|Hkj].
    + by apply list_lookup_insert_eq.
    + by apply list_lookup_insert_ne.
Qed.

(** ** The heap order *)

Context (Hirr : forall a b, less a b = true -> less b a = false).
Context (Htrans : forall a b c, less b a = false -> less c b = false -> less c a = false).

(** [le_at l i j]: the element at [j] is not below the one at [i]. *)
Definition le_at (l : list A) (i j : nat) : Prop :=
  forall a b, l !! i = Some a -> l !! j = Some b -> less b a = false.

(** The order among the first [n] elements. *)
Definition heap (l : list A) (n : nat) : Prop := forall k, (0 < k < n)%nat -> le_at l (parent k) k.

Lemma le_at_trans l i j k : (j < length l)%nat -> le_at l i j -> le_at l j k -> le_at l i k.
Proof.
  intros Hj H1 H2 a c Ha Hc. destruct (lookup_lt_is_Some_2 l j Hj) as [b Hb]. eauto.
Qed.

Lemma le_at_ext l l' i j i' j' :
  l' !! i' = l !! i -> l' !! j' = l !! j -> le_at l i j -> le_at l' i' j'.
Proof. intros Hi Hj H1 a b. rewrite Hi, Hj. apply H1. Qed.

Lemma Less_le l i j : Less l i j = false -> (j < length l)%nat -> (i < length l)%nat -> le_at l j i.
Proof. unfold Less. intros H1 Hi Hj a b Ha Hb. by rewrite Hb, Ha in H1. Qed.

Lemma Less_ge l i j : Less l i j = true -> le_at l i j.
Proof. unfold Less. intros H1 a b Ha Hb. rewrite Ha, Hb in H1. by apply Hirr. Qed.

(** Sifting up repairs an order broken at [j] only. *)
Lemma up_spec fuel : forall l j,
  (j < length l)%nat -> (j < fuel)%nat ->
  (forall k, (0 < k < length l)%nat -> k <> j -> le_at l (parent k) k) ->
  (forall k, (0 < j)%nat -> (0 < k < length l)%nat -> parent k = j -> le_at l (parent j) k) ->
  exists l', up fuel l j = Ok l' /\ l' ≡ₚ l /\ heap l' (length l).
Proof.
  induction fuel as [|fuel IH]; intros l j Hj Hf H1 H2; [lia|]. cbn [up].
  destruct (Nat.eqb_spec (parent j) j) as [Hp|Hp]; cbn [orb].
  { exists l. split_and!; [done..|]. intros k Hk. apply H1; [done|].
    intros ->. pose proof (parent_lt j). lia. }
  assert (0 < j)%nat as Hj0 by (destruct j; [done|lia]). pose proof (parent_lt j Hj0) as Hpj.
  destruct (Less l j (parent j)) eqn:Hless; cbn [negb].
  - set (i := parent j) in *. assert (i < length l)%nat as Hi by lia.
    pose proof (Swap_lookup l i j) as Hsw. specialize (fun k => Hsw k Hi Hj).
    destruct (IH (Swap l i j) i) as (l' & Hup & Hpe & Hh).
    + by rewrite length_Swap.
    + lia.
    + rewrite length_Swap. intros k Hk Hki. destruct (decide (k = j)) as [->|Hkj].
      * fold i. apply (le_at_ext l _ j i); [by rewrite Hsw, decide_True|by rewrite Hsw, decide_False, decide_True|].
        by apply Less_ge.
      * pose proof (parent_lt k ltac:(lia)). destruct (decide (parent k = j)) as [Hpk|Hpk].
        -- rewrite Hpk. apply (le_at_ext l _ i k); [by rewrite Hsw, decide_False, decide_True by (done || lia)|
             by rewrite Hsw, !decide_False by done|]. by apply H2.
        -- destruct (decide (parent k = i)) as [Hpi|Hpi].
           ++ rewrite Hpi. apply (le_at_ext l _ j k); [by rewrite Hsw, decide_True|by rewrite Hsw, !decide_False by done|].
              apply (le_at_trans l j i k Hi); [by apply Less_ge|]. rewrite <- Hpi. by apply H1.
           ++ apply (le_at_ext l _ (parent k) k); [by rewrite Hsw, !decide_False by done..|]. by apply H1.
    + rewrite length_Swap. intros k Hi0 Hk Hpk. pose proof (parent_lt i Hi0).
      pose proof (parent_lt k ltac:(lia)).
      assert (le_at l (parent i) i) as Hpi by (apply H1; lia).
      assert (Swap l i j !! parent i = l !! parent i) as Hl by (by rewrite Hsw, !decide_False by lia).
      destruct (decide (k = j)) as [->|Hkj].
      * apply (le_at_ext l _ (parent i) i); [done|by rewrite Hsw, decide_False, decide_True|done].
      * apply (le_at_ext l _ (parent i) k); [done|by rewrite Hsw, !decide_False by (done || lia)|].
        apply (le_at_trans l _ i k Hi Hpi). rewrite <- Hpk. by apply H1.
    + exists l'. split_and!; [done| |by rewrite length_Swap in Hh]. by rewrite Hpe, Swap_Permutation.
  - exists l. split_and!; [done..|]. intros k Hk. destruct (decide (k = j)) as [->|Hkj]; [|by apply H1].
    by apply Less_le; [|lia|].
Qed.

Lemma Push_spec x l : heap l (length l) -> exists l', Push x l = Ok l' /\ l' ≡ₚ x :: l /\ heap l' (length l').
Proof.
  intros Hh. unfold Push. rewrite length_app. cbn [length].
  replace (length l + 1 - 1)%nat with (length l) by lia.
  destruct (up_spec (length l + 1) (l ++ [x]) (length l)) as (l' & Hup & Hp & Hh').
  - rewrite length_app. cbn. lia.
  - lia.
  - rewrite length_app. cbn [length]. intros k Hk Hne. pose proof (parent_lt k ltac:(lia)).
    apply (le_at_ext l _ (parent k) k); [by rewrite lookup_app_l by lia..|]. apply Hh. lia.
  - rewrite length_app. cbn [length]. intros k Hl Hk Hpk. pose proof (parent_lt k ltac:(lia)). lia.
  - exists l'. split; [done|]. split; [by rewrite Hp, Permutation_app_comm|].
    by rewrite (Permutation_length Hp).
Qed.

(** Sifting down repairs an order broken between [i] and its children only;
    elements from [n] on stay where they are. *)
Lemma down_spec fuel : forall l i n,
  (n <= length l)%nat -> (i < n)%nat -> (n - i <= fuel)%nat ->
  (forall k, (0 < k < n)%nat -> parent k <> i -> le_at l (parent k) k) ->
  (forall k, (0 < i)%nat -> (0 < k < n)%nat -> parent k = i -> le_at l (parent i) k) ->
  exists l', down fuel l i n = Ok l' /\ l' ≡ₚ l /\ heap l' n /\ forall k, (n <= k)%nat -> l' !! k = l !! k.
Proof.
  induction fuel as [|fuel IH]; intros l i n Hn Hi Hf H1 H2; [lia|]. cbn [down].
  destruct (Nat.leb_spec n (2 * i + 1)) as [Hleaf|Hch].
  { exists l. split_and!; try done. intros k Hk. apply H1; [done|]. rewrite parent_cases by lia. lia. }
  set (j1 := (2 * i + 1)%nat) in *. set (j := if (S j1 <? n)%nat && Less l (S j1) j1 then S j1 else j1).
  assert (Hj: parent j = i /\ (i < j < n)%nat).
  { rewrite parent_cases by (unfold j; case_match; lia). unfold j.
    destruct (Nat.ltb_spec (S j1) n); cbn [andb]; [|lia]. destruct (Less l (S j1) j1); lia. }
  assert (Hmin: forall k, (0 < k < n)%nat -> parent k = i -> le_at l j k).
  { intros k Hk Hp. rewrite parent_cases in Hp by lia. unfold j.
    assert (Hrefl: forall a, le_at l a a).
    { intros a x y Hx Hy. assert (x = y) as -> by congruence. destruct (less y y) eqn:E; [|done].
      by rewrite (Hirr _ _ E) in E. }
    destruct (Nat.ltb_spec (S j1) n); cbn [andb].
    - destruct (Less l (S j1) j1) eqn:E; destruct Hp as [->|Hp].
      + by apply Less_ge.
      + replace k with (S j1) by lia. apply Hrefl.
      + apply Hrefl.
      + replace k with (S j1) by lia. apply Less_le; [done|lia|lia].
    - replace k with j1 by lia. apply Hrefl. }
  destruct Hj as [Hpj Hj]. destruct (Less l j i) eqn:Hless; cbn [negb].
  - pose proof (fun k => Swap_lookup l i j k ltac:(lia) ltac:(lia)) as Hsw.
    destruct (IH (Swap l i j) j n) as (l' & Hd & Hp & Hh & Hk).
    + by rewrite length_Swap.
    + lia.
    + lia.
    + intros k Hk Hpk. pose proof (parent_lt k ltac:(lia)). destruct (decide (parent k = i)) as [Hpi|Hpi].
      * rewrite Hpi. destruct (decide (k = j)) as [->|Hkj].
        -- apply (le_at_ext l _ j i); [by rewrite Hsw, decide_True|by rewrite Hsw, decide_False, decide_True by lia|].
           by apply Less_ge.
        -- apply (le_at_ext l _ j k); [by rewrite Hsw, decide_True|by rewrite Hsw, !decide_False by lia|].
           by apply Hmin.
      * assert (k <> j) by congruence. destruct (decide (k = i)) as [->|Hki].
        -- apply (le_at_ext l _ (parent i) j); [by rewrite Hsw, !decide_False by lia|by rewrite Hsw, decide_True|].
           apply H2; [lia|lia|done].
        -- apply (le_at_ext l _ (parent k) k); [by rewrite Hsw, !decide_False by done..|]. by apply H1.
    + intros k _ Hk Hpk. pose proof (parent_lt k ltac:(lia)). rewrite Hpj.
      apply (le_at_ext l _ j k); [by rewrite Hsw, decide_True|by rewrite Hsw, !decide_False by lia|].
      rewrite <- Hpk. apply H1; [done|lia].
    + exists l'. split_and!; [done|by rewrite Hp, Swap_Permutation|done|].
      intros k Hnk. rewrite Hk by done. rewrite Hsw, !decide_False by lia. done.
  - exists l. split_and!; try done. intros k Hk. destruct (decide (parent k = i)) as [Hpk|Hpk]; [|by apply H1].
    rewrite Hpk. apply (le_at_trans l i j k); [lia| |by apply Hmin]. apply Less_le; [done|lia|lia].
Qed.

(** The first element is least. *)
Lemma heap_root l n k : heap l n -> (k < n <= length l)%nat -> le_at l 0 k.
Proof.
  intros Hh. induction (lt_wf k) as [k _ IH]. intros Hk. destruct (decide (k = 0)%nat) as [->|Hk0].
  - intros a b Ha Hb. assert (a = b) as -> by congruence. destruct (less b b) eqn:E; [|done].
    by rewrite (Hirr _ _ E) in E.
  - pose proof (parent_lt k ltac:(lia)). apply (le_at_trans l 0 (parent k) k); [lia|apply IH; lia|apply Hh; lia].
Qed.

Lemma Pop_spec l :
  l <> [] -> heap l (length l) ->
  exists a l', Pop l = Ok (a, l') /\ a :: l' ≡ₚ l /\ heap l' (length l') /\ forall b, b ∈ l -> less b a = false.
Proof.
  intros Hne Hh. unfold Pop. set (n := (length l - 1)%nat).
  assert (length l = S n) as Hlen by (unfold n; destruct l; cbn in *; [done|lia]).
  destruct (lookup_lt_is_Some_2 l 0) as [a Ha]; [lia|].
  pose proof (fun k => Swap_lookup l 0 n k ltac:(lia) ltac:(lia)) as Hsw.
  assert (Hdown: exists l', down (S n) (Swap l 0 n) 0 n = Ok l' /\ l' ≡ₚ Swap l 0 n /\ heap l' n /\
    forall k, (n <= k)%nat -> l' !! k = Swap l 0 n !! k).
  { destruct (decide (n = 0)%nat) as [Hn0|Hn0].
    - rewrite Hn0. cbn. eexists. split; [done|]. split; [done|]. split; [|done]. intros k Hk. lia.
    - apply down_spec; [rewrite length_Swap; lia|lia|lia| |lia].
      intros k Hk Hp. pose proof (parent_lt k ltac:(lia)).
      apply (le_at_ext l _ (parent k) k); [by rewrite Hsw, !decide_False by lia..|]. apply Hh. lia. }
  destruct Hdown as (l' & Hd & Hp & Hh' & Hk). rewrite Hd, outcome_bind_Ok.
  assert (l' !! n = Some a) as Hl'n.
  { rewrite Hk, Hsw by lia. destruct (decide (n = 0)%nat) as [->|]; [done|]. by rewrite decide_True. }
  rewrite Hl'n. assert (length l' = S n) as Hlen' by (by rewrite (Permutation_length Hp), length_Swap).
  exists a, (take n l'). split; [done|]. split; [|split].
  - rewrite <- (Swap_Permutation l 0 n), <- Hp. rewrite <- (take_drop n l') at 2.
    rewrite (drop_S _ a) by done. rewrite (drop_ge l') by lia. by rewrite Permutation_app_comm.
  - rewrite length_take_le by lia. intros k Hkn. pose proof (parent_lt k ltac:(lia)).
    apply (le_at_ext l' _ (parent k) k); [by rewrite lookup_take_lt by lia..|]. by apply Hh'.
  - intros b (k & Hb)%list_elem_of_lookup. apply lookup_lt_Some in Hb as Hlt.
    exact (heap_root l (length l) k Hh (conj Hlt (le_n _)) a b Ha Hb).
Qed.

(** Of any elements in any order, the operations at least make a rearrangement. *)
Lemma up_any fuel : forall (l : list A) j, (j < fuel)%nat -> exists l', up fuel l j = Ok l' /\ l' ≡ₚ l.
Proof.
  induction fuel as [|fuel IH]; intros l j Hj; [lia|]. cbn [up]. destruct (Nat.eqb_spec (parent j) j) as [|Hne]; [by exists l|].
  destruct (negb _); [by exists l|]. cbn [orb].
  destruct (IH (Swap l (parent j) j) (parent j)) as (l' & Hu & Hp).
  { destruct j as [|j]; [done|]. pose proof (parent_lt (S j)). lia. }
  exists l'. split; [done|]. by rewrite Hp, Swap_Permutation.
Qed.

Lemma Push_any (x : A) l : exists l', Push x l = Ok l' /\ l' ≡ₚ x :: l.
Proof.
  unfold Push. destruct (up_any (length (l ++ [x])) (l ++ [x]) (length (l ++ [x]) - 1)) as (l' & Hu & Hp).
  { rewrite length_app. cbn. lia. }
  exists l'. split; [done|]. by rewrite Hp, Permutation_app_comm.
Qed.

Lemma down_any fuel : forall (l : list A) i n, (n - i < fuel)%nat -> exists l', down fuel l i n = Ok l' /\ l' ≡ₚ l.
Proof.
  induction fuel as [|fuel IH]; intros l i n Hi; [lia|]. cbn [down]. cbv zeta.
  destruct (Nat.leb_spec n (2 * i + 1)); [by exists l|].
  set (j := if _ && _ then _ else _). assert (i < j)%nat as Hj by (unfold j; case_match; lia). destruct (negb _); [by exists l|].
  destruct (IH (Swap l i j) j n) as (l' & Hd & Hp); [lia|]. exists l'. split; [done|]. by rewrite Hp, Swap_Permutation.
Qed.

Lemma Pop_any (l : list A) : l <> [] -> exists x l', Pop l = Ok (x, l') /\ l ≡ₚ x :: l'.
Proof.
  intros Hne. unfold Pop. set (n := (length l - 1)%nat). destruct (down_any (S n) (Swap l 0 n) 0 n) as (l1 & Hd & Hp); [lia|].
  rewrite Hd, outcome_bind_Ok. rewrite Swap_Permutation in Hp. pose proof (Permutation_length Hp) as Hlen.
  assert (length l1 = S n) as Hn by (unfold n; destruct l; cbn in *; [done|lia]).
  destruct (lookup_lt_is_Some_2 l1 n) as [x Hx]; [lia|]. rewrite Hx. exists x, (take n l1). split; [done|].
  rewrite <- Hp. rewrite <- (take_drop n l1) at 1. rewrite (drop_S _ x), (drop_ge l1) by (done || lia).
  by rewrite Permutation_app_comm.
Qed.
End heap.
