(* ===== verification/Compact.v ===== *)
(** * Compact: package internal/compact

    The k-way merge of tables on a heap of the iterators' current entries, the
    choice of its inputs, and the helpers of the package. *)

From Stdlib Require Import ZArith Lia Strings.Byte.
From stdpp Require Import base decidable list strings numbers.
From S2P Require Import Prelude Bloom ByteUtil Os SSTable Heap.
#[local] Open Scope Z_scope.

Definition ErrNoInputs : error := errors_New "compact: no inputs".
Definition ErrInvalid : error := errors_New "compact: invalid argument".

Record Input := mkInput { iPath : string; iLevel : Z }.

Record Result := mkResult {
  OutputPath : string; rMeta : Meta; Removed : list string; KeptTombstones : Z; DroppedObsolete : Z
}.

Record Options := mkOptions { DropTombstones : bool; OutputLevel : Z; oBlockSize : Z }.

(** ** The heap of current entries *)

Record mergeItem := mkItem { idx : nat; key : slice; value : slice; seq : Z; deleted : bool }.

(** The body of [mergeHeap.Less], on the two elements. *)
Definition item_less (a b : mergeItem) : bool :=
  let c := Compare (bs (key a)) (bs (key b)) in
  if negb (c =? 0) then c <? 0
  else if negb (seq a =? seq b) then seq b <? seq a
  else (idx a <? idx b)%nat.

Definition item_of (i : nat) (it : Iterator.Iterator) : mergeItem :=
  mkItem i (Iterator.Key it) (Iterator.Value it) (Iterator.Seq it) (Iterator.Deleted it).

(** ** MergeFiles *)

(** [for _, in := range inputs]: opening the tables; the first failure closes
    those already open. *)
Definition close_reader (r : Reader) : M World Reader := fun w =>
  match Close (r, w) with (_, (r', w')) => (Ok r', w') end.
Fixpoint close_all (rs : list Reader) : M World unit :=
  match rs with [] => mret tt | r :: rs => _ ← close_reader r; close_all rs end.

Fixpoint open_all (readers : list Reader) (inputs : list Input) : M World (list Reader) :=
  match inputs with
  | [] => mret readers
  | i :: inputs =>
      r ← try_ (Open (iPath i));
      match r with
      | inl r => open_all (readers ++ [r]) inputs
      | inr e => close_all readers;; throw e
      end
  end.

(** [defer]: the readers are closed on every way out. *)
Definition closing {A} (readers : list Reader) (m : M World A) : M World A := fun w =>
  match m w with (o, w') => match close_all readers w' with (_, w'') => (o, w'') end end.

(** [for i, r := range readers] *)
Fixpoint start (i : nat) (readers : list Reader) (iters : list Iterator.Iterator) (h : list mergeItem) :
    M World (list Iterator.Iterator * list mergeItem) :=
  match readers with
  | [] => mret (iters, h)
  | r :: readers =>
      it ← Iterator.NewIterator r;
      h ← (if Iterator.Valid it then lift (Push item_less (item_of i it) h) else mret h);
      start (S i) readers (iters ++ [it]) h
  end.

Section merge.
Context {F : Type} `{Float64 F}.

(** [for h.Len() > 0], with the local variables as arguments. *)
Fixpoint merge_loop (fuel : nat) (o : Options) (readers : list Reader) (iters : list Iterator.Iterator)
    (h : list mergeItem) (lastKey : slice) (kept dropped : Z) : M (Writer F * World) (Z * Z) :=
  if len h =? 0 then mret (kept, dropped)
  else
    match fuel with
    | O => lift Stuck
    | S fuel =>
        '(item, h) ← lift (Pop item_less h);
        r ← lift (Prelude.index readers (Z.of_nat (idx item)));
        it ← lift (Prelude.index iters (Z.of_nat (idx item)));
        it ← io (Iterator.Next r it);
        let iters := <[idx item := it]> iters in
        h ← lift (if Iterator.Valid it then Push item_less (item_of (idx item) it) h else Ok h);
        if negb (is_nil lastKey) && Equal (bs (key item)) (bs lastKey)
        then merge_loop fuel o readers iters h lastKey kept (i64 (dropped + 1))
        else
          let lastKey := Clone (key item) in
          if deleted item && DropTombstones o
          then merge_loop fuel o readers iters h lastKey kept (i64 (dropped + 1))
          else
            let e := mkEntry (key item) (value item) (seq item) (deleted item) in
            let kept := if deleted item then i64 (kept + 1) else kept in
            r ← try_ (Add e);
            match r with
            | inr err => _ ← try_ Abort_; throw err
            | inl _ => merge_loop fuel o readers iters h lastKey kept dropped
            end
    end.

Definition merge_fuel (readers : list Reader) : nat :=
  foldr (fun r n => (reader_fuel r + n)%nat) 0%nat readers.

Definition MergeFiles (inputs : list Input) (outPath : string) (opts : option Options) : M World Result :=
  if len inputs =? 0 then throw ErrNoInputs
  else
    let o := default (mkOptions false 0 0) opts in
    readers ← open_all [] inputs;
    closing readers (
      '(iters, h) ← start 0 readers [] [];
      w ← Create outPath (Some (mkWriterOptions (oBlockSize o) 0 (of_int 0)));
      '((meta, kept, dropped), _) ← scoped (
        '(kept, dropped) ← merge_loop (merge_fuel readers) o readers iters h None 0 0;
        meta ← Finish;
        mret (meta, kept, dropped)) w;
      mret (mkResult outPath meta (iPath <$> inputs) kept dropped)).

(** ** Planning *)

Record FileRef := mkFileRef { fPath : string; fName : string; fLevel : Z; fSize : Z }.

Fixpoint plan_loop (files : list FileRef) (out : list Input) : list Input :=
  match files with
  | [] => out
  | f :: files => plan_loop files (if fLevel f =? 0 then out ++ [mkInput (fPath f) 0] else out)
  end.
Definition PlanLevel0 (files : list FileRef) (threshold : Z) : list Input :=
  let threshold := if threshold <=? 0 then 4 else threshold in
  let out := plan_loop files [] in
  if len out <? threshold then [] else out.

(** [allocName] is a callback on a state of its own next to the world. *)
Definition CompactDir {T} (dir : string) (files : list FileRef) (allocName : M (T * World) string)
    (opts : option Options) : M (T * World) Result :=
  let inputs := PlanLevel0 files 2 in
  inputs ← (if len inputs =? 0 then
              match files with
              | f0 :: f1 :: _ => mret [mkInput (fPath f0) (fLevel f0); mkInput (fPath f1) (fLevel f1)]
              | _ => throw ErrNoInputs
              end
            else mret inputs);
  name ← allocName;
  let outPath := filepath_Join dir name in
  let on_world {A} (m : M World A) : M (T * World) A := zoom snd (fun w s => (fst s, w)) m in
  res ← try_ (on_world (MergeFiles inputs outPath opts));
  match res with
  | inr e => _ ← try_ (on_world (Remove outPath)); throw e
  | inl res => mret res
  end.
End merge.

(** [for i := 1; i < len(entries); i++] *)
Fixpoint sorted_loop (prev : Entry) (rest : list Entry) : outcome unit :=
  match rest with
  | [] => Ok tt
  | e :: rest =>
      if 0 <? Compare (bs (Key prev)) (bs (Key e)) then Err (fmt_Errorf "compact: not sorted at %d")
      else sorted_loop e rest
  end.
Definition ValidateSorted (entries : list Entry) : outcome unit :=
  match entries with [] => Ok tt | e :: rest => sorted_loop e rest end.

(** The two loops of PickBySize: [k] iterations are left. *)
Fixpoint pick_inner (k i j : nat) (cp : list FileRef) : outcome (list FileRef) :=
  match k with
  | O => Ok cp
  | S k =>
      a ← Prelude.index cp (Z.of_nat j);
      b ← Prelude.index cp (Z.of_nat i);
      pick_inner k i (S j) (if fSize a <? fSize b then <[i := a]> (<[j := b]> cp) else cp)
  end.
Fixpoint pick_outer (k i : nat) (cp : list FileRef) : outcome (list FileRef) :=
  match k with
  | O => Ok cp
  | S k => cp ← pick_inner (length cp - S i) i (S i) cp; pick_outer k (S i) cp
  end.
Definition PickBySize (files : list FileRef) (n : Z) : outcome (list FileRef) :=
  if (n <=? 0) || (len files =? 0) then Ok []
  else
    cp ← pick_outer (length files) 0 files;
    let n := if len cp <? n then len cp else n in
    subslice cp 0 n.
