(* ===== verification/TableEnds.v ===== *)
(** * TableEnds: tables that come to an end

    Iterating over tables, merging them and writing new ones returns for every
    file, however corrupt, and whichever calls fail.  Each step of an iterator
    takes bytes off its blocks ([left]), and the fuel of the loops counts these
    bytes. *)

From Stdlib Require Import ZArith Lia Strings.Byte.
From stdpp Require Import base decidable list strings numbers.
From S2P Require Import Prelude Varint Bloom ByteUtil Os SSTable SSTableProps Heap Compact.
Import stdpp.list_basics stdpp.list_relations.
#[local] Open Scope Z_scope.

(** ** Iterators *)

(** The bytes of the blocks from number [i] on. *)
Definition blocks_left (r : Reader) (i : Z) : Z :=
  foldr (fun rec n => Z.of_nat (Z.to_nat (length_ rec)) + n) 0 (drop (Z.to_nat i) (rindex r)).

(** The bytes an iterator has not read. *)
Definition left (r : Reader) (it : Iterator.Iterator) : Z :=
  match Iterator.blockIt it with
  | Some b => Z.max 0 (len (blockIter.data b) - blockIter.off b)
  | None => 0
  end + blocks_left r (Iterator.bi it + 1).

Definition block_ok (b : option blockIter.blockIter) : Prop :=
  match b with Some b => len (blockIter.data b) <= 2 ^ 48 /\ 0 <= blockIter.off b | None => True end.
Definition iter_ok (it : Iterator.Iterator) : Prop := -1 <= Iterator.bi it /\ block_ok (Iterator.blockIt it).

Lemma blocks_left_nonneg r i : 0 <= blocks_left r i.
Proof. unfold blocks_left. induction (drop _ _); cbn; lia. Qed.

Lemma blocks_left_all r : blocks_left r 0 = Z.of_nat (reader_fuel r).
Proof.
  unfold blocks_left, reader_fuel. change (Z.to_nat 0) with 0%nat. rewrite drop_0.
  induction (rindex r) as [|rec l IH]; cbn; [done|]. rewrite IH. lia.
Qed.

Lemma blocks_left_next r i rec : 0 <= i -> rindex r !! Z.to_nat i = Some rec ->
  blocks_left r i = Z.of_nat (Z.to_nat (length_ rec)) + blocks_left r (i + 1).
Proof. intros Hi Hrec. unfold blocks_left. rewrite (drop_S _ _ _ Hrec). cbn [foldr]. by rewrite Z2Nat.inj_add, Nat.add_1_r by lia. Qed.

Lemma left_nonneg r it : 0 <= left r it.
Proof. unfold left. pose proof (blocks_left_nonneg r (Iterator.bi it + 1)). case_match; lia. Qed.

(** A block holds less than its record says, and its first entry takes some. *)
Lemma readBlock_record r rec w b w' : readBlock r rec w = (Ok b, w') -> len b <= length_ rec /\ len b <= 2 ^ 48.
Proof.
  intros H. split; [|by eapply readBlock_len]. revert H.
  unfold readBlock. unfold mbind at 1, M_bind at 1, lift at 1, make_check. case_decide as Hd; [|done].
  destruct (rf r) as [f|]; [|done]. unfold mbind at 1, M_bind at 1.
  destruct (File_ReadAt f (length_ rec) (i64 (offset rec)) w) as [[buf| | |] w1] eqn:Er; try done.
  apply ReadAt_len in Er; [|lia]. case_match; [done|]. unfold mbind, M_bind, lift, uint_at, subslice. rewrite !decide_True by lia.
  cbn. case_match; [done|]. intros [= <- _]. rewrite length_take. lia.
Qed.

Lemma newBlockIter_ok b it : len b <= 2 ^ 48 -> blockIter.newBlockIter b = Ok it ->
  block_ok (Some it) /\ (blockIter.valid it = true -> 0 <= len (blockIter.data it) - blockIter.off it < len b).
Proof.
  intros Hb. unfold blockIter.newBlockIter, blockIter.parseRestarts. intros Hn. apply bind_Ok_inv in Hn as ([d rs] & Hp & Hn).
  revert Hp. case_match; [done|]. intros (n & _ & Hp)%bind_Ok_inv. case_match; [done|].
  apply bind_Ok_inv in Hp as (d' & Hd & Hp). apply bind_Ok_inv in Hp as (rs' & _ & [= <- <-]).
  unfold subslice in Hd. case_decide; [|done]. injection Hd as Hd. assert (len d' <= len b) as Hl.
  { rewrite <- Hd, length_take, length_drop. lia. }
  apply Next_progress in Hn as (Hd' & _ & Hv & Ho); cbn; [|lia..]. cbn in Hd', Hv.
  split; [split; [rewrite Hd'; lia|done]|]. intros Hval. specialize (Hv Hval). rewrite Hd'. lia.
Qed.

(** From block number [bi it] on: the iterator ends up on an entry of one of
    these blocks. *)
Lemma next_block_left r fuel : forall it w it' w',
  0 <= Iterator.bi it -> block_ok (Iterator.blockIt it) -> Iterator.next_block fuel r it w = (Ok it', w') ->
  iter_ok it' /\ (Iterator.Valid it' = true -> left r it' < blocks_left r (Iterator.bi it)).
Proof.
  induction fuel as [|fuel IH]; intros it w it' w' Hb Hok; cbn [Iterator.next_block];
    (destruct (rindex r !! Z.to_nat (Iterator.bi it)) as [rec|] eqn:Hrec; [|intros [= <- _]; split; [split; [cbn; lia|done]|done]]); [done|].
  unfold mbind, M_bind, try_. destruct (readBlock r rec w) as [[block|e|q|] w1] eqn:Er; try done.
  2: { intros [= <- _]. split; [split; [cbn; lia|apply Hok]|done]. }
  apply readBlock_record in Er as [Hl H48]. destruct (blockIter.newBlockIter block) as [b|e|q|] eqn:En; try done.
  2: { intros [= <- _]. split; [split; [cbn; lia|apply Hok]|done]. }
  apply newBlockIter_ok in En as [Hbo Hbv]; [|done]. pose proof (blocks_left_next r (Iterator.bi it) rec Hb Hrec) as Hleft.
  destruct (blockIter.valid b) eqn:Hv.
  - intros [= <- _]. split; [split; [cbn; lia|done]|]. intros _. unfold left. cbn. specialize (Hbv eq_refl). lia.
  - intros Hn. apply IH in Hn as [Hok' Hlt]; [|cbn; lia|done]. split; [done|]. intros Hval. specialize (Hlt Hval).
    cbn [Iterator.bi] in Hlt. lia.
Qed.

(** Each step takes something off. *)
Lemma Next_left r it w it' w' :
  iter_ok it -> Iterator.Next r it w = (Ok it', w') -> iter_ok it' /\ (Iterator.Valid it' = true -> left r it' < left r it).
Proof.
  intros [Hb Hok]. unfold Iterator.Next. destruct (Iterator.err it) eqn:He.
  { intros [= <- _]. split; [by split|]. unfold Iterator.Valid. by rewrite He. }
  assert (Hnb: forall b, block_ok b ->
    Iterator.next_block (length (rindex r)) r (Iterator.mkIterator (Iterator.bi it + 1) b None) w = (Ok it', w') ->
    iter_ok it' /\ (Iterator.Valid it' = true -> left r it' < left r it)).
  { intros b Hbo H. apply next_block_left in H as [Hok' Hlt]; [|cbn; lia|done]. split; [done|].
    intros Hval. specialize (Hlt Hval). cbn [Iterator.bi] in Hlt. unfold left at 2. case_match; lia. }
  unfold mbind, M_bind, lift, mret, M_ret. destruct (Iterator.blockIt it) as [b|] eqn:Hbi; [|by apply Hnb].
  destruct (blockIter.Next b) as [b'| | |] eqn:En; try done. destruct Hok as [H48 Ho].
  apply Next_progress in En as (Hd & _ & Hp & Ho'); [|done..].
  assert (block_ok (Some b')) as Hbo' by (split; [by rewrite Hd|done]).
  destruct (blockIter.valid b') eqn:Hv; [|by apply Hnb].
  intros [= <- _]. split; [by split|]. intros _. unfold left. cbn. rewrite Hd, Hbi. specialize (Hp eq_refl). lia.
Qed.

Lemma start_ok : iter_ok (Iterator.mkIterator (-1) None None).
Proof. by split. Qed.
Lemma start_left r : left r (Iterator.mkIterator (-1) None None) = Z.of_nat (reader_fuel r).
Proof. unfold left. cbn. apply blocks_left_all. Qed.

Lemma Next_ends_ok r it w : iter_ok it -> ends (fst (Iterator.Next r it w)).
Proof. intros [Hb _]. by apply Iterator_Next_ends. Qed.

(** ** Merging *)

Section merge.
Context {F : Type} `{Float64 F}.

(** What the heap's items have before them. *)
Definition pending (readers : list Reader) (iters : list Iterator.Iterator) (h : list mergeItem) : Z :=
  foldr (fun x n => match readers !! Compact.idx x, iters !! Compact.idx x with
    | Some r, Some it => left r it + 1 + n | _, _ => n end) 0 h.

Lemma pending_Permutation readers iters h h' : h ≡ₚ h' -> pending readers iters h = pending readers iters h'.
Proof.
  induction 1 as [|x l l' _ IH|x y l|l1 l2 l3 _ IH1 _ IH2]; unfold pending in *; cbn [foldr]; [done| | |lia].
  - rewrite IH. done.
  - destruct (readers !! idx x), (iters !! idx x), (readers !! idx y), (iters !! idx y); lia.
Qed.

Lemma pending_nonneg readers iters h : 0 <= pending readers iters h.
Proof.
  induction h as [|x h IH]; [done|]. unfold pending in *. cbn [foldr]. destruct (readers !! idx x) as [r|]; [|done].
  destruct (iters !! idx x) as [it|]; [|done]. pose proof (left_nonneg r it). lia.
Qed.

(** Moving the iterator of an item that is not in the heap. *)
Lemma pending_move readers iters h i it : i ∉ idx <$> h -> pending readers (<[i := it]> iters) h = pending readers iters h.
Proof.
  induction h as [|x h IH]; [done|]. rewrite fmap_cons. intros [Hx Hh]%not_elem_of_cons. unfold pending in *. cbn [foldr].
  rewrite IH by done. by rewrite list_lookup_insert_ne.
Qed.

Record merging (readers : list Reader) (iters : list Iterator.Iterator) (h : list mergeItem) : Prop := {
  mg_iters : Forall iter_ok iters;
  mg_nodup : NoDup (idx <$> h);
  mg_item x : x ∈ h -> exists r it, readers !! idx x = Some r /\ iters !! idx x = Some it
}.

Lemma pending_cons readers iters x h r it : readers !! idx x = Some r -> iters !! idx x = Some it ->
  pending readers iters (x :: h) = left r it + 1 + pending readers iters h.
Proof. intros Hr Hit. unfold pending. cbn [foldr]. by rewrite Hr, Hit. Qed.

Lemma merging_Permutation readers iters h h' : h ≡ₚ h' -> merging readers iters h -> merging readers iters h'.
Proof. intros Hp [Hok Hnd Hin]. split; [done|by rewrite <- Hp|]. intros x. rewrite <- Hp. apply Hin. Qed.

Lemma Abort_ends : always_ends (SSTable.Abort_ (F := F)).
Proof. unfold SSTable.Abort_, get_w, upd_w, SSTable.io. m_ends. Qed.
Lemma flushBlock_ends : always_ends (SSTable.flushBlock (F := F)).
Proof. unfold SSTable.flushBlock, get_w, upd_w, SSTable.io. m_ends. Qed.
Lemma encode_entry_ends s e : ends (encode_entry s e).
Proof. unfold encode_entry. ends_tac. Qed.
Hint Resolve Abort_ends flushBlock_ends encode_entry_ends : ends.
Lemma Add_ends e : always_ends (SSTable.Add (F := F) e).
Proof. unfold SSTable.Add, get_w, upd_w. m_ends. Qed.
Hint Resolve Add_ends : ends.

(** The popped item's iterator moves on, and its next entry enters the heap. *)
Lemma advance readers iters h x r it it' :
  merging readers iters (x :: h) -> readers !! idx x = Some r -> iters !! idx x = Some it ->
  iter_ok it' -> (Iterator.Valid it' = true -> left r it' < left r it) ->
  exists h', (if Iterator.Valid it' then Push item_less (item_of (idx x) it') h else Ok h) = Ok h' /\
    merging readers (<[idx x := it']> iters) h' /\ pending readers (<[idx x := it']> iters) h' < pending readers iters (x :: h).
Proof.
  intros [Hok Hnd Hin] Hr Hit Hok' Hlt. rewrite fmap_cons in Hnd. apply NoDup_cons in Hnd as [Hx Hnd].
  assert (Forall iter_ok (<[idx x := it']> iters)) as Hall by by apply Forall_insert.
  assert (<[idx x := it']> iters !! idx x = Some it') as Hnew by (apply list_lookup_insert_eq; by eapply lookup_lt_Some).
  assert (merging readers (<[idx x := it']> iters) h) as Hmg.
  { split; [done..|]. intros y Hy. destruct (Hin y) as (r0 & it0 & H1 & H2); [by right|]. exists r0.
    destruct (decide (idx x = idx y)) as [Heq|Hne]; [exists it'; by rewrite <- Heq in H1 |- *|]. exists it0. by rewrite list_lookup_insert_ne. }
  rewrite (pending_cons _ _ _ _ _ _ Hr Hit). pose proof (left_nonneg r it). destruct (Iterator.Valid it').
  - destruct (Push_any item_less (item_of (idx x) it') h) as (h' & Hpush & Hp). exists h'. split; [done|]. split.
    + apply (merging_Permutation _ _ _ _ (symmetry Hp)). destruct Hmg as [_ _ Hmg]. split; [done|rewrite fmap_cons; by apply NoDup_cons|].
      intros y [->|Hy]%elem_of_cons; [by exists r, it'|by apply Hmg].
    + rewrite (pending_Permutation _ _ _ _ Hp), (pending_cons _ _ _ _ r it'), pending_move by done. specialize (Hlt eq_refl). lia.
  - exists h. split; [done|]. split; [done|]. rewrite pending_move by done. lia.
Qed.

Lemma merge_loop_ends fuel o readers : forall iters h lk kept dropped,
  merging readers iters h -> pending readers iters h <= Z.of_nat fuel ->
  always_ends (merge_loop (F := F) fuel o readers iters h lk kept dropped).
Proof.
  induction fuel as [|fuel IH]; intros iters h lk kept dropped Hmg Hf; cbn [merge_loop];
    (destruct (Z.eqb_spec (len h) 0) as [Hz|Hz]; [m_ends|]).
  { exfalso. destruct h as [|x h]; [done|]. destruct (mg_item _ _ _ Hmg x) as (r & it & Hr & Hit); [by left|].
    rewrite (pending_cons _ _ _ _ _ _ Hr Hit) in Hf. pose proof (left_nonneg r it). pose proof (pending_nonneg readers iters h). lia. }
  destruct (Pop_any item_less h) as (x & h1 & Hpop & Hp); [by intros ->|].
  apply (merging_Permutation _ _ _ _ Hp) in Hmg. rewrite (pending_Permutation _ _ _ _ Hp) in Hf.
  rewrite Hpop. apply lift_bind_ends; [done|]. intros a [= <-]. cbv beta iota.
  destruct (mg_item _ _ _ Hmg x) as (r & it & Hr & Hit); [by left|].
  rewrite (proj2 (index_lookup readers _ r)) by (split; [lia|by rewrite Nat2Z.id]). apply lift_bind_ends; [done|]. intros a [= <-].
  rewrite (proj2 (index_lookup iters _ it)) by (split; [lia|by rewrite Nat2Z.id]). apply lift_bind_ends; [done|]. intros a [= <-].
  assert (iter_ok it) as Hito by (pose proof (mg_iters _ _ _ Hmg) as Hok; rewrite Forall_lookup in Hok; by apply (Hok (idx x))).
  intros s. apply mbind_ends_at.
  { unfold SSTable.io, zoom. pose proof (Next_ends_ok r it (snd s) Hito) as He. by destruct (Iterator.Next r it (snd s)). }
  intros it' s' Hn. unfold SSTable.io, zoom in Hn. destruct (Iterator.Next r it (snd s)) as [o1 w1] eqn:En. injection Hn as -> <-.
  apply Next_left in En as [Hok' Hlt]; [|done]. cbv zeta.
  destruct (advance readers iters h1 x r it it' Hmg Hr Hit Hok' Hlt) as (h2 & -> & Hmg2 & Hp2).
  assert (Hrec: forall lk kept dropped, always_ends (merge_loop (F := F) fuel o readers (<[idx x := it']> iters) h2 lk kept dropped)).
  { intros. apply IH; [done|lia]. }
  apply lift_bind_ends; [done|]. intros a [= <-]. destruct (_ && _); [apply Hrec|]. destruct (_ && _); [apply Hrec|].
  apply mbind_ends; [m_ends|]. intros [?|e]; [apply Hrec|m_ends].
Qed.

Lemma NewIterator_ok r w it w' : Iterator.NewIterator r w = (Ok it, w') ->
  iter_ok it /\ (Iterator.Valid it = true -> left r it < Z.of_nat (reader_fuel r)).
Proof. intros Hi. apply Next_left in Hi; [|apply start_ok]. by rewrite start_left in Hi. Qed.

(** The iterators at their first entries. *)
Lemma merge_fuel_app rs rs' : merge_fuel (rs ++ rs') = (merge_fuel rs + merge_fuel rs')%nat.
Proof. unfold merge_fuel. induction rs as [|r rs IH]; cbn; [done|]. rewrite IH. lia. Qed.

Record starting (rs : list Reader) (iters : list Iterator.Iterator) (h : list mergeItem) : Prop := {
  st_merging : merging rs iters h;
  st_length : length iters = length rs;
  st_pending : pending rs iters h <= Z.of_nat (merge_fuel rs)
}.

Lemma item_lt rs iters h x : merging rs iters h -> x ∈ h -> (idx x < length rs)%nat.
Proof. intros Hmg Hx. destruct (mg_item _ _ _ Hmg x Hx) as (r & it & Hr & _). by eapply lookup_lt_Some. Qed.

(** One more table. *)
Lemma starting_more rs iters h r it : starting rs iters h -> iter_ok it ->
  starting (rs ++ [r]) (iters ++ [it]) h /\ pending (rs ++ [r]) (iters ++ [it]) h = pending rs iters h.
Proof.
  intros [Hmg Hl Hp] Hok. assert (pending (rs ++ [r]) (iters ++ [it]) h = pending rs iters h) as Hpe.
  { pose proof (item_lt rs iters h) as Hlt. destruct Hmg as [_ _ Hin]. unfold pending. clear -Hin Hl.
    induction h as [|x h IH]; cbn [foldr]; [done|]. destruct (Hin x) as (r0 & it0 & H1 & H2); [by left|].
    rewrite IH by (intros y Hy; apply Hin; by right). by rewrite (lookup_app_l_Some _ _ _ _ H1), (lookup_app_l_Some _ _ _ _ H2), H1, H2. }
  split; [|done]. split; [|rewrite !length_app, Hl; done|rewrite Hpe, merge_fuel_app; lia]. destruct Hmg as [Hf Hnd Hin]. split; [|done|].
  - apply Forall_app. split; [done|by apply Forall_singleton].
  - intros x Hx. destruct (Hin x Hx) as (r0 & it0 & H1 & H2). exists r0, it0. split; by apply lookup_app_l_Some.
Qed.

Lemma starting_push rs iters h r it : starting rs iters h -> iter_ok it -> (Iterator.Valid it = true -> left r it < Z.of_nat (reader_fuel r)) ->
  exists h', (if Iterator.Valid it then Push item_less (item_of (length rs) it) h else Ok h) = Ok h' /\
    starting (rs ++ [r]) (iters ++ [it]) h'.
Proof.
  intros Hs Hok Hlt. destruct (starting_more rs iters h r it Hs Hok) as [Hs' Hpe]. destruct (Iterator.Valid it); [|by exists h].
  destruct (Push_any item_less (item_of (length rs) it) h) as (h' & Hpush & Hp). exists h'. split; [done|].
  destruct Hs' as [Hmg Hl _]. assert ((rs ++ [r]) !! length rs = Some r /\ (iters ++ [it]) !! length rs = Some it) as [Hr Hit].
  { split; [by apply list_lookup_middle|]. destruct Hs as [_ <- _]. by apply list_lookup_middle. }
  split; [|done|].
  - apply (merging_Permutation _ _ _ _ (symmetry Hp)). destruct Hmg as [Hf Hnd Hin]. split; [done| |].
    + rewrite fmap_cons. apply NoDup_cons. split; [|done]. intros (y & Hy & Hin')%list_elem_of_fmap.
      apply (item_lt rs iters h y (st_merging _ _ _ Hs)) in Hin'. cbn in Hy. lia.
    + intros y [->|Hy]%elem_of_cons; [by exists r, it|by apply Hin].
  - rewrite (pending_Permutation _ _ _ _ Hp), (pending_cons _ _ _ _ r it), Hpe, merge_fuel_app by done.
    specialize (Hlt eq_refl). destruct Hs as [_ _ Hpend]. cbn [merge_fuel foldr]. lia.
Qed.

Lemma start_ends readers : forall rs iters h w, starting rs iters h ->
  ends (fst (start (length rs) readers iters h w)) /\
  forall iters' h' w', start (length rs) readers iters h w = (Ok (iters', h'), w') -> starting (rs ++ readers) iters' h'.
Proof.
  induction readers as [|r readers IH]; intros rs iters h w Hs; cbn [start].
  { split; [done|]. intros iters' h' w' [= <- <- _]. by rewrite app_nil_r. }
  unfold mbind, M_bind. pose proof (Next_ends_ok r _ w start_ok) as He. fold (Iterator.NewIterator r w) in He.
  destruct (Iterator.NewIterator r w) as [[it|e|q|] w1] eqn:Ei; [|done..]. apply NewIterator_ok in Ei as [Hok Hv].
  destruct (starting_push rs iters h r it Hs Hok Hv) as (h' & Hpush & Hs').
  assert ((if Iterator.Valid it then lift (Push item_less (item_of (length rs) it) h) else mret h) w1 = (Ok h', w1)) as ->.
  { destruct (Iterator.Valid it); [unfold lift; by rewrite Hpush|by injection Hpush as ->]. }
  replace (S (length rs)) with (length (rs ++ [r])) by (rewrite length_app; cbn; lia).
  destruct (IH (rs ++ [r]) (iters ++ [it]) h' w1 Hs') as [H1 H2]. rewrite <- app_assoc in H2. by split.
Qed.

Lemma close_all_ends rs : always_ends (close_all rs).
Proof.
  induction rs as [|r rs IH]; cbn [close_all]; [m_ends|]. apply mbind_ends; [|done]. intros w. unfold close_reader.
  by destruct (Close (r, w)) as [o [r' w']].
Qed.
Hint Resolve close_all_ends : ends.

Lemma uint_at_ends b i j : ends (uint_at b i j).
Proof. unfold uint_at. ends_tac. Qed.
Lemma UnmarshalBinary_ends b : ends (UnmarshalBinary b).
Proof. unfold UnmarshalBinary. ends_tac. Qed.
Lemma parse_index_ends b : ends (parse_index b).
Proof.
  unfold parse_index. apply ends_bind; [ends_tac|]. intros [n o]. apply ends_bind; [ends_tac|]. intros [].
  apply ends_bind; [|ends_tac]. rewrite loop_loop_nat. apply ends_loop_nat. intros [off index]. unfold index_entry. ends_tac.
Qed.
Lemma or_close_ends {A} f (m : M World A) : always_ends m -> always_ends (or_close f m).
Proof. intros Hm. unfold or_close, fail_closing. m_ends. Qed.
Lemma fail_closing_ends {A} f e : always_ends (fail_closing (A := A) f e).
Proof. unfold fail_closing. m_ends. Qed.
Hint Resolve uint_at_ends UnmarshalBinary_ends parse_index_ends or_close_ends fail_closing_ends : ends.

Lemma table_Open_ends p : always_ends (SSTable.Open p).
Proof. unfold SSTable.Open, Os.Open. m_ends. Qed.
Hint Resolve table_Open_ends : ends.

Lemma open_all_ends inputs : forall rs, always_ends (open_all rs inputs).
Proof. induction inputs as [|i inputs IH]; intros rs; cbn [open_all]; m_ends. Qed.
Hint Resolve open_all_ends : ends.

Lemma Create_ends p o : always_ends (SSTable.Create (F := F) p o).
Proof. unfold SSTable.Create. m_ends. Qed.
Lemma add_loop_ends n h1 h2 : forall i f, ends (add_loop n i h1 h2 f).
Proof. induction n as [|n IH]; intros i f; cbn [add_loop]; [done|]. apply ends_bind; [unfold setBit, set_index; ends_tac|done]. Qed.
Hint Resolve add_loop_ends : ends.
Lemma bloom_Add_ends key f : ends (Bloom.Add key f).
Proof. unfold Bloom.Add. ends_tac. Qed.
Lemma bloom_add_all_ends ks : forall f, ends (Builder.add_all ks f).
Proof. induction ks as [|k ks IH]; intros f; cbn [Builder.add_all]; [done|]. apply ends_bind; [apply bloom_Add_ends|done]. Qed.
Hint Resolve bloom_add_all_ends : ends.
Lemma Build_ends b : ends (Builder.Build b).
Proof. unfold Builder.Build, New. ends_tac. Qed.
Lemma MarshalBinary_ends f : ends (MarshalBinary f).
Proof. unfold MarshalBinary. ends_tac. Qed.
Hint Resolve Create_ends Build_ends MarshalBinary_ends flushBlock_ends : ends.
Lemma Finish_ends : always_ends (SSTable.Finish (F := F)).
Proof. unfold SSTable.Finish, get_w, upd_w, SSTable.io. m_ends. Qed.
Hint Resolve Finish_ends Abort_ends Add_ends : ends.
Lemma add_all_ends es : always_ends (add_all (F := F) es).
Proof. induction es as [|e es IH]; cbn [add_all]; m_ends. Qed.
Lemma scoped_ends {L S A} (m : M (L * S) A) l : always_ends m -> always_ends (scoped m l).
Proof. intros Hm s. specialize (Hm (l, s)). unfold scoped. by destruct (m (l, s)) as [[a|e|q|] [l' s']]. Qed.
Hint Resolve add_all_ends scoped_ends : ends.

(** Writing a table ends. *)
Lemma table_WriteFile_ends p es o : always_ends (SSTable.WriteFile (F := F) p es o).
Proof. unfold SSTable.WriteFile. apply mbind_ends; [m_ends|]. intros w. apply mbind_ends; [apply scoped_ends|]; m_ends. Qed.

Lemma closing_ends {A} rs (m : M World A) w : ends (fst (m w)) -> ends (fst (closing rs m w)).
Proof.
  intros Hm. unfold closing. destruct (m w) as [o' w1]. pose proof (close_all_ends rs w1). by destruct (close_all rs w1).
Qed.

(** Merging tables ends. *)
Lemma MergeFiles_ends inputs p o : always_ends (MergeFiles (F := F) inputs p o).
Proof.
  unfold MergeFiles. case_match; [m_ends|]. cbv zeta. apply mbind_ends; [m_ends|]. intros readers w.
  assert (starting [] [] []) as Hs0 by (split; [split; [done|constructor|intros x Hx; by apply elem_of_nil in Hx]|done|done]).
  apply closing_ends. destruct (start_ends readers [] [] [] w Hs0) as [H1 H2].
  apply mbind_ends_at; [done|]. intros [iters h] w1 Hst. apply H2 in Hst as [Hmg _ Hp].
  revert w1. apply mbind_ends; [m_ends|]. intros wr. apply mbind_ends; [|m_ends]. apply scoped_ends.
  apply mbind_ends; [by apply merge_loop_ends|]. m_ends.
Qed.
Hint Resolve MergeFiles_ends : ends.

Lemma CompactDir_ends {T} d files (alloc : M (T * World) string) o : always_ends alloc -> always_ends (CompactDir (F := F) d files alloc o).
Proof. intros Ha. unfold CompactDir. m_ends. Qed.
End merge.
