(* ===== verification/SSTableSpec.v ===== *)
(** * SSTableSpec: what the clients of internal/sstable rely on

    The contents of a table file as a list of entries, and an interface
    ([TableAccess]) with the laws of open tables and iterators, which the
    sstable model implements. *)

From Stdlib Require Import ZArith Lia Strings.Byte.
From stdpp Require Import base decidable list gmap strings numbers sorting.
From S2P Require Import Prelude Bloom ByteUtil Os SSTable SSTableFacts SSTableWriter.
#[local] Open Scope Z_scope.

(** ** Files *)

(** The bytes [c] are those of a table with entries [es]. *)
Definition table_file (c : list byte) (es : list Entry) : Prop :=
  exists ri blocks bf, (0 < ri)%nat /\ c = table_bytes ri blocks bf /\ Forall (block_ok ri) blocks /\
    es = stored <$> concat blocks /\ fits (concat blocks) /\ StronglySorted blt (ekey <$> es) /\
    shaped bf /\ m bf <= 2 ^ 50 /\
    forall key, key ∈ ekey <$> es -> Bloom.MayContain (Some bf) key = Ok true.

(** The file at [path] is such a table. *)
Definition holds (w : World) (path : string) (es : list Entry) : Prop :=
  exists i c, names w !! path = Some i /\ inodes w !! i = Some c /\ table_file c es.

Lemma ekey_stored (es : list Entry) : ekey <$> (stored <$> es) = ekey <$> es.
Proof. rewrite <- list_fmap_compose. by apply list_fmap_ext. Qed.

Lemma lookup_stored key es : lookup_entry key (stored <$> es) = stored <$> lookup_entry key es.
Proof.
  unfold lookup_entry. induction es as [|e es IH]; [done|]. cbn [fmap list_fmap List.find].
  change (ekey (stored e)) with (ekey e). by case_bool_decide.
Qed.

Lemma tsize_stored (es : list Entry) : tsize (stored <$> es) = tsize es.
Proof. induction es as [|e es IH]; [done|]. cbn. fold (tsize es). by rewrite <- IH. Qed.

Lemma fits_stored es : fits es -> fits (stored <$> es).
Proof.
  intros [Hok He Hs]. split; [| |by rewrite tsize_stored].
  - rewrite Forall_fmap. eapply Forall_impl; [exact Hok|]. by intros e.
  - rewrite Forall_fmap. eapply Forall_impl; [exact He|]. by intros e.
Qed.

Lemma stored_idem e : stored (stored e) = stored e.
Proof. done. Qed.

Lemma table_file_fits c es : table_file c es -> fits es /\ StronglySorted blt (ekey <$> es) /\ stored <$> es = es.
Proof.
  intros (ri & blocks & bf & _ & _ & _ & -> & Hf & Hs & _). split_and!; [by apply fits_stored|done|].
  by rewrite <- list_fmap_compose.
Qed.

(** Files stay what they are when only new inodes are written. *)
Lemma holds_preserved w w' path path' es i :
  holds w path es -> path <> path' -> names w' = <[path' := i]> (names w) -> preserves i w w' ->
  (length (inodes w) <= i)%nat -> holds w' path es.
Proof.
  intros (j & c & Hj & Hc & Ht) Hne Hn [P1 _] Hi. exists j, c. rewrite Hn, lookup_insert_ne by done.
  split_and!; [done| |done]. apply P1; [|done]. apply lookup_lt_Some in Hc. lia.
Qed.

Lemma table_bytes_size ri blocks bf :
  (0 < ri)%nat -> Forall (block_ok ri) blocks -> fits (concat blocks) -> shaped bf -> m bf <= 2 ^ 50 ->
  len (table_bytes ri blocks bf) < 2 ^ 62.
Proof.
  intros Hri Hblk Hfit Hshape Hbm.
  assert (Hne: Forall (fun es => es <> []) blocks) by (eapply Forall_impl; [exact Hblk|by intros es [? _]]).
  destruct (index_image_size ri Hri blocks Hne Hfit) as [_ Hil].
  pose proof (images_size ri Hri blocks Hne (fit_ok _ Hfit) (fit_size _ Hfit)) as Him.
  pose proof (fit_size _ Hfit) as Hts. destruct Hshape as (Hm & Hm7 & Hk & Hna & Hbl & Hb48).
  unfold table_bytes. set (ft := table_footer ri blocks bf). assert (len ft = 56) as Hft by done. clearbody ft.
  unfold index_image, bloom_bytes. rewrite !length_app, length_le_bytes, length_header.
  assert (len (bits bf) <= 2 ^ 48) as Hfb by (rewrite Hbl; clear - Hbm Hm; divlia).
  lia.
Qed.

Lemma WriteFile_holds {F} `{Float64 F} path es (o : option (WriterOptions F)) w :
  calm w -> names_ok w -> writable o es -> names w !! path = None ->
  exists w' n,
    WriteFile path es o w = (Ok (mkMeta path (head es ≫= Key) (last_key None es) (max_seq es) (len es) n), w') /\
    holds w' path (stored <$> es) /\ calm w' /\ names_ok w' /\
    names w' = <[path := length (inodes w)]> (names w) /\ preserves (length (inodes w)) w w' /\ 0 <= n < 2 ^ 62.
Proof.
  intros Hc Hn Hw Hp. destruct (WriteFile_spec path es o w Hc Hn Hw) as
    (blocks & bf & i & w' & Hrun & Hes & Hblk & Hsh & Hm & Hmay & Hc' & Hn' & Hok' & Hi & [Hold|Hnew] & Hpr).
  { by rewrite Hp in Hold. }
  subst i. eexists w', _. split; [exact Hrun|]. destruct Hw as [Hs Hf _ _]. split_and!; try done; [|lia|].
  2: { apply table_bytes_size; [apply interval_pos|done|by rewrite Hes|done|done]. }
  eexists _, _. rewrite Hn', lookup_insert_eq. split_and!; [done|exact Hi|].
  exists (interval o), blocks, bf. rewrite ekey_stored, Hes.
  split_and!; try done. apply interval_pos.
Qed.

(** ** The interface *)

(** [w'] leaves the open file of [r] as it was in [w]. *)
Definition keeps (r : Reader) (w w' : World) : Prop :=
  calm w' /\ forall f d c, rf r = Some f -> fds w !! f = Some d -> inodes w !! ino d = Some c ->
    fds w' !! f = Some d /\ inodes w' !! ino d = Some c.

(** [opened r w es]: [r] is an open table with entries [es]; [reading r w rest it]:
    the iterator [it] of [r] has [rest] still to yield. *)
Class TableAccess := {
  opened : Reader -> World -> list Entry -> Prop;
  reading : Reader -> World -> list Entry -> Iterator.Iterator -> Prop;
  access_Open path w es :
    calm w -> holds w path es ->
    exists r i, Open path w = (Ok r, set_fds (fds w ++ [mkFd i 0 true]) w) /\
      rf r = Some (length (fds w)) /\ SSTable.Path r = path /\ names w !! path = Some i /\ (i < length (inodes w))%nat /\
      opened r (set_fds (fds w ++ [mkFd i 0 true]) w) es /\ (length es <= reader_fuel r)%nat;
  access_Get r w es key : opened r w es -> Get r key w = (Ok (lookup_entry key es), w);
  access_NewIterator r w es :
    opened r w es -> exists it, Iterator.NewIterator r w = (Ok it, w) /\ reading r w es it;
  access_Next r w e rest it :
    reading r w (e :: rest) it -> exists it', Iterator.Next r it w = (Ok it', w) /\ reading r w rest it';
  access_Valid r w rest it : reading r w rest it -> Iterator.Valid it = if rest is [] then false else true;
  access_Entry r w e rest it : reading r w (e :: rest) it -> Iterator.Entry_ it = e;
  access_opened_keeps r w w' es : keeps r w w' -> opened r w es -> opened r w' es;
  access_reading_keeps r w w' rest it : keeps r w w' -> reading r w rest it -> reading r w' rest it
}.

(** ** The implementation *)

Definition sst_opened (r : Reader) (w : World) (es : list Entry) : Prop :=
  exists ri blocks, (0 < ri)%nat /\ table ri r w blocks /\ es = stored <$> concat blocks.
Definition sst_reading (r : Reader) (w : World) (rest : list Entry) (it : Iterator.Iterator) : Prop :=
  exists ri blocks rest0, (0 < ri)%nat /\ table ri r w blocks /\ tpos ri blocks rest0 it /\ rest = stored <$> rest0.

Lemma table_keeps ri r w w' blocks : keeps r w w' -> table ri r w blocks -> table ri r w' blocks.
Proof.
  intros [Hc Hk] [H1 (f & i & p & rest & Hf & [Hfd Hi] & Hl) H3 H4 H5 H6]. split; try done.
  destruct (Hk f _ _ Hf Hfd Hi) as [? ?]. by exists f, i, p, rest.
Qed.

Lemma reader_fuel_blocks ri o blocks :
  (0 < ri)%nat ->
  (length (concat blocks) <=
    foldr (fun rec n => (Z.to_nat (length_ rec) + n)%nat) 0%nat (index_of ri o blocks))%nat.
Proof.
  intros Hri. revert o. induction blocks as [|es blocks IH]; intros o; [cbn; lia|].
  cbn [concat index_of foldr length_]. rewrite length_app. specialize (IH (o + len (image ri es))).
  pose proof (length_image ri Hri es) as Him. pose proof (length_enc ri Hri 0 None es) as Hle.
  fold (block_data ri es) in Hle. lia.
Qed.

#[export] Instance sstable_access : TableAccess.
Proof.
  refine {| opened := sst_opened; reading := sst_reading |}.
  - intros path w es Hc (i & c & Hn & Hi & (ri & blocks & bf & Hri & -> & Hb & -> & Hf & Hs & Hsh & Hm & Hin)).
    rewrite ekey_stored in Hs, Hin.
    destruct (table_Open_spec ri Hri path w i blocks bf Hc Hn Hi Hb Hf Hs Hsh Hm Hin)
      as (r & w' & Ho & Ht & Hw' & Hpr & Hrf & _). subst w'.
    exists r, i. split; [exact Ho|]. split; [apply Hrf|]. split; [exact Hpr|]. split; [exact Hn|]. split; [by eapply lookup_lt_Some|].
    split; [by exists ri, blocks|]. rewrite length_fmap. unfold reader_fuel.
    rewrite (t_index _ _ _ _ Ht). by apply reader_fuel_blocks.
  - intros r w es key (ri & blocks & Hri & Ht & ->). rewrite lookup_stored. by apply (table_Get_spec ri).
  - intros r w es (ri & blocks & Hri & Ht & ->).
    destruct (NewIterator_spec ri Hri r w blocks Ht) as (it & Hit & Hp).
    exists it. split; [done|]. by exists ri, blocks, (concat blocks).
  - intros r w e rest it (ri & blocks & [|e0 rest0] & Hri & Ht & Hp & Heq); [done|]. injection Heq as -> ->.
    destruct (Next_spec ri Hri r w blocks Ht e0 rest0 it Hp) as (it' & Hn & Hp').
    exists it'. split; [done|]. by exists ri, blocks, rest0.
  - intros r w rest it (ri & blocks & rest0 & Hri & Ht & Hp & ->). rewrite (tpos_Valid ri blocks _ _ Hp). by destruct rest0.
  - intros r w e rest it (ri & blocks & [|e0 rest0] & Hri & Ht & Hp & Heq); [done|]. injection Heq as -> ->.
    by apply (tpos_Entry ri blocks _ rest0).
  - intros r w w' es Hk (ri & blocks & Hri & Ht & ->). exists ri, blocks. split; [done|]. split; [|done].
    by eapply table_keeps.
  - intros r w w' rest it Hk (ri & blocks & rest0 & Hri & Ht & Hp & ->). exists ri, blocks, rest0.
    split_and!; try done. by eapply table_keeps.
Defined.
