(* ===== verification/CompactFacts.v ===== *)
(** * CompactFacts: the merge of package internal/compact

    The order of heap items, the merge as a function on the sorted sequence of
    all entries, and the invariant of the merge loop over the interface of
    open tables. *)

From Stdlib Require Import ZArith Lia Strings.Byte.
From stdpp Require Import base decidable list gmap strings numbers sorting sets.
From S2P Require Import Prelude Bloom ByteUtil Os SSTable SSTableFacts SSTableWriter SSTableSpec Heap Compact.
#[local] Open Scope Z_scope.

(** ** The order of items *)

Definition ikey (t : mergeItem) : list byte := bs (key t).

(** By key, the higher sequence number first, then by table. *)
Definition ilt (a b : mergeItem) : Prop :=
  blt (ikey a) (ikey b) \/
  (ikey a = ikey b /\ (seq b < seq a \/ (seq a = seq b /\ (idx a < idx b)%nat))).

Lemma item_less_ilt a b : item_less a b = true <-> ilt a b.
Proof.
  unfold item_less, ilt. fold (ikey a) (ikey b). unfold Compare.
  destruct (Z.eqb_spec (bytes_Compare (ikey a) (ikey b)) 0) as [E|E]; cbn [negb].
  - apply compare_eq in E. rewrite E. destruct (Z.eqb_spec (seq a) (seq b)); cbn [negb].
    + rewrite Nat.ltb_lt. split; [intros; right; split; [done|]; right; done|].
      intros [Hb|[_ [?|[_ ?]]]]; [by apply blt_irrefl in Hb|lia|done].
    + rewrite Z.ltb_lt. split; [intros; right; split; [done|]; by left|].
      intros [Hb|[_ [?|[? _]]]]; [by apply blt_irrefl in Hb|done|done].
  - rewrite Z.ltb_lt, compare_lt. split; [by left|]. intros [?|[Heq _]]; [done|].
    apply compare_eq in Heq. done.
Qed.

Lemma item_less_false a b : item_less a b = false <-> ~ ilt a b.
Proof. rewrite <- item_less_ilt. by destruct (item_less a b). Qed.

#[export] Instance ilt_dec : RelDecision ilt.
Proof. intros a b. destruct (item_less a b) eqn:E; [left; by apply item_less_ilt|right; by apply item_less_false]. Defined.

Lemma ilt_trans a b c : ilt a b -> ilt b c -> ilt a c.
Proof.
  unfold ilt. intros [H1|[E1 H1]] [H2|[E2 H2]].
  - left. by eapply blt_trans.
  - left. by rewrite <- E2.
  - left. by rewrite E1.
  - right. split; [congruence|]. lia.
Qed.

Lemma ilt_irrefl a : ~ ilt a a.
Proof. intros [H1|[_ [?|[_ ?]]]]; [by apply blt_irrefl in H1|lia|lia]. Qed.

Lemma ilt_total a b : ilt a b \/ ilt b a \/ (ikey a = ikey b /\ seq a = seq b /\ idx a = idx b).
Proof.
  unfold ilt. destruct (blt_total (ikey a) (ikey b)) as [?|[E|?]]; [by left; left| |by right; left; left].
  destruct (Z.lt_trichotomy (seq a) (seq b)) as [?|[?|?]]; [by right; left; right; eauto| |by left; right; eauto].
  destruct (Nat.lt_trichotomy (idx a) (idx b)) as [?|[?|?]]; [by left; right; eauto| |by right; left; right; eauto].
  by right; right.
Qed.

Lemma item_less_asym a b : item_less a b = true -> item_less b a = false.
Proof.
  rewrite item_less_ilt, item_less_false. intros H1 H2. by apply (ilt_irrefl a), (ilt_trans a b a).
Qed.

Lemma item_less_trans a b c : item_less b a = false -> item_less c b = false -> item_less c a = false.
Proof.
  rewrite !item_less_false. intros H1 H2 H3. destruct (ilt_total a b) as [Hab|[Hab|(K & S & I)]]; [|done|].
  - by apply H2, (ilt_trans c a b).
  - apply H2. unfold ilt in H3 |- *. rewrite <- K, <- S, <- I. exact H3.
Qed.

(** ** All remaining entries, tagged with their table *)

Definition tag (i : nat) (e : Entry) : mergeItem := mkItem i (Key e) (Value e) (Seq e) (Deleted e).
Definition untag (t : mergeItem) : Entry := mkEntry (key t) (value t) (seq t) (deleted t).

Lemma untag_tag i e : untag (tag i e) = e.
Proof. by destruct e. Qed.

#[export] Instance tag_inj i : Inj eq eq (tag i).
Proof. intros e e' Heq. rewrite <- (untag_tag i e), <- (untag_tag i e'). by rewrite Heq. Qed.

Fixpoint flat (pick : nat -> list Entry -> list mergeItem) (k : nat) (rests : list (list Entry)) : list mergeItem :=
  match rests with [] => [] | r :: rests => pick k r ++ flat pick (S k) rests end.

Definition items : nat -> list (list Entry) -> list mergeItem := flat (fun i r => tag i <$> r).
Definition heads : nat -> list (list Entry) -> list mergeItem :=
  flat (fun i r => match r with [] => [] | e :: _ => [tag i e] end).

Lemma flat_insert pick rests : forall k i l,
  rests !! i = Some l ->
  exists L, flat pick k rests ≡ₚ pick (k + i)%nat l ++ L /\
    forall l', flat pick k (<[i := l']> rests) ≡ₚ pick (k + i)%nat l' ++ L.
Proof.
  induction rests as [|r rests IH]; intros k i l Hi; [done|]. destruct i as [|i].
  - injection Hi as ->. exists (flat pick (S k) rests). rewrite Nat.add_0_r. by split.
  - destruct (IH (S k) i l Hi) as (L & H1 & H2). exists (pick k r ++ L).
    replace (k + S i)%nat with (S k + i)%nat by lia. cbn [flat]. split.
    + rewrite H1. by rewrite !app_assoc, (Permutation_app_comm (pick k r)).
    + intros l'. cbn. rewrite H2. by rewrite !app_assoc, (Permutation_app_comm (pick k r)).
Qed.

Lemma elem_of_flat pick rests t : forall k,
  t ∈ flat pick k rests <-> exists i l, rests !! i = Some l /\ t ∈ pick (k + i)%nat l.
Proof.
  induction rests as [|r rests IH]; intros k; cbn [flat].
  - split; [by intros ?%not_elem_of_nil|by intros (i & l & ? & _)].
  - rewrite elem_of_app, IH. split.
    + intros [H1|(i & l & H1 & H2)]; [exists 0%nat, r; by rewrite Nat.add_0_r|].
      exists (S i), l. by replace (k + S i)%nat with (S k + i)%nat by lia.
    + intros ([|i] & l & H1 & H2).
      * left. injection H1 as ->. by rewrite Nat.add_0_r in H2.
      * right. exists i, l. by replace (S k + i)%nat with (k + S i)%nat by lia.
Qed.

Lemma elem_of_items rests t k :
  t ∈ items k rests <-> exists i l e, rests !! i = Some l /\ e ∈ l /\ t = tag (k + i) e.
Proof.
  unfold items. rewrite elem_of_flat. split.
  - intros (i & l & Hl & (e & -> & He)%list_elem_of_fmap). by exists i, l, e.
  - intros (i & l & e & Hl & He & ->). exists i, l. split; [done|]. by apply list_elem_of_fmap_2.
Qed.

Lemma elem_of_heads rests t k :
  t ∈ heads k rests <-> exists i e l, rests !! i = Some (e :: l) /\ t = tag (k + i) e.
Proof.
  unfold heads. rewrite elem_of_flat. split.
  - intros (i & [|e l] & Hl & He); [by apply not_elem_of_nil in He|].
    apply list_elem_of_singleton in He. by exists i, e, l.
  - intros (i & e & l & Hl & ->). exists i, (e :: l). split; [done|]. by apply list_elem_of_singleton.
Qed.

(** ** Sorting the items *)

Definition ascending (es : list Entry) : Prop := StronglySorted blt (ekey <$> es).

Lemma ascending_inj es e e' : ascending es -> e ∈ es -> e' ∈ es -> ekey e = ekey e' -> e = e'.
Proof.
  unfold ascending. induction es as [|x es IH]; [by intros _ ?%not_elem_of_nil|]. cbn [fmap list_fmap].
  intros Hs. inversion Hs as [|? ? Hs' Hf]; subst. rewrite Forall_fmap, Forall_forall in Hf.
  rewrite !elem_of_cons. intros [->|H1] [->|H2] Hk; [done|..|by apply IH].
  - apply Hf in H2. cbn in H2. rewrite Hk in H2. by apply blt_irrefl in H2.
  - apply Hf in H1. cbn in H1. rewrite Hk in H1. by apply blt_irrefl in H1.
Qed.

Lemma ascending_NoDup es : ascending es -> NoDup es.
Proof.
  unfold ascending. induction es as [|x es IH]; [constructor|]. cbn [fmap list_fmap]. intros Hs.
  inversion Hs as [|? ? Hs' Hf]; subst. constructor; [|by apply IH]. intros Hin.
  rewrite Forall_fmap, Forall_forall in Hf. apply Hf in Hin. by apply blt_irrefl in Hin.
Qed.

Lemma items_NoDup rests : forall k, Forall ascending rests -> NoDup (items k rests).
Proof.
  induction rests as [|r rests IH]; intros k Ha; [constructor|]. apply Forall_cons in Ha as [Hr Ha].
  cbn [items flat]. apply NoDup_app. split_and!.
  - apply NoDup_fmap_2; [apply _|by apply ascending_NoDup].
  - intros t (e & -> & _)%list_elem_of_fmap Hin. change (flat _ _ _) with (items (S k) rests) in Hin.
    apply elem_of_items in Hin as (i & l & e' & _ & _ & Heq). injection Heq as ? _. lia.
  - by apply IH.
Qed.

Lemma items_comparable rests a b :
  Forall ascending rests -> a ∈ items 0 rests -> b ∈ items 0 rests -> a <> b -> ilt a b \/ ilt b a.
Proof.
  intros Ha Hin1 Hin2 Hne. destruct (ilt_total a b) as [?|[?|(K & S & I)]]; [by left|by right|]. exfalso.
  apply elem_of_items in Hin1 as (i & l & e & Hl & He & ->).
  apply elem_of_items in Hin2 as (j & l' & e' & Hl' & He' & ->). cbn in I. subst j.
  assert (l = l') as <- by congruence. apply Hne. f_equal.
  rewrite Forall_lookup in Ha. by eapply (ascending_inj l e e' (Ha _ _ Hl)).
Qed.

(** There is one sorted sequence of the items. *)
Lemma sorted_items rests :
  Forall ascending rests -> exists ts, ts ≡ₚ items 0 rests /\ StronglySorted ilt ts.
Proof.
  intros Ha. set (R := fun a b => ~ ilt b a).
  assert (RelDecision R) as HD by (intros a b; unfold R; apply _).
  assert (Transitive R) as HT.
  { intros a b c. unfold R. rewrite <- !item_less_false. apply item_less_trans. }
  assert (Total R) as Htot.
  { intros a b. unfold R. destruct (decide (ilt b a)) as [Hba|]; [right|by left].
    intros Hab. by apply (ilt_irrefl a), (ilt_trans a b a). }
  exists (merge_sort R (items 0 rests)). assert (Hp: merge_sort R (items 0 rests) ≡ₚ items 0 rests) by apply merge_sort_Permutation.
  split; [done|]. pose proof (StronglySorted_merge_sort R (items 0 rests)) as Hs.
  assert (Hnd: NoDup (merge_sort R (items 0 rests))) by (rewrite Hp; by apply items_NoDup).
  assert (Hsub: forall t, t ∈ merge_sort R (items 0 rests) -> t ∈ items 0 rests) by (intros t Ht; by rewrite Hp in Ht).
  clear Hp. induction Hs as [|t ts Hs IH Hf]; [constructor|]. apply NoDup_cons in Hnd as [Hnt Hnd].
  constructor; [apply IH; [done|]; intros; apply Hsub; by right|].
  rewrite Forall_forall in Hf |- *. intros b Hb. destruct (items_comparable rests t b Ha) as [?|Hbt]; [..|done|].
  - apply Hsub. by left.
  - apply Hsub. by right.
  - by intros ->.
  - exfalso. by apply (Hf b Hb).
Qed.

(** ** The merge of a sorted sequence *)

(** The entries the loop adds to the output. *)
Fixpoint merge_out (drop : bool) (lastKey : slice) (ts : list mergeItem) : list Entry :=
  match ts with
  | [] => []
  | t :: ts =>
      if negb (is_nil lastKey) && Equal (bs (key t)) (bs lastKey) then merge_out drop lastKey ts
      else if deleted t && drop then merge_out drop (key t) ts
      else untag t :: merge_out drop (key t) ts
  end.

(** What a merge should keep of a key: the entry with the highest sequence
    number, of the first table that has it. *)
Definition newer (acc e : option Entry) : option Entry :=
  match acc, e with
  | Some a, Some e => if Seq a <? Seq e then Some e else Some a
  | None, e => e
  | acc, None => acc
  end.
Definition newest (k : list byte) (ess : list (list Entry)) : option Entry :=
  fold_left (fun acc es => newer acc (lookup_entry k es)) ess None.

(** A tombstone that is to be dropped leaves nothing. *)
Definition visible (drop : bool) (e : option Entry) : option Entry :=
  match e with Some e => if Deleted e && drop then None else Some e | None => None end.

Lemma lookup_entry_Some k es e : lookup_entry k es = Some e -> e ∈ es /\ ekey e = k.
Proof.
  unfold lookup_entry. intros H1. apply List.find_some in H1 as [Hin Hk].
  apply bool_decide_eq_true in Hk. by rewrite list_elem_of_In.
Qed.

Lemma lookup_entry_in es e : ascending es -> e ∈ es -> lookup_entry (ekey e) es = Some e.
Proof.
  intros Ha He. destruct (lookup_entry (ekey e) es) as [e'|] eqn:E.
  - apply lookup_entry_Some in E as [Hin Hk]. f_equal. by eapply ascending_inj.
  - unfold lookup_entry in E. rewrite list_elem_of_In in He. apply (List.find_none _ _ E) in He.
    by apply bool_decide_eq_false in He.
Qed.

Lemma newest_snoc k ess es : newest k (ess ++ [es]) = newer (newest k ess) (lookup_entry k es).
Proof. unfold newest. by rewrite fold_left_app. Qed.

(** [newest] is the least of the key's items. *)
Lemma newest_Some k ess e :
  newest k ess = Some e ->
  exists j es, ess !! j = Some es /\ lookup_entry k es = Some e /\
    forall i es' e', ess !! i = Some es' -> lookup_entry k es' = Some e' ->
      Seq e' < Seq e \/ (Seq e' = Seq e /\ (j <= i)%nat).
Proof.
  revert e. induction ess as [|es ess IH] using rev_ind; intros e; [done|]. rewrite newest_snoc.
  unfold newer. intros Hn. destruct (newest k ess) as [a|] eqn:Ea.
  - destruct (IH a eq_refl) as (j & es0 & Hj & Hl & Hmax). clear IH.
    assert (Hcase: (e = a /\ forall e', lookup_entry k es = Some e' -> Seq e' <= Seq a) \/
      (lookup_entry k es = Some e /\ Seq a < Seq e)).
    { destruct (lookup_entry k es) as [e'|]; [|left; split; [congruence|done]].
      destruct (Z.ltb_spec (Seq a) (Seq e')); injection Hn as <-; [by right|].
      left. split; [done|]. by intros ? [= <-]. }
    destruct Hcase as [[-> Hle]|[He Hlt]].
    + exists j, es0. split; [by apply lookup_app_l_Some|]. split; [done|]. intros i es' e' Hi He'.
      apply lookup_app_Some in Hi as [Hi|[Hge Hi]]; [by eapply Hmax|].
      apply list_lookup_singleton_Some in Hi as [Hi ->]. apply Hle in He'.
      apply lookup_lt_Some in Hj. lia.
    + exists (length ess), es. split; [apply list_lookup_middle; done|]. split; [done|]. intros i es' e' Hi He'.
      apply lookup_app_Some in Hi as [Hi|[Hge Hi]].
      * destruct (Hmax i es' e' Hi He'); lia.
      * apply list_lookup_singleton_Some in Hi as [Hi ->]. right. split; [congruence|lia].
  - exists (length ess), es. split; [apply list_lookup_middle; done|]. split; [done|]. intros i es' e' Hi He'.
    apply lookup_app_Some in Hi as [Hi|[Hge Hi]].
    + exfalso. clear -Hi He' Ea. revert i es' e' Hi He'. induction ess as [|es0 ess IH] using rev_ind; intros i es' e' Hi He'; [done|].
      rewrite newest_snoc in Ea. destruct (newest k ess) as [a|]; cbn in Ea; [by repeat case_match|].
      apply lookup_app_Some in Hi as [Hi|[Hge Hi]]; [by eapply (IH eq_refl)|].
      apply list_lookup_singleton_Some in Hi as [_ ->]. congruence.
    + apply list_lookup_singleton_Some in Hi as [Hi ->]. right. split; [congruence|lia].
Qed.

Lemma newest_None k ess : newest k ess = None -> forall i es, ess !! i = Some es -> lookup_entry k es = None.
Proof.
  induction ess as [|es0 ess IH] using rev_ind; intros Hn i es Hi; [done|]. rewrite newest_snoc in Hn.
  destruct (newest k ess) as [a|]; cbn in Hn; [by repeat case_match|].
  apply lookup_app_Some in Hi as [Hi|[Hge Hi]]; [by eapply (IH eq_refl)|].
  by apply list_lookup_singleton_Some in Hi as [_ ->].
Qed.

(** The first item of a key in the sorted sequence is its newest entry. *)
Lemma find_newest ess ts k :
  Forall ascending ess -> ts ≡ₚ items 0 ess -> StronglySorted ilt ts ->
  untag <$> List.find (fun t => bool_decide (ikey t = k)) ts = newest k ess.
Proof.
  intros Ha Hp Hs. assert (Hin: forall t, t ∈ ts <-> t ∈ items 0 ess) by (intros t; by rewrite Hp).
  destruct (newest k ess) as [e|] eqn:En.
  - apply newest_Some in En as (j & es & Hj & Hl & Hmax). apply lookup_entry_Some in Hl as [He Hk].
    assert (tag j e ∈ ts) as Ht by (rewrite Hin; apply elem_of_items; by exists j, es, e).
    assert (Hfirst: List.find (fun t => bool_decide (ikey t = k)) ts = Some (tag j e)); [|by rewrite Hfirst; cbn; rewrite untag_tag].
    assert (Hleast: forall t, t ∈ ts -> ikey t = k -> t = tag j e \/ ilt (tag j e) t).
    { intros t Hts Hkt. rewrite Hin in Hts. apply elem_of_items in Hts as (i & es' & e' & Hi & He' & ->).
      assert (lookup_entry k es' = Some e') as Hle.
      { rewrite <- Hkt. apply (lookup_entry_in es' e'); [|done]. rewrite Forall_lookup in Ha. by eapply Ha. }
      destruct (Hmax i es' e' Hi Hle) as [Hlt|[Heq Hji]].
      - right. right. split; [by rewrite Hkt|]. by left.
      - destruct (decide (i = j)) as [->|Hne].
        + left. f_equal. assert (es' = es) as -> by congruence. rewrite Forall_lookup in Ha.
          eapply (ascending_inj es); [by eapply Ha|done|done|]. rewrite Hk. exact Hkt.
        + right. right. split; [by rewrite Hkt|]. right. split; [done|cbn; lia]. }
    clear Hin Hp Hmax. induction Hs as [|t ts Hs IH Hf]; [by apply not_elem_of_nil in Ht|]. cbn [List.find].
    case_bool_decide as Hkt.
    + f_equal. destruct (Hleast t ltac:(by left) Hkt) as [?|Hlt]; [done|]. apply elem_of_cons in Ht as [?|Ht]; [done|].
      rewrite Forall_forall in Hf. exfalso. apply (ilt_irrefl t), (ilt_trans t (tag j e) t); [by apply Hf|done].
    + apply elem_of_cons in Ht as [<-|Ht]; [exfalso; by apply Hkt|]. apply IH; [done|].
      intros t' Ht'. apply Hleast. by right.
  - destruct (List.find _ ts) as [t|] eqn:Ef; [|done]. exfalso. apply List.find_some in Ef as [Ht Hk].
    apply bool_decide_eq_true in Hk. rewrite <- list_elem_of_In, Hin in Ht.
    apply elem_of_items in Ht as (i & es & e & Hi & He & ->).
    pose proof (newest_None k ess En i es Hi) as Hn. rewrite <- Hk in Hn. change (ikey (tag (0 + i) e)) with (ekey e) in Hn.
    rewrite lookup_entry_in in Hn; [done| |done]. rewrite Forall_lookup in Ha. by eapply Ha.
Qed.

(** [lastKey] lies below what is left of the sorted sequence. *)
Definition passed (lastKey : slice) (ts : list mergeItem) : Prop :=
  match lastKey with None => True | Some k => Forall (fun t => ble k (ikey t)) ts end.

Lemma passed_key t ts : Forall (ilt t) ts -> passed (key t) ts.
Proof.
  unfold passed. destruct (key t) as [k|] eqn:Ek; [|done]. intros Hf. eapply Forall_impl; [exact Hf|].
  intros t' [Hlt|[Heq _]]; unfold ikey in *; rewrite Ek in *; apply ble_alt; [by left|by right].
Qed.

Lemma passed_cons lk t ts : passed lk (t :: ts) -> passed lk ts.
Proof. unfold passed. destruct lk; [|done]. by intros [_ ?]%Forall_cons. Qed.

Lemma merge_out_above drop ts : forall lk k,
  passed lk ts -> lk = Some k -> Forall (fun t => key t <> None) ts -> StronglySorted ilt ts ->
  Forall (fun e => blt k (ekey e)) (merge_out drop lk ts).
Proof.
  induction ts as [|t ts IH]; intros lk k Hp -> Hk Hs; [constructor|]. cbn [merge_out is_nil negb andb bs].
  inversion Hs as [|? ? Hs' Hf]; subst. apply Forall_cons in Hk as [Hkt Hk].
  unfold Equal. case_bool_decide as He; [by apply IH; [eapply passed_cons|..]|].
  assert (blt k (ikey t)) as Hlt.
  { apply Forall_cons in Hp as [Hle _]. apply ble_alt in Hle as [?|?]; [done|]. exfalso. apply He. symmetry. done. }
  destruct (key t) as [kt|] eqn:Ekt; [|done].
  assert (Forall (fun e => blt k (ekey e)) (merge_out drop (Some kt) ts)) as Htail.
  { eapply Forall_impl; [apply (IH (Some kt) kt); [rewrite <- Ekt; by apply passed_key|done..]|].
    intros e He'. cbn in He'. unfold ikey in Hlt. rewrite Ekt in Hlt. by eapply blt_trans. }
  case_match; [done|]. constructor; [|done]. unfold ekey, untag. cbn. exact Hlt.
Qed.

Lemma merge_out_ascending drop ts : forall lk,
  Forall (fun t => key t <> None) ts -> StronglySorted ilt ts -> ascending (merge_out drop lk ts).
Proof.
  unfold ascending. induction ts as [|t ts IH]; intros lk Hk Hs; [constructor|]. cbn [merge_out].
  inversion Hs as [|? ? Hs' Hf]; subst. apply Forall_cons in Hk as [Hkt Hk].
  case_match; [by apply IH|]. case_match; [by apply IH|]. cbn [fmap list_fmap]. constructor; [by apply IH|].
  destruct (key t) as [kt|] eqn:Ekt; [|done]. rewrite Forall_fmap.
  eapply Forall_impl; [apply (merge_out_above drop ts (Some kt) kt); [rewrite <- Ekt; by apply passed_key|done..]|].
  intros e He. unfold ekey at 1. cbn. by rewrite Ekt.
Qed.

Lemma find_above k ts : Forall (fun t => blt k (ikey t)) ts ->
  List.find (fun t => bool_decide (ikey t = k)) ts = None.
Proof.
  induction 1 as [|t ts Ht _ IH]; [done|]. cbn [List.find]. rewrite bool_decide_false; [done|].
  intros Heq. rewrite Heq in Ht. by apply blt_irrefl in Ht.
Qed.

Lemma lookup_merge_out drop k ts : forall lk,
  passed lk ts -> Forall (fun t => key t <> None) ts -> StronglySorted ilt ts ->
  lookup_entry k (merge_out drop lk ts) =
    if bool_decide (lk = Some k) then None
    else visible drop (untag <$> List.find (fun t => bool_decide (ikey t = k)) ts).
Proof.
  induction ts as [|t ts IH]; intros lk Hp Hk Hs; [by case_bool_decide|]. cbn [merge_out List.find].
  inversion Hs as [|? ? Hs' Hf]; subst. apply Forall_cons in Hk as [Hkt Hk].
  destruct (key t) as [kt|] eqn:Ekt; [|done]. assert (ikey t = kt) as Hik by (unfold ikey; by rewrite Ekt).
  destruct (negb (is_nil lk) && Equal (bs (Some kt)) (bs lk)) eqn:Edup.
  - apply andb_true_iff in Edup as [Hnn He]. destruct lk as [l|]; [|done]. cbn in He.
    unfold Equal in He. apply bool_decide_eq_true in He as ->. rewrite IH by (done || by eapply passed_cons).
    case_bool_decide as Hlk; [done|]. rewrite bool_decide_false; [done|]. rewrite Hik. congruence.
  - assert (Hnew: lk = Some k -> kt <> k /\ List.find (fun t => bool_decide (ikey t = k)) ts = None).
    { intros ->. cbn in Edup. unfold Equal in Edup. apply bool_decide_eq_false in Edup. split; [done|].
      apply Forall_cons in Hp as [Hle _]. rewrite Hik in Hle. apply find_above.
      pose proof (passed_key t ts Hf) as Hp'. rewrite Ekt in Hp'. eapply Forall_impl; [exact Hp'|].
      intros t' Ht'. cbn in Ht'. apply ble_alt in Hle as [Hlt|?]; [by eapply blt_ble_trans|congruence]. }
    assert (passed (Some kt) ts) as Hpt by (rewrite <- Ekt; by apply passed_key).
    assert (Hstep: lookup_entry k (merge_out drop (Some kt) ts) =
      if bool_decide (kt = k) then None else visible drop (untag <$> List.find (fun t => bool_decide (ikey t = k)) ts)).
    { rewrite IH by done. by rewrite (bool_decide_ext (Some kt = Some k) (kt = k)) by naive_solver. }
    rewrite Hik. destruct (deleted t && drop) eqn:Edrop.
    + rewrite Hstep. destruct (bool_decide_reflect (lk = Some k)) as [Hlk|Hlk].
      * destruct (Hnew Hlk) as [Hne ->]. by rewrite bool_decide_false.
      * case_bool_decide as Hkk; [|done]. cbn. by rewrite Edrop.
    + unfold lookup_entry. cbn [List.find]. fold (lookup_entry k (merge_out drop (Some kt) ts)). rewrite Hstep.
      change (ekey (untag t)) with (ikey t). rewrite Hik. destruct (bool_decide_reflect (lk = Some k)) as [Hlk|Hlk].
      * destruct (Hnew Hlk) as [Hne ->]. by rewrite !bool_decide_false by done.
      * case_bool_decide as Hkk; [|done]. cbn. by rewrite Edrop.
Qed.

Lemma merge_out_sublist drop ts : forall lk, merge_out drop lk ts `sublist_of` (untag <$> ts).
Proof.
  induction ts as [|t ts IH]; intros lk; [done|]. cbn [merge_out fmap list_fmap].
  case_match; [by apply sublist_cons|]. case_match; [by apply sublist_cons|]. by apply sublist_skip.
Qed.

Lemma tsize_sublist es es' : es `sublist_of` es' -> tsize es <= tsize es'.
Proof. unfold tsize. induction 1 as [|e es es' _ IH|e es es' _ IH]; cbn; [done|lia|]. pose proof (esize_lo e). lia. Qed.

Lemma tsize_perm es es' : es ≡ₚ es' -> tsize es = tsize es'.
Proof. unfold tsize. induction 1; cbn; lia. Qed.

Lemma elem_of_sublist {A} (l l' : list A) a : l `sublist_of` l' -> a ∈ l -> a ∈ l'.
Proof. induction 1; set_solver. Qed.

Lemma fits_sublist es es' : es `sublist_of` es' -> fits es' -> fits es.
Proof.
  intros Hs [H1 H2 H3]. rewrite Forall_forall in H1, H2.
  split; [rewrite Forall_forall; intros e He; apply H1|rewrite Forall_forall; intros e He; apply H2|];
    [by eapply elem_of_sublist..|]. apply tsize_sublist in Hs. lia.
Qed.

Lemma fits_perm es es' : es ≡ₚ es' -> fits es' -> fits es.
Proof. intros Hp [H1 H2 H3]. split; [by rewrite Hp|by rewrite Hp|by rewrite (tsize_perm _ _ Hp)]. Qed.

Lemma untag_items ess : forall k, untag <$> items k ess = concat ess.
Proof.
  induction ess as [|es ess IH]; intros k; [done|]. cbn [items flat concat]. rewrite fmap_app.
  change (flat _ (S k) ess) with (items (S k) ess). rewrite IH. f_equal.
  rewrite <- list_fmap_compose. rewrite <- (list_fmap_id es) at 2. apply list_fmap_ext. intros i e _. apply untag_tag.
Qed.

Lemma ascending_last es e es' :
  ascending ((es ++ [e]) ++ es') -> Forall (fun e' => ble (ekey e') (ekey e)) es.
Proof.
  unfold ascending. rewrite fmap_app. intros (_ & Hs & _)%StronglySorted_app.
  rewrite fmap_app in Hs. apply StronglySorted_app in Hs as (Hs & _ & _).
  rewrite Forall_forall. intros e' He'. apply ble_alt. left.
  apply Hs; [by apply list_elem_of_fmap_2|cbn; by left].
Qed.
