(* ===== verification/CompactMerge.v ===== *)
(** * CompactMerge: the merge loop and MergeFiles

    The loop of [MergeFiles] pops the items of all tables in their sorted
    order; proved against the interface [TableAccess] of open tables. *)

From Stdlib Require Import ZArith Lia Strings.Byte.
From stdpp Require Import base decidable list gmap strings numbers sorting sets.
From S2P Require Import Prelude Bloom ByteUtil Os SSTable SSTableFacts SSTableWriter SSTableSpec Heap Compact CompactFacts.
#[local] Open Scope Z_scope.

Lemma ilt_head ts t t' : StronglySorted ilt (t :: ts) -> t' ∈ t :: ts -> t' = t \/ ilt t t'.
Proof.
  intros Hs Hin. inversion Hs as [|? ? _ Hf]; subst. rewrite Forall_forall in Hf.
  apply elem_of_cons in Hin as [->|Hin]; [by left|right; by apply Hf].
Qed.

(** Popping yields the first of the sorted items, which heads its table. *)
Lemma pop_sorted h rests t ts :
  heap item_less h (length h) -> h ≡ₚ heads 0 rests -> Forall ascending rests ->
  t :: ts ≡ₚ items 0 rests -> StronglySorted ilt (t :: ts) ->
  exists h' j e rest, Pop item_less h = Ok (t, h') /\ heap item_less h' (length h') /\
    t = tag j e /\ rests !! j = Some (e :: rest) /\
    (forall l', heads 0 (<[j := l']> rests) ≡ₚ match l' with [] => [] | e' :: _ => [tag j e'] end ++ h') /\
    ts ≡ₚ items 0 (<[j := rest]> rests).
Proof.
  intros Hh Hheads Hasc Hp Hs.
  assert (Hin: forall x, x ∈ t :: ts <-> x ∈ items 0 rests) by (intros x; by rewrite Hp).
  assert (Ht: t ∈ items 0 rests) by (rewrite <- Hin; by left).
  apply elem_of_items in Ht as (j & l & e & Hl & He & Htag). cbn [Nat.add] in Htag.
  destruct l as [|e0 rest]; [by apply not_elem_of_nil in He|].
  assert (e = e0) as ->.
  { apply elem_of_cons in He as [->|He]; [done|]. exfalso.
    assert (ilt (tag j e0) t) as H1.
    { rewrite Htag. left. rewrite Forall_lookup in Hasc. specialize (Hasc j _ Hl). unfold ascending in Hasc.
      cbn in Hasc. inversion Hasc as [|? ? _ Hf]; subst. rewrite Forall_fmap, Forall_forall in Hf. by apply (Hf e). }
    assert (tag j e0 ∈ t :: ts) as H2 by (rewrite Hin; apply elem_of_items; exists j, (e0 :: rest), e0; split_and!; [done|by left|done]).
    apply (ilt_head ts t _ Hs) in H2 as [H2|H2]; [rewrite H2 in H1|apply (ilt_irrefl t), (ilt_trans t (tag j e0) t); done].
    by apply ilt_irrefl in H1. }
  assert (t ∈ h) as Hth by (rewrite Hheads; apply elem_of_heads; by exists j, e0, rest).
  destruct (Pop_spec item_less item_less_asym item_less_trans h) as (a & h' & Hpop & Hperm & Hh' & Hmin);
    [by intros ->; apply not_elem_of_nil in Hth|done|].
  assert (a = t) as ->.
  { assert (a ∈ h) as Ha by (rewrite <- Hperm; by left). rewrite Hheads in Ha.
    apply elem_of_heads in Ha as (j' & e' & l' & Hl' & Ha).
    assert (a ∈ t :: ts) as Ha' by (rewrite Hin; apply elem_of_items; exists j', (e' :: l'), e'; split_and!; [done|by left|done]).
    apply (ilt_head ts t _ Hs) in Ha' as [?|Hta]; [done|]. specialize (Hmin t Hth).
    by apply item_less_false in Hmin. }
  exists h', j, e0, rest. split_and!; try done.
  - intros l'. destruct (flat_insert (fun i r => match r with [] => [] | e :: _ => [tag i e] end) rests 0 j _ Hl)
      as (L & HL1 & HL2). fold (heads 0 rests) in HL1. unfold heads. rewrite HL2. cbn [Nat.add].
    apply Permutation_app_head. rewrite <- Hheads, <- Hperm in HL1. cbn [Nat.add app] in HL1. rewrite Htag in HL1.
    by apply Permutation_cons_inv in HL1.
  - destruct (flat_insert (fun i r => tag i <$> r) rests 0 j _ Hl) as (L & HL1 & HL2).
    fold (items 0 rests) in HL1. unfold items. rewrite HL2. rewrite <- Hp in HL1. cbn [Nat.add fmap list_fmap app] in HL1 |- *.
    rewrite Htag in HL1. by apply Permutation_cons_inv in HL1.
Qed.

Section loop.
Context {TA : TableAccess}.

Lemma item_of_tag r W e rest it j : reading r W (e :: rest) it -> item_of j it = tag j e.
Proof.
  intros Hr. pose proof (access_Entry _ _ _ _ _ Hr) as He. unfold Iterator.Entry_ in He.
  rewrite (access_Valid _ _ _ _ Hr) in He. unfold item_of, tag. rewrite <- He. done.
Qed.

Record merging (readers : list Reader) (iters : list Iterator.Iterator) (h : list mergeItem)
    (rests : list (list Entry)) (W : World) : Prop := {
  mg_readers : length readers = length rests;
  mg_iters : length iters = length rests;
  mg_read : forall j r it rest, readers !! j = Some r -> iters !! j = Some it -> rests !! j = Some rest ->
    reading r W rest it;
  mg_heap : heap item_less h (length h);
  mg_heads : h ≡ₚ heads 0 rests
}.

Lemma merging_keeps readers iters h rests W W' :
  (forall r, r ∈ readers -> keeps r W W') -> merging readers iters h rests W -> merging readers iters h rests W'.
Proof.
  intros Hk [H1 H2 H3 H4 H5]. split; try done. intros j r it rest Hr Hi Hre.
  eapply access_reading_keeps; [apply Hk; by eapply list_elem_of_lookup_2|by eapply H3].
Qed.

(** Taking the first item and advancing its iterator. *)
Lemma merging_step readers iters h rests W t ts :
  merging readers iters h rests W -> Forall ascending rests ->
  t :: ts ≡ₚ items 0 rests -> StronglySorted ilt (t :: ts) ->
  exists h1 h2 r it it' rests',
    Pop item_less h = Ok (t, h1) /\
    Prelude.index readers (Z.of_nat (idx t)) = Ok r /\ Prelude.index iters (Z.of_nat (idx t)) = Ok it /\
    Iterator.Next r it W = (Ok it', W) /\
    (if Iterator.Valid it' then Push item_less (item_of (idx t) it') h1 else Ok h1) = Ok h2 /\
    merging readers (<[idx t := it']> iters) h2 rests' W /\ Forall ascending rests' /\ ts ≡ₚ items 0 rests'.
Proof.
  intros [Hlr Hli Hread Hh Hheads] Hasc Hp Hs.
  destruct (pop_sorted h rests t ts Hh Hheads Hasc Hp Hs) as (h1 & j & e & rest & Hpop & Hh1 & Htag & Hj & Hins & Hts).
  assert (idx t = j) as Hidx by (by rewrite Htag). rewrite Hidx. pose proof (lookup_lt_Some _ _ _ Hj) as Hlt.
  destruct (lookup_lt_is_Some_2 readers j) as [r Hr]; [lia|]. destruct (lookup_lt_is_Some_2 iters j) as [it Hit]; [lia|].
  destruct (access_Next _ _ _ _ _ (Hread j r it _ Hr Hit Hj)) as (it' & Hn & Hrd).
  assert (Hidx_ok: forall A (l : list A) a, l !! j = Some a -> Prelude.index l (Z.of_nat j) = Ok a).
  { intros A l a Ha. apply index_lookup. rewrite Nat2Z.id. split; [lia|done]. }
  assert (exists h2, (if Iterator.Valid it' then Push item_less (item_of j it') h1 else Ok h1) = Ok h2 /\
    heap item_less h2 (length h2) /\ h2 ≡ₚ heads 0 (<[j := rest]> rests)) as (h2 & Hpush & Hh2 & Hheads2).
  { rewrite (access_Valid _ _ _ _ Hrd). destruct rest as [|e1 rest].
    - exists h1. split_and!; [done..|]. by rewrite Hins.
    - destruct (Push_spec item_less item_less_asym item_less_trans (item_of j it') h1 Hh1) as (h2 & Hpu & Hpe & Hhp).
      exists h2. split_and!; [done..|]. rewrite Hins, Hpe. by rewrite (item_of_tag _ _ _ _ _ j Hrd). }
  exists h1, h2, r, it, it', (<[j := rest]> rests). split_and!; try done; [by apply Hidx_ok..| |].
  - split; try done; [by rewrite length_insert|by rewrite !length_insert|].
    intros j' r' it0 rest' Hr' Hi' Hre'. destruct (decide (j' = j)) as [->|Hne].
    + rewrite list_lookup_insert_eq in Hi' by lia. rewrite list_lookup_insert_eq in Hre' by lia.
      injection Hi' as <-. injection Hre' as <-. assert (r' = r) as -> by congruence. done.
    + rewrite list_lookup_insert_ne in Hi' by done. rewrite list_lookup_insert_ne in Hre' by done. by eapply Hread.
  - apply Forall_insert; [done|]. rewrite Forall_lookup in Hasc. specialize (Hasc j _ Hj).
    unfold ascending in *. cbn in Hasc. by inversion Hasc.
Qed.
End loop.

(** ** The loop *)

Section merge_loop.
Context {TA : TableAccess} {F : Type} `{Float64 F}.
Context (ri : nat) (Hri : (0 < ri)%nat) (f i : nat) (path : string) (bsize : Z) (fp : F) (W0 : World).
Context (Hbs : 0 < bsize <= 2 ^ 30).

(** A reader whose file is not the one being written. *)
Definition foreign (r : Reader) : Prop :=
  exists g d, rf r = Some g /\ g <> f /\ fds W0 !! g = Some d /\ ino d <> i.

Lemma touches_keeps r W W' :
  touches f i W0 W -> touches f i W0 W' -> calm W' -> foreign r -> keeps r W W'.
Proof.
  intros (_ & I1 & F1 & _) (_ & I2 & F2 & _) Hc (g & d & Hg & Hne & Hd & Hino). split; [done|].
  intros g' d' c Hg' Hd' Hi'. assert (g' = g) as -> by congruence. rewrite F1, Hd in Hd' by done.
  injection Hd' as <-. rewrite F2 by done. split; [done|]. rewrite I2 by done. by rewrite <- I1.
Qed.

Definition tombs (es : list Entry) : Z := len (filter (fun e => Deleted e = true) es).

Lemma tombs_cons e es : tombs (e :: es) = (if Deleted e then 1 else 0) + tombs es.
Proof. unfold tombs. rewrite filter_cons. destruct (Deleted e); cbn [length]; case_decide; (done || cbn [length]; lia). Qed.

Lemma merging_empty readers iters h rests W : merging readers iters h rests W -> items 0 rests = [] -> h = [].
Proof.
  intros [_ _ _ _ Hh] Hi. destruct h as [|x h]; [done|]. exfalso.
  assert (x ∈ heads 0 rests) as Hx by (rewrite <- Hh; by left).
  apply elem_of_heads in Hx as (j & e & l & Hl & Hx). assert (x ∈ items 0 rests) as Hin.
  { apply elem_of_items. exists j, (e :: l), e. split_and!; [done|by left|done]. }
  rewrite Hi in Hin. by apply not_elem_of_nil in Hin.
Qed.

Lemma merge_loop_nil fuel o readers iters lastKey kept dropped (s : Writer F * World) :
  merge_loop fuel o readers iters [] lastKey kept dropped s = (Ok (kept, dropped), s).
Proof. by destruct fuel. Qed.

Lemma merge_loop_spec o readers : (forall r, r ∈ readers -> foreign r) ->
  forall ts fuel iters h rests lastKey kept dropped w W blocks cur,
  let out := merge_out (DropTombstones o) lastKey ts in
  merging readers iters h rests W -> Forall ascending rests -> ts ≡ₚ items 0 rests -> StronglySorted ilt ts ->
  (length ts <= fuel)%nat ->
  writing ri f i path bsize fp W0 (w, W) blocks cur -> packed ri blocks cur -> len (block_data ri cur) < bsize ->
  fits (concat blocks ++ cur ++ out) -> ascending (concat blocks ++ cur ++ out) ->
  0 <= kept -> 0 <= dropped -> kept + dropped + len ts < 2 ^ 62 ->
  exists w' W' blocks' cur',
    merge_loop fuel o readers iters h lastKey kept dropped (w, W) =
      (Ok (kept + tombs out, dropped + (len ts - len out)), (w', W')) /\
    writing ri f i path bsize fp W0 (w', W') blocks' cur' /\ packed ri blocks' cur' /\
    concat blocks' ++ cur' = concat blocks ++ cur ++ out.
Proof.
  intros Hfor. induction ts as [|t ts IH]; intros fuel iters h rests lastKey kept dropped w W blocks cur out
    Hm Hasc Hp Hs Hfuel Hw Hpk Hroom Hfit Hso Hk Hd Hsum.
  - apply Permutation_nil in Hp. rewrite (merging_empty _ _ _ _ _ Hm Hp), merge_loop_nil.
    exists w, W, blocks, cur. unfold out. cbn. rewrite app_nil_r. unfold tombs. cbn.
    split_and!; try done. do 3 f_equal; lia.
  - destruct fuel as [|fuel]; [cbn in Hfuel; lia|]. cbn [length] in Hfuel, Hsum.
    destruct (merging_step _ _ _ _ _ _ _ Hm Hasc Hp Hs)
      as (h1 & h2 & r & it & it' & rests' & Hpop & Hr & Hit & Hn & Hpush & Hm' & Hasc' & Hp').
    inversion Hs as [|? ? Hs' _]; subst. cbn [merge_loop].
    rewrite (proj2 (Z.eqb_neq (len h) 0)) by (destruct h; [by cbn in Hpop|cbn [length]; lia]).
    rewrite (lift_bind _ _ _ _ Hpop). cbv beta iota. rewrite (lift_bind _ _ _ _ Hr), (lift_bind _ _ _ _ Hit).
    rewrite (M_bind_Ok _ _ _ _ _ (writer_io_run _ w W _ _ Hn)), (lift_bind _ _ _ _ Hpush). cbv zeta.
    unfold out in *. clear out. cbn [merge_out] in Hfit, Hso |- *.
    pose proof (merge_out_sublist (DropTombstones o)) as Hsub.
    destruct (negb (is_nil lastKey) && Equal (bs (key t)) (bs lastKey)).
    + destruct (IH fuel _ h2 rests' lastKey kept (i64 (dropped + 1)) w W blocks cur Hm' Hasc' Hp' Hs')
        as (w' & W' & blocks' & cur' & Hl & R); [lia|done..|rewrite i64_small; lia|rewrite i64_small; lia|].
      exists w', W', blocks', cur'. split; [|exact R]. rewrite Hl, i64_small by lia. cbn [length]. do 3 f_equal. lia.
    + destruct (deleted t && DropTombstones o).
      * rewrite Clone_id.
        destruct (IH fuel _ h2 rests' (key t) kept (i64 (dropped + 1)) w W blocks cur Hm' Hasc' Hp' Hs')
          as (w' & W' & blocks' & cur' & Hl & R); [lia|done..|rewrite i64_small; lia|rewrite i64_small; lia|].
        exists w', W', blocks', cur'. split; [|exact R]. rewrite Hl, i64_small by lia. cbn [length]. do 3 f_equal. lia.
      * set (out := merge_out (DropTombstones o) (key t) ts) in *. change (mkEntry _ _ _ _) with (untag t).
        assert (Hassoc: concat blocks ++ cur ++ untag t :: out = (concat blocks ++ cur ++ [untag t]) ++ out)
          by (by rewrite <- !app_assoc).
        rewrite Hassoc in Hfit, Hso. pose proof Hfit as Hfit1. apply (fits_app ri Hri) in Hfit1 as [Hfit1 _].
        destruct (Writer_Add_spec ri Hri f i path bsize fp W0 w W blocks cur (untag t) Hw Hpk)
          as (w1 & W1 & blocks1 & cur1 & Hadd & Hw1 & Hp1 & Hroom1 & Hall); [lia|lia|done|apply (ascending_last _ _ out); by rewrite <- (app_assoc (concat blocks))|].
        rewrite (M_bind_Ok _ _ _ (inl tt) (w1, W1)) by (unfold try_; by rewrite Hadd). rewrite Clone_id.
        rewrite <- Hall, <- app_assoc in Hfit, Hso.
        assert (merging readers (<[idx t:=it']> iters) h2 rests' W1) as Hm1.
        { eapply merging_keeps; [|exact Hm']. intros r' Hr'. eapply touches_keeps; [apply (wr_touches _ _ _ _ _ _ _ _ _ _ Hw)|
            apply (wr_touches _ _ _ _ _ _ _ _ _ _ Hw1)|apply (wr_calm _ _ _ _ _ _ _ _ _ _ Hw1)|by apply Hfor]. }
        rewrite tombs_cons. change (Deleted (untag t)) with (deleted t).
        destruct (IH fuel _ h2 rests' (key t) (if deleted t then i64 (kept + 1) else kept) dropped w1 W1 blocks1 cur1
          Hm1 Hasc' Hp' Hs') as (w' & W' & blocks' & cur' & Hl & Hw' & Hpk' & Hall'); try done; try lia.
        { destruct (deleted t); [rewrite i64_small; lia|done]. }
        { destruct (deleted t); [rewrite i64_small; lia|lia]. }
        exists w', W', blocks', cur'. split_and!; [|done..|by rewrite Hall', Hassoc, <- Hall, <- app_assoc].
        rewrite Hl. fold out. cbn [length]. destruct (deleted t); rewrite ?i64_small by lia; do 3 f_equal; lia.
Qed.
End merge_loop.

(** ** Opening and closing the inputs *)

(** Closing a reader never fails the caller, and changes its descriptor only. *)
Definition closed_reader (r : Reader) : Reader :=
  mkReader None (rpath r) (rindex r) (rbloom r) (rmaxSeq r) (rentries r) (rminKey r) (rmaxKey r) (rfileSize r).

Lemma close_reader_calm r w :
  calm w -> exists w', close_reader r w = (Ok (closed_reader r), w') /\ calm w' /\ names w' = names w /\
    inodes w' = inodes w /\ length (fds w') = length (fds w) /\
    forall g, rf r <> Some g -> fds w' !! g = fds w !! g.
Proof.
  intros Hc. unfold close_reader, Close, closed_reader. cbn [fst snd]. destruct (rf r) as [f|] eqn:Hr.
  2: { exists w. split_and!; try done. f_equal. f_equal. destruct r. cbn in *. by subst. }
  unfold File_Close, open_fd, mbind, M_bind. destruct (fds w !! f) as [d|]; [|by exists w].
  destruct (is_open d); [|by exists w]. eexists. cbn. rewrite syscall_calm by done. split; [done|].
  split_and!; try done; cbn; [by rewrite length_insert|]. intros g Hg. apply list_lookup_insert_ne. congruence.
Qed.

(** Closing never fails the caller, and changes descriptors only. *)
Lemma close_all_spec rs : forall w, calm w ->
  exists w', close_all rs w = (Ok tt, w') /\ calm w' /\ names w' = names w /\ inodes w' = inodes w /\
    length (fds w') = length (fds w) /\
    forall g, (forall r, r ∈ rs -> rf r <> Some g) -> fds w' !! g = fds w !! g.
Proof.
  induction rs as [|r rs IH]; intros w Hc; [by exists w|]. cbn [close_all].
  destruct (close_reader_calm r w Hc) as (w1 & H1 & Hc1 & Hn1 & Hi1 & Hl1 & Hf1).
  destruct (IH w1 Hc1) as (w2 & H2 & Hc2 & Hn2 & Hi2 & Hl2 & Hf2). exists w2. rewrite (M_bind_Ok _ _ _ _ _ H1).
  split_and!; [done|done|congruence..|]. intros g Hg. rewrite Hf2, Hf1; [done|apply Hg; by left|].
  intros r1 Hr1. apply Hg. by right.
Qed.

Lemma closing_Ok {A} readers (m : M World A) w a w1 :
  m w = (Ok a, w1) -> calm w1 ->
  exists w', closing readers m w = (Ok a, w') /\ calm w' /\ names w' = names w1 /\ inodes w' = inodes w1 /\
    forall g, (forall r, r ∈ readers -> rf r <> Some g) -> fds w' !! g = fds w1 !! g.
Proof.
  intros Hm Hc. destruct (close_all_spec readers w1 Hc) as (w' & H1 & H2 & H3 & H4 & _ & H5). exists w'.
  unfold closing. by rewrite Hm, H1.
Qed.

Lemma holds_ext w w' path es : names w' = names w -> inodes w' = inodes w -> holds w path es -> holds w' path es.
Proof. intros Hn Hi (i & c & H1 & H2 & H3). exists i, c. by rewrite Hn, Hi. Qed.

Section inputs.
Context {TA : TableAccess}.

(** A reader in use: its table, and its descriptor on an existing file. *)
Record in_use (w : World) (r : Reader) (es : list Entry) : Prop := {
  iu_opened : opened r w es;
  iu_fuel : (length es <= reader_fuel r)%nat;
  iu_file : exists g d, rf r = Some g /\ fds w !! g = Some d /\ (ino d < length (inodes w))%nat
}.

Lemma keeps_fds w r ds : calm w -> keeps r w (set_fds (fds w ++ ds) w).
Proof. intros Hc. split; [done|]. intros f d c _ Hd Hi. split; [by apply lookup_app_l_Some|done]. Qed.

Lemma in_use_fds w r es ds : calm w -> in_use w r es -> in_use (set_fds (fds w ++ ds) w) r es.
Proof.
  intros Hc [H1 H2 (g & d & H3 & H4 & H5)]. split; [|done|].
  - eapply access_opened_keeps, H1. by apply keeps_fds.
  - exists g, d. split_and!; [done| |done]. by apply lookup_app_l_Some.
Qed.

Lemma open_all_spec inputs : forall ess readers ess0 w,
  calm w -> Forall2 (fun x es => holds w (iPath x) es) inputs ess -> Forall2 (in_use w) readers ess0 ->
  exists readers' ds, let w' := set_fds (fds w ++ ds) w in
    open_all readers inputs w = (Ok readers', w') /\ Forall2 (in_use w') readers' (ess0 ++ ess) /\
    forall r, r ∈ readers' -> r ∈ readers \/ exists g, rf r = Some g /\ (length (fds w) <= g)%nat.
Proof.
  induction inputs as [|x inputs IH]; intros ess readers ess0 w Hc Hin Hr; inversion Hin as [|? es ? ess' Hh Hin']; subst.
  - exists readers, []. cbv zeta. rewrite !app_nil_r. split; [by destruct w|]. split; [by destruct w|]. by left.
  - destruct (access_Open (iPath x) w es Hc Hh) as (r & i & Ho & Hrf & _ & _ & Hi & Hop & Hfuel).
    set (w1 := set_fds (fds w ++ [mkFd i 0 true]) w) in *. cbn [open_all].
    rewrite (M_bind_Ok _ _ _ (inl r) w1) by (unfold try_; by rewrite Ho).
    destruct (IH ess' (readers ++ [r]) (ess0 ++ [es]) w1) as (readers' & ds & H1 & H2 & H3); [done| | |].
    + eapply Forall2_impl; [exact Hin'|]. intros y es'. by apply holds_ext.
    + apply Forall2_app; [eapply Forall2_impl; [exact Hr|]; intros; by apply in_use_fds|].
      constructor; [|constructor]. split; [done..|]. exists (length (fds w)), (mkFd i 0 true).
      split_and!; [done| |done]. by apply list_lookup_middle.
    + exists readers', (mkFd i 0 true :: ds). cbv zeta in *.
      assert (set_fds (fds w ++ mkFd i 0 true :: ds) w = set_fds (fds w1 ++ ds) w1) as ->
        by (unfold w1, set_fds; cbn; by rewrite <- app_assoc).
      split; [exact H1|]. split; [by rewrite <- app_assoc in H2|].
      intros r' [[?|Hr']%elem_of_app|(g & Hg & Hl)]%H3; [by left|apply list_elem_of_singleton in Hr' as ->; right; eauto|].
      right. exists g. split; [done|]. cbn in Hl. rewrite length_app in Hl. cbn in Hl. lia.
Qed.

Lemma in_use_fuel w readers ess : Forall2 (in_use w) readers ess -> (length (concat ess) <= merge_fuel readers)%nat.
Proof.
  induction 1 as [|r es readers ess [_ Hf _] _ IH]; [done|]. cbn [concat merge_fuel foldr].
  rewrite length_app. unfold merge_fuel in IH. lia.
Qed.

(** The iterators and the heap at the start of the loop. *)
Lemma start_spec w readers : forall ess k iters h,
  Forall2 (in_use w) readers ess -> heap item_less h (length h) ->
  exists its h', start k readers iters h w = (Ok (iters ++ its, h'), w) /\
    heap item_less h' (length h') /\ h' ≡ₚ h ++ heads k ess /\ length its = length ess /\
    forall j r it es, readers !! j = Some r -> its !! j = Some it -> ess !! j = Some es -> reading r w es it.
Proof.
  induction readers as [|r readers IH]; intros ess k iters h Hr Hh; inversion Hr as [|? es ? ess' Hu Hr']; subst.
  - exists [], h. cbn. rewrite !app_nil_r. by split_and!.
  - destruct (access_NewIterator r w es (iu_opened _ _ _ Hu)) as (it & Hit & Hrd). cbn [start].
    rewrite (M_bind_Ok _ _ _ _ _ Hit).
    assert (exists h1, (if Iterator.Valid it then lift (S := World) (Push item_less (item_of k it) h) else mret h) w = (Ok h1, w) /\
      heap item_less h1 (length h1) /\ h1 ≡ₚ h ++ heads k [es]) as (h1 & Hp1 & Hh1 & Hpe1).
    { rewrite (access_Valid _ _ _ _ Hrd). destruct es as [|e es].
      - exists h. cbn. by rewrite app_nil_r.
      - destruct (Push_spec item_less item_less_asym item_less_trans (item_of k it) h Hh) as (h1 & Hpu & Hpe & Hhp).
        exists h1. unfold lift. rewrite Hpu. split_and!; [done..|]. rewrite Hpe, (item_of_tag _ _ _ _ _ k Hrd).
        cbn. by rewrite Permutation_app_comm. }
    rewrite (M_bind_Ok _ _ _ _ _ Hp1). destruct (IH ess' (S k) (iters ++ [it]) h1 Hr' Hh1) as
      (its & h2 & H1 & H2 & H3 & H4 & H5). exists (it :: its), h2. split_and!.
    + by rewrite <- app_assoc in H1.
    + done.
    + rewrite H3, Hpe1, <- app_assoc. apply Permutation_app_head. cbn [heads flat]. by rewrite app_nil_r.
    + cbn. by rewrite H4.
    + intros [|j]; cbn; [congruence|apply H5].
Qed.

Lemma start_merging w readers ess :
  Forall2 (in_use w) readers ess ->
  exists its h, start 0 readers [] [] w = (Ok (its, h), w) /\ merging readers its h ess w.
Proof.
  intros Hr. destruct (start_spec w readers ess 0 [] [] Hr) as (its & h & H1 & H2 & H3 & H4 & H5).
  { intros k Hk. cbn in Hk. lia. }
  exists its, h. split; [done|]. split; [by eapply Forall2_length|done..].
Qed.
End inputs.
