(* ===== verification/CompactProps.v ===== *)
(** * CompactProps: the theorems about internal/compact

    A merge keeps, of each key, its newest entry; the planning helpers; and
    what a merge does when an input is damaged. *)

From Stdlib Require Import ZArith Lia QArith Strings.Byte.
From stdpp Require Import base decidable list gmap strings numbers sorting sets.
From S2P Require Import Prelude Bloom ByteUtil Os SSTable SSTableFacts SSTableWriter SSTableProps SSTableSpec Heap Compact CompactFacts CompactMerge.
#[local] Open Scope Z_scope.

Section merging.
Context {TA : TableAccess} {F : Type} `{Float64 F}.

(** The options of the output's writer. *)
Definition out_options (opts : option Options) : option (WriterOptions F) :=
  Some (mkWriterOptions (oBlockSize (default (mkOptions false 0 0) opts)) 0 (of_int 0)).
Definition drops (opts : option Options) : bool := DropTombstones (default (mkOptions false 0 0) opts).

(** Inputs and output of a merge within the format's limits. *)
Record mergeable (opts : option Options) (ess : list (list Entry)) : Prop := {
  mb_fits : fits (concat ess);
  mb_block : BlockSize (normalize (out_options opts)) <= 2 ^ 30;
  mb_bloom : forall n, 0 <= n <= len (concat ess) ->
    bloom_fits (Builder.fp (Builder.NewBuilder (BloomFP (normalize (out_options opts))))) n
}.

Lemma keeps_foreign i w w1 readers ess r :
  calm w1 -> preserves i w w1 -> (length (inodes w) <= i)%nat -> Forall2 (in_use w) readers ess -> r ∈ readers ->
  keeps r w w1 /\ foreign (length (fds w)) i w1 r.
Proof.
  intros Hc [P1 P2] Hi Hr (j & Hj)%list_elem_of_lookup. destruct (Forall2_lookup_l _ _ _ _ _ Hr Hj) as (es & _ & Hu).
  destruct (iu_file _ _ _ Hu) as (g & d & Hg & Hd & Hino). split.
  - split; [done|]. intros g' d' c _ Hd' Hc'. split; [by apply P2|]. apply P1; [|done].
    apply lookup_lt_Some in Hc'. lia.
  - exists g, d. split_and!; [done| |by apply P2|lia]. apply lookup_lt_Some in Hd. lia.
Qed.

(** What a merge of tables with entries [ess] writes. *)
Record merged (drop : bool) (ess : list (list Entry)) (es : list Entry) : Prop := {
  md_ascending : ascending es;
  md_lookup : forall k, lookup_entry k es = visible drop (newest k ess);
  md_sublist : exists all, es `sublist_of` all /\ all ≡ₚ concat ess
}.

Lemma merge_out_merged drop ess ts :
  Forall ascending ess -> fits (concat ess) -> ts ≡ₚ items 0 ess -> StronglySorted ilt ts ->
  merged drop ess (merge_out drop None ts).
Proof.
  intros Ha Hfit Hp Hs.
  assert (untag <$> ts ≡ₚ concat ess) as Hall by (rewrite Hp; by rewrite untag_items).
  assert (Forall (fun t => key t <> None) ts) as Hk.
  { destruct (fits_perm _ _ Hall Hfit) as [Hok _ _]. rewrite Forall_fmap in Hok. eapply Forall_impl; [exact Hok|].
    by intros t (Hk & _). }
  split.
  - by apply merge_out_ascending.
  - intros k. rewrite lookup_merge_out by done. rewrite bool_decide_false by done. by rewrite (find_newest ess).
  - exists (untag <$> ts). split; [apply merge_out_sublist|done].
Qed.

Lemma merged_fits drop ess es : merged drop ess es -> fits (concat ess) -> fits es.
Proof. intros [_ _ (all & Hs & Hp)] Hf. eapply fits_sublist; [exact Hs|]. by eapply fits_perm. Qed.

Lemma merged_stored drop ess es :
  merged drop ess es -> Forall (fun es => stored <$> es = es) ess -> stored <$> es = es.
Proof.
  intros [_ _ (all & Hs & Hp)] Hst. rewrite <- (list_fmap_id es) at 2. apply list_fmap_ext. intros j e He.
  apply list_elem_of_lookup_2 in He. apply (elem_of_sublist _ _ _ Hs) in He. rewrite Hp in He.
  apply list_elem_of_In, in_concat in He as (es' & Hes'%list_elem_of_In & He%list_elem_of_In).
  rewrite Forall_forall in Hst. specialize (Hst _ Hes').
  apply list_elem_of_lookup in He as [k He]. pose proof (list_lookup_fmap stored es' k) as Hl.
  rewrite Hst, He in Hl. by injection Hl.
Qed.

Lemma merged_len drop ess es : merged drop ess es -> len es <= len (concat ess).
Proof. intros [_ _ (all & Hs & Hp)]. apply sublist_length in Hs. rewrite (Permutation_length Hp) in Hs. lia. Qed.

(** The loop and [Finish] on a new writer: the table of the merged entries. *)
Lemma merge_write opts readers its h ess ts outPath f i w wr (o := default (mkOptions false 0 0) opts)
    (wo := out_options opts) (es := merge_out (drops opts) None ts) :
  mergeable opts ess -> Forall ascending ess -> ts ≡ₚ items 0 ess -> StronglySorted ilt ts ->
  merging readers its h ess w -> (length ts <= merge_fuel readers)%nat -> (forall r, r ∈ readers -> foreign f i w r) ->
  writing (interval wo) f i outPath (BlockSize (normalize wo)) (Builder.fp (Builder.NewBuilder (BloomFP (normalize wo))))
    w (wr, w) [] [] ->
  exists wr' w' blocks bf (c := table_bytes (interval wo) blocks bf),
    scoped (
      '(kept, dropped) ← merge_loop (merge_fuel readers) o readers its h None 0 0;
      meta ← Finish;
      mret (meta, kept, dropped)) wr w =
      (Ok ((mkMeta outPath (head es ≫= Key) (last_key None es) (max_seq es) (len es) (len c), tombs es,
        len (concat ess) - len es), wr'), w') /\
    concat blocks = es /\ Forall (block_ok (interval wo)) blocks /\ shaped bf /\ m bf <= 2 ^ 50 /\
    (forall key, key ∈ ekey <$> es -> Bloom.MayContain (Some bf) key = Ok true) /\
    calm w' /\ touches f i w w' /\ inodes w' !! i = Some c.
Proof.
  intros [Hfit Hbs Hbl] Hasc Hp Hs Hm Hfuel Hfor Hw.
  pose proof (merge_out_merged (drops opts) ess ts Hasc Hfit Hp Hs) as Hmg. fold es in Hmg.
  assert (length ts = length (concat ess)) as Hlts by (rewrite Hp, <- (untag_items ess 0); by rewrite length_fmap).
  pose proof (merged_fits _ _ _ Hmg Hfit) as Hfit'. pose proof (merged_len _ _ _ Hmg) as Hlen.
  destruct (merge_loop_spec (interval wo) (interval_pos wo) f i outPath (BlockSize (normalize wo))
    (Builder.fp (Builder.NewBuilder (BloomFP (normalize wo)))) w (conj (proj1 (normalize_pos wo)) Hbs) o readers Hfor
    ts (merge_fuel readers) its h ess None 0 0 wr w [] []) as (wr3 & w3 & blocks & cur & Hloop & Hw3 & Hpk & Hall); try done.
  { apply normalize_pos. }
  { exact (md_ascending _ _ _ Hmg). }
  { rewrite Hlts. destruct Hfit as [_ _ Hsz]. pose proof (tsize_len (concat ess)). lia. }
  cbn [concat app] in Hall. change (merge_out (DropTombstones o) None ts) with es in *.
  destruct (Finish_spec (interval wo) (interval_pos wo) _ _ _ _ _ _ _ _ _ _ Hw3 Hpk) as
    (wr4 & w4 & blocks' & bf & Hfin & Hes & Hblk & Hsh & Hbm & Hmay & Hc4 & Ht4 & Hi4).
  { by rewrite Hall. }
  { rewrite Hall. apply Hbl. lia. }
  rewrite Hall in Hes. rewrite Hes in *. exists wr4, w4, blocks', bf. split_and!; try done.
  unfold scoped. rewrite (M_bind_Ok _ _ _ _ _ Hloop). cbv beta iota. rewrite (M_bind_Ok _ _ _ _ _ Hfin).
  rewrite Hlts. by rewrite !Z.add_0_l.
Qed.

Lemma MergeFiles_run inputs ess outPath opts w :
  calm w -> names_ok w -> inputs <> [] ->
  Forall2 (fun x es => holds w (iPath x) es) inputs ess ->
  names w !! outPath = None -> mergeable opts ess ->
  exists es meta w',
    MergeFiles inputs outPath opts w =
      (Ok (mkResult outPath meta (iPath <$> inputs) (tombs es) (len (concat ess) - len es)), w') /\
    merged (drops opts) ess es /\
    mPath meta = outPath /\ MinKey meta = (head es ≫= Key) /\ MaxKey meta = last_key None es /\
    mMaxSeq meta = max_seq es /\ mEntries meta = len es /\ 0 <= mFileSize meta < 2 ^ 62 /\
    calm w' /\ names_ok w' /\ names w' = <[outPath := length (inodes w)]> (names w) /\
    (forall i c, inodes w !! i = Some c -> inodes w' !! i = Some c) /\
    (forall g d, fds w !! g = Some d -> fds w' !! g = Some d) /\
    holds w' outPath es.
Proof.
  intros Hc Hn Hne Hin Hout Hmb. pose proof Hmb as [Hfit Hbs _].
  assert (Forall (fun es => ascending es /\ stored <$> es = es) ess) as Hess.
  { rewrite Forall_lookup. intros j es Hj. destruct (Forall2_lookup_r _ _ _ _ _ Hin Hj) as (x & _ & (i & c & _ & _ & Ht)).
    by destruct (table_file_fits c es Ht) as (_ & ? & ?). }
  apply Forall_and in Hess as [Hasc Hst].
  destruct (open_all_spec inputs ess [] [] w Hc Hin) as (readers & ds & Hopen & Huse & Hnew); [constructor|]. cbn [app] in Huse.
  set (w1 := set_fds (fds w ++ ds) w) in *.
  destruct (start_merging w1 readers ess Huse) as (its & h & Hstart & Hm).
  destruct (sorted_items ess Hasc) as (ts & Hp & Hs).
  set (o := default (mkOptions false 0 0) opts). set (wo := out_options opts).
  destruct (Create_spec outPath wo w1 Hc Hn Hbs) as (i & wr & w2 & Hcreate & Hw2 & Hn2 & Hok2 & Hi & Hpres).
  destruct Hi as [Hi|Hi]; [cbn in Hi; by rewrite Hout in Hi|]. cbv zeta in Hw2.
  pose proof (wr_calm _ _ _ _ _ _ _ _ _ _ Hw2) as Hc2. cbn [snd] in Hc2.
  assert (Hkf: forall r, r ∈ readers -> keeps r w1 w2 /\ foreign (length (fds w1)) i w2 r).
  { intros r Hr. eapply keeps_foreign; [done..|lia|done|done]. }
  pose proof (merge_out_merged (drops opts) ess ts Hasc Hfit Hp Hs) as Hmg.
  pose proof (merged_fits _ _ _ Hmg Hfit) as Hfit'.
  destruct (merge_write opts readers its h ess ts outPath (length (fds w1)) i w2 wr Hmb Hasc Hp Hs) as
    (wr4 & w4 & blocks' & bf & Hrun & Hes & Hblk & Hsh & Hbm & Hmay & Hc4 & Ht4 & Hi4); [..|done|].
  { eapply merging_keeps; [|exact Hm]. intros r Hr. by apply Hkf. }
  { rewrite Hp, <- (length_fmap untag), untag_items. by eapply in_use_fuel. }
  { intros r Hr. by apply Hkf. }
  set (es := merge_out (drops opts) None ts) in *.
  set (meta := mkMeta outPath (head es ≫= Key) (last_key None es) (max_seq es) (len es)
    (len (table_bytes (interval wo) blocks' bf))) in *.
  destruct Ht4 as (T1 & T2 & T3 & T4 & _). destruct Hpres as [P1 P2].
  pose proof (fun m => closing_Ok readers m w1 (mkResult outPath meta (iPath <$> inputs) (tombs es)
    (len (concat ess) - len es)) w4) as Hcl.
  exists es, meta. unfold MergeFiles. rewrite (proj2 (Z.eqb_neq (len inputs) 0)) by (destruct inputs; [done|cbn; lia]).
  rewrite (M_bind_Ok _ _ _ _ _ Hopen). fold o.
  match goal with |- exists w', closing readers ?m w1 = _ /\ _ => destruct (Hcl m) as (w5 & H1 & H2 & H3 & H4 & H5) end.
  - rewrite (M_bind_Ok _ _ _ _ _ Hstart). cbv beta iota. rewrite (M_bind_Ok _ _ _ _ _ Hcreate).
    by rewrite (M_bind_Ok _ _ _ _ _ Hrun).
  - done.
  - exists w5. split; [exact H1|]. split; [done|]. split_and!; try done.
    + cbn. lia.
    + apply table_bytes_size; [apply interval_pos|done|by rewrite Hes|done|done].
    + unfold names_ok. rewrite H3, H4, T1, T4. exact Hok2.
    + rewrite H3, T1, Hn2, Hi. done.
    + intros j c Hj. rewrite H4, T2; [apply P1; [|done]|]; apply lookup_lt_Some in Hj; cbn in Hi; lia.
    + intros g d Hd. pose proof (lookup_lt_Some _ _ _ Hd) as Hlt. rewrite H5.
      * rewrite T3; [apply P2; cbn; by apply lookup_app_l_Some|]. cbn. rewrite length_app. lia.
      * intros r [Hr|(g' & Hg' & Hge)]%Hnew; [by apply not_elem_of_nil in Hr|]. rewrite Hg'. intros [= ->]. lia.
    + exists i, (table_bytes (interval wo) blocks' bf). rewrite H3, H4, T1, Hn2, lookup_insert_eq. split_and!; try done.
      exists (interval wo), blocks', bf. rewrite Hes. split_and!; try done; [apply interval_pos|..].
      * symmetry. by eapply merged_stored.
      * exact (md_ascending _ _ _ Hmg).
Qed.
End merging.

(** ** Planning *)

(** [cp] keeps its first [i] elements, and the [i]-th is least of those seen. *)
Lemma pick_inner_spec i : forall k j cp,
  (i < j)%nat -> (j + k)%nat = length cp ->
  (forall m a b, (i < m < j)%nat -> cp !! i = Some a -> cp !! m = Some b -> fSize a <= fSize b) ->
  exists cp', pick_inner k i j cp = Ok cp' /\ cp' ≡ₚ cp /\ take i cp' = take i cp /\
    forall m a b, (i < m)%nat -> cp' !! i = Some a -> cp' !! m = Some b -> fSize a <= fSize b.
Proof.
  induction k as [|k IH]; intros j cp Hij Hlen Hmin.
  - exists cp. split_and!; [done..|]. intros m a b Hm Ha Hb. apply (Hmin m); [|done..].
    apply lookup_lt_Some in Hb. lia.
  - destruct (lookup_lt_is_Some_2 cp i) as [b Hb]; [lia|]. destruct (lookup_lt_is_Some_2 cp j) as [a Ha]; [lia|].
    cbn [pick_inner]. rewrite !(proj2 (index_lookup cp _ _)) by (rewrite Nat2Z.id; split; [lia|eauto]).
    rewrite !outcome_bind_Ok. destruct (Z.ltb_spec (fSize a) (fSize b)) as [Hlt|Hge].
    + set (cp1 := <[i:=a]> (<[j:=b]> cp)).
      assert (Hi1: cp1 !! i = Some a) by (unfold cp1; apply list_lookup_insert_eq; rewrite length_insert; lia).
      assert (Hj1: cp1 !! j = Some b) by (unfold cp1; rewrite list_lookup_insert_ne, list_lookup_insert_eq by lia; done).
      destruct (IH (S j) cp1) as (cp' & H1 & H2 & H3 & H4).
      * lia.
      * unfold cp1. rewrite !length_insert. lia.
      * intros m a' b' Hm Ha' Hb'. assert (a' = a) as -> by congruence. destruct (decide (m = j)) as [->|Hne].
        -- assert (b' = b) as -> by congruence. lia.
        -- unfold cp1 in Hb'. rewrite !list_lookup_insert_ne in Hb' by lia.
           pose proof (Hmin m b b' ltac:(lia) Hb Hb'). lia.
      * exists cp'. split_and!; [done| | |done].
        -- rewrite H2. by apply Permutation_insert_swap.
        -- rewrite H3. unfold cp1. rewrite !take_insert_ge by lia. done.
    + destruct (IH (S j) cp) as (cp' & H1 & H2 & H3 & H4); [lia|lia| |by exists cp'].
      intros m a' b' Hm Ha' Hb'. assert (a' = b) as -> by congruence. destruct (decide (m = j)) as [->|Hne].
      * assert (b' = a) as -> by congruence. done.
      * by apply (Hmin m); [lia|..].
Qed.

Definition by_size (a b : FileRef) : Prop := fSize a <= fSize b.

Lemma pick_outer_spec k : forall i cp,
  (i + k)%nat = length cp ->
  (forall m n a b, (m < i)%nat -> (m < n)%nat -> cp !! m = Some a -> cp !! n = Some b -> fSize a <= fSize b) ->
  exists cp', pick_outer k i cp = Ok cp' /\ cp' ≡ₚ cp /\
    forall m n a b, (m < n)%nat -> cp' !! m = Some a -> cp' !! n = Some b -> fSize a <= fSize b.
Proof.
  induction k as [|k IH]; intros i cp Hlen Hso.
  - exists cp. split_and!; [done..|]. intros m n a b Hmn Ha Hb. apply (Hso m n); [|done..].
    apply lookup_lt_Some in Ha. lia.
  - cbn [pick_outer]. destruct (pick_inner_spec i (length cp - S i) (S i) cp) as (cp1 & H1 & H2 & H3 & H4); [lia|lia|lia|].
    rewrite H1, outcome_bind_Ok.
    assert (Hlt: forall m a, (m < i)%nat -> cp1 !! m = Some a -> cp !! m = Some a).
    { intros m a Hm Ha. rewrite <- (lookup_take_lt _ i) by done. rewrite <- H3. by rewrite lookup_take_lt. }
    destruct (IH (S i) cp1) as (cp' & H5 & H6 & H7).
    + rewrite H2. lia.
    + intros m n a b Hm Hmn Ha Hb. destruct (decide (m = i)) as [->|Hne]; [by apply (H4 n)|].
      pose proof (Hlt m a ltac:(lia) Ha) as Ha0. destruct (decide (n < i)%nat) as [Hni|Hni].
      * apply (Hso m n); [lia|done|done|by apply Hlt].
      * (* every later element was a later one before *)
        assert (drop i cp1 ≡ₚ drop i cp) as Hd.
        { rewrite <- (take_drop i cp1), <- (take_drop i cp), H3 in H2. by apply Permutation_app_inv_l in H2. }
        assert (b ∈ drop i cp) as (q & Hq)%list_elem_of_lookup.
        { rewrite <- Hd. apply (list_elem_of_lookup_2 _ (n - i)). rewrite lookup_drop. by replace (i + (n - i))%nat with n by lia. }
        rewrite lookup_drop in Hq. apply (Hso m (i + q)%nat); [lia|lia|done|done].
    + exists cp'. split_and!; [done| |done]. by rewrite H6.
Qed.

Lemma plan_loop_spec files : forall out,
  plan_loop files out = out ++ ((fun f => mkInput (fPath f) 0) <$> filter (fun f => fLevel f = 0) files).
Proof.
  induction files as [|f files IH]; intros out; [by rewrite app_nil_r|]. cbn [plan_loop]. rewrite filter_cons, IH.
  destruct (Z.eqb_spec (fLevel f) 0); [rewrite decide_True by done|by rewrite decide_False].
  by rewrite <- app_assoc.
Qed.

Lemma sorted_loop_spec rest : forall prev,
  (sorted_loop prev rest = Ok tt /\ Sorted ble (ekey <$> prev :: rest)) \/
  (sorted_loop prev rest = Err (fmt_Errorf "compact: not sorted at %d") /\ ~ Sorted ble (ekey <$> prev :: rest)).
Proof.
  induction rest as [|e rest IH]; intros prev; [left; split; [done|by repeat constructor]|]. cbn [sorted_loop].
  destruct (Z.ltb_spec 0 (Compare (bs (Key prev)) (bs (Key e)))) as [Hlt|Hle].
  - right. split; [done|]. intros Hs. cbn in Hs. apply Sorted_inv in Hs as [_ Hh]. apply HdRel_inv in Hh.
    apply compare_gt in Hlt. exact (proj2 (not_blt _ _) Hh Hlt).
  - apply compare_le in Hle. destruct (IH e) as [[-> Hs]|[-> Hs]]; [left|right]; split; try done.
    + cbn in *. constructor; [exact Hs|by constructor].
    + intros Hs'. apply Hs. cbn in *. by apply Sorted_inv in Hs' as [? _].
Qed.

(** ** A damaged input *)

(** A newer table that deletes one key of [demo] and rewrites another. *)
Definition demo2 : list Entry :=
  [mkEntry (Some [x61]) None 20 true; mkEntry (Some [x62; x63]) (Some [x34]) 21 false].

(** The merge of [demo] and [demo2], with the first byte of [demo]'s file
    damaged if [bad], and what the output answers for the keys. *)
Definition demo_world (bad : bool) : World :=
  let '(_, w1) := @WriteFile Q Q_Float64 "a" demo demo_opts empty_world in
  let '(_, w2) := @WriteFile Q Q_Float64 "b" demo2 demo_opts w1 in
  if bad then set_inodes (alter (fun c => <[0%nat := xff]> c) 0%nat (inodes w2)) w2 else w2.
Definition demo_merge (drop bad : bool) : outcome Result * World :=
  @MergeFiles Q Q_Float64 [mkInput "a" 0; mkInput "b" 0] "c" (Some (mkOptions drop 1 4)) (demo_world bad).
Definition demo_answers (drop bad : bool) : option (list (outcome (option Entry))) :=
  let '(o, w) := demo_merge drop bad in
  match Open "c" w with
  | (Ok r, w') => Some ((fun k => fst (Get r k w')) <$> [[x61]; [x61; x62]; [x62; x63]])
  | _ => None
  end.

(** * Theorems *)

(** C7: a merge keeps what a reader of the inputs together would see.  On
    well-formed tables [MergeFiles] succeeds, whatever the number of inputs;
    the output can be opened and answers, for every key, the newest of the
    inputs' entries (the highest sequence number, the earlier input on a
    tie), except that a newest entry that is a tombstone is absent when
    tombstones are dropped.  The counters of the result are the tombstones
    written and the entries left out, the metadata counts the entries
    written, and no input file changes. *)
Theorem MergeFiles_merges {F} `{Float64 F} inputs ess outPath opts w
  (Hc : calm w) (Hn : names_ok w) (Hne : inputs <> [])
  (Hin : Forall2 (fun x es => holds w (iPath x) es) inputs ess)
  (Hout : names w !! outPath = None) (Hm : mergeable opts ess) :
  exists es meta w' r w'',
    MergeFiles inputs outPath opts w =
      (Ok (mkResult outPath meta (iPath <$> inputs) (tombs es) (len (concat ess) - len es)), w') /\
    Open outPath w' = (Ok r, w'') /\
    (forall k, Get r k w'' = (Ok (visible (drops opts) (newest k ess)), w'')) /\
    ascending es /\ (forall k, lookup_entry k es = visible (drops opts) (newest k ess)) /\
    mEntries meta = len es /\ mMaxSeq meta = max_seq es /\
    Forall2 (fun x es => holds w' (iPath x) es) inputs ess.
Proof.
  destruct (MergeFiles_run inputs ess outPath opts w Hc Hn Hne Hin Hout Hm) as
    (es & meta & w' & Hrun & [Ha Hl _] & _ & _ & _ & Hseq & Hent & _ & Hc' & _ & Hn' & Hi' & _ & Hh).
  destruct (access_Open outPath w' es Hc' Hh) as (r & i & Ho & _ & _ & _ & _ & Hop & _).
  exists es, meta, w', r. eexists. split_and!; [exact Hrun|exact Ho| |done..|].
  - intros k. rewrite (access_Get _ _ _ _ Hop). by rewrite Hl.
  - eapply Forall2_impl; [exact Hin|]. intros x es' (j & c & Hj & Hcj & Ht). exists j, c. split_and!; [|by apply Hi'|done].
    rewrite Hn', lookup_insert_ne; [done|]. congruence.
Qed.

(** [PickBySize] returns the [n] smallest files in ascending order of
    size: a prefix of a sorted permutation of its argument. *)
Theorem PickBySize_smallest files n :
  exists cp, PickBySize files n = Ok (take (Z.to_nat n) cp) /\ cp ≡ₚ files /\ StronglySorted by_size cp.
Proof.
  destruct (pick_outer_spec (length files) 0 files) as (cp & H1 & H2 & H3); [lia|lia|].
  exists cp. split_and!; [|done|].
  - unfold PickBySize. destruct (Z.leb_spec n 0) as [Hn|Hn]; cbn [orb]; [by replace (Z.to_nat n) with 0%nat by lia|].
    destruct (Z.eqb_spec (len files) 0) as [Hz|Hz].
    + assert (cp = []) as -> by (apply length_zero_iff_nil; rewrite H2; lia). by rewrite take_nil.
    + rewrite H1, outcome_bind_Ok. case_match eqn:Hlt.
      * rewrite subslice_take by lia. f_equal. rewrite !take_ge; [done|lia|lia].
      * apply subslice_take. lia.
  - clear H1 H2. induction cp as [|a cp IH]; [constructor|]. constructor.
    + apply IH. intros m k x y Hmk. apply (H3 (S m) (S k)). lia.
    + rewrite Forall_lookup. intros m b Hb. by apply (H3 0%nat (S m)); [lia|..].
Qed.

(** [ValidateSorted] succeeds exactly on entries whose keys do not
    descend, and reports an error on all others. *)
Theorem ValidateSorted_exact entries :
  (ValidateSorted entries = Ok tt /\ StronglySorted ble (ekey <$> entries)) \/
  (ValidateSorted entries = Err (fmt_Errorf "compact: not sorted at %d") /\
   ~ StronglySorted ble (ekey <$> entries)).
Proof.
  destruct entries as [|e rest]; [left; split; [done|constructor]|]. cbn [ValidateSorted].
  destruct (sorted_loop_spec rest e) as [[-> Hs]|[-> Hs]]; [left|right]; (split; [done|]).
  - apply Sorted_StronglySorted; [|done]. intros a b c. apply (transitivity (R := ble)).
  - intros Hss. apply Hs. by apply StronglySorted_Sorted.
Qed.

(** [CompactDir] leaves nothing behind when its merge fails: the error is
    returned and the name it allocated for the output is gone. *)
Theorem CompactDir_cleans {F} `{Float64 F} {T} dir files (alloc : M (T * World) string) opts s w name s1 w1 e w2
  (Hp : 2 <= len (PlanLevel0 files 2)) (Ha : alloc (s, w) = (Ok name, (s1, w1)))
  (Hm : MergeFiles (PlanLevel0 files 2) (filepath_Join dir name) opts w1 = (Err e, w2)) (Hc : calm w2) :
  exists w3, CompactDir dir files alloc opts (s, w) = (Err e, (s1, w3)) /\
    names w3 = delete (filepath_Join dir name) (names w2) /\ inodes w3 = inodes w2.
Proof.
  unfold CompactDir. rewrite (proj2 (Z.eqb_neq _ 0)) by lia.
  rewrite (M_bind_Ok _ _ _ (PlanLevel0 files 2) (s, w)) by done. rewrite (M_bind_Ok _ _ _ _ _ Ha).
  rewrite (M_bind_Ok _ _ _ (inr e) (s1, w2)) by (unfold try_, zoom; cbn [fst snd]; by rewrite Hm).
  unfold try_, zoom, mbind, M_bind. cbn [fst snd]. unfold Remove. rewrite syscall_calm by done.
  destruct (names w2 !! filepath_Join dir name) as [i|] eqn:E; eexists; (split; [done|]); cbn; split; try done.
  by rewrite delete_id.
Qed.

(** a merge does not notice a damaged block.  With the first byte of an
    input changed, a lookup in that input reports corruption for the key of
    the damaged block and still answers the keys of the later blocks; yet
    [MergeFiles] returns no error, and its output lacks the keys of the later
    blocks that only this input has, because the loop reads an iterator that
    stopped on an error as one that has reached its end. *)
Example MergeFiles_loses_damaged :
  let answers := fun path w k => match Open path w with (Ok r, w') => fst (Get r k w') | _ => Err ErrCorrupt end in
  exists res w, demo_merge false true = (Ok res, w) /\
    answers "a"%string (demo_world true) [x61] = Err ErrCorrupt /\
    answers "a"%string (demo_world true) [x61; x62] = Ok (Some (mkEntry (Some [x61; x62]) (Some []) 9 true)) /\
    answers "c"%string w [x61; x62] = Ok None /\
    demo_answers false false ≫= (.!! 1%nat) = Some (Ok (Some (mkEntry (Some [x61; x62]) (Some []) 9 true))).
Proof. eexists _, _. split; [vm_compute; reflexivity|]. by vm_compute. Qed.

(** ** Witnesses *)

Lemma demo2_writable : @writable Q Q_Float64 demo_opts demo2.
Proof.
  split; [by repeat constructor| |by vm_compute|intros q [->| ->]; vm_compute; discriminate].
  split; [repeat constructor; try done; by vm_compute..|by repeat constructor|by vm_compute].
Qed.

(** Two tables on disk. *)
Lemma two_tables : exists w, calm w /\ names_ok w /\ holds w "a" (stored <$> demo) /\ holds w "b" (stored <$> demo2) /\
  names w !! "c"%string = None.
Proof.
  destruct (@WriteFile_holds Q Q_Float64 "a" demo demo_opts empty_world empty_calm empty_names demo_writable eq_refl)
    as (w1 & n1 & _ & Hh1 & Hc1 & Hn1 & Hnm1 & _).
  assert (names w1 !! "b"%string = None) as Hb by (by rewrite Hnm1).
  destruct (@WriteFile_holds Q Q_Float64 "b" demo2 demo_opts w1 Hc1 Hn1 demo2_writable Hb)
    as (w2 & n2 & _ & Hh2 & Hc2 & Hn2 & Hnm2 & Hp2 & _).
  exists w2. split_and!; try done; [|by rewrite Hnm2, Hnm1]. by apply (holds_preserved w1 w2 "a" "b" _ (length (inodes w1)) Hh1).
Qed.

Lemma demo_mergeable : @mergeable Q Q_Float64 (Some (mkOptions true 1 4)) [stored <$> demo; stored <$> demo2].
Proof.
  split; [|by vm_compute|].
  - split; [repeat constructor; try done; by vm_compute..|by repeat constructor|by vm_compute].
  - intros n Hn. change (len (concat _)) with 5 in Hn.
    assert (n = 0 \/ n = 1 \/ n = 2 \/ n = 3 \/ n = 4 \/ n = 5) as Hc by lia.
    repeat (destruct Hc as [->|Hc]; [intros q [->| ->]; vm_compute; discriminate|]). subst n.
    intros q [->| ->]; vm_compute; discriminate.
Qed.

Lemma MergeFiles_merges_witness :
  let ess := [stored <$> demo; stored <$> demo2] in
  let inputs := [mkInput "a" 0; mkInput "b" 0] in
  exists w es meta w' r w'',
    @MergeFiles Q Q_Float64 inputs "c" (Some (mkOptions true 1 4)) w =
      (Ok (mkResult "c" meta (iPath <$> inputs) (tombs es) (len (concat ess) - len es)), w') /\
    Open "c" w' = (Ok r, w'') /\
    (forall k, Get r k w'' = (Ok (visible true (newest k ess)), w'')) /\
    ascending es /\ (forall k, lookup_entry k es = visible true (newest k ess)) /\
    mEntries meta = len es /\ mMaxSeq meta = max_seq es /\
    Forall2 (fun x es => holds w' (iPath x) es) inputs ess.
Proof.
  destruct two_tables as (w & Hc & Hn & Ha & Hb & Hout). exists w.
  apply (@MergeFiles_merges Q Q_Float64 [mkInput "a" 0; mkInput "b" 0] [stored <$> demo; stored <$> demo2] "c"
    (Some (mkOptions true 1 4)) w Hc Hn); [done| |done|apply demo_mergeable].
  constructor; [exact Ha|]. constructor; [exact Hb|constructor].
Defined.

(** The same merge, computed. *)
Example demo_merged :
  demo_answers true false = Some [Ok None; Ok None; Ok (Some (mkEntry (Some [x62; x63]) (Some [x34]) 21 false))].
Proof. by vm_compute. Qed.

(** A plan with a missing file, and an allocator that counts its calls. *)
Definition demo_alloc : M (nat * World) string := fun s => (Ok "c"%string, (S (fst s), snd s)).
Definition demo_refs : list FileRef := [mkFileRef "a" "a" 0 10; mkFileRef "zz" "zz" 0 20].

Lemma CompactDir_cleans_witness :
  let w := demo_world false in
  let w1 := snd (@MergeFiles Q Q_Float64 (PlanLevel0 demo_refs 2) (filepath_Join "d" "c") None w) in
  exists e w3, @CompactDir Q Q_Float64 nat "d" demo_refs demo_alloc None (0%nat, w) = (Err e, (1%nat, w3)) /\
    names w3 = delete (filepath_Join "d" "c") (names w1) /\ inodes w3 = inodes w1.
Proof.
  eexists.
  apply (@CompactDir_cleans Q Q_Float64 nat "d" demo_refs demo_alloc None 0%nat (demo_world false) "c" 1%nat
    (demo_world false) (os_error ErrNotExist)
    (snd (@MergeFiles Q Q_Float64 (PlanLevel0 demo_refs 2) (filepath_Join "d" "c") None (demo_world false))));
    [by vm_compute|done| |by vm_compute].
  vm_compute. reflexivity.
Defined.
