(* ===== verification/OsFacts.v ===== *)
(** * OsFacts: whole-file operations

    What writing, replacing and opening files does in a world without failures
    ahead, for clients that keep other files open. *)

From Stdlib Require Import ZArith Lia Strings.Byte.
From stdpp Require Import base decidable list gmap strings numbers.
From S2P Require Import Prelude Os.
#[local] Open Scope Z_scope.

(** Files and descriptors that exist in [w] are the same in [w']. *)
Definition grows (w w' : World) : Prop :=
  (forall j c, inodes w !! j = Some c -> inodes w' !! j = Some c) /\
  (forall g d, fds w !! g = Some d -> fds w' !! g = Some d).

#[export] Instance grows_preorder : PreOrder grows.
Proof. split; [by split|]. intros w1 w2 w3 [I1 F1] [I2 F2]. split; eauto. Qed.

Lemma grows_has_file w w' f i p c : grows w w' -> has_file w f i p c -> has_file w' f i p c.
Proof. intros [G1 G2] [H1 H2]. split; eauto. Qed.

Lemma grows_length w w' : grows w w' -> (length (inodes w) <= length (inodes w'))%nat.
Proof.
  intros [G _]. destruct (decide (length (inodes w) = 0)%nat) as [?|?]; [lia|].
  destruct (lookup_lt_is_Some_2 (inodes w) (length (inodes w) - 1)) as [c Hc]; [lia|].
  apply G, lookup_lt_Some in Hc. lia.
Qed.

(** Changing a new file only. *)
Lemma touches_grows w w1 w2 f i :
  grows w w1 -> touches f i w1 w2 -> (length (fds w) <= f)%nat -> (length (inodes w) <= i)%nat -> grows w w2.
Proof.
  intros [G1 G2] (_ & T2 & T3 & _) Hf Hi. split.
  - intros j c Hj. rewrite T2; [by apply G1|]. apply lookup_lt_Some in Hj. lia.
  - intros g d Hg. rewrite T3; [by apply G2|]. apply lookup_lt_Some in Hg. lia.
Qed.

Lemma WriteFile_fresh w path b :
  calm w -> names_ok w -> names w !! path = None ->
  exists w', WriteFile path b w = (Ok tt, w') /\ calm w' /\ grows w w' /\
    names w' = <[path := length (inodes w)]> (names w) /\ inodes w' = inodes w ++ [b].
Proof.
  intros Hc Hn Hp. set (f := length (fds w)). set (i := length (inodes w)).
  destruct (OpenFile_create w path (mkFlags true false true) Hc Hp eq_refl) as (w1 & Ho & Hc1 & Hf1 & Hn1 & Hi1).
  fold f in Ho, Hf1. fold i in Hf1, Hn1. assert (grows w w1) as G1.
  { unfold OpenFile in Ho. rewrite syscall_calm, Hp in Ho by done. cbn in Ho. injection Ho as <-.
    split; cbn; intros; by apply lookup_app_l_Some. }
  pose proof (Write_end w1 f i [] b Hc1 Hf1) as Hw. set (w2 := put_file _ _ _ _ _) in Hw.
  destruct (Close_spec w2 f i (len b) b) as (w3 & Hcl & Hc3 & Ht3 & Hi3); [done|by eapply put_file_has|].
  exists w3. split_and!; try done.
  - unfold WriteFile. rewrite (M_bind_Ok _ _ _ _ _ Ho).
    rewrite (M_bind_Ok _ _ _ (inl (len b)) w2) by (unfold try_; by rewrite Hw).
    rewrite (M_bind_Ok _ _ _ (inl tt) w3) by (unfold try_; by rewrite Hcl). done.
  - assert (touches f i w1 w2) as Ht2 by apply put_file_touches.
    apply (touches_grows w w1 w3 f i); [done|by transitivity w2|done..].
  - destruct Ht3 as (-> & _). done.
  - rewrite Hi3. cbn. rewrite Hi1. unfold i. by rewrite insert_app_r_alt, Nat.sub_diag.
Qed.

(** A name that no other file has. *)
Definition unshared (p : string) (w : World) : Prop := forall t q, names w !! p = Some t -> names w !! q = Some t -> q = p.

Lemma unshared_subset p w w' : names w' ⊆ names w -> unshared p w -> unshared p w'.
Proof. intros Hs Hu t q H1 H2. apply (Hu t); by eapply lookup_weaken. Qed.
Lemma unshared_none p w : names w !! p = None -> unshared p w.
Proof. intros Hp t q Hq. congruence. Qed.

(** Names other than [ps] and their files are the same in [w'], and files that
    are open stay so. *)
Record steady (ps : list string) (w w' : World) : Prop := {
  st_names p : p ∉ ps -> names w' !! p = names w !! p;
  st_files p j c : p ∉ ps -> names w !! p = Some j -> inodes w !! j = Some c -> inodes w' !! j = Some c;
  st_fds g d : fds w !! g = Some d -> fds w' !! g = Some d
}.

#[export] Instance steady_preorder ps : PreOrder (steady ps).
Proof.
  split; [by split|]. intros w1 w2 w3 [N1 I1 F1] [N2 I2 F2]. split; [|intros p j c Hp Hj Hc|intros g d Hg; by apply F2, F1].
  - intros p Hp. by rewrite N2, N1.
  - apply (I2 p); [done|by rewrite N1|by apply (I1 p)].
Qed.

Lemma grows_steady ps w w' : grows w w' -> (forall p, p ∉ ps -> names w' !! p = names w !! p) -> steady ps w w'.
Proof. intros [G1 G2] Hn. split; [done| |done]. intros p j c _ _. apply G1. Qed.

Lemma steady_more ps qs w w' : ps ⊆ qs -> steady ps w w' -> steady qs w w'.
Proof.
  intros Hpq [N I F]. assert (forall p, p ∉ qs -> p ∉ ps) as Hn by (intros p Hp ?%Hpq; done).
  split; [intros p Hp; by apply N, Hn|intros p j c Hp; by apply (I p j c), Hn|done].
Qed.

Lemma steady_fds ps w w' : steady ps w w' -> (length (fds w) <= length (fds w'))%nat.
Proof.
  intros [_ _ G]. destruct (decide (length (fds w) = 0)%nat) as [?|?]; [lia|].
  destruct (lookup_lt_is_Some_2 (fds w) (length (fds w) - 1)) as [x Hx]; [lia|]. apply G, lookup_lt_Some in Hx. lia.
Qed.

(** os.WriteFile writes a new file, or over the one that has the name. *)
Lemma WriteFile_run w path b :
  calm w -> names_ok w -> unshared path w ->
  exists w' i, WriteFile path b w = (Ok tt, w') /\ calm w' /\ names_ok w' /\ names w' = <[path := i]> (names w) /\
    inodes w' !! i = Some b /\ (forall q, names w !! q = Some i -> q = path) /\ preserves i w w'.
Proof.
  intros Hc Hn Hu. set (f := length (fds w)).
  destruct (OpenFile_trunc w path Hc Hn) as (w1 & i & Ho & Hc1 & Hf1 & Hn1 & Hok1 & Hi & Hk1 & Hg1). fold f in Ho, Hf1.
  pose proof (Write_end w1 f i [] b Hc1 Hf1) as Hw. set (w2 := put_file _ _ _ _ _) in Hw.
  destruct (Close_spec w2 f i (len b) b) as (w3 & Hcl & Hc3 & Ht3 & Hi3); [done|by eapply put_file_has|].
  pose proof (put_file_touches f i (0 + len b) ([] ++ b) w1) as Ht2. fold w2 in Ht2.
  assert (touches f i w1 w3) as (T1 & T2 & T3 & T4 & _) by by transitivity w2.
  exists w3, i. split_and!; try done.
  - unfold WriteFile. rewrite (M_bind_Ok _ _ _ _ _ Ho).
    rewrite (M_bind_Ok _ _ _ (inl (len b)) w2) by (unfold try_; by rewrite Hw).
    by rewrite (M_bind_Ok _ _ _ (inl tt) w3) by (unfold try_; by rewrite Hcl).
  - unfold names_ok. by rewrite T1, T4.
  - by rewrite T1.
  - rewrite Hi3. cbn. apply list_lookup_insert_eq. destruct Hf1 as [_ Hf1]. by eapply lookup_lt_Some.
  - intros q Hq. destruct Hi as [Hp|Hnew]; [by apply (Hu i)|]. specialize (Hn q i Hq). cbn in Hn. lia.
  - split; [intros j c Hj Hc0; rewrite T2 by done; by apply Hk1|]. intros g d Hg. rewrite T3; [by apply Hg1|].
    apply lookup_lt_Some in Hg. unfold f. lia.
Qed.

(** Opening for reading and writing, and closing again. *)
Lemma Open_grows w path i c fl :
  calm w -> names w !! path = Some i -> inodes w !! i = Some c -> O_EXCL fl = false -> O_TRUNC fl = false ->
  exists w', OpenFile path fl w = (Ok (length (fds w)), w') /\ calm w' /\ grows w w' /\
    has_file w' (length (fds w)) i 0 c /\ names w' = names w /\ inodes w' = inodes w.
Proof.
  intros Hc Hn Hi Hx Ht. destruct (OpenFile_existing w path i c fl Hc Hn Hi Hx Ht) as (w' & Ho & Hc' & Hf & Hn' & Hi').
  exists w'. split_and!; try done. unfold OpenFile in Ho. rewrite syscall_calm, Hn, Hx, Ht, andb_false_r in Ho by done.
  injection Ho as <-. split; [done|]. cbn. intros; by apply lookup_app_l_Some.
Qed.

Lemma Close_grows w0 w f i p c :
  grows w0 w -> (length (fds w0) <= f)%nat -> calm w -> has_file w f i p c ->
  exists w', File_Close f w = (Ok tt, w') /\ calm w' /\ grows w0 w' /\ names w' = names w /\ inodes w' = inodes w.
Proof.
  intros [G1 G2] Hf Hc Hfile. destruct (Close_spec w f i p c Hc Hfile) as (w' & Hcl & Hc' & (T1 & _ & T3 & _) & Hi).
  exists w'. split_and!; try done. split; [by rewrite Hi|]. intros g d Hg. rewrite T3; [by apply G2|].
  apply lookup_lt_Some in Hg. lia.
Qed.

Lemma Rename_calm w old new i :
  calm w -> names w !! old = Some i -> Rename old new w = (Ok tt, set_names (<[new := i]> (delete old (names w))) w).
Proof. intros Hc Hn. unfold Rename. by rewrite syscall_calm, Hn. Qed.

Lemma Remove_calm w path i :
  calm w -> names w !! path = Some i -> Remove path w = (Ok tt, set_names (delete path (names w)) w).
Proof. intros Hc Hn. unfold Remove. by rewrite syscall_calm, Hn. Qed.

(** A part of a program that works on the files only. *)
Lemma io_inv {T A} (m : M World A) (x : T) w r s' : 
  zoom snd (fun w (s : T * World) => (fst s, w)) m (x, w) = (r, s') -> exists w', s' = (x, w') /\ m w = (r, w').
Proof. unfold zoom. cbn. destruct (m w) as [r0 w0]. intros [= <- <-]. by eexists. Qed.

(** ** Relations that every call respects *)

(** Whatever its outcome, [m] takes the state along [R]. *)
Definition steps {S A} (R : S -> S -> Prop) (m : M S A) : Prop := forall s, R s (snd (m s)).

Create HintDb steps.

Section steps.
Context {S : Type} (R : S -> S -> Prop) {HR : PreOrder R}.

Lemma steps_bind {A B} (m : M S A) (g : A -> M S B) : steps R m -> (forall a, steps R (g a)) -> steps R (m ≫= g).
Proof.
  intros Hm Hg s. specialize (Hm s). unfold mbind, M_bind. destruct (m s) as [[a|e|p|] s']; cbn in *; [|done..].
  transitivity s'; [done|apply Hg].
Qed.
Lemma steps_try {A} (m : M S A) : steps R m -> steps R (try_ m).
Proof. intros Hm s. specialize (Hm s). unfold try_. by destruct (m s) as [[a|e|p|] s']. Qed.
Lemma steps_ret {A} (a : A) : steps R (mret a).
Proof. intros s. by cbn. Qed.
Lemma steps_gets {A} (g : S -> A) : steps R (gets g).
Proof. intros s. by cbn. Qed.
Lemma steps_lift {A} (m : outcome A) : steps R (lift m).
Proof. intros s. by cbn. Qed.
Lemma steps_throw {A} e : steps R (throw (A := A) e).
Proof. intros s. by cbn. Qed.
Lemma steps_modify g : (forall s, R s (g s)) -> steps R (modify g).
Proof. intros Hg s. apply Hg. Qed.
End steps.
Ltac steps_bind_tac := match goal with |- steps ?R _ => apply (steps_bind R); [|intros] end.
Ltac steps_tac := repeat first [ solve [eauto with steps] | steps_bind_tac
  | match goal with
    | |- forall _, _ => intros ?
    | |- steps ?R (mret _) => apply (steps_ret R)
    | |- steps ?R (gets _) => apply (steps_gets R)
    | |- steps ?R (throw _) => apply (steps_throw R)
    | |- steps ?R (lift _) => apply (steps_lift R)
    | |- steps ?R (try_ _) => apply (steps_try R)
    end | case_match ].

(** Descriptors are only ever added. *)
Definition more_fds (w w' : World) : Prop := (length (fds w) <= length (fds w'))%nat.
#[export] Instance more_fds_preorder : PreOrder more_fds.
Proof. unfold more_fds. split; [intros ?; lia|intros ???; lia]. Qed.

Lemma next_fault_fds : steps more_fds next_fault.
Proof. intros w. unfold next_fault, more_fds. by case_match. Qed.
Lemma open_fd_fds f : steps more_fds (open_fd f).
Proof. intros w. unfold open_fd, more_fds. by repeat case_match. Qed.
#[export] Hint Resolve next_fault_fds open_fd_fds : steps.
Lemma syscall_fds {A} (m : M World A) : steps more_fds m -> steps more_fds (syscall m).
Proof. intros Hm. unfold syscall. steps_tac. Qed.

Lemma OpenFile_fds p fl : steps more_fds (OpenFile p fl).
Proof.
  apply syscall_fds. intros w. unfold more_fds, new_fd. repeat case_match; cbn; rewrite ?length_app; cbn; lia.
Qed.
Lemma Write_fds f b : steps more_fds (File_Write f b).
Proof.
  unfold File_Write, set_content, set_pos. steps_tac; apply steps_modify; intros w; unfold more_fds; cbn; rewrite ?length_insert; lia.
Qed.
Lemma Sync_fds f : steps more_fds (File_Sync f).
Proof. unfold File_Sync. steps_tac. Qed.
Lemma Close_fds f : steps more_fds (File_Close f).
Proof.
  unfold File_Close. steps_tac. apply steps_modify; intros w; unfold more_fds; cbn; rewrite length_insert; lia.
Qed.
Lemma Remove_fds p : steps more_fds (Remove p).
Proof. apply syscall_fds. intros w. unfold more_fds. by case_match. Qed.
#[export] Hint Resolve OpenFile_fds Write_fds Sync_fds Close_fds Remove_fds : steps.
