(* ===== verification/OsFaults.v ===== *)
(** * OsFaults: what failing calls can do to the world

    Three facts about programs that hold whatever calls fail, each with a
    hint database that proves it by following the program.  [steps (keeping
    (owner ps w0 f))]: a program that writes through its own descriptor [f] leaves
    all files but those it names alone.  [follows]: when it succeeds, it has
    done what it does in a world without failures, for every program that
    reports its failures; [tolerant]: the same of calls whose failure is
    ignored. *)

From Stdlib Require Import ZArith Lia Strings.Byte.
From stdpp Require Import base decidable list gmap strings numbers.
From S2P Require Import Prelude Os OsFacts.
#[local] Open Scope Z_scope.

(** ** Succeeding in spite of the schedule *)

(** The world without the failures ahead. *)
Definition calmed (w : World) : World := set_faults [] w.
Definition calmed2 {T} (s : T * World) : T * World := (fst s, calmed (snd s)).

Lemma calmed_calm w : calm w -> calmed w = w.
Proof. intros Hc. unfold calmed, calm in *. destruct w. cbn in *. by subst. Qed.
Lemma calmed_is_calm w : calm (calmed w).
Proof. done. Qed.

Section follows.
Context {S : Type} (cl : S -> S).

Definition follows {A} (m : M S A) : Prop := forall s a s', m s = (Ok a, s') -> m (cl s) = (Ok a, cl s').
(** A failure has the effect of a success. *)
Definition tolerant {A} (m : M S A) : Prop :=
  forall s x s', try_ m s = (Ok x, s') -> exists y, try_ m (cl s) = (Ok y, cl s').
(** No success. *)
Definition fails {A} (m : M S A) : Prop := forall s a s', m s <> (Ok a, s').

Lemma follows_ret {A} (a : A) : follows (mret a).
Proof. by intros s b s' [= <- <-]. Qed.
Lemma follows_lift {A} (o : outcome A) : follows (lift o).
Proof. by intros s b s' [= -> <-]. Qed.
Lemma follows_throw {A} e : follows (throw (A := A) e).
Proof. by intros s b s'. Qed.
Lemma follows_bind {A B} (m : M S A) (g : A -> M S B) : follows m -> (forall a, follows (g a)) -> follows (m ≫= g).
Proof.
  intros Hm Hg s b s'. unfold mbind, M_bind. destruct (m s) as [[a|e|p|] s1] eqn:E; try done.
  rewrite (Hm _ _ _ E). apply Hg.
Qed.
Lemma follows_gets {A} (g : S -> A) : (forall s, g (cl s) = g s) -> follows (gets g).
Proof. intros Hg s a s' [= <- <-]. unfold gets. by rewrite Hg. Qed.
Lemma follows_modify (g : S -> S) : (forall s, g (cl s) = cl (g s)) -> follows (modify g).
Proof. intros Hg s a s' [= <- <-]. unfold modify. by rewrite Hg. Qed.
(** The caller looks at the error and gives up. *)
Lemma follows_try {A B} (m : M S A) (g : A + error -> M S B) :
  follows m -> (forall a, follows (g (inl a))) -> (forall e, fails (g (inr e))) -> follows (try_ m ≫= g).
Proof.
  intros Hm Hg Hf s b s'. unfold mbind, M_bind, try_. destruct (m s) as [[a|e|p|] s1] eqn:E; try done.
  - rewrite (Hm _ _ _ E). apply Hg.
  - intros H. by apply Hf in H.
Qed.
(** The caller ignores the error. *)
Lemma follows_ignore {A B} (m : M S A) (g : A + error -> M S B) (k : M S B) :
  tolerant m -> (forall x, g x = k) -> follows k -> follows (try_ m ≫= g).
Proof.
  intros Hm Hg Hk s b s'. unfold mbind, M_bind. destruct (try_ m s) as [[x|e|p|] s1] eqn:E; try done.
  destruct (Hm _ _ _ E) as [y ->]. rewrite !Hg. apply Hk.
Qed.

Lemma fails_throw {A} e : fails (throw (A := A) e).
Proof. by intros s a s'. Qed.
Lemma fails_bind {A B} (m : M S A) (g : A -> M S B) : (forall a, fails (g a)) -> fails (m ≫= g).
Proof. intros Hg s b s'. unfold mbind, M_bind. destruct (m s) as [[a|e|p|] s1]; try done. apply Hg. Qed.
End follows.

Create HintDb follows.
#[export] Hint Resolve follows_ret follows_lift follows_throw fails_throw : follows.
#[export] Hint Extern 2 (follows _ (gets _)) => (apply follows_gets; done) : follows.
#[export] Hint Extern 2 (follows _ (modify _)) => (apply follows_modify; done) : follows.
#[export] Hint Extern 3 (fails (_ ≫= _)) => (apply fails_bind; intros ?) : follows.

(** Following a program, its conditionals included. *)
Ltac follows_tac := repeat first [ solve [eauto with follows]
  | match goal with
    | |- forall _, _ => intros ?
    | |- follows _ (try_ _ ≫= _) => first
        [ eapply follows_ignore; [solve [eauto with follows]|intros ?; reflexivity|]
        | apply follows_try; [| |solve [intros ?; eauto with follows]] ]
    | |- follows _ (_ ≫= _) => apply follows_bind
    end | progress cbv beta zeta | case_match ].

(** A component of the state next to the same world. *)
Lemma follows_io {T A} (m : M World A) :
  follows calmed m -> follows (calmed2 (T := T)) (zoom snd (fun w s => (fst s, w)) m).
Proof.
  intros Hm [t w] a s'. unfold zoom. cbn. destruct (m w) as [r w'] eqn:E. intros [= -> <-]. by rewrite (Hm _ _ _ E).
Qed.
Lemma tolerant_io {T A} (m : M World A) :
  tolerant calmed m -> tolerant (calmed2 (T := T)) (zoom snd (fun w s => (fst s, w)) m).
Proof.
  intros Hm [t w] x s' H. unfold tolerant, try_, zoom in *. cbn in *. specialize (Hm w). destruct (m w) as [r w'].
  destruct r as [a|e|p|]; try done; injection H as <- <-.
  - destruct (Hm _ _ eq_refl) as [y Hy]. exists y. destruct (m (calmed w)) as [[] ?]; try done; by injection Hy as <- ->.
  - destruct (Hm _ _ eq_refl) as [y Hy]. exists y. destruct (m (calmed w)) as [[] ?]; try done; by injection Hy as <- ->.
Qed.
Lemma follows_scoped {T A} (m : M (T * World) A) (t : T) : follows calmed2 m -> follows calmed (scoped m t).
Proof.
  intros Hm w [a t'] w'. unfold scoped. destruct (m (t, w)) as [[a1|e|p|] [t1 w1]] eqn:E; try done.
  intros [= -> -> ->]. pose proof (Hm _ _ _ E) as Hc. unfold calmed2 in Hc. cbn in Hc. by rewrite Hc.
Qed.
#[export] Hint Resolve follows_io tolerant_io follows_scoped : follows.

(** ** Calls of package os *)

Lemma follows_open_fd f : follows calmed (open_fd f).
Proof. intros w d w'. unfold open_fd. cbn. by repeat case_match; intros [= <- <-]. Qed.

Lemma follows_syscall {A} (m : M World A) : follows calmed m -> follows calmed (syscall m).
Proof.
  intros Hm w a w'. unfold syscall, mbind, M_bind, next_fault. cbn.
  destruct (faults w) as [|[k|] fs]; [|done|]; intros H; apply Hm in H; exact H.
Qed.
#[export] Hint Resolve follows_open_fd follows_syscall : follows.

Lemma follows_Write f b : follows calmed (File_Write f b).
Proof.
  unfold File_Write. apply follows_bind; [apply follows_open_fd|]. intros d w n w'.
  unfold mbind, M_bind, next_fault. cbn. destruct (faults w) as [|[k|] fs]; [|done|]; by intros [= <- <-].
Qed.
Lemma follows_set_pos f d p : follows calmed (set_pos f d p).
Proof. by apply follows_modify. Qed.
Lemma follows_set_content i c : follows calmed (set_content i c).
Proof. by apply follows_modify. Qed.
#[export] Hint Resolve follows_Write follows_set_pos follows_set_content : follows.

Lemma follows_ReadAt f n off : follows calmed (File_ReadAt f n off).
Proof. unfold File_ReadAt. apply follows_bind; [apply follows_open_fd|]. intros d. apply follows_syscall. follows_tac. Qed.
Lemma follows_Seek f off wh : follows calmed (File_Seek f off wh).
Proof. unfold File_Seek. apply follows_bind; [apply follows_open_fd|]. intros d. apply follows_syscall. follows_tac. Qed.
Lemma follows_Truncate f n : follows calmed (File_Truncate f n).
Proof. unfold File_Truncate. apply follows_bind; [apply follows_open_fd|]. intros d. apply follows_syscall. follows_tac. Qed.
Lemma follows_Size f : follows calmed (File_Size f).
Proof. unfold File_Size. apply follows_bind; [apply follows_open_fd|]. intros d. apply follows_syscall. follows_tac. Qed.
Lemma follows_Sync f : follows calmed (File_Sync f).
Proof. unfold File_Sync. apply follows_bind; [apply follows_open_fd|]. intros d. follows_tac. Qed.
Lemma follows_Close f : follows calmed (File_Close f).
Proof.
  unfold File_Close. apply follows_bind; [apply follows_open_fd|]. intros d.
  apply follows_bind; [by apply follows_modify|]. follows_tac.
Qed.
(** A failing close closes the file. *)
Lemma tolerant_Close f : tolerant calmed (File_Close f).
Proof.
  intros w x w'. unfold try_, File_Close, mbind, M_bind, open_fd. cbn. destruct (fds w !! f) as [d|]; [destruct (is_open d)|].
  - unfold syscall, modify, mbind, M_bind, next_fault. cbn.
    destruct (faults w) as [|[k|] fs]; cbn; intros [= <- <-]; by eexists.
  - intros [= <- <-]. by eexists.
  - intros [= <- <-]. by eexists.
Qed.
Lemma follows_new_fd i : follows calmed (new_fd i).
Proof. by intros w f w' [= <- <-]. Qed.
Lemma follows_OpenFile p fl : follows calmed (OpenFile p fl).
Proof.
  apply follows_syscall. intros w f w'. unfold new_fd. cbn. by repeat case_match; intros [= <- <-].
Qed.
Lemma follows_MkdirAll p : follows calmed (MkdirAll p).
Proof. unfold MkdirAll. follows_tac. Qed.
Lemma follows_Remove p : follows calmed (Remove p).
Proof. apply follows_syscall. intros w f w'. cbn. by case_match; intros [= <- <-]. Qed.
Lemma follows_Rename p q : follows calmed (Rename p q).
Proof. apply follows_syscall. intros w f w'. cbn. by case_match; intros [= <- <-]. Qed.
#[export] Hint Resolve follows_ReadAt follows_Seek follows_Truncate follows_Size follows_Sync follows_Close
  tolerant_Close follows_OpenFile follows_MkdirAll follows_Remove follows_Rename : follows.

Lemma follows_WriteFile p b : follows calmed (WriteFile p b).
Proof.
  unfold WriteFile. apply follows_bind; [auto with follows|]. intros f.
  apply follows_try; [auto with follows| |].
  - intros n. apply follows_try; [auto with follows|intros; follows_tac|intros; auto with follows].
  - intros e. apply fails_bind. intros ?. apply fails_throw.
Qed.
#[export] Hint Resolve follows_WriteFile : follows.

(** ** Where writing stops *)

(** Only the names [ps] change, and they come to name new files. *)
Record within (ps : list string) (w w' : World) : Prop := {
  wi_names p : p ∉ ps -> names w' !! p = names w !! p;
  wi_new p j : p ∈ ps -> names w' !! p = Some j -> names w !! p = Some j \/ (length (inodes w) <= j < length (inodes w'))%nat;
  wi_grows : grows w w'
}.

#[export] Instance within_preorder ps : PreOrder (within ps).
Proof.
  split; [intros w; by split; [|auto|]|]. intros w1 w2 w3 [N1 M1 G1] [N2 M2 G2].
  pose proof (grows_length _ _ G1). pose proof (grows_length _ _ G2). split.
  - intros p Hp. by rewrite N2, N1.
  - intros p j Hp Hj. destruct (M2 p j Hp Hj) as [Hj'|]; [|right; lia]. destruct (M1 p j Hp Hj') as [|]; [by left|right; lia].
  - by transitivity w2.
Qed.

Lemma within_more ps qs w w' : ps ⊆ qs -> within ps w w' -> within qs w w'.
Proof.
  intros Hpq [N M G]. split; [|intros p j Hp Hj|done].
  - intros p Hp. apply N. by intros ?%Hpq.
  - destruct (decide (p ∈ ps)) as [Hin|Hnin]; [by apply M|]. left. by rewrite <- N.
Qed.

(** A world that differs in the schedule. *)
Lemma within_faults ps w fs : within ps w (set_faults fs w).
Proof. split; [done|auto|by split]. Qed.
Lemma within_calmed ps w : within ps (calmed w) w.
Proof. split; [done|auto|by split]. Qed.

Lemma within_names_ok ps w w' : within ps w w' -> names_ok w -> names_ok w'.
Proof.
  intros [N M G] Hok p j Hj. cbn. pose proof (grows_length _ _ G). destruct (decide (p ∈ ps)) as [Hp|Hp].
  - destruct (M p j Hp Hj) as [Hj'|]; [|lia]. specialize (Hok p j Hj'). cbn in Hok. lia.
  - rewrite N in Hj by done. specialize (Hok p j Hj). cbn in Hok. lia.
Qed.

(** [f] is a descriptor of a file that is not one of [w0]. *)
Record owner (ps : list string) (w0 : World) (f : nat) (w : World) : Prop := {
  ow_within : within ps w0 w;
  ow_fd : (length (fds w0) <= f)%nat;
  ow_ino d : fds w !! f = Some d -> (length (inodes w0) <= ino d)%nat
}.

(** An invariant as a relation that every call respects. *)
Definition keeping {S} (I : S -> Prop) (s s' : S) : Prop := I s -> I s'.
#[export] Instance keeping_preorder {S} (I : S -> Prop) : PreOrder (keeping I).
Proof. split; [intros s Hs; exact Hs|]. intros x y z H1 H2 H. by apply H2, H1. Qed.

Section owner.
Context (ps : list string) (w0 : World) (f : nat).

Lemma owner_faults fs w : owner ps w0 f w -> owner ps w0 f (set_faults fs w).
Proof. intros [W Hf Hi]. split; [|done|done]. etrans; [exact W|apply within_faults]. Qed.

Lemma owner_next_fault : steps (keeping (owner ps w0 f)) next_fault.
Proof. intros w Hw. unfold next_fault. case_match; [done|]. by apply owner_faults. Qed.
Hint Resolve owner_next_fault : steps.

Lemma owner_syscall {A} (m : M World A) : steps (keeping (owner ps w0 f)) m -> steps (keeping (owner ps w0 f)) (syscall m).
Proof. intros Hm. unfold syscall. steps_tac. Qed.

(** Changing the file or the descriptor. *)
Lemma owner_content i c w : owner ps w0 f w -> (length (inodes w0) <= i)%nat ->
  owner ps w0 f (set_inodes (<[i := c]> (inodes w)) w).
Proof.
  intros [[N M [G1 G2]] Hf Hi] Hle. split; [|done|done]. split; [done| |split; [|done]].
  - intros p j Hp Hj. cbn. rewrite length_insert. by apply M.
  - intros j d Hj. cbn. rewrite list_lookup_insert_ne; [by apply G1|]. apply lookup_lt_Some in Hj. lia.
Qed.
Lemma owner_fd d w : owner ps w0 f w -> (length (inodes w0) <= ino d)%nat -> owner ps w0 f (set_fds (<[f := d]> (fds w)) w).
Proof.
  intros [[N M [G1 G2]] Hf Hi] Hle. split; [|done|].
  - split; [done|done|split; [done|]]. intros g e Hg. cbn. rewrite list_lookup_insert_ne; [by apply G2|].
    apply lookup_lt_Some in Hg. lia.
  - cbn. intros e He. destruct (decide (f < length (fds w))%nat) as [Hlt|Hge].
    + rewrite list_lookup_insert_eq in He by done. by injection He as <-.
    + rewrite list_insert_ge in He by lia. by apply Hi.
Qed.

(** A program that looks at its own descriptor. *)
Lemma owner_own {B} (k : fd -> M World B) :
  (forall d, (length (inodes w0) <= ino d)%nat -> steps (keeping (owner ps w0 f)) (k d)) ->
  steps (keeping (owner ps w0 f)) (open_fd f ≫= k).
Proof.
  intros Hk w Hw. unfold mbind, M_bind, open_fd. destruct (fds w !! f) as [d|] eqn:Hd; [|done].
  destruct (is_open d); [|done]. apply Hk; [by apply (ow_ino _ _ _ _ Hw)|done].
Qed.

Lemma owner_set_content i c : (length (inodes w0) <= i)%nat -> steps (keeping (owner ps w0 f)) (set_content i c).
Proof. intros Hi. apply steps_modify. intros w Hw. by apply owner_content. Qed.
Lemma owner_set_pos d p : (length (inodes w0) <= ino d)%nat -> steps (keeping (owner ps w0 f)) (set_pos f d p).
Proof. intros Hi. apply steps_modify. intros w Hw. by apply owner_fd. Qed.
Hint Resolve owner_syscall owner_set_content owner_set_pos : steps.

Lemma owner_Write b : steps (keeping (owner ps w0 f)) (File_Write f b).
Proof. apply owner_own. intros d Hd. steps_tac. Qed.
Lemma owner_Seek off wh : steps (keeping (owner ps w0 f)) (File_Seek f off wh).
Proof. apply owner_own. intros d Hd. apply owner_syscall. cbv zeta. steps_tac. Qed.
Lemma owner_Size : steps (keeping (owner ps w0 f)) (File_Size f).
Proof. apply owner_own. intros d Hd. apply owner_syscall. steps_tac. Qed.
Lemma owner_Sync : steps (keeping (owner ps w0 f)) (File_Sync f).
Proof. apply owner_own. intros d Hd. apply owner_syscall. steps_tac. Qed.
Lemma owner_Close : steps (keeping (owner ps w0 f)) (File_Close f).
Proof.
  apply owner_own. intros d Hd. steps_bind_tac; [apply steps_modify; intros w Hw; by apply owner_fd|]. apply owner_syscall. steps_tac.
Qed.
Lemma owner_Remove p : p ∈ ps -> steps (keeping (owner ps w0 f)) (Remove p).
Proof.
  intros Hp. apply owner_syscall. intros w [[N M G] Hf Hi]. case_match; [|done]. split; [|done|done]. split; [| |done].
  - intros q Hq. cbn. rewrite lookup_delete_ne; [by apply N|]. by intros ->.
  - intros q j Hq. cbn. rewrite lookup_delete_Some. intros [_ Hj]. by apply M.
Qed.
End owner.
#[export] Hint Resolve owner_Write owner_Seek owner_Size owner_Sync owner_Close owner_Remove : steps.

(** Removing a name. *)
Lemma within_Remove p w r w' : Remove p w = (r, w') -> within [p] w w'.
Proof.
  intros H. unfold Remove, syscall, mbind, M_bind, next_fault in H.
  assert (Hd: forall w, within [p] w (set_names (delete p (names w)) w)).
  { clear. intros w. split; [|intros q j _; cbn|by split].
    - intros q [Hq _]%not_elem_of_cons. cbn. by apply lookup_delete_ne.
    - rewrite lookup_delete_Some. intros [_ Hj]. by left. }
  destruct (faults w) as [|[k|] fs] eqn:Hf; cbn in H.
  - destruct (names w !! p); injection H as <- <-; [apply Hd|done].
  - injection H as <- <-. apply within_faults.
  - destruct (names w !! p); injection H as <- <-; [|apply within_faults].
    etrans; [apply (within_faults _ _ fs)|apply (Hd (set_faults fs w))].
Qed.

(** Opening a file that is new since [w0]. *)
Lemma open_owner ps w0 path fl w r w' :
  within ps w0 w -> path ∈ ps -> names w0 !! path = None -> OpenFile path fl w = (r, w') ->
  within ps w0 w' /\ forall f, r = Ok f -> owner ps w0 f w'.
Proof.
  intros W Hp H0 H. unfold OpenFile, syscall, mbind, M_bind in H. destruct (next_fault w) as [o w1] eqn:Hnf.
  assert (exists fs, w1 = set_faults fs w) as [fs ->].
  { unfold next_fault in Hnf. destruct (faults w) as [|x fs] eqn:Hf; injection Hnf as <- <-; [|by exists fs].
    exists []. symmetry. by apply calmed_calm. }
  assert (within ps w0 (set_faults fs w)) as W1 by (etrans; [exact W|apply within_faults]). clear W Hnf.
  destruct o as [[k|]|e|q|]; [by injection H as <- <-| |by injection H as <- <-..].
  set (w2 := set_faults fs w) in *. clearbody w2. clear w fs.
  assert (Hnew: forall i wi, within ps w0 wi -> (length (inodes w0) <= i)%nat ->
    new_fd i wi = (r, w') -> within ps w0 w' /\ forall f, r = Ok f -> owner ps w0 f w').
  { intros i wi Wi Hi [= <- <-]. assert (within ps w0 (set_fds (fds wi ++ [mkFd i 0 true]) wi)) as Wi'.
    { destruct Wi as [N M [G1 G2]]. split; [done|done|split; [done|]]. intros g d Hg. cbn. by apply lookup_app_l_Some, G2. }
    split; [done|]. intros f [= <-]. split; [done| |].
    - destruct (wi_grows _ _ _ Wi) as [_ G2]. destruct (decide (length (fds w0) = 0)%nat) as [?|?]; [lia|].
      destruct (lookup_lt_is_Some_2 (fds w0) (length (fds w0) - 1)) as [x Hx]; [lia|]. apply G2, lookup_lt_Some in Hx. lia.
    - cbn. intros d Hd. rewrite list_lookup_middle in Hd by done. by injection Hd as <-. }
  destruct W1 as [N M [G1 G2]]. pose proof (grows_length _ _ (conj G1 G2)) as Hl.
  destruct (names w2 !! path) as [i|] eqn:Hi.
  - destruct (M path i Hp Hi) as [Hold|Hge]; [congruence|].
    destruct (O_CREATE fl && O_EXCL fl); [injection H as <- <-; split; [by split|done]|].
    eapply Hnew; [|apply Hge|exact H]. destruct (O_TRUNC fl); [|by split]. split; [done| |split; [|done]].
    + intros p j Hpp Hj. cbn. rewrite length_insert. by apply M.
    + intros j d Hj. cbn. rewrite list_lookup_insert_ne; [by apply G1|]. apply lookup_lt_Some in Hj. lia.
  - destruct (O_CREATE fl); [|injection H as <- <-; split; [by split|done]].
    eapply Hnew; [|exact Hl|exact H]. split.
    + intros p Hpp. cbn. rewrite lookup_insert_ne; [by apply N|]. by intros ->.
    + intros p j Hpp. cbn. rewrite length_app. cbn. rewrite lookup_insert_Some. intros [[<- <-]|[_ Hj]]; [right; lia|].
      destruct (M p j Hpp Hj); [by left|right; lia].
    + split; [|done]. intros j d Hj. cbn. by apply lookup_app_l_Some, G1.
Qed.
