(* ===== verification/WalErrors.v ===== *)
(** * WalErrors: a failing read while a log is opened or replayed

    Recovery takes a read error for the end of the log: [Open] then truncates
    the file at the frame it could not read, and [Replay] leaves the rest out,
    both without an error. *)

From Stdlib Require Import ZArith Lia Strings.Byte.
From stdpp Require Import base decidable list gmap strings numbers.
From S2P Require Import Prelude Varint Crc32x Os OsFacts OsFaults Wal.
#[local] Open Scope Z_scope.

(** ** Calls on a schedule *)

(** The first [j] calls succeed, the next one fails. *)
Definition failing_at (j : nat) (w : World) : World := set_faults (replicate j None ++ [Some 0%nat]) w.

Lemma syscall_none {A} (m : M World A) fs w : syscall m (set_faults (None :: fs) w) = m (set_faults fs w).
Proof. done. Qed.
Lemma syscall_some {A} (m : M World A) k fs w : syscall m (set_faults (Some k :: fs) w) = (Err io_error, set_faults fs w).
Proof. done. Qed.

Lemma ReadAt_none fl n off b fs w :
  File_ReadAt fl n off (calmed w) = (Ok b, calmed w) -> File_ReadAt fl n off (set_faults (None :: fs) w) = (Ok b, set_faults fs w).
Proof.
  unfold File_ReadAt, mbind, M_bind, open_fd. cbn. destruct (fds w !! fl) as [d|]; [|done]. destruct (is_open d); [|done].
  unfold syscall, mbind, M_bind, next_fault, gets, content. cbn.
  destruct (off <? 0); [done|]. cbn. case_match; [done|]. by intros [= <-].
Qed.
Lemma ReadAt_some fl n off k fs w i p c : has_file w fl i p c ->
  File_ReadAt fl n off (set_faults (Some k :: fs) w) = (Err io_error, set_faults fs w).
Proof.
  intros Hf. unfold File_ReadAt. by rewrite (M_bind_Ok _ _ _ (mkFd i p true) (set_faults (Some k :: fs) w)) by exact (open_fd_file (set_faults (Some k :: fs) w) fl i p c Hf).
Qed.

Lemma op_payload_pos n o : 0 < len (op_payload n o).
Proof.
  destruct o as [k v|k|es]; cbn [op_payload]; rewrite ?encodeKV_alt; unfold batch_payload; rewrite length_app;
    match goal with |- context [varint ?x] => pose proof (varint_pos x) end; lia.
Qed.
Lemma op_frame_long n o : 9 <= len (op_frame n o).
Proof. unfold op_frame. rewrite length_frame. pose proof (op_payload_pos n o). lia. Qed.

(** ** The scan *)

Section reads.
Context (w : World) (fl i : nat) (p : Z) (C : list byte).
Context (Hw : calm w) (Hf : has_file w fl i p C) (Hlen : len C < 2 ^ 61).

(** The two reads of a frame, when they succeed. *)
Lemma read_frame_none n o pre post fs :
  C = pre ++ op_frame n o ++ post -> op_ok n o ->
  let payload := op_payload n o in
  File_ReadAt fl 9 (len pre) (set_faults (None :: fs) w) = (Ok (frame_header (op_type o) payload), set_faults fs w) /\
  File_ReadAt fl (len payload) (len pre + 9) (set_faults (None :: fs) w) = (Ok payload, set_faults fs w) /\
  len pre + 9 + len payload = len (pre ++ op_frame n o) /\ len (pre ++ op_frame n o) + len post = len C.
Proof.
  intros HC Hok payload. destruct (read_frame w fl i p C Hw Hf n o pre post HC Hok) as (H1 & H2 & H3 & H4).
  rewrite <- (calmed_calm w Hw) in H1, H2. split; [by apply ReadAt_none|]. split; [|done]. apply ReadAt_none.
  rewrite (proj2 (Z.ltb_lt _ _) (op_payload_pos n o)) in H2. unfold try_ in H2.
  destruct (File_ReadAt fl (len payload) (len pre + 9) (calmed w)) as [[b|e|q|] w1] eqn:E; unfold payload in *; rewrite E in H2; try done.
  by injection H2 as -> ->.
Qed.

(** The scan stops where a header cannot be read. *)
Lemma scan_fails os : forall fuel pre mx n post fs,
  C = pre ++ log_bytes n os ++ post -> 9 <= len post -> log_ok n os -> mx <= n -> (length os < fuel)%nat ->
  scan_loop fuel fl (len C) (len pre) mx (set_faults (replicate (2 * length os) None ++ Some 0%nat :: fs) w) =
    (Ok (len (pre ++ log_bytes n os), last_seq mx n os), set_faults fs w).
Proof.
  induction os as [|o os IH]; intros [|fuel] pre mx n post fs HC Hpost Hok Hmx Hfuel; cbn [length] in Hfuel; try lia.
  - cbn [log_bytes app] in *. rewrite app_nil_r. pose proof Hlen as Hl. rewrite HC, length_app in Hl.
    change (replicate (2 * length (@nil op)) None ++ Some 0%nat :: fs) with (Some 0%nat :: fs).
    cbn [scan_loop]. unfold headerSize. rewrite (i64_small (len pre + 9)) by lia.
    rewrite (proj2 (Z.leb_le _ _)) by (rewrite HC, length_app; lia).
    rewrite (M_bind_Ok _ _ _ (inr io_error) (set_faults fs w)); [done|]. unfold try_. by rewrite (ReadAt_some fl 9 (len pre) 0 fs w i p C Hf).
  - cbn [log_bytes log_count log_ok] in *. destruct Hok as [Ho Hok]. rewrite <- app_assoc in HC.
    replace (2 * length (o :: os))%nat with (S (S (2 * length os))) by (cbn; lia). cbn [replicate app].
    set (fs1 := replicate (2 * length os) None ++ Some 0%nat :: fs).
    destruct (read_frame_none n o pre _ (None :: fs1) HC Ho) as (Hh & _ & Hl1 & Hl2).
    destruct (read_frame_none n o pre _ fs1 HC Ho) as (_ & Hp & _).
    assert (len (op_payload n o) <= 2 ^ 28) as Hpl by apply Ho. pose proof (op_payload_pos n o) as Hpp.
    cbn [scan_loop]. unfold headerSize.
    rewrite (i64_small (len pre + 9)) by lia. rewrite (proj2 (Z.leb_le _ _)) by lia.
    rewrite (M_bind_Ok _ _ _ _ _ (try_Ok _ _ _ _ Hh)).
    destruct (header_fields (op_type o) (op_payload n o) Hpl) as (H1 & H2 & H3). rewrite H1, H2, H3.
    rewrite (M_bind_Ok (lift (Ok (len (op_payload n o)))) _ _ _ (set_faults (None :: fs1) w) eq_refl).
    rewrite (M_bind_Ok (lift (Ok (op_type o))) _ _ _ (set_faults (None :: fs1) w) eq_refl).
    rewrite (M_bind_Ok (lift (Ok (FrameChecksum _ _))) _ _ _ (set_faults (None :: fs1) w) eq_refl).
    rewrite decide_False by apply op_type_known. cbv zeta.
    rewrite (i64_small (_ + len (op_payload n o))) by lia. rewrite (proj2 (Z.ltb_ge _ _)) by lia.
    rewrite (proj2 (Z.ltb_lt _ _) Hpp), (M_bind_Ok _ _ _ _ _ (try_Ok _ _ _ _ Hp)), Z.eqb_refl. cbn [negb].
    rewrite (peekSeq_op n o Ho), (M_bind_Ok (lift (Ok (Some _))) _ _ _ (set_faults fs1 w) eq_refl).
    pose proof (op_count_pos n o Ho). rewrite (proj2 (Z.ltb_lt _ _)), Hl1 by lia.
    unfold fs1. rewrite (IH fuel (pre ++ op_frame n o) (n + op_count o) (n + op_count o) post fs);
      [by rewrite <- app_assoc, (last_seq_cons mx)|by rewrite HC, <- !app_assoc|done..|lia].
Qed.

(** So does a replay. *)
Lemma replay_fails {A} (fn : Record_ -> M A unit) l os : forall fuel pre n post fs a,
  C = pre ++ log_bytes n os ++ post -> 9 <= len post -> log_ok n os -> (length os < fuel)%nat ->
  (forall r a, exists a', fn r a = (Ok tt, a')) ->
  exists a', replay_loop fn fuel fl (len C) (len pre) (a, (l, set_faults (replicate (2 * length os) None ++ Some 0%nat :: fs) w)) =
      (Ok tt, (a', (l, set_faults fs w))) /\ forall s, call_all fn (log_records n os) (a, s) = (Ok tt, (a', s)).
Proof.
  induction os as [|o os IH]; intros [|fuel] pre n post fs a HC Hpost Hok Hfuel Hfn; cbn [length] in Hfuel; try lia.
  - cbn [log_bytes log_records app call_all] in *. pose proof Hlen as Hl. rewrite HC, length_app in Hl. exists a. split; [|done].
    change (replicate (2 * length (@nil op)) None ++ Some 0%nat :: fs) with (Some 0%nat :: fs).
    cbn [replay_loop]. unfold headerSize. rewrite (i64_small (len pre + 9)) by lia.
    rewrite (proj2 (Z.leb_le _ _)) by (rewrite HC, length_app; lia).
    rewrite (M_bind_Ok _ _ _ (inr io_error) (a, (l, set_faults fs w))); [done|].
    unfold try_. by rewrite (io_replay_run _ a l _ _ _ (ReadAt_some fl 9 (len pre) 0 fs w i p C Hf)).
  - cbn [log_bytes log_records log_ok] in *. destruct Hok as [Ho Hok]. rewrite <- app_assoc in HC.
    replace (2 * length (o :: os))%nat with (S (S (2 * length os))) by (cbn; lia). cbn [replicate app].
    set (fs1 := replicate (2 * length os) None ++ Some 0%nat :: fs).
    destruct (read_frame_none n o pre _ (None :: fs1) HC Ho) as (Hh & _ & Hl1 & Hl2).
    destruct (read_frame_none n o pre _ fs1 HC Ho) as (_ & Hp & _).
    assert (len (op_payload n o) <= 2 ^ 28) as Hpl by apply Ho. pose proof (op_payload_pos n o) as Hpp.
    cbn [replay_loop]. unfold headerSize.
    rewrite (i64_small (len pre + 9)) by lia. rewrite (proj2 (Z.leb_le _ _)) by lia.
    rewrite (M_bind_Ok _ _ _ _ _ (try_Ok _ _ _ _ (io_replay_run _ a l _ _ _ Hh))).
    destruct (header_fields (op_type o) (op_payload n o) Hpl) as (H1 & H2 & H3). rewrite H1, H2, H3.
    rewrite (M_bind_Ok (lift (Ok (len (op_payload n o)))) _ _ _ (a, (l, set_faults (None :: fs1) w)) eq_refl).
    rewrite (M_bind_Ok (lift (Ok (op_type o))) _ _ _ (a, (l, set_faults (None :: fs1) w)) eq_refl).
    rewrite (M_bind_Ok (lift (Ok (FrameChecksum _ _))) _ _ _ (a, (l, set_faults (None :: fs1) w)) eq_refl). cbv zeta.
    rewrite (i64_small (_ + len (op_payload n o))) by lia. rewrite (proj2 (Z.ltb_ge _ _)) by lia.
    rewrite (proj2 (Z.ltb_lt _ _) Hpp), (M_bind_Ok _ _ _ _ _ (try_Ok _ _ _ _ (io_replay_run _ a l _ _ _ Hp))), Z.eqb_refl. cbn [negb].
    rewrite (decodeFrame_op n o Ho), (M_bind_Ok (lift (Ok (op_records n o))) _ _ _ (a, (l, set_faults fs1 w)) eq_refl).
    assert (exists a1, forall s, call_all fn (op_records n o) (a, s) = (Ok tt, (a1, s))) as [a1 Ha1].
    { clear -Hfn. generalize (op_records n o). intros recs. revert a. induction recs as [|x recs IH]; intros a; [by exists a|].
      destruct (Hfn x a) as [a0 Hx]. destruct (IH a0) as [a1 H1]. exists a1. intros s. cbn [call_all].
      unfold mbind, M_bind, zoom. cbn [fst snd]. rewrite Hx. apply H1. }
    destruct (IH fuel (pre ++ op_frame n o) (n + op_count o) post fs a1) as (a' & Hrun & Hcall);
      [by rewrite HC, <- !app_assoc|done..|lia|done|].
    exists a'. split; [by rewrite (M_bind_Ok _ _ _ _ _ (Ha1 _)), Hl1|].
    intros s. rewrite call_all_app, (M_bind_Ok _ _ _ _ _ (Ha1 s)). apply Hcall.
Qed.
End reads.

(** ** Recovery *)

Lemma Seek_sched w fl i p c off fs : has_file w fl i p c -> 0 <= off ->
  File_Seek fl off SeekStart (set_faults (None :: fs) w) = (Ok off, set_faults fs (put_file fl i off c w)).
Proof.
  intros Hf Hoff. unfold File_Seek.
  rewrite (M_bind_Ok _ _ _ _ _ (open_fd_file (set_faults (None :: fs) w) fl i p c Hf)), syscall_none.
  unfold gets. rewrite (M_bind_Ok _ _ _ (content i w) (set_faults fs w)) by done. cbv zeta. rewrite (proj2 (Z.ltb_ge _ _)) by lia.
  unfold set_pos, modify, mbind, M_bind, put_file, set_fds, set_faults. cbn. do 2 f_equal. destruct Hf as [_ Hi]. by rewrite (list_insert_id (inodes w)).
Qed.


(** The log as [Open] finds it. *)
Lemma recoverTail_fails w dir path fl o i n os1 os2 :
  let C := log_bytes n (os1 ++ os2) in let c := log_bytes n os1 in
  calm w -> has_file w fl i 0 C -> len C < 2 ^ 61 -> 0 <= n -> log_ok n (os1 ++ os2) -> os2 <> [] ->
  recoverTail (fresh_log dir path fl o (len C), failing_at (1 + 2 * length os1) w) =
    (Ok tt, (mkLog dir path fl o 0 false (len c) (last_seq 0 n os1), put_file fl i (len c) c w)).
Proof.
  intros C c Hw Hf Hl Hn Hok Hne.
  destruct os2 as [|op os2]; [done|]. pose proof (proj1 (log_ok_app _ _ _) Hok) as [Hok1 [Hop _]].
  set (post := log_bytes (n + log_count os1) (op :: os2)).
  assert (C = c ++ post) as HC by (unfold C; by rewrite log_bytes_app).
  assert (9 <= len post) as Hpost by (unfold post; cbn [log_bytes]; rewrite length_app; pose proof (op_frame_long (n + log_count os1) op); lia).
  assert (len C = len c + len post) as HlC by (by rewrite HC, length_app, Nat2Z.inj_add).
  unfold recoverTail. rewrite (M_bind_Ok _ _ _ (len C) (fresh_log dir path fl o (len C), failing_at (1 + 2 * length os1) w)) by done.
  rewrite (proj2 (Z.eqb_neq _ _)) by lia.
  rewrite (M_bind_Ok _ _ _ fl (fresh_log dir path fl o (len C), failing_at (1 + 2 * length os1) w)) by done.
  assert (scanValidPrefix fl (len C) (failing_at (1 + 2 * length os1) w) = (Ok (len c, last_seq 0 n os1), put_file fl i 0 C w)) as Hscan.
  { unfold scanValidPrefix, failing_at. cbn [Nat.add replicate app].
    rewrite (M_bind_Ok _ _ _ _ _ (Seek_sched w fl i 0 C 0 _ Hf ltac:(lia))).
    pose proof (frames_length n os1) as Hfr. fold c in Hfr.
    apply (put_file_has _ _ _ _ _ 0 C) in Hf.
    rewrite (scan_fails (put_file fl i 0 C w) fl i 0 C Hw Hf Hl os1 _ [] 0 n post []);
      [f_equal; by apply calmed_calm|done..|]. rewrite Nat2Z.id. lia. }
  rewrite (M_bind_Ok _ _ _ _ _ (io_run _ (fresh_log dir path fl o (len C)) _ _ _ Hscan)). cbv beta iota.
  set (l1 := set_nextSeq (last_seq 0 n os1) (fresh_log dir path fl o (len C))). set (w1 := put_file fl i 0 C w).
  rewrite (M_bind_Ok _ _ _ tt (l1, w1)) by done. rewrite (proj2 (Z.ltb_lt _ _)) by lia.
  assert (calm w1) as Hw1 by done. assert (has_file w1 fl i 0 C) as Hf1 by (by eapply put_file_has).
  pose proof (Truncate_spec w1 fl i 0 C (len c) Hw1 Hf1 ltac:(lia)) as Htr. rewrite Nat2Z.id, HC, take_app_length in Htr.
  rewrite (M_bind_Ok _ _ _ _ _ (io_run _ l1 _ _ _ Htr)).
  assert (has_file (put_file fl i 0 c w1) fl i 0 c) as Hf2 by (by eapply put_file_has).
  rewrite (M_bind_Ok _ _ _ _ _ (io_run _ l1 _ _ _
    (Seek_spec (put_file fl i 0 c w1) fl i 0 c (len c) SeekStart Hw1 Hf2 ltac:(lia)))).
  unfold w1. by rewrite !put_file_put.
Qed.

(** C33: A failing read while a log is opened loses what was logged.  If the read of
    the frame after those of [os1] fails, [Open] returns no error; the file is
    truncated there, and what was appended later, and acknowledged, is gone. *)
Theorem read_error_truncates w dir o i n os1 os2
  (Hw : calm w) (Hn : names w !! filepath_Join dir (FileName (normalize o)) = Some i)
  (Hi : inodes w !! i = Some (log_bytes n (os1 ++ os2))) (Hl : len (log_bytes n (os1 ++ os2)) < 2 ^ 61)
  (Hn0 : 0 <= n) (Hok : log_ok n (os1 ++ os2)) (Hne : os2 <> []) :
  exists l w', Open dir o (failing_at (4 + 2 * length os1) w) = (Ok l, w') /\
    inodes w' !! i = Some (log_bytes n os1) /\ Replay collect ([], (l, w')) = (Ok tt, (log_records n os1, (l, w'))).
Proof.
  unfold Open. change (failing_at (4 + 2 * length os1) w) with (set_faults (None :: None :: None :: faults (failing_at (1 + 2 * length os1) w)) w).
  set (fs := faults (failing_at (1 + 2 * length os1) w)). set (fl := length (fds w)). set (w1 := set_fds (fds w ++ [mkFd i 0 true]) w).
  assert (has_file w1 fl i 0 (log_bytes n (os1 ++ os2))) as Hf1 by (split; [by apply list_lookup_middle|done]).
  rewrite (M_bind_Ok _ _ _ tt (set_faults (None :: None :: fs) w)) by done.
  rewrite (M_bind_Ok _ _ _ fl (set_faults (None :: fs) w1)) by (unfold OpenFile; rewrite syscall_none; cbn; by rewrite Hn).
  rewrite (M_bind_Ok _ _ _ (inl (len (log_bytes n (os1 ++ os2)))) (set_faults fs w1)).
  2: { apply try_Ok. unfold File_Size. rewrite (M_bind_Ok _ _ _ _ _ (open_fd_file (set_faults (None :: fs) w1) fl i 0 _ Hf1)), syscall_none.
       unfold gets. cbn [ino]. by rewrite (content_file (set_faults fs w1) fl i 0 _ Hf1). }
  pose proof (recoverTail_fails w1 dir (filepath_Join dir (FileName (normalize o))) fl (normalize o) i n os1 os2 Hw Hf1 Hl Hn0 Hok Hne) as Hr.
  change (failing_at (1 + 2 * length os1) w1) with (set_faults fs w1) in Hr. unfold fresh_log in Hr.
  eexists _, _. split; [unfold mbind at 1, M_bind at 1, try_, scoped; rewrite Hr; done|].
  pose proof (proj1 (log_ok_app _ _ _) Hok) as [Hok1 _]. pose proof (put_file_has w1 fl i 0 _ (len (log_bytes n os1)) (log_bytes n os1) Hf1) as Hf2.
  split; [apply Hf2|]. rewrite (Replay_spec collect [] _ _ i n os1); [by rewrite call_all_collect|by split_and!|done|].
  rewrite log_bytes_app, length_app in Hl. lia.
Qed.

(** A log of three operations; the read of the second frame fails. *)
Definition whole_world : World :=
  mkWorld {["db/wal.log"%string := 0%nat]} [log_bytes 0 ([OpPut (Some [x61]) (Some [x62])] ++ [OpDelete (Some [x63]); OpPut (Some [x64]) None])] [] [].

Lemma read_error_truncates_witness :
  exists l w', Open "db" None (failing_at 6 whole_world) = (Ok l, w') /\
    inodes w' !! 0%nat = Some (log_bytes 0 [OpPut (Some [x61]) (Some [x62])]) /\
    Replay collect ([], (l, w')) = (Ok tt, (log_records 0 [OpPut (Some [x61]) (Some [x62])], (l, w'))).
Proof.
  apply (read_error_truncates whole_world "db" None 0 0 [OpPut (Some [x61]) (Some [x62])] [OpDelete (Some [x63]); OpPut (Some [x64]) None]);
    [done..|apply Z.ltb_lt; by vm_compute|done| |done].
  repeat split; try (apply Z.leb_le; by vm_compute); try (apply Z.ltb_lt; by vm_compute); done.
Defined.

(** C34: A failing read while a log is replayed: what follows is left out, without an
    error; the file stays. *)
Theorem read_error_hides l w i n os1 os2
  (Hlog : log_on (l, w) i (log_bytes n (os1 ++ os2))) (Hl : len (log_bytes n (os1 ++ os2)) < 2 ^ 61)
  (Hok : log_ok n (os1 ++ os2)) (Hne : os2 <> []) :
  Replay collect ([], (l, failing_at (1 + 2 * length os1) w)) = (Ok tt, (log_records n os1, (l, w))).
Proof.
  set (C := log_bytes n (os1 ++ os2)) in *. destruct os2 as [|op os2]; [done|]. pose proof (proj1 (log_ok_app _ _ _) Hok) as [Hok1 _].
  set (post := log_bytes (n + log_count os1) (op :: os2)).
  assert (C = log_bytes n os1 ++ post) as HC by (unfold C; by rewrite log_bytes_app).
  assert (9 <= len post) as Hpost by (unfold post; cbn [log_bytes]; rewrite length_app; pose proof (op_frame_long (n + log_count os1) op); lia).
  destruct Hlog as (Hw & Hcl & Hf & Hs). cbn [fst snd] in *. unfold Replay. cbn [fst snd]. rewrite Hcl.
  assert (has_file (put_file (f l) i 0 C w) (f l) i 0 C) as Hf0 by (by eapply put_file_has).
  unfold failing_at. cbn [Nat.add replicate app].
  rewrite (M_bind_Ok _ _ _ _ _ (io_replay_run _ [] l _ _ _ (Seek_sched w (f l) i (len C) C 0 _ Hf ltac:(lia)))), Hs.
  pose proof (frames_length n os1) as Hfr.
  destruct (replay_fails (put_file (f l) i 0 C w) (f l) i 0 C Hw Hf0 Hl collect l os1 (S (Z.to_nat (len C))) [] n post [] []) as (a' & Hrun & Hcall);
    [done..| |by eexists|].
  { rewrite Nat2Z.id, HC, length_app. lia. }
  rewrite (M_bind_Ok _ _ _ _ _ Hrun). specialize (Hcall (l, w)). rewrite call_all_collect in Hcall. injection Hcall as <-.
  change (set_faults [] (put_file (f l) i 0 C w)) with (calmed (put_file (f l) i 0 C w)). rewrite calmed_calm by done.
  rewrite (M_bind_Ok _ _ _ _ _ (io_replay_run _ _ l _ _ _ (Seek_spec _ (f l) i 0 C (len C) SeekStart (put_file_calm _ _ _ _ _ Hw) Hf0 ltac:(lia)))).
  by rewrite put_file_put, put_file_id.
Qed.

Lemma read_error_hides_witness :
  let os1 := [OpPut (Some [x61]) (Some [x62])] in
  let bytes := log_bytes 0 (os1 ++ [OpDelete (Some [x63]); OpPut (Some [x64]) None]) in
  let l := mkLog "db" "db/wal.log" 0 (normalize None) 3 false (len bytes) 0 in
  let w := mkWorld {["db/wal.log"%string := 0%nat]} [bytes] [mkFd 0 (len bytes) true] [] in
  Replay collect ([], (l, failing_at 3 w)) = (Ok tt, (log_records 0 os1, (l, w))).
Proof.
  intros os1 bytes l w. apply (read_error_hides l w 0 0 os1 [OpDelete (Some [x63]); OpPut (Some [x64]) None]);
    [repeat split|apply Z.ltb_lt; by vm_compute| |discriminate].
  repeat split; try (apply Z.leb_le; by vm_compute); try (apply Z.ltb_lt; by vm_compute); done.
Defined.
