(* ===== verification/Manifest.v ===== *)
(** * Manifest: package internal/manifest

    The list of live tables, kept in memory and in the file MANIFEST: its two
    formats, the atomic replacement of the file, and the operations. *)

From Stdlib Require Import ZArith Lia Strings.Byte.
From stdpp Require Import base decidable list gmap strings numbers.
From S2P Require Import Prelude Crc32x Bloom ByteUtil Os.
#[local] Open Scope Z_scope.

Definition ErrCorrupt : error := errors_New "manifest: corrupt".
Definition ErrClosed : error := errors_New "manifest: closed".

Definition fileName : string := "MANIFEST".
Definition tmpSuffix : string := ".tmp".
Definition magicBinary : Z := 0x4D4E4653.
Definition versionJSON : Z := 1.

Record FileMeta := mkFileMeta {
  Name : string; Level : Z; MinKey : slice; MaxKey : slice; MaxSeq : Z; Entries : Z; FileSize : Z
}.

Record State := mkState { Version : Z; NextFile : Z; LogSeq_ : Z; files : list FileMeta; UpdatedAt : string }.

Record Manifest := mkManifest { dir : string; path : string; state : State }.

Definition set_files (fs : list FileMeta) (st : State) : State :=
  mkState (Version st) (NextFile st) (LogSeq_ st) fs (UpdatedAt st).
Definition set_NextFile (n : Z) (st : State) : State :=
  mkState (Version st) n (LogSeq_ st) (files st) (UpdatedAt st).
Definition set_LogSeq (n : Z) (st : State) : State :=
  mkState (Version st) (NextFile st) n (files st) (UpdatedAt st).
Definition stamp (v : Z) (t : string) (st : State) : State :=
  mkState v (NextFile st) (LogSeq_ st) (files st) t.

(** [string(b)] and the bytes of a string. *)
Definition to_bytes (s : string) : list byte := String.list_byte_of_string s.
Definition of_bytes (b : list byte) : string := String.string_of_list_byte b.

(** ** The binary format *)

(** [if off+n > len(data) { return ErrCorrupt }] *)
Definition need (data : list byte) (off n : Z) : outcome unit :=
  if len data <? off + n then Err ErrCorrupt else Ok tt.

(** One turn of the loop over the files. *)
Definition decode_file (data : list byte) (off : Z) : outcome (FileMeta * Z) :=
  need data off 2;;
  nameLen ← uint_at data off (off + 2);
  let off := off + 2 in
  need data off nameLen;;
  name ← subslice data off (off + nameLen);
  let off := off + nameLen in
  need data off (4 + 8 + 8 + 8);;
  level ← uint_at data off (off + 4);
  let off := off + 4 in
  maxSeq ← uint_at data off (off + 8);
  let off := off + 8 in
  entries ← uint_at data off (off + 8);
  let off := off + 8 in
  fileSize ← uint_at data off (off + 8);
  let off := off + 8 in
  need data off 2;;
  mkLen ← uint_at data off (off + 2);
  let off := off + 2 in
  need data off mkLen;;
  minKey ← subslice data off (off + mkLen);
  let off := off + mkLen in
  need data off 2;;
  xkLen ← uint_at data off (off + 2);
  let off := off + 2 in
  need data off xkLen;;
  maxKey ← subslice data off (off + xkLen);
  let off := off + xkLen in
  Ok (mkFileMeta (of_bytes name) level (Clone (Some minKey)) (Clone (Some maxKey)) maxSeq entries (i64 fileSize), off).

Definition decode_body (data : list byte) (s : Z * list FileMeta) :
    outcome ((Z * list FileMeta) + (Z * list FileMeta)) :=
  '(f, off) ← decode_file data (fst s);
  Ok (inl (off, snd s ++ [f])).

(** The last argument is the time of the call. *)
Definition decodeBinary (data : list byte) (t : string) : outcome State :=
  if len data <? 4 + 4 + 8 + 8 + 4 then Err ErrCorrupt
  else
    magic ← uint_at data 0 4;
    if negb (magic =? magicBinary) then Err ErrCorrupt
    else
      ver ← uint_at data 4 8;
      next ← uint_at data 8 16;
      logSeq ← uint_at data 16 24;
      n ← uint_at data 24 28;
      make_check 96 n;;
      r ← loop n (decode_body data) (28, []);
      match r with
      | inl (off, fs) | inr (off, fs) =>
          need data off 4;;
          want ← uint_at data off (off + 4);
          body ← subslice data 0 off;
          if negb (ChecksumCastagnoli body =? want) then Err ErrCorrupt
          else Ok (mkState ver next logSeq fs t)
      end.

Definition encode_file (f : FileMeta) : list byte :=
  let name := to_bytes (Name f) in
  le_bytes 2 (len name) ++ name ++
  (le_bytes 4 (Level f) ++ le_bytes 8 (MaxSeq f) ++ le_bytes 8 (Entries f) ++ le_bytes 8 (FileSize f)) ++
  le_bytes 2 (len (bs (MinKey f))) ++ bs (MinKey f) ++
  le_bytes 2 (len (bs (MaxKey f))) ++ bs (MaxKey f).

Definition EncodeBinary (st : State) : list byte :=
  let hdr := le_bytes 4 magicBinary ++ le_bytes 4 (Version st) ++ le_bytes 8 (NextFile st) ++
    le_bytes 8 (LogSeq_ st) ++ le_bytes 4 (len (files st)) in
  let b := fold_left (fun b f => b ++ encode_file f) (files st) hdr in
  b ++ le_bytes 4 (ChecksumCastagnoli b).

(** ** File names *)

(** [fmt.Sprintf("%06d", n)]: the decimal digits, at least six. *)
Definition digit (d : Z) : byte := z2b (48 + d).
Fixpoint digits (fuel : nat) (n : Z) : list byte :=
  match fuel with O => [] | S fuel => digits fuel (n / 10) ++ [digit (n mod 10)] end.
Fixpoint ndigits (fuel : nat) (n : Z) : nat :=
  match fuel with O => O | S fuel => if n =? 0 then O else S (ndigits fuel (n / 10)) end.
Definition table_name (n : Z) : string :=
  of_bytes (digits (Nat.max 6 (ndigits 20 n)) n ++ to_bytes ".sst").

(** ** The manifest

    encoding/json is a parameter: [MarshalIndent] of a [State] and
    [json.Unmarshal] into one, where [None] is an error.  [now] is the text of
    the current time. *)
Class Json := { MarshalIndent : State -> list byte; Unmarshal : list byte -> option State; now : World -> string }.

Section manifest.
Context {J : Json}.

Definition decode (data : list byte) (t : string) : outcome State :=
  let binary : outcome bool :=
    if 4 <=? len data then m ← uint_at data 0 4; Ok (m =? magicBinary) else Ok false in
  b ← binary;
  if (b : bool) then decodeBinary data t
  else
    match Unmarshal data with
    | None => Err ErrCorrupt
    | Some st => Ok (if Version st =? 0 then stamp versionJSON (UpdatedAt st) st else st)
    end.

(** A method of the manifest, on the files. *)
Definition MM : Type -> Type := M (Manifest * World).
Definition io {A} (m : M World A) : MM A := zoom snd (fun w s => (fst s, w)) m.
Definition get_state {A} (g : State -> A) : MM A := gets (fun s => g (state (fst s))).
Definition upd_state (g : State -> State) : MM unit :=
  modify (fun s => (mkManifest (dir (fst s)) (path (fst s)) (g (state (fst s))), snd s)).

(** Opening and syncing the directory: it has no effect on files. *)
Definition sync_dir : M World unit :=
  d ← try_ (syscall (mret tt));
  match d with inr _ => mret tt | inl _ => _ ← try_ (syscall (mret tt)); _ ← try_ (syscall (mret tt)); mret tt end.

Definition persistLocked : MM unit :=
  t ← gets (fun s => now (snd s));
  upd_state (stamp versionJSON t);;
  data ← get_state MarshalIndent;
  p ← gets (fun s => path (fst s));
  let tmp := (p ++ tmpSuffix)%string in
  io (WriteFile tmp data);;
  f ← io (OpenFile tmp (mkFlags false false false));
  r ← try_ (io (File_Sync f));
  match r with
  | inr e => _ ← try_ (io (File_Close f)); throw e
  | inl _ =>
      _ ← try_ (io (File_Close f));
      io (Rename tmp p);;
      io sync_dir
  end.

Definition Open (d : string) : M World Manifest :=
  MkdirAll d;;
  let p := filepath_Join d fileName in
  r ← try_ (ReadFile p);
  match r with
  | inr e =>
      if IsNotExist e then
        t ← gets now;
        '(_, m) ← scoped persistLocked (mkManifest d p (mkState versionJSON 1 0 [] t));
        mret m
      else throw e
  | inl data =>
      t ← gets now;
      st ← lift (decode data t);
      mret (mkManifest d p st)
  end.

Definition cloneState (st : State) : State :=
  set_files ((fun f => mkFileMeta (Name f) (Level f) (Clone (MinKey f)) (Clone (MaxKey f)) (MaxSeq f) (Entries f)
    (FileSize f)) <$> files st) st.
Definition Current (m : Manifest) : State := cloneState (state m).
Definition Files (m : Manifest) : list FileMeta := files (Current m).
Definition LogSeq (m : Manifest) : Z := LogSeq_ (state m).
Definition Count (m : Manifest) : Z := len (files (state m)).
Definition MaxSeqAmongFiles (m : Manifest) : Z :=
  fold_left (fun mx f => if mx <? MaxSeq f then MaxSeq f else mx) (files (state m)) 0.
Definition Path (m : Manifest) : string := path m.
Definition Dir (m : Manifest) : string := dir m.

Definition AllocFileName : MM string :=
  name ← get_state (fun st => table_name (NextFile st));
  upd_state (fun st => set_NextFile (u64 (NextFile st + 1)) st);;
  persistLocked;;
  mret name.

(** [if logSeq > m.state.LogSeq { m.state.LogSeq = logSeq }] *)
Definition bump (seq : Z) (st : State) : State := if LogSeq_ st <? seq then set_LogSeq seq st else st.

Definition AddFile (meta : FileMeta) (logSeq : Z) : MM unit :=
  upd_state (fun st => set_files (files st ++ [meta]) st);;
  upd_state (bump logSeq);;
  persistLocked.

Definition Replace (remove : list string) (add : list FileMeta) (logSeq : Z) : MM unit :=
  upd_state (fun st =>
    set_files (filter (fun f => Name f ∉ remove) (files st) ++ add) st);;
  upd_state (bump logSeq);;
  persistLocked.

Definition SetLogSeq (seq : Z) : MM unit :=
  upd_state (bump seq);;
  persistLocked.
End manifest.
