(* ===== verification/ManifestFacts.v ===== *)
(** * ManifestFacts: the formats and the file of package internal/manifest

    The binary format's round trip and totality, the names of tables, and the
    states of the file MANIFEST during an update. *)

From Stdlib Require Import ZArith Lia Strings.Byte.
From stdpp Require Import base decidable list gmap strings numbers.
From S2P Require Import Prelude Crc32x Bloom ByteUtil Os OsFacts Manifest.
#[local] Open Scope Z_scope.

Lemma to_of_bytes b : to_bytes (of_bytes b) = b.
Proof. apply String.list_byte_of_string_of_list_byte. Qed.
Lemma of_to_bytes s : of_bytes (to_bytes s) = s.
Proof. apply String.string_of_list_byte_of_string. Qed.

Lemma uint_at_app (l k m : list byte) i j :
  i = len l -> j = len l + len k -> uint_at (l ++ k ++ m) i j = Ok (le_val k).
Proof. intros Hi Hj. unfold uint_at. by rewrite subslice_app. Qed.

Lemma need_ok data off n : off + n <= len data -> need data off n = Ok tt.
Proof. intros Hn. unfold need. by rewrite (proj2 (Z.ltb_ge _ _)) by lia. Qed.

(** ** Totality of the decoder *)

(** A decoder of a part that starts at [off] ends in bounds or reports
    corruption. *)
Lemma need_cases data off n :
  need data off n = Err ErrCorrupt \/ (need data off n = Ok tt /\ off + n <= len data).
Proof. unfold need. destruct (Z.ltb_spec (len data) (off + n)); auto. Qed.

Lemma uint_at_in data i j : 0 <= i <= j -> j <= len data -> exists v, uint_at data i j = Ok v /\ 0 <= v < 256 ^ (j - i).
Proof.
  intros Hi Hj. unfold uint_at, subslice. rewrite decide_True by lia. eexists. split; [done|].
  pose proof (le_val_range (take (Z.to_nat (j - i)) (drop (Z.to_nat i) data))) as Hr.
  rewrite length_take_le in Hr by (rewrite length_drop; lia). by rewrite Z2Nat.id in Hr by lia.
Qed.

Lemma subslice_in {A} (l : list A) i j : 0 <= i <= j -> j <= len l -> exists k, subslice l i j = Ok k /\ len k = j - i.
Proof.
  intros Hi Hj. unfold subslice. rewrite decide_True by lia. eexists. split; [done|]. rewrite length_take, length_drop. lia.
Qed.

(** A file's entry that the format can hold. *)
Record encodable (f : FileMeta) : Prop := {
  en_name : len (to_bytes (Name f)) < 2 ^ 16;
  en_min : len (bs (MinKey f)) < 2 ^ 16;
  en_max : len (bs (MaxKey f)) < 2 ^ 16;
  en_seq : 0 <= MaxSeq f < 2 ^ 64;
  en_entries : 0 <= Entries f < 2 ^ 64;
  en_size : - 2 ^ 63 <= FileSize f < 2 ^ 63
}.

(** What the decoder returns: numbers within their widths, keys that are not nil. *)
Record typed_meta (f : FileMeta) : Prop := {
  tm_encodable : encodable f;
  tm_level : 0 <= Level f < 2 ^ 32;
  tm_min : MinKey f <> None;
  tm_max : MaxKey f <> None
}.
Record typed_state (st : State) : Prop := {
  ts_version : 0 <= Version st < 2 ^ 32;
  ts_next : 0 <= NextFile st < 2 ^ 64;
  ts_seq : 0 <= LogSeq_ st < 2 ^ 64;
  ts_files : Forall typed_meta (files st);
  ts_count : len (files st) < 2 ^ 32
}.

(** Runs the decoder: every [need] either fails or puts the next read in
    bounds. *)
Ltac decode_step :=
  match goal with
  | |- (need ?d ?o ?n ≫= _) = _ \/ _ =>
      let H := fresh in destruct (need_cases d o n) as [H|[H ?]]; rewrite H; [by left|]; rewrite outcome_bind_Ok
  | |- (uint_at ?d ?i ?j ≫= _) = _ \/ _ =>
      let v := fresh "v" in let Hv := fresh in let Hr := fresh in
      destruct (uint_at_in d i j) as (v & Hv & Hr); [lia|lia|]; rewrite Hv, outcome_bind_Ok; rewrite ?Z.add_simpl_l in Hr; try cbn in Hr
  | |- (subslice ?d ?i ?j ≫= _) = _ \/ _ =>
      let k := fresh "k" in let Hk := fresh in let Hl := fresh in
      destruct (subslice_in d i j) as (k & Hk & Hl); [lia|lia|]; rewrite Hk, outcome_bind_Ok; rewrite ?Z.add_simpl_l in Hl
  end; cbv zeta.

Lemma decode_file_total data off :
  0 <= off <= len data ->
  decode_file data off = Err ErrCorrupt \/
  exists f off', decode_file data off = Ok (f, off') /\ off <= off' <= len data /\ typed_meta f.
Proof.
  intros Hoff. unfold decode_file. repeat decode_step. right. eexists _, _. split; [done|]. split; [lia|].
  split; cbn [Level MinKey MaxKey]; rewrite ?Clone_id; [|lia|done|done].
  split; cbn [Name MinKey MaxKey MaxSeq Entries FileSize]; rewrite ?to_of_bytes, ?Clone_id; cbn [bs]; first [lia|apply i64_range].
Qed.

Lemma decode_body_eq data off fs :
  decode_body data (off, fs) = ('(f, off') ← decode_file data off; Ok (inl (off', fs ++ [f]))).
Proof. done. Qed.

Lemma decode_loop_total data n : forall off fs,
  0 <= off <= len data -> Forall typed_meta fs ->
  loop_nat n (decode_body data) (off, fs) = Err ErrCorrupt \/
  exists off' fs', loop_nat n (decode_body data) (off, fs) = Ok (inl (off', fs')) /\ off <= off' <= len data /\
    Forall typed_meta fs' /\ length fs' = (length fs + n)%nat.
Proof.
  induction n as [|n IH]; intros off fs Hoff Hfs; [right; eexists _, _; split; [done|]; split_and!; [lia..|done|lia]|]. cbn [loop_nat].
  rewrite decode_body_eq.
  destruct (decode_file_total data off Hoff) as [->|(f & off' & -> & Ho & Hf)]; [by left|]. cbn [mbind outcome_bind].
  destruct (IH off' (fs ++ [f])) as [->|(off2 & fs2 & -> & Ho2 & Hfs2 & Hl)];
    [lia|apply Forall_app; split; [done|by apply Forall_singleton]|by left|].
  right. exists off2, fs2. split; [done|]. split; [lia|]. split; [done|]. rewrite Hl, length_app. cbn. lia.
Qed.

Lemma decodeBinary_total data t :
  decodeBinary data t = Err ErrCorrupt \/ exists st, decodeBinary data t = Ok st /\ typed_state st /\ UpdatedAt st = t.
Proof.
  unfold decodeBinary. destruct (Z.ltb_spec (len data) (4 + 4 + 8 + 8 + 4)) as [|Hl]; [by left|].
  decode_step. destruct (v =? magicBinary); [|by left]; cbn [negb]. repeat decode_step.
  unfold make_check. rewrite decide_True by lia. rewrite outcome_bind_Ok, loop_loop_nat.
  destruct (decode_loop_total data (Z.to_nat v3) 28 []) as [->|(off & fs & -> & Ho & Hfs & Hlen)]; [lia|done|by left|].
  rewrite outcome_bind_Ok. repeat decode_step. case_match; [by left|right]. eexists. split; [done|]. split; [|done].
  cbn in Hlen. split; cbn; first [done|lia].
Qed.

(** ** The binary round trip *)

(** What comes back: the level as an unsigned number, nil keys as empty ones. *)
Definition decoded (f : FileMeta) : FileMeta :=
  mkFileMeta (Name f) (u32 (Level f)) (Some (bs (MinKey f))) (Some (bs (MaxKey f))) (MaxSeq f) (Entries f) (FileSize f).

Lemma i64_u64 z : - 2 ^ 63 <= z < 2 ^ 63 -> i64 (u64 z) = z.
Proof. intros Hz. unfold i64, u64. rewrite Zplus_mod_idemp_l. fold (i64 z). by apply i64_small. Qed.

(** [at_ data off rest]: what is left of [data] from [off] on is [rest]. *)
Definition at_ (data : list byte) (off : Z) (rest : list byte) : Prop :=
  exists pre, data = pre ++ rest /\ off = len pre.

Lemma at_next data off k rest n : at_ data off (k ++ rest) -> n = len k -> at_ data (off + n) rest.
Proof. intros (pre & -> & ->) ->. exists (pre ++ k). rewrite length_app, <- app_assoc. split; [done|lia]. Qed.

Lemma at_subslice data off k rest n : at_ data off (k ++ rest) -> n = len k -> subslice data off (off + n) = Ok k.
Proof. intros (pre & -> & ->) ->. by apply subslice_app. Qed.

Lemma at_uint data off n k z rest :
  at_ data off (le_bytes n z ++ rest) -> k = Z.of_nat n -> uint_at data off (off + k) = Ok (z mod 256 ^ k).
Proof.
  intros Ha ->. unfold uint_at. rewrite (at_subslice _ _ _ _ _ Ha) by (by rewrite length_le_bytes).
  by rewrite outcome_bind_Ok, le_val_bytes.
Qed.

Lemma at_need data off rest n : at_ data off rest -> n <= len rest -> need data off n = Ok tt.
Proof. intros (pre & -> & ->) Hn. apply need_ok. rewrite length_app. lia. Qed.

Lemma decode_encode_file f data off rest :
  encodable f -> at_ data off (encode_file f ++ rest) ->
  decode_file data off = Ok (decoded f, off + len (encode_file f)).
Proof.
  intros [Hn Hmin Hmax Hs He Hz] H1. unfold encode_file in *. set (name := to_bytes (Name f)) in *.
  set (mk := bs (MinKey f)) in *. set (xk := bs (MaxKey f)) in *. rewrite <- !app_assoc in H1.
  pose proof (at_next _ _ _ _ 2 H1 eq_refl) as H2. pose proof (at_next _ _ _ _ _ H2 eq_refl) as H3.
  pose proof (at_next _ _ _ _ 4 H3 eq_refl) as H4. pose proof (at_next _ _ _ _ 8 H4 eq_refl) as H5.
  pose proof (at_next _ _ _ _ 8 H5 eq_refl) as H6. pose proof (at_next _ _ _ _ 8 H6 eq_refl) as H7.
  pose proof (at_next _ _ _ _ 2 H7 eq_refl) as H8. pose proof (at_next _ _ _ _ _ H8 eq_refl) as H9.
  pose proof (at_next _ _ _ _ 2 H9 eq_refl) as H10. pose proof (at_next _ _ _ _ _ H10 eq_refl) as H11.
  unfold decode_file.
  rewrite (at_need _ _ _ _ H1), outcome_bind_Ok by solve_len.
  rewrite (at_uint _ _ 2 2 _ _ H1 eq_refl), outcome_bind_Ok, (Z.mod_small (len name)) by lia.
  rewrite (at_need _ _ _ _ H2), outcome_bind_Ok by solve_len.
  rewrite (at_subslice _ _ _ _ _ H2 eq_refl), outcome_bind_Ok.
  rewrite (at_need _ _ _ _ H3), outcome_bind_Ok by solve_len.
  rewrite (at_uint _ _ 4 4 _ _ H3 eq_refl), outcome_bind_Ok, (at_uint _ _ 8 8 _ _ H4 eq_refl), outcome_bind_Ok.
  rewrite (at_uint _ _ 8 8 _ _ H5 eq_refl), outcome_bind_Ok, (at_uint _ _ 8 8 _ _ H6 eq_refl), outcome_bind_Ok.
  rewrite (at_need _ _ _ _ H7), outcome_bind_Ok by solve_len.
  rewrite (at_uint _ _ 2 2 _ _ H7 eq_refl), outcome_bind_Ok, (Z.mod_small (len mk)) by lia.
  rewrite (at_need _ _ _ _ H8), outcome_bind_Ok by solve_len.
  rewrite (at_subslice _ _ _ _ _ H8 eq_refl), outcome_bind_Ok.
  rewrite (at_need _ _ _ _ H9), outcome_bind_Ok by solve_len.
  rewrite (at_uint _ _ 2 2 _ _ H9 eq_refl), outcome_bind_Ok, (Z.mod_small (len xk)) by lia.
  rewrite (at_need _ _ _ _ H10), outcome_bind_Ok by solve_len.
  rewrite (at_subslice _ _ _ _ _ H10 eq_refl), outcome_bind_Ok.
  f_equal. f_equal.
  - unfold decoded, name. rewrite !Clone_id, of_to_bytes. f_equal; [by apply Z.mod_small..|by apply i64_u64].
  - solve_len.
Qed.

Lemma fold_encode fs : forall hdr,
  fold_left (fun b f => b ++ encode_file f) fs hdr = hdr ++ concat (encode_file <$> fs).
Proof. induction fs as [|f fs IH]; intros hdr; cbn; [by rewrite app_nil_r|]. by rewrite IH, <- app_assoc. Qed.

Lemma decode_encode_files data rest fs : forall off acc,
  Forall encodable fs -> at_ data off (concat (encode_file <$> fs) ++ rest) ->
  loop_nat (length fs) (decode_body data) (off, acc) =
    Ok (inl (off + len (concat (encode_file <$> fs)), acc ++ (decoded <$> fs))).
Proof.
  induction fs as [|f fs IH]; intros off acc He Ha; [cbn; by rewrite Z.add_0_r, app_nil_r|].
  inversion He as [|? ? Hf He']; subst. cbn [fmap list_fmap concat] in Ha. rewrite <- app_assoc in Ha.
  cbn [length loop_nat fmap list_fmap concat]. rewrite decode_body_eq, (decode_encode_file f data off _ Hf Ha), !outcome_bind_Ok.
  rewrite (IH _ _ He' (at_next _ _ _ _ _ Ha eq_refl)), length_app, <- app_assoc. do 3 f_equal. lia.
Qed.

Lemma decodeBinary_EncodeBinary st t :
  Forall encodable (files st) -> len (files st) < 2 ^ 32 ->
  0 <= NextFile st < 2 ^ 64 -> 0 <= LogSeq_ st < 2 ^ 64 ->
  decodeBinary (EncodeBinary st) t =
    Ok (mkState (u32 (Version st)) (NextFile st) (LogSeq_ st) (decoded <$> files st) t).
Proof.
  intros Hf Hn Hnf Hls. unfold EncodeBinary. rewrite fold_encode.
  set (body := concat (encode_file <$> files st)). set (hdr := le_bytes 4 magicBinary ++ _).
  set (crc := le_bytes 4 _). set (data := (hdr ++ body) ++ crc).
  assert (len hdr = 28) as Hhdr by done.
  assert (at_ data 0 (hdr ++ body ++ crc)) as H0 by (exists []; unfold data; by rewrite <- app_assoc).
  pose proof (at_next _ _ _ _ 28 H0 (eq_sym Hhdr)) as H5.
  unfold hdr in H0. rewrite <- !app_assoc in H0.
  pose proof (at_next _ _ _ _ 4 H0 eq_refl) as H1. pose proof (at_next _ _ _ _ 4 H1 eq_refl) as H2.
  pose proof (at_next _ _ _ _ 8 H2 eq_refl) as H3. pose proof (at_next _ _ _ _ 8 H3 eq_refl) as H4.
  cbn [Z.add] in *. pose proof (at_next _ _ _ _ _ H5 eq_refl) as H6.
  assert (len data = 28 + len body + 4) as Hl.
  { unfold data, crc. rewrite !length_app, length_le_bytes. lia. }
  unfold decodeBinary. rewrite (proj2 (Z.ltb_ge _ _)) by lia.
  rewrite (at_uint _ _ 4 4 _ _ H0 eq_refl : uint_at data 0 4 = _), outcome_bind_Ok.
  change (negb (magicBinary mod 256 ^ 4 =? magicBinary)) with false. cbv iota.
  rewrite (at_uint _ _ 4 4 _ _ H1 eq_refl : uint_at data 4 8 = _), outcome_bind_Ok.
  rewrite (at_uint _ _ 8 8 _ _ H2 eq_refl : uint_at data 8 16 = _), outcome_bind_Ok, (Z.mod_small (NextFile st)) by done.
  rewrite (at_uint _ _ 8 8 _ _ H3 eq_refl : uint_at data 16 24 = _), outcome_bind_Ok, (Z.mod_small (LogSeq_ st)) by done.
  rewrite (at_uint _ _ 4 4 _ _ H4 eq_refl : uint_at data 24 28 = _), outcome_bind_Ok, (Z.mod_small (len (files st))) by lia.
  unfold make_check. rewrite decide_True by lia. rewrite outcome_bind_Ok, loop_loop_nat, Nat2Z.id.
  rewrite (decode_encode_files _ _ _ _ _ Hf H5), outcome_bind_Ok. fold body.
  rewrite (need_ok data) by lia. rewrite outcome_bind_Ok.
  rewrite (at_uint data (0 + 28 + len body) 4 4 (ChecksumCastagnoli (hdr ++ body)) []), outcome_bind_Ok;
    [|by rewrite app_nil_r|done].
  rewrite (subslice_0 (hdr ++ body) crc) by (rewrite length_app; lia). rewrite outcome_bind_Ok.
  rewrite (Z.mod_small (ChecksumCastagnoli _)), Z.eqb_refl by apply ChecksumCastagnoli_range. done.
Qed.

(** ** Names of tables *)

Definition dval (l : list byte) : Z := fold_left (fun v b => 10 * v + (b2z b - 48)) l 0.

Lemma dval_snoc l b : dval (l ++ [b]) = 10 * dval l + (b2z b - 48).
Proof. unfold dval. by rewrite fold_left_app. Qed.

Lemma dval_digits k : forall n, 0 <= n < 10 ^ Z.of_nat k -> dval (digits k n) = n.
Proof.
  induction k as [|k IH]; intros n Hn; [cbn in *; lia|]. cbn [digits]. rewrite dval_snoc.
  rewrite Nat2Z.inj_succ, Z.pow_succ_r in Hn by lia.
  rewrite IH by (split; [apply Z.div_pos; lia|apply Z.div_lt_upper_bound; lia]).
  unfold digit. rewrite b2z_z2b, u8_small by (pose proof (Z.mod_pos_bound n 10); lia).
  pose proof (Z.div_mod n 10). lia.
Qed.

Lemma ndigits_bound k : forall n, 0 <= n < 10 ^ Z.of_nat k -> n < 10 ^ Z.of_nat (ndigits k n).
Proof.
  induction k as [|k IH]; intros n Hn; [cbn in *; lia|]. cbn [ndigits]. destruct (Z.eqb_spec n 0); [by subst|].
  rewrite Nat2Z.inj_succ, Z.pow_succ_r in * by lia.
  assert (n / 10 < 10 ^ Z.of_nat (ndigits k (n / 10))).
  { apply IH. split; [apply Z.div_pos; lia|apply Z.div_lt_upper_bound; lia]. }
  pose proof (Z.div_mod n 10). pose proof (Z.mod_pos_bound n 10). lia.
Qed.

Lemma table_name_inj a b : 0 <= a < 2 ^ 64 -> 0 <= b < 2 ^ 64 -> table_name a = table_name b -> a = b.
Proof.
  intros Ha Hb Heq. assert (2 ^ 64 < 10 ^ Z.of_nat 20) as Hlt by done.
  assert (forall n, 0 <= n < 2 ^ 64 -> dval (digits (Nat.max 6 (ndigits 20 n)) n) = n) as Hval.
  { intros n Hn. apply dval_digits. split; [lia|]. pose proof (ndigits_bound 20 n ltac:(lia)) as Hd.
    eapply Z.lt_le_trans; [exact Hd|]. apply Z.pow_le_mono_r; lia. }
  apply (f_equal to_bytes) in Heq. unfold table_name in Heq. rewrite !to_of_bytes in Heq.
  apply app_inv_tail in Heq. rewrite <- (Hval a Ha), <- (Hval b Hb). by rewrite Heq.
Qed.

(** ** JSON

    What is assumed of encoding/json and of time.Format: the text of a state
    is an object, and reading it gives the state back, if its strings are
    ASCII and its numbers are in the range of their types. *)
Definition ascii (s : string) : Prop := Forall (fun b => b2z b < 128) (to_bytes s).

Record meta_ok (f : FileMeta) : Prop := {
  mo_name : ascii (Name f);
  mo_level : - 2 ^ 63 <= Level f < 2 ^ 63;
  mo_seq : 0 <= MaxSeq f < 2 ^ 64;
  mo_entries : 0 <= Entries f < 2 ^ 64;
  mo_size : - 2 ^ 63 <= FileSize f < 2 ^ 63
}.

Record state_ok (st : State) : Prop := {
  so_version : - 2 ^ 63 <= Version st < 2 ^ 63;
  so_next : 0 <= NextFile st < 2 ^ 64;
  so_seq : 0 <= LogSeq_ st < 2 ^ 64;
  so_files : Forall meta_ok (files st);
  so_time : ascii (UpdatedAt st)
}.

Class JsonOk (J : Json) := {
  json_object st : exists rest, MarshalIndent st = x7b :: rest;
  json_roundtrip st : state_ok st -> Unmarshal (MarshalIndent st) = Some st;
  now_ascii w : ascii (now w);
  (** the clock does not tell which calls are going to fail *)
  now_blind w fs : now (set_faults fs w) = now w
}.

(** ** Writing the manifest *)

Lemma manif_io_run {A} (m : M World A) (x : Manifest) w r w' : m w = (r, w') -> io m (x, w) = (r, (x, w')).
Proof. unfold io, zoom. cbn. by intros ->. Qed.

Section persist.
Context {J : Json} {JO : JsonOk J}.

Lemma decode_json st t :
  state_ok st -> Version st <> 0 -> decode (MarshalIndent st) t = Ok st.
Proof.
  intros Hst Hv. unfold decode.
  assert ((if 4 <=? len (MarshalIndent st) then m ← uint_at (MarshalIndent st) 0 4; Ok (m =? magicBinary)
    else Ok false) = Ok false) as ->.
  { destruct (json_object st) as [rest ->]. destruct (Z.leb_spec 4 (len (x7b :: rest))); [|done].
    unfold uint_at. rewrite subslice_take by lia. rewrite !outcome_bind_Ok. f_equal. apply Z.eqb_neq.
    change (Z.to_nat 4) with 4%nat. cbn [take firstn]. change (le_val (x7b :: take 3 rest)) with (123 + 256 * le_val (take 3 rest)).
    unfold magicBinary. lia. }
  rewrite outcome_bind_Ok, json_roundtrip by done. by rewrite (proj2 (Z.eqb_neq _ _)).
Qed.

Lemma sync_dir_calm w : calm w -> sync_dir w = (Ok tt, w).
Proof.
  intros Hc. assert (try_ (syscall (mret tt)) w = (Ok (inl tt), w)) as Ht by (unfold try_; by rewrite syscall_calm).
  unfold sync_dir. by rewrite !(M_bind_Ok _ _ _ _ _ Ht).
Qed.

(** The state that is written: with a new time stamp. *)
Definition stamped (w : World) (st : State) : State := stamp versionJSON (now w) st.

(** The manifest's file holds its state. *)
Definition on_disk (w : World) (m : Manifest) : Prop :=
  exists i, names w !! path m = Some i /\ inodes w !! i = Some (MarshalIndent (state m)).

Lemma tmp_path p : (p ++ tmpSuffix)%string <> p.
Proof. induction p as [|c p IH]; [done|]. intros Heq. injection Heq as Heq. by apply IH. Qed.

(** What a successful update does to the files: the manifest [p] is another
    file, and there is no temporary one. *)
Record renewed (p : string) (w w' : World) : Prop := {
  rn_steady : steady [p; (p ++ tmpSuffix)%string] w w';
  rn_tmp : names w' !! (p ++ tmpSuffix)%string = None;
  rn_own : unshared p w'
}.

(** A temporary file that an earlier process left is written over. *)
Lemma persist_run m w (tmp := (path m ++ tmpSuffix)%string) :
  calm w -> names_ok w -> unshared tmp w ->
  exists w', let m' := mkManifest (dir m) (path m) (stamped w (state m)) in
    persistLocked (m, w) = (Ok tt, (m', w')) /\ calm w' /\ names_ok w' /\ renewed (path m) w w' /\ on_disk w' m'.
Proof.
  intros Hc Hn Hu. set (m' := mkManifest _ _ _). assert (tmp <> path m) as Hne by apply tmp_path.
  destruct (WriteFile_run w tmp (MarshalIndent (state m')) Hc Hn Hu) as (w1 & t & Hwf & Hc1 & Hok1 & Hn1 & Hi1 & Hp & [K1 F1]).
  destruct (Open_grows w1 tmp t (MarshalIndent (state m')) (mkFlags false false false) Hc1) as
    (w2 & Ho & Hc2 & G2 & Hf2 & Hn2 & Hi2); [by rewrite Hn1, lookup_insert_eq|done..|].
  destruct (Close_grows w1 w2 _ _ _ _ G2 ltac:(done) Hc2 Hf2) as (w3 & Hcl & Hc3 & [_ G3] & Hn3 & Hi3).
  assert (names w3 !! tmp = Some t) as Ht3 by (by rewrite Hn3, Hn2, Hn1, lookup_insert_eq).
  set (w4 := set_names (<[path m := t]> (delete tmp (names w3))) w3).
  assert (forall q, q <> path m -> q <> tmp -> names w4 !! q = names w !! q) as Hq.
  { intros q H1 H2. cbn. by rewrite lookup_insert_ne, lookup_delete_ne, Hn3, Hn2, Hn1, lookup_insert_ne by done. }
  assert (inodes w4 = inodes w1) as Hi4 by (cbn; congruence). exists w4. cbv zeta. split_and!; [|done|..].
  - unfold persistLocked, gets. rewrite (M_bind_Ok _ _ _ (now w) (m, w)) by done.
    rewrite (M_bind_Ok _ _ _ tt (m', w)) by done. rewrite (M_bind_Ok _ _ _ (MarshalIndent (state m')) (m', w)) by done.
    rewrite (M_bind_Ok _ _ _ (path m) (m', w)) by done. cbv zeta. fold tmp.
    rewrite (M_bind_Ok _ _ _ _ _ (manif_io_run _ m' w _ _ Hwf)), (M_bind_Ok _ _ _ _ _ (manif_io_run _ m' w1 _ _ Ho)).
    rewrite (M_bind_Ok _ _ _ (inl tt) (m', w2)) by
      (unfold try_; by rewrite (manif_io_run _ m' w2 _ _ (Sync_spec w2 _ _ _ _ Hc2 Hf2))).
    rewrite (M_bind_Ok _ _ _ (inl tt) (m', w3)) by (unfold try_; by rewrite (manif_io_run _ m' w2 _ _ Hcl)).
    rewrite (M_bind_Ok _ _ _ _ _ (manif_io_run _ m' w3 _ _ (Rename_calm w3 tmp (path m) _ Hc3 Ht3))).
    apply manif_io_run. by apply sync_dir_calm.
  - unfold names_ok. rewrite Hi4. cbn. apply map_Forall_insert_2; [by eapply lookup_lt_Some|]. apply map_Forall_delete. by rewrite Hn3, Hn2.
  - split; [split| |].
    + intros q [H1 [H2 _]%not_elem_of_cons]%not_elem_of_cons. by apply Hq.
    + intros q j c [_ [H2 _]%not_elem_of_cons]%not_elem_of_cons Hj Hcj. rewrite Hi4. apply K1; [|done]. intros ->. by apply H2, Hp.
    + intros g d Hg. by apply G3, F1.
    + cbn. fold tmp. by rewrite lookup_insert_ne, lookup_delete_eq.
    + intros j q. cbn. rewrite lookup_insert_eq, lookup_insert_Some. intros [= <-] [[-> _]|[H1 H2]]; [done|].
      apply lookup_delete_Some in H2 as [H2 H3]. rewrite Hn3, Hn2, Hn1, lookup_insert_ne in H3 by done. by destruct H2; symmetry; apply Hp.
  - exists t. split; [cbn; by rewrite lookup_insert_eq|]. rewrite Hi4. exact Hi1.
Qed.
End persist.

(** ** Calls that may fail *)

(** The contents of a named file. *)
Definition file (w : World) (p : string) : option (list byte) := names w !! p ≫= (inodes w !!.).

Definition same_files (w w' : World) : Prop := names w' = names w /\ inodes w' = inodes w.

Lemma next_fault_same w o w' : next_fault w = (o, w') -> same_files w w' /\ fds w' = fds w.
Proof. unfold next_fault. case_match; by intros [= <- <-]. Qed.

(** A system call fails without effect, or runs in a world that differs in the
    schedule only. *)
Lemma syscall_cases {A} (m : M World A) w o w' :
  syscall m w = (o, w') ->
  (o = Err io_error /\ same_files w w' /\ fds w' = fds w) \/
  exists w1, same_files w w1 /\ fds w1 = fds w /\ m w1 = (o, w').
Proof.
  unfold syscall, mbind, M_bind. destruct (next_fault w) as [[[k|]|e|p|] w1] eqn:E;
    apply next_fault_same in E as Hs; destruct Hs as [Hs Hf]; try (unfold next_fault in E; by case_match).
  - intros [= <- <-]. by left.
  - intros Hm. right. by exists w1.
Qed.

Lemma syscall_ret_same {A} (a : A) w o w' : syscall (mret a) w = (o, w') -> same_files w w' /\ fds w' = fds w.
Proof.
  intros H. apply syscall_cases in H as [(_ & ? & ?)|(w1 & Hs & Hf & [= _ <-])]; done.
Qed.

Lemma Sync_same f w o w' : File_Sync f w = (o, w') -> same_files w w' /\ fds w' = fds w.
Proof.
  unfold File_Sync, mbind, M_bind, open_fd. destruct (fds w !! f) as [d|]; [destruct (is_open d)|];
    [apply syscall_ret_same|by intros [= _ <-]..].
Qed.

Lemma Close_same f w o w' : File_Close f w = (o, w') -> same_files w w'.
Proof.
  unfold File_Close, mbind, M_bind, open_fd. destruct (fds w !! f) as [d|]; [destruct (is_open d)|];
    [|by intros [= _ <-]..]. cbn. intros H. by apply syscall_ret_same in H as [[? ?] _].
Qed.

Lemma Open_same p w o w' : OpenFile p (mkFlags false false false) w = (o, w') -> same_files w w'.
Proof.
  unfold OpenFile. intros H. apply syscall_cases in H as [(_ & ? & _)|(w1 & [Hn Hi] & _ & H)]; [done|].
  cbn in H. destruct (names w1 !! p); injection H as <- <-; by split.
Qed.

Lemma Rename_cases old new w o w' :
  Rename old new w = (o, w') ->
  (o <> Ok tt /\ same_files w w') \/
  exists i, names w !! old = Some i /\ names w' = <[new := i]> (delete old (names w)) /\ inodes w' = inodes w /\ o = Ok tt.
Proof.
  unfold Rename. intros H. apply syscall_cases in H as [(-> & ? & _)|(w1 & [Hn Hi] & _ & H)]; [by left|].
  rewrite Hn in H. destruct (names w !! old) as [i|]; injection H as <- <-; [|by left; split].
  right. exists i. by rewrite <- Hn, <- Hi.
Qed.

(** Writing a whole file touches that file only; on success it holds [b]. *)
Record aside (tmp : string) (w w' : World) : Prop := {
  as_ok : names_ok w -> names_ok w';
  as_names p : p <> tmp -> names w' !! p = names w !! p;
  as_files p i : p <> tmp -> names w !! p = Some i -> names w !! tmp <> Some i ->
    names w' !! tmp <> Some i /\ inodes w' !! i = inodes w !! i
}.

Lemma same_aside tmp w w' : same_files w w' -> aside tmp w w'.
Proof. intros [Hn Hi]. split; [by unfold names_ok; rewrite Hn, Hi|by rewrite Hn|by rewrite Hn, Hi]. Qed.

#[export] Instance aside_preorder tmp : PreOrder (aside tmp).
Proof.
  split; [by split|]. intros w1 w2 w3 [O1 N1 F1] [O2 N2 F2]. split; [auto|intros p Hp; by rewrite N2, N1|].
  intros p i Hp Hi Ht. destruct (F1 p i Hp Hi Ht) as [Ht' <-]. apply (F2 p i); [done| |done]. by rewrite N1.
Qed.

Lemma OpenFile_trunc_aside tmp w o w' :
  names_ok w -> OpenFile tmp (mkFlags true false true) w = (o, w') ->
  aside tmp w w' /\ forall f, o = Ok f ->
    exists t, names w' !! tmp = Some t /\ has_file w' f t 0 [].
Proof.
  intros Hok H. unfold OpenFile in H. apply syscall_cases in H as [(-> & Hs & _)|(w1 & [Hn Hi] & Hf & H)].
  { split; [by apply same_aside|done]. }
  cbn in H. rewrite Hn in H. destruct (names w !! tmp) as [t|] eqn:Et; injection H as <- <-.
  - split; [split|].
    + intros _. unfold names_ok. cbn. by rewrite Hn, length_insert, Hi.
    + intros p Hp. cbn. by rewrite Hn.
    + intros p i Hp Hip Hne. cbn. rewrite Hn, Hi, Et. split; [congruence|]. rewrite list_lookup_insert_ne by congruence. done.
    + intros f [= <-]. exists t. cbn. rewrite Hn. split; [done|]. specialize (Hok _ _ Et). cbn in Hok.
      split; cbn; [by apply list_lookup_middle|]. apply list_lookup_insert_eq. by rewrite Hi.
  - split; [split|].
    + intros _. unfold names_ok. cbn. rewrite Hi, length_app. apply map_Forall_insert_2; [cbn; lia|].
      eapply map_Forall_impl; [exact Hok|]. cbn. lia.
    + intros p Hp. cbn. by rewrite lookup_insert_ne.
    + intros p i Hp Hip Hne. specialize (Hok _ _ Hip). cbn in *. rewrite lookup_insert_eq. rewrite Hi. split.
      * intros [= <-]. lia.
      * by rewrite lookup_app_l.
    + intros f [= <-]. eexists. cbn. rewrite lookup_insert_eq. split; [done|]. split; cbn; by apply list_lookup_middle.
Qed.

Lemma Write_aside tmp f t w b o w' :
  names w !! tmp = Some t -> has_file w f t 0 [] -> File_Write f b w = (o, w') ->
  aside tmp w w' /\ names w' !! tmp = Some t /\ (forall n, o = Ok n -> inodes w' !! t = Some b).
Proof.
  intros Ht Hf H. unfold File_Write in H. rewrite (M_bind_Ok _ _ _ _ _ (open_fd_file _ _ _ _ _ Hf)) in H.
  unfold mbind at 1, M_bind at 1 in H. destruct (next_fault w) as [[fault|e|p|] w1] eqn:E;
    apply next_fault_same in E as Hs; destruct Hs as [[Hn Hi] Hfd]; try (unfold next_fault in E; by case_match).
  unfold gets, mbind, M_bind in H. cbn [pos ino] in H. set (b' := match fault with None => b | Some k => take k b end) in *.
  assert (content t w1 = []) as Hc by (unfold content; destruct Hf as [_ Hf]; by rewrite Hi, Hf).
  rewrite Hc in H. assert (write_at [] (Z.to_nat 0) b' = b') as Hwr by apply (write_at_end []).
  rewrite Hwr in H. unfold set_content, set_pos, modify in H.
  assert (Hw: names w' = names w /\ inodes w' = <[t := b']> (inodes w)).
  { destruct fault; injection H as _ <-; cbn; by rewrite Hn, Hi. }
  destruct Hw as [Hn' Hi']. split_and!.
  - split; [by unfold names_ok; rewrite Hn', Hi', length_insert|by rewrite Hn'|]. intros p i Hp Hip Hne. rewrite Hn', Hi'. split; [done|].
    apply list_lookup_insert_ne. congruence.
  - by rewrite Hn'.
  - intros n ->. destruct fault; [done|]. rewrite Hi'. apply list_lookup_insert_eq. destruct Hf as [_ Hf]. by eapply lookup_lt_Some.
Qed.

Lemma WriteFile_aside tmp b w o w' :
  names_ok w -> WriteFile tmp b w = (o, w') ->
  aside tmp w w' /\ (o = Ok tt -> file w' tmp = Some b).
Proof.
  intros Hok H. unfold WriteFile in H. unfold mbind at 1, M_bind at 1 in H.
  destruct (OpenFile tmp _ w) as [[f|e|p|] w1] eqn:Eo; apply (OpenFile_trunc_aside tmp w _ w1 Hok) in Eo as [A1 Hf];
    try (injection H as <- <-; by split).
  destruct (Hf f eq_refl) as (t & Ht & Hfile). unfold mbind at 1, M_bind at 1, try_ at 1 in H.
  destruct (File_Write f b w1) as [ow w2] eqn:Ew. destruct (Write_aside tmp f t w1 b ow w2 Ht Hfile Ew) as (A2 & Ht2 & Hb).
  assert (aside tmp w w2) as A12 by (by transitivity w1).
  destruct ow as [n|e|p|]; unfold mbind, M_bind, try_ in H;
    [|destruct (File_Close f w2) as [[|e'| |] w3] eqn:Ec; apply Close_same in Ec as Hs; injection H as <- <-;
      (split; [transitivity w2; [done|by apply same_aside]|done])|injection H as <- <-; by split..].
  destruct (File_Close f w2) as [oc w3] eqn:Ec. apply Close_same in Ec as Hs.
  assert (aside tmp w w3) as A13 by (transitivity w2; [done|by apply same_aside]).
  destruct Hs as [Hn3 Hi3].
  destruct oc; injection H as <- <-; (split; [done|]); try done.
  intros _. unfold file. rewrite Hn3, Ht2. cbn. rewrite Hi3. by eapply Hb.
Qed.
