(* ===== verification/ManifestProps.v ===== *)
(** * ManifestProps: the theorems about internal/manifest

    The binary format, reopening after updates, atomic replacement under
    failures, fresh table names; and a codec that meets what is assumed of
    encoding/json. *)

From Stdlib Require Import ZArith Lia Strings.Byte.
From stdpp Require Import base decidable list gmap strings numbers sets.
From S2P Require Import Prelude Crc32x Bloom ByteUtil Os OsFacts OsFaults Manifest ManifestFacts.
#[local] Open Scope Z_scope.

(** * A codec *)

Module Codec.

Fixpoint enc_bytes (b : list byte) : list byte := match b with [] => [x00] | x :: b => x01 :: x :: enc_bytes b end.
Fixpoint dec_bytes (d : list byte) : option (list byte * list byte) :=
  match d with
  | x00 :: d => Some ([], d)
  | x01 :: x :: d => '(b, d) ← dec_bytes d; Some (x :: b, d)
  | _ => None
  end.

Lemma dec_enc_bytes b d : dec_bytes (enc_bytes b ++ d) = Some (b, d).
Proof. induction b as [|x b IH]; [done|]. cbn. by rewrite IH. Qed.

Definition dec_u64 (d : list byte) : option (Z * list byte) :=
  if bool_decide (8 <= length d)%nat then Some (le_val (take 8 d), drop 8 d) else None.

Lemma dec_enc_u64 z d : dec_u64 (le_bytes 8 z ++ d) = Some (u64 z, d).
Proof.
  unfold dec_u64. rewrite bool_decide_true by (rewrite length_app, length_le_bytes; lia).
  rewrite (take_app_exact (le_bytes 8 z)), (drop_app_exact (le_bytes 8 z)) by done. by rewrite le_val_bytes8.
Qed.

Definition enc_slice (s : slice) : list byte := match s with None => [x00] | Some b => x01 :: enc_bytes b end.
Definition dec_slice (d : list byte) : option (slice * list byte) :=
  match d with
  | x00 :: d => Some (None, d)
  | x01 :: d => '(b, d) ← dec_bytes d; Some (Some b, d)
  | _ => None
  end.

Lemma dec_enc_slice s d : dec_slice (enc_slice s ++ d) = Some (s, d).
Proof. destruct s as [b|]; [|done]. cbn. by rewrite dec_enc_bytes. Qed.

Definition enc_meta (f : FileMeta) : list byte :=
  enc_bytes (to_bytes (Name f)) ++ le_bytes 8 (Level f) ++ enc_slice (MinKey f) ++ enc_slice (MaxKey f) ++
  le_bytes 8 (MaxSeq f) ++ le_bytes 8 (Entries f) ++ le_bytes 8 (FileSize f).
Definition dec_meta (d : list byte) : option (FileMeta * list byte) :=
  '(n, d) ← dec_bytes d; '(l, d) ← dec_u64 d; '(mn, d) ← dec_slice d; '(mx, d) ← dec_slice d;
  '(s, d) ← dec_u64 d; '(e, d) ← dec_u64 d; '(z, d) ← dec_u64 d;
  Some (mkFileMeta (of_bytes n) (i64 l) mn mx s e (i64 z), d).

Lemma dec_enc_meta f d : meta_ok f -> dec_meta (enc_meta f ++ d) = Some (f, d).
Proof.
  intros [_ Hl Hs He Hz]. unfold dec_meta, enc_meta. rewrite <- !app_assoc.
  rewrite dec_enc_bytes. cbn [mbind option_bind]. rewrite dec_enc_u64. cbn [mbind option_bind]. rewrite dec_enc_slice. cbn [mbind option_bind]. rewrite dec_enc_slice. cbn [mbind option_bind].
  rewrite dec_enc_u64. cbn [mbind option_bind]. rewrite dec_enc_u64. cbn [mbind option_bind]. rewrite dec_enc_u64. cbn [mbind option_bind].
  rewrite of_to_bytes, !i64_u64, !u64_small by done. by destruct f.
Qed.

Fixpoint enc_metas (fs : list FileMeta) : list byte :=
  match fs with [] => [x00] | f :: fs => x01 :: enc_meta f ++ enc_metas fs end.
Fixpoint dec_metas (fuel : nat) (d : list byte) : option (list FileMeta * list byte) :=
  match fuel, d with
  | _, x00 :: d => Some ([], d)
  | S fuel, x01 :: d => '(f, d) ← dec_meta d; '(fs, d) ← dec_metas fuel d; Some (f :: fs, d)
  | _, _ => None
  end.

Lemma dec_enc_metas fs : forall fuel d,
  Forall meta_ok fs -> (length fs <= fuel)%nat -> dec_metas fuel (enc_metas fs ++ d) = Some (fs, d).
Proof.
  induction fs as [|f fs IH]; intros fuel d Hok Hf; [by destruct fuel|]. inversion Hok; subst.
  destruct fuel as [|fuel]; [cbn in Hf; lia|]. cbn. rewrite <- app_assoc, dec_enc_meta by done. cbn.
  rewrite IH; [done|done|cbn in Hf; lia].
Qed.

Lemma length_enc_metas fs : (length fs <= length (enc_metas fs))%nat.
Proof. induction fs as [|f fs IH]; cbn; [lia|]. rewrite length_app. lia. Qed.

Definition marshal (st : State) : list byte :=
  x7b :: le_bytes 8 (Version st) ++ le_bytes 8 (NextFile st) ++ le_bytes 8 (LogSeq_ st) ++
  enc_metas (files st) ++ enc_bytes (to_bytes (UpdatedAt st)).
Definition unmarshal (d : list byte) : option State :=
  match d with
  | x7b :: d =>
      '(v, d) ← dec_u64 d; '(n, d) ← dec_u64 d; '(l, d) ← dec_u64 d;
      '(fs, d) ← dec_metas (length d) d; '(t, _) ← dec_bytes d;
      Some (mkState (i64 v) n l fs (of_bytes t))
  | _ => None
  end.

Lemma unmarshal_marshal st : state_ok st -> unmarshal (marshal st) = Some st.
Proof.
  intros [Hv Hn Hl Hf _]. cbn [unmarshal marshal]. rewrite dec_enc_u64. cbn [mbind option_bind].
  rewrite dec_enc_u64. cbn [mbind option_bind]. rewrite dec_enc_u64. cbn [mbind option_bind].
  rewrite dec_enc_metas; [|done|rewrite length_app; pose proof (length_enc_metas (files st)); lia].
  cbn [mbind option_bind]. rewrite <- (app_nil_r (enc_bytes _)), dec_enc_bytes. cbn.
  rewrite of_to_bytes, i64_u64, !u64_small by done. by destruct st.
Qed.

Definition codec : Json := {| MarshalIndent := marshal; Unmarshal := unmarshal; now := fun _ => "2024-01-01T00:00:00Z"%string |}.

#[export] Instance codec_ok : JsonOk codec.
Proof.
  split; [intros st; by eexists|apply unmarshal_marshal| |done]. intros w. by repeat constructor.
Qed.

End Codec.

(** * Updates of the manifest *)

Section updates.
Context {J : Json} {JO : JsonOk J}.

(** A manifest that can be changed: a temporary file, which an earlier process
    may have left, has no other name. *)
Record calm_dir (m : Manifest) (w : World) : Prop := {
  cd_calm : calm w;
  cd_names : names_ok w;
  cd_tmp : unshared (path m ++ tmpSuffix)%string w
}.

(** A change of the state followed by [persistLocked]. *)
Lemma update_run g m w :
  calm_dir m w ->
  exists w', let m' := mkManifest (dir m) (path m) (stamped w (g (state m))) in
    (upd_state g;; persistLocked) (m, w) = (Ok tt, (m', w')) /\ calm_dir m' w' /\ renewed (path m) w w' /\ on_disk w' m'.
Proof.
  intros [Hc Hn Ht]. set (m1 := mkManifest (dir m) (path m) (g (state m))).
  destruct (persist_run m1 w Hc Hn Ht) as (w' & Hp & Hc' & Hn' & R & Hd). exists w'. cbv zeta in *.
  rewrite (M_bind_Ok _ _ _ tt (m1, w)) by done. split; [exact Hp|]. split_and!; [|done|done].
  split; [done|done|]. intros t q Hq. pose proof (rn_tmp _ _ _ R) as Hno. cbn [path m1] in *. congruence.
Qed.

Lemma Open_on_disk d m w :
  calm w -> path m = filepath_Join d fileName -> on_disk w m -> state_ok (state m) -> Version (state m) <> 0 ->
  Open d w = (Ok (mkManifest d (path m) (state m)), w).
Proof.
  intros Hc Hp (i & Hn & Hi) Hok Hv. unfold Open. rewrite (M_bind_Ok _ _ _ tt w) by (unfold MkdirAll; by rewrite syscall_calm).
  rewrite <- Hp. cbv zeta.
  rewrite (M_bind_Ok _ _ _ (inl (MarshalIndent (state m))) w) by
    (unfold try_, ReadFile; rewrite syscall_calm, Hn by done; unfold content; by rewrite Hi).
  unfold gets, lift. rewrite (M_bind_Ok _ _ _ (now w) w) by done.
  by rewrite (M_bind_Ok _ _ _ (state m) w) by (by rewrite decode_json).
Qed.

Lemma stamped_ok w st : state_ok st -> state_ok (stamped w st).
Proof. intros [H1 H2 H3 H4 H5]. split; try done. apply now_ascii. Qed.

Lemma bump_ok seq st : 0 <= seq < 2 ^ 64 -> state_ok st -> state_ok (bump seq st).
Proof. intros Hs [H1 H2 H3 H4 H5]. unfold bump. case_match; by split. Qed.

Lemma set_files_ok fs st : Forall meta_ok fs -> state_ok st -> state_ok (set_files fs st).
Proof. intros Hf [H1 H2 H3 H4 H5]. by split. Qed.
End updates.

(** * Theorems *)

Section atomic.
Context {J : Json}.

Lemma sync_dir_same w o w' : sync_dir w = (o, w') -> o = Ok tt /\ same_files w w'.
Proof.
  assert (Hs: forall w r w', try_ (syscall (mret tt)) w = (r, w') ->
    (exists x : unit + error, r = Ok x) /\ same_files w w').
  { clear. intros w r w'. unfold try_. destruct (syscall (mret tt) w) as [o1 w1] eqn:E.
    pose proof (syscall_ret_same _ _ _ _ E) as [Hs _]. apply syscall_cases in E as [(-> & _)|(w2 & _ & _ & [= <- _])];
      intros [= <- <-]; eauto. }
  unfold sync_dir, mbind, M_bind. destruct (try_ _ w) as [r1 w1] eqn:E1. destruct (Hs _ _ _ E1) as [[x1 ->] S1].
  destruct x1 as [[]|e]; [|intros [= <- <-]; by split].
  destruct (try_ _ w1) as [r2 w2] eqn:E2. destruct (Hs _ _ _ E2) as [[x2 ->] S2].
  destruct (try_ _ w2) as [r3 w3] eqn:E3. destruct (Hs _ _ _ E3) as [[x3 ->] S3].
  intros [= <- <-]. split; [done|]. destruct S1, S2, S3. split; congruence.
Qed.

(** A failing [persistLocked] touches the temporary file at most; one that
    succeeds renames it, complete. *)
Lemma persist_cases m w o m' w' (tmp := (path m ++ tmpSuffix)%string) :
  names_ok w -> persistLocked (m, w) = (o, (m', w')) ->
  m' = mkManifest (dir m) (path m) (stamped w (state m)) /\
  ((o = Ok tt /\ exists w1 i, aside tmp w w1 /\ names w1 !! tmp = Some i /\ inodes w1 !! i = Some (MarshalIndent (state m')) /\
      names w' = <[path m := i]> (delete tmp (names w1)) /\ inodes w' = inodes w1) \/
   (o <> Ok tt /\ aside tmp w w')).
Proof.
  intros Hn H. set (m1 := mkManifest (dir m) (path m) (stamped w (state m))).
  unfold persistLocked in H. rewrite (M_bind_Ok _ _ _ (now w) (m, w)), (M_bind_Ok _ _ _ tt (m1, w)) in H by done.
  rewrite (M_bind_Ok _ _ _ (MarshalIndent (state m1)) (m1, w)), (M_bind_Ok _ _ _ (path m) (m1, w)) in H by done.
  cbv zeta in H. fold tmp in H.
  apply bind_inv in H as [([] & s1 & (w1 & -> & H1)%io_inv & H)|(r0 & (w1 & [= -> ->] & H1)%io_inv & Hr & Ho)];
    destruct (WriteFile_aside _ _ _ _ _ Hn H1) as [A1 Hb]; [|by split; [|right; split; [apply Ho|]]]. specialize (Hb eq_refl).
  apply bind_inv in H as [(f & s1 & (w2 & -> & H2)%io_inv & H)|(r0 & (w2 & [= -> ->] & H2)%io_inv & Hr & Ho)];
    apply Open_same in H2 as S2; assert (aside tmp w w2) as A2 by (transitivity w1; [done|by apply same_aside]);
    [|by split; [|right; split; [apply Ho|]]].
  assert (Hclose: forall f w3 x s', aside tmp w w3 -> same_files w1 w3 -> try_ (io (File_Close f)) (m1, w3) = (x, s') ->
    exists w4, s' = (m1, w4) /\ aside tmp w w4 /\ same_files w1 w4).
  { intros f0 w3 x s' A3 [N3 I3] Hy. apply try_inv in Hy as [y0 (w4 & -> & H4)%io_inv]. apply Close_same in H4.
    exists w4. split; [done|]. split; [transitivity w3; [done|by apply same_aside]|]. destruct H4. split; congruence. }
  apply bind_inv in H as [(x & s1 & Hx & H)|(r0 & Hx & Hr & Ho)]; apply try_inv in Hx as [x0 (w3 & Heq & H3)%io_inv];
    apply Sync_same in H3 as [S3 _]; assert (aside tmp w w3) as A3 by (transitivity w2; [done|by apply same_aside]).
  2: { injection Heq as -> ->. split; [done|right]. split; [apply Ho|done]. }
  subst s1. assert (same_files w1 w3) as S13 by (destruct S2, S3; split; congruence).
  destruct x as [[]|e].
  2: { apply bind_inv in H as [(y & s1 & Hy & [= <- ->])|(r1 & Hy & Hr & Ho)]; apply (Hclose _ _ _ _ A3 S13) in Hy as (w4 & [= -> ->] & A4 & _);
         (split; [done|right; split; [|done]]); [done|apply Ho]. }
  apply bind_inv in H as [(y & s1 & Hy & H)|(r1 & Hy & Hr & Ho)]; apply (Hclose _ _ _ _ A3 S13) in Hy as (w4 & Heq4 & A4 & [N4 I4]).
  2: { injection Heq4 as -> ->. split; [done|right]. split; [apply Ho|done]. }
  subst s1. unfold file in Hb. rewrite <- N4 in Hb.
  apply bind_inv in H as [([] & s1 & (w5 & -> & H5)%io_inv & H)|(r1 & (w5 & [= -> ->] & H5)%io_inv & Hr & Ho)];
    apply Rename_cases in H5 as [[Ho5 A5]|(i & H4 & Hn5 & Hi5 & Ho5)]; [done| | |by destruct (Hr tt)].
  - apply io_inv in H as (w6 & [= -> ->] & H6). apply sync_dir_same in H6 as [-> [Hn6 Hi6]]. split; [done|left].
    split; [done|]. exists w4, i. rewrite H4 in Hb. split_and!; [done|done|by rewrite I4|by rewrite Hn6, Hn5|by rewrite Hi6, Hi5].
  - split; [done|right]. split; [apply Ho|]. transitivity w4; [done|by apply same_aside].
Qed.

(** A file that is not the temporary one stays. *)
Lemma aside_file tmp w w' p : p <> tmp -> (forall i, names w !! p = Some i -> names w !! tmp <> Some i) -> aside tmp w w' -> file w' p = file w p.
Proof.
  intros Hp Ha [_ A1 A2]. unfold file. rewrite A1 by done. destruct (names w !! p) as [i|] eqn:Ei; [|done]. cbn.
  by apply (A2 p i Hp Ei), Ha.
Qed.

(** C12: replacing the manifest is atomic.  Whatever calls fail, and wherever a
    write is cut short, [persistLocked] leaves in MANIFEST either exactly the
    bytes that were there before, with an error, or the complete new state. *)
Theorem persist_atomic m w o m' w' (Hn : names_ok w)
  (Ha : forall i, names w !! path m = Some i -> names w !! (path m ++ tmpSuffix)%string <> Some i)
  (H : persistLocked (m, w) = (o, (m', w'))) :
  m' = mkManifest (dir m) (path m) (stamped w (state m)) /\
  ((o = Ok tt /\ file w' (path m) = Some (MarshalIndent (state m'))) \/
   (o <> Ok tt /\ file w' (path m) = file w (path m))).
Proof.
  assert (path m <> (path m ++ tmpSuffix)%string) as Hne by (intros Heq; by apply (tmp_path (path m))).
  destruct (persist_cases m w o m' w' Hn H) as [-> [(-> & w1 & i & _ & _ & Hi & Hnm & Hin)|[Ho A]]]; (split; [done|]); [left|right].
  - split; [done|]. unfold file. by rewrite Hnm, lookup_insert_eq, Hin.
  - split; [done|]. by eapply aside_file.
Qed.
End atomic.

(** C30: The decoder of the binary format is safe and well typed on every input: it
    never slices out of range, and returns [ErrCorrupt] or a state whose numbers
    have the widths of their fields, whose names and keys have at most 65535
    bytes, and which encoding and decoding give back as it is. *)
Theorem decodeBinary_safe data t :
  decodeBinary data t = Err ErrCorrupt \/
  exists st, decodeBinary data t = Ok st /\ typed_state st /\ decodeBinary (EncodeBinary st) t = Ok st.
Proof.
  destruct (decodeBinary_total data t) as [->|(st & -> & Ht & Hu)]; [by left|right]. exists st. split; [done|]. split; [done|].
  destruct Ht as [Hv Hn Hq Hf Hc]. rewrite decodeBinary_EncodeBinary; [|by eapply Forall_impl; [exact Hf|apply tm_encodable]|done..].
  rewrite u32_small by done. rewrite <- Hu. replace (decoded <$> files st) with (files st); [by destruct st|].
  rewrite <- (list_fmap_id (files st)) at 1. apply list_fmap_ext. intros j f Hj. rewrite Forall_lookup in Hf. destruct (Hf j f Hj) as [_ Hl Hmin Hmax].
  destruct f as [? ? [|] [|] ? ? ?]; cbn in *; try done. unfold decoded. cbn. by rewrite u32_small.
Qed.

(** the binary format keeps a state whose names and keys are shorter than
    64 KiB: decoding gives back the numbers, the names and the keys; levels
    come back as unsigned 32-bit numbers and missing keys as empty ones. *)
Theorem EncodeBinary_roundtrip st t
  (Hf : Forall encodable (files st)) (Hn : len (files st) < 2 ^ 32)
  (Hnf : 0 <= NextFile st < 2 ^ 64) (Hls : 0 <= LogSeq_ st < 2 ^ 64) :
  decodeBinary (EncodeBinary st) t =
    Ok (mkState (u32 (Version st)) (NextFile st) (LogSeq_ st) (decoded <$> files st) t).
Proof. by apply decodeBinary_EncodeBinary. Qed.

Section durable.
Context {J : Json} {JO : JsonOk J}.

(** A manifest in a directory without failures ahead. *)
Record sound (m : Manifest) (w : World) : Prop := {
  sn_dir : calm_dir m w;
  sn_path : path m = filepath_Join (dir m) fileName;
  sn_state : state_ok (state m)
}.

(** The names of the tables come from the counter. *)
Definition named_below (k : Z) (fs : list FileMeta) : Prop :=
  Forall (fun f => exists j, Name f = table_name j /\ 0 <= j < k) fs.

Definition numbered (st : State) : Prop := named_below (NextFile st) (files st).

Lemma named_below_in k fs f : named_below k fs -> f ∈ fs -> exists j, Name f = table_name j /\ 0 <= j < k.
Proof. unfold named_below. rewrite Forall_forall. auto. Qed.

Lemma named_below_mono k k' fs : named_below k fs -> k <= k' -> named_below k' fs.
Proof. intros Hn Hk. eapply Forall_impl; [exact Hn|]. cbn. intros f (j & Hj & Hlt). exists j. split; [done|lia]. Qed.

Lemma named_below_app k fs f : named_below k fs -> Name f = table_name k -> 0 <= k -> named_below (k + 1) (fs ++ [f]).
Proof.
  intros Hn Hf Hk. apply Forall_app. split; [apply (named_below_mono k); [done|lia]|].
  apply Forall_singleton. exists k. split; [done|lia].
Qed.

(** The next name is new. *)
Lemma named_below_fresh k fs : named_below k fs -> 0 <= k < 2 ^ 64 -> table_name k ∉ Name <$> fs.
Proof.
  intros Hn Hk (f & Hname & Hf)%list_elem_of_fmap. destruct (named_below_in _ _ _ Hn Hf) as (j & Hj & Hlt).
  rewrite Hj in Hname. apply table_name_inj in Hname; lia.
Qed.

Lemma named_below_NoDup k fs f :
  named_below k fs -> Name f = table_name k -> 0 <= k < 2 ^ 64 -> NoDup (Name <$> fs) -> NoDup (Name <$> (fs ++ [f])).
Proof.
  intros Hn Hf Hk Hnd. rewrite fmap_app. apply NoDup_app. split_and!; [done| |apply NoDup_singleton].
  intros x Hx ->%list_elem_of_singleton. rewrite Hf in Hx. by apply (named_below_fresh _ _ Hn Hk).
Qed.

(** What follows from an update [g] of the state. *)
Lemma update_reopen g m w :
  sound m w -> state_ok (g (state m)) ->
  exists m' w', (upd_state g;; persistLocked) (m, w) = (Ok tt, (m', w')) /\
    state m' = stamped w (g (state m)) /\ dir m' = dir m /\ path m' = path m /\ sound m' w' /\ on_disk w' m' /\
    Open (dir m) w' = (Ok m', w') /\ renewed (path m) w w'.
Proof.
  intros [Hcd Hp Hok] Hg. destruct (update_run g m w Hcd) as (w' & Hrun & Hcd' & R & Hd). cbv zeta in *.
  eexists _, w'. split; [exact Hrun|]. assert (state_ok (stamped w (g (state m)))) by (by apply stamped_ok).
  split_and!; try done.
  set (m' := mkManifest _ _ _) in *. by rewrite (Open_on_disk (dir m) m' w' (cd_calm _ _ Hcd') Hp Hd).
Qed.

Lemma AllocFileName_run m w :
  sound m w ->
  let g st := set_NextFile (u64 (NextFile st + 1)) st in
  exists m' w', AllocFileName (m, w) = (Ok (table_name (NextFile (state m))), (m', w')) /\
    state m' = stamped w (g (state m)) /\ dir m' = dir m /\ path m' = path m /\ sound m' w' /\ on_disk w' m' /\
    Open (dir m) w' = (Ok m', w') /\ renewed (path m) w w'.
Proof.
  intros Hs g. pose proof (sn_state _ _ Hs) as Hok.
  destruct (update_reopen g m w Hs) as (m' & w' & H1 & H2 & H3).
  { destruct Hok as [? ? ? ? ?]. split; try done. apply u64_range. }
  exists m', w'. split; [|done]. subst g. unfold AllocFileName, get_state, gets.
  rewrite (M_bind_Ok _ _ _ (table_name (NextFile (state m))) (m, w)) by done.
  unfold mbind, M_bind in H1 |- *. cbn [upd_state modify fst snd] in H1 |- *. by rewrite H1.
Qed.

Lemma Files_files m : Files m = files (state m).
Proof.
  unfold Files, Current, cloneState. cbn. rewrite <- (list_fmap_id (files (state m))) at 2.
  apply list_fmap_ext. intros j f _. rewrite !Clone_id. by destruct f.
Qed.

(** C20: every change of the manifest is durable: after [AddFile], [Replace] or
    [SetLogSeq] succeeds, opening the directory again gives the very manifest
    that is in memory, with the files added or replaced and the sequence
    watermark raised, never lowered. *)
Theorem updates_reopen m w fm remove add seq (Hs : sound m w)
  (Hf : Forall meta_ok (fm :: add)) (Hseq : 0 <= seq < 2 ^ 64) :
  (exists m' w', AddFile fm seq (m, w) = (Ok tt, (m', w')) /\ Open (dir m) w' = (Ok m', w') /\
    Files m' = Files m ++ [fm] /\ LogSeq m' = Z.max (LogSeq m) seq) /\
  (exists m' w', Replace remove add seq (m, w) = (Ok tt, (m', w')) /\ Open (dir m) w' = (Ok m', w') /\
    Files m' = filter (fun f => Name f ∉ remove) (Files m) ++ add /\ LogSeq m' = Z.max (LogSeq m) seq) /\
  (exists m' w', SetLogSeq seq (m, w) = (Ok tt, (m', w')) /\ Open (dir m) w' = (Ok m', w') /\
    Files m' = Files m /\ LogSeq m' = Z.max (LogSeq m) seq).
Proof.
  apply Forall_cons in Hf as [Hfm Hadd]. pose proof (sn_state _ _ Hs) as Hok.
  pose proof Files_files as Hfiles.
  assert (Hbump: forall st, LogSeq_ (bump seq st) = Z.max (LogSeq_ st) seq /\ files (bump seq st) = files st).
  { intros st. unfold bump. destruct (Z.ltb_spec (LogSeq_ st) seq); cbn; split; (done || lia). }
  rewrite !Hfiles. unfold LogSeq.
  split_and!.
  - destruct (update_reopen (fun st => bump seq (set_files (files st ++ [fm]) st)) m w Hs) as (m' & w' & H1 & H2 & _ & _ & _ & _ & H3 & _).
    { apply bump_ok, set_files_ok; [done| |done]. apply Forall_app. split; [apply so_files, Hok|by constructor]. }
    exists m', w'. rewrite Hfiles, H2. cbn. destruct (Hbump (set_files (files (state m) ++ [fm]) (state m))) as [-> ->]. done.
  - destruct (update_reopen (fun st => bump seq (set_files (filter (fun f => Name f ∉ remove) (files st) ++ add) st)) m w Hs)
      as (m' & w' & H1 & H2 & _ & _ & _ & _ & H3 & _).
    { apply bump_ok, set_files_ok; [done| |done]. apply Forall_app. split; [rewrite Forall_forall; intros f [_ Hin]%list_elem_of_filter; pose proof (so_files _ Hok) as Hall; rewrite Forall_forall in Hall; by apply Hall|done]. }
    exists m', w'. rewrite Hfiles, H2. cbn. match goal with |- context [bump seq ?s] => destruct (Hbump s) as [-> ->] end. done.
  - destruct (update_reopen (bump seq) m w Hs) as (m' & w' & H1 & H2 & _ & _ & _ & _ & H3 & _); [by apply bump_ok|].
    exists m', w'. rewrite Hfiles, H2. cbn. destruct (Hbump (state m)) as [-> ->]. done.
Qed.

(** C23: [AllocFileName] hands out fresh names: the name is not that of any
    table of the manifest, the counter has moved past it, on disk too, so that
    it is not handed out again, and the invariant that the tables' names come
    from the counter holds for the tables and the new name. *)
Theorem AllocFileName_fresh m w (Hs : sound m w) (Hnum : numbered (state m)) (Hmax : NextFile (state m) < 2 ^ 64 - 1) :
  exists m' w' name, AllocFileName (m, w) = (Ok name, (m', w')) /\ Open (dir m) w' = (Ok m', w') /\
    ~ (name ∈ Name <$> files (state m)) /\ files (state m') = files (state m) /\ numbered (state m') /\
    exists k, name = table_name k /\ 0 <= k < NextFile (state m').
Proof.
  pose proof (sn_state _ _ Hs) as Hok. pose proof (so_next _ Hok) as Hnx.
  destruct (AllocFileName_run m w Hs) as (m' & w' & H1 & H2 & _ & _ & _ & _ & H3 & _).
  exists m', w', (table_name (NextFile (state m))). split_and!.
  - done.
  - done.
  - apply (named_below_fresh _ _ Hnum). lia.
  - by rewrite H2.
  - rewrite H2. unfold numbered. cbn. rewrite u64_small by lia. apply (named_below_mono _ _ _ Hnum). lia.
  - rewrite H2. cbn. rewrite u64_small by lia. exists (NextFile (state m)). split; [done|lia].
Qed.


End durable.

(** ** Witnesses *)

Definition demo_meta : FileMeta := mkFileMeta "000001.sst" 0 (Some [x61]) (Some [x7a]) 9 3 250.
Definition demo_state : State := mkState 1 2 9 [demo_meta] "now".
Definition demo_manifest : Manifest := mkManifest "d" "d/MANIFEST" demo_state.
#[local] Existing Instances Codec.codec Codec.codec_ok.

Lemma demo_meta_ok : meta_ok demo_meta.
Proof. by split; [repeat constructor|..]. Qed.

Lemma demo_sound : sound demo_manifest empty_world.
Proof.
  split; [by split; [|apply map_Forall_empty|]|done|].
  split; try done; [constructor; [apply demo_meta_ok|constructor]|by repeat constructor].
Qed.

Lemma EncodeBinary_roundtrip_witness :
  decodeBinary (EncodeBinary demo_state) "then" = Ok (mkState 1 2 9 [demo_meta] "then").
Proof.
  apply (EncodeBinary_roundtrip demo_state "then"); [|done..]. constructor; [by split|constructor].
Defined.

(** The second call, the write, fails after three bytes. *)
Lemma persist_atomic_witness :
  let w := set_faults [None; Some 3%nat] empty_world in
  let s := persistLocked (demo_manifest, w) in
  fst (snd s) = mkManifest "d" "d/MANIFEST" (stamped w demo_state) /\
  ((fst s = Ok tt /\ file (snd (snd s)) "d/MANIFEST" = Some (MarshalIndent (state (fst (snd s))))) \/
   (fst s <> Ok tt /\ file (snd (snd s)) "d/MANIFEST" = file w "d/MANIFEST")).
Proof.
  intros w s. apply (persist_atomic demo_manifest w (fst s) (fst (snd s)) (snd (snd s)));
    [by apply map_Forall_empty|done|]. unfold s. by destruct (persistLocked _) as [? []].
Defined.

Lemma updates_reopen_witness :
  let m := demo_manifest in
  let fm := mkFileMeta "000002.sst" 1 None (Some [x62]) 12 4 300 in
  let remove := ["000001.sst"%string] in
  (exists m' w', AddFile fm 12 (m, empty_world) = (Ok tt, (m', w')) /\ Open (dir m) w' = (Ok m', w') /\
    Files m' = Files m ++ [fm] /\ LogSeq m' = Z.max (LogSeq m) 12) /\
  (exists m' w', Replace remove [] 12 (m, empty_world) = (Ok tt, (m', w')) /\ Open (dir m) w' = (Ok m', w') /\
    Files m' = filter (fun f => Name f ∉ remove) (Files m) ++ [] /\ LogSeq m' = Z.max (LogSeq m) 12) /\
  (exists m' w', SetLogSeq 12 (m, empty_world) = (Ok tt, (m', w')) /\ Open (dir m) w' = (Ok m', w') /\
    Files m' = Files m /\ LogSeq m' = Z.max (LogSeq m) 12).
Proof.
  intros m fm remove. apply (updates_reopen m empty_world fm remove [] 12); [apply demo_sound| |done].
  constructor; [by split; [repeat constructor|..]|constructor].
Defined.

Lemma AllocFileName_fresh_witness :
  let m := demo_manifest in
  exists m' w' name, AllocFileName (m, empty_world) = (Ok name, (m', w')) /\ Open (dir m) w' = (Ok m', w') /\
    ~ (name ∈ Name <$> files (state m)) /\ files (state m') = files (state m) /\ numbered (state m') /\
    exists k, name = table_name k /\ 0 <= k < NextFile (state m').
Proof.
  intros m. apply (AllocFileName_fresh m empty_world); [apply demo_sound| |done].
  constructor; [by exists 1|constructor].
Defined.



Example table_names : table_name <$> [1; 42; 999999; 1000000; 2 ^ 64 - 1] =
  ["000001.sst"; "000042.sst"; "999999.sst"; "1000000.sst"; "18446744073709551615.sst"]%string.
Proof. by vm_compute. Qed.
