(* ===== verification/Faults.v ===== *)
(** * Faults: logs, tables and manifests when calls fail

    For every schedule of failures: [AddFile] and the other updates of the
    manifest, [SSTable.WriteFile] and the appends of the log either succeed, and
    then have done what they do without failures ([follows]), or leave all files
    but their own as they were ([within], [aside]).  A failed append leaves a prefix of
    its frame, and a failed reset the log as it was or an empty one. *)

From Stdlib Require Import ZArith Lia Strings.Byte.
From stdpp Require Import base decidable list gmap strings numbers.
From S2P Require Import Prelude Varint Bloom ByteUtil Os OsFacts OsFaults Wal SSTable SSTableFacts SSTableWriter Manifest ManifestFacts ManifestProps.
#[local] Open Scope Z_scope.

(** ** The manifest *)

Section manifest.
Context {J : Json} {JO : JsonOk J}.

Lemma idle_call w : exists x fs, try_ (syscall (mret tt)) w = (Ok x, set_faults fs w).
Proof.
  unfold try_, syscall, mbind, M_bind, next_fault. destruct (faults w) as [|[k|] fs] eqn:Hf.
  - exists (inl tt), []. change (set_faults [] w) with (calmed w). by rewrite calmed_calm.
  - by exists (inr io_error), fs.
  - by exists (inl tt), fs.
Qed.
Lemma sync_dir_run w : exists fs, sync_dir w = (Ok tt, set_faults fs w).
Proof.
  unfold sync_dir. destruct (idle_call w) as ([[]|e] & fs & H); rewrite (M_bind_Ok _ _ _ _ _ H); [|by exists fs].
  destruct (idle_call (set_faults fs w)) as (x1 & fs1 & H1). rewrite (M_bind_Ok _ _ _ _ _ H1).
  destruct (idle_call (set_faults fs1 (set_faults fs w))) as (x2 & fs2 & H2). rewrite (M_bind_Ok _ _ _ _ _ H2). by exists fs2.
Qed.
Lemma follows_sync_dir : follows calmed sync_dir.
Proof.
  intros w a w'. destruct (sync_dir_run w) as [fs ->]. intros [= <- <-]. by rewrite sync_dir_calm.
Qed.
Hint Resolve follows_sync_dir : follows.

Lemma follows_upd_state g : follows calmed2 (upd_state g).
Proof. by apply follows_modify. Qed.
Lemma follows_get_state {A} (g : State -> A) : follows calmed2 (get_state g).
Proof. by apply follows_gets. Qed.
Hint Resolve follows_upd_state follows_get_state : follows.

Lemma follows_persist : follows calmed2 persistLocked.
Proof.
  unfold persistLocked. apply follows_bind; [apply follows_gets; intros s; apply now_blind|]. follows_tac.
Qed.
Hint Resolve follows_persist : follows.

Lemma follows_AllocFileName : follows calmed2 AllocFileName.
Proof. unfold AllocFileName. follows_tac. Qed.
Lemma follows_AddFile fm seq : follows calmed2 (AddFile fm seq).
Proof. unfold AddFile. follows_tac. Qed.

(** A failing update touches at most the temporary file. *)
Lemma AllocFileName_aside m w r m' w' : names_ok w -> AllocFileName (m, w) = (r, (m', w')) -> (forall a, r <> Ok a) ->
  aside (path m ++ tmpSuffix)%string w w'.
Proof.
  intros H0 H Hr. unfold AllocFileName in H.
  rewrite (M_bind_Ok _ _ _ (table_name (NextFile (state m))) (m, w)) in H by done.
  set (m1 := mkManifest (dir m) (path m) (set_NextFile (u64 (NextFile (state m) + 1)) (state m))).
  rewrite (M_bind_Ok _ _ _ tt (m1, w)) in H by done.
  apply bind_inv in H as [([] & s1 & H1 & [= <- ->])|(r0 & H1 & Hr0 & _)]; [by destruct (Hr (table_name (NextFile (state m))))|].
  by destruct (persist_cases m1 w _ _ _ H0 H1) as [_ [[-> _]|[_ A]]]; [destruct (Hr0 tt)|].
Qed.

Lemma AddFile_aside fm seq m w r m' w' : names_ok w -> AddFile fm seq (m, w) = (r, (m', w')) -> r <> Ok tt ->
  aside (path m ++ tmpSuffix)%string w w'.
Proof.
  intros H0 H Hr. unfold AddFile in H.
  set (m1 := mkManifest (dir m) (path m) (set_files (files (state m) ++ [fm]) (state m))).
  set (m2 := mkManifest (dir m) (path m) (bump seq (state m1))).
  rewrite (M_bind_Ok _ _ _ tt (m1, w)), (M_bind_Ok _ _ _ tt (m2, w)) in H by done.
  by destruct (persist_cases m2 w _ _ _ H0 H) as [_ [[-> _]|[_ A]]].
Qed.
End manifest.

(** ** Tables *)

Section table.
Context {F : Type} `{Float64 F}.

Lemma follows_get_w {A} (g : Writer F -> A) : follows calmed2 (get_w g).
Proof. by apply follows_gets. Qed.
Lemma follows_upd_w (g : Writer F -> Writer F) : follows calmed2 (upd_w g).
Proof. by apply follows_modify. Qed.
Hint Resolve follows_get_w follows_upd_w : follows.

Lemma follows_flushBlock : follows calmed2 (flushBlock (F := F)).
Proof. unfold flushBlock. follows_tac. Qed.
Hint Resolve follows_flushBlock : follows.
Lemma follows_Add e : follows calmed2 (Add (F := F) e).
Proof. unfold Add. follows_tac. Qed.
Hint Resolve follows_Add : follows.
Lemma follows_Finish : follows calmed2 (Finish (F := F)).
Proof. unfold Finish. follows_tac. Qed.
Hint Resolve follows_Finish : follows.
Lemma follows_add_all es : follows calmed2 (add_all (F := F) es).
Proof.
  induction es as [|e es IH]; [apply follows_ret|]. cbn [add_all].
  apply follows_try; [apply follows_Add|done|]. intros err. apply fails_bind. intros ?. apply fails_throw.
Qed.
Hint Resolve follows_add_all : follows.
Lemma follows_Create p o : follows calmed (Create (F := F) p o).
Proof. unfold Create. follows_tac. Qed.
Hint Resolve follows_Create : follows.
Lemma follows_table p es o : follows calmed (SSTable.WriteFile (F := F) p es o).
Proof.
  unfold SSTable.WriteFile. apply follows_bind; [apply follows_Create|]. intros wr.
  apply follows_bind; [apply follows_scoped; follows_tac|follows_tac].
Qed.

(** The writer's methods work on its own file. *)
Section own.
Context (p : string) (w0 : World) (fl : nat).

Definition writes_own (s : Writer F * World) : Prop := wf (fst s) = fl /\ wpath (fst s) = p /\ owner [p] w0 fl (snd s).

Lemma own_io {A} (m : M World A) : steps (keeping (owner [p] w0 fl)) m -> steps (keeping writes_own) (SSTable.io m).
Proof.
  intros Hm [wr w] (H1 & H2 & H3). specialize (Hm w H3). unfold SSTable.io, zoom. cbn in *. by destruct (m w).
Qed.
Lemma own_upd g : (forall wr, wf (g wr) = wf wr /\ wpath (g wr) = wpath wr) -> steps (keeping writes_own) (upd_w g).
Proof. intros Hg [wr w] (H1 & H2 & H3). destruct (Hg wr) as [G1 G2]. unfold upd_w, modify, writes_own; cbn in *; split_and!; [congruence|congruence|done]. Qed.
Lemma own_get {B} (k : Writer F -> M (Writer F * World) B) :
  (forall wr, wf wr = fl -> wpath wr = p -> steps (keeping writes_own) (k wr)) -> steps (keeping writes_own) (get_w id ≫= k).
Proof. intros Hk [wr w] Hs. pose proof Hs as (H1 & H2 & _). by apply (Hk wr H1 H2 (wr, w)). Qed.

Ltac own_tac := repeat first [ solve [eauto with steps]
  | match goal with
    | |- steps _ (get_w id ≫= _) => apply own_get; let H1 := fresh in let H2 := fresh in intros ? H1 H2; rewrite ?H1, ?H2
    | |- steps _ (SSTable.io _) => apply own_io
    | |- steps _ (upd_w _) => apply own_upd; intros ?; by split
    | |- steps _ (Remove _) => apply owner_Remove; by left
    | |- steps ?R (mret _) => apply (steps_ret R)
    | |- steps ?R (throw _) => apply (steps_throw R)
    | |- steps ?R (lift _) => apply (steps_lift R)
    | |- steps ?R (try_ _) => apply (steps_try R)
    | |- steps _ (_ ≫= _) => steps_bind_tac
    end | progress cbv zeta | case_match ].

Lemma own_flushBlock : steps (keeping writes_own) flushBlock.
Proof. unfold flushBlock. own_tac. Qed.
Hint Resolve own_flushBlock : steps.
Lemma own_Add e : steps (keeping writes_own) (Add e).
Proof. unfold Add. own_tac. Qed.
Hint Resolve own_Add : steps.
Lemma own_Finish : steps (keeping writes_own) Finish.
Proof. unfold Finish. own_tac. Qed.
Lemma own_Abort : steps (keeping writes_own) Abort_.
Proof. unfold Abort_. own_tac. Qed.
Hint Resolve own_Finish own_Abort : steps.
Lemma own_add_all es : steps (keeping writes_own) (add_all es).
Proof. induction es as [|e es IH]; cbn [add_all]; own_tac. Qed.
End own.

(** Creating a table that is new since [w0]. *)
Lemma Create_within p w0 o w r w' : names w0 !! p = None -> within [p] w0 w -> Create (F := F) p o w = (r, w') ->
  within [p] w0 w' /\ forall wr, r = Ok wr -> writes_own p w0 (wf wr) (wr, w').
Proof.
  intros H0 W Hc. assert (p ∈ [p]) as Hp by by left. unfold Create in Hc. cbv zeta in Hc.
  assert (Hs: forall w2 u, MkdirAll p w = (u, w2) -> within [p] w0 w2).
  { intros w2 u Hm. apply syscall_ret_same in Hm as [[Hn Hi] Hfd]. etrans; [exact W|].
    split; [by rewrite Hn|rewrite Hn; auto|split; [by rewrite Hi|by rewrite Hfd]]. }
  apply bind_inv in Hc as [(u & w2 & Hm & Hc)|(r0 & Hm & _ & Hn)]; apply Hs in Hm; [|split; [done|]; intros wr ->; by destruct (Hn wr)].
  apply bind_inv in Hc as [(fl & w3 & Ho & Hc)|(r0 & Ho & _ & Hn)]; destruct (open_owner _ _ _ _ _ _ _ Hm Hp H0 Ho) as [W3 Hf];
    [|split; [done|]; intros wr ->; by destruct (Hn wr)].
  specialize (Hf fl eq_refl).
  apply bind_inv in Hc as [(v & w4 & [= _ <-] & [= <- <-])|(r1 & [= _ <-] & _ & Hn)]; (split; [done|]); intros wr Hr.
  - by injection Hr as <-.
  - subst r. by destruct (Hn wr).
Qed.

(** A program of the writer's methods, on a new table. *)
Lemma scoped_within {A} p w0 (m : M (Writer F * World) A) wr w r w' : writes_own p w0 (wf wr) (wr, w) ->
  steps (keeping (writes_own p w0 (wf wr))) m -> scoped m wr w = (r, w') -> within [p] w0 w'.
Proof.
  intros Hwo Hst Hs. specialize (Hst _ Hwo). unfold scoped in Hs. destruct (m (wr, w)) as [[a|e|q|] [wr' w5]];
    injection Hs as _ <-; apply Hst.
Qed.

(** Writing a table touches no other file, whatever becomes of it. *)
Lemma table_within p es o w r w' : names w !! p = None ->
  SSTable.WriteFile (F := F) p es o w = (r, w') -> within [p] w w'.
Proof.
  intros H0 H1. unfold SSTable.WriteFile in H1.
  apply bind_inv in H1 as [(wr & w1 & Hc & H1)|(r0 & Hc & _)]; apply (Create_within p w o w) in Hc as [W1 Hwo]; [|done..].
  specialize (Hwo wr eq_refl). assert (steps (keeping (writes_own p w (wf wr))) (add_all es;; Finish)) as Hst.
  { steps_bind_tac; [apply own_add_all|apply own_Finish]. }
  apply bind_inv in H1 as [([me wr'] & w4 & H1 & [= <- <-])|(r1 & H1 & _)]; by apply (scoped_within _ _ _ _ _ _ _ Hwo Hst H1).
Qed.
End table.

(** Opening a table only adds descriptors. *)
Definition reading (w0 : World) (f : nat) (w : World) : Prop := within [] w0 w /\ (length (fds w0) <= f)%nat.

Lemma within_fds ps w ds : within ps w (set_fds (fds w ++ ds) w).
Proof. split; [done|auto|]. split; [done|]. intros g d Hg. cbn. by apply lookup_app_l_Some. Qed.

Section reading.
Context (w0 : World) (f : nat).

Lemma reading_same w w' : same_files w w' -> fds w' = fds w -> reading w0 f w -> reading w0 f w'.
Proof.
  intros [Hn Hi] Hf [W Hle]. split; [|done]. etrans; [exact W|]. split; [by rewrite Hn|rewrite Hn; auto|].
  split; [by rewrite Hi|by rewrite Hf].
Qed.
Lemma reading_syscall {A} (m : M World A) : steps (keeping (reading w0 f)) m -> steps (keeping (reading w0 f)) (syscall m).
Proof.
  intros Hm w Hw. destruct (syscall m w) as [r w'] eqn:E. cbn [snd].
  apply syscall_cases in E as [(_ & Hs & Hf)|(w1 & Hs & Hf & H)]; [by eapply reading_same|].
  specialize (Hm w1). rewrite H in Hm. apply Hm. by eapply reading_same.
Qed.
Lemma reading_open_fd g : steps (keeping (reading w0 f)) (open_fd g).
Proof. intros w Hw. unfold open_fd. destruct (fds w !! g) as [d|]; [by destruct (is_open d)|done]. Qed.
Hint Resolve reading_syscall reading_open_fd : steps.
Lemma reading_ReadAt g n off : steps (keeping (reading w0 f)) (File_ReadAt g n off).
Proof. unfold File_ReadAt. steps_bind_tac; [auto with steps|]. apply reading_syscall. cbv zeta. steps_tac. Qed.
Lemma reading_Size g : steps (keeping (reading w0 f)) (File_Size g).
Proof. unfold File_Size. steps_bind_tac; [auto with steps|]. apply reading_syscall. steps_tac. Qed.
Lemma reading_Close : steps (keeping (reading w0 f)) (File_Close f).
Proof.
  unfold File_Close. steps_bind_tac; [auto with steps|]. steps_bind_tac; [|apply reading_syscall; steps_tac].
  apply steps_modify. intros w [[N M [G1 G2]] Hle]. split; [|done]. split; [done|done|split; [done|]].
  intros g d Hg. cbn. rewrite list_lookup_insert_ne; [by apply G2|]. apply lookup_lt_Some in Hg. lia.
Qed.
Hint Resolve reading_ReadAt reading_Size reading_Close : steps.
Lemma reading_fail {A} e : steps (keeping (reading w0 f)) (fail_closing (A := A) f e).
Proof. unfold fail_closing. steps_tac. Qed.
Hint Resolve reading_fail : steps.
Lemma reading_or_close {A} (m : M World A) : steps (keeping (reading w0 f)) m -> steps (keeping (reading w0 f)) (or_close f m).
Proof. intros Hm. unfold or_close. steps_tac. Qed.
End reading.
#[export] Hint Resolve reading_ReadAt reading_Size reading_Close reading_fail reading_or_close : steps.

Lemma Open_within p w r w' : Os.Open p w = (r, w') -> within [] w w' /\ forall f, r = Ok f -> (length (fds w) <= f)%nat.
Proof.
  unfold Os.Open, OpenFile. intros H. apply syscall_cases in H as [(-> & [Hn Hi] & Hf)|(w1 & [Hn Hi] & Hf & H)].
  - split; [|done]. split; [by rewrite Hn|rewrite Hn; auto|split; [by rewrite Hi|by rewrite Hf]].
  - assert (within [] w w1) as W1 by (split; [by rewrite Hn|rewrite Hn; auto|split; [by rewrite Hi|by rewrite Hf]]).
    cbn in H. destruct (names w1 !! p) as [i|]; injection H as <- <-; [|by split].
    split; [etrans; [exact W1|apply within_fds]|]. intros f [= <-]. by rewrite Hf.
Qed.

Lemma SSTable_Open_within p w r w' : SSTable.Open p w = (r, w') -> within [] w w'.
Proof.
  unfold SSTable.Open. intros [(f & w1 & Ho & H)|(r0 & Ho & _)]%bind_inv; apply Open_within in Ho as [W1 Hf]; [|done].
  specialize (Hf f eq_refl).
  match type of H with ?m w1 = _ => assert (steps (keeping (reading w f)) m) as Hs end.
  { steps_tac. }
  specialize (Hs w1 (conj W1 Hf)). rewrite H in Hs. apply Hs.
Qed.

(** A table that could be opened. *)
Lemma fails_closing {A} f e : fails (fail_closing (A := A) f e).
Proof. apply fails_bind. intros ?. apply fails_throw. Qed.
Lemma fails_follows {S} (cl : S -> S) {A} (m : M S A) : fails m -> follows cl m.
Proof. intros Hm s a s' Hr. by destruct (Hm s a s'). Qed.
Lemma follows_closing {A} f e : follows calmed (fail_closing (A := A) f e).
Proof. apply fails_follows, fails_closing. Qed.
Lemma follows_or_close {A} f (m : M World A) : follows calmed m -> follows calmed (or_close f m).
Proof. intros Hm. apply follows_try; [done|auto with follows|]. intros e. apply fails_closing. Qed.
#[export] Hint Resolve follows_closing follows_or_close : follows.
Lemma follows_table_Open p : follows calmed (SSTable.Open p).
Proof. unfold SSTable.Open. follows_tac. Qed.

(** ** The log *)

Lemma File_Write_any w f i c b r w' : has_file w f i (len c) c -> File_Write f b w = (r, w') ->
  exists k, touches f i w w' /\ has_file w' f i (len (c ++ take k b)) (c ++ take k b) /\
    ((r = Ok (len b) /\ take k b = b) \/ r = Err io_error).
Proof.
  intros Hf H. unfold File_Write in H. rewrite (M_bind_Ok _ _ _ _ _ (open_fd_file _ _ _ _ _ Hf)) in H.
  destruct (next_fault w) as [o w1] eqn:Hnf.
  assert (exists fault, o = Ok fault /\ same_files w w1 /\ fds w1 = fds w) as (fault & -> & [Hn Hi] & Hfd).
  { pose proof (next_fault_same _ _ _ Hnf) as [? ?]. unfold next_fault in Hnf. destruct (faults w); injection Hnf as <- _; eauto. }
  rewrite (M_bind_Ok _ _ _ _ _ Hnf) in H. unfold gets in H. rewrite (M_bind_Ok _ _ _ (content i w1) w1) in H by done.
  assert (has_file w1 f i (len c) c) as Hf1 by (destruct Hf; split; congruence).
  rewrite (content_file _ _ _ _ _ Hf1) in H. cbn [Os.pos Os.ino] in H. rewrite Nat2Z.id, write_at_end in H.
  set (k := match fault with None => length b | Some k => k end).
  assert ((match fault with None => b | Some k => take k b end) = take k b) as Hb by (unfold k; destruct fault; [done|by rewrite take_ge]).
  rewrite Hb in H. exists k.
  set (w2 := put_file f i (len c + len (take k b)) (c ++ take k b) w1).
  assert (w' = w2 /\ ((r = Ok (len b) /\ take k b = b) \/ r = Err io_error)) as [-> Hr].
  { destruct fault as [q|]; injection H as <- <-; (split; [reflexivity|]); [by right|]. left. by split. }
  replace (len (c ++ take k b)) with (len c + len (take k b)) by (rewrite length_app; lia).
  split_and!; [| |done].
  - destruct (put_file_touches f i (len c + len (take k b)) (c ++ take k b) w1) as (T1 & T2 & T3 & T4 & T5).
    unfold touches. rewrite <- Hn, <- Hi, <- Hfd. by split_and!.
  - by eapply put_file_has.
Qed.

Lemma same_touches f i w w' : same_files w w' -> fds w' = fds w -> touches f i w w'.
Proof. intros [Hn Hi] Hf. unfold touches. by rewrite Hn, Hi, Hf. Qed.

Lemma writeFrame_any typ payload l w i c r l' w' :
  has_file w (Wal.f l) i (len c) c -> Wal.writeFrame typ payload (l, w) = (r, (l', w')) ->
  Wal.f l' = Wal.f l /\
  exists k, touches (Wal.f l) i w w' /\ inodes w' !! i = Some (c ++ take k (Wal.frame typ payload)).
Proof.
  intros Hf H. unfold Wal.writeFrame in H. destruct (Z.shiftl 1 28 <? len payload).
  { injection H as <- <- <-. split; [done|]. exists 0%nat. split; [done|]. rewrite take_0, app_nil_r. apply Hf. }
  rewrite (M_bind_Ok _ _ _ (Wal.f l) (l, w)) in H by done. cbv zeta in H.
  set (hdr := Wal.frame_header typ payload) in *. set (fl := Wal.f l) in *.
  apply bind_inv in H as [(n & s1 & (w1 & -> & H1)%io_inv & H)|(r0 & (w1 & [= -> ->] & H1)%io_inv & _)];
    destruct (File_Write_any _ _ _ _ _ _ _ Hf H1) as (k & T1 & Hf1 & Hr1).
  2: { split; [done|]. exists (k `min` length hdr)%nat. split; [done|]. destruct Hf1 as [_ ->]. do 2 f_equal. unfold Wal.frame.
       fold hdr. rewrite take_app_le, <- take_take by lia. by rewrite (take_ge hdr (length hdr)) by lia. }
  destruct Hr1 as [[[= ->] Htk]|[=]]. rewrite Z.eqb_refl in H. cbn [negb] in H. rewrite Htk in Hf1. clear Htk k H1.
  assert (Hend: forall (l1 : Wal.Log) w1 k, Wal.f l1 = fl -> touches fl i w w1 -> inodes w1 !! i = Some ((c ++ hdr) ++ take k payload) ->
    Wal.f l1 = fl /\ exists k, touches fl i w w1 /\ inodes w1 !! i = Some (c ++ take k (Wal.frame typ payload))).
  { intros l1 w2 k Hl T Hi. split; [done|]. exists (length hdr + k)%nat. split; [done|]. unfold Wal.frame. fold hdr.
    by rewrite Hi, take_app_add, app_assoc. }
  apply bind_inv in H as [([] & s1 & H1 & H)|(r0 & H1 & _)]; destruct (Z.ltb_spec 0 (len payload)) as [Hp|Hp].
  - apply bind_inv in H1 as [(n & s2 & (w2 & -> & H1)%io_inv & H2)|(r0 & _ & _ & Hn)]; [|by destruct (Hn tt)].
    destruct (File_Write_any _ _ _ _ _ _ _ Hf1 H1) as (k & T2 & Hf2 & _). destruct (negb _); [done|injection H2 as <-].
    injection H as <- <- <-. apply (Hend _ _ k); [done|by transitivity w1|apply Hf2].
  - injection H1 as <-. injection H as <- <- <-. apply (Hend _ _ 0%nat); [done|done|]. rewrite take_0, app_nil_r. apply Hf1.
  - apply bind_inv in H1 as [(n & s2 & (w2 & -> & H1)%io_inv & H2)|(r1 & (w2 & [= -> ->] & H1)%io_inv & _)];
      destruct (File_Write_any _ _ _ _ _ _ _ Hf1 H1) as (k & T2 & Hf2 & _).
    + assert (l' = l /\ w' = w2) as [-> ->] by (destruct (negb _); by injection H2 as _ <- <-).
      apply (Hend _ _ k); [done|by transitivity w1|apply Hf2].
    + apply (Hend _ _ k); [done|by transitivity w1|apply Hf2].
  - injection H1 as _ <- <-. apply (Hend _ _ 0%nat); [done|done|]. rewrite take_0, app_nil_r. apply Hf1.
Qed.

Lemma maybeSync_any l w r l' w' : Wal.maybeSyncLocked (l, w) = (r, (l', w')) -> l' = l /\ same_files w w' /\ fds w' = fds w.
Proof.
  unfold Wal.maybeSyncLocked. rewrite (M_bind_Ok _ _ _ (Wal.opts l) (l, w)), (M_bind_Ok _ _ _ (Wal.f l) (l, w)) by done.
  assert (Hs: forall r s', Wal.io (File_Sync (Wal.f l)) (l, w) = (r, s') -> fst s' = l /\ same_files w (snd s') /\ fds (snd s') = fds w).
  { intros r0 s' (w1 & -> & H1)%io_inv. split; [done|]. by apply Sync_same in H1. }
  destruct (0 <? Wal.SyncEveryN (Wal.opts l)).
  - rewrite (M_bind_Ok _ _ _ (Wal.appends l) (l, w)) by done. destruct (_ =? 0); [apply Hs|by intros [= <- <- <-]].
  - destruct (Wal.SyncOnWrite (Wal.opts l)); [apply Hs|by intros [= <- <- <-]].
Qed.

Lemma append_frame_any (seq : Z) typ payload l w i c r l' w' :
  has_file w (Wal.f l) i (len c) c -> (Wal.writeFrame typ payload;; Wal.maybeSyncLocked;; mret seq) (l, w) = (r, (l', w')) ->
  exists k, touches (Wal.f l) i w w' /\ inodes w' !! i = Some (c ++ take k (Wal.frame typ payload)).
Proof.
  intros Hf [([] & [l1 w1] & H1 & H)|(r0 & H1 & _)]%bind_inv;
    destruct (writeFrame_any _ _ _ _ _ _ _ _ _ Hf H1) as (_ & k & T & Hi); exists k; [|done].
  assert (same_files w1 w' /\ fds w' = fds w1) as [S Hfd].
  { apply bind_inv in H as [([] & [l2 w2] & H2 & [= _ <- <-])|(r0 & H2 & _)]; by apply maybeSync_any in H2 as (_ & ? & ?). }
  split; [transitivity w1; [done|by apply same_touches]|]. destruct S as [_ ->]. done.
Qed.

(** An append leaves a prefix of its frame at the end of the log. *)
Lemma append_op_any o l w i c r l' w' :
  Wal.closed l = false -> has_file w (Wal.f l) i (len c) c -> Wal.op_ok (Wal.nextSeq l) o ->
  Wal.append_op o (l, w) = (r, (l', w')) ->
  exists k, touches (Wal.f l) i w w' /\ inodes w' !! i = Some (c ++ take k (Wal.op_frame (Wal.nextSeq l) o)).
Proof.
  intros Hcl Hf (Hn & Hb & Hl & Hne) H.
  assert (forall A (m : M (Wal.Log * World) A), Wal.unless_closed m (l, w) = m (l, w)) as Hun.
  { intros A m. unfold Wal.unless_closed. rewrite (M_bind_Ok _ _ _ (Wal.closed l) (l, w)) by done. by rewrite Hcl. }
  destruct o as [k v|k|es]; cbn [Wal.append_op Wal.op_payload Wal.op_count] in *.
  - unfold Wal.AppendPut in H. rewrite Hun, (M_bind_Ok _ _ _ _ _ (Wal.allocSeq_spec l w ltac:(lia) ltac:(lia))) in H.
    exact (append_frame_any _ _ _ (Wal.set_nextSeq _ l) w i c _ _ _ Hf H).
  - unfold Wal.AppendDelete in H. rewrite Hun, (M_bind_Ok _ _ _ _ _ (Wal.allocSeq_spec l w ltac:(lia) ltac:(lia))) in H.
    exact (append_frame_any _ _ _ (Wal.set_nextSeq _ l) w i c _ _ _ Hf H).
  - unfold Wal.AppendBatch in H. rewrite Hun in H. destruct es as [|e es]; [done|].
    rewrite (M_bind_Ok _ _ _ _ _ (Wal.batch_loop_spec (e :: es) _ 0 l w ltac:(lia) ltac:(lia))) in H.
    cbv beta iota in H. exact (append_frame_any _ _ _ (Wal.set_nextSeq _ l) w i c _ _ _ Hf H).
Qed.

Lemma follows_log_get {A} (g : Wal.Log -> A) : follows calmed2 (Wal.get_log g).
Proof. by apply follows_gets. Qed.
Lemma follows_log_upd g : follows calmed2 (Wal.upd_log g).
Proof. by apply follows_modify. Qed.
#[export] Hint Resolve follows_log_get follows_log_upd : follows.

Lemma follows_allocSeq : follows calmed2 Wal.allocSeq.
Proof. unfold Wal.allocSeq. follows_tac. Qed.
#[export] Hint Resolve follows_allocSeq : follows.
Lemma follows_writeFrame typ payload : follows calmed2 (Wal.writeFrame typ payload).
Proof. unfold Wal.writeFrame. follows_tac. Qed.
Lemma follows_maybeSync : follows calmed2 Wal.maybeSyncLocked.
Proof. unfold Wal.maybeSyncLocked. follows_tac. Qed.
Lemma follows_batch_loop es : forall p q, follows calmed2 (Wal.batch_loop es p q).
Proof. induction es as [|e es IH]; intros p q; cbn [Wal.batch_loop]; follows_tac. Qed.
#[export] Hint Resolve follows_writeFrame follows_maybeSync follows_batch_loop : follows.
Lemma follows_unless_closed {A} (m : M (Wal.Log * World) A) : follows calmed2 m -> follows calmed2 (Wal.unless_closed m).
Proof. intros Hm. unfold Wal.unless_closed. follows_tac. Qed.
#[export] Hint Resolve follows_unless_closed : follows.

(** A successful append is that of a world without failures. *)
Lemma follows_append_op o : follows calmed2 (Wal.append_op o).
Proof.
  destruct o as [k v|k|es]; cbn [Wal.append_op]; unfold Wal.AppendPut, Wal.AppendDelete, Wal.AppendBatch;
    apply follows_unless_closed; follows_tac.
Qed.

Lemma Truncate_any w f i p c r w' : has_file w f i p c -> File_Truncate f 0 w = (r, w') ->
  touches f i w w' /\ ((r = Ok tt /\ has_file w' f i p []) \/ (r <> Ok tt /\ inodes w' = inodes w)).
Proof.
  intros Hf H. unfold File_Truncate in H. rewrite (M_bind_Ok _ _ _ _ _ (open_fd_file _ _ _ _ _ Hf)) in H.
  apply syscall_cases in H as [(-> & Hs & Hfd)|(w1 & Hs & Hfd & H)].
  { split; [by apply same_touches|]. right. split; [done|]. apply Hs. }
  pose proof (same_touches f i _ _ Hs Hfd) as T. destruct Hs as [Hn Hi].
  assert (has_file w1 f i p c) as Hf1 by (destruct Hf; split; congruence). change (0 <? 0) with false in H. cbv iota in H.
  unfold gets in H. rewrite (M_bind_Ok _ _ _ (content i w1) w1) in H by done. change (Z.to_nat 0) with 0%nat in H. rewrite take_0 in H.
  injection H as <- <-. cbn [Os.ino]. split; [transitivity w1; [done|]|left; split; [done|]].
  - split_and!; cbn; try done; [|by rewrite length_insert]. intros j Hj. by apply list_lookup_insert_ne.
  - destruct Hf1 as [H1 H2]. split; cbn; [done|]. apply list_lookup_insert_eq. by eapply lookup_lt_Some.
Qed.

Lemma Seek_any w f i p c off wh r w' : has_file w f i p c -> File_Seek f off wh w = (r, w') ->
  touches f i w w' /\ inodes w' = inodes w.
Proof.
  intros Hf H. unfold File_Seek in H. rewrite (M_bind_Ok _ _ _ _ _ (open_fd_file _ _ _ _ _ Hf)) in H.
  apply syscall_cases in H as [(-> & Hs & Hfd)|(w1 & Hs & Hfd & H)].
  { split; [by apply same_touches|]. apply Hs. }
  pose proof (same_touches f i _ _ Hs Hfd) as T. destruct Hs as [Hn Hi].
  unfold gets in H. rewrite (M_bind_Ok _ _ _ (content i w1) w1) in H by done. cbv zeta in H.
  match type of H with (if ?b then _ else _) _ = _ => destruct b end; injection H as <- <-; [done|].
  split; [|done]. transitivity w1; [done|]. split_and!; cbn; try done; [|by rewrite length_insert].
  intros g Hg. by apply list_lookup_insert_ne.
Qed.

(** A reset leaves the log as it was or empty. *)
Lemma Reset_any l w i p c r l' w' :
  Wal.closed l = false -> has_file w (Wal.f l) i p c -> Wal.Reset (l, w) = (r, (l', w')) ->
  touches (Wal.f l) i w w' /\ (inodes w' !! i = Some c \/ inodes w' !! i = Some []).
Proof.
  intros Hcl Hf H. unfold Wal.Reset, Wal.unless_closed in H. rewrite (M_bind_Ok _ _ _ (Wal.closed l) (l, w)), Hcl in H by done.
  rewrite (M_bind_Ok _ _ _ (Wal.f l) (l, w)) in H by done. set (fl := Wal.f l) in *.
  apply bind_inv in H as [([] & s1 & (w1 & -> & H1)%io_inv & H)|(r0 & (w1 & [= -> ->] & H1)%io_inv & Hr & _)];
    destruct (Truncate_any _ _ _ _ _ _ _ Hf H1) as [T1 [[Hr1 Hf1]|[Hr1 Hi1]]]; [|done|by destruct (Hr tt)|].
  2: { split; [done|left]. rewrite Hi1. apply Hf. }
  apply bind_inv in H as [(q & s1 & (w2 & -> & H2)%io_inv & H)|(r0 & (w2 & [= -> ->] & H2)%io_inv & _)];
    destruct (Seek_any _ _ _ _ _ _ _ _ _ Hf1 H2) as [T2 Hi2].
  2: { split; [by transitivity w1|right]. rewrite Hi2. apply Hf1. }
  rewrite (M_bind_Ok _ _ _ tt (Wal.set_size 0 l, w2)), (M_bind_Ok _ _ _ tt (Wal.set_appends 0 (Wal.set_size 0 l), w2)) in H by done.
  apply io_inv in H as (w3 & [= -> ->] & H3). apply Sync_same in H3 as [[Hn3 Hi3] Hfd3].
  split; [transitivity w1; [done|]; transitivity w2; [done|by apply same_touches]|right]. rewrite Hi3, Hi2. apply Hf1.
Qed.

Lemma follows_log_io {A} (x : M World A) : follows calmed x -> follows calmed2 (Wal.io x).
Proof. apply follows_io. Qed.
#[export] Hint Resolve follows_log_io : follows.
Lemma follows_Reset : follows calmed2 Wal.Reset.
Proof. apply follows_unless_closed. follows_tac. Qed.
Lemma follows_SetNextSeq q : follows calmed2 (Wal.SetNextSeq q).
Proof. by apply follows_modify. Qed.
