(* ===== verification/FileLock.v ===== *)
(** * FileLock: package internal/filelock

    The lock file of a directory: creating it exclusively, the recovery of
    stale locks, waiting with a timeout, and releasing. *)

From Stdlib Require Import ZArith Lia Strings.Byte.
From stdpp Require Import base decidable list gmap strings numbers pretty.
From S2P Require Import Prelude Os OsFacts.
#[local] Open Scope Z_scope.

Definition ErrLocked : error := errors_New "filelock: already locked".
Definition ErrNotHeld : error := errors_New "filelock: lock not held".
Definition ErrInvalid : error := errors_New "filelock: invalid argument".
Definition ErrTimeout : error := errors_New "filelock: lock timeout".

Definition defaultLockName : string := "LOCK".
(** Durations are in nanoseconds. *)
Definition millisecond : Z := 1000000.
Definition hour : Z := 3600 * 1000 * millisecond.
Definition defaultStaleAge : Z := 24 * hour.

Record Lock := mkLock {
  dir : string; path : string; f : option nat; held : bool; pid : Z; hostname : string
}.

Record Options := mkOptions { Name : string; Timeout : Z; RetryInterval : Z; StaleAge : Z }.

Definition normalize (o : option Options) : Options :=
  let out := default (mkOptions "" 0 0 0) o in
  mkOptions
    (if String.eqb (Name out) "" then defaultLockName else Name out)
    (Timeout out)
    (if RetryInterval out <=? 0 then 50 * millisecond else RetryInterval out)
    (if StaleAge out <=? 0 then defaultStaleAge else StaleAge out).

(** The surroundings: this process, the clock, the age of a file
    ([time.Since] of its modification time), and what other processes do to
    the files while this one sleeps. *)
Class Env := {
  getpid : Z; Hostname : string; go_version : string;
  time_text : World -> string;
  clock : World -> Z;
  since : World -> string -> Z;
  sleep : Z -> World -> World
}.

(** os.Stat of a file that exists, or an error. *)
Definition Stat (p : string) : M World unit :=
  syscall (fun w =>
    match names w !! p with Some _ => (Ok tt, w) | None => (Err (os_error ErrNotExist), w) end).

Section lock.
Context {E : Env}.

(** A method of the lock, on the files. *)
Definition ML : Type -> Type := M (Lock * World).
Definition io {A} (m : M World A) : ML A := zoom snd (fun w s => (fst s, w)) m.
Definition get_l {A} (g : Lock -> A) : ML A := gets (fun s => g (fst s)).
Definition upd_l (g : Lock -> Lock) : ML unit := modify (fun s => (g (fst s), snd s)).
Definition set_file (fd : option nat) (h : bool) (l : Lock) : Lock :=
  mkLock (dir l) (path l) fd h (pid l) (hostname l).

(** The decision of maybeRemoveStale, and its effect. *)
Definition is_stale (p : string) (staleAge : Z) : M World bool :=
  info ← try_ (Stat p);
  match info with
  | inr _ => mret false
  | inl _ => age ← gets (fun w => since w p); mret (negb (age <? staleAge))
  end.
Definition maybeRemoveStale (p : string) (staleAge : Z) : M World bool :=
  stale ← is_stale p staleAge;
  if (stale : bool) then _ ← try_ (Remove p); mret true else mret false.

Definition create_flags : flags := mkFlags true true false.

Definition nl : Ascii.ascii := Ascii.ascii_of_nat 10.
Definition lock_content (l : Lock) (w : World) : list byte :=
  String.list_byte_of_string
    ("pid=" +:+ pretty (pid l) +:+ String nl ("host=" +:+ hostname l +:+ String nl
    ("go=" +:+ go_version +:+ String nl ("time=" +:+ time_text w +:+ String nl "")))).

(** The rest of tryOnce, with the file created. *)
Definition fill (fd : nat) : ML unit :=
  p ← get_l path;
  content ← gets (fun s => lock_content (fst s) (snd s));
  r ← try_ (io (File_Write fd content));
  match r with
  | inr e => _ ← try_ (io (File_Close fd)); _ ← try_ (io (Remove p)); throw e
  | inl _ =>
      r ← try_ (io (File_Sync fd));
      match r with
      | inr e => _ ← try_ (io (File_Close fd)); _ ← try_ (io (Remove p)); throw e
      | inl _ => upd_l (set_file (Some fd) true)
      end
  end.

Definition tryOnce (o : Options) : ML unit :=
  h ← get_l held;
  if (h : bool) then mret tt
  else
    p ← get_l path;
    r ← try_ (io (OpenFile p create_flags));
    match r with
    | inl fd => fill fd
    | inr e =>
        if negb (IsExist e) then throw e
        else
          stale ← io (maybeRemoveStale p (StaleAge o));
          if (stale : bool) then
            r ← try_ (io (OpenFile p create_flags));
            match r with
            | inl fd => fill fd
            | inr e => if IsExist e then throw ErrLocked else throw e
            end
          else throw ErrLocked
    end.

(** [for { err := l.tryOnce(o); ... time.Sleep(o.RetryInterval) }] *)
Fixpoint acquire_loop (fuel : nat) (o : Options) (deadline : Z) : ML unit :=
  match fuel with
  | O => lift Stuck
  | S fuel =>
      r ← try_ (tryOnce o);
      match r with
      | inl _ => mret tt
      | inr e =>
          if negb (bool_decide (e = ErrLocked)) then throw e
          else
            t ← gets (fun s => clock (snd s));
            if deadline <? t then throw ErrTimeout
            else
              modify (fun s => (fst s, sleep (RetryInterval o) (snd s)));;
              acquire_loop fuel o deadline
      end
  end.

(** [fuel] bounds the attempts within the timeout. *)
Definition Acquire (fuel : nat) (d : string) (opts : option Options) : M World Lock :=
  let o := normalize opts in
  if String.eqb d "" then throw ErrInvalid
  else
    MkdirAll d;;
    let l := mkLock d (filepath_Join d (Name o)) None false getpid Hostname in
    if Timeout o <=? 0 then
      '(_, l) ← scoped (tryOnce o) l;
      mret l
    else
      now ← gets clock;
      '(_, l) ← scoped (acquire_loop fuel o (now + Timeout o)) l;
      mret l.

(** A nil lock is [None]. *)
Definition Release : M (option Lock * World) unit := fun s =>
  match s with
  | (None, w) => (Ok tt, (None, w))
  | (Some l, w) =>
      let m : ML unit :=
        h ← get_l held;
        if negb h then throw ErrNotHeld
        else
          fd ← get_l f;
          first ← match fd with
            | None => mret None
            | Some fd =>
                r ← try_ (io (File_Close fd));
                upd_l (fun l => set_file None (held l) l);;
                mret (match r with inr e => Some e | inl _ => None end)
            end;
          p ← get_l path;
          r ← try_ (io (Remove p));
          let first := match r with
            | inr e => if negb (IsNotExist e) && bool_decide (first = None) then Some e else first
            | inl _ => first
            end in
          upd_l (fun l => set_file (f l) false l);;
          match first with Some e => throw e | None => mret tt end
      in
      match m (l, w) with (o, (l', w')) => (o, (Some l', w')) end
  end.

Definition Held (l : option Lock) : bool := match l with None => false | Some l => held l end.
Definition Path (l : option Lock) : string := match l with None => "" | Some l => path l end.
Definition Dir (l : option Lock) : string := match l with None => "" | Some l => dir l end.

Definition IsLocked (d name : string) : M World bool :=
  let name := if String.eqb name "" then defaultLockName else name in
  r ← try_ (Stat (filepath_Join d name));
  mret (match r with inl _ => true | inr _ => false end).

Definition MustAcquire (fuel : nat) (d : string) : M World Lock :=
  r ← try_ (Acquire fuel d None);
  match r with inr e => lift (Panic (PanicErr e)) | inl l => mret l end.

(** [defer]: the lock is released on every way out of the caller's [fn]. *)
Definition releasing (l : Lock) (fn : M World unit) : M World unit := fun w =>
  match fn w with
  | (o, w') => match Release (Some l, w') with (_, (_, w'')) => (o, w'') end
  end.
Definition WithLock (fuel : nat) (d : string) (opts : option Options) (fn : M World unit) : M World unit :=
  l ← Acquire fuel d opts;
  releasing l fn.

Record Info := mkInfo { iPath : string; Size : Z; ModTime : Z; Content : list byte }.

(** The modification time is given by the age of the file. *)
Definition ReadInfo (d name : string) : M World Info :=
  let name := if String.eqb name "" then defaultLockName else name in
  let p := filepath_Join d name in
  Stat p;;
  st ← gets (fun w => (len (default [] (names w !! p ≫= (inodes w !!.))), clock w - since w p));
  b ← ReadFile p;
  mret (mkInfo p (fst st) (snd st) b).
End lock.

(** * Facts *)

Section facts.
Context {E : Env}.

Lemma lock_io_run {A} (m : M World A) (l : Lock) w r w' : m w = (r, w') -> io m (l, w) = (r, (l, w')).
Proof. unfold io, zoom. cbn. by intros ->. Qed.

Definition lock_path (d : string) (opts : option Options) : string := filepath_Join d (Name (normalize opts)).

(** A created lock file is filled and held. *)
Lemma fill_spec l w fd i :
  calm w -> has_file w fd i 0 [] ->
  exists w', fill fd (l, w) = (Ok tt, (set_file (Some fd) true l, w')) /\ calm w' /\ names w' = names w /\
    touches fd i w w' /\
    has_file w' fd i (len (lock_content l w)) (lock_content l w) /\ length (inodes w') = length (inodes w).
Proof.
  intros Hc Hf. pose proof (Write_end w fd i [] (lock_content l w) Hc Hf) as Hw. set (w1 := put_file _ _ _ _ _) in Hw.
  assert (has_file w1 fd i (len (lock_content l w)) (lock_content l w)) as Hf1 by (by eapply put_file_has).
  assert (calm w1) as Hc1 by done. exists w1. split_and!; try done; [|by apply put_file_touches|by cbn; rewrite length_insert].
  unfold fill, get_l, gets. rewrite (M_bind_Ok _ _ _ (path l) (l, w)) by done.
  rewrite (M_bind_Ok _ _ _ (lock_content l w) (l, w)) by done.
  rewrite (M_bind_Ok _ _ _ (inl (len (lock_content l w))) (l, w1)) by (unfold try_; by rewrite (lock_io_run _ l w _ _ Hw)).
  rewrite (M_bind_Ok _ _ _ (inl tt) (l, w1)) by
    (unfold try_; by rewrite (lock_io_run _ l w1 _ _ (Sync_spec w1 _ _ _ _ Hc1 Hf1))).
  done.
Qed.

Lemma create_fresh w p :
  calm w -> names w !! p = None ->
  exists w', OpenFile p create_flags w = (Ok (length (fds w)), w') /\ calm w' /\ grows w w' /\
    length (inodes w') = S (length (inodes w)) /\ has_file w' (length (fds w)) (length (inodes w)) 0 [] /\ names w' = <[p := length (inodes w)]> (names w).
Proof.
  intros Hc Hp. destruct (OpenFile_create w p create_flags Hc Hp eq_refl) as (w1 & Ho & Hc1 & Hf1 & Hn1 & Hi1).
  exists w1. split_and!; try done; [|by rewrite Hi1, length_app, Nat.add_1_r]. unfold OpenFile in Ho. rewrite syscall_calm, Hp in Ho by done. cbn in Ho.
  injection Ho as <-. split; cbn; intros; by apply lookup_app_l_Some.
Qed.

Lemma create_exists w p i : calm w -> names w !! p = Some i -> OpenFile p create_flags w = (Err (os_error ErrExist), w).
Proof. intros Hc Hp. unfold OpenFile. by rewrite syscall_calm, Hp. Qed.

(** A directory without the lock file: the lock is taken at once. *)
Lemma tryOnce_free o l w :
  calm w -> held l = false -> names w !! path l = None ->
  exists w' fd, tryOnce o (l, w) = (Ok tt, (set_file (Some fd) true l, w')) /\ calm w' /\ fd = length (fds w) /\
    names w' = <[path l := length (inodes w)]> (names w) /\ grows w w' /\
    length (inodes w') = S (length (inodes w)) /\ exists c, has_file w' fd (length (inodes w)) (len c) c.
Proof.
  intros Hc Hh Hp. destruct (create_fresh w (path l) Hc Hp) as (w1 & Ho & Hc1 & G1 & Hl1 & Hf1 & Hn1).
  destruct (fill_spec l w1 _ _ Hc1 Hf1) as (w2 & Hfill & Hc2 & Hn2 & Ht & Hf2 & Hl2).
  exists w2, (length (fds w)). split_and!; [|done|done|by rewrite Hn2| |by rewrite Hl2|eauto].
  2: { by apply (touches_grows w w1 w2 (length (fds w)) (length (inodes w))). }
  unfold tryOnce, get_l, gets. rewrite (M_bind_Ok _ _ _ (held l) (l, w)) by done. rewrite Hh.
  rewrite (M_bind_Ok _ _ _ (path l) (l, w)) by done.
  rewrite (M_bind_Ok _ _ _ (inl (length (fds w))) (l, w1)) by (unfold try_; by rewrite (lock_io_run _ l w _ _ Ho)).
  exact Hfill.
Qed.

Lemma is_stale_calm w p i age : calm w -> names w !! p = Some i -> is_stale p age w = (Ok (negb (since w p <? age)), w).
Proof.
  intros Hc Hp. unfold is_stale. rewrite (M_bind_Ok _ _ _ (inl tt) w) by (unfold try_, Stat; by rewrite syscall_calm, Hp).
  done.
Qed.

(** An existing lock file that is not stale. *)
Lemma tryOnce_locked o l w i :
  calm w -> held l = false -> names w !! path l = Some i -> since w (path l) < StaleAge o ->
  tryOnce o (l, w) = (Err ErrLocked, (l, w)).
Proof.
  intros Hc Hh Hp Hage. unfold tryOnce, get_l, gets. rewrite (M_bind_Ok _ _ _ (held l) (l, w)) by done. rewrite Hh.
  rewrite (M_bind_Ok _ _ _ (path l) (l, w)) by done.
  rewrite (M_bind_Ok _ _ _ (inr (os_error ErrExist)) (l, w)) by
    (unfold try_; by rewrite (lock_io_run _ l w _ _ (create_exists _ _ _ Hc Hp))).
  change (IsExist (os_error ErrExist)) with true. cbn [negb].
  rewrite (M_bind_Ok _ _ _ false (l, w)); [done|]. apply lock_io_run. unfold maybeRemoveStale.
  rewrite (M_bind_Ok _ _ _ _ _ (is_stale_calm _ _ _ _ Hc Hp)). by rewrite (proj2 (Z.ltb_lt _ _)).
Qed.

(** A stale one is replaced. *)
Lemma tryOnce_stale o l w i :
  calm w -> held l = false -> names w !! path l = Some i -> StaleAge o <= since w (path l) ->
  exists w' fd, tryOnce o (l, w) = (Ok tt, (set_file (Some fd) true l, w')) /\ calm w' /\ fd = length (fds w) /\
    names w' = <[path l := length (inodes w)]> (names w) /\ grows w w' /\
    length (inodes w') = S (length (inodes w)) /\ exists c, has_file w' fd (length (inodes w)) (len c) c.
Proof.
  intros Hc Hh Hp Hage. set (w1 := set_names (delete (path l) (names w)) w).
  destruct (create_fresh w1 (path l)) as (w2 & Ho & Hc2 & G2 & Hl2 & Hf2 & Hn2); [done|by cbn; rewrite lookup_delete_eq|].
  destruct (fill_spec l w2 _ _ Hc2 Hf2) as (w3 & Hfill & Hc3 & Hn3 & Ht3 & Hf3 & Hl3).
  exists w3, (length (fds w1)). split_and!; [|done|done|rewrite Hn3, Hn2; cbn; by rewrite insert_delete_eq| |by rewrite Hl3|eauto].
  2: { by apply (touches_grows w w2 w3 (length (fds w1)) (length (inodes w1))). }
  unfold tryOnce, get_l, gets. rewrite (M_bind_Ok _ _ _ (held l) (l, w)) by done. rewrite Hh.
  rewrite (M_bind_Ok _ _ _ (path l) (l, w)) by done.
  rewrite (M_bind_Ok _ _ _ (inr (os_error ErrExist)) (l, w)) by
    (unfold try_; by rewrite (lock_io_run _ l w _ _ (create_exists _ _ _ Hc Hp))).
  change (IsExist (os_error ErrExist)) with true. cbn [negb].
  rewrite (M_bind_Ok _ _ _ true (l, w1)).
  2: { apply lock_io_run. unfold maybeRemoveStale. rewrite (M_bind_Ok _ _ _ _ _ (is_stale_calm _ _ _ _ Hc Hp)).
       rewrite (proj2 (Z.ltb_ge _ _)) by done. cbn [negb].
       by rewrite (M_bind_Ok _ _ _ (inl tt) w1) by (unfold try_; by rewrite (Remove_calm _ _ _ Hc Hp)). }
  rewrite (M_bind_Ok _ _ _ (inl (length (fds w1))) (l, w2)) by (unfold try_; by rewrite (lock_io_run _ l w1 _ _ Ho)).
  exact Hfill.
Qed.

Lemma Acquire_once fuel d opts w l' w' :
  calm w -> d <> ""%string -> Timeout (normalize opts) <= 0 ->
  tryOnce (normalize opts) (mkLock d (lock_path d opts) None false getpid Hostname, w) = (Ok tt, (l', w')) ->
  Acquire fuel d opts w = (Ok l', w').
Proof.
  intros Hc Hd Ht Hrun. unfold Acquire. cbv zeta. rewrite (proj2 (String.eqb_neq _ _)) by done.
  rewrite (M_bind_Ok _ _ _ tt w) by (unfold MkdirAll; by rewrite syscall_calm).
  rewrite (proj2 (Z.leb_le _ _)) by done. rewrite (M_bind_Ok _ _ _ (tt, l') w'); [done|].
  unfold scoped. unfold lock_path in Hrun. by rewrite Hrun.
Qed.

Lemma Acquire_refused fuel d opts w e l' w' :
  calm w -> d <> ""%string -> Timeout (normalize opts) <= 0 ->
  tryOnce (normalize opts) (mkLock d (lock_path d opts) None false getpid Hostname, w) = (Err e, (l', w')) ->
  Acquire fuel d opts w = (Err e, w').
Proof.
  intros Hc Hd Ht Hrun. unfold Acquire. cbv zeta. rewrite (proj2 (String.eqb_neq _ _)) by done.
  rewrite (M_bind_Ok _ _ _ tt w) by (unfold MkdirAll; by rewrite syscall_calm).
  rewrite (proj2 (Z.leb_le _ _)) by done. rewrite (M_bind_Err _ _ _ e w'); [done|].
  unfold scoped. unfold lock_path in Hrun. by rewrite Hrun.
Qed.

Lemma Release_held l w fd i c j :
  calm w -> held l = true -> f l = Some fd -> has_file w fd i (len c) c -> names w !! path l = Some j ->
  exists w', Release (Some l, w) = (Ok tt, (Some (set_file None false l), w')) /\ calm w' /\
    names w' = delete (path l) (names w) /\ inodes w' = inodes w.
Proof.
  intros Hc Hh Hfd Hf Hp. destruct (Close_spec w fd i _ _ Hc Hf) as (w1 & Hcl & Hc1 & (T1 & _) & Hi1).
  set (l1 := set_file None (held l) l).
  assert (names w1 !! path l = Some j) as Hp1 by (by rewrite T1).
  exists (set_names (delete (path l) (names w1)) w1). split_and!; [|done|by cbn; rewrite T1|done].
  unfold Release, get_l, gets. rewrite (M_bind_Ok _ _ _ (held l) (l, w)) by done. rewrite Hh. cbn [negb].
  rewrite (M_bind_Ok _ _ _ (f l) (l, w)) by done. rewrite Hfd.
  rewrite (M_bind_Ok _ _ _ None (l1, w1)).
  2: { rewrite (M_bind_Ok _ _ _ (inl tt) (l, w1)) by (unfold try_; by rewrite (lock_io_run _ l w _ _ Hcl)). done. }
  rewrite (M_bind_Ok _ _ _ (path l) (l1, w1)) by done.
  rewrite (M_bind_Ok _ _ _ (inl tt) (l1, set_names (delete (path l) (names w1)) w1)); [done|].
  unfold try_. by rewrite (lock_io_run _ l1 w1 _ _ (Remove_calm _ _ _ Hc1 Hp1)).
Qed.
End facts.

(** * Theorems *)

Section theorems.
Context {E : Env}.

(** C22: the lock excludes.  In a directory without a lock file [Acquire] takes
    the lock; whatever else changes in the directory, as long as the lock file
    is there and younger than the other caller's StaleAge, every other
    [Acquire] without a timeout is refused with [ErrLocked] and changes
    nothing; and [Release] removes the file and gives the lock up, after which
    [Acquire] succeeds again. *)
Theorem lock_excludes fuel d opts w (Hd : d <> ""%string) (Hc : calm w) (Ht : Timeout (normalize opts) <= 0)
  (Hp : names w !! lock_path d opts = None) :
  exists l w1, Acquire fuel d opts w = (Ok l, w1) /\ Held (Some l) = true /\
    names w1 = <[lock_path d opts := length (inodes w)]> (names w) /\
    forall w2 opts2, calm w2 -> grows w1 w2 -> names w2 !! lock_path d opts = names w1 !! lock_path d opts ->
      lock_path d opts2 = lock_path d opts -> Timeout (normalize opts2) <= 0 ->
      (since w2 (lock_path d opts) < StaleAge (normalize opts2) ->
        Acquire fuel d opts2 w2 = (Err ErrLocked, w2)) /\
      exists l' w3, Release (Some l, w2) = (Ok tt, (Some l', w3)) /\ Held (Some l') = false /\
        names w3 = delete (lock_path d opts) (names w2) /\
        exists l3 w4, Acquire fuel d opts2 w3 = (Ok l3, w4) /\ Held (Some l3) = true.
Proof.
  set (l0 := mkLock d (lock_path d opts) None false getpid Hostname).
  destruct (tryOnce_free (normalize opts) l0 w Hc eq_refl Hp) as (w1 & fd & Hrun & Hc1 & -> & Hn1 & _ & _ & (c & Hf)).
  eexists _, w1. split; [by eapply Acquire_once|]. split; [done|]. split; [done|].
  intros w2 opts2 Hc2 G Hsame Hpath Ht2. cbn [path l0] in Hn1.
  assert (names w2 !! lock_path d opts = Some (length (inodes w))) as Hp2 by (by rewrite Hsame, Hn1, lookup_insert_eq).
  split.
  - intros Hage. eapply Acquire_refused; [done..|]. rewrite Hpath. by eapply tryOnce_locked.
  - set (l1 := set_file (Some (length (fds w))) true l0).
    destruct (Release_held l1 w2 (length (fds w)) _ c _ Hc2 eq_refl eq_refl (grows_has_file _ _ _ _ _ _ G Hf) Hp2)
      as (w3 & Hrel & Hc3 & Hn3 & _).
    eexists _, w3. split; [exact Hrel|]. split; [done|]. split; [done|].
    destruct (tryOnce_free (normalize opts2) (mkLock d (lock_path d opts2) None false getpid Hostname) w3)
      as (w4 & fd4 & Hrun4 & _); [done|done|cbn; by rewrite Hpath, Hn3, lookup_delete_eq|].
    eexists _, w4. split; [by eapply Acquire_once|done].
Qed.

(** C37: staleness breaks the exclusion.  Once the lock file is as old as the
    second caller's StaleAge, [Acquire] succeeds while the first lock is still
    held, whether or not its holder is alive; and when the first holder then
    releases, it removes the second holder's lock file, so that a third caller
    gets the lock while the second still holds it. *)
Theorem stale_lock_stolen fuel d opts w (Hd : d <> ""%string) (Hc : calm w) (Ht : Timeout (normalize opts) <= 0)
  (Hp : names w !! lock_path d opts = None) :
  exists l1 w1, Acquire fuel d opts w = (Ok l1, w1) /\ Held (Some l1) = true /\
    forall w2, calm w2 -> grows w1 w2 -> names w2 = names w1 ->
      StaleAge (normalize opts) <= since w2 (lock_path d opts) ->
      exists l2 w3, Acquire fuel d opts w2 = (Ok l2, w3) /\ Held (Some l2) = true /\
        forall w4, calm w4 -> grows w1 w4 -> names w4 = names w3 ->
        exists l1' w5 l3 w6, Release (Some l1, w4) = (Ok tt, (Some l1', w5)) /\
          Acquire fuel d opts w5 = (Ok l3, w6) /\ Held (Some l3) = true.
Proof.
  set (l0 := mkLock d (lock_path d opts) None false getpid Hostname).
  destruct (tryOnce_free (normalize opts) l0 w Hc eq_refl Hp) as (w1 & fd & Hrun & Hc1 & -> & Hn1 & _ & _ & (c & Hf)).
  eexists _, w1. split; [by eapply Acquire_once|]. split; [done|].
  intros w2 Hc2 G Hn2 Hage. cbn [path l0] in Hn1.
  destruct (tryOnce_stale (normalize opts) l0 w2 (length (inodes w)) Hc2 eq_refl) as (w3 & fd3 & Hrun3 & Hc3 & _ & Hn3 & _);
    [cbn; by rewrite Hn2, Hn1, lookup_insert_eq|done|].
  eexists _, w3. split; [by eapply Acquire_once|]. split; [done|].
  intros w4 Hc4 G4 Hn4. cbn [path l0] in Hn3.
  destruct (Release_held (set_file (Some (length (fds w))) true l0) w4 (length (fds w)) _ c (length (inodes w2)) Hc4
    eq_refl eq_refl (grows_has_file _ _ _ _ _ _ G4 Hf)) as (w5 & Hrel & Hc5 & Hn5 & _);
    [cbn; by rewrite Hn4, Hn3, lookup_insert_eq|].
  destruct (tryOnce_free (normalize opts) l0 w5) as (w6 & fd6 & Hrun6 & _); [done|done|cbn; cbn in Hn5; by rewrite Hn5, lookup_delete_eq|].
  eexists _, w5, _, w6. split; [exact Hrel|]. split; [by eapply Acquire_once|done].
Qed.

(** ** Waiting *)

Lemma Stat_ends p : always_ends (Stat p).
Proof. apply syscall_ends. intros w. by case_match. Qed.
#[local] Hint Resolve Stat_ends : ends.

Lemma stale_ends p age : always_ends (maybeRemoveStale p age).
Proof. unfold maybeRemoveStale, is_stale. m_ends. Qed.
#[local] Hint Resolve stale_ends : ends.

Lemma tryOnce_ends o : always_ends (tryOnce o).
Proof. unfold tryOnce, fill, get_l, io, upd_l. m_ends. Qed.

(** Enough attempts for the time that is left. *)
Lemma acquire_loop_ends o deadline (R := RetryInterval o) fuel : forall l w,
  0 < R ->
  (forall l w, clock w <= clock (snd (snd (tryOnce o (l, w))))) ->
  (forall w, clock w + R <= clock (sleep R w)) ->
  deadline < clock w + Z.of_nat fuel * R ->
  ends (fst (acquire_loop (S fuel) o deadline (l, w))).
Proof.
  induction fuel as [|fuel IH]; intros l w HR Hmono Hsleep Hd;
    (pose proof (tryOnce_ends o (l, w)) as He; specialize (Hmono l w) as Hm;
     cbn [acquire_loop]; unfold mbind at 1, M_bind at 1, try_ at 1;
     destruct (tryOnce o (l, w)) as [[[]|e|p|] [l' w']]; try done; cbn [snd] in Hm;
     destruct (bool_decide (e = ErrLocked)); [|done]; cbn [negb];
     unfold gets; rewrite (M_bind_Ok _ _ _ (clock w') (l', w')) by done).
  - by rewrite (proj2 (Z.ltb_lt _ _)) by lia.
  - destruct (Z.ltb_spec deadline (clock w')) as [Hlt|Hge]; [done|].
    rewrite (M_bind_Ok _ _ _ tt (l', sleep R w')) by done. apply IH; [done|..|].
    + done.
    + done.
    + specialize (Hsleep w'). lia.
Qed.

(** a caller that waits for the lock gets an answer.  If the clock does not
    go back during an attempt and advances by the retry interval during a
    sleep, [Acquire] returns, with the lock or an error, after at most
    Timeout / RetryInterval + 2 attempts, whatever other processes do to the
    directory while it sleeps and whichever calls fail. *)
Theorem Acquire_returns fuel d opts w
  (Hmono : forall l w, clock w <= clock (snd (snd (tryOnce (normalize opts) (l, w)))))
  (Hsleep : forall w, clock w + RetryInterval (normalize opts) <= clock (sleep (RetryInterval (normalize opts)) w))
  (Hfuel : Timeout (normalize opts) / RetryInterval (normalize opts) + 2 <= Z.of_nat fuel) :
  ends (fst (Acquire fuel d opts w)).
Proof.
  set (o := normalize opts) in *.
  assert (0 < RetryInterval o) as HR.
  { unfold o, normalize. cbn. destruct (Z.leb_spec (RetryInterval (default (mkOptions "" 0 0 0) opts)) 0); [done|lia]. }
  unfold Acquire. fold o. cbv zeta. destruct (String.eqb d ""); [done|].
  apply mbind_ends_at; [apply syscall_ends; eauto with ends|]. intros [] w1 _.
  assert (Hscoped: forall (m : ML unit) l w, ends (fst (m (l, w))) ->
    ends (fst (('(_, l) ← scoped m l; mret l) w))).
  { intros m l w0 Hm. apply mbind_ends_at; [|by intros [] ?]. unfold scoped.
    by destruct (m (l, w0)) as [[a|e|p|] [l' w']]. }
  destruct (Z.leb_spec (Timeout o) 0).
  - apply Hscoped, tryOnce_ends.
  - unfold gets. rewrite (M_bind_Ok _ _ _ (clock w1) w1) by done. apply Hscoped.
    assert (0 <= Timeout o / RetryInterval o) by (apply Z.div_pos; lia).
    destruct fuel as [|fuel]; [lia|]. apply acquire_loop_ends; [done..|].
    pose proof (Z.mul_succ_div_gt (Timeout o) (RetryInterval o) HR). nia.
Qed.
End theorems.

(** ** Witnesses *)

(** Surroundings in which the clock is advanced by sleeping only, and all files
    are [age] old. *)
Definition demo_env (age : Z) : Env := {|
  getpid := 42; Hostname := "host"; go_version := "go1.22"; time_text := fun _ => "now"%string;
  clock := fun w => len (fds w); since := fun _ _ => age;
  sleep := fun d w => set_fds (fds w ++ replicate (Z.to_nat d) (mkFd 0 0 false)) w
|}.

Lemma tryOnce_fds age o l w : clock (Env := demo_env age) w <= clock (Env := demo_env age) (snd (snd (tryOnce (E := demo_env age) o (l, w)))).
Proof.
  set (R := fun s s' : Lock * World => more_fds (snd s) (snd s')).
  assert (PreOrder R) as HR by (split; unfold R, more_fds; [intros ?; lia|intros ???; lia]).
  assert (Hio: forall A (m : M World A), steps more_fds m -> steps R (io m)).
  { intros A m Hm [l0 w0]. specialize (Hm w0). unfold io, zoom, R. cbn. by destruct (m w0). }
  assert (steps R (tryOnce (E := demo_env age) o)) as Hs.
  { unfold tryOnce, fill, get_l, upd_l. steps_tac; try (apply Hio; steps_tac).
    1,3: apply steps_modify; intros s; unfold R, more_fds; cbn; lia.
    intros w0. unfold more_fds. by case_match. }
  specialize (Hs (l, w)). unfold R, more_fds in Hs. cbn in *. lia.
Qed.

Definition demo_options : Options := mkOptions "" 0 0 10.

Lemma lock_excludes_witness :
  exists l w1, Acquire (E := demo_env 5) 1 "d" (Some demo_options) empty_world = (Ok l, w1) /\ Held (Some l) = true /\
    names w1 = <[lock_path "d" (Some demo_options) := 0%nat]> (names empty_world) /\
    forall w2 opts2, calm w2 -> grows w1 w2 ->
      names w2 !! lock_path "d" (Some demo_options) = names w1 !! lock_path "d" (Some demo_options) ->
      lock_path "d" opts2 = lock_path "d" (Some demo_options) -> Timeout (normalize opts2) <= 0 ->
      (since (Env := demo_env 5) w2 (lock_path "d" (Some demo_options)) < StaleAge (normalize opts2) ->
        Acquire (E := demo_env 5) 1 "d" opts2 w2 = (Err ErrLocked, w2)) /\
      exists l' w3, Release (Some l, w2) = (Ok tt, (Some l', w3)) /\ Held (Some l') = false /\
        names w3 = delete (lock_path "d" (Some demo_options)) (names w2) /\
        exists l3 w4, Acquire (E := demo_env 5) 1 "d" opts2 w3 = (Ok l3, w4) /\ Held (Some l3) = true.
Proof. apply (lock_excludes (E := demo_env 5) 1 "d" (Some demo_options) empty_world); done. Defined.

Lemma stale_lock_stolen_witness :
  exists l1 w1, Acquire (E := demo_env 10) 1 "d" (Some demo_options) empty_world = (Ok l1, w1) /\ Held (Some l1) = true /\
    forall w2, calm w2 -> grows w1 w2 -> names w2 = names w1 ->
      StaleAge (normalize (Some demo_options)) <= since (Env := demo_env 10) w2 (lock_path "d" (Some demo_options)) ->
      exists l2 w3, Acquire (E := demo_env 10) 1 "d" (Some demo_options) w2 = (Ok l2, w3) /\ Held (Some l2) = true /\
        forall w4, calm w4 -> grows w1 w4 -> names w4 = names w3 ->
        exists l1' w5 l3 w6, Release (Some l1, w4) = (Ok tt, (Some l1', w5)) /\
          Acquire (E := demo_env 10) 1 "d" (Some demo_options) w5 = (Ok l3, w6) /\ Held (Some l3) = true.
Proof. apply (stale_lock_stolen (E := demo_env 10) 1 "d" (Some demo_options) empty_world); done. Defined.

(** Waiting at most 10 with an interval of 3 for a lock that is held. *)
Lemma Acquire_returns_witness :
  ends (fst (Acquire (E := demo_env 5) 5 "d" (Some (mkOptions "" 10 3 10))
    (snd (Acquire (E := demo_env 5) 1 "d" (Some demo_options) empty_world)))).
Proof.
  apply (Acquire_returns (E := demo_env 5)); [intros l w'; apply tryOnce_fds| |by vm_compute].
  intros w'. cbn. rewrite length_app, length_replicate. lia.
Defined.

(** Acquire, a refused attempt, a stolen lock, a release. *)
Example demo_lock :
  let o1 := Acquire (E := demo_env 5) 1 "d" (Some demo_options) empty_world in
  (is_ok (fst o1), fst (Acquire (E := demo_env 5) 1 "d" (Some demo_options) (snd o1)),
   is_ok (fst (Acquire (E := demo_env 10) 1 "d" (Some demo_options) (snd o1)))) =
  (true, Err ErrLocked, true).
Proof. by vm_compute. Qed.
