(* ===== verification/Kill.v ===== *)
(** * Kill: the process dies at a call of package os

    A process is killed at one of its calls: the calls before it succeed, the
    call itself may still write a prefix of its data, and the calls after it
    have no effect ([killed_at]).  A program is [mortal] if it either ends
    before that as if nothing were to happen, or changes no file from then on;
    every program made of calls of package os is, which the hints of the
    database [mortal] prove by following the program.  Then whatever holds of
    the files after each part of a program, whichever calls of that part fail,
    holds when the process is killed ([surviving_bind]); for parts that only
    read ([same_disk]) that is immediate ([reading_survives]). *)

From Stdlib Require Import ZArith Lia Strings.Byte.
From stdpp Require Import base decidable list gmap strings numbers.
From S2P Require Import Prelude Os OsFacts OsFaults.
#[local] Open Scope Z_scope.

(** ** States with files *)

(** A state whose world has a schedule of failures, and files. *)
Class Fs (S : Type) := {
  sched : list (option nat) -> S -> S;
  disk : S -> gmap string nat * list (list byte);
  sched_sched fs gs s : sched fs (sched gs s) = sched fs s;
  disk_sched fs s : disk (sched fs s) = disk s
}.
#[export] Hint Mode Fs ! : typeclass_instances.

#[export] Program Instance world_fs : Fs World :=
  {| sched := set_faults; disk := fun w => (names w, inodes w) |}.
Solve All Obligations with done.
#[export] Program Instance pair_fs {T S} `{Fs S} : Fs (T * S) :=
  {| sched := fun fs s => (fst s, sched fs (snd s)); disk := fun s => disk (snd s) |}.
Next Obligation. intros. cbn. by rewrite sched_sched. Qed.
Next Obligation. intros. cbn. apply disk_sched. Qed.

(** The process is killed at call number [j], which still writes [k] bytes;
    [n] says how many calls without effect may follow. *)
Definition dead (n : nat) : list (option nat) := replicate n (Some 0%nat).
Definition killed_at (j k n : nat) : list (option nat) := replicate j None ++ Some k :: dead n.

(** ** Mortal programs *)

Section mortal.
Context {S : Type} `{Fs S}.

(** The program ends before the kill; or it does not, and then there are [N]
    calls in vain. *)
Definition lives {A} (m : M S A) (s : S) (j : nat) : Prop := exists r s' j',
  m (sched [] s) = (r, sched [] s') /\ forall fs, m (sched (replicate j None ++ fs) s) = (r, sched (replicate j' None ++ fs) s').
Definition dies {A} (m : M S A) (s : S) (j : nat) : Prop := forall k, exists N r s',
  forall n, m (sched (killed_at j k (N + n)) s) = (r, sched (dead n) s').
(** A dead process changes no file. *)
Definition rests {A} (m : M S A) (s : S) : Prop := exists N r s',
  disk s' = disk s /\ forall n, m (sched (dead (N + n)) s) = (r, sched (dead n) s').

Record mortal {A} (m : M S A) : Prop := {
  mo_rests s : rests m s;
  mo_runs s j : lives m s j \/ dies m s j
}.

(** Programs that make no call and change no file. *)
Definition silent {A} (m : M S A) : Prop :=
  forall s, exists r s', disk s' = disk s /\ forall fs, m (sched fs s) = (r, sched fs s').

Lemma silent_mortal {A} (m : M S A) : silent m -> mortal m.
Proof.
  intros Hm. split.
  - intros s. destruct (Hm s) as (r & s' & Hd & Hr). exists 0%nat, r, s'. split; [done|]. intros n. apply Hr.
  - intros s j. destruct (Hm s) as (r & s' & _ & Hr). left. exists r, s', j. split; [apply Hr|]. intros fs. apply Hr.
Qed.

Lemma mortal_ret {A} (a : A) : mortal (mret a).
Proof. apply silent_mortal. intros s. by exists (Ok a), s. Qed.
Lemma mortal_lift {A} (o : outcome A) : mortal (lift o).
Proof. apply silent_mortal. intros s. by exists o, s. Qed.
Lemma mortal_throw {A} e : mortal (throw (A := A) e).
Proof. apply silent_mortal. intros s. by exists (Err e), s. Qed.
Lemma mortal_gets {A} (g : S -> A) : (forall fs s, g (sched fs s) = g s) -> mortal (gets g).
Proof. intros Hg. apply silent_mortal. intros s. exists (Ok (g s)), s. split; [done|]. intros fs. unfold gets. by rewrite Hg. Qed.
Lemma mortal_modify g : (forall fs s, g (sched fs s) = sched fs (g s)) -> (forall s, disk (g s) = disk s) -> mortal (modify g).
Proof.
  intros Hg Hd. apply silent_mortal. intros s. exists (Ok tt), (g s). split; [done|]. intros fs. unfold modify. by rewrite Hg.
Qed.

Lemma mortal_bind {A B} (m : M S A) (g : A -> M S B) : mortal m -> (forall a, mortal (g a)) -> mortal (m ≫= g).
Proof.
  intros [Hm1 Hm2] Hg. unfold mbind, M_bind. split.
  - intros s. destruct (Hm1 s) as (N & r & s1 & Hd & Hr). destruct r as [a|e|p|].
    2-4: eexists N, _, s1; (split; [exact Hd|]); intros n; by rewrite Hr.
    destruct (mo_rests _ (Hg a) s1) as (N2 & r & s2 & Hd2 & Hr2). exists (N + N2)%nat, r, s2.
    split; [congruence|]. intros n. by rewrite <- Nat.add_assoc, Hr.
  - intros s j. destruct (Hm2 s j) as [(r & s1 & j1 & Hc & Hr)|Hd].
    + destruct r as [a|e|p|]. 2-4: left; eexists _, s1, j1; (split; [by rewrite Hc|]); intros fs; by rewrite Hr.
      destruct (mo_runs _ (Hg a) s1 j1) as [(r & s2 & j2 & Hc2 & Hr2)|Hd2].
      * left. exists r, s2, j2. split; [by rewrite Hc|]. intros fs. by rewrite Hr.
      * right. intros k. destruct (Hd2 k) as (N & r & s2 & Hr2). exists N, r, s2. intros n. unfold killed_at in *. by rewrite Hr.
    + right. intros k. destruct (Hd k) as (N & r & s1 & Hr). destruct r as [a|e|p|].
      2-4: eexists N, _, s1; intros n; by rewrite Hr.
      destruct (mo_rests _ (Hg a) s1) as (N2 & r & s2 & _ & Hr2). exists (N + N2)%nat, r, s2.
      intros n. by rewrite <- Nat.add_assoc, Hr.
Qed.

(** A program that turns every outcome of another into an outcome. *)
Lemma mortal_map {A B} (m : M S A) (h : outcome A -> outcome B) : mortal m -> mortal (fun s => let (r, s') := m s in (h r, s')).
Proof.
  intros [Hm1 Hm2]. split.
  - intros s. destruct (Hm1 s) as (N & r & s' & Hd & Hr). exists N, (h r), s'. split; [done|]. intros n. by rewrite Hr.
  - intros s j. destruct (Hm2 s j) as [(r & s1 & j1 & Hc & Hr)|Hd].
    + left. exists (h r), s1, j1. split; [by rewrite Hc|]. intros fs. by rewrite Hr.
    + right. intros k. destruct (Hd k) as (N & r & s1 & Hr). exists N, (h r), s1. intros n. by rewrite Hr.
Qed.
Lemma mortal_ext {A} (m m' : M S A) : (forall s, m' s = m s) -> mortal m -> mortal m'.
Proof.
  intros Heq [Hm1 Hm2]. split.
  - intros s. destruct (Hm1 s) as (N & r & s' & Hd & Hr). exists N, r, s'. split; [done|]. intros n. by rewrite Heq.
  - intros s j. destruct (Hm2 s j) as [(r & s1 & j1 & Hc & Hr)|Hd].
    + left. exists r, s1, j1. split; [by rewrite Heq|]. intros fs. by rewrite Heq.
    + right. intros k. destruct (Hd k) as (N & r & s1 & Hr). exists N, r, s1. intros n. by rewrite Heq.
Qed.
Lemma mortal_try {A} (m : M S A) : mortal m -> mortal (try_ m).
Proof.
  intros Hm. apply (mortal_ext (fun s => let (r, s') := m s in
    (match r with Ok a => Ok (inl a) | Err e => Ok (inr e) | Panic p => Panic p | Stuck => Stuck end, s'))).
  - intros s. unfold try_. by destruct (m s) as [[a|e|p|] s'].
  - by apply mortal_map.
Qed.
End mortal.

Create HintDb mortal.
#[export] Hint Resolve mortal_ret mortal_lift mortal_throw mortal_try : mortal.
#[export] Hint Extern 2 (mortal (gets _)) => (apply mortal_gets; done) : mortal.
#[export] Hint Extern 2 (mortal (modify _)) => (apply mortal_modify; done) : mortal.

(** ** Parts of a state *)

Section zoom.
Context {S T : Type} `{Fs S} `{Fs T}.

Lemma mortal_zoom {A} (g : S -> T) (p : T -> S -> S) (m : M T A) :
  (forall fs s, g (sched fs s) = sched fs (g s)) -> (forall fs t s, p (sched fs t) (sched fs s) = sched fs (p t s)) ->
  (forall fs t s, p t (sched fs s) = p t s) -> (forall s, disk (g s) = disk s) -> (forall t s, disk (p t s) = disk t) ->
  mortal m -> mortal (zoom g p m).
Proof.
  intros Hg Hp1 Hp2 Hd1 Hd2 [Hm1 Hm2]. unfold zoom.
  assert (forall fs t s, p (sched fs t) s = sched fs (p t s)) as Hp by (intros; by rewrite <- (Hp2 fs), Hp1). split.
  - intros s. destruct (Hm1 (g s)) as (N & r & t & Hd & Hr). exists N, r, (p t s). split; [by rewrite Hd2, Hd|].
    intros n. by rewrite Hg, Hr, Hp2, Hp.
  - intros s j. destruct (Hm2 (g s) j) as [(r & t & j1 & Hc & Hr)|Hd].
    + left. exists r, (p t s), j1. split; [by rewrite Hg, Hc, Hp2, Hp|]. intros fs. by rewrite Hg, Hr, Hp2, Hp.
    + right. intros k. destruct (Hd k) as (N & r & t & Hr). exists N, r, (p t s). intros n. by rewrite Hg, Hr, Hp2, Hp.
Qed.
End zoom.

Lemma mortal_io {T A} (m : M World A) : mortal m -> mortal (zoom snd (fun w (s : T * World) => (fst s, w)) m).
Proof. by apply mortal_zoom. Qed.

Lemma mortal_scoped {T S A} `{Fs S} (m : M (T * S) A) (t : T) : mortal m -> mortal (scoped m t).
Proof.
  intros [Hm1 Hm2]. unfold scoped. split.
  - intros s. destruct (Hm1 (t, s)) as (N & r & [t' s'] & Hd & Hr). cbn in Hd, Hr.
    eexists N, (match r with Ok a => Ok (a, t') | Err e => Err e | Panic p => Panic p | Stuck => Stuck end), s'.
    split; [done|]. intros n. rewrite Hr. by destruct r.
  - intros s j. destruct (Hm2 (t, s) j) as [(r & [t' s'] & j1 & Hc & Hr)|Hd].
    + cbn in Hc, Hr. left. eexists (match r with Ok a => Ok (a, t') | Err e => Err e | Panic p => Panic p | Stuck => Stuck end), s', j1.
      split; [rewrite Hc; by destruct r|]. intros fs. rewrite Hr. by destruct r.
    + right. intros k. destruct (Hd k) as (N & r & [t' s'] & Hr). cbn in Hr.
      eexists N, (match r with Ok a => Ok (a, t') | Err e => Err e | Panic p => Panic p | Stuck => Stuck end), s'.
      intros n. rewrite Hr. by destruct r.
Qed.
#[export] Hint Resolve mortal_io mortal_scoped : mortal.

(** Following a program, its conditionals included. *)
Ltac mortal_tac := repeat first [ solve [eauto with mortal]
  | match goal with
    | |- forall _, _ => intros ?
    | |- mortal (_ ≫= _) => apply mortal_bind
    | |- mortal (try_ _) => apply mortal_try
    | |- mortal (scoped _ _) => apply mortal_scoped
    | |- mortal (zoom snd _ _) => apply mortal_io
    end | progress cbv beta zeta | case_match ].

(** ** Calls of package os *)

(** What a call does, apart from its schedule. *)
Definition timeless {A} (m : M World A) : Prop := forall w, exists r w', forall fs, m (set_faults fs w) = (r, set_faults fs w').

Lemma timeless_ret {A} (a : A) : timeless (mret a).
Proof. intros w. by exists (Ok a), w. Qed.
Lemma timeless_throw {A} e : timeless (throw (A := A) e).
Proof. intros w. by exists (Err e), w. Qed.
Lemma timeless_gets {A} (g : World -> A) : (forall fs w, g (set_faults fs w) = g w) -> timeless (gets g).
Proof. intros Hg w. exists (Ok (g w)), w. intros fs. unfold gets. by rewrite Hg. Qed.
Lemma timeless_modify g : (forall fs w, g (set_faults fs w) = set_faults fs (g w)) -> timeless (modify g).
Proof. intros Hg w. exists (Ok tt), (g w). intros fs. unfold modify. by rewrite Hg. Qed.
Lemma timeless_bind {A B} (m : M World A) (g : A -> M World B) : timeless m -> (forall a, timeless (g a)) -> timeless (m ≫= g).
Proof.
  intros Hm Hg w. destruct (Hm w) as (r & w1 & Hr). unfold mbind, M_bind. destruct r as [a|e|p|].
  - destruct (Hg a w1) as (r & w2 & Hr2). exists r, w2. intros fs. by rewrite Hr.
  - eexists _, w1. intros fs. by rewrite Hr.
  - eexists _, w1. intros fs. by rewrite Hr.
  - eexists _, w1. intros fs. by rewrite Hr.
Qed.
Create HintDb timeless.
#[export] Hint Resolve timeless_ret timeless_throw : timeless.
#[export] Hint Extern 2 (timeless (gets _)) => (apply timeless_gets; done) : timeless.
#[export] Hint Extern 2 (timeless (modify _)) => (apply timeless_modify; done) : timeless.
#[export] Hint Extern 3 (timeless (_ ≫= _)) => (apply timeless_bind; [|intros ?]) : timeless.

Lemma mortal_syscall {A} (m : M World A) : timeless m -> mortal (syscall m).
Proof.
  intros Hm. unfold syscall, mbind, M_bind, next_fault. split.
  - intros w. by exists 1%nat, (Err io_error), w.
  - intros w [|j].
    + right. intros k. by exists 0%nat, (Err io_error), w.
    + left. destruct (Hm w) as (r & w' & Hr). exists r, w', j. split; [apply Hr|]. intros fs. apply (Hr (replicate j None ++ fs)).
Qed.
#[export] Hint Resolve mortal_syscall : mortal.
#[export] Hint Extern 1 (timeless _) => solve [auto with timeless] : mortal.

Lemma mortal_open_fd f : mortal (open_fd f).
Proof.
  apply silent_mortal. intros w. exists (fst (open_fd f w)), w. split; [done|]. intros fs. unfold open_fd. cbn. by repeat case_match.
Qed.
#[export] Hint Resolve mortal_open_fd : mortal.

(** What is written is a prefix of the data, or all of it. *)
Definition written (f : nat) (d : fd) (b : list byte) (w : World) : World :=
  set_fds (<[f := mkFd (ino d) (pos d + len b) (is_open d)]> (fds w))
    (set_inodes (<[ino d := write_at (content (ino d) w) (Z.to_nat (pos d)) b]> (inodes w)) w).

Lemma mortal_Write f b : mortal (File_Write f b).
Proof.
  unfold File_Write. apply mortal_bind; [auto with mortal|]. intros d.
  unfold mbind, M_bind, next_fault, set_content, set_pos, modify, gets. cbn. split.
  - intros w. exists 1%nat, (Err io_error), (written f d [] w). split; [|done].
    cbn. f_equal. unfold content. destruct (inodes w !! ino d) as [c|] eqn:Hc; cbn; [by apply list_insert_id|].
    apply list_insert_ge. by apply lookup_ge_None.
  - intros w [|j].
    + right. intros k. exists 0%nat, (Err io_error), (written f d (take k b) w). by intros n.
    + left. by exists (Ok (len b)), (written f d b w), j.
Qed.
#[export] Hint Resolve mortal_Write : mortal.

Lemma mortal_ReadAt f n off : mortal (File_ReadAt f n off).
Proof.
  unfold File_ReadAt. apply mortal_bind; [auto with mortal|]. intros d. apply mortal_syscall. destruct (off <? 0); [auto with timeless|].
  apply timeless_bind; [auto with timeless|]. intros c. cbv zeta. case_match; auto with timeless.
Qed.
Lemma mortal_Seek f off wh : mortal (File_Seek f off wh).
Proof.
  unfold File_Seek, set_pos. apply mortal_bind; [auto with mortal|]. intros d. apply mortal_syscall.
  apply timeless_bind; [auto with timeless|]. intros c. cbv zeta. destruct (_ <? 0); auto with timeless.
Qed.
Lemma mortal_Truncate f n : mortal (File_Truncate f n).
Proof.
  unfold File_Truncate, set_content. apply mortal_bind; [auto with mortal|]. intros d. apply mortal_syscall.
  destruct (_ <? 0); auto with timeless.
Qed.
Lemma mortal_Size f : mortal (File_Size f).
Proof. unfold File_Size. apply mortal_bind; [auto with mortal|]. intros d. apply mortal_syscall. auto with timeless. Qed.
Lemma mortal_Sync f : mortal (File_Sync f).
Proof. unfold File_Sync. apply mortal_bind; [auto with mortal|]. intros d. apply mortal_syscall. auto with timeless. Qed.
Lemma mortal_Close f : mortal (File_Close f).
Proof.
  unfold File_Close. apply mortal_bind; [auto with mortal|]. intros d. apply mortal_bind; [auto with mortal|].
  intros _. apply mortal_syscall. auto with timeless.
Qed.
Lemma mortal_OpenFile p fl : mortal (OpenFile p fl).
Proof.
  apply mortal_syscall. intros w. unfold new_fd. cbn. destruct (names w !! p) as [i|].
  - destruct (_ && _); [by eexists _, w|]. eexists (Ok (length (fds w))),
      (set_fds (fds w ++ [mkFd i 0 true]) (if O_TRUNC fl then set_inodes (<[i := []]> (inodes w)) w else w)). intros fs. by destruct (O_TRUNC fl).
  - destruct (O_CREATE fl); [|by eexists _, w]. eexists (Ok (length (fds w))), (set_fds (fds w ++ [mkFd (length (inodes w)) 0 true])
      (set_names (<[p := length (inodes w)]> (names w)) (set_inodes (inodes w ++ [[]]) w))). done.
Qed.
Lemma mortal_MkdirAll p : mortal (MkdirAll p).
Proof. apply mortal_syscall. auto with timeless. Qed.
Lemma mortal_Remove p : mortal (Remove p).
Proof. apply mortal_syscall. intros w. cbn. destruct (names w !! p); [by eexists (Ok tt), (set_names (delete p (names w)) w)|by eexists (Err _), w]. Qed.
Lemma mortal_Rename p q : mortal (Rename p q).
Proof. apply mortal_syscall. intros w. cbn. destruct (names w !! p) as [i|]; [by eexists (Ok tt), (set_names (<[q := i]> (delete p (names w))) w)|by eexists (Err _), w]. Qed.
Lemma mortal_ReadFile p : mortal (ReadFile p).
Proof. apply mortal_syscall. intros w. cbn. destruct (names w !! p) as [i|]; [by exists (Ok (content i w)), w|by eexists (Err _), w]. Qed.
#[export] Hint Resolve mortal_ReadAt mortal_Seek mortal_Truncate mortal_Size mortal_Sync mortal_Close
  mortal_OpenFile mortal_MkdirAll mortal_Remove mortal_Rename mortal_ReadFile : mortal.
Lemma mortal_WriteFile p b : mortal (WriteFile p b).
Proof. unfold WriteFile. mortal_tac. Qed.
#[export] Hint Resolve mortal_WriteFile : mortal.

(** ** What survives *)

Section survive.
Context {S : Type} `{Fs S} (Q : S -> Prop).

(** [Q] holds however the process is killed while [m] runs. *)
Definition surviving {A} (m : M S A) (s : S) : Prop := forall j k, exists N, forall n, (N <= n)%nat ->
  Q (snd (m (sched (killed_at j k n) s))).
(** [Q] holds whichever calls fail while [m] runs. *)
Definition tolerating {A} (m : M S A) (s : S) : Prop := forall fs, Q (snd (m (sched fs s))).

Lemma tolerating_surviving {A} (m : M S A) s : tolerating m s -> surviving m s.
Proof. intros Hm j k. exists 0%nat. intros n _. apply Hm. Qed.

Context (HQ : forall s s', disk s' = disk s -> Q s -> Q s').

(** Killed in the first program, or after it, when it has done its work. *)
Lemma surviving_bind {A B} (m : M S A) (g : A -> M S B) s :
  mortal m -> (forall a, mortal (g a)) -> surviving m s ->
  (forall a s1, m (sched [] s) = (Ok a, s1) -> surviving (g a) s1) -> surviving (m ≫= g) s.
Proof.
  intros Hm Hg Ht Hn j k. unfold mbind, M_bind. destruct (mo_runs _ Hm s j) as [(r & s1 & j1 & Hc & Hr)|Hd]; destruct (Ht j k) as [N0 Ht0].
  - destruct r as [a|e|p|].
    2-4: exists N0; intros n Hle; specialize (Ht0 n Hle); unfold killed_at in *; rewrite Hr in Ht0 |- *; exact Ht0.
    destruct (Hn a _ Hc j1 k) as [N HN]. exists N. intros n Hle. specialize (HN n Hle). rewrite sched_sched in HN.
    unfold killed_at in *. by rewrite Hr.
  - destruct (Hd k) as (N & r & s1 & Hr). assert (Q s1) as H1.
    { specialize (Ht0 (N + N0)%nat ltac:(lia)). rewrite Hr in Ht0. eapply HQ; [|exact Ht0]. symmetry. apply disk_sched. }
    destruct r as [a|e|p|].
    2-4: exists N; intros n Hle; replace n with (N + (n - N))%nat by lia; rewrite Hr; eapply HQ; [|exact H1]; apply disk_sched.
    destruct (mo_rests _ (Hg a) s1) as (N2 & r & s2 & Hd2 & Hr2). exists (N + N2)%nat. intros n Hle.
    replace n with (N + (N2 + (n - N - N2)))%nat by lia. rewrite Hr, Hr2. cbn. eapply HQ; [|exact H1]. by rewrite disk_sched.
Qed.

(** The same when the outcome of the first program is known. *)
Lemma surviving_run {A B} (m : M S A) (g : A -> M S B) s a s1 :
  mortal m -> (forall a, mortal (g a)) -> m (sched [] s) = (Ok a, s1) -> surviving m s -> surviving (g a) s1 -> surviving (m ≫= g) s.
Proof. intros Hm Hg Hr Ht Hn. apply surviving_bind; [done..|]. intros a' s' Heq. rewrite Hr in Heq. by injection Heq as <- <-. Qed.

(** A step whose outcome is known. *)
Lemma surviving_step {A B} (m : M S A) (g : A -> M S B) s a s1 :
  (forall fs, m (sched fs s) = (Ok a, sched fs s1)) -> surviving (g a) s1 -> surviving (m ≫= g) s.
Proof. intros Hm Hg j k. destruct (Hg j k) as [N HN]. exists N. intros n Hn. unfold mbind, M_bind. rewrite Hm. by apply HN. Qed.
Lemma surviving_ext {A} (m m' : M S A) s : (forall fs, m (sched fs s) = m' (sched fs s)) -> surviving m' s -> surviving m s.
Proof. intros He Hm j k. destruct (Hm j k) as [N HN]. exists N. intros n Hn. rewrite He. by apply HN. Qed.
Lemma surviving_try {A} (m : M S A) s : surviving m s -> surviving (try_ m) s.
Proof.
  intros Hm j k. destruct (Hm j k) as [N HN]. exists N. intros n Hn. specialize (HN n Hn). unfold try_.
  by destruct (m (sched (killed_at j k n) s)) as [[a|e|p|] s'].
Qed.
End survive.

(** A call of package os that changes files. *)
Lemma syscall_tolerating {A} (Q : World -> Prop) (m : M World A) w : (forall w w', disk w' = disk w -> Q w -> Q w') ->
  timeless m -> Q w -> Q (snd (m w)) -> tolerating Q (syscall m) w.
Proof.
  intros HQ Hm H1 H2 fs. change (sched fs w) with (set_faults fs w). destruct (Hm w) as (r & w' & Hr). pose proof (Hr (faults w)) as Hw.
  replace (set_faults (faults w) w) with w in Hw by by destruct w. rewrite Hw in H2. cbn in H2.
  assert (Q w') as H3 by by apply (HQ (set_faults (faults w) w')).
  unfold syscall, mbind, M_bind, next_fault. destruct fs as [|[k|] fs]; cbn.
  - rewrite Hr. by apply (HQ w').
  - by apply (HQ w).
  - change (set_faults fs (set_faults (None :: fs) w)) with (set_faults fs w). rewrite Hr. by apply (HQ w').
Qed.

(** A part of the state, and a state that a call drops. *)
Lemma surviving_io {T A} (Q : T * World -> Prop) (m : M World A) t w : surviving (fun w => Q (t, w)) m w ->
  surviving Q (zoom snd (fun w (s : T * World) => (fst s, w)) m) (t, w).
Proof.
  intros Hm j k. destruct (Hm j k) as [N HN]. exists N. intros n Hn. specialize (HN n Hn). unfold zoom. cbn in *.
  by destruct (m (set_faults (killed_at j k n) w)).
Qed.
Lemma surviving_scoped {T A} (Q : World -> Prop) (m : M (T * World) A) t w : surviving (fun s => Q (snd s)) m (t, w) ->
  surviving Q (scoped m t) w.
Proof.
  intros Hm j k. destruct (Hm j k) as [N HN]. exists N. intros n Hn. specialize (HN n Hn). unfold scoped. cbn in *.
  by destruct (m (t, set_faults (killed_at j k n) w)) as [[a|e|p|] [t' w']].
Qed.

(** ** Programs that only read

    Whichever of their calls fail. *)

Definition same_disk {S} `{Fs S} (s s' : S) : Prop := disk s' = disk s.
#[export] Instance same_disk_preorder {S} `{Fs S} : PreOrder (same_disk (S := S)).
Proof. unfold same_disk. split; [done|]. intros x y z H1 H2. congruence. Qed.

Lemma disk_zoom {S T A} `{Fs S} `{Fs T} (g : S -> T) (p : T -> S -> S) (m : M T A) :
  (forall s, disk (g s) = disk s) -> (forall t s, disk (p t s) = disk t) -> steps same_disk m -> steps same_disk (zoom g p m).
Proof.
  intros Hg Hp Hm s. specialize (Hm (g s)). unfold same_disk, zoom in *. rewrite Hg in Hm. destruct (m (g s)) as [r t]. cbn in *.
  by rewrite Hp.
Qed.
Lemma disk_io {T A} (m : M World A) : steps same_disk m -> steps same_disk (zoom snd (fun w (s : T * World) => (fst s, w)) m).
Proof. by apply disk_zoom. Qed.
Lemma disk_scoped {S T A} `{Fs S} (m : M (T * S) A) t : steps same_disk m -> steps same_disk (scoped m t).
Proof. intros Hm s. specialize (Hm (t, s)). unfold scoped. by destruct (m (t, s)) as [[a|e|p|] [t' s']]. Qed.
Lemma disk_modify {S} `{Fs S} (g : S -> S) : (forall s, disk (g s) = disk s) -> steps same_disk (modify g).
Proof. intros Hg. apply steps_modify. intros s. apply Hg. Qed.

Lemma disk_next_fault : steps same_disk next_fault.
Proof. intros w. unfold next_fault. by destruct (faults w). Qed.
#[export] Hint Resolve disk_io disk_scoped disk_next_fault : steps.
#[export] Hint Extern 2 (steps same_disk (modify _)) => (apply disk_modify; done) : steps.
Lemma disk_syscall {A} (m : M World A) : steps same_disk m -> steps same_disk (syscall m).
Proof. intros Hm. unfold syscall. steps_tac. Qed.
#[export] Hint Resolve disk_syscall : steps.
Lemma disk_open_fd f : steps same_disk (open_fd f).
Proof. intros w. unfold open_fd. by repeat case_match. Qed.
#[export] Hint Resolve disk_open_fd : steps.
Lemma disk_ReadAt f n off : steps same_disk (File_ReadAt f n off).
Proof. unfold File_ReadAt. steps_bind_tac; [auto with steps|]. apply disk_syscall. case_match; steps_tac. Qed.
Lemma disk_Seek f off wh : steps same_disk (File_Seek f off wh).
Proof. unfold File_Seek, set_pos. steps_bind_tac; [auto with steps|]. apply disk_syscall. steps_bind_tac; [steps_tac|]. cbv zeta. steps_tac. Qed.
Lemma disk_Size f : steps same_disk (File_Size f).
Proof. unfold File_Size. steps_tac. Qed.
Lemma disk_Sync f : steps same_disk (File_Sync f).
Proof. unfold File_Sync. steps_tac. Qed.
Lemma disk_Close f : steps same_disk (File_Close f).
Proof. unfold File_Close. steps_tac. Qed.
Lemma disk_MkdirAll p : steps same_disk (MkdirAll p).
Proof. unfold MkdirAll. steps_tac. Qed.
Lemma disk_ReadFile p : steps same_disk (ReadFile p).
Proof. apply disk_syscall. intros w. by case_match. Qed.
Lemma disk_Open p : steps same_disk (Os.Open p).
Proof. apply disk_syscall. intros w. cbn. by repeat case_match. Qed.
#[export] Hint Resolve disk_ReadAt disk_Seek disk_Size disk_Sync disk_Close disk_MkdirAll disk_ReadFile disk_Open : steps.

Lemma same_disk_eq {S A} `{Fs S} (m : M S A) s r s' : steps same_disk m -> m s = (r, s') -> disk s' = disk s.
Proof. intros Hm Hrun. specialize (Hm s). by rewrite Hrun in Hm. Qed.
Lemma reading_survives {S A} `{Fs S} (Q : S -> Prop) (m : M S A) s :
  (forall s s', disk s' = disk s -> Q s -> Q s') -> steps same_disk m -> Q s -> surviving Q m s.
Proof. intros HQ Hm Hs. apply tolerating_surviving. intros fs. apply (HQ (sched fs s)); [apply Hm|]. apply (HQ s); [apply disk_sched|done]. Qed.
