(* ===== verification/KillParts.v ===== *)
(** * KillParts: the packages when the process is killed

    The programs of the packages wal, sstable, compact, manifest and filelock
    are mortal ([Kill]).  Besides, whichever calls fail: taking a lock touches
    no file but the lock's, a merge none but its output, and recovery cuts a
    torn tail off the log or changes nothing. *)

From Stdlib Require Import ZArith Lia Strings.Byte.
From stdpp Require Import base decidable list gmap strings numbers.
From S2P Require Import Prelude Varint Bloom ByteUtil Os OsFacts OsFaults Kill Wal SSTable SSTableFacts SSTableWriter Manifest ManifestFacts ManifestProps Faults FileLock Heap Compact.
Import stdpp.list_basics stdpp.list_relations.
#[local] Open Scope Z_scope.

(** ** Tables *)

Lemma mortal_fail_closing {A} f e : mortal (fail_closing (A := A) f e).
Proof. unfold fail_closing. mortal_tac. Qed.
#[export] Hint Resolve mortal_fail_closing : mortal.
Lemma mortal_or_close {A} f (m : M World A) : mortal m -> mortal (or_close f m).
Proof. intros Hm. unfold or_close. mortal_tac. Qed.
#[export] Hint Resolve mortal_or_close : mortal.
Lemma mortal_table_Open p : mortal (SSTable.Open p).
Proof. unfold SSTable.Open, Os.Open. mortal_tac. Qed.
Lemma mortal_readBlock r rec : mortal (readBlock r rec).
Proof. unfold readBlock. mortal_tac. Qed.
#[export] Hint Resolve mortal_table_Open mortal_readBlock : mortal.

Lemma mortal_next_block fuel r : forall it, mortal (SSTable.Iterator.next_block fuel r it).
Proof. induction fuel as [|fuel IH]; intros it; cbn [SSTable.Iterator.next_block]; mortal_tac. Qed.
#[export] Hint Resolve mortal_next_block : mortal.
Lemma mortal_Next r it : mortal (SSTable.Iterator.Next r it).
Proof. unfold SSTable.Iterator.Next. mortal_tac. Qed.
#[export] Hint Resolve mortal_Next : mortal.
Lemma mortal_NewIterator r : mortal (SSTable.Iterator.NewIterator r).
Proof. apply mortal_Next. Qed.
#[export] Hint Resolve mortal_NewIterator : mortal.

Section writer.
Context {F : Type} `{Float64 F}.

Lemma mortal_get_w {A} (g : Writer F -> A) : mortal (get_w g).
Proof. by apply mortal_gets. Qed.
Lemma mortal_upd_w (g : Writer F -> Writer F) : mortal (upd_w g).
Proof. by apply mortal_modify. Qed.
Lemma mortal_w_io {A} (m : M World A) : mortal m -> mortal (SSTable.io (F := F) m).
Proof. apply mortal_io. Qed.
Hint Resolve mortal_get_w mortal_upd_w mortal_w_io : mortal.

Lemma mortal_flushBlock : mortal (flushBlock (F := F)).
Proof. unfold flushBlock. mortal_tac. Qed.
Hint Resolve mortal_flushBlock : mortal.
Lemma mortal_Add e : mortal (SSTable.Add (F := F) e).
Proof. unfold SSTable.Add. mortal_tac. Qed.
Lemma mortal_Finish : mortal (Finish (F := F)).
Proof. unfold Finish. mortal_tac. Qed.
Lemma mortal_Abort : mortal (Abort_ (F := F)).
Proof. unfold Abort_. mortal_tac. Qed.
Lemma mortal_Create p o : mortal (Create (F := F) p o).
Proof. unfold Create. mortal_tac. Qed.
Hint Resolve mortal_Add mortal_Finish mortal_Abort mortal_Create : mortal.
Lemma mortal_add_all es : mortal (add_all (F := F) es).
Proof. induction es as [|e es IH]; cbn [add_all]; mortal_tac. Qed.
Hint Resolve mortal_add_all : mortal.
Lemma mortal_table_WriteFile p es o : mortal (SSTable.WriteFile (F := F) p es o).
Proof. unfold SSTable.WriteFile. mortal_tac. Qed.

(** ** Merges *)

Lemma mortal_close_reader r : mortal (close_reader r).
Proof.
  unfold close_reader, SSTable.Close. cbn. destruct (rf r) as [f|]; [|apply (mortal_ret r)].
  eapply mortal_ext; [|apply (mortal_map (File_Close f) (fun _ => Ok (mkReader None (rpath r) (rindex r) (rbloom r) (rmaxSeq r)
    (rentries r) (rminKey r) (rmaxKey r) (rfileSize r)))); auto with mortal].
  intros w. cbn. by destruct (File_Close f w).
Qed.
Hint Resolve mortal_close_reader : mortal.
Lemma mortal_close_all rs : mortal (close_all rs).
Proof. induction rs as [|r rs IH]; cbn [close_all]; mortal_tac. Qed.
Hint Resolve mortal_close_all : mortal.
Lemma mortal_open_all inputs : forall rs, mortal (open_all rs inputs).
Proof. induction inputs as [|i inputs IH]; intros rs; cbn [open_all]; mortal_tac. Qed.
Hint Resolve mortal_open_all : mortal.

(** [closing] is a sequence of two programs, the outcome being that of the first. *)
Lemma mortal_closing {A} rs (m : M World A) : mortal m -> mortal (closing rs m).
Proof.
  intros Hm. eapply mortal_ext; [|apply (mortal_bind (fun w => let (r, w') := m w in (Ok r, w'))
    (fun r w => let (_, w') := close_all rs w in (r, w')))].
  - intros w. unfold closing, mbind, M_bind. by destruct (m w).
  - by apply (mortal_map m Ok).
  - intros r. by apply (mortal_map (close_all rs) (fun _ => r)), mortal_close_all.
Qed.
Hint Resolve mortal_closing : mortal.

Lemma mortal_start rs : forall i its h, mortal (start i rs its h).
Proof. induction rs as [|r rs IH]; intros i its h; cbn [start]; mortal_tac. Qed.
Hint Resolve mortal_start : mortal.
Lemma mortal_merge_loop fuel o rs : forall its h lk kept dropped, mortal (merge_loop (F := F) fuel o rs its h lk kept dropped).
Proof. induction fuel as [|fuel IH]; intros its h lk kept dropped; cbn [merge_loop]; mortal_tac. Qed.
Hint Resolve mortal_merge_loop : mortal.
Lemma mortal_MergeFiles inputs out o : mortal (MergeFiles (F := F) inputs out o).
Proof. unfold MergeFiles. mortal_tac. apply mortal_closing. mortal_tac. Qed.
Hint Resolve mortal_MergeFiles : mortal.
Lemma mortal_CompactDir {T} d files (alloc : M (T * World) string) o : mortal alloc -> mortal (CompactDir (F := F) d files alloc o).
Proof. intros Ha. unfold CompactDir. mortal_tac. Qed.
End writer.
#[export] Hint Resolve mortal_table_WriteFile mortal_close_reader mortal_close_all mortal_CompactDir : mortal.

(** ** The manifest *)

Section manifest.
Context {J : Json} {JO : JsonOk J}.

Lemma mortal_sync_dir : mortal sync_dir.
Proof. unfold sync_dir. mortal_tac. Qed.
Lemma mortal_upd_state g : mortal (upd_state g).
Proof. by apply mortal_modify. Qed.
Lemma mortal_get_state {A} (g : State -> A) : mortal (get_state g).
Proof. by apply mortal_gets. Qed.
Hint Resolve mortal_sync_dir mortal_upd_state mortal_get_state : mortal.
Lemma mortal_persist : mortal persistLocked.
Proof. unfold persistLocked. apply mortal_bind; [apply mortal_gets; intros fs s; apply now_blind|]. mortal_tac. Qed.
Hint Resolve mortal_persist : mortal.
Lemma mortal_AllocFileName : mortal AllocFileName.
Proof. unfold AllocFileName. mortal_tac. Qed.
Lemma mortal_Replace rm add seq : mortal (Replace rm add seq).
Proof. unfold Replace. mortal_tac. Qed.
Lemma mortal_AddFile fm seq : mortal (AddFile fm seq).
Proof. unfold AddFile. mortal_tac. Qed.
Lemma mortal_now {B} (k : string -> M World B) : (forall t, mortal (k t)) -> mortal (gets now ≫= k).
Proof. intros Hk. apply mortal_bind; [apply mortal_gets; intros fs w; apply now_blind|exact Hk]. Qed.
Lemma mortal_manifest_Open d : mortal (Manifest.Open d).
Proof.
  unfold Manifest.Open. apply mortal_bind; [auto with mortal|]. intros _. cbv zeta. apply mortal_bind; [auto with mortal|].
  intros [data|e]; [|case_match]; [apply mortal_now|apply mortal_now|]; mortal_tac.
Qed.

(** As [AddFile] in [Faults]. *)
Lemma follows_Replace rm add seq : follows calmed2 (Replace rm add seq).
Proof.
  unfold Replace. repeat (apply follows_bind; [by apply follows_modify|intros ?]). apply follows_persist.
Qed.
Lemma Replace_aside rm add seq m w r m' w' : names_ok w -> Replace rm add seq (m, w) = (r, (m', w')) -> r <> Ok tt ->
  aside (Manifest.path m ++ tmpSuffix)%string w w'.
Proof.
  intros H0 H Hr. unfold Replace in H.
  set (m1 := mkManifest (Manifest.dir m) (Manifest.path m) (set_files (filter (fun f => Manifest.Name f ∉ rm) (files (state m)) ++ add) (state m))).
  set (m2 := mkManifest (Manifest.dir m) (Manifest.path m) (bump seq (state m1))).
  rewrite (M_bind_Ok _ _ _ tt (m1, w)), (M_bind_Ok _ _ _ tt (m2, w)) in H by done.
  by destruct (persist_cases m2 w _ _ _ H0 H) as [_ [[-> _]|[_ A]]].
Qed.
End manifest.
#[export] Hint Resolve mortal_AllocFileName mortal_Replace mortal_AddFile mortal_manifest_Open : mortal.

(** ** The log *)

Lemma mortal_get_log {A} (g : Wal.Log -> A) : mortal (Wal.get_log g).
Proof. by apply mortal_gets. Qed.
Lemma mortal_upd_log g : mortal (Wal.upd_log g).
Proof. by apply mortal_modify. Qed.
Lemma mortal_log_io {A} (m : M World A) : mortal m -> mortal (Wal.io m).
Proof. apply mortal_io. Qed.
#[export] Hint Resolve mortal_get_log mortal_upd_log mortal_log_io : mortal.

Lemma mortal_scan_loop fuel fl size : forall off mx, mortal (Wal.scan_loop fuel fl size off mx).
Proof. induction fuel as [|fuel IH]; intros off mx; cbn [Wal.scan_loop]; mortal_tac. Qed.
#[export] Hint Resolve mortal_scan_loop : mortal.
Lemma mortal_scanValidPrefix fl size : mortal (Wal.scanValidPrefix fl size).
Proof. unfold Wal.scanValidPrefix. mortal_tac. Qed.
#[export] Hint Resolve mortal_scanValidPrefix : mortal.
Lemma mortal_recoverTail : mortal Wal.recoverTail.
Proof. unfold Wal.recoverTail. mortal_tac. Qed.
#[export] Hint Resolve mortal_recoverTail : mortal.
Lemma mortal_wal_Open d o : mortal (Wal.Open d o).
Proof. unfold Wal.Open. mortal_tac. Qed.
Lemma mortal_wal_Close : mortal Wal.Close.
Proof. unfold Wal.Close. mortal_tac. Qed.
Lemma mortal_Reset : mortal Wal.Reset.
Proof. unfold Wal.Reset, Wal.unless_closed. mortal_tac. Qed.
Lemma mortal_SetNextSeq n : mortal (Wal.SetNextSeq n).
Proof. apply mortal_upd_log. Qed.
#[export] Hint Resolve mortal_wal_Open mortal_wal_Close mortal_Reset mortal_SetNextSeq : mortal.

Section replay.
Context {A : Type} (fn : Wal.Record_ -> M A unit).

Lemma mortal_io_replay {B} (m : M World B) : mortal m -> mortal (Wal.io_replay (A := A) m).
Proof. intros Hm. apply mortal_zoom; try done. by apply mortal_log_io. Qed.
Hint Resolve mortal_io_replay : mortal.
Lemma mortal_call_all recs : mortal (Wal.call_all fn recs).
Proof.
  induction recs as [|r recs IH]; cbn [Wal.call_all]; [auto with mortal|]. apply mortal_bind; [|by intros _].
  apply silent_mortal. intros [a s]. unfold zoom. cbn. destruct (fn r a) as [x a']. by exists x, (a', s).
Qed.
Hint Resolve mortal_call_all : mortal.
Lemma mortal_replay_loop fuel fl size : forall off, mortal (Wal.replay_loop fn fuel fl size off).
Proof. induction fuel as [|fuel IH]; intros off; cbn [Wal.replay_loop]; mortal_tac. Qed.
Hint Resolve mortal_replay_loop : mortal.
Lemma mortal_Replay : mortal (Wal.Replay fn).
Proof.
  assert (forall l, mortal (_ ← Wal.io_replay (A := A) (File_Seek (Wal.f l) 0 SeekStart);
    Wal.replay_loop fn (S (Z.to_nat (Wal.size l))) (Wal.f l) (Wal.size l) 0;;
    _ ← Wal.io_replay (A := A) (File_Seek (Wal.f l) (Wal.size l) SeekStart); mret tt)) as Hm by (intros l; mortal_tac).
  apply (mortal_ext (l ← gets (fun s => fst (snd s)); if Wal.closed l then throw Wal.ErrClosed else
    _ ← Wal.io_replay (A := A) (File_Seek (Wal.f l) 0 SeekStart);
    Wal.replay_loop fn (S (Z.to_nat (Wal.size l))) (Wal.f l) (Wal.size l) 0;;
    _ ← Wal.io_replay (A := A) (File_Seek (Wal.f l) (Wal.size l) SeekStart); mret tt)).
  - intros s. unfold Wal.Replay, gets. rewrite (M_bind_Ok _ _ _ (fst (snd s)) s) by done. by destruct (Wal.closed (fst (snd s))).
  - apply mortal_bind; [by apply mortal_gets|]. intros l. destruct (Wal.closed l); auto with mortal.
Qed.
End replay.
#[export] Hint Resolve mortal_Replay : mortal.

(** ** The lock *)

(** The clock and the ages of files do not depend on which calls will fail. *)
Class ClockOk (E : FileLock.Env) : Prop := {
  time_blind fs w : FileLock.time_text (set_faults fs w) = FileLock.time_text w;
  since_blind fs w p : FileLock.since (set_faults fs w) p = FileLock.since w p
}.
#[export] Instance demo_clock age : ClockOk (FileLock.demo_env age).
Proof. by split. Qed.

Section lock.
Context {E : FileLock.Env} {CO : ClockOk E}.

Lemma mortal_get_l {A} (g : FileLock.Lock -> A) : mortal (FileLock.get_l g).
Proof. by apply mortal_gets. Qed.
Lemma mortal_upd_l g : mortal (FileLock.upd_l g).
Proof. by apply mortal_modify. Qed.
Lemma mortal_l_io {A} (m : M World A) : mortal m -> mortal (FileLock.io m).
Proof. apply mortal_io. Qed.
Hint Resolve mortal_get_l mortal_upd_l mortal_l_io : mortal.

Lemma mortal_fill fd : mortal (FileLock.fill fd).
Proof.
  unfold FileLock.fill. apply mortal_bind; [auto with mortal|]. intros p. apply mortal_bind.
  - apply mortal_gets. intros fs s. unfold FileLock.lock_content. cbn. by rewrite time_blind.
  - intros c. mortal_tac.
Qed.
Lemma mortal_maybeRemoveStale p age : mortal (FileLock.maybeRemoveStale p age).
Proof.
  unfold FileLock.maybeRemoveStale, FileLock.is_stale. apply mortal_bind; [|mortal_tac].
  apply mortal_bind; [apply mortal_try, mortal_syscall; intros w; cbn; destruct (names w !! p); by eexists _, w|].
  intros [u|e]; [|auto with mortal]. apply mortal_bind; [apply mortal_gets; intros fs w; apply since_blind|auto with mortal].
Qed.
Hint Resolve mortal_fill mortal_maybeRemoveStale : mortal.
Lemma mortal_tryOnce o : mortal (FileLock.tryOnce o).
Proof. unfold FileLock.tryOnce. mortal_tac. Qed.
Hint Resolve mortal_tryOnce : mortal.
Lemma mortal_Acquire d : mortal (FileLock.Acquire 1 d None).
Proof. unfold FileLock.Acquire. cbv zeta. change (FileLock.Timeout (FileLock.normalize None) <=? 0) with true. mortal_tac. Qed.
(** [Release] of a lock is a method of the lock. *)
Lemma mortal_Release : mortal FileLock.Release.
Proof.
  set (body := (h ← FileLock.get_l FileLock.held;
    if negb h then throw FileLock.ErrNotHeld
    else
      fd ← FileLock.get_l FileLock.f;
      first ← match fd with
        | None => mret None
        | Some fd =>
            r ← try_ (FileLock.io (File_Close fd));
            FileLock.upd_l (fun l => FileLock.set_file None (FileLock.held l) l);;
            mret (match r with inr e => Some e | inl _ => None end)
        end;
      p ← FileLock.get_l FileLock.path;
      r ← try_ (FileLock.io (Remove p));
      let first := match r with
        | inr e => if negb (IsNotExist e) && bool_decide (first = None) then Some e else first
        | inl _ => first
        end in
      FileLock.upd_l (fun l => FileLock.set_file (FileLock.f l) false l);;
      match first with Some e => throw e | None => mret tt end) : FileLock.ML unit).
  assert (mortal body) as Hb by (unfold body, FileLock.ML; mortal_tac).
  apply (mortal_ext (l ← gets fst; match l with
    | None => mret tt
    | Some l => zoom (fun s => (l, snd s)) (fun t _ => (Some (fst t), snd t)) body
    end)).
  - intros [[l|] w]; [|done]. rewrite (M_bind_Ok _ _ _ (Some l) (Some l, w)) by done. unfold FileLock.Release. fold body.
    unfold zoom. cbn [fst snd]. by destruct (body (l, w)) as [r [l' w']].
  - apply mortal_bind; [by apply mortal_gets|]. intros [l|]; [|auto with mortal]. by apply mortal_zoom.
Qed.
End lock.
#[export] Hint Resolve mortal_Acquire mortal_Release : mortal.

(** ** Taking the lock, whichever calls fail *)

Section taking.
Context {E : FileLock.Env} (p : string) (w0 : World) (fd : nat).

(** The lock of [p] while its file is written to. *)
Definition holder (s : FileLock.Lock * World) : Prop := FileLock.path (fst s) = p /\ owner [p] w0 fd (snd s).

Lemma holder_io {A} (m : M World A) : steps (keeping (owner [p] w0 fd)) m -> steps (keeping holder) (FileLock.io m).
Proof. intros Hm [l w] [Hp Ho]. specialize (Hm w Ho). unfold FileLock.io, zoom. cbn in *. destruct (m w). by split. Qed.
Lemma holder_path {A} (k : string -> FileLock.ML A) : steps (keeping holder) (k p) -> steps (keeping holder) (FileLock.get_l FileLock.path ≫= k).
Proof. intros Hk [l w] [Hp Ho]. rewrite (M_bind_Ok _ _ _ p (l, w)) by (by rewrite <- Hp). apply Hk. by split. Qed.
Hint Resolve holder_io : steps.

Lemma holder_fill : steps (keeping holder) (FileLock.fill fd).
Proof.
  assert (p ∈ [p]) as Hp by by left. unfold FileLock.fill. apply holder_path.
  assert (steps (keeping holder) (FileLock.upd_l (FileLock.set_file (Some fd) true))) as Hu
    by (apply steps_modify; intros s Hs; exact Hs).
  unfold FileLock.ML in *. steps_tac.
Qed.
End taking.

(** A call that only looks. *)
Lemma within_same ps w0 w w' : within ps w0 w -> same_files w w' -> fds w' = fds w -> within ps w0 w'.
Proof. intros W [Hn Hi] Hf. etrans; [exact W|]. split; [by rewrite Hn|rewrite Hn; auto|]. split; by rewrite ?Hi, ?Hf. Qed.

(** Creating a file exclusively: it is a new one. *)
Lemma create_owner ps w0 p w r w' :
  within ps w0 w -> p ∈ ps -> OpenFile p FileLock.create_flags w = (r, w') ->
  within ps w0 w' /\ forall f, r = Ok f -> owner ps w0 f w'.
Proof.
  intros W Hp Ho. destruct (decide (is_Some (names w !! p))) as [[i Hi]|Hno].
  - apply syscall_cases in Ho as [(-> & Hs & Hf)|(w1 & Hs & Hf & Ho)]; [split; [by eapply within_same|done]|].
    cbn in Ho. pose proof Hs as [Hn _]. rewrite Hn, Hi in Ho. injection Ho as <- <-. split; [by eapply within_same|done].
  - apply eq_None_not_Some in Hno. destruct (open_owner ps w p _ w r w' (reflexivity w) Hp Hno Ho) as [W1 O1].
    split; [by etrans|]. intros f Hf. destruct (O1 f Hf) as [_ Of Oi]. pose proof (grows_length _ _ (wi_grows _ _ _ W)) as Hl.
    split; [by etrans| |].
    + destruct (wi_grows _ _ _ W) as [_ G2]. destruct (decide (length (fds w0) = 0)%nat) as [?|?]; [lia|].
      destruct (lookup_lt_is_Some_2 (fds w0) (length (fds w0) - 1)) as [x Hx]; [lia|]. apply G2, lookup_lt_Some in Hx. lia.
    + intros d Hd. specialize (Oi d Hd). lia.
Qed.

Lemma maybeRemoveStale_within {E : FileLock.Env} p age w0 w r w' :
  within [p] w0 w -> FileLock.maybeRemoveStale p age w = (r, w') -> within [p] w0 w'.
Proof.
  intros W Hrun. unfold FileLock.maybeRemoveStale in Hrun.
  assert (Hstat: forall x w1, try_ (FileLock.Stat p) w = (x, w1) -> within [p] w0 w1).
  { intros x w1 [x0 H1]%try_inv. apply syscall_cases in H1 as [(_ & Hs & Hf)|(w2 & Hs & Hf & H1)]; [by eapply within_same|].
    assert (w1 = w2) as -> by (cbn in H1; by destruct (names w2 !! p); injection H1 as _ <-). by eapply within_same. }
  assert (Hs: forall x w1, FileLock.is_stale p age w = (x, w1) -> within [p] w0 w1).
  { intros x w1. unfold FileLock.is_stale. intros [(z & w2 & H2%Hstat & H3)|(z & H2%Hstat & _)]%bind_inv; [|done].
    destruct z; [|by injection H3 as _ <-]. apply bind_inv in H3 as [(q & w3 & [= _ <-] & [= _ <-])|(q & [= _ <-] & _)]; done. }
  apply bind_inv in Hrun as [(y & w1 & H1%Hs & Hrun)|(y & H1%Hs & _)]; [|done]. destruct y; [|by injection Hrun as _ <-].
  apply bind_inv in Hrun as [(z & w2 & [z0 H2]%try_inv & [= _ <-])|(z & [z0 H2]%try_inv & _)]; apply within_Remove in H2; by etrans.
Qed.

(** Whether the lock is taken, refused, or taken over from a stale file. *)
Lemma tryOnce_within {E : FileLock.Env} o l w w0 r s' (p := FileLock.path l) :
  within [p] w0 w -> FileLock.held l = false -> FileLock.tryOnce o (l, w) = (r, s') -> within [p] w0 (snd s').
Proof.
  intros W Hh Hrun. assert (p ∈ [p]) as Hin by by left. unfold FileLock.tryOnce in Hrun.
  rewrite (M_bind_Ok _ _ _ (FileLock.held l) (l, w)), Hh, (M_bind_Ok _ _ _ p (l, w)) in Hrun by done.
  assert (Hfill: forall w1 fd w2 r1 s2, within [p] w0 w1 -> OpenFile p FileLock.create_flags w1 = (Ok fd, w2) ->
    FileLock.fill fd (l, w2) = (r1, s2) -> within [p] w0 (snd s2)).
  { intros w1 fd w2 r1 s2 W1 Ho Hf. destruct (create_owner _ _ _ _ _ _ W1 Hin Ho) as [_ O2].
    pose proof (holder_fill p w0 fd (l, w2) (conj eq_refl (O2 fd eq_refl))) as Hk. rewrite Hf in Hk. apply (ow_within _ _ _ _ (proj2 Hk)). }
  apply try_bind_inv in Hrun as [(fd & s1 & (w1 & -> & H1)%io_inv & Hrun)|(r0 & s1 & (w1 & -> & H1)%io_inv & _ & Hrun)]; [by eapply (Hfill w)|].
  destruct (create_owner _ _ _ _ _ _ W Hin H1) as [W1 _]. destruct Hrun as [[e Hrun]| ->]; [|done].
  destruct (negb (IsExist e)); [by injection Hrun as _ <-|].
  apply bind_inv in Hrun as [(st & s2 & (w2 & -> & H2)%io_inv & Hrun)|(x & (w2 & -> & H2)%io_inv & _)];
    apply (maybeRemoveStale_within _ _ _ _ _ _ W1) in H2; [|done].
  destruct st; [|by injection Hrun as _ <-].
  apply try_bind_inv in Hrun as [(fd & s3 & (w3 & -> & H3)%io_inv & Hrun)|(r3 & s3 & (w3 & -> & H3)%io_inv & _ & Hrun)]; [by eapply (Hfill w2)|].
  destruct (create_owner _ _ _ _ _ _ H2 Hin H3) as [W3 _]. destruct Hrun as [[e' Hrun]| ->]; [|done].
  destruct (IsExist e'); by injection Hrun as _ <-.
Qed.

Lemma Acquire_within {E : FileLock.Env} d w r w' :
  FileLock.Acquire 1 d None w = (r, w') -> within [filepath_Join d FileLock.defaultLockName] w w'.
Proof.
  intros Hrun. unfold FileLock.Acquire in Hrun. cbv zeta in Hrun. change (FileLock.Timeout (FileLock.normalize None) <=? 0) with true in Hrun.
  change (FileLock.Name (FileLock.normalize None)) with FileLock.defaultLockName in Hrun. set (p := filepath_Join d FileLock.defaultLockName) in *.
  destruct (d =? "")%string; [by injection Hrun as _ <-|].
  assert (Hm: forall u w1, MkdirAll d w = (u, w1) -> within [p] w w1).
  { intros u w1 [Hs Hf]%syscall_ret_same. by eapply within_same. }
  apply bind_inv in Hrun as [(u & w1 & Hw%Hm & Hrun)|(r1 & Hw%Hm & _)]; [|done].
  set (l := FileLock.mkLock _ _ _ _ _ _) in Hrun. unfold mbind, M_bind, scoped in Hrun.
  destruct (FileLock.tryOnce (FileLock.normalize None) (l, w1)) as [r2 [l2 w2]] eqn:H2.
  apply (tryOnce_within _ l w1 w) in H2; [|done|done]. by destruct r2; injection Hrun as _ <-.
Qed.

(** ** Reading, whichever calls fail *)

Lemma disk_closing {A} f e : steps same_disk (fail_closing (A := A) f e).
Proof. unfold fail_closing. steps_tac. Qed.
#[export] Hint Resolve disk_closing : steps.
Lemma disk_or_close {A} f (m : M World A) : steps same_disk m -> steps same_disk (or_close f m).
Proof. intros Hm. unfold or_close. steps_tac. Qed.
#[export] Hint Resolve disk_or_close : steps.
Lemma disk_table_Open p : steps same_disk (SSTable.Open p).
Proof. unfold SSTable.Open. steps_tac. Qed.
Lemma disk_table_Close : steps same_disk SSTable.Close.
Proof.
  intros [r w]. unfold SSTable.Close. cbn. destruct (rf r) as [f|]; [|done]. pose proof (disk_Close f w) as Hc. by destruct (File_Close f w).
Qed.
#[export] Hint Resolve disk_table_Open disk_table_Close : steps.
Lemma disk_close_reader r : steps same_disk (close_reader r).
Proof. intros w. pose proof (disk_table_Close (r, w)) as Hc. unfold close_reader. by destruct (SSTable.Close (r, w)) as [x [r' w']]. Qed.
#[export] Hint Resolve disk_close_reader : steps.
Lemma disk_close_all rs : steps same_disk (close_all rs).
Proof. induction rs as [|r rs IH]; cbn [close_all]; steps_tac. Qed.
#[export] Hint Resolve disk_close_all : steps.

Lemma disk_log_io {A} (m : M World A) : steps same_disk m -> steps same_disk (Wal.io m).
Proof. apply disk_io. Qed.
Lemma disk_log_upd g : steps same_disk (Wal.upd_log g).
Proof. by apply disk_modify. Qed.
Lemma disk_log_get {A} (g : Wal.Log -> A) : steps same_disk (Wal.get_log g).
Proof. apply (steps_gets same_disk). Qed.
#[export] Hint Resolve disk_log_io disk_log_upd disk_log_get : steps.
Lemma disk_wal_Close : steps same_disk Wal.Close.
Proof. unfold Wal.Close, Wal.MLog. steps_tac. Qed.
Lemma disk_scan_loop fuel fl size : forall off mx, steps same_disk (Wal.scan_loop fuel fl size off mx).
Proof. induction fuel as [|fuel IH]; intros off mx; cbn [Wal.scan_loop]; steps_tac. Qed.
#[export] Hint Resolve disk_wal_Close disk_scan_loop : steps.
Lemma disk_scanValidPrefix fl size : steps same_disk (Wal.scanValidPrefix fl size).
Proof. unfold Wal.scanValidPrefix. steps_tac. Qed.
#[export] Hint Resolve disk_scanValidPrefix : steps.

Section replaying.
Context {A : Type} (fn : Wal.Record_ -> M A unit).
Lemma disk_io_replay {B} (m : M World B) : steps same_disk m -> steps same_disk (Wal.io_replay (A := A) m).
Proof. intros Hm. apply disk_zoom; [done..|]. by apply disk_log_io. Qed.
Hint Resolve disk_io_replay : steps.
Lemma disk_call_all recs : steps same_disk (Wal.call_all fn recs).
Proof.
  induction recs as [|r recs IH]; cbn [Wal.call_all]; [apply (steps_ret same_disk)|]. apply (steps_bind same_disk); [|by intros _].
  intros [a s]. unfold zoom. cbn. by destruct (fn r a).
Qed.
Hint Resolve disk_call_all : steps.
Lemma disk_replay_loop fuel fl size : forall off, steps same_disk (Wal.replay_loop fn fuel fl size off).
Proof. induction fuel as [|fuel IH]; intros off; cbn [Wal.replay_loop]; steps_tac. Qed.
Hint Resolve disk_replay_loop : steps.
Lemma disk_Replay : steps same_disk (Wal.Replay fn).
Proof.
  intros s. unfold Wal.Replay. destruct (Wal.closed (fst (snd s))); [done|]. set (l := fst (snd s)). clearbody l. revert s.
  match goal with |- forall s, same_disk s (snd (?m s)) => enough (steps same_disk m) as Hm by exact Hm end. steps_tac.
Qed.
End replaying.
#[export] Hint Resolve disk_Replay : steps.

(** ** Recovery *)

(** Recovering the log cuts off its torn tail, or dies before that. *)
Lemma Truncate_survives (Q : World -> Prop) (HQ : forall w w', disk w' = disk w -> Q w -> Q w') w fl i p C n :
  has_file w fl i p C -> 0 <= n <= len C -> Q w -> Q (put_file fl i p (take (Z.to_nat n) C) w) -> tolerating Q (File_Truncate fl n) w.
Proof.
  intros Hf Hn H1 H2 fs. assert (has_file (sched fs w) fl i p C) as Hf' by (by destruct Hf).
  unfold File_Truncate. rewrite (M_bind_Ok _ _ _ _ _ (open_fd_file _ _ _ _ _ Hf')).
  apply (syscall_tolerating Q _ w HQ); [unfold set_content; case_match; auto with timeless|done|].
  rewrite (proj2 (Z.ltb_ge _ _)) by lia. unfold gets. rewrite (M_bind_Ok _ _ _ C w) by (cbn [Os.ino]; by rewrite (content_file _ _ _ _ _ Hf)).
  eapply HQ, H2. unfold put_file, set_content, modify, disk. cbn. do 2 f_equal.
  replace (Z.to_nat n - length C)%nat with 0%nat by lia. by rewrite app_nil_r.
Qed.

Lemma OpenFile_disk p fl i w r w' : names w !! p = Some i -> O_TRUNC fl = false -> OpenFile p fl w = (r, w') -> disk w' = disk w.
Proof.
  intros Hp Hfl Ho. unfold disk. cbn. apply syscall_cases in Ho as [(_ & [-> ->] & _)|(w1 & [Hn Hi] & _ & H)]; [done|].
  cbn in H. rewrite Hn, Hp, Hfl in H. destruct (_ && _); injection H as _ <-; cbn; congruence.
Qed.

Section recovery.
Context (Q : World -> Prop) (HQ : forall w w', disk w' = disk w -> Q w -> Q w').
Context (dir : string) (i : nat) (n : Z) (os : list Wal.op) (junk : list byte).
Let C := Wal.log_bytes n os ++ junk.
Context (Hl : len C < 2 ^ 61) (Hn : 0 <= n) (Hok : Wal.log_ok n os) (Ht : Wal.torn junk).

Lemma recoverTail_survives w path fl o : calm w -> has_file w fl i 0 C -> Q w -> Q (set_inodes (<[i := Wal.log_bytes n os]> (inodes w)) w) ->
  surviving (fun s => Q (snd s)) Wal.recoverTail (Wal.fresh_log dir path fl o (len C), w).
Proof.
  intros Hw Hf H1 H2. assert (forall s s' : Wal.Log * World, disk s' = disk s -> Q (snd s) -> Q (snd s')) as HQ2 by (intros s s'; apply HQ).
  unfold Wal.recoverTail. apply (surviving_step _ _ _ _ (len C) (Wal.fresh_log dir path fl o (len C), w)); [done|].
  case_match; [by apply reading_survives; [|apply (steps_ret same_disk)|]|].
  apply (surviving_step _ _ _ _ fl (Wal.fresh_log dir path fl o (len C), w)); [done|].
  pose proof (scan_file w fl i 0 n os junk Hw Hf Hl Hn Hok Ht) as Hscan. fold C in Hscan. set (w1 := put_file fl i 0 C w) in *.
  assert (Q w1) as HQ1. { eapply HQ, H1. unfold disk. cbn. destruct Hf as [_ Hf]. by rewrite list_insert_id. }
  apply (surviving_run _ HQ2 _ _ _ (len (Wal.log_bytes n os), Wal.last_seq 0 n os) (Wal.fresh_log dir path fl o (len C), w1)).
  - auto with mortal.
  - intros [? ?]. mortal_tac.
  - change (sched [] (Wal.fresh_log dir path fl o (len C), w)) with (Wal.fresh_log dir path fl o (len C), calmed w). rewrite calmed_calm by done.
    by apply io_run.
  - apply reading_survives; auto with steps.
  - cbv beta iota. apply (surviving_step _ _ _ _ tt (Wal.set_nextSeq (Wal.last_seq 0 n os) (Wal.fresh_log dir path fl o (len C)), w1)); [done|].
    case_match; [|apply reading_survives; [done|unfold Wal.MLog in *; steps_tac|done]].
    assert (has_file w1 fl i 0 C) as Hf1 by (by eapply put_file_has).
    assert (take (Z.to_nat (len (Wal.log_bytes n os))) C = Wal.log_bytes n os) as Htk by (rewrite Nat2Z.id; apply take_app_length).
    assert (0 <= len (Wal.log_bytes n os) <= len C) as Hle by (unfold C; rewrite length_app; lia).
    pose proof (Truncate_spec w1 fl i 0 C _ Hw Hf1 Hle) as Htr. rewrite Htk in Htr.
    assert (Q (put_file fl i 0 (Wal.log_bytes n os) w1)) as HQ3.
    { eapply HQ, H2. unfold disk. cbn. by rewrite list_insert_insert_eq. }
    eapply (surviving_run _ HQ2); [auto with mortal|intros ?; unfold Wal.MLog; mortal_tac|..].
    + change (sched [] ?s) with (fst s, calmed (snd s)). cbn [fst snd]. rewrite calmed_calm by done. by apply io_run.
    + apply surviving_io, tolerating_surviving. apply (Truncate_survives Q HQ w1 fl i 0 C); [done..|]. by rewrite Htk.
    + apply reading_survives; [done|unfold Wal.MLog; steps_tac|done].
Qed.

Lemma wal_Open_survives w o : calm w -> names w !! filepath_Join dir (Wal.FileName (Wal.normalize o)) = Some i -> inodes w !! i = Some C ->
  Q w -> Q (set_inodes (<[i := Wal.log_bytes n os]> (inodes w)) w) -> surviving Q (Wal.Open dir o) w.
Proof.
  intros Hw Hp Hi H1 H2. unfold Wal.Open. cbv zeta.
  apply (surviving_run Q HQ _ _ _ tt w); [auto with mortal|intros ?; mortal_tac| |apply reading_survives; auto with steps|].
  { change (sched [] w) with (calmed w). rewrite calmed_calm by done. unfold MkdirAll. by rewrite syscall_calm. }
  destruct (OpenFile_existing w _ i C (mkFlags true false false) Hw Hp Hi eq_refl eq_refl) as (w1 & Ho & Hw1 & Hf1 & Hn1 & Hi1).
  assert (Q w1) as HQ1 by (eapply HQ, H1; unfold disk; cbn; congruence). set (fl := length (fds w)) in *.
  apply (surviving_run Q HQ _ _ _ fl w1); [auto with mortal|intros ?; mortal_tac| | |].
  { change (sched [] w) with (calmed w). by rewrite calmed_calm. }
  { apply tolerating_surviving. intros fs. destruct (OpenFile _ _ (sched fs w)) as [r w'] eqn:Heq.
    eapply HQ, H1. by apply (OpenFile_disk _ _ i (sched fs w) r) in Heq. }
  apply (surviving_run Q HQ _ _ _ (inl (len C)) w1); [auto with mortal|intros ?; mortal_tac| |apply reading_survives; [done|steps_tac|done]|].
  { change (sched [] w1) with (calmed w1). rewrite calmed_calm by done. apply try_Ok. by eapply Size_spec. }
  pose proof (recoverTail_spec w1 dir (filepath_Join dir (Wal.FileName (Wal.normalize o))) fl (Wal.normalize o) i n os junk Hw1 Hf1 Hl Hn Hok Ht) as Hr.
  eapply (surviving_run Q HQ); [auto with mortal|intros [[[] ?]|?]; mortal_tac| | |].
  - change (sched [] w1) with (calmed w1). rewrite calmed_calm by done. apply try_Ok. unfold scoped. fold C in Hr. unfold fresh_log in Hr. by rewrite Hr.
  - apply surviving_try, surviving_scoped. apply (recoverTail_survives w1 _ fl _ Hw1 Hf1 HQ1). eapply HQ, H2. unfold disk. cbn. by rewrite Hn1, Hi1.
  - apply reading_survives; [done|apply (steps_ret same_disk)|]. eapply HQ, H2. unfold disk. cbn. by rewrite Hn1, Hi1.
Qed.
End recovery.

(** ** Merges, whichever calls fail *)

(** Reading keeps what does not depend on the schedule. *)
Lemma grows_fds w w' : grows w w' -> (length (fds w) <= length (fds w'))%nat.
Proof.
  intros [_ G]. destruct (decide (length (fds w) = 0)%nat) as [?|?]; [lia|].
  destruct (lookup_lt_is_Some_2 (fds w) (length (fds w) - 1)) as [x Hx]; [lia|]. apply G, lookup_lt_Some in Hx. lia.
Qed.

Section reads.
Context (I : World -> Prop) (HI : forall fs w, I w -> I (set_faults fs w)).

Lemma keeps_next_fault : steps (keeping I) next_fault.
Proof. intros w Hw. unfold next_fault. case_match; [done|]. by apply HI. Qed.
Hint Resolve keeps_next_fault : steps.
Lemma keeps_ReadAt f n off : steps (keeping I) (File_ReadAt f n off).
Proof.
  unfold File_ReadAt, syscall. steps_bind_tac.
  - intros w Hw. unfold open_fd. by repeat case_match.
  - cbv zeta. steps_tac.
Qed.
Hint Resolve keeps_ReadAt : steps.
Lemma keeps_readBlock r rec : steps (keeping I) (readBlock r rec).
Proof. unfold readBlock. steps_tac. Qed.
Hint Resolve keeps_readBlock : steps.
Lemma keeps_next_block fuel r : forall it, steps (keeping I) (SSTable.Iterator.next_block fuel r it).
Proof. induction fuel as [|fuel IH]; intros it; cbn [SSTable.Iterator.next_block]; steps_tac. Qed.
Hint Resolve keeps_next_block : steps.
Lemma keeps_Next r it : steps (keeping I) (SSTable.Iterator.Next r it).
Proof. unfold SSTable.Iterator.Next. steps_tac. Qed.
Hint Resolve keeps_Next : steps.
Lemma keeps_start rs : forall i its h, steps (keeping I) (start i rs its h).
Proof. induction rs as [|r rs IH]; intros i its h; cbn [start]; unfold SSTable.Iterator.NewIterator; steps_tac. Qed.
End reads.

(** Readers whose descriptors are new since [w0]. *)
Definition opened_since (w0 : World) (r : Reader) : Prop := forall g, rf r = Some g -> (length (fds w0) <= g)%nat.

(** What a program can return. *)
Definition yields {S A} (P : A -> Prop) (m : M S A) : Prop := forall s a s', m s = (Ok a, s') -> P a.
Lemma yields_bind {S A B} P (m : M S A) (g : A -> M S B) : (forall a, yields P (g a)) -> yields P (m ≫= g).
Proof. intros Hg s b s' [(a & s1 & _ & H)|(r & _ & _ & Hn)]%bind_inv; [by eapply Hg|by destruct (Hn b)]. Qed.
Lemma yields_throw {S A} P e : yields P (throw (S := S) (A := A) e).
Proof. by intros s a s'. Qed.
Lemma yields_ret {S A} (P : A -> Prop) (a : A) : P a -> yields P (mret a : M S A).
Proof. by intros Ha s b s' [= <- _]. Qed.

Lemma Open_opened p w r w' : SSTable.Open p w = (Ok r, w') -> opened_since w r.
Proof.
  unfold SSTable.Open. intros [(f & w1 & Ho & H)|(r0 & _ & _ & Hf)]%bind_inv; [|by destruct (Hf r)].
  apply Open_within in Ho as [_ Hf]. specialize (Hf f eq_refl). intros g Hg. enough (rf r = Some f) by congruence.
  revert H. match goal with |- ?m w1 = _ -> _ => enough (yields (fun r => rf r = Some f) m) as Hy by by apply Hy end.
  unfold fail_closing. repeat first [apply yields_throw | by apply yields_ret | apply yields_bind; intros ? | case_match].
Qed.

Section merging.
Context {F : Type} `{Float64 F} (out : string) (w0 : World) (H0 : names w0 !! out = None).

Lemma within_stable fs w : within [out] w0 w -> within [out] w0 (set_faults fs w).
Proof. intros W. etrans; [exact W|apply within_faults]. Qed.

(** Closing a descriptor that is new. *)
Lemma within_close g w : (length (fds w0) <= g)%nat -> within [out] w0 w -> within [out] w0 (snd (File_Close g w)).
Proof.
  intros Hg W. unfold File_Close, mbind, M_bind, open_fd. destruct (fds w !! g) as [d|]; [|done]. destruct (is_open d); [|done].
  assert (forall fs, within [out] w0 (set_faults fs (set_fds (<[g := mkFd (Os.ino d) (Os.pos d) false]> (fds w)) w))) as Hc.
  { intros fs. apply within_stable. destruct W as [N M [G1 G2]]. split; [done|done|split; [done|]]. intros h e Hh. cbn.
    rewrite list_lookup_insert_ne; [by apply G2|]. apply lookup_lt_Some in Hh. lia. }
  unfold modify, syscall, mbind, M_bind, next_fault. cbn. destruct (faults w) as [|[k|] fs] eqn:Hf; cbn; [|apply Hc..].
  specialize (Hc []). by rewrite calmed_calm in Hc.
Qed.

Lemma within_close_all rs : forall w, Forall (opened_since w0) rs -> within [out] w0 w -> within [out] w0 (snd (close_all rs w)).
Proof.
  induction rs as [|r rs IH]; intros w Hrs W; [done|]. apply Forall_cons in Hrs as [Hr Hrs]. cbn [close_all].
  unfold mbind, M_bind, close_reader, SSTable.Close. cbn. destruct (rf r) as [g|] eqn:Hg; [|by apply IH].
  pose proof (within_close g w (Hr g Hg) W) as W1. destruct (File_Close g w) as [r1 w1]. by apply IH.
Qed.

Lemma within_open_all inputs : forall rs w r w', Forall (opened_since w0) rs -> within [out] w0 w -> open_all rs inputs w = (r, w') ->
  within [out] w0 w' /\ forall rs', r = Ok rs' -> Forall (opened_since w0) rs'.
Proof.
  induction inputs as [|i inputs IH]; intros rs w r w' Hrs W Hrun; cbn [open_all] in Hrun; [by injection Hrun as <- <-; split; [|intros ? [= <-]]|].
  unfold mbind at 1, M_bind at 1, try_ in Hrun. destruct (SSTable.Open (iPath i) w) as [r1 w1] eqn:H1.
  assert (within [out] w0 w1) as W1.
  { apply SSTable_Open_within in H1. etrans; [exact W|]. eapply within_more, H1. set_solver. }
  destruct r1 as [rd|e|q|]. 3-4: by injection Hrun as <- <-.
  - eapply IH; [|exact W1|exact Hrun]. apply Forall_app. split; [done|]. apply Forall_singleton.
    intros g Hg. pose proof (Open_opened _ _ _ _ H1 g Hg). pose proof (grows_fds _ _ (wi_grows _ _ _ W)). lia.
  - pose proof (within_close_all rs w1 Hrs W1) as Wc. unfold mbind, M_bind in Hrun.
    destruct (close_all rs w1) as [[u|e1|q|] w2]; by injection Hrun as <- <-.
Qed.

Lemma own_merge_loop fl fuel o rs : forall its h lk kept dropped,
  steps (keeping (writes_own out w0 fl)) (merge_loop (F := F) fuel o rs its h lk kept dropped).
Proof.
  assert (forall r it, steps (keeping (writes_own out w0 fl)) (SSTable.io (F := F) (SSTable.Iterator.Next r it))) as Hn.
  { intros r it. apply own_io, keeps_Next. intros fs w. apply owner_faults. }
  pose proof (own_Add (F := F) out w0 fl) as Ha. pose proof (own_Abort (F := F) out w0 fl) as Hb.
  induction fuel as [|fuel IH]; intros its h lk kept dropped; cbn [merge_loop]; (case_match; [steps_tac|]); [steps_tac|].
  repeat first [ apply IH | apply Hn | apply Ha | apply Hb | solve [eauto with steps] | steps_bind_tac
    | match goal with
      | |- steps ?R (mret _) => apply (steps_ret R)
      | |- steps ?R (throw _) => apply (steps_throw R)
      | |- steps ?R (lift _) => apply (steps_lift R)
      | |- steps ?R (try_ _) => apply (steps_try R)
      end | progress cbv zeta | case_match ].
Qed.

(** A merge changes its output only. *)
Lemma MergeFiles_within inputs o w r w' : within [out] w0 w -> MergeFiles (F := F) inputs out o w = (r, w') -> within [out] w0 w'.
Proof.
  intros W Hrun. unfold MergeFiles in Hrun. destruct (_ =? 0); [by injection Hrun as <- <-|]. cbv zeta in Hrun.
  apply bind_inv in Hrun as [(rs & w1 & H1 & Hrun)|(r1 & H1 & _)]; apply within_open_all in H1 as [W1 Hrs]; [|done..].
  specialize (Hrs rs eq_refl). unfold closing in Hrun.
  destruct ((_ : M World Result) w1) as [r2 w2] eqn:H2 in Hrun.
  assert (within [out] w0 w2) as W2.
  { clear Hrun. apply bind_inv in H2 as [([its h] & w3 & H3 & H2)|(r3 & H3 & _)];
      pose proof (keeps_start (within [out] w0) within_stable rs 0 [] [] w1 W1) as W3; rewrite H3 in W3; cbn [snd] in W3; [|done].
    apply bind_inv in H2 as [(wr & w4 & H4 & H2)|(r4 & H4 & _)]; destruct (Create_within _ _ _ _ _ _ H0 W3 H4) as [W4 Hwo]; [|done].
    specialize (Hwo wr eq_refl).
    match type of H2 with (scoped ?m _ ≫= _) _ = _ => assert (steps (keeping (writes_own out w0 (wf wr))) m) as Hst end.
    { steps_bind_tac; [apply own_merge_loop|]. case_match. steps_bind_tac; [apply own_Finish|]. steps_tac. }
    apply bind_inv in H2 as [([[[me kept] dropped] wr'] & w5 & H5 & [= <- <-])|(r5 & H5 & _)]; by apply (scoped_within _ _ _ _ _ _ _ Hwo Hst H5). }
  pose proof (within_close_all rs w2 Hrs W2) as Wc. destruct (close_all rs w2) as [u w3]. by injection Hrun as <- <-.
Qed.
End merging.
