(* ===== verification/Db.v ===== *)
(** * Db: package lsmkv

    The database: opening and recovery, writes through the log into the
    memtable, flushes to tables, compaction, point lookups and iterators.
    Calls run one at a time; the read-write mutex is not modelled. *)

From Stdlib Require Import ZArith Lia Strings.Byte.
From stdpp Require Import base decidable list gmap strings numbers sorting.
From S2P Require Import Prelude Bloom ByteUtil Os Wal SkipList SSTable Manifest FileLock Compact.
#[local] Open Scope Z_scope.

Definition ErrClosed : error := errors_New "lsmkv: closed".
Definition ErrNotFound : error := errors_New "lsmkv: not found".
Definition ErrInvalid : error := errors_New "lsmkv: invalid argument".
Definition ErrReadOnly : error := errors_New "lsmkv: read only".

Inductive SyncPolicy := SyncFull | SyncBatch | SyncNone.

Record Options := mkOptions {
  MemtableBytes : Z; oSyncPolicy : SyncPolicy; SyncEveryN : Z; CompactThreshold : Z; ReadOnly : bool
}.

Definition normalize (o : option Options) : Options :=
  match o with
  | None => mkOptions (Z.shiftl 4 20) SyncFull 32 2 false
  | Some o =>
      mkOptions
        (if 0 <? MemtableBytes o then MemtableBytes o else Z.shiftl 4 20)
        (oSyncPolicy o)
        (if 0 <? SyncEveryN o then SyncEveryN o else 32)
        (if 0 <? CompactThreshold o then CompactThreshold o else 2)
        (ReadOnly o)
  end.

Definition walOpts (o : Options) : option Wal.Options :=
  Some (match oSyncPolicy o with
        | SyncNone => Wal.mkOptions 0 false ""
        | SyncBatch => Wal.mkOptions (SyncEveryN o) false ""
        | SyncFull => Wal.mkOptions 0 true ""
        end).

Record DB := mkDB {
  dir : string;
  opts : Options;
  lock : option FileLock.Lock;
  wal : Wal.Log;
  mem : MemTable.MemTable;
  manif : Manifest.Manifest;
  tables : list SSTable.Reader;
  closed : bool
}.

Definition set_lock (l : option FileLock.Lock) (d : DB) : DB :=
  mkDB (dir d) (opts d) l (wal d) (mem d) (manif d) (tables d) (closed d).
Definition set_wal (l : Wal.Log) (d : DB) : DB :=
  mkDB (dir d) (opts d) (lock d) l (mem d) (manif d) (tables d) (closed d).
Definition set_mem (m : MemTable.MemTable) (d : DB) : DB :=
  mkDB (dir d) (opts d) (lock d) (wal d) m (manif d) (tables d) (closed d).
Definition set_manif (m : Manifest.Manifest) (d : DB) : DB :=
  mkDB (dir d) (opts d) (lock d) (wal d) (mem d) m (tables d) (closed d).
Definition set_tables (ts : list SSTable.Reader) (d : DB) : DB :=
  mkDB (dir d) (opts d) (lock d) (wal d) (mem d) (manif d) ts (closed d).
Definition set_closed (c : bool) (d : DB) : DB :=
  mkDB (dir d) (opts d) (lock d) (wal d) (mem d) (manif d) (tables d) c.

(** ** Batches *)

Module WriteBatch.

Record WriteBatch := mkWriteBatch { entries : list Wal.BatchEntry }.

Definition NewWriteBatch : WriteBatch := mkWriteBatch [].
Definition Put (key value : slice) (b : WriteBatch) : WriteBatch :=
  mkWriteBatch (entries b ++ [Wal.mkBatchEntry (Clone key) (Clone value) false]).
Definition Delete (key : slice) (b : WriteBatch) : WriteBatch :=
  mkWriteBatch (entries b ++ [Wal.mkBatchEntry (Clone key) None true]).
Definition Len (b : WriteBatch) : Z := len (entries b).
Definition Clear (b : WriteBatch) : WriteBatch := mkWriteBatch [].

End WriteBatch.

(** filepath.Base, for paths without a trailing slash. *)
Definition slash : Ascii.ascii := Ascii.ascii_of_nat 47.
Fixpoint after_slash (s acc : string) : string :=
  match s with
  | EmptyString => acc
  | String c s' => after_slash s' (if Ascii.eqb c slash then s' else acc)
  end.
Definition filepath_Base (p : string) : string := if String.eqb p "" then "." else after_slash p p.

(** ** Methods of DB *)

(** Methods run on the database and the world; parts of the database run with
    the same world. *)
Abbreviation MD := (M (DB * World)).
Definition io {A} (m : M World A) : MD A := zoom snd (fun w s => (fst s, w)) m.
Definition get {A} (g : DB -> A) : MD A := gets (fun s => g (fst s)).
Definition upd (g : DB -> DB) : MD unit := modify (fun s => (g (fst s), snd s)).
Definition on_wal {A} (m : M (Wal.Log * World) A) : MD A :=
  zoom (fun s => (wal (fst s), snd s)) (fun t s => (set_wal (fst t) (fst s), snd t)) m.
Definition on_manif {A} (m : M (Manifest.Manifest * World) A) : MD A :=
  zoom (fun s => (manif (fst s), snd s)) (fun t s => (set_manif (fst t) (fst s), snd t)) m.
Definition on_lock {A} (m : M (option FileLock.Lock * World) A) : MD A :=
  zoom (fun s => (lock (fst s), snd s)) (fun t s => (set_lock (fst t) (fst s), snd t)) m.
Definition on_mem (g : MemTable.MemTable -> outcome MemTable.MemTable) : MD unit :=
  m ← get mem; m ← lift (g m); upd (set_mem m).

(** [if err := ...; err != nil && first == nil { first = err }] *)
Definition first_err {A} (first : option error) (r : A + error) : option error :=
  match first, r with None, inr e => Some e | _, _ => first end.

Section db.
Context {F : Type} `{Float64 F} {J : Manifest.Json} {E : FileLock.Env}.
(** The numbers of the memtable's random generator. *)
Context (seed : nat -> Z).

(** ** Opening *)

(** The tables opened so far are closed when one cannot be opened. *)
Fixpoint open_tables (d : string) (files : list Manifest.FileMeta) (ts : list SSTable.Reader) :
    M World (list SSTable.Reader) :=
  match files with
  | [] => mret ts
  | f :: files =>
      r ← try_ (SSTable.Open (filepath_Join d (Manifest.Name f)));
      match r with
      | inr e => Compact.close_all ts;; throw e
      | inl r => open_tables d files (ts ++ [r])
      end
  end.
Definition openTables : MD unit :=
  d ← get dir;
  files ← get (fun db => Manifest.Files (manif db));
  ts ← io (open_tables d files []);
  upd (set_tables ts).

Definition replay_record (rec : Wal.Record_) : M MemTable.MemTable unit := fun m =>
  match (if Wal.Deleted rec then MemTable.Delete (Wal.Key rec) (Wal.Seq rec) m
         else MemTable.Put (Wal.Key rec) (Wal.Value rec) (Wal.Seq rec) m) with
  | Ok m' => (Ok tt, m')
  | Err e => (Err e, m)
  | Panic p => (Panic p, m)
  | Stuck => (Stuck, m)
  end.
Definition replayWAL : MD unit :=
  zoom (fun s => (mem (fst s), (wal (fst s), snd s)))
    (fun t s => (set_mem (fst t) (set_wal (fst (snd t)) (fst s)), snd (snd t)))
    (Wal.Replay replay_record).

(** ** Flushing *)

(** The loop over the snapshot: the table's entries, and their bounds. *)
Definition flush_step (s : list SSTable.Entry * Z * slice * slice) (e : SkipList.Entry) :
    list SSTable.Entry * Z * slice * slice :=
  let '(entries, maxSeq, minKey, maxKey) := s in
  let k := SkipList.Key e in
  (entries ++ [SSTable.mkEntry k (SkipList.Value e) (SkipList.Seq e) (SkipList.Deleted e)],
   (if maxSeq <? SkipList.Seq e then SkipList.Seq e else maxSeq),
   (if is_nil minKey || (Compare (bs k) (bs minKey) <? 0) then k else minKey),
   (if is_nil maxKey || (0 <? Compare (bs k) (bs maxKey)) then k else maxKey)).

Definition flushLocked : MD unit :=
  m ← get mem;
  snap ← lift (MemTable.Snapshot m);
  if len snap =? 0 then mret tt
  else
    name ← on_manif Manifest.AllocFileName;
    d ← get dir;
    let path := filepath_Join d name in
    let '(entries, maxSeq, minKey, maxKey) := fold_left flush_step snap ([], 0, None, None) in
    meta ← io (SSTable.WriteFile path entries None);
    let fm := Manifest.mkFileMeta name 0 (Clone minKey) (Clone maxKey) maxSeq (len entries) (mFileSize meta) in
    r ← try_ (on_manif (Manifest.AddFile fm maxSeq));
    match r with
    | inr e => _ ← try_ (io (Remove path)); throw e
    | inl _ =>
        r ← io (SSTable.Open path);
        upd (fun db => set_tables (tables db ++ [r]) db);;
        upd (fun db => set_mem (MemTable.Clear (mem db)) db);;
        on_wal Wal.Reset;;
        on_wal (Wal.SetNextSeq maxSeq)
    end.

(** ** Closing *)

Fixpoint close_tables (ts : list SSTable.Reader) (first : option error) :
    M World (list SSTable.Reader * option error) :=
  match ts with
  | [] => mret ([], first)
  | t :: ts => fun w =>
      match SSTable.Close (t, w) with
      | (o, (t', w')) =>
          (r ← try_ (lift o); '(ts', first) ← close_tables ts (first_err first r); mret (t' :: ts', first)) w'
      end
  end.

Definition closeUnlocked : MD unit :=
  c ← get closed;
  if (c : bool) then mret tt
  else
    upd (set_closed true);;
    ro ← get (fun db => ReadOnly (opts db));
    n ← get (fun db => MemTable.Len (mem db));
    first ← (if negb ro && (0 <? n) then r ← try_ flushLocked; mret (first_err None r) else mret None);
    r ← try_ (on_wal Wal.Close);
    let first := first_err first r in
    ts ← get tables;
    '(ts, first) ← io (close_tables ts first);
    upd (set_tables ts);;
    l ← get lock;
    first ← match l with
      | None => mret first
      | Some _ => r ← try_ (on_lock FileLock.Release); mret (first_err first r)
      end;
    match first with Some e => throw e | None => mret tt end.

Definition Close : MD unit := closeUnlocked.

Definition Open (d : string) (o : option Options) : M World DB :=
  let o := normalize o in
  if String.eqb d "" then throw ErrInvalid
  else
    MkdirAll d;;
    lk ← FileLock.Acquire 1 d None;
    let release : M World unit :=
      fun w => match FileLock.Release (Some lk, w) with (_, (_, w')) => (Ok tt, w') end in
    mf ← try_ (Manifest.Open d);
    match mf with
    | inr e => release;; throw e
    | inl mf =>
        w ← try_ (Wal.Open d (walOpts o));
        match w with
        | inr e => release;; throw e
        | inl w =>
            let maxSeq := Manifest.MaxSeqAmongFiles mf in
            let maxSeq := if maxSeq <? Manifest.LogSeq mf then Manifest.LogSeq mf else maxSeq in
            '(_, w) ← scoped (Wal.SetNextSeq maxSeq) w;
            let db := mkDB d o (Some lk) w (MemTable.NewMemTable seed (MemtableBytes o)) mf [] false in
            '(_, db) ← scoped (
              r ← try_ openTables;
              match r with
              | inr e => _ ← try_ (on_wal Wal.Close); _ ← try_ (on_lock FileLock.Release); throw e
              | inl _ =>
                  r ← try_ replayWAL;
                  match r with
                  | inr e => _ ← try_ closeUnlocked; throw e
                  | inl _ => mret tt
                  end
              end) db;
            mret db
        end
    end.

(** ** Writes *)

(** The checks of a writing method. *)
Definition writable {A} (m : MD A) : MD A :=
  c ← get closed;
  if (c : bool) then throw ErrClosed
  else
    ro ← get (fun db => ReadOnly (opts db));
    if (ro : bool) then throw ErrReadOnly else m.

Definition maybe_flush : MD unit :=
  full ← get (fun db => MemTable.ShouldFlush (mem db));
  if (full : bool) then flushLocked else mret tt.

Definition Put (key value : slice) : MD unit :=
  if len (bs key) =? 0 then throw ErrInvalid
  else writable (
    seq ← on_wal (Wal.AppendPut key value);
    on_mem (MemTable.Put key value seq);;
    maybe_flush).

Definition Delete (key : slice) : MD unit :=
  if len (bs key) =? 0 then throw ErrInvalid
  else writable (
    seq ← on_wal (Wal.AppendDelete key);
    on_mem (MemTable.Delete key seq);;
    maybe_flush).

(** [for i, e := range batch.entries] *)
Fixpoint apply_entries (es : list Wal.BatchEntry) (first i : Z) : MD unit :=
  match es with
  | [] => mret tt
  | e :: es =>
      let seq := u64 (first + i) in
      on_mem (if Wal.bDeleted e then MemTable.Delete (Wal.bKey e) seq
              else MemTable.Put (Wal.bKey e) (Wal.bValue e) seq);;
      apply_entries es first (i + 1)
  end.

Definition Write (batch : option WriteBatch.WriteBatch) : MD unit :=
  match batch with
  | None => mret tt
  | Some b =>
      let es := WriteBatch.entries b in
      if len es =? 0 then mret tt
      else writable (
        _ ← on_wal (Wal.AppendBatch es);
        next ← get (fun db => Wal.NextSeq (wal db));
        let last := u64 (next - 1) in
        let first := u64 (u64 (last - len es) + 1) in
        apply_entries es first 0;;
        maybe_flush)
  end.

Definition Sync : MD unit :=
  c ← get closed;
  if (c : bool) then throw ErrClosed else on_wal Wal.Sync.

Definition Flush : MD unit := writable flushLocked.

(** ** Reads *)

(** [ts] in the order of the loop: newest table first. *)
Fixpoint get_loop (ts : list SSTable.Reader) (key : list byte) (best : option SSTable.Entry) :
    M World (option SSTable.Entry) :=
  match ts with
  | [] => mret best
  | t :: ts =>
      e ← SSTable.Get t key;
      match e with
      | None => get_loop ts key best
      | Some e =>
          let better := match best with None => true | Some b => SSTable.Seq b <? SSTable.Seq e end in
          get_loop ts key (if better then Some e else best)
      end
  end.

Definition Get (key : slice) : MD slice :=
  c ← get closed;
  if (c : bool) then throw ErrClosed
  else
    m ← get mem;
    e ← lift (MemTable.Get key m);
    match e with
    | Some e => if SkipList.Deleted e then throw ErrNotFound else mret (Clone (SkipList.Value e))
    | None =>
        ts ← get tables;
        best ← io (get_loop (rev ts) (bs key) None);
        match best with
        | None => throw ErrNotFound
        | Some b => if SSTable.Deleted b then throw ErrNotFound else mret (Clone (SSTable.Value b))
        end
    end.

Definition Has (key : slice) : MD bool :=
  r ← try_ (Get key);
  match r with
  | inl _ => mret true
  | inr e => if bool_decide (e = ErrNotFound) then mret false else throw e
  end.

(** ** Compaction *)

(** The loop over the tables: those merged are closed; the names to remove and
    the tables kept. *)
Fixpoint close_merged (ts : list SSTable.Reader) (removed : list string) :
    M World (list SSTable.Reader * list string * list SSTable.Reader) :=
  match ts with
  | [] => mret ([], [], [])
  | t :: ts =>
      if bool_decide (SSTable.Path t ∈ removed) then
        t' ← Compact.close_reader t;
        '(ts', rm, kept) ← close_merged ts removed;
        mret (t' :: ts', filepath_Base (SSTable.Path t) :: rm, kept)
      else
        '(ts', rm, kept) ← close_merged ts removed;
        mret (t :: ts', rm, t :: kept)
  end.

Fixpoint remove_files (ps : list string) : M World unit :=
  match ps with [] => mret tt | p :: ps => _ ← try_ (Remove p); remove_files ps end.

Definition file_ref (byPath : gmap string Manifest.FileMeta) (t : SSTable.Reader) : Compact.FileRef :=
  let fm := default (Manifest.mkFileMeta "" 0 None None 0 0 0) (byPath !! SSTable.Path t) in
  Compact.mkFileRef (SSTable.Path t) (Manifest.Name fm) (Manifest.Level fm) (SSTable.FileSize t).

(** A closed reader stays in [db.tables] until the new list replaces it. *)
Definition Compact : MD unit := writable (
  ts ← get tables;
  th ← get (fun db => CompactThreshold (opts db));
  if len ts <? th then mret tt
  else
    d ← get dir;
    files ← get (fun db => Manifest.Files (manif db));
    let byPath : gmap string Manifest.FileMeta :=
      fold_left (fun m f => <[filepath_Join d (Manifest.Name f) := f]> m) files ∅ in
    let refs := file_ref byPath <$> ts in
    res ← try_ (on_manif (Compact.CompactDir d refs Manifest.AllocFileName (Some (Compact.mkOptions false 0 0))));
    match res with
    | inr e => if bool_decide (e = Compact.ErrNoInputs) then mret tt else throw e
    | inl res =>
        '(ts', removeNames, kept) ← io (close_merged ts (Compact.Removed res));
        upd (set_tables ts');;
        out ← io (SSTable.Open (Compact.OutputPath res));
        let kept := kept ++ [out] in
        let meta := Compact.rMeta res in
        let add := [Manifest.mkFileMeta (filepath_Base (Compact.OutputPath res)) 1
          (Clone (SSTable.MinKey meta)) (Clone (SSTable.MaxKey meta)) (SSTable.mMaxSeq meta) (SSTable.mEntries meta)
          (SSTable.mFileSize meta)] in
        on_manif (Manifest.Replace removeNames add (SSTable.mMaxSeq meta));;
        io (remove_files (remove_dups (Compact.Removed res)));;
        upd (set_tables kept)
    end).

(** ** Statistics *)

Record Stats := mkStats { sMemtableBytes : Z; MemtableKeys : Z; SSTFiles : Z; WALSize : Z }.
Definition Stats_ (db : DB) : Stats :=
  mkStats (MemTable.Bytes (mem db)) (MemTable.Len (mem db)) (len (tables db)) (Wal.Size (wal db)).
Definition TableCount (db : DB) : Z := len (tables db).
Definition Dir (db : DB) : string := dir db.
Definition PathFor (db : DB) (name : string) : string := filepath_Join (dir db) name.

(** ** Iterators *)

Record iterItem := mkItem { iKey : slice; iValue : slice; iDeleted : bool; iSeq : Z }.

(** [update] of collectMerged. *)
Definition update (m : gmap (list byte) iterItem) (k v : slice) (seq : Z) (del : bool) : gmap (list byte) iterItem :=
  let c := mkItem (Clone k) (Clone v) del seq in
  match m !! bs k with
  | Some cur => if seq <=? iSeq cur then m else <[bs k := c]> m
  | None => <[bs k := c]> m
  end.

(** [for it.Valid() { update(...); it.Next() }] *)
Fixpoint merge_table (fuel : nat) (r : SSTable.Reader) (it : SSTable.Iterator.Iterator)
    (m : gmap (list byte) iterItem) : M World (gmap (list byte) iterItem) :=
  if SSTable.Iterator.Valid it then
    match fuel with
    | O => lift Stuck
    | S fuel =>
        let m := update m (SSTable.Iterator.Key it) (SSTable.Iterator.Value it) (SSTable.Iterator.Seq it)
          (SSTable.Iterator.Deleted it) in
        it ← SSTable.Iterator.Next r it;
        merge_table fuel r it m
    end
  else mret m.

Fixpoint merge_tables (ts : list SSTable.Reader) (m : gmap (list byte) iterItem) :
    M World (gmap (list byte) iterItem) :=
  match ts with
  | [] => mret m
  | t :: ts =>
      it ← SSTable.Iterator.NewIterator t;
      m ← merge_table (reader_fuel t) t it m;
      merge_tables ts m
  end.

(** sort.Strings orders strings by their bytes. *)
Definition sorted_items (m : gmap (list byte) iterItem) : list iterItem :=
  omap (m !!.) (merge_sort ble ((map_to_list (filter (fun kc => iDeleted (snd kc) = false) m)).*1)).

Definition collectMerged : MD (list iterItem) :=
  mt ← get mem;
  snap ← lift (MemTable.Snapshot mt);
  let m := fold_left (fun m e => update m (SkipList.Key e) (SkipList.Value e) (SkipList.Seq e) (SkipList.Deleted e))
    snap ∅ in
  ts ← get tables;
  m ← io (merge_tables ts m);
  mret (sorted_items m).
End db.

(** [held]: the read lock has not been released. *)
Module Iterator.

Record Iterator := mkIterator { items : list iterItem; idx : Z; held : bool }.

Definition NewIterator : MD Iterator := l ← collectMerged; mret (mkIterator l (-1) true).

Definition SeekToFirst (it : Iterator) : Iterator :=
  mkIterator (items it) (if len (items it) =? 0 then -1 else 0) (held it).
Definition Seek (target : list byte) (it : Iterator) : outcome Iterator :=
  i ← sort_Search (length (items it)) (fun i =>
        match items it !! i with Some x => 0 <=? bytes_Compare (bs (iKey x)) target | None => false end);
  let i := Z.of_nat i in
  Ok (mkIterator (items it) (if len (items it) <=? i then -1 else i) (held it)).
Definition Valid (it : Iterator) : bool := (0 <=? idx it) && (idx it <? len (items it)).
Definition Next (it : Iterator) : Iterator :=
  if idx it <? 0 then it
  else
    let i := idx it + 1 in
    mkIterator (items it) (if len (items it) <=? i then -1 else i) (held it).
Definition Key (it : Iterator) : outcome slice :=
  if negb (Valid it) then Ok None else x ← Prelude.index (items it) (idx it); Ok (Clone (iKey x)).
Definition Value (it : Iterator) : outcome slice :=
  if negb (Valid it) then Ok None else x ← Prelude.index (items it) (idx it); Ok (Clone (iValue x)).
Definition Close (it : Iterator) : Iterator := mkIterator (items it) (idx it) false.

End Iterator.
