(* ===== verification/DbProps.v ===== *)
(** * DbProps: errors and failures of package lsmkv

    Which calls are refused; and, as computed examples on a small database, what
    transient failures and odd keys do to it. *)

From Stdlib Require Import ZArith Lia QArith Strings.Byte.
From stdpp Require Import base decidable list gmap strings numbers sorting.
From S2P Require Import Prelude Bloom ByteUtil Os OsFacts Wal SkipList SSTable SSTableProps Manifest ManifestProps FileLock Compact Db.
#[local] Open Scope Z_scope.

(** * Refused calls *)

(** Calls that leave alone whether the database is closed. *)
Definition same_closed (s s' : DB * World) : Prop := closed (fst s') = closed (fst s).
#[export] Instance same_closed_preorder : PreOrder same_closed.
Proof. unfold same_closed. split; [done|]. intros x y z H1 H2. congruence. Qed.

Lemma closed_get {A} (g : DB -> A) : steps same_closed (get g).
Proof. by intros s. Qed.
Lemma closed_upd (g : DB -> DB) : (forall db, closed (g db) = closed db) -> steps same_closed (upd g).
Proof. intros Hg [db w]. apply Hg. Qed.
Lemma closed_io {A} (x : M World A) : steps same_closed (io x).
Proof. intros [db w]. unfold io, zoom. cbn. by destruct (x w). Qed.
Lemma closed_manif {A} (x : M (Manifest.Manifest * World) A) : steps same_closed (on_manif x).
Proof. intros [db w]. unfold on_manif, zoom. cbn. by destruct (x (manif db, w)) as [r [mf w']]. Qed.
Lemma closed_wal {A} (x : M (Wal.Log * World) A) : steps same_closed (on_wal x).
Proof. intros [db w]. unfold on_wal, zoom. cbn. by destruct (x (wal db, w)) as [r [l w']]. Qed.
Lemma closed_lock {A} (x : M (option FileLock.Lock * World) A) : steps same_closed (on_lock x).
Proof. intros [db w]. unfold on_lock, zoom. cbn. by destruct (x (lock db, w)) as [r [l w']]. Qed.
#[export] Hint Resolve closed_get closed_upd closed_io closed_manif closed_wal closed_lock : steps.

Section refused.
Context {F : Type} `{Float64 F} {J : Manifest.Json} {E : FileLock.Env}.

Lemma closed_flush : steps same_closed (flushLocked (F := F)).
Proof. unfold flushLocked. steps_tac. Qed.
#[local] Hint Resolve closed_flush : steps.

(** Whatever becomes of the calls it makes, [Close] closes the database. *)
Lemma Close_closes s r s' : Db.Close (F := F) s = (r, s') -> closed (fst s') = true.
Proof.
  destruct s as [db w]. unfold Db.Close, closeUnlocked. rewrite (M_bind_Ok _ _ _ (closed db) (db, w)) by done.
  destruct (closed db) eqn:Hc; [by intros [= _ <-]|]. rewrite (M_bind_Ok _ _ _ tt (set_closed true db, w)) by done.
  match goal with |- ?m _ = _ -> _ => enough (steps same_closed m) as Hm end.
  { intros Hr. specialize (Hm (set_closed true db, w)). rewrite Hr in Hm. exact Hm. }
  steps_tac.
Qed.

(** Calls that are refused, in any state of the files, and change nothing. *)
Definition refuses {A} (m : MD A) (e : error) (db : DB) : Prop := forall w, m (db, w) = (Err e, (db, w)).

(** C21: Calls that must not happen have no effect.  After [Close], even one that
    failed, the database is closed: [Put] and [Delete] of a key that is not empty,
    [Write] of a batch that is not empty, [Flush], [Compact], [Sync], [Get] and
    [Has] fail with [ErrClosed], and closing again succeeds and does nothing
    ([NewIterator] and [Stats] do not look whether the database is closed).  On an
    open read-only database the changes among these calls fail with
    [ErrReadOnly]; and a [Put] or [Delete] of an empty key fails with
    [ErrInvalid], always.  Each leaves the database and its files as they are. *)
Theorem refused_calls key value batch (Hk : bs key <> []) (Hb : 0 < WriteBatch.Len batch) :
  (forall s r s', Close (F := F) s = (r, s') ->
    closed (fst s') = true /\ (forall w, Close (F := F) (fst s', w) = (Ok tt, (fst s', w))) /\
    refuses (Put (F := F) key value) ErrClosed (fst s') /\ refuses (Delete (F := F) key) ErrClosed (fst s') /\
    refuses (Write (F := F) (Some batch)) ErrClosed (fst s') /\ refuses (Flush (F := F)) ErrClosed (fst s') /\
    refuses (Compact (F := F)) ErrClosed (fst s') /\ refuses Sync ErrClosed (fst s') /\
    refuses (Get key) ErrClosed (fst s') /\ refuses (Has key) ErrClosed (fst s')) /\
  (forall db, closed db = false -> ReadOnly (opts db) = true ->
    refuses (Put (F := F) key value) ErrReadOnly db /\ refuses (Delete (F := F) key) ErrReadOnly db /\
    refuses (Write (F := F) (Some batch)) ErrReadOnly db /\ refuses (Flush (F := F)) ErrReadOnly db /\
    refuses (Compact (F := F)) ErrReadOnly db) /\
  (forall db k, bs k = [] -> refuses (Put (F := F) k value) ErrInvalid db /\ refuses (Delete (F := F) k) ErrInvalid db).
Proof.
  assert ((len (bs key) =? 0) = false) as Hlk by (apply Z.eqb_neq; destruct (bs key); [done|cbn; lia]).
  assert ((len (WriteBatch.entries batch) =? 0) = false) as Hlb by (apply Z.eqb_neq; unfold WriteBatch.Len in Hb; lia).
  assert (Hw: forall A (m : MD A) db w, closed db = true -> writable m (db, w) = (Err ErrClosed, (db, w))).
  { intros A m db w Hc. unfold writable, get, gets. rewrite (M_bind_Ok _ _ _ (closed db) (db, w)) by done. by rewrite Hc. }
  assert (Hro: forall A (m : MD A) db w, closed db = false -> ReadOnly (opts db) = true ->
    writable m (db, w) = (Err ErrReadOnly, (db, w))).
  { intros A m db w Hc Hr. unfold writable, get, gets. rewrite (M_bind_Ok _ _ _ (closed db) (db, w)) by done. rewrite Hc.
    rewrite (M_bind_Ok _ _ _ (ReadOnly (opts db)) (db, w)) by done. by rewrite Hr. }
  split; [|split].
  - intros s r s' Hc%Close_closes. destruct s' as [db w0]. cbn [fst] in *. clear s r w0.
    assert (Hg: refuses (Get key) ErrClosed db).
    { intros w. unfold Get, get, gets. rewrite (M_bind_Ok _ _ _ (closed db) (db, w)) by done. by rewrite Hc. }
    split_and!; try exact Hg; try done; unfold refuses, Put, Delete, Write, Flush, Compact; rewrite ?Hlk, ?Hlb; try (intros w; by apply Hw).
    + intros w. unfold Close, closeUnlocked, get, gets. rewrite (M_bind_Ok _ _ _ (closed db) (db, w)) by done. by rewrite Hc.
    + intros w. unfold Sync, get, gets. rewrite (M_bind_Ok _ _ _ (closed db) (db, w)) by done. by rewrite Hc.
    + intros w. unfold Has. rewrite (M_bind_Ok _ _ _ (inr ErrClosed) (db, w)) by (unfold try_; by rewrite Hg). done.
  - intros db Hc Hr. split_and!; unfold refuses, Put, Delete, Write, Flush, Compact; rewrite ?Hlk, ?Hlb; intros w; by apply Hro.
  - intros db k Hk0. split; intros w; unfold Put, Delete; by rewrite Hk0.
Qed.
End refused.

(** * Runs

    Examples computed on a database with two keys. *)

#[local] Existing Instances Codec.codec Q_Float64.
Definition demo_seed (i : nat) : Z := Z.of_nat i.
Definition still : Env := demo_env 0.
#[local] Existing Instance still.

(** A database or the reason there is none, with the world. *)
Definition session : Type := outcome DB * World.
Definition start (w : World) : session := Db.Open demo_seed "d" None w.
Definition answer {A} (m : MD A) (s : session) : outcome A :=
  match s with
  | (Ok db, w) => fst (m (db, w))
  | (Err e, _) => Err e | (Panic p, _) => Panic p | (Stuck, _) => Stuck
  end.
Definition after {A} (m : MD A) (s : session) : session :=
  match s with (Ok db, w) => let '(_, (db', w')) := m (db, w) in (Ok db', w') | _ => s end.
(** Call number [n] from here fails; and no call fails from here. *)
Definition failing (n : nat) (s : session) : session := (fst s, set_faults (replicate n None ++ [Some 0%nat]) (snd s)).
Definition calming (s : session) : session := (fst s, set_faults [] (snd s)).
Definition reopen (s : session) : session := start (snd (after Close s)).

Definition key1 (b : byte) : slice := Some [b].
(** Two keys, one of them deleted, in the memtable; then in a table. *)
Definition two_keys : session := after (Delete (key1 x61)) (after (Put (key1 x62) (key1 x02)) (after (Put (key1 x61) (key1 x01)) (start empty_world))).
Definition two_tables : session := after Flush (after (Put (key1 x61) (key1 x03)) (after Flush two_keys)).

(** The parts together: writes, flushes, a compaction, closing and opening
    again. *)
Example demo_run :
  let compacted := after Compact two_tables in
  let again := reopen compacted in
  (answer (Get (key1 x61)) two_keys, answer (Get (key1 x62)) two_keys, answer Flush two_keys) =
    (Err ErrNotFound, Ok (key1 x02), Ok tt) /\
  (answer Compact two_tables, answer (Get (key1 x61)) compacted, answer (Get (key1 x62)) compacted) =
    (Ok tt, Ok (key1 x03), Ok (key1 x02)) /\
  (answer Close compacted, answer (Get (key1 x61)) again, answer (Get (key1 x62)) again) =
    (Ok tt, Ok (key1 x03), Ok (key1 x02)) /\
  (Iterator.items <$> answer Iterator.NewIterator again) =
    Ok [mkItem (key1 x61) (key1 x03) false 4; mkItem (key1 x62) (key1 x02) false 2].
Proof. by vm_compute. Qed.

(** A failure of the manifest during a flush (see [ManifestProps.failed_AddFile_sticks]):
    [Flush] returns the error and removes the new table, but the manifest keeps
    it in memory; the data can still be read and a second [Flush] and [Close]
    succeed, writing a MANIFEST that names the removed table, and [Open] fails. *)
Example failed_Flush_bricks :
  let failed := calming (after Flush (failing 22 two_keys)) in
  answer Flush (failing 22 two_keys) = Err (os_error ErrIO) /\
  answer (Get (key1 x62)) failed = Ok (key1 x02) /\
  answer Flush failed = Ok tt /\ answer Close (after Flush failed) = Ok tt /\
  fst (reopen (after Flush failed)) = Err (os_error ErrNotExist).
Proof. by vm_compute. Qed.

(** A read failure during a compaction (see [CompactProps.MergeFiles_loses_damaged]):
    reading a block of an input fails, [Compact] returns no error, and the key of
    that table is gone, after reopening too. *)
Example Compact_loses_on_read_error :
  let failed := calming (after Compact (failing 20 two_tables)) in
  answer (Get (key1 x62)) two_tables = Ok (key1 x02) /\
  answer Compact (failing 20 two_tables) = Ok tt /\
  answer (Get (key1 x62)) failed = Err ErrNotFound /\
  answer (Get (key1 x62)) (reopen failed) = Err ErrNotFound.
Proof. by vm_compute. Qed.

(** A process with a log dies, and somebody removes its lock file. *)
Definition logged : World := let w := snd two_keys in mkWorld (delete "d/LOCK"%string (names w)) (inodes w) [] [].
Definition open_failing (n : nat) : session := calming (start (snd (failing n (fst two_keys, logged)))).

(** A read failure during [Open] (see [WalErrors]): reading a frame of the log
    fails, and [Open] returns no error.  In the scan (call 13) the log is truncated
    at that frame; in the replay (call 21) the memtable lacks the rest, and the
    next flush, that of [Close], empties the log. *)
Example Open_loses_on_read_error :
  answer (Get (key1 x62)) (start logged) = Ok (key1 x02) /\
  answer (Get (key1 x62)) (open_failing 13) = Err ErrNotFound /\
  answer (Get (key1 x62)) (reopen (open_failing 13)) = Err ErrNotFound /\
  answer (Get (key1 x62)) (open_failing 21) = Err ErrNotFound /\
  answer Close (open_failing 21) = Ok tt /\
  answer (Get (key1 x62)) (reopen (open_failing 21)) = Err ErrNotFound.
Proof. by vm_compute. Qed.

(** A compaction that fails late leaves an open database that cannot
    read: the merged tables are closed before the new table is opened and the
    manifest replaced, so that after an error every lookup that reaches them
    fails, until the database is opened again. *)
Example failed_Compact_closes_tables :
  let failed := calming (after Compact (failing 38 two_tables)) in
  answer Compact (failing 38 two_tables) = Err (os_error ErrIO) /\
  answer (Get (key1 x62)) failed = Err (errors_New "invalid argument") /\
  answer (Get (key1 x62)) (reopen failed) = Ok (key1 x02).
Proof. by vm_compute. Qed.

(** A nil key in a batch.  [Put] and [Delete] refuse empty keys, [Write] does not;
    the entry can be read, but [Flush] and [Close] then fail with
    sstable.ErrInvalid, and after reopening [Flush] does, because the log replays
    the entry. *)
Example Write_nil_key_blocks_flush :
  let batch := WriteBatch.Put None (key1 x07) WriteBatch.NewWriteBatch in
  let written := after (Write (Some batch)) two_keys in
  answer (Put None (key1 x07)) two_keys = Err ErrInvalid /\
  answer (Write (Some batch)) two_keys = Ok tt /\ answer (Get None) written = Ok (key1 x07) /\
  answer Flush written = Err SSTable.ErrInvalid /\ answer Close written = Err SSTable.ErrInvalid /\
  answer Flush (reopen written) = Err SSTable.ErrInvalid.
Proof. by vm_compute. Qed.

(** ** Witness *)

Definition demo_db : DB :=
  match fst two_keys with Ok db => db | _ => mkDB "" (normalize None) None (Wal.mkLog "" "" 0 (Wal.mkOptions 0 true "") 0 true 0 0)
    (MemTable.NewMemTable demo_seed 0) (Manifest.mkManifest "" "" (Manifest.mkState 1 1 0 [] "")) [] true end.

Definition demo_reader : DB :=
  mkDB "d" (Db.mkOptions 0 SyncNone 0 0 true) None (wal demo_db) (mem demo_db) (manif demo_db) [] false.

(** A closing whose flush fails. *)
Definition demo_close : outcome unit * (DB * World) := Close (F := Q) (demo_db, set_faults [Some 0%nat] (snd two_keys)).
Lemma demo_close_fails : fst demo_close = Err (os_error ErrIO).
Proof. by vm_compute. Qed.

Lemma refused_calls_witness :
  Close (F := Q) (demo_db, set_faults [Some 0%nat] (snd two_keys)) = (fst demo_close, snd demo_close) /\
  closed (fst (snd demo_close)) = true /\
  refuses (Put (F := Q) (key1 x61) None) ErrClosed (fst (snd demo_close)) /\
  refuses (Put (F := Q) (key1 x61) None) ErrReadOnly demo_reader /\
  refuses (Delete (F := Q) (Some [])) ErrInvalid demo_db.
Proof.
  assert (bs (key1 x61) <> []) as Hk by discriminate.
  assert (0 < WriteBatch.Len (WriteBatch.Delete (key1 x61) WriteBatch.NewWriteBatch)) as Hb by reflexivity.
  destruct (refused_calls (key1 x61) None (WriteBatch.Delete (key1 x61) WriteBatch.NewWriteBatch) Hk Hb) as (R1 & R2 & R3).
  assert (Close (F := Q) (demo_db, set_faults [Some 0%nat] (snd two_keys)) = (fst demo_close, snd demo_close)) as Hc by apply surjective_pairing.
  destruct (R1 _ _ _ Hc) as (P1 & _ & P2 & _). destruct (R2 demo_reader eq_refl eq_refl) as [P3 _].
  destruct (R3 demo_db (Some []) eq_refl) as [_ P4].
  split; [exact Hc|]. split; [exact P1|]. split; [exact P2|]. split; [exact P3|exact P4].
Defined.
