(* ===== verification/DbSpec.v ===== *)
(** * DbSpec: the contents of a database as a map

    A database stands for a finite map from keys to values.  All its entries,
    in tables and in the log, form one list; the entry with the highest
    sequence number of a key says what the map holds there.  The lemmas say
    how the map changes when an entry is written, and that it does not when
    the memtable is turned into a table or tables are merged. *)

From Stdlib Require Import ZArith Lia Strings.Byte.
From stdpp Require Import base decidable list gmap strings numbers sorting sets.
From S2P Require Import Prelude Bloom ByteUtil Os Wal SkipList SSTable SSTableFacts SSTableWriter SSTableSpec Compact CompactFacts Db.
#[local] Open Scope Z_scope.

Abbreviation entry := SSTable.Entry.
Abbreviation key_of := SSTableFacts.ekey.
Abbreviation seq_of := SSTable.Seq.

(** ** The entry that counts *)

(** [o] is the newest entry of [k] in [E]. *)
Definition picks (E : list entry) (k : list byte) (o : option entry) : Prop :=
  match o with
  | None => forall e, e ∈ E -> key_of e <> k
  | Some e => e ∈ E /\ key_of e = k /\ forall e', e' ∈ E -> key_of e' = k -> seq_of e' <= seq_of e
  end.

(** No two entries of a key have the same number. *)
Definition coherent (E : list entry) : Prop :=
  forall e e', e ∈ E -> e' ∈ E -> key_of e = key_of e' -> seq_of e = seq_of e' -> e = e'.

(** What a reader is told about it. *)
Definition visible_value (o : option entry) : option (list byte) :=
  match o with Some e => if SSTable.Deleted e then None else Some (bs (SSTable.Value e)) | None => None end.

Abbreviation kvmap := (gmap (list byte) (list byte)).

Definition contents (E : list entry) (m : kvmap) : Prop := forall k o, picks E k o -> m !! k = visible_value o.

Lemma contents_nil : contents [] ∅.
Proof. intros k [e|] He; [|done]. by destruct He as (?%not_elem_of_nil & _). Qed.

Lemma picks_exists E k : exists o, picks E k o.
Proof.
  induction E as [|e E [o Ho]]; [by exists None; intros e ?%not_elem_of_nil|].
  destruct (decide (key_of e = k)) as [Hk|Hk].
  - destruct o as [e'|].
    + destruct Ho as (Hin & Hk' & Hmax). destruct (Z.le_gt_cases (seq_of e) (seq_of e')).
      * exists (Some e'). split_and!; [by right|done|]. intros x [->|Hx]%elem_of_cons Hkx; [done|by apply Hmax].
      * exists (Some e). split_and!; [by left|done|]. intros x [->|Hx]%elem_of_cons Hkx; [done|].
        specialize (Hmax x Hx Hkx). lia.
    + exists (Some e). split_and!; [by left|done|]. intros x [->|Hx]%elem_of_cons Hkx; [done|]. by destruct (Ho x Hx).
  - exists o. destruct o as [e'|].
    + destruct Ho as (Hin & Hk' & Hmax). split_and!; [by right|done|].
      intros x [->|Hx]%elem_of_cons Hkx; [done|by apply Hmax].
    + intros x [->|Hx]%elem_of_cons; [done|by apply Ho].
Qed.

Lemma picks_unique E k o o' : coherent E -> picks E k o -> picks E k o' -> o = o'.
Proof.
  intros Hc. destruct o as [e|], o' as [e'|]; cbn; [|naive_solver..|done].
  intros (Hin & Hk & Hmax) (Hin' & Hk' & Hmax'). f_equal. apply Hc; [done|done|congruence|].
  specialize (Hmax e' Hin' Hk'). specialize (Hmax' e Hin Hk). lia.
Qed.

Lemma coherent_subset E E' : E' ⊆ E -> coherent E -> coherent E'.
Proof. intros Hs Hc e e' He He'. apply Hc; by apply Hs. Qed.

(** Entries may go as long as the newest stay. *)
Lemma contents_subset E E' m :
  E' ⊆ E -> (forall k e, picks E k (Some e) -> exists e', e' ∈ E' /\ key_of e' = k /\ seq_of e <= seq_of e') ->
  coherent E -> contents E m -> contents E' m.
Proof.
  intros Hs Hkeep Hc Hm k o Ho. destruct (picks_exists E k) as [p Hp]. rewrite (Hm k p Hp).
  destruct p as [e|].
  - destruct (Hkeep k e Hp) as (e' & He' & Hk' & Hseq). destruct Hp as (Hin & Hk & Hmax).
    assert (e = e') as -> by (apply Hc; [done|by apply Hs|congruence|]; specialize (Hmax e' (Hs _ He') Hk'); lia).
    destruct o as [x|]; [|by destruct (Ho e' He')]. destruct Ho as (Hx & Hkx & Hmx).
    assert (x = e') as -> by (apply Hc; [by apply Hs|by apply Hs|congruence|];
      specialize (Hmax x (Hs _ Hx) Hkx); specialize (Hmx e' He' Hk'); lia). done.
  - destruct o as [x|]; [|done]. destruct Ho as (Hx & Hkx & _). by destruct (Hp x (Hs _ Hx)).
Qed.

(** A write: an entry newer than all others. *)
Definition write (e : entry) (m : kvmap) : kvmap :=
  if SSTable.Deleted e then delete (key_of e) m else <[key_of e := bs (SSTable.Value e)]> m.

Lemma picks_snoc_inv E e k o :
  (forall e', e' ∈ E -> seq_of e' < seq_of e) -> picks (E ++ [e]) k o ->
  if decide (key_of e = k) then o = Some e else picks E k o.
Proof.
  intros Hnew Ho. assert (Hin: forall x, x ∈ E ++ [e] <-> x ∈ E \/ x = e) by (intros x; rewrite elem_of_app, list_elem_of_singleton; done).
  destruct (decide (key_of e = k)) as [Hk|Hk].
  - destruct o as [x|]; [|by destruct (Ho e); [rewrite Hin; by right|]].
    destruct Ho as (Hx & Hkx & Hmax). rewrite Hin in Hx. destruct Hx as [Hx| ->]; [|done].
    specialize (Hmax e ltac:(rewrite Hin; by right) Hk). specialize (Hnew x Hx). lia.
  - destruct o as [x|].
    + destruct Ho as (Hx & Hkx & Hmax). rewrite Hin in Hx. destruct Hx as [Hx| ->]; [|done].
      split_and!; [done|done|]. intros e' He'. apply Hmax. rewrite Hin. by left.
    + intros x Hx. apply Ho. rewrite Hin. by left.
Qed.

Lemma picks_snoc E e k o :
  (forall e', e' ∈ E -> seq_of e' < seq_of e) -> (if decide (key_of e = k) then o = Some e else picks E k o) ->
  picks (E ++ [e]) k o.
Proof.
  intros Hnew Ho. assert (Hin: forall x, x ∈ E ++ [e] <-> x ∈ E \/ x = e) by (intros x; rewrite elem_of_app, list_elem_of_singleton; done).
  destruct (decide (key_of e = k)) as [Hk|Hk].
  - subst o. split_and!; [rewrite Hin; by right|done|]. intros x Hx _. rewrite Hin in Hx.
    destruct Hx as [Hx| ->]; [specialize (Hnew x Hx)|]; lia.
  - destruct o as [x|].
    + destruct Ho as (Hx & Hkx & Hmax). split_and!; [rewrite Hin; by left|done|].
      intros y Hy Hky. rewrite Hin in Hy. destruct Hy as [Hy| ->]; [by apply Hmax|done].
    + intros y Hy. rewrite Hin in Hy. destruct Hy as [Hy| ->]; [by apply Ho|done].
Qed.

Lemma contents_write E e m :
  (forall e', e' ∈ E -> seq_of e' < seq_of e) -> contents E m -> contents (E ++ [e]) (write e m).
Proof.
  intros Hnew Hm k o Ho. apply picks_snoc_inv in Ho; [|done]. unfold write. destruct (decide (key_of e = k)) as [Hk|Hk].
  - subst o. cbn. rewrite Hk. destruct (SSTable.Deleted e); [apply lookup_delete_eq|apply lookup_insert_eq].
  - rewrite <- (Hm k o Ho). destruct (SSTable.Deleted e); [by apply lookup_delete_ne|by apply lookup_insert_ne].
Qed.

Lemma coherent_snoc E e : (forall e', e' ∈ E -> seq_of e' < seq_of e) -> coherent E -> coherent (E ++ [e]).
Proof.
  intros Hnew Hc x y. rewrite !elem_of_app, !list_elem_of_singleton. intros [Hx| ->] [Hy| ->] Hk Hq; [by apply Hc| | |done].
  - specialize (Hnew x Hx). lia.
  - specialize (Hnew y Hy). lia.
Qed.

(** Several writes in order. *)
Definition ordered (E : list entry) : Prop := StronglySorted (fun e e' => seq_of e < seq_of e') E.

Lemma writes_split e es (E : list entry) :
  (forall x y, x ∈ E -> y ∈ e :: es -> seq_of x < seq_of y) -> ordered (e :: es) ->
  (forall x, x ∈ E -> seq_of x < seq_of e) /\ ordered es /\
  (forall x y, x ∈ E ++ [e] -> y ∈ es -> seq_of x < seq_of y).
Proof.
  intros Hlt Ho. inversion Ho as [|? ? Ho' Hf]; subst. split_and!; [|done|].
  - intros x Hx. apply Hlt; [done|by left].
  - intros x y Hx Hy. apply elem_of_app in Hx as [Hx|Hx]; [apply Hlt; [done|by right]|].
    apply list_elem_of_singleton in Hx as ->. rewrite Forall_forall in Hf. by apply Hf.
Qed.

Lemma contents_writes es : forall E m,
  (forall e e', e ∈ E -> e' ∈ es -> seq_of e < seq_of e') -> ordered es -> contents E m ->
  contents (E ++ es) (fold_left (fun m e => write e m) es m).
Proof.
  induction es as [|e es IH]; intros E m Hlt Ho Hm; [by rewrite app_nil_r|].
  destruct (writes_split e es E Hlt Ho) as (H1 & H2 & H3).
  replace (E ++ e :: es) with ((E ++ [e]) ++ es) by (by rewrite <- app_assoc).
  apply IH; [done|done|by apply contents_write].
Qed.

Lemma coherent_writes es : forall E,
  (forall e e', e ∈ E -> e' ∈ es -> seq_of e < seq_of e') -> ordered es -> coherent E -> coherent (E ++ es).
Proof.
  induction es as [|e es IH]; intros E Hlt Ho Hc; [by rewrite app_nil_r|].
  destruct (writes_split e es E Hlt Ho) as (H1 & H2 & H3).
  replace (E ++ e :: es) with ((E ++ [e]) ++ es) by (by rewrite <- app_assoc).
  apply IH; [done|done|by apply coherent_snoc].
Qed.

(** ** Tables *)

Lemma picks_table es k : ascending es -> picks es k (lookup_entry k es).
Proof.
  intros Ha. destruct (lookup_entry k es) as [e|] eqn:Hl.
  - apply lookup_entry_Some in Hl as [He Hk]. split_and!; [done|done|]. intros e' He' Hk'.
    assert (e' = e) as -> by (apply (ascending_inj es); [done..|congruence]). done.
  - intros e He Hk. rewrite <- Hk in Hl. by rewrite (lookup_entry_in es e Ha He) in Hl.
Qed.

(** The newer of two candidates, as the loop of [Get] chooses. *)
Definition better (b o : option entry) : option entry :=
  match o with
  | None => b
  | Some e => match b with Some b => if seq_of b <? seq_of e then Some e else Some b | None => Some e end
  end.

Lemma picks_app E1 E2 k o1 o2 : picks E1 k o1 -> picks E2 k o2 -> picks (E1 ++ E2) k (better o1 o2).
Proof.
  intros H1 H2. destruct o2 as [e2|], o1 as [e1|]; cbn [better].
  - destruct H1 as (I1 & K1 & M1), H2 as (I2 & K2 & M2). destruct (Z.ltb_spec (seq_of e1) (seq_of e2)).
    + split_and!; [rewrite elem_of_app; by right|done|]. intros x [Hx|Hx]%elem_of_app Hk; [specialize (M1 x Hx Hk); lia|by apply M2].
    + split_and!; [rewrite elem_of_app; by left|done|]. intros x [Hx|Hx]%elem_of_app Hk; [by apply M1|specialize (M2 x Hx Hk); lia].
  - destruct H2 as (I2 & K2 & M2). split_and!; [rewrite elem_of_app; by right|done|].
    intros x [Hx|Hx]%elem_of_app Hk; [by destruct (H1 x Hx)|by apply M2].
  - destruct H1 as (I1 & K1 & M1). split_and!; [rewrite elem_of_app; by left|done|].
    intros x [Hx|Hx]%elem_of_app Hk; [by apply M1|by destruct (H2 x Hx)].
  - intros x [Hx|Hx]%elem_of_app; [by apply H1|by apply H2].
Qed.

Lemma picks_ext E E' k o : (forall e, e ∈ E <-> e ∈ E') -> picks E k o -> picks E' k o.
Proof.
  intros HE. destruct o as [e|].
  - intros (H1 & H2 & H3). split_and!; [by apply HE|done|]. intros x Hx. by apply H3, HE.
  - intros H1 x Hx. by apply H1, HE.
Qed.

Lemma elem_of_concat {A} (x : A) ls : x ∈ concat ls <-> exists l, l ∈ ls /\ x ∈ l.
Proof.
  rewrite list_elem_of_In, in_concat. split; intros (l & H1 & H2); exists l; [by rewrite !list_elem_of_In|].
  by rewrite <- !list_elem_of_In.
Qed.

Lemma picks_newest ess k : Forall ascending ess -> picks (concat ess) k (newest k ess).
Proof.
  intros Ha. assert (Hl: forall es e, es ∈ ess -> e ∈ es -> lookup_entry (key_of e) es = Some e).
  { intros es e Hes He. apply lookup_entry_in; [|done]. rewrite Forall_forall in Ha. by apply Ha. }
  destruct (newest k ess) as [e|] eqn:En.
  - apply newest_Some in En as (j & es & Hj & He & Hmax). apply lookup_entry_Some in He as [He Hk].
    split_and!; [apply elem_of_concat; exists es; split; [by eapply list_elem_of_lookup_2|done]|done|].
    intros e' He' Hk'. apply elem_of_concat in He' as (es' & Hes' & He'). pose proof (Hl es' e' Hes' He') as Hl'.
    rewrite Hk' in Hl'. apply list_elem_of_lookup in Hes' as [i Hi]. destruct (Hmax i es' e' Hi Hl'); lia.
  - intros e He Hk. apply elem_of_concat in He as (es & Hes & He). pose proof (Hl es e Hes He) as Hl'.
    rewrite Hk in Hl'. apply list_elem_of_lookup in Hes as [i Hi]. by rewrite (newest_None k ess En i es Hi) in Hl'.
Qed.

(** Replacing tables by their merge, tombstones kept. *)
Lemma contents_merged ess1 es rest m :
  Forall ascending ess1 -> (forall k, lookup_entry k es = newest k ess1) -> es ⊆ concat ess1 ->
  coherent (concat ess1 ++ rest) -> contents (concat ess1 ++ rest) m ->
  contents (es ++ rest) m /\ coherent (es ++ rest).
Proof.
  intros Ha Hl Hs Hc Hm. assert (es ++ rest ⊆ concat ess1 ++ rest) as Hsub.
  { intros e. rewrite !elem_of_app. intros [He|He]; [left; by apply Hs|by right]. }
  split; [|by eapply coherent_subset]. eapply contents_subset; [exact Hsub| |exact Hc|exact Hm].
  intros k e (Hin & Hk & Hmax). apply elem_of_app in Hin as [Hin|Hin].
  - pose proof (picks_newest ess1 k Ha) as Hp. rewrite <- Hl in Hp.
    destruct (lookup_entry k es) as [e'|] eqn:He'; [|by destruct (Hp e Hin)].
    apply lookup_entry_Some in He' as [He' Hk']. exists e'. split_and!; [rewrite elem_of_app; by left|done|].
    destruct Hp as (_ & _ & Hp). by apply Hp.
  - exists e. split_and!; [rewrite elem_of_app; by right|done|done].
Qed.

(** ** The log and the memtable *)

(** A record of the log, and an entry of the memtable, as they will be stored. *)
Definition rec_entry (r : Wal.Record_) : entry :=
  SSTable.mkEntry (Some (bs (Wal.Key r))) (Some (if Wal.Deleted r then [] else bs (Wal.Value r))) (Wal.Seq r) (Wal.Deleted r).
Definition mem_entry (e : SkipList.Entry) : entry :=
  SSTable.mkEntry (Some (bs (SkipList.Key e))) (Some (bs (SkipList.Value e))) (SkipList.Seq e) (SkipList.Deleted e).

Lemma mem_entry_key e : key_of (mem_entry e) = SkipList.ekey e.
Proof. done. Qed.

Definition log_entries (n : Z) (os : list Wal.op) : list entry := rec_entry <$> Wal.log_records n os.

Lemma log_entries_app n os os' :
  log_entries n (os ++ os') = log_entries n os ++ log_entries (n + Wal.log_count os) os'.
Proof. unfold log_entries. by rewrite Wal.log_records_app, fmap_app. Qed.

Definition seqs_in (lo hi : Z) (es : list entry) : Prop :=
  ordered es /\ Forall (fun e => lo < seq_of e <= hi) es.

Lemma seqs_in_app lo mid hi es es' :
  lo <= mid -> mid <= hi -> seqs_in lo mid es -> seqs_in mid hi es' -> seqs_in lo hi (es ++ es').
Proof.
  intros Hlm Hmh [H1 H2] [H3 H4]. split.
  - unfold ordered in *. induction es as [|e es IH]; [done|]. inversion H1; subst. apply Forall_cons in H2 as [He H2].
    constructor; [by apply IH|]. apply Forall_app. split; [done|].
    eapply Forall_impl; [exact H4|]. cbn. intros x Hx. lia.
  - apply Forall_app. split; (eapply Forall_impl; [eassumption|]); cbn; intros; lia.
Qed.

Lemma batch_seqs es : forall n, seqs_in n (n + len es) (rec_entry <$> Wal.entries_records n es).
Proof.
  induction es as [|e es IH]; intros n; cbn [Wal.entries_records fmap list_fmap]; [by repeat constructor|].
  apply (seqs_in_app n (n + 1) (n + len (e :: es)) [rec_entry (Wal.entry_record (n + 1) e)]); cbn [length]; try lia.
  - split; [by repeat constructor|]. repeat constructor; cbn; lia.
  - replace (n + Z.of_nat (S (length es))) with (n + 1 + len es) by lia. apply IH.
Qed.

Lemma log_seqs_in os : forall n, Wal.log_ok n os -> seqs_in n (n + Wal.log_count os) (log_entries n os).
Proof.
  induction os as [|o os IH]; intros n Hok; cbn [Wal.log_count Wal.log_ok] in *; [by repeat constructor|].
  destruct Hok as [Ho Hok]. pose proof (Wal.op_count_pos n o Ho) as Hpos. specialize (IH _ Hok).
  assert (0 <= Wal.log_count os).
  { clear -Hok. revert Hok. generalize (n + Wal.op_count o). induction os as [|p os IH]; intros k Hok; cbn [Wal.log_count Wal.log_ok] in *; [lia|].
    destruct Hok as [Hp Hok]. pose proof (Wal.op_count_pos k p Hp). specialize (IH _ Hok). lia. }
  unfold log_entries. cbn [Wal.log_records]. rewrite fmap_app. fold (log_entries (n + Wal.op_count o) os).
  apply (seqs_in_app n (n + Wal.op_count o)); [lia|lia| |by rewrite Z.add_assoc].
  destruct o as [k v|k|es]; cbn [Wal.op_records Wal.op_count fmap list_fmap].
  - split; [by repeat constructor|]. repeat constructor; cbn; lia.
  - split; [by repeat constructor|]. repeat constructor; cbn; lia.
  - apply batch_seqs.
Qed.

(** The memtable has, of each key, the newest entry of the log. *)
Record mem_holds (es : list SkipList.Entry) (W : list entry) : Prop := {
  mh_sorted : StronglySorted blt (SkipList.ekey <$> es);
  mh_picks k : picks W k (mem_entry <$> SkipList.lookup_entry k es);
  mh_keys : Forall (fun e => SkipList.Key e <> None) es
}.

Lemma mem_holds_nil : mem_holds [] [].
Proof. split; [constructor|by intros k e ?%not_elem_of_nil|constructor]. Qed.

Lemma mem_lookup_Some k es e : SkipList.lookup_entry k es = Some e -> e ∈ es /\ SkipList.ekey e = k.
Proof.
  unfold SkipList.lookup_entry. intros H1. apply List.find_some in H1 as [Hin Hk].
  apply bool_decide_eq_true in Hk. by rewrite list_elem_of_In.
Qed.

Lemma upsert_keys e es :
  SkipList.Key e <> None -> Forall (fun e => SkipList.Key e <> None) es ->
  Forall (fun e => SkipList.Key e <> None) (SkipList.upsert e es).
Proof.
  intros He. induction 1 as [|x es Hx Hes IH]; cbn [SkipList.upsert]; [by repeat constructor|].
  destruct (lex _ _); constructor; try done; [by case_match|by constructor].
Qed.

Lemma mem_holds_upsert es W e :
  mem_holds es W -> SkipList.Key e <> None -> (forall e', e' ∈ W -> seq_of e' < SkipList.Seq e) ->
  mem_holds (SkipList.upsert e es) (W ++ [mem_entry e]).
Proof.
  intros [Hs Hp Hk] He Hnew. split; [by apply SkipList.upsert_sorted| |by apply upsert_keys].
  intros k. apply picks_snoc; [exact Hnew|]. rewrite SkipList.lookup_upsert, mem_entry_key by done.
  case_decide as Hke; [|apply Hp]. f_equal. cbn [fmap option_fmap option_map].
  destruct (SkipList.lookup_entry k es) as [e0|] eqn:Hl; [|done].
  pose proof (Hp k) as Hpk. rewrite Hl in Hpk. destruct Hpk as (Hin & Hk0 & _). specialize (Hnew _ Hin). cbn in Hnew.
  rewrite (proj2 (Z.leb_le _ _)) by lia. unfold mem_entry. cbn. rewrite mem_entry_key in Hk0.
  unfold SkipList.ekey in Hk0, Hke. by rewrite Hk0, Hke.
Qed.

Lemma mem_lookup_in es e : StronglySorted blt (SkipList.ekey <$> es) -> e ∈ es -> SkipList.lookup_entry (SkipList.ekey e) es = Some e.
Proof.
  induction es as [|x es IH]; intros Hs He; [by apply not_elem_of_nil in He|].
  cbn [fmap list_fmap] in Hs. inversion Hs as [|? ? Hs' Hf]; subst. unfold SkipList.lookup_entry. cbn [List.find].
  case_bool_decide as Hk; apply elem_of_cons in He as [->|He]; try done; [|by apply IH].
  rewrite Forall_fmap, Forall_forall in Hf. specialize (Hf e He). cbn in Hf. rewrite Hk in Hf. by apply blt_irrefl in Hf.
Qed.

(** The entries of the memtable are among those of the log. *)
Lemma mem_holds_subset es W : mem_holds es W -> mem_entry <$> es ⊆ W.
Proof.
  intros [Hs Hp _] x (e & -> & He)%list_elem_of_fmap. specialize (Hp (SkipList.ekey e)).
  rewrite (mem_lookup_in es e Hs He) in Hp. apply Hp.
Qed.

Lemma mem_holds_size es W : mem_holds es W -> tsize (mem_entry <$> es) <= tsize W.
Proof.
  intros Hm. assert (mem_entry <$> es ⊆+ W) as Hsub.
  { apply NoDup_submseteq; [|by apply mem_holds_subset].
    apply ascending_NoDup. unfold ascending. rewrite <- list_fmap_compose. apply Hm. }
  clear Hm. unfold tsize. induction Hsub as [|x l l' _ IH|x y l|x l l' _ IH|l l' l'' _ IH1 _ IH2]; cbn; try (pose proof (esize_lo x)); lia.
Qed.

(** A memtable turned into a table holds the same. *)
Lemma contents_flush es W rest m :
  mem_holds es W -> coherent (rest ++ W) -> contents (rest ++ W) m ->
  contents (rest ++ (mem_entry <$> es)) m /\ coherent (rest ++ (mem_entry <$> es)).
Proof.
  intros Hm Hc Hcon. pose proof (mem_holds_subset es W Hm) as Hs.
  assert (rest ++ (mem_entry <$> es) ⊆ rest ++ W) as Hsub.
  { intros e. rewrite !elem_of_app. intros [He|He]; [by left|right; by apply Hs]. }
  split; [|by eapply coherent_subset]. eapply contents_subset; [exact Hsub| |exact Hc|exact Hcon].
  intros k e (Hin & Hk & Hmax). apply elem_of_app in Hin as [Hin|Hin].
  - exists e. split_and!; [rewrite elem_of_app; by left|done|done].
  - pose proof (mh_picks _ _ Hm k) as Hp. destruct (SkipList.lookup_entry k es) as [x|] eqn:Hl; [|by destruct (Hp e Hin)].
    apply mem_lookup_Some in Hl as [Hx Hkx]. exists (mem_entry x). destruct Hp as (_ & _ & Hp).
    split_and!; [rewrite elem_of_app; right; by apply list_elem_of_fmap_2|done|by apply Hp].
Qed.

(** What an operation does to the map. *)
Definition op_map (o : Wal.op) (m : kvmap) : kvmap :=
  match o with
  | Wal.OpPut k v => <[bs k := bs v]> m
  | Wal.OpDelete k => delete (bs k) m
  | Wal.OpBatch es =>
      fold_left (fun m e => if Wal.bDeleted e then delete (bs (Wal.bKey e)) m else <[bs (Wal.bKey e) := bs (Wal.bValue e)]> m) es m
  end.

Lemma rec_entry_put n k v :
  rec_entry (Wal.mkRecord Wal.TypePut (append_nil (bs k)) (append_nil (bs v)) n false) =
    SSTable.mkEntry (Some (bs k)) (Some (bs v)) n false.
Proof. unfold rec_entry. cbn. by destruct (bs k), (bs v). Qed.
Lemma rec_entry_delete n k :
  rec_entry (Wal.mkRecord Wal.TypeDelete (append_nil (bs k)) None n true) = SSTable.mkEntry (Some (bs k)) (Some []) n true.
Proof. unfold rec_entry. cbn. by destruct (bs k). Qed.
Lemma rec_entry_batch n e :
  rec_entry (Wal.entry_record n e) =
    SSTable.mkEntry (Some (bs (Wal.bKey e))) (Some (if Wal.bDeleted e then [] else bs (Wal.bValue e))) n (Wal.bDeleted e).
Proof. unfold rec_entry, Wal.entry_record. cbn. destruct (Wal.bDeleted e); cbn; by destruct (bs (Wal.bKey e)), (bs (Wal.bValue e)). Qed.

Lemma fold_writes n o m : fold_left (fun m e => write e m) (rec_entry <$> Wal.op_records n o) m = op_map o m.
Proof.
  destruct o as [k v|k|es]; cbn [Wal.op_records op_map fmap list_fmap fold_left].
  - by rewrite rec_entry_put.
  - by rewrite rec_entry_delete.
  - revert n m. induction es as [|e es IH]; intros n m; [done|]. cbn [Wal.entries_records fmap list_fmap fold_left].
    rewrite IH, rec_entry_batch. unfold write. cbn. by destruct (Wal.bDeleted e).
Qed.
