(* ===== verification/DbFiles.v ===== *)
(** * DbFiles: the files of a database

    The directory of a database as the sum of its parts: the manifest, the
    tables it names, the log, the lock.  Each step of an operation touches one
    of them; the lemmas say that the others stay. *)

From Stdlib Require Import ZArith Lia Strings.Byte.
From stdpp Require Import base decidable list gmap strings numbers sorting sets.
From S2P Require Import Prelude Bloom ByteUtil Os OsFacts SSTable SSTableWriter SSTableSpec Manifest ManifestFacts ManifestProps.
#[local] Open Scope Z_scope.

(** ** Names *)

(** What the files of a directory are for. *)
Inductive role := RManifest | RTmp | RLog | RLock | RTable (k : Z).

Definition role_name (r : role) : string :=
  match r with
  | RManifest => Manifest.fileName
  | RTmp => Manifest.fileName ++ tmpSuffix
  | RLog => "wal.log"
  | RLock => "LOCK"
  | RTable k => table_name k
  end.
Definition role_ok (r : role) : Prop := match r with RTable k => 0 <= k < 2 ^ 64 | _ => True end.
Definition at_ (d : string) (r : role) : string := filepath_Join d (role_name r).

Lemma table_name_last k : last (to_bytes (table_name k)) = Some x74.
Proof. unfold table_name. rewrite to_of_bytes. change (to_bytes ".sst") with ([x2e; x73; x73] ++ [x74]). by rewrite app_assoc, last_snoc. Qed.

Lemma role_name_inj r r' : role_ok r -> role_ok r' -> role_name r = role_name r' -> r = r'.
Proof.
  intros Hr Hr'. destruct r as [| | | |a], r' as [| | | |b]; try done; cbn [role_name].
  1-4: intros Heq; apply (f_equal (fun s => last (to_bytes s))) in Heq; by rewrite table_name_last in Heq.
  1-4: intros Heq; symmetry in Heq; apply (f_equal (fun s => last (to_bytes s))) in Heq; by rewrite table_name_last in Heq.
  intros Heq. f_equal. by apply table_name_inj.
Qed.

Lemma string_app_assoc (a b c : string) : ((a ++ b) ++ c = a ++ (b ++ c))%string.
Proof. induction a as [|x a IH]; [done|]. exact (f_equal (String x) IH). Qed.
Lemma string_app_inj (a b c : string) : (a ++ b = a ++ c)%string -> b = c.
Proof. induction a as [|x a IH]; [done|]. intros [= ?]. by apply IH. Qed.

Lemma join_inj d a b : filepath_Join d a = filepath_Join d b -> a = b.
Proof. intros H%string_app_inj. by apply string_app_inj in H. Qed.

Lemma at_inj d r r' : role_ok r -> role_ok r' -> at_ d r = at_ d r' -> r = r'.
Proof. intros Hr Hr' H%join_inj. by apply role_name_inj. Qed.
Lemma at_ne d r r' : role_ok r -> role_ok r' -> r <> r' -> at_ d r <> at_ d r'.
Proof. intros Hr Hr' Hne H. by apply Hne, (at_inj d). Qed.

Lemma at_tmp d : (filepath_Join d Manifest.fileName ++ tmpSuffix)%string = at_ d RTmp.
Proof. unfold at_, filepath_Join, role_name. by rewrite !string_app_assoc. Qed.

(** ** Files that stay *)

Definition kept (w w' : World) (p : string) : Prop :=
  forall j c, names w !! p = Some j -> inodes w !! j = Some c -> names w' !! p = Some j /\ inodes w' !! j = Some c.

Lemma kept_refl w p : kept w w p.
Proof. by intros j c. Qed.
Lemma kept_trans w1 w2 w3 p : kept w1 w2 p -> kept w2 w3 p -> kept w1 w3 p.
Proof. intros H1 H2 j c Hj Hc. destruct (H1 j c Hj Hc). by apply H2. Qed.

Lemma holds_kept w w' p es : kept w w' p -> holds w p es -> holds w' p es.
Proof. intros Hk (j & c & Hj & Hc & Ht). destruct (Hk j c Hj Hc). by exists j, c. Qed.

Lemma kept_touches f i w w' p : touches f i w w' -> names w !! p <> Some i -> kept w w' p.
Proof.
  intros (Hn & Hi & _) Hp j c Hj Hc. rewrite Hn, Hi; [done|]. intros ->. by apply Hp.
Qed.
Lemma kept_grows w w' p : grows w w' -> names w' !! p = names w !! p -> kept w w' p.
Proof. intros [Hg _] Hn j c Hj Hc. rewrite Hn. split; [done|by apply Hg]. Qed.

Lemma kept_steady ps w w' p : steady ps w w' -> p ∉ ps -> kept w w' p.
Proof. intros [N I _] Hp j c Hj Hc. rewrite N by done. split; [done|by apply (I p)]. Qed.

Lemma preserves_grows w w' : preserves (length (inodes w)) w w' -> grows w w'.
Proof. intros [P1 P2]. split; [|done]. intros j c Hc. apply P1; [|done]. apply lookup_lt_Some in Hc. lia. Qed.

Lemma fds_grows w ds : grows w (set_fds (fds w ++ ds) w).
Proof. split; [done|]. intros g d Hd. by apply lookup_app_l_Some. Qed.

(** ** The directory *)

Section directory.
Context {J : Json} {JO : JsonOk J}.

Definition table_path (d : string) (f : FileMeta) : string := filepath_Join d (Name f).

(** The manifest [mf] is on disk and names tables with the entries [ess]; the
    log is the file [i]. *)
Record directory (w : World) (mf : Manifest.Manifest) (ess : list (list SSTable.Entry)) (i : nat) : Prop := {
  dr_sound : sound mf w;
  dr_disk : on_disk w mf;
  dr_numbered : numbered (state mf);
  dr_nodup : NoDup (Name <$> files (state mf));
  dr_tables : Forall2 (fun f es => holds w (table_path (dir mf) f) es) (files (state mf)) ess;
  dr_fresh k : NextFile (state mf) <= k < 2 ^ 64 -> names w !! at_ (dir mf) (RTable k) = None;
  dr_log : names w !! at_ (dir mf) RLog = Some i;
  dr_own p : names w !! p = Some i -> p = at_ (dir mf) RLog
}.

Lemma dr_path w mf ess i : directory w mf ess i -> path mf = at_ (dir mf) RManifest.
Proof. intros D. apply (sn_path _ _ (dr_sound _ _ _ _ D)). Qed.

Lemma dr_calm w mf ess i : directory w mf ess i -> calm w /\ names_ok w.
Proof. intros D. destruct (sn_dir _ _ (dr_sound _ _ _ _ D)). done. Qed.

(** A table's path is that of a number in use. *)
Lemma dr_table w mf ess i f :
  directory w mf ess i -> f ∈ files (state mf) ->
  exists k, 0 <= k < NextFile (state mf) /\ NextFile (state mf) < 2 ^ 64 /\
    table_path (dir mf) f = at_ (dir mf) (RTable k).
Proof.
  intros D Hf. destruct (named_below_in _ _ _ (dr_numbered _ _ _ _ D) Hf) as (k & Hk & Hlt). pose proof (so_next _ (sn_state _ _ (dr_sound _ _ _ _ D))).
  exists k. unfold table_path, at_. rewrite Hk. split_and!; [lia|lia|lia|done].
Qed.

(** A step that leaves the manifest, the tables and the log's name alone. *)
Lemma directory_step w w' mf ess i :
  directory w mf ess i -> calm w' -> names_ok w' -> kept w w' (at_ (dir mf) RManifest) ->
  (forall f, f ∈ files (state mf) -> kept w w' (table_path (dir mf) f)) ->
  unshared (at_ (dir mf) RTmp) w' ->
  (forall k, NextFile (state mf) <= k < 2 ^ 64 -> names w' !! at_ (dir mf) (RTable k) = None) ->
  names w' !! at_ (dir mf) RLog = Some i -> (forall p, names w' !! p = Some i -> p = at_ (dir mf) RLog) ->
  directory w' mf ess i.
Proof.
  intros D Hc Hn Hm Ht Htmp Hfr Hlog Hown. pose proof (dr_path _ _ _ _ D) as Hp.
  destruct D as [[[_ _ Htmp0] Hpath Hok] (j & Hj & Hcj) Hnum Hnd Htab _ _ _]. split; try done.
  - split; [|done|done]. split; [done|done|]. rewrite Hpath, at_tmp. done.
  - exists j. rewrite Hp in *. by apply Hm.
  - apply Forall2_same_length_lookup_2; [by eapply Forall2_length|]. intros k f es Hf Hes.
    eapply holds_kept; [apply Ht; by eapply list_elem_of_lookup_2|]. by apply (Forall2_lookup_lr _ _ _ _ _ _ Htab Hf Hes).
Qed.

Lemma dr_tmp w mf ess i : directory w mf ess i -> unshared (at_ (dir mf) RTmp) w.
Proof. intros D. rewrite <- at_tmp, <- (sn_path _ _ (dr_sound _ _ _ _ D)). apply (cd_tmp _ _ (sn_dir _ _ (dr_sound _ _ _ _ D))). Qed.

(** Changes to the log's file only, descriptors apart. *)
Lemma directory_other w w' mf ess i :
  directory w mf ess i -> calm w' -> names w' = names w -> length (inodes w') = length (inodes w) ->
  (forall j c, j <> i -> inodes w !! j = Some c -> inodes w' !! j = Some c) -> directory w' mf ess i.
Proof.
  intros D Hc Hn Hl Hi. destruct (dr_calm _ _ _ _ D) as [_ Hok].
  assert (Hk: forall r, role_ok r -> r <> RLog -> kept w w' (at_ (dir mf) r)).
  { intros r Hr Hne j c Hj Hcj. rewrite Hn. split; [done|]. apply Hi; [|done]. intros ->.
    apply (dr_own _ _ _ _ D) in Hj. by apply at_inj in Hj. }
  apply (directory_step w); try done.
  - unfold names_ok. by rewrite Hn, Hl.
  - by apply Hk.
  - intros g Hg. destruct (dr_table _ _ _ _ _ D Hg) as (k & H1 & H2 & ->). apply Hk; [cbn; lia|done].
  - apply (unshared_subset _ w); [by rewrite Hn|]. by eapply dr_tmp.
  - intros k. rewrite Hn. apply (dr_fresh _ _ _ _ D).
  - rewrite Hn. apply D.
  - rewrite Hn. apply D.
Qed.

Lemma directory_log w w' mf ess i f : directory w mf ess i -> calm w' -> touches f i w w' -> directory w' mf ess i.
Proof.
  intros D Hc (Hn & Hi & _ & Hl & _). eapply directory_other; [exact D|done|done|done|]. intros j c Hj. by rewrite Hi.
Qed.

Lemma own_fresh w mf ess i : directory w mf ess i -> i <> length (inodes w).
Proof.
  intros D ->. destruct (dr_calm _ _ _ _ D) as [_ Hok]. pose proof (dr_log _ _ _ _ D) as Hl. apply Hok in Hl. lia.
Qed.

(** A new file that is none of these: the lock, which may take the place of
    another, or a table with a number in reserve. *)
Lemma directory_new w w' mf ess i r :
  directory w mf ess i -> calm w' -> names_ok w' -> grows w w' -> role_ok r -> r <> RTmp ->
  (forall k, r = RTable k -> k < NextFile (state mf)) ->
  names w !! at_ (dir mf) r = None \/ r = RLock -> names w' = <[at_ (dir mf) r := length (inodes w)]> (names w) ->
  directory w' mf ess i.
Proof.
  intros D Hc Hok G Hr Htmp Hk Hnone Hn. pose proof (so_next _ (sn_state _ _ (dr_sound _ _ _ _ D))) as Hnx.
  assert (Hother: forall p, p <> at_ (dir mf) r -> names w' !! p = names w !! p) by
    (intros p Hp; rewrite Hn; by apply lookup_insert_ne).
  assert (Hrole: forall r', role_ok r' -> r' <> r -> names w' !! at_ (dir mf) r' = names w !! at_ (dir mf) r') by
    (intros r' Hr' Hne; apply Hother, at_ne; done).
  assert (r <> RManifest) as Hne1.
  { intros ->. destruct (dr_disk _ _ _ _ D) as (j & Hj & _). rewrite (dr_path _ _ _ _ D) in Hj. destruct Hnone; congruence. }
  assert (r <> RLog) as Hne2 by (intros ->; pose proof (dr_log _ _ _ _ D); destruct Hnone; congruence).
  apply (directory_step w); try done.
  - apply kept_grows; [done|]. by apply Hrole.
  - intros f Hf. pose proof (dr_table _ _ _ _ _ D Hf) as (k' & Hk1 & Hk2 & Hpath). apply kept_grows; [done|].
    apply Hother. intros Heq. destruct Hnone as [Hnone| ->]; [|rewrite Hpath in Heq; by apply at_inj in Heq; [|cbn; lia|]].
    pose proof (dr_tables _ _ _ _ D) as Ht. apply list_elem_of_lookup in Hf as [q Hq].
    destruct (Forall2_lookup_l _ _ _ _ _ Ht Hq) as (es & _ & (j & c & Hj & _)). rewrite Heq in Hj. congruence.
  - intros t q. rewrite Hrole by done. intros Ht Hq. destruct (decide (q = at_ (dir mf) r)) as [->|Hne].
    + rewrite Hn, lookup_insert_eq in Hq. injection Hq as <-. destruct (dr_calm _ _ _ _ D) as [_ Hokw]. apply Hokw in Ht. cbn in Ht. lia.
    + rewrite Hother in Hq by done. by apply (dr_tmp _ _ _ _ D t).
  - intros k' Hk'. rewrite Hrole by first [intros <-; specialize (Hk k' eq_refl); lia | cbn; lia]. by apply (dr_fresh _ _ _ _ D).
  - rewrite Hrole by done. apply D.
  - intros p Hp. destruct (decide (p = at_ (dir mf) r)) as [->|Hne].
    + rewrite Hn, lookup_insert_eq in Hp. injection Hp as Hp. by destruct (own_fresh _ _ _ _ D).
    + apply (dr_own _ _ _ _ D). by rewrite <- Hother.
Qed.

(** Only descriptors change. *)
Lemma directory_fds w w' mf ess i :
  directory w mf ess i -> calm w' -> names w' = names w -> inodes w' = inodes w -> directory w' mf ess i.
Proof.
  intros D Hc Hn Hi. destruct (dr_calm _ _ _ _ D) as [_ Hok].
  assert (Hk: forall p, kept w w' p) by (intros p j c; by rewrite Hn, Hi).
  apply (directory_step w); try done.
  - unfold names_ok. by rewrite Hn, Hi.
  - apply (unshared_subset _ w); [by rewrite Hn|]. by eapply dr_tmp.
  - intros k. rewrite Hn. apply (dr_fresh _ _ _ _ D).
  - rewrite Hn. apply D.
  - rewrite Hn. apply D.
Qed.

(** A table the manifest does not name is removed; so is the lock. *)
Lemma directory_remove w w' mf ess i p :
  directory w mf ess i -> calm w' -> names w' = delete p (names w) -> inodes w' = inodes w ->
  p <> at_ (dir mf) RManifest -> p <> at_ (dir mf) RLog -> (forall f, f ∈ files (state mf) -> p <> table_path (dir mf) f) ->
  directory w' mf ess i.
Proof.
  intros D Hc Hn Hi Hp1 Hp2 Hp3. destruct (dr_calm _ _ _ _ D) as [_ Hok].
  assert (Hk: forall q, p <> q -> kept w w' q) by (intros q Hq j c; by rewrite Hn, Hi, lookup_delete_ne).
  assert (Hnone: forall q, names w !! q = None -> names w' !! q = None).
  { intros q Hq. rewrite Hn. destruct (decide (p = q)) as [->|]; [apply lookup_delete_eq|by rewrite lookup_delete_ne]. }
  apply (directory_step w); try done.
  - unfold names_ok. rewrite Hn, Hi. by apply map_Forall_delete.
  - by apply Hk.
  - intros f Hf. by apply Hk, Hp3.
  - apply (unshared_subset _ w); [rewrite Hn; apply delete_subseteq|]. by eapply dr_tmp.
  - intros k Hk'. by apply Hnone, (dr_fresh _ _ _ _ D).
  - rewrite Hn, lookup_delete_ne by done. apply D.
  - intros q Hq. rewrite Hn in Hq. apply lookup_delete_Some in Hq as [_ Hq]. by apply (dr_own _ _ _ _ D).
Qed.

(** The manifest is replaced by one that names tables that are there. *)
Lemma directory_update w w' mf mf' ess ess' i :
  directory w mf ess i -> sound mf' w' -> on_disk w' mf' -> renewed (path mf) w w' -> dir mf' = dir mf ->
  numbered (state mf') -> NoDup (Name <$> files (state mf')) -> NextFile (state mf) <= NextFile (state mf') ->
  Forall2 (fun f es => holds w (table_path (dir mf) f) es) (files (state mf')) ess' ->
  directory w' mf' ess' i.
Proof.
  intros D Hs Hd R Hdir Hnum Hnd Hnext Ht. pose proof (dr_path _ _ _ _ D) as Hp.
  pose proof (so_next _ (sn_state _ _ Hs)) as Hnx. rewrite Hp in R. destruct R as [S Htmp Hown].
  change (at_ (dir mf) RManifest) with (filepath_Join (dir mf) Manifest.fileName) in S, Htmp. rewrite at_tmp in S, Htmp.
  change (filepath_Join (dir mf) Manifest.fileName) with (at_ (dir mf) RManifest) in S.
  assert (Hother: forall r, role_ok r -> r <> RManifest -> r <> RTmp -> at_ (dir mf) r ∉ [at_ (dir mf) RManifest; at_ (dir mf) RTmp]).
  { intros r Hr H1 H2. rewrite !not_elem_of_cons. split_and!; [by apply at_ne..|apply not_elem_of_nil]. }
  assert (names w' !! at_ (dir mf) RLog = Some i) as Hlog.
  { rewrite (st_names _ _ _ S) by by apply Hother. apply (dr_log _ _ _ _ D). }
  split; try done; rewrite Hdir.
  - apply Forall2_same_length_lookup_2; [by eapply Forall2_length|]. intros q f es Hf Hes.
    pose proof (Forall2_lookup_lr _ _ _ _ _ _ Ht Hf Hes) as Hh. eapply holds_kept; [|exact Hh]. eapply kept_steady; [exact S|].
    destruct (named_below_in _ _ f Hnum) as (k & Hk & Hlt); [by eapply list_elem_of_lookup_2|]. unfold table_path. rewrite Hk.
    apply (Hother (RTable k)); [cbn; lia|done..].
  - intros k Hk. rewrite (st_names _ _ _ S) by (apply Hother; [cbn; lia|done..]). apply (dr_fresh _ _ _ _ D). lia.
  - done.
  - intros p Hpi. destruct (decide (p = at_ (dir mf) RManifest)) as [->|Hne1].
    { pose proof (Hown i _ Hpi Hlog) as Heq. by apply at_inj in Heq. }
    destruct (decide (p = at_ (dir mf) RTmp)) as [->|Hne2]; [congruence|].
    apply (dr_own _ _ _ _ D). rewrite <- (st_names _ _ _ S); [done|set_solver].
Qed.
End directory.
