(* ===== verification/DbLedger.v ===== *)
(** * DbLedger: the bookkeeping of a database

    Sequence numbers, sizes and counters: the entries of the tables are older
    than those of the log, no two entries of a key have the same number, and
    everything stays far below the widths of the machine integers while the
    volume [V], a bound on all that was ever written, is below a terabyte. *)

From Stdlib Require Import ZArith Lia Strings.Byte.
From stdpp Require Import base decidable list gmap strings numbers sorting sets.
From S2P Require Import Prelude Varint Bloom ByteUtil Os Wal SkipList SSTable SSTableFacts SSTableWriter SSTableSpec Manifest Compact CompactFacts Db DbSpec.
#[local] Open Scope Z_scope.

(** ** The size of an operation *)

Definition kv_cost (k v : slice) : Z := len (bs k) + len (bs v) + 64.
Definition op_cost (o : Wal.op) : Z :=
  match o with
  | Wal.OpPut k v => kv_cost k v
  | Wal.OpDelete k => kv_cost k None
  | Wal.OpBatch es => foldr (fun e n => kv_cost (Wal.bKey e) (Wal.bValue e) + n) 0 es
  end.
Definition op_keys (o : Wal.op) : list slice :=
  match o with Wal.OpPut k _ => [k] | Wal.OpDelete k => [k] | Wal.OpBatch es => Wal.bKey <$> es end.

(** What may be logged: keys that are not empty, and a frame within the limit. *)
Record loggable (o : Wal.op) : Prop := {
  lo_keys : Forall (fun k => bs k <> []) (op_keys o);
  lo_some : o <> Wal.OpBatch [];
  lo_size : op_cost o + 64 <= 2 ^ 28
}.

Lemma varint_short x : len (varint x) <= 10.
Proof.
  assert (forall fuel y, (length (encode_loop fuel [] y) <= S fuel)%nat) as H; [|specialize (H 9%nat x); unfold varint, EncodeUint64; lia].
  induction fuel as [|fuel IH]; intros y; cbn [encode_loop]; (destruct (y >=? 0x80); [|cbn; lia]); [cbn; lia|].
  rewrite encode_loop_app, length_app. specialize (IH (Z.shiftr y 7)). cbn [app length]. lia.
Qed.

Lemma field_length b : len (field b) <= len b + 10.
Proof. unfold field. rewrite length_app. pose proof (varint_short (len b)). lia. Qed.

Lemma batch_bytes_cost es : forall n, len (Wal.entries_bytes n es) <= op_cost (Wal.OpBatch es).
Proof.
  induction es as [|e es IH]; intros n; [done|]. cbn [Wal.entries_bytes op_cost foldr]. rewrite length_app.
  specialize (IH (n + 1)). cbn [op_cost] in IH. unfold Wal.entry_bytes. rewrite !length_app. cbn [length].
  pose proof (field_length (bs (Wal.bKey e))). pose proof (field_length (bs (Wal.bValue e))).
  pose proof (varint_short (n + 1)). unfold kv_cost in *. lia.
Qed.

Lemma op_payload_cost n o : len (Wal.op_payload n o) <= op_cost o + 10.
Proof.
  destruct o as [k v|k|es]; cbn [Wal.op_payload].
  - rewrite Wal.encodeKV_alt, !length_app. pose proof (field_length (bs k)). pose proof (field_length (bs v)).
    pose proof (varint_short (n + 1)). unfold op_cost, kv_cost. lia.
  - rewrite Wal.encodeKV_alt, !length_app. pose proof (field_length (bs k)). pose proof (field_length []).
    pose proof (varint_short (n + 1)). unfold op_cost, kv_cost. cbn [bs length] in *. lia.
  - unfold Wal.batch_payload. rewrite length_app. pose proof (batch_bytes_cost es n). pose proof (varint_short (len es)). lia.
Qed.

Lemma op_cost_nonneg o : 0 <= op_cost o.
Proof.
  destruct o as [k v|k|es]; cbn [op_cost]; [unfold kv_cost; lia..|].
  induction es as [|e es IH]; cbn; [lia|]. unfold kv_cost in *. lia.
Qed.
Lemma op_count_cost o : 64 * Wal.op_count o <= op_cost o.
Proof.
  destruct o as [k v|k|es]; cbn [Wal.op_count op_cost]; unfold kv_cost; [lia..|].
  induction es as [|e es IH]; cbn [length foldr] in *; lia.
Qed.

Lemma loggable_ok n o : loggable o -> 0 <= n -> n + Wal.op_count o < 2 ^ 64 -> Wal.op_ok n o.
Proof. intros [_ Hs Hc] H0 Hn. split_and!; [done|done| |done]. pose proof (op_payload_cost n o). lia. Qed.

Lemma frame_cost n o : len (Wal.op_frame n o) <= op_cost o + 19.
Proof. unfold Wal.op_frame. rewrite Wal.length_frame. pose proof (op_payload_cost n o). lia. Qed.

Lemma bs_append_nil b : bs (append_nil b) = b.
Proof. by destruct b. Qed.

(** The entries an operation writes. *)
Lemma op_entries_size n o : 0 <= n -> n + Wal.op_count o < 2 ^ 64 -> loggable o ->
  Forall (fun e => entry_ok e /\ esize e <= 2 ^ 29 /\ key_of e <> []) (rec_entry <$> Wal.op_records n o) /\
  tsize (rec_entry <$> Wal.op_records n o) <= op_cost o.
Proof.
  intros H0 Hn [Hk _ Hc].
  assert (Hone: forall r, 0 <= Wal.Seq r < 2 ^ 64 -> bs (Wal.Key r) <> [] ->
    kv_cost (Wal.Key r) (Wal.Value r) <= 2 ^ 28 ->
    (entry_ok (rec_entry r) /\ esize (rec_entry r) <= 2 ^ 29 /\ key_of (rec_entry r) <> []) /\
    esize (rec_entry r) <= kv_cost (Wal.Key r) (Wal.Value r)).
  { intros r Hr Hkr Hsz. unfold kv_cost, entry_ok, esize, key_of in *. cbn. destruct (Wal.Deleted r); cbn; split_and!; try done; lia. }
  destruct o as [k v|k|es]; cbn [Wal.op_records op_keys Wal.op_count op_cost] in *.
  - apply Forall_cons in Hk as [Hk _].
    destruct (Hone (Wal.mkRecord Wal.TypePut (append_nil (bs k)) (append_nil (bs v)) (n + 1) false)) as [H1 H2];
      cbn; unfold kv_cost in *; rewrite ?bs_append_nil; try done; try lia.
    split; [by apply Forall_singleton|]. unfold kv_cost in H2. cbn in H2 |- *. rewrite !bs_append_nil in H2. lia.
  - apply Forall_cons in Hk as [Hk _].
    destruct (Hone (Wal.mkRecord Wal.TypeDelete (append_nil (bs k)) None (n + 1) true)) as [H1 H2];
      cbn; unfold kv_cost in *; rewrite ?bs_append_nil; try done; try (cbn in *; lia).
    split; [by apply Forall_singleton|]. unfold kv_cost in H2. cbn in H2 |- *. rewrite !bs_append_nil in H2. lia.
  - revert n H0 Hn. induction es as [|e es IH]; intros n H0 Hn; [by split; [constructor|]|].
    cbn [fmap list_fmap foldr length Wal.entries_records] in *. apply Forall_cons in Hk as [Hke Hk].
    assert (0 <= foldr (fun e n => kv_cost (Wal.bKey e) (Wal.bValue e) + n) 0 es) as Hrest.
    { clear. induction es as [|x es IH]; cbn; unfold kv_cost in *; lia. }
    assert (64 <= kv_cost (Wal.bKey e) (Wal.bValue e)) as Hpos by (unfold kv_cost; lia).
    destruct (IH Hk ltac:(lia) (n + 1)) as [IH1 IH2]; [lia|lia|].
    destruct (Hone (Wal.entry_record (n + 1) e)) as [H1 H2];
      cbn; unfold kv_cost in *; rewrite ?bs_append_nil; try done; try lia.
    split; [by constructor|]. cbn. fold (tsize (rec_entry <$> Wal.entries_records (n + 1) es)).
    unfold kv_cost in H2. cbn in H2. rewrite !bs_append_nil in H2. lia.
Qed.

(** ** The ledger *)

(** The entries of a database: those of its tables, then those of its log.  A
    table may repeat entries of the log, if the process died after a flush
    recorded the table and before it emptied the log. *)
Definition all_entries (ess : list (list entry)) (n : Z) (os : list Wal.op) : list entry := concat ess ++ log_entries n os.

Record ledger (V : Z) (st : Manifest.State) (ess : list (list entry)) (n : Z) (os : list Wal.op) : Prop := {
  lg_limit : V < 2 ^ 40;
  lg_version : Manifest.Version st <> 0;
  lg_log : 0 <= n /\ Wal.log_ok n os;
  lg_old : Forall (fun e => seq_of e <= Manifest.LogSeq_ st) (concat ess);
  lg_seq : Forall (fun f => Manifest.MaxSeq f <= Manifest.LogSeq_ st) (Manifest.files st) /\ Manifest.LogSeq_ st <= n + Wal.log_count os;
  lg_split : Forall (fun e => seq_of e <= n \/ e ∈ log_entries n os) (concat ess);
  lg_coherent : coherent (all_entries ess n os);
  lg_entries : Forall (fun e => entry_ok e /\ esize e <= 2 ^ 29 /\ key_of e <> []) (all_entries ess n os);
  lg_size : tsize (all_entries ess n os) <= V;
  lg_count : n + Wal.log_count os <= V;
  lg_next : Manifest.NextFile st <= V + 1;
  lg_bytes : len (Wal.log_bytes n os) <= V
}.

Lemma log_count_nonneg os : forall n, Wal.log_ok n os -> 0 <= Wal.log_count os.
Proof.
  induction os as [|o os IH]; intros n Hok; cbn [Wal.log_count Wal.log_ok] in *; [lia|].
  destruct Hok as [Hp Hok]. pose proof (Wal.op_count_pos n o Hp). specialize (IH _ Hok). lia.
Qed.

(** The entries of the log are newer than those of the tables, and those of an
    operation to come newer than all. *)
Lemma ledger_newer V st ess n os o :
  ledger V st ess n os -> loggable o -> V + op_cost o < 2 ^ 40 ->
  (forall e e', e ∈ all_entries ess n os -> e' ∈ log_entries (n + Wal.log_count os) [o] -> seq_of e < seq_of e') /\
  seqs_in (n + Wal.log_count os) (n + Wal.log_count os + Wal.op_count o) (log_entries (n + Wal.log_count os) [o]) /\
  Wal.op_ok (n + Wal.log_count os) o.
Proof.
  intros L Ho HV. destruct (lg_log _ _ _ _ _ L) as [Hn Hok]. pose proof (log_count_nonneg _ _ Hok) as Hpos.
  pose proof (lg_count _ _ _ _ _ L) as Hcnt. pose proof (op_count_cost o) as Hoc. pose proof (lg_limit _ _ _ _ _ L) as HVl.
  assert (Wal.op_ok (n + Wal.log_count os) o) as Hop by (apply loggable_ok; [done|lia|lia]).
  assert (seqs_in (n + Wal.log_count os) (n + Wal.log_count os + Wal.op_count o) (log_entries (n + Wal.log_count os) [o])) as Hs.
  { pose proof (log_seqs_in [o] (n + Wal.log_count os)) as Hl. cbn [Wal.log_count Wal.log_ok] in Hl. rewrite Z.add_0_r in Hl. by apply Hl. }
  split_and!; [|done|done]. intros e e' He He'. destruct Hs as [_ Hs]. rewrite Forall_forall in Hs. specialize (Hs e' He').
  destruct (log_seqs_in os n Hok) as [_ Hl]. rewrite Forall_forall in Hl. unfold all_entries in He.
  apply elem_of_app in He as [He|He]; [|specialize (Hl e He); lia].
  pose proof (lg_old _ _ _ _ _ L) as Hold. rewrite Forall_forall in Hold. specialize (Hold e He).
  pose proof (proj2 (lg_seq _ _ _ _ _ L)). lia.
Qed.

Lemma all_entries_app ess n os os' :
  all_entries ess n (os ++ os') = all_entries ess n os ++ log_entries (n + Wal.log_count os) os'.
Proof. unfold all_entries. by rewrite log_entries_app, app_assoc. Qed.

Lemma log_entries_one n o : log_entries n [o] = rec_entry <$> Wal.op_records n o.
Proof. unfold log_entries. cbn [Wal.log_records]. by rewrite app_nil_r. Qed.

(** Logging an operation. *)
Lemma ledger_append V V' st ess n os o :
  ledger V st ess n os -> loggable o -> V + op_cost o + 64 <= V' -> V' < 2 ^ 40 ->
  ledger V' st ess n (os ++ [o]).
Proof.
  intros L Ho HV HV'. destruct (ledger_newer V st ess n os o L Ho ltac:(lia)) as (Hnew & [Hord _] & Hop).
  destruct L as [L0 L1 [Hn Hok] L3 [L4 L4'] Lsp L5 L6 L7 L8 L9 L10]. pose proof (op_count_cost o) as Hoc.
  pose proof (log_count_nonneg _ _ Hok) as Hpos. pose proof (Wal.op_count_pos _ _ Hop) as Hop1.
  destruct (op_entries_size (n + Wal.log_count os) o) as [Hent Hsz]; [lia|lia|done|].
  split; try done; rewrite ?all_entries_app, ?log_entries_one.
  - split; [done|]. rewrite Wal.log_ok_app. by split.
  - split; [done|]. rewrite Wal.log_count_app. cbn [Wal.log_count]. lia.
  - eapply Forall_impl; [exact Lsp|]. cbn. intros e [He|He]; [by left|right]. rewrite log_entries_app. apply elem_of_app. by left.
  - rewrite <- log_entries_one. by apply coherent_writes.
  - by apply Forall_app.
  - rewrite tsize_app. lia.
  - rewrite Wal.log_count_app. cbn [Wal.log_count]. lia.
  - lia.
  - rewrite Wal.log_bytes_app, length_app. cbn [Wal.log_bytes]. rewrite app_nil_r.
    pose proof (frame_cost (n + Wal.log_count os) o). lia.
Qed.

Lemma max_seq_ge es e : e ∈ es -> seq_of e <= max_seq es.
Proof.
  induction es as [|x es IH] using rev_ind; [by intros ?%not_elem_of_nil|]. rewrite max_seq_snoc.
  intros [He|He]%elem_of_app; [specialize (IH He); lia|]. apply list_elem_of_singleton in He as ->. lia.
Qed.
Lemma max_seq_le es b : 0 <= b -> (forall e, e ∈ es -> seq_of e <= b) -> max_seq es <= b.
Proof.
  intros Hb. induction es as [|x es IH] using rev_ind; [done|]. rewrite max_seq_snoc. intros Hall.
  assert (max_seq es <= b) by (apply IH; intros e He; apply Hall, elem_of_app; by left).
  specialize (Hall x ltac:(apply elem_of_app; right; by apply list_elem_of_singleton)). lia.
Qed.

(** Turning the log into a table. *)
Lemma ledger_flush V V' st st' ess n os mes fm m :
  let es := mem_entry <$> mes in
  ledger V st ess n os -> mem_holds mes (log_entries n os) -> V + 1 <= V' -> V' < 2 ^ 40 ->
  Manifest.files st' = Manifest.files st ++ [fm] -> Manifest.MaxSeq fm = max_seq es ->
  Manifest.LogSeq_ st' = Z.max (Manifest.LogSeq_ st) (max_seq es) ->
  Manifest.NextFile st' = Manifest.NextFile st + 1 -> Manifest.Version st' <> 0 ->
  contents (all_entries ess n os) m ->
  ledger V' st' (ess ++ [es]) (n + Wal.log_count os) [] /\
  contents (all_entries (ess ++ [es]) (n + Wal.log_count os) []) m.
Proof.
  intros es L Hm HV HV' Hfs Hfm Hls Hnf Hver Hcon. destruct L as [L0 L1 [Hn Hok] L3 [L4 L4'] Lsp L5 L6 L7 L8 L9 L10].
  pose proof (log_count_nonneg _ _ Hok) as Hpos. destruct (log_seqs_in os n Hok) as [_ Hseq].
  pose proof (mem_holds_subset _ _ Hm) as Hsub. fold es in Hsub.
  assert (forall e, e ∈ es -> seq_of e <= n + Wal.log_count os) as Hle.
  { intros e He. rewrite Forall_forall in Hseq. apply Hsub, Hseq in He. lia. }
  pose proof (max_seq_le es (n + Wal.log_count os) ltac:(lia) Hle) as Hmax.
  destruct (contents_flush mes (log_entries n os) (concat ess) m Hm L5 Hcon) as [Hcon' Hcoh']. fold es in Hcon', Hcoh'.
  assert (all_entries (ess ++ [es]) (n + Wal.log_count os) [] = concat ess ++ es) as Hall.
  { unfold all_entries, log_entries. cbn. by rewrite concat_app, app_nil_r; cbn; rewrite app_nil_r. }
  split; [|by rewrite Hall]. unfold all_entries in L6, L7. apply Forall_app in L6 as [L6 L6'].
  split; try done; rewrite ?Hall; try done.
  - split; [lia|done].
  - rewrite concat_app, Forall_app, Hls. split.
    + eapply Forall_impl; [exact L3|]. cbn. intros e He. lia.
    + cbn. rewrite app_nil_r, Forall_forall. intros e He. pose proof (max_seq_ge es e He). lia.
  - rewrite Hfs, Hls. cbn [Wal.log_count]. split; [|lia]. apply Forall_app. split.
    + eapply Forall_impl; [exact L4|]. cbn. intros f Hf. lia.
    + apply Forall_singleton. lia.
  - rewrite concat_app, Forall_app. split.
    + eapply Forall_impl; [exact L3|]. cbn. intros e He. left. lia.
    + cbn. rewrite app_nil_r, Forall_forall. intros e He. left. by apply Hle.
  - apply Forall_app. split; [done|]. rewrite Forall_forall in L6' |- *. intros e He. apply L6'. by apply Hsub.
  - rewrite tsize_app in L7 |- *. pose proof (mem_holds_size _ _ Hm) as Hsz. fold es in Hsz. lia.
  - cbn [Wal.log_count]. lia.
  - rewrite Hnf. lia.
  - cbn. pose proof (tsize_len (concat ess ++ log_entries n os)). lia.
Qed.

(** The same table recorded while the log still has its entries. *)
Lemma ledger_recorded V V' st st' ess n os mes fm m :
  let es := mem_entry <$> mes in
  ledger V st ess n os -> mem_holds mes (log_entries n os) -> 2 * V + 1 <= V' -> V' < 2 ^ 40 ->
  Manifest.files st' = Manifest.files st ++ [fm] -> Manifest.MaxSeq fm = max_seq es ->
  Manifest.LogSeq_ st' = Z.max (Manifest.LogSeq_ st) (max_seq es) ->
  Manifest.NextFile st' = Manifest.NextFile st + 1 -> Manifest.Version st' <> 0 ->
  contents (all_entries ess n os) m ->
  ledger V' st' (ess ++ [es]) n os /\ contents (all_entries (ess ++ [es]) n os) m.
Proof.
  intros es L Hm HV HV' Hfs Hfm Hls Hnf Hver Hcon. destruct L as [L0 L1 [Hn Hok] L3 [L4 L4'] Lsp L5 L6 L7 L8 L9 L10].
  pose proof (log_count_nonneg _ _ Hok) as Hpos. destruct (log_seqs_in os n Hok) as [_ Hseq].
  pose proof (mem_holds_subset _ _ Hm) as Hsub. fold es in Hsub. pose proof (mem_holds_size _ _ Hm) as Hsz. fold es in Hsz.
  assert (max_seq es <= n + Wal.log_count os) as Hmax.
  { apply max_seq_le; [lia|]. intros e He. rewrite Forall_forall in Hseq. apply Hsub, Hseq in He. lia. }
  assert (Hin: forall e, e ∈ all_entries (ess ++ [es]) n os <-> e ∈ all_entries ess n os).
  { intros e. unfold all_entries. rewrite concat_app. cbn. rewrite app_nil_r, !elem_of_app.
    split; [intros [[?|He%Hsub]|?]; auto|intros [?|?]; auto]. }
  assert (tsize (all_entries (ess ++ [es]) n os) <= 2 * tsize (all_entries ess n os)) as Hts.
  { unfold all_entries. rewrite concat_app, !tsize_app. cbn [concat]. rewrite app_nil_r.
    pose proof (tsize_len (concat ess)). lia. }
  split.
  - split; try done; try lia.
    + rewrite concat_app, Forall_app, Hls. split; [eapply Forall_impl; [exact L3|]; cbn; intros e He; lia|].
      cbn. rewrite app_nil_r, Forall_forall. intros e He. pose proof (max_seq_ge es e He). lia.
    + rewrite Hfs, Hls. split; [|lia]. apply Forall_app. split; [|apply Forall_singleton; lia].
      eapply Forall_impl; [exact L4|]. cbn. intros f Hf. lia.
    + rewrite concat_app, Forall_app. split; [done|]. cbn. rewrite app_nil_r, Forall_forall. intros e He. right. by apply Hsub.
    + apply (coherent_subset (all_entries ess n os)); [|done]. intros e. by rewrite Hin.
    + rewrite Forall_forall in L6 |- *. intros e He%Hin. by apply L6.
  - apply (contents_subset (all_entries ess n os)); [intros e; by rewrite Hin| |done|done].
    intros k e (H3 & H4 & _). exists e. by rewrite Hin.
Qed.

(** Replacing tables by their merge. *)
Lemma ledger_merge V V' st st' ess ess1 kept es n os m :
  ledger V st ess n os -> concat ess ≡ₚ concat ess1 ++ concat kept -> Forall ascending ess1 ->
  (forall k, lookup_entry k es = newest k ess1) -> es ⊆ concat ess1 -> tsize es <= tsize (concat ess1) ->
  V + 1 <= V' -> V' < 2 ^ 40 ->
  Forall (fun f => Manifest.MaxSeq f <= Manifest.LogSeq_ st) (Manifest.files st') ->
  Manifest.LogSeq_ st' = Manifest.LogSeq_ st -> Manifest.NextFile st' = Manifest.NextFile st + 1 ->
  Manifest.Version st' <> 0 -> contents (all_entries ess n os) m ->
  ledger V' st' (kept ++ [es]) n os /\ contents (all_entries (kept ++ [es]) n os) m.
Proof.
  intros L Hp Ha Hl Hs Hsz HV HV' Hfs Hls Hnf Hver Hcon. destruct L as [L0 L1 L2 L3 [L4 L4'] Lsp L5 L6 L7 L8 L9 L10].
  set (rest := concat kept ++ log_entries n os).
  assert (all_entries ess n os ≡ₚ concat ess1 ++ rest) as Hp1 by (unfold all_entries, rest; by rewrite Hp, app_assoc).
  assert (all_entries (kept ++ [es]) n os ≡ₚ es ++ rest) as Hp2.
  { unfold all_entries, rest. rewrite concat_app. cbn. rewrite app_nil_r, (Permutation_app_comm (concat kept)). by rewrite <- app_assoc. }
  assert (Hperm: forall E E' m, E ≡ₚ E' -> contents E m /\ coherent E -> contents E' m /\ coherent E').
  { intros E E' m' HE [H1 H2]. split.
    - apply (contents_subset E E'); [intros e; by rewrite HE| |exact H2|exact H1]. intros k e (H3 & H4 & _). exists e. by rewrite <- HE.
    - apply (coherent_subset E E'); [|exact H2]. intros e. by rewrite HE. }
  destruct (Hperm _ _ m Hp1 (conj Hcon L5)) as [H1 H2].
  destruct (contents_merged ess1 es rest m Ha Hl Hs H2 H1) as [H3 H4].
  destruct (Hperm _ _ m (symmetry Hp2) (conj H3 H4)) as [H5 H6]. split; [|done].
  assert (es ++ rest ⊆ concat ess1 ++ rest) as Hsub.
  { intros e. rewrite !elem_of_app. intros [He|He]; [left; by apply Hs|by right]. }
  assert (Hin: forall e, e ∈ concat (kept ++ [es]) -> e ∈ concat ess).
  { intros e He. rewrite Hp. rewrite concat_app in He. cbn in He. rewrite app_nil_r in He.
    rewrite elem_of_app in *. destruct He as [He|He]; [by right|left; by apply Hs]. }
  split; try done.
  - rewrite Hls, Forall_forall in *. intros e He. by apply L3, Hin.
  - by rewrite Hls.
  - rewrite Forall_forall in *. intros e He. by apply Lsp, Hin.
  - rewrite Forall_forall in *. intros e He. apply L6. rewrite Hp1. apply Hsub. by rewrite <- Hp2.
  - rewrite (tsize_perm _ _ Hp2), tsize_app. rewrite (tsize_perm _ _ Hp1), tsize_app in L7. lia.
  - lia.
  - lia.
  - lia.
Qed.
