(* ===== verification/DbState.v ===== *)
(** * DbState: an open database and its files

    The invariant of an open database: its directory, its ledger, the log and
    the tables open on their files, the memtable holding what the log holds,
    and the lock. *)

From Stdlib Require Import ZArith Lia Strings.Byte.
From stdpp Require Import base decidable list gmap strings numbers sorting sets.
From S2P Require Import Prelude Bloom ByteUtil Os OsFacts Wal SkipList SSTable SSTableFacts SSTableWriter SSTableSpec Manifest ManifestFacts ManifestProps FileLock Compact CompactFacts CompactMerge Db DbSpec DbFiles DbLedger.
#[local] Open Scope Z_scope.

(** ** Tables in use *)

Section serving.
Context {TA : TableAccess}.

(** A table in use: its file, which has the table's name, is not that of the
    log ([fl], [i]). *)
Record serving (w : World) (fl i : nat) (t : Reader) (es : list entry) : Prop := {
  sv_use : in_use w t es;
  sv_foreign : foreign fl i w t;
  sv_open : exists g d, rf t = Some g /\ fds w !! g = Some d /\ is_open d = true /\ names w !! SSTable.Path t = Some (Os.ino d)
}.

(** A table in use stays in use if its file and its descriptor stay. *)
Lemma serving_frame w w' fl i t es :
  calm w' -> kept w w' (SSTable.Path t) -> (forall g d, rf t = Some g -> fds w !! g = Some d -> fds w' !! g = Some d) ->
  serving w fl i t es -> serving w' fl i t es.
Proof.
  intros Hc Hk Hf [[U1 U2 (g & d & U3 & U4 & U5)] (g' & d' & F1 & F2 & F3 & F4) (g0 & d0 & O1 & O2 & O3 & O4)].
  assert (g' = g) as -> by congruence. assert (g0 = g) as -> by congruence.
  assert (d' = d) as -> by congruence. assert (d0 = d) as -> by congruence.
  destruct (lookup_lt_is_Some_2 _ _ U5) as [c Hc0]. destruct (Hk _ _ O4 Hc0) as [Hn Hi].
  split; [split; [|done|]| |].
  - eapply access_opened_keeps, U1. split; [done|]. intros f1 d1 c1 Hf1 Hd1 Hc1. assert (f1 = g) as -> by congruence.
    assert (d1 = d) as -> by congruence. assert (c1 = c) as -> by congruence. by split; [apply Hf|].
  - exists g, d. split_and!; [done|by apply Hf|by eapply lookup_lt_Some].
  - exists g, d. split_and!; [done|done|by apply Hf|done].
  - exists g, d. split_and!; [done|by apply Hf|done|done].
Qed.

Lemma serving_touches w w' fl i t es :
  touches fl i w w' -> calm w' -> serving w fl i t es -> serving w' fl i t es.
Proof.
  intros Ht Hc Hs. pose proof Hs as [_ (g & d & F1 & F2 & F3 & F4) (g0 & d0 & O1 & O2 & O3 & O4)].
  assert (g0 = g) as -> by congruence. assert (d0 = d) as -> by congruence.
  apply (serving_frame w); [done| | |done].
  - apply (kept_touches fl i); [done|congruence].
  - intros g1 d1 H1 H2. destruct Ht as (_ & _ & T3 & _). rewrite T3; [done|congruence].
Qed.

Lemma serving_steady ps w w' fl i t es :
  steady ps w w' -> calm w' -> SSTable.Path t ∉ ps -> serving w fl i t es -> serving w' fl i t es.
Proof. intros S Hc Hp. apply serving_frame; [done|by eapply kept_steady|]. intros g d _. apply (st_fds _ _ _ S). Qed.

Lemma serving_grows w w' fl i t es : calm w' -> grows w w' -> names w' = names w -> serving w fl i t es -> serving w' fl i t es.
Proof.
  intros Hc G Hn. apply (serving_steady []); [|done|apply not_elem_of_nil]. apply grows_steady; [done|]. intros p _. by rewrite Hn.
Qed.
End serving.

(** ** The lock *)

(** The lock of the directory [d] is held; its open file is none of the others. *)
Definition owns_lock (w : World) (fl i : nat) (d : string) (ts : list Reader) (lk : option FileLock.Lock) : Prop :=
  exists l g j c, lk = Some l /\ FileLock.held l = true /\ FileLock.f l = Some g /\ FileLock.path l = at_ d RLock /\
    has_file w g j (len c) c /\ names w !! at_ d RLock = Some j /\ g <> fl /\ j <> i /\
    Forall (fun t => rf t <> Some g) ts.

Lemma owns_lock_frame w w' fl i d ts ts' lk :
  kept w w' (at_ d RLock) ->
  (forall g d0, Forall (fun t => rf t <> Some g) ts -> g <> fl -> fds w !! g = Some d0 ->
    fds w' !! g = Some d0 /\ Forall (fun t => rf t <> Some g) ts') ->
  owns_lock w fl i d ts lk -> owns_lock w' fl i d ts' lk.
Proof.
  intros Hk Hf (l & g & j & c & H1 & H2 & H3 & H4 & [H5 H6] & H7 & H8 & H9 & H10).
  destruct (Hf g _ H10 H8 H5) as [Hg Hts]. destruct (Hk _ _ H7 H6) as [Hn Hi]. exists l, g, j, c. by split_and!.
Qed.

Lemma owns_lock_touches w w' fl i d ts lk :
  touches fl i w w' -> owns_lock w fl i d ts lk -> owns_lock w' fl i d ts lk.
Proof.
  intros Ht Hl. eapply owns_lock_frame; [| |exact Hl].
  - destruct Hl as (l & g & j & c & _ & _ & _ & _ & _ & H7 & _ & H9 & _). apply (kept_touches fl i); [done|congruence].
  - intros g d0 Hts Hg Hd. destruct Ht as (_ & _ & T3 & _). by rewrite T3.
Qed.

Lemma owns_lock_steady ps w w' fl i d ts lk :
  steady ps w w' -> at_ d RLock ∉ ps -> owns_lock w fl i d ts lk -> owns_lock w' fl i d ts lk.
Proof.
  intros S Hp. apply owns_lock_frame; [by eapply kept_steady|]. intros g d0 Hts _ Hg. split; [by apply (st_fds _ _ _ S)|done].
Qed.

Lemma owns_lock_grows w w' fl i d ts lk : grows w w' -> names w' = names w -> owns_lock w fl i d ts lk -> owns_lock w' fl i d ts lk.
Proof.
  intros G Hn. apply (owns_lock_steady []); [|apply not_elem_of_nil]. apply grows_steady; [done|]. intros p _. by rewrite Hn.
Qed.

(** ** The database *)

Section state.
Context {TA : TableAccess} {F : Type} `{Float64 F} {J : Manifest.Json} {JO : JsonOk J} {E : FileLock.Env}.
Context (seed : nat -> Z).

(** Everything but the memtable. *)
Record base (V : Z) (s : DB * World) (ess : list (list entry)) (n : Z) (os : list Wal.op) (i : nat) : Prop := {
  ba_dir : directory (snd s) (manif (fst s)) ess i;
  ba_ledger : ledger V (Manifest.state (manif (fst s))) ess n os;
  ba_open : closed (fst s) = false;
  ba_same : Db.dir (fst s) = Manifest.dir (manif (fst s));
  ba_log : Wal.log_on (wal (fst s), snd s) i (Wal.log_bytes n os);
  ba_seq : Wal.nextSeq (wal (fst s)) = n + Wal.log_count os;
  ba_tables : Forall2 (serving (snd s) (Wal.f (wal (fst s))) i) (tables (fst s)) ess;
  ba_paths : SSTable.Path <$> tables (fst s) = table_path (Db.dir (fst s)) <$> Manifest.files (Manifest.state (manif (fst s)));
  ba_distinct : NoDup (rf <$> tables (fst s));
  ba_lock : owns_lock (snd s) (Wal.f (wal (fst s))) i (Db.dir (fst s)) (tables (fst s)) (lock (fst s))
}.

(** The memtable holds what the log holds. *)
Definition in_mem (db : DB) (W : list entry) : Prop :=
  exists mes, SkipList.repr (MemTable.sl (mem db)) mes /\ mem_holds mes W.

(** The database holds the map [m]; [V] bounds what was ever written to it. *)
Definition holds_map (V : Z) (s : DB * World) (m : kvmap) : Prop :=
  exists ess n os i, base V s ess n os i /\ in_mem (fst s) (log_entries n os) /\ contents (all_entries ess n os) m.

Lemma base_calm V s ess n os i : base V s ess n os i -> calm (snd s).
Proof. intros B. apply (dr_calm _ _ _ _ (ba_dir _ _ _ _ _ _ B)). Qed.

(** Nothing is waiting to be flushed. *)
Definition clean (s : DB * World) : Prop := 
  MemTable.Len (mem (fst s)) = 0 /\ MemTable.Bytes (mem (fst s)) = 0 /\ Wal.Size (wal (fst s)) = 0.

(** An empty memtable means an empty log. *)
Lemma empty_clean V s ess n os i mes :
  base V s ess n os i -> SkipList.repr (MemTable.sl (mem (fst s))) mes -> mem_holds mes (log_entries n os) -> mes = [] -> clean s.
Proof.
  intros B Hr Hm ->. split_and!.
  - exact (SkipList.repr_Len _ _ Hr).
  - exact (SkipList.repr_Bytes_nil _ Hr).
  - destruct (ba_log _ _ _ _ _ _ B) as (_ & _ & _ & Hsz). cbn [fst] in Hsz. change (Wal.size (wal (fst s)) = 0). rewrite Hsz.
    destruct (lg_log _ _ _ _ _ (ba_ledger _ _ _ _ _ _ B)) as [_ Hok]. destruct os as [|o os]; [done|]. exfalso.
    destruct Hok as [Ho _]. pose proof (Wal.op_count_pos n o Ho) as Hpos.
    assert (exists r, r ∈ Wal.op_records n o) as [r Hin].
    { destruct o as [k v|k|[|e es]]; cbn in Hpos |- *; [eexists; by left..|lia|eexists; by left]. }
    apply (mh_picks _ _ Hm (key_of (rec_entry r)) (rec_entry r)); [|done]. unfold log_entries. apply list_elem_of_fmap_2.
    cbn [Wal.log_records]. apply elem_of_app. by left.
Qed.

(** ** Running parts of the database *)

Lemma on_wal_run {A} (x : M (Wal.Log * World) A) db w r l w' :
  x (wal db, w) = (r, (l, w')) -> on_wal x (db, w) = (r, (set_wal l db, w')).
Proof. unfold on_wal, zoom. cbn. by intros ->. Qed.
Lemma on_manif_run {A} (x : M (Manifest.Manifest * World) A) db w r mf w' :
  x (manif db, w) = (r, (mf, w')) -> on_manif x (db, w) = (r, (set_manif mf db, w')).
Proof. unfold on_manif, zoom. cbn. by intros ->. Qed.
Lemma db_io_run {A} (x : M World A) (db : DB) w r w' : x w = (r, w') -> io x (db, w) = (r, (db, w')).
Proof. unfold io, zoom. cbn. by intros ->. Qed.
Lemma on_mem_run g db w m' : g (mem db) = Ok m' -> on_mem g (db, w) = (Ok tt, (set_mem m' db, w)).
Proof.
  intros Hg. unfold on_mem, get, gets. rewrite (M_bind_Ok _ _ _ (mem db) (db, w)) by done.
  rewrite (M_bind_Ok _ _ _ m' (db, w)) by (unfold lift; by rewrite Hg). done.
Qed.
Lemma get_run {A} (g : DB -> A) db (w : World) : get g (db, w) = (Ok (g db), (db, w)).
Proof. done. Qed.

(** ** Logging *)

Lemma base_append V V' db w ess n os i o :
  base V (db, w) ess n os i -> loggable o -> V + op_cost o + 64 <= V' -> V' < 2 ^ 40 ->
  exists l w', on_wal (Wal.append_op o) (db, w) = (Ok (n + Wal.log_count os + Wal.op_count o), (set_wal l db, w')) /\
    base V' (set_wal l db, w') ess n (os ++ [o]) i.
Proof.
  intros B Ho HV HV'. pose proof (ba_ledger _ _ _ _ _ _ B) as L.
  destruct (ledger_newer V _ ess n os o L Ho ltac:(lia)) as (_ & _ & Hop).
  pose proof (ledger_append V V' _ ess n os o L Ho HV HV') as L'.
  destruct B as [B1 B2 B3 B4 B5 B6 B7 B8 B9 B10]. cbn [fst snd] in *. rewrite <- B6 in Hop.
  destruct (Wal.append_op_spec o (wal db) w i _ B5 Hop) as [a Ha]; [pose proof (lg_bytes _ _ _ _ _ L); pose proof (lg_limit _ _ _ _ _ L); lia|].
  rewrite B6 in Ha.
  set (c' := Wal.log_bytes n os ++ Wal.op_frame (n + Wal.log_count os) o) in *.
  assert (c' = Wal.log_bytes n (os ++ [o])) as Hc' by (rewrite Wal.log_bytes_app; cbn [Wal.log_bytes]; by rewrite app_nil_r).
  pose proof (Wal.log_on_put (wal db) w i _ c' a (n + Wal.log_count os + Wal.op_count o) B5) as Hon.
  pose proof B5 as (Hc & Hcl & _). cbn [fst snd] in Hc, Hcl. rewrite Hcl in Hon.
  eexists _, _. split; [by apply on_wal_run|]. set (w' := put_file _ _ _ _ _) in *.
  assert (touches (Wal.f (wal db)) i w w') as Ht by apply put_file_touches. assert (calm w') as Hc1 by done.
  split; cbn [fst snd]; try done.
  - by eapply directory_log.
  - by rewrite <- Hc'.
  - cbn. rewrite Wal.log_count_app. cbn [Wal.log_count]. lia.
  - eapply Forall2_impl; [exact B7|]. intros t es. by apply serving_touches.
  - by eapply owns_lock_touches.
Qed.

Lemma base_set_mem V db w ess n os i m : base V (db, w) ess n os i -> base V (set_mem m db, w) ess n os i.
Proof. by intros [? ? ? ? ? ? ? ? ? ?]. Qed.

(** Putting an entry newer than all in the memtable. *)
Lemma in_mem_set db W key value seq deleted :
  in_mem db W -> bs key <> [] -> (forall e, e ∈ W -> seq_of e < seq) ->
  exists s', SkipList.set key value seq deleted (MemTable.sl (mem db)) = Ok s' /\
    in_mem (set_mem (MemTable.mkMemTable s' (MemTable.maxBytes (mem db))) db)
      (W ++ [SSTable.mkEntry (Some (bs key)) (Some (bs value)) seq deleted]).
Proof.
  intros (mes & Hr & Hm) Hk Hnew. destruct (SkipList.set_spec _ mes key value seq deleted Hr) as (s' & Hs & Hr').
  exists s'. split; [done|]. exists (SkipList.upsert (SkipList.mkEntry key value seq deleted) mes). split; [done|].
  apply (mem_holds_upsert mes W (SkipList.mkEntry key value seq deleted) Hm); [|done]. cbn. by intros ->.
Qed.
End state.
