(* ===== verification/DbFlush.v ===== *)
(** * DbFlush: a flush keeps the map

    Allocating a table name, writing the memtable as a table, recording it in
    the manifest, opening it, and emptying the memtable and the log leave the
    database with the same map. *)

From Stdlib Require Import ZArith Lia Strings.Byte.
From stdpp Require Import base decidable list gmap strings numbers sorting sets.
From S2P Require Import Prelude Bloom ByteUtil Os OsFacts Wal SkipList SSTable SSTableFacts SSTableWriter SSTableSpec Manifest ManifestFacts ManifestProps FileLock Compact CompactFacts CompactMerge CompactProps Db DbSpec DbFiles DbLedger DbState.
#[local] Open Scope Z_scope.

(** ** The memtable as a table *)

Definition raw_entry (e : SkipList.Entry) : entry :=
  SSTable.mkEntry (SkipList.Key e) (SkipList.Value e) (SkipList.Seq e) (SkipList.Deleted e).

Lemma raw_stored mes : Forall (fun e => SkipList.Key e <> None) mes -> stored <$> (raw_entry <$> mes) = mem_entry <$> mes.
Proof.
  intros Hk. rewrite <- list_fmap_compose. apply list_fmap_ext. intros j e He. rewrite Forall_lookup in Hk.
  specialize (Hk j e He). unfold mem_entry, stored, raw_entry. cbn. by destruct (SkipList.Key e).
Qed.

Lemma flush_fold mes : forall es q mn mx,
  exists mn' mx', fold_left flush_step mes (es, q, mn, mx) =
    (es ++ (raw_entry <$> mes), fold_left (fun m e => Z.max m (seq_of e)) (raw_entry <$> mes) q, mn', mx').
Proof.
  induction mes as [|e mes IH]; intros es q mn mx; cbn [fold_left fmap list_fmap]; [exists mn, mx; by rewrite app_nil_r|].
  unfold flush_step at 2.
  match goal with |- context [fold_left flush_step mes (?a, ?b, ?c, ?d)] => destruct (IH a b c d) as (mn' & mx' & ->) end.
  exists mn', mx'. rewrite <- app_assoc. do 3 f_equal.
  assert ((if q <? SkipList.Seq e then SkipList.Seq e else q) = Z.max q (seq_of (raw_entry e))) as ->; [|done].
  cbn. destruct (Z.ltb_spec q (SkipList.Seq e)); lia.
Qed.

Lemma max_seq_stored es : max_seq (stored <$> es) = max_seq es.
Proof. unfold max_seq. generalize 0. induction es as [|e es IH]; intros q; [done|]. cbn. apply IH. Qed.

Lemma ascii_table k : ascii (table_name k).
Proof.
  unfold ascii, table_name. rewrite to_of_bytes. apply Forall_app. split; [|by repeat constructor].
  generalize (Nat.max 6 (ndigits 20 k)). intros u. revert k. induction u as [|u IH]; intros k; cbn [digits]; [constructor|].
  apply Forall_app. split; [apply IH|]. apply Forall_singleton. unfold digit. rewrite b2z_z2b, u8_small; [|pose proof (Z.mod_pos_bound k 10); lia].
  pose proof (Z.mod_pos_bound k 10). lia.
Qed.

Section flush.
Context {TA : TableAccess} {F : Type} `{Float64 F} {J : Manifest.Json} {JO : JsonOk J} {E : FileLock.Env}.

(** ** Steps of the parts *)

(** The names of the manifest. *)
Definition manifest_names (d : string) : list string := [at_ d RManifest; at_ d RTmp].

Lemma renewed_steady w w' mf ess i : directory w mf ess i -> renewed (Manifest.path mf) w w' -> steady (manifest_names (Manifest.dir mf)) w w'.
Proof.
  intros D [S _ _]. rewrite (dr_path _ _ _ _ D) in S. unfold manifest_names. rewrite <- at_tmp. exact S.
Qed.

(** None of [ps] is the name of the log, the lock or a table in use. *)
Definition apart (ps : list string) (db : DB) : Prop :=
  (at_ (Db.dir db) RLog ∉ ps) /\ (at_ (Db.dir db) RLock ∉ ps) /\ Forall (fun t => SSTable.Path t ∉ ps) (tables db).

Lemma at_not_in d r rs : role_ok r -> Forall role_ok rs -> r ∉ rs -> at_ d r ∉ (at_ d <$> rs).
Proof. intros Hr Hrs Hn (r' & Heq & Hin)%list_elem_of_fmap. rewrite Forall_forall in Hrs. apply at_inj in Heq as ->; [done|done|by apply Hrs]. Qed.

Lemma table_apart d k : 0 <= k < 2 ^ 64 -> at_ d (RTable k) ∉ manifest_names d.
Proof. intros Hk. apply (at_not_in _ (RTable k) [RManifest; RTmp]); [cbn; lia|by repeat constructor|set_solver]. Qed.

Lemma apart_roles V db w ess n os i rs :
  base V (db, w) ess n os i -> Forall role_ok rs -> RLog ∉ rs -> RLock ∉ rs ->
  (forall k, k < Manifest.NextFile (Manifest.state (manif db)) -> names w !! at_ (Db.dir db) (RTable k) <> None -> RTable k ∉ rs) ->
  apart (at_ (Db.dir db) <$> rs) db.
Proof.
  intros B Hrs H1 H2 Ht. pose proof (ba_dir _ _ _ _ _ _ B) as D. pose proof (ba_same _ _ _ _ _ _ B) as Hd. cbn [fst snd] in D, Hd.
  split_and!; [by apply at_not_in..|]. rewrite Forall_forall. intros t Hin. apply (list_elem_of_fmap_2 SSTable.Path) in Hin as Hp.
  pose proof (ba_paths _ _ _ _ _ _ B) as Hpaths. cbn [fst] in Hpaths. rewrite Hpaths in Hp.
  apply list_elem_of_fmap in Hp as (f & -> & Hf). rewrite Hd. destruct (dr_table _ _ _ _ _ D Hf) as (k & Hk1 & Hk2 & Hpath). rewrite Hpath.
  apply at_not_in; [cbn; lia|done|]. apply Ht; [lia|]. rewrite Hd, <- Hpath. apply list_elem_of_lookup in Hf as [q Hq].
  by destruct (Forall2_lookup_l _ _ _ _ _ (dr_tables _ _ _ _ D) Hq) as (es & _ & (j & c & -> & _)).
Qed.

Lemma apart_manifest V db w ess n os i : base V (db, w) ess n os i -> apart (manifest_names (Db.dir db)) db.
Proof. intros B. apply (apart_roles V db w ess n os i [RManifest; RTmp] B); [by repeat constructor|set_solver..]. Qed.

(** What happens to other files does not matter. *)
Lemma base_steady ps V V' db w mf w' ess n os i :
  base V (db, w) ess n os i -> steady ps w w' -> apart ps db -> directory w' mf ess i -> ledger V' (Manifest.state mf) ess n os ->
  Manifest.dir mf = Manifest.dir (manif db) -> Manifest.files (Manifest.state mf) = Manifest.files (Manifest.state (manif db)) ->
  base V' (set_manif mf db, w') ess n os i.
Proof.
  intros [B1 B2 B3 B4 B5 B6 B7 B8 B9 B10] S (A1 & A2 & A3) D L Hd Hf. cbn [fst snd] in *.
  pose proof (dr_calm _ _ _ _ D) as [Hc _]. split; cbn [fst snd set_manif manif Db.dir closed wal tables lock]; try done.
  - by rewrite Hd.
  - destruct B5 as (L1 & L2 & [L3 L3'] & L4). split_and!; try done. cbn [fst snd] in *. split; [by apply (st_fds _ _ _ S)|].
    apply (st_files _ _ _ S (at_ (Db.dir db) RLog)); [done| |done]. rewrite B4. apply (dr_log _ _ _ _ B1).
  - rewrite Forall_forall in A3. apply Forall2_same_length_lookup_2; [by eapply Forall2_length|]. intros j t es Ht Hes.
    eapply serving_steady; [exact S|done| |by apply (Forall2_lookup_lr _ _ _ _ _ _ B7 Ht Hes)]. apply A3. by eapply list_elem_of_lookup_2.
  - by rewrite Hf.
  - by eapply owns_lock_steady.
Qed.

Lemma set_manif_same db : set_manif (manif db) db = db.
Proof. by destruct db. Qed.

(** A table with a number in reserve is written. *)
Lemma base_table V db w w' ess n os i k :
  base V (db, w) ess n os i -> calm w' -> names_ok w' -> grows w w' -> 0 <= k < 2 ^ 64 -> k < Manifest.NextFile (Manifest.state (manif db)) ->
  names w !! at_ (Db.dir db) (RTable k) = None -> names w' = <[at_ (Db.dir db) (RTable k) := length (inodes w)]> (names w) ->
  base V (db, w') ess n os i.
Proof.
  intros B Hc Hok G Hk Hlt Hnone Hn. pose proof (ba_dir _ _ _ _ _ _ B) as D. pose proof (ba_same _ _ _ _ _ _ B) as Hd. cbn [fst snd] in D, Hd.
  rewrite <- (set_manif_same db). eapply (base_steady (at_ (Db.dir db) <$> [RTable k])); [exact B| |..]; try done.
  - apply grows_steady; [done|]. intros p Hp. cbn in Hp. rewrite Hn. apply lookup_insert_ne. set_solver.
  - apply (apart_roles V db w ess n os i [RTable k] B); [by apply Forall_singleton|set_solver|set_solver|].
    intros j _ Hj [= ->]%list_elem_of_singleton. done.
  - apply (directory_new w w' _ ess i (RTable k) D Hc Hok G); [cbn; lia|done|by intros ? [= <-]|left; by rewrite <- Hd|by rewrite <- Hd].
  - apply (ba_ledger _ _ _ _ _ _ B).
Qed.

(** Filters of up to [cap] keys have an acceptable size. *)
Definition blooms_fit (cap : Z) : Prop :=
  forall n, 0 <= n <= cap ->
    bloom_fits (Builder.fp (Builder.NewBuilder (BloomFP (SSTable.normalize (F := F) None)))) n /\
    bloom_fits (Builder.fp (Builder.NewBuilder (BloomFP (SSTable.normalize (out_options (F := F) (Some (Compact.mkOptions false 0 0))))))) n.

Context (cap : Z) (Hcap : blooms_fit cap).

(** The volume the database is built for: a terabyte, in entries the filters
    can take. *)
Definition room (V : Z) : Prop := V < 2 ^ 40 /\ V <= 64 * cap.

(** A new name, and the counter past it. *)
Lemma alloc_run V V' db w ess n os i (k := Manifest.NextFile (Manifest.state (manif db))) :
  base V (db, w) ess n os i -> V + 1 <= V' -> room V' ->
  exists mf w', Manifest.AllocFileName (manif db, w) = (Ok (table_name k), (mf, w')) /\
    base V' (set_manif mf db, w') ess n os i /\
    Manifest.NextFile (Manifest.state mf) = k + 1 /\ 0 <= k < 2 ^ 64 /\
    Manifest.files (Manifest.state mf) = Manifest.files (Manifest.state (manif db)) /\
    Manifest.LogSeq_ (Manifest.state mf) = Manifest.LogSeq_ (Manifest.state (manif db)) /\
    Manifest.dir mf = Manifest.dir (manif db) /\
    names w' !! at_ (Db.dir db) (RTable k) = None.
Proof.
  intros B HV [HV1 HV2]. pose proof (ba_dir _ _ _ _ _ _ B) as D. pose proof (ba_ledger _ _ _ _ _ _ B) as L.
  cbn [fst snd] in D, L. pose proof (dr_sound _ _ _ _ D) as Hs. pose proof (lg_next _ _ _ _ _ L) as Hnx.
  pose proof (so_next _ (sn_state _ _ Hs)) as Hk0. pose proof (ba_same _ _ _ _ _ _ B) as Hsame. cbn [fst] in Hsame.
  destruct (AllocFileName_run (manif db) w Hs) as (mf & w' & Hrun & Hst & Hdir & Hpath & Hs' & Hd' & _ & R).
  assert (Manifest.NextFile (Manifest.state mf) = k + 1) as Hk by (rewrite Hst; cbn; rewrite u64_small by (fold k in Hnx |- *; lia); done).
  assert (Manifest.files (Manifest.state mf) = Manifest.files (Manifest.state (manif db))) as Hfs by (by rewrite Hst).
  assert (Manifest.LogSeq_ (Manifest.state mf) = Manifest.LogSeq_ (Manifest.state (manif db))) as Hls by (by rewrite Hst).
  assert (directory w' mf ess i) as D'.
  { eapply directory_update; [exact D|exact Hs'|done|done|done|..].
    - unfold numbered. rewrite Hfs, Hk. apply (named_below_mono _ _ _ (dr_numbered _ _ _ _ D)). lia.
    - rewrite Hfs. apply (dr_nodup _ _ _ _ D).
    - rewrite Hk. fold k. lia.
    - rewrite Hfs. apply (dr_tables _ _ _ _ D). }
  pose proof (renewed_steady _ _ _ _ _ D R) as S. rewrite <- Hsame in S.
  exists mf, w'. split; [done|]. split_and!; try done.
  - eapply (base_steady (manifest_names (Db.dir db))); [exact B|exact S|by eapply apart_manifest|exact D'| |done|done].
    destruct L as [L0 L1 L2 L3 L4 Lsp L5 L6 L7 L8 L9 L10]. split; try done; try lia.
    + by rewrite Hst.
    + by rewrite Hls.
    + by rewrite Hls, Hfs.
  - fold k in Hk0. lia.
  - fold k in Hnx. lia.
  - rewrite (st_names _ _ _ S).
    + rewrite Hsame. apply (dr_fresh _ _ _ _ D). fold k in Hnx |- *. lia.
    + apply table_apart. fold k in Hnx. lia.
Qed.

(** The entries of the memtable can be written as a table. *)
Lemma mem_writable V st ess n os mes :
  ledger V st ess n os -> V <= 64 * cap -> mem_holds mes (log_entries n os) ->
  SSTableWriter.writable (F := F) None (raw_entry <$> mes).
Proof.
  intros L HV Hm. destruct L as [L0 _ _ _ _ _ _ L6 L7 _ _ _]. unfold all_entries in L6, L7.
  apply Forall_app in L6 as [_ L6]. rewrite tsize_app in L7.
  pose proof (mem_holds_size _ _ Hm) as Hsz. pose proof (tsize_len (concat ess)) as Htl.
  rewrite <- (raw_stored mes (mh_keys _ _ Hm)) in Hsz.
  rewrite tsize_stored in Hsz. pose proof (tsize_len (raw_entry <$> mes)) as Hl.
  assert (Hall: forall e, e ∈ raw_entry <$> mes -> entry_ok e /\ esize e <= 2 ^ 29).
  { intros e He. apply (list_elem_of_fmap_2 stored) in He as He'. rewrite (raw_stored mes (mh_keys _ _ Hm)) in He'.
    apply (mem_holds_subset _ _ Hm) in He'. rewrite Forall_forall in L6. destruct (L6 _ He') as ((_ & H2 & H3) & H4 & _).
    split; [|exact H4]. split; [|split; [exact H2|exact H3]]. apply list_elem_of_fmap in He as (x & -> & Hx).
    pose proof (mh_keys _ _ Hm) as Hk. rewrite Forall_forall in Hk. by apply Hk. }
  split.
  - rewrite <- list_fmap_compose. apply (mh_sorted _ _ Hm).
  - split; [| |lia]; rewrite Forall_forall; intros e He; by apply Hall.
  - by vm_compute.
  - apply Hcap. rewrite length_fmap in *. lia.
Qed.

(** A table file of the database is opened. *)
Lemma serving_open w fl i path es :
  calm w -> holds w path es -> names w !! path <> Some i -> (fl < length (fds w))%nat ->
  exists r w', SSTable.Open path w = (Ok r, w') /\ serving w' fl i r es /\ SSTable.Path r = path /\ grows w w' /\ calm w' /\
    names w' = names w /\ inodes w' = inodes w /\ rf r = Some (length (fds w)).
Proof.
  intros Hc Hh Hne Hfl. destruct (access_Open path w es Hc Hh) as (r & j & Ho & Hrf & Hpath & Hj & Hlt & Hop & Hfuel).
  set (w' := set_fds _ w) in *. assert (grows w w') as G by apply fds_grows.
  exists r, w'. split_and!; try done.
  - split.
    + split; [done|done|]. exists (length (fds w)), (mkFd j 0 true). split_and!; [done| |done].
      cbn. by apply list_lookup_middle.
    + exists (length (fds w)), (mkFd j 0 true). split_and!; [done|lia| |cbn; congruence].
      cbn. by apply list_lookup_middle.
    + exists (length (fds w)), (mkFd j 0 true). split_and!; [done| |done|by rewrite Hpath]. cbn. by apply list_lookup_middle.
Qed.

Lemma has_file_fd w f i p c : has_file w f i p c -> (f < length (fds w))%nat.
Proof. intros [Hf _]. by apply lookup_lt_Some in Hf. Qed.

Lemma grows_descriptors w w' : grows w w' -> (length (fds w) <= length (fds w'))%nat.
Proof.
  intros [_ G]. destruct (decide (length (fds w) = 0)%nat) as [?|?]; [lia|].
  destruct (lookup_lt_is_Some_2 (fds w) (length (fds w) - 1)) as [x Hx]; [lia|]. apply G, lookup_lt_Some in Hx. lia.
Qed.

(** A table of the directory is opened. *)
Lemma open_table w mf ess i fl k es (p := at_ (Manifest.dir mf) (RTable k)) :
  directory w mf ess i -> (fl < length (fds w))%nat -> 0 <= k < 2 ^ 64 -> holds w p es ->
  exists r w', SSTable.Open p w = (Ok r, w') /\ directory w' mf ess i /\ serving w' fl i r es /\ SSTable.Path r = p /\
    grows w w' /\ names w' = names w /\ inodes w' = inodes w /\ rf r = Some (length (fds w)).
Proof.
  intros D Hfl Hk Hh. destruct (dr_calm _ _ _ _ D) as [Hc _].
  destruct (serving_open w fl i p es Hc Hh) as (r & w' & Ho & Hsv & Hp & G & Hc' & Hn & Hi & Hrf); [|done|].
  - intros Heq%(dr_own _ _ _ _ D). apply at_inj in Heq; [done|cbn; lia|done].
  - exists r, w'. split_and!; try done. by eapply directory_fds.
Qed.

Lemma serving_fds w fl i ts ess t g :
  Forall2 (serving w fl i) ts ess -> t ∈ ts -> rf t = Some g -> (g < length (fds w))%nat.
Proof.
  intros Ht Hin Hg. apply list_elem_of_lookup in Hin as [j Hj].
  destruct (Forall2_lookup_l _ _ _ _ _ Ht Hj) as (es & _ & [[_ _ (g' & d & H1 & H2 & _)] _ _]).
  assert (g' = g) as -> by congruence. by apply lookup_lt_Some in H2.
Qed.

Lemma SetNextSeq_small l (w : World) q : q <= Wal.nextSeq l -> Wal.SetNextSeq q (l, w) = (Ok tt, (l, w)).
Proof. intros Hq. unfold Wal.SetNextSeq, Wal.upd_log, modify. cbn. by rewrite (proj2 (Z.ltb_ge _ _)) by lia. Qed.

(** The state after the table has been recorded: [r] is the new table. *)
Lemma flush_finish ps V db w w1 mf r ess n os i mes fm m c :
  let es := mem_entry <$> mes in
  base V (db, w) ess n os i -> mem_holds mes (log_entries n os) -> steady ps w w1 -> apart ps db ->
  directory w1 mf (ess ++ [es]) i -> ledger V (Manifest.state mf) (ess ++ [es]) (n + Wal.log_count os) [] ->
  Manifest.dir mf = Manifest.dir (manif db) ->
  Manifest.files (Manifest.state mf) = Manifest.files (Manifest.state (manif db)) ++ [fm] ->
  contents (all_entries (ess ++ [es]) (n + Wal.log_count os) []) m ->
  serving w1 (Wal.f (wal db)) i r es -> SSTable.Path r = table_path (Db.dir db) fm -> rf r = Some c -> (length (fds w) <= c)%nat ->
  exists s', (upd (fun db => set_tables (tables db ++ [r]) db);;
    upd (fun db => set_mem (MemTable.Clear (mem db)) db);; on_wal Wal.Reset;; on_wal (Wal.SetNextSeq (max_seq es)))
    (set_manif mf db, w1) = (Ok tt, s') /\ holds_map V s' m /\ opts (fst s') = opts db /\
    clean s' /\ length (tables (fst s')) = S (length (tables db)).
Proof.
  intros es B Hm S (A1 & A2 & A3) D L Hdir Hfs Hcon Hr Hpath Hrf Hc. pose proof B as [B1 B2 B3 B4 B5 B6 B7 B8 B9 B10]. cbn [fst snd] in *.
  pose proof (dr_calm _ _ _ _ D) as [Hc1 _]. pose proof B5 as (C1 & C2 & C3 & C4). cbn [fst snd] in C1, C2, C3, C4.
  assert (Wal.log_on (wal db, w1) i (Wal.log_bytes n os)) as Hon.
  { split_and!; try done; cbn. destruct C3 as [C3 C3']. split; [by apply (st_fds _ _ _ S)|].
    apply (st_files _ _ _ S (at_ (Db.dir db) RLog)); [done| |done]. rewrite B4. apply (dr_log _ _ _ _ B1). }
  destruct (Wal.Reset_spec (wal db) w1 i _ Hon) as (l & w2 & Hreset & Hon2 & Hseq & Hfl & Hw2).
  assert (touches (Wal.f (wal db)) i w1 w2) as Ht by (rewrite Hw2; apply put_file_touches).
  assert (calm w2) as Hc2 by apply Hon2.
  set (db1 := set_mem (MemTable.Clear (mem db)) (set_tables (tables db ++ [r]) (set_manif mf db))).
  exists (set_wal l db1, w2). split; [|split; [|split; [done|split]]].
  4: { cbn. by rewrite length_app, Nat.add_1_r. }
  3: { split; [done|split; [done|]]. destruct Hon2 as (_ & _ & _ & Hsz). cbn [fst set_wal wal]. exact Hsz. }
  - rewrite (M_bind_Ok _ _ _ tt (set_tables (tables db ++ [r]) (set_manif mf db), w1)) by done.
    rewrite (M_bind_Ok _ _ _ tt (db1, w1)) by done.
    rewrite (M_bind_Ok _ _ _ _ _ (on_wal_run _ db1 w1 _ _ _ Hreset)).
    assert (Wal.SetNextSeq (max_seq es) (l, w2) = (Ok tt, (l, w2))) as Hset.
    { apply SetNextSeq_small. rewrite Hseq, B6. destruct (lg_log _ _ _ _ _ B2) as [Hn0 Hok].
      pose proof (log_count_nonneg _ _ Hok). apply max_seq_le; [lia|].
      intros e He. apply (mem_holds_subset _ _ Hm) in He.
      destruct (log_seqs_in os n Hok) as [_ Hs]. rewrite Forall_forall in Hs. apply Hs in He. lia. }
    by rewrite (on_wal_run _ (set_wal l db1) w2 _ _ _ Hset).
  - exists (ess ++ [es]), (n + Wal.log_count os), [], i. split; [|split; [|done]].
    2: { exists []. split; [apply SkipList.repr_Clear|apply mem_holds_nil]. }
    assert (Forall (fun t => rf t <> Some c) (tables db)) as Hfresh.
    { rewrite Forall_forall. intros t Hin Heq. pose proof (serving_fds _ _ _ _ _ _ _ B7 Hin Heq). lia. }
    split; cbn [fst snd]; try done.
    + by eapply directory_log.
    + cbn. by rewrite Hdir.
    + cbn. rewrite Hseq, B6. lia.
    + cbn [wal set_wal tables]. rewrite Hfl. apply Forall2_app.
      * rewrite Forall_forall in A3. apply Forall2_same_length_lookup_2; [by eapply Forall2_length|]. intros j t es' Hj Hes'.
        eapply serving_touches; [exact Ht|done|]. apply (serving_steady ps w); [done|done| |by apply (Forall2_lookup_lr _ _ _ _ _ _ B7 Hj Hes')].
        apply A3. by eapply list_elem_of_lookup_2.
      * constructor; [by eapply serving_touches|constructor].
    + cbn [set_wal tables manif Db.dir]. cbn. rewrite Hfs, !fmap_app, B8. cbn. by rewrite Hpath.
    + cbn. rewrite fmap_app. apply NoDup_app. split_and!; [done| |apply NoDup_singleton].
      intros x (t & -> & Hin)%list_elem_of_fmap Hx. cbn in Hx. apply list_elem_of_singleton in Hx. rewrite Forall_forall in Hfresh.
      by apply (Hfresh t Hin); rewrite Hx.
    + cbn [set_wal wal lock tables Db.dir]. rewrite Hfl. eapply owns_lock_touches; [exact Ht|].
      destruct (owns_lock_steady ps w w1 _ _ _ _ _ S A2 B10) as (lk & g & j & c' & H1 & H2 & H3 & H4 & H5 & H6 & H7 & H8 & H9).
      exists lk, g, j, c'. split_and!; try done. cbn. apply Forall_app. split; [done|]. apply Forall_singleton.
      rewrite Hrf. intros [= ->]. destruct B10 as (lk' & g' & j' & c'' & H1' & _ & H3' & _ & H5' & _).
      assert (lk' = lk) as -> by congruence. assert (g' = g) as -> by congruence. apply has_file_fd in H5'. lia.
Qed.

Lemma ledger_mono V V' st ess n os : ledger V st ess n os -> V <= V' -> V' < 2 ^ 40 -> ledger V' st ess n os.
Proof. intros [L0 L1 L2 L3 L4 Lsp L5 L6 L7 L8 L9 L10] HV HV'. split; try done; lia. Qed.

Lemma holds_map_mono V V' s m : holds_map V s m -> V <= V' -> V' < 2 ^ 40 -> holds_map V' s m.
Proof.
  intros (ess & n & os & i & [? ? ? ? ? ? ? ? ? ?] & Hm & Hc) HV HV'. exists ess, n, os, i.
  split; [|done]. split; try done. by eapply ledger_mono.
Qed.

(** The manifest after [AddFile], with the new table on disk. *)
Lemma add_file_run V V' db mf1 w2 ess n os i mes m mn mx sz (k := Manifest.NextFile (Manifest.state (manif db))) :
  let es := mem_entry <$> mes in
  let fm := Manifest.mkFileMeta (table_name k) 0 mn mx (max_seq es) (len es) sz in
  ledger V (Manifest.state (manif db)) ess n os -> mem_holds mes (log_entries n os) ->
  contents (all_entries ess n os) m -> V + 1 <= V' -> room V' -> 0 <= sz < 2 ^ 62 ->
  directory w2 mf1 ess i -> 0 <= k < 2 ^ 64 -> Manifest.NextFile (Manifest.state mf1) = k + 1 ->
  named_below k (Manifest.files (Manifest.state (manif db))) -> Manifest.files (Manifest.state mf1) = Manifest.files (Manifest.state (manif db)) ->
  Manifest.LogSeq_ (Manifest.state mf1) = Manifest.LogSeq_ (Manifest.state (manif db)) ->
  holds w2 (table_path (Manifest.dir mf1) fm) es ->
  exists mf w3, Manifest.AddFile fm (max_seq es) (mf1, w2) = (Ok tt, (mf, w3)) /\ steady (manifest_names (Manifest.dir mf1)) w2 w3 /\
    directory w3 mf (ess ++ [es]) i /\ ledger V' (Manifest.state mf) (ess ++ [es]) (n + Wal.log_count os) [] /\
    contents (all_entries (ess ++ [es]) (n + Wal.log_count os) []) m /\
    Manifest.dir mf = Manifest.dir mf1 /\
    Manifest.files (Manifest.state mf) = Manifest.files (Manifest.state mf1) ++ [fm] /\
    (2 * V + 1 <= V' -> ledger V' (Manifest.state mf) (ess ++ [es]) n os /\ contents (all_entries (ess ++ [es]) n os) m).
Proof.
  intros es fm L Hm Hcon HV [HV1 HV2] Hsz D Hk Hnext Hnames Hfs Hls Hh.
  pose proof (lg_entries _ _ _ _ _ L) as Hents. pose proof (lg_size _ _ _ _ _ L) as Htsz. unfold all_entries in Hents, Htsz.
  apply Forall_app in Hents as [_ Hents]. rewrite tsize_app in Htsz. pose proof (tsize_len (concat ess)).
  pose proof (mem_holds_size _ _ Hm) as Hms. fold es in Hms. pose proof (tsize_len es).
  assert (0 <= max_seq es < 2 ^ 64) as Hseq.
  { apply max_seq_range. rewrite Forall_forall in Hents |- *. intros e He. apply (mem_holds_subset _ _ Hm) in He. by apply Hents. }
  assert (meta_ok fm) as Hmeta by (split; cbn; [apply ascii_table|lia|done|lia|lia]).
  pose proof (dr_sound _ _ _ _ D) as Hs.
  set (g := fun st => Manifest.bump (max_seq es) (Manifest.set_files (Manifest.files st ++ [fm]) st)).
  destruct (update_reopen g mf1 w2 Hs) as (mf & w3 & Hrun & H2 & Hdir & Hpath & Hs' & Hd' & _ & R).
  { apply bump_ok, set_files_ok; [done| |apply (sn_state _ _ Hs)]. apply Forall_app.
    split; [apply so_files, (sn_state _ _ Hs)|by constructor]. }
  assert (Hbump: forall st, Manifest.LogSeq_ (Manifest.bump (max_seq es) st) = Z.max (Manifest.LogSeq_ st) (max_seq es) /\
    Manifest.files (Manifest.bump (max_seq es) st) = Manifest.files st /\
    Manifest.NextFile (Manifest.bump (max_seq es) st) = Manifest.NextFile st).
  { intros st. unfold Manifest.bump. destruct (Z.ltb_spec (Manifest.LogSeq_ st) (max_seq es)); cbn; split_and!; (done || lia). }
  destruct (Hbump (Manifest.set_files (Manifest.files (Manifest.state mf1) ++ [fm]) (Manifest.state mf1))) as (E1 & E2 & E3).
  assert (Manifest.files (Manifest.state mf) = Manifest.files (Manifest.state mf1) ++ [fm]) as Hfiles by (rewrite H2; exact E2).
  assert (Manifest.NextFile (Manifest.state mf) = k + 1) as Hnf by (rewrite <- Hnext, H2; exact E3).
  assert (Manifest.LogSeq_ (Manifest.state mf) = Z.max (Manifest.LogSeq_ (Manifest.state mf1)) (max_seq es)) as Hlseq by (rewrite H2; exact E1).
  destruct (ledger_flush V V' _ (Manifest.state mf) ess n os mes fm m L Hm HV HV1) as [L' Hcon']; try done.
  { by rewrite Hfiles, Hfs. }
  { by rewrite Hlseq, Hls. }
  { by rewrite H2. }
  exists mf, w3. split_and!; try done.
  { by eapply renewed_steady. }
  2: { intros H2V. apply (ledger_recorded V V' _ (Manifest.state mf) ess n os mes fm m L Hm H2V HV1); try done;
       [by rewrite Hfiles, Hfs|by rewrite Hlseq, Hls|by rewrite H2]. }
  eapply directory_update; [exact D|exact Hs'|done|done|done|..].
  - unfold numbered. rewrite Hfiles, Hnf. apply named_below_app; [by rewrite Hfs|done|lia].
  - rewrite Hfiles. apply (named_below_NoDup k); [by rewrite Hfs|done|done|apply (dr_nodup _ _ _ _ D)].
  - lia.
  - rewrite Hfiles. apply Forall2_app; [apply (dr_tables _ _ _ _ D)|]. by constructor.
Qed.

(** The effect of a flush besides: no entry waits, and there is one more table
    if there were any. *)
Definition flushed (db : DB) (s : DB * World) : Prop :=
  clean s /\ length (tables (fst s)) = (length (tables db) + if (0 <? MemTable.Len (mem db))%Z then 1 else 0)%nat.

Lemma mem_len V st ess n os db mes :
  ledger V st ess n os -> SkipList.repr (MemTable.sl (mem db)) mes -> mem_holds mes (log_entries n os) ->
  MemTable.Len (mem db) = len mes.
Proof.
  intros L Hr Hm. pose proof (mem_holds_size _ _ Hm) as Hsz. pose proof (tsize_len (mem_entry <$> mes)) as Hln.
  rewrite length_fmap in Hln. pose proof (lg_size _ _ _ _ _ L) as Hs. pose proof (lg_limit _ _ _ _ _ L) as HV.
  unfold all_entries in Hs. rewrite tsize_app in Hs. pose proof (tsize_len (concat ess)).
  transitivity (i64 (len mes)); [exact (SkipList.repr_Len _ _ Hr)|]. apply i64_small. lia.
Qed.

(** With an empty memtable nothing is done. *)
Lemma flush_nothing V V' s m ess n os i :
  holds_map V s m -> base V s ess n os i -> SkipList.repr (MemTable.sl (mem (fst s))) [] -> V <= V' -> V' < 2 ^ 40 ->
  mem_holds [] (log_entries n os) -> holds_map V' s m /\ flushed (fst s) s.
Proof.
  intros Hold B Hr HV HV' Hm. split; [by eapply holds_map_mono|]. split; [by eapply empty_clean|].
  rewrite (mem_len _ _ _ _ _ _ _ (ba_ledger _ _ _ _ _ _ B) Hr Hm). symmetry. apply Nat.add_0_r.
Qed.

(** The entries of the memtable are written to the table whose name was
    allocated. *)
Lemma flush_table V V' db db1 w1 ess n os i mes :
  let k := Manifest.NextFile (Manifest.state (manif db)) in
  let p := at_ (Db.dir db) (RTable k) in
  let es := mem_entry <$> mes in
  ledger V (Manifest.state (manif db)) ess n os -> room V' -> V + 1 <= V' -> mem_holds mes (log_entries n os) ->
  base V' (db1, w1) ess n os i -> Manifest.NextFile (Manifest.state (manif db1)) = k + 1 -> 0 <= k < 2 ^ 64 ->
  Db.dir db1 = Db.dir db -> names w1 !! p = None ->
  exists w2 meta, SSTable.WriteFile (F := F) p (raw_entry <$> mes) None w1 = (Ok meta, w2) /\ grows w1 w2 /\
    holds w2 p es /\ base V' (db1, w2) ess n os i /\ 0 <= mFileSize meta < 2 ^ 62 /\ max_seq (raw_entry <$> mes) = max_seq es.
Proof.
  intros k p es L Hroom HV Hm B1 Hnf Hk Hd Hnone.
  pose proof (ba_dir _ _ _ _ _ _ B1) as D1. cbn [fst snd] in D1. destruct (dr_calm _ _ _ _ D1) as [Hc1 Hn1].
  assert (SSTableWriter.writable (F := F) None (raw_entry <$> mes)) as Hw.
  { eapply mem_writable; [exact L| |exact Hm]. destruct Hroom. lia. }
  destruct (WriteFile_holds p (raw_entry <$> mes) None w1 Hc1 Hn1 Hw Hnone) as
    (w2 & sz & Hwrite & Hh2 & Hc2 & Hn2 & Hnm2 & Hpr & Hsz).
  apply preserves_grows in Hpr as G2. rewrite (raw_stored mes (mh_keys _ _ Hm)) in Hh2.
  eexists w2, _. split_and!; [exact Hwrite|try done..]; try (cbn; lia).
  - apply (base_table V' db1 w1 w2 ess n os i k B1); try done; [lia|by rewrite Hd..].
  - by rewrite <- max_seq_stored, (raw_stored mes (mh_keys _ _ Hm)).
Qed.

Lemma flush_run V V' db w m :
  holds_map V (db, w) m -> V + 1 <= V' -> room V' ->
  exists s', flushLocked (F := F) (db, w) = (Ok tt, s') /\ holds_map V' s' m /\ opts (fst s') = opts db /\ flushed db s'.
Proof.
  intros Hold HV Hroom. pose proof Hold as (ess & n & os & i & B & (mes & Hr & Hm) & Hcon). cbn [fst] in Hr.
  unfold flushLocked. rewrite (M_bind_Ok _ _ _ _ _ (get_run mem db w)).
  rewrite (M_bind_Ok _ _ _ mes (db, w)) by (unfold lift, MemTable.Snapshot; by rewrite (SkipList.Snapshot_repr _ _ Hr)).
  pose proof (ba_ledger _ _ _ _ _ _ B) as L. cbn [fst] in L.
  pose proof (mem_len _ _ _ _ _ db mes L Hr Hm) as Hlen.
  destruct (Z.eqb_spec (len mes) 0) as [Hz|Hz].
  { exists (db, w). assert (mes = []) as -> by (destruct mes; [done|cbn in Hz; lia]). destruct Hroom.
    destruct (flush_nothing V V' (db, w) m ess n os i Hold B Hr) as [Hh Hfl]; [lia..|done|]. by split_and!. }
  destruct (alloc_run V V' db w ess n os i B HV Hroom) as
    (mf1 & w1 & Halloc & B1 & Hnf & Hk & Hfs & Hls & Hdir1 & Hnone).
  set (k := Manifest.NextFile (Manifest.state (manif db))) in *. set (db1 := set_manif mf1 db) in *.
  rewrite (M_bind_Ok _ _ _ _ _ (on_manif_run _ db w _ _ _ Halloc)), (M_bind_Ok _ _ _ _ _ (get_run Db.dir db1 w1)). cbv zeta.
  set (es := mem_entry <$> mes). destruct (flush_fold mes [] 0 None None) as (mn & mx & ->). cbn [app]. fold (max_seq (raw_entry <$> mes)).
  set (path := filepath_Join (Db.dir db1) (table_name k)). change path with (at_ (Db.dir db) (RTable k)) in *.
  destruct (flush_table V V' db db1 w1 ess n os i mes L Hroom HV Hm B1 Hnf Hk eq_refl Hnone) as
    (w2 & meta & Hwrite & G2 & Hh2 & B2 & Hsz & Hms). fold es in Hh2, Hms.
  pose proof (ba_dir _ _ _ _ _ _ B2) as D2. pose proof (ba_same _ _ _ _ _ _ B) as Hsame. cbn [fst snd] in D2, Hsame.
  assert (Db.dir db = Manifest.dir mf1) as Hd1 by congruence.
  rewrite (M_bind_Ok _ _ _ _ _ (db_io_run _ db1 w1 _ _ Hwrite)). rewrite !Clone_id, Hms. set (sz := mFileSize meta) in *.
  rewrite length_fmap. replace (len mes) with (len es) by (unfold es; by rewrite length_fmap).
  set (fm := Manifest.mkFileMeta (table_name k) 0 mn mx (max_seq es) (len es) sz).
  assert (named_below k (Manifest.files (Manifest.state (manif db)))) as Hnum by apply (dr_numbered _ _ _ _ (ba_dir _ _ _ _ _ _ B)).
  destruct (add_file_run V V' db mf1 w2 ess n os i mes m mn mx sz L Hm Hcon HV Hroom Hsz D2 Hk Hnf Hnum Hfs Hls) as
    (mf & w3 & Hadd & S3 & D3 & L3 & Hcon3 & Hdir3 & Hfs3 & _); [by rewrite <- Hd1|].
  change (Manifest.AddFile fm (max_seq es) (mf1, w2) = (Ok tt, (mf, w3))) in Hadd.
  change (Manifest.files (Manifest.state mf) = Manifest.files (Manifest.state mf1) ++ [fm]) in Hfs3. fold es in D3, L3, Hcon3.
  rewrite (M_bind_Ok _ _ _ (inl tt) (set_manif mf db1, w3)) by (unfold try_; by rewrite (on_manif_run _ db1 w2 _ _ _ Hadd)).
  assert (holds w3 (at_ (Manifest.dir mf) (RTable k)) es) as Hh3.
  { rewrite Hdir3, <- Hd1. eapply holds_kept; [|exact Hh2]. eapply kept_steady; [exact S3|].
    rewrite <- Hd1. by apply table_apart. }
  pose proof (ba_log _ _ _ _ _ _ B2) as (_ & _ & Hf%has_file_fd & _). cbn [fst snd] in Hf.
  change (wal db1) with (wal db) in Hf. pose proof (steady_fds _ _ _ S3) as Hl3.
  destruct (open_table w3 mf (ess ++ [es]) i (Wal.f (wal db)) k es D3 ltac:(lia) Hk Hh3) as
    (r & w4 & Hopen & D4 & Hsv & Hpath & G4 & Hnm4 & Hin4 & Hrf). rewrite Hdir3, <- Hd1 in Hopen, Hpath.
  rewrite (M_bind_Ok _ _ _ _ _ (db_io_run _ (set_manif mf db1) w3 _ _ Hopen)).
  destruct (flush_finish (manifest_names (Db.dir db)) V' db1 w2 w4 mf r ess n os i mes fm m (length (fds w3)) B2 Hm) as (s' & Hrun & Hs' & Ho & Hcl & Htb); try done.
  - transitivity w3; [by rewrite Hd1|]. apply grows_steady; [done|by rewrite Hnm4].
  - exact (apart_manifest _ _ _ _ _ _ _ B2).
  - exists s'. split_and!; [exact Hrun|done|done|]. split; [done|]. rewrite Htb, Hlen.
    rewrite (proj2 (Z.ltb_lt _ _)) by lia. symmetry. apply Nat.add_1_r.
Qed.
End flush.
