(* ===== verification/DbRefine.v ===== *)
(** * DbRefine: a database is a map

    The operations of package lsmkv against the operations of a finite map, in
    a world without failures ahead: writes, flushes, compactions, lookups,
    iterators, and closing and opening again. *)

From Stdlib Require Import ZArith Lia Strings.Byte.
From stdpp Require Import base decidable list gmap strings numbers sorting sets.
From S2P Require Import Prelude Bloom ByteUtil Os OsFacts Wal SkipList SSTable SSTableFacts SSTableWriter SSTableSpec Manifest ManifestFacts ManifestProps FileLock Compact CompactFacts CompactMerge CompactProps Db DbSpec DbFiles DbLedger DbState DbFlush.
#[local] Open Scope Z_scope.

Lemma Forall2_rev {A B} (P : A -> B -> Prop) l k : Forall2 P l k -> Forall2 P (rev l) (rev k).
Proof. induction 1; cbn; [constructor|]. apply Forall2_app; [done|by constructor]. Qed.

Section refine.
Context {TA : TableAccess} {F : Type} `{Float64 F} {J : Manifest.Json} {JO : JsonOk J} {E : FileLock.Env}.
Context (cap : Z) (Hcap : blooms_fit (F := F) cap).

(** ** Writes *)

(** An operation is logged; once the memtable has its entries too, the database
    holds the changed map. *)
Lemma log_op V V' db w m o :
  holds_map V (db, w) m -> loggable o -> V + op_cost o + 64 <= V' -> V' < 2 ^ 40 ->
  exists l w' N W, on_wal (Wal.append_op o) (db, w) = (Ok (N + Wal.op_count o), (set_wal l db, w')) /\
    Wal.nextSeq l = N + Wal.op_count o /\ 0 <= N /\ N + Wal.op_count o < 2 ^ 40 /\
    in_mem db W /\ (forall e, e ∈ W -> seq_of e <= N) /\
    forall mt, in_mem (set_mem mt (set_wal l db)) (W ++ (rec_entry <$> Wal.op_records N o)) ->
      holds_map V' (set_mem mt (set_wal l db), w') (op_map o m).
Proof.
  intros (ess & n & os & i & B & Hm & Hcon) Ho HV HV'. pose proof (ba_ledger _ _ _ _ _ _ B) as L. cbn [fst snd] in *.
  destruct (ledger_newer V _ ess n os o L Ho ltac:(lia)) as (Hnew & [Hord _] & Hop).
  destruct (base_append V V' db w ess n os i o B Ho HV HV') as (l & w' & Hrun & B').
  destruct (lg_log _ _ _ _ _ L) as [Hn Hok]. pose proof (log_count_nonneg _ _ Hok).
  pose proof (lg_count _ _ _ _ _ (ba_ledger _ _ _ _ _ _ B')) as Hcnt. rewrite Wal.log_count_app in Hcnt. cbn [Wal.log_count] in Hcnt.
  exists l, w', (n + Wal.log_count os), (log_entries n os). split_and!; [done| |lia|lia|done| |].
  - pose proof (ba_seq _ _ _ _ _ _ B') as Hs. cbn in Hs. rewrite Wal.log_count_app in Hs. cbn [Wal.log_count] in Hs. lia.
  - intros e He. destruct (log_seqs_in os n Hok) as [_ Hs]. rewrite Forall_forall in Hs. apply Hs in He. lia.
  - intros mt Hmt. exists ess, n, (os ++ [o]), i. split; [by apply base_set_mem|]. split.
    + by rewrite log_entries_app, log_entries_one.
    + rewrite all_entries_app, <- (fold_writes (n + Wal.log_count os) o m), <- log_entries_one.
      apply contents_writes; [exact Hnew|exact Hord|exact Hcon].
Qed.

(** A full memtable is flushed. *)
Lemma maybe_flush_run V V' db w m :
  holds_map V (db, w) m -> V + 1 <= V' -> room cap V' ->
  exists s', maybe_flush (F := F) (db, w) = (Ok tt, s') /\ holds_map V' s' m /\ opts (fst s') = opts db.
Proof.
  intros Hm HV Hroom. unfold maybe_flush. rewrite (M_bind_Ok _ _ _ _ _ (get_run (fun db => MemTable.ShouldFlush (mem db)) db w)).
  destruct (MemTable.ShouldFlush (mem db)).
  { destruct (flush_run cap Hcap V V' db w m Hm HV Hroom) as (s' & H1 & H2 & H3 & _). by exists s'. }
  exists (db, w). split_and!; [done| |done]. eapply holds_map_mono; [exact Hm|lia|apply Hroom].
Qed.

Lemma writable_run {A} (x : MD A) db w : closed db = false -> ReadOnly (opts db) = false -> Db.writable x (db, w) = x (db, w).
Proof.
  intros Hc Hr. unfold Db.writable. rewrite (M_bind_Ok _ _ _ _ _ (get_run closed db w)), Hc.
  by rewrite (M_bind_Ok _ _ _ _ _ (get_run (fun db => ReadOnly (opts db)) db w)), Hr.
Qed.

Lemma holds_map_open V s m : holds_map V s m -> closed (fst s) = false.
Proof. intros (ess & n & os & i & B & _). apply B. Qed.

Lemma nonempty_len k : bs k <> [] -> (len (bs k) =? 0) = false.
Proof. intros Hk. apply Z.eqb_neq. destruct (bs k); [done|cbn; lia]. Qed.

(** [k] enters the records of a logged operation in the memtable, and flushes
    it when it is full. *)
Definition enters (op : Wal.op) (k : Z -> MD unit) : Prop := forall db (w : World) N W,
  in_mem db W -> (forall e, e ∈ W -> seq_of e <= N) -> 0 <= N -> N + Wal.op_count op < 2 ^ 40 ->
  Wal.nextSeq (wal db) = N + Wal.op_count op ->
  exists mt, in_mem (set_mem mt db) (W ++ (rec_entry <$> Wal.op_records N op)) /\
    k (N + Wal.op_count op) (db, w) = maybe_flush (F := F) (set_mem mt db, w).

Lemma logged_run V V' db w m op k :
  holds_map V (db, w) m -> loggable op -> enters op k -> V + op_cost op + 65 <= V' -> room cap V' ->
  exists s', (q ← on_wal (Wal.append_op op); k q) (db, w) = (Ok tt, s') /\ holds_map V' s' (op_map op m) /\ opts (fst s') = opts db.
Proof.
  intros Hm Hlog Hk HV [HV1 HV2].
  destruct (log_op V (V' - 1) db w m op Hm Hlog ltac:(lia) ltac:(lia)) as (l & w1 & N & W & Hrun & Hnx & H0 & HN & Hmem & Hle & Hcont).
  rewrite (M_bind_Ok _ _ _ _ _ Hrun). destruct (Hk (set_wal l db) w1 N W Hmem Hle H0 HN Hnx) as (mt & Hin & ->).
  destruct (maybe_flush_run (V' - 1) V' _ w1 _ (Hcont mt Hin) ltac:(lia) (conj HV1 HV2)) as (s2 & Hfl & Hm2 & Ho2). by exists s2.
Qed.

(** The single writes. *)
Lemma set_enters o key value del (op := if (del : bool) then Wal.OpDelete key else Wal.OpPut key value) :
  bs key <> [] ->
  (forall mt seq, o seq mt = MemTable.with_sl mt (SkipList.set key (if del then None else value) seq del (MemTable.sl mt))) ->
  enters op (fun seq => on_mem (o seq);; maybe_flush (F := F)).
Proof.
  intros Hk Hset db w N W Hmem Hle H0 HN Hnx. assert (Wal.op_count op = 1) as Hone by (by destruct del). rewrite Hone in *.
  destruct (in_mem_set db W key (if del then None else value) (N + 1) del Hmem Hk) as (s' & Hs & Hin).
  { intros e He. apply Hle in He. lia. }
  exists (MemTable.mkMemTable s' (MemTable.maxBytes (mem db))). split.
  - subst op. destruct del; cbn [Wal.op_records fmap list_fmap]; [rewrite rec_entry_delete|rewrite rec_entry_put]; exact Hin.
  - cbv beta. erewrite M_bind_Ok; [done|]. apply on_mem_run. rewrite Hset. unfold MemTable.with_sl. by rewrite Hs.
Qed.

Lemma loggable_one key value (del : bool) (op := if del then Wal.OpDelete key else Wal.OpPut key value) :
  bs key <> [] -> op_cost op + 64 <= 2 ^ 28 -> loggable op.
Proof. intros Hk Hsz. split; [subst op; by destruct del; repeat constructor|by destruct del|done]. Qed.

Lemma Put_run V V' db w m key value :
  holds_map V (db, w) m -> ReadOnly (opts db) = false -> bs key <> [] ->
  kv_cost key value + 64 <= 2 ^ 28 -> V + kv_cost key value + 65 <= V' -> room cap V' ->
  exists s', Put (F := F) key value (db, w) = (Ok tt, s') /\ holds_map V' s' (<[bs key := bs value]> m) /\ opts (fst s') = opts db.
Proof.
  intros Hm Hro Hk Hsz HV Hroom. unfold Put. rewrite nonempty_len, writable_run by (done || by eapply holds_map_open in Hm).
  apply (logged_run V V' db w m (Wal.OpPut key value)); try done; [by apply (loggable_one key value false)|].
  by apply (set_enters (MemTable.Put key value) key value false).
Qed.

Lemma Delete_run V V' db w m key :
  holds_map V (db, w) m -> ReadOnly (opts db) = false -> bs key <> [] ->
  kv_cost key None + 64 <= 2 ^ 28 -> V + kv_cost key None + 65 <= V' -> room cap V' ->
  exists s', Delete (F := F) key (db, w) = (Ok tt, s') /\ holds_map V' s' (delete (bs key) m) /\ opts (fst s') = opts db.
Proof.
  intros Hm Hro Hk Hsz HV Hroom. unfold Delete. rewrite nonempty_len, writable_run by (done || by eapply holds_map_open in Hm).
  apply (logged_run V V' db w m (Wal.OpDelete key)); try done; [by apply (loggable_one key None true)|].
  by apply (set_enters (MemTable.Delete key) key None true).
Qed.

(** A batch, entry by entry. *)
Lemma apply_entries_run es N : forall j db (w : World) W,
  in_mem db W -> (forall e, e ∈ W -> seq_of e <= N + j) -> Forall (fun e => bs (Wal.bKey e) <> []) es ->
  0 <= N -> 0 <= j -> N + j + len es < 2 ^ 63 ->
  exists mt, apply_entries es (N + 1) j (db, w) = (Ok tt, (set_mem mt db, w)) /\
    in_mem (set_mem mt db) (W ++ (rec_entry <$> Wal.entries_records (N + j) es)).
Proof.
  induction es as [|e es IH]; intros j db w W Hm Hle Hk HN Hj Hlen.
  - exists (mem db). cbn [Wal.entries_records fmap list_fmap]. rewrite app_nil_r. split; [by destruct db|done].
  - apply Forall_cons in Hk as [Hke Hk]. cbn [length] in Hlen. cbn [apply_entries].
    rewrite (u64_small (N + 1 + j)) by lia.
    destruct (in_mem_set db W (Wal.bKey e) (if Wal.bDeleted e then None else Wal.bValue e) (N + 1 + j) (Wal.bDeleted e) Hm Hke)
      as (s' & Hs & Hin); [intros x Hx; specialize (Hle x Hx); lia|].
    set (mt := MemTable.mkMemTable s' (MemTable.maxBytes (mem db))) in *.
    rewrite (M_bind_Ok _ _ _ tt (set_mem mt db, w)).
    2: { apply on_mem_run. transitivity (MemTable.with_sl (mem db) (SkipList.set (Wal.bKey e)
           (if Wal.bDeleted e then None else Wal.bValue e) (N + 1 + j) (Wal.bDeleted e) (MemTable.sl (mem db)))).
         - by destruct (Wal.bDeleted e).
         - unfold MemTable.with_sl. by rewrite Hs. }
    destruct (IH (j + 1) (set_mem mt db) w _ Hin) as (mt' & Hrun & Hin'); [|done|lia|lia|lia|].
    + intros x [Hx|Hx]%elem_of_app; [specialize (Hle x Hx); lia|]. apply list_elem_of_singleton in Hx as ->. cbn. lia.
    + exists mt'. split; [exact Hrun|]. rewrite <- app_assoc in Hin'. cbn [Wal.entries_records fmap list_fmap].
      rewrite rec_entry_batch. replace (N + j + 1) with (N + (j + 1)) by lia.
      replace (N + 1 + j) with (N + (j + 1)) in Hin' by lia. by destruct (Wal.bDeleted e).
Qed.

(** What [Write] does after the batch is logged. *)
Lemma batch_enters es : Forall (fun e => bs (Wal.bKey e) <> []) es ->
  enters (Wal.OpBatch es) (fun _ =>
    next ← get (fun db => Wal.NextSeq (wal db));
    let last := u64 (next - 1) in
    let first := u64 (u64 (last - len es) + 1) in
    apply_entries es first 0;;
    maybe_flush (F := F)).
Proof.
  intros Hk db w N W Hmem Hle H0 HN Hnx. cbn [Wal.op_count] in *.
  rewrite (M_bind_Ok _ _ _ _ _ (get_run (fun db => Wal.NextSeq (wal db)) db w)). cbv zeta. unfold Wal.NextSeq. rewrite Hnx.
  assert (u64 (u64 (u64 (u64 (N + len es + 1) - 1) - len es) + 1) = N + 1) as ->.
  { rewrite (u64_small (N + len es + 1)) by lia. rewrite (u64_small (N + len es + 1 - 1)) by lia.
    rewrite (u64_small (N + len es + 1 - 1 - len es)) by lia. rewrite u64_small by lia. lia. }
  destruct (apply_entries_run es N 0 db w W Hmem) as (mt & Happ & Hin); [|done|done|lia|lia|].
  { intros e He. apply Hle in He. lia. }
  exists mt. rewrite (M_bind_Ok _ _ _ _ _ Happ). rewrite Z.add_0_r in Hin. by split.
Qed.

Lemma loggable_batch es : es <> [] -> Forall (fun e => bs (Wal.bKey e) <> []) es -> op_cost (Wal.OpBatch es) + 64 <= 2 ^ 28 ->
  loggable (Wal.OpBatch es).
Proof. intros Hne Hk Hsz. split; [by apply Forall_fmap|by intros [=]|done]. Qed.

Lemma Write_run V V' db w m b (op := Wal.OpBatch (WriteBatch.entries b)) :
  holds_map V (db, w) m -> ReadOnly (opts db) = false -> Forall (fun e => bs (Wal.bKey e) <> []) (WriteBatch.entries b) ->
  op_cost op + 64 <= 2 ^ 28 -> V + op_cost op + 65 <= V' -> room cap V' ->
  exists s', Write (F := F) (Some b) (db, w) = (Ok tt, s') /\ holds_map V' s' (op_map op m) /\ opts (fst s') = opts db.
Proof.
  intros Hm Hro Hk Hsz HV Hroom. unfold Write. subst op. set (es := WriteBatch.entries b) in *.
  destruct (Z.eqb_spec (len es) 0) as [Hz|Hz].
  { exists (db, w). assert (es = []) as He by (destruct es; [done|cbn in Hz; lia]). rewrite He in *.
    split_and!; [done| |done]. eapply holds_map_mono; [exact Hm|cbn in HV; lia|apply Hroom]. }
  rewrite writable_run by (done || by eapply holds_map_open in Hm).
  apply (logged_run V V' db w m (Wal.OpBatch es)); try done; [|by apply batch_enters].
  apply loggable_batch; [by intros He; rewrite He in Hz|done|done].
Qed.

Lemma Flush_run V V' db w m :
  holds_map V (db, w) m -> ReadOnly (opts db) = false -> V + 1 <= V' -> room cap V' ->
  exists s', Flush (F := F) (db, w) = (Ok tt, s') /\ holds_map V' s' m /\ opts (fst s') = opts db /\ flushed db s'.
Proof.
  intros Hm Hro HV Hroom. unfold Flush. rewrite writable_run by (done || by eapply holds_map_open in Hm). by eapply flush_run.
Qed.

(** ** Reads *)

(** The answer of a lookup. *)
Definition answers (r : outcome slice) (v : option (list byte)) : Prop :=
  match v with Some v => exists s, r = Ok s /\ bs s = v | None => r = Err ErrNotFound end.

Lemma get_loop_run w fl i k ts ess E0 b :
  Forall2 (serving w fl i) ts ess -> Forall ascending ess -> picks E0 k b ->
  exists b', get_loop ts k b w = (Ok b', w) /\ picks (E0 ++ concat ess) k b'.
Proof.
  intros Ht. revert E0 b. induction Ht as [|t es ts ess Hs _ IH]; intros E0 b Ha Hb.
  - exists b. split; [done|]. cbn. by rewrite app_nil_r.
  - apply Forall_cons in Ha as [Hes Ha]. cbn [get_loop concat].
    rewrite (M_bind_Ok _ _ _ _ _ (access_Get t w es k (iu_opened _ _ _ (sv_use _ _ _ _ _ Hs)))).
    destruct (IH (E0 ++ es) (better b (lookup_entry k es)) Ha) as (b' & Hrun & Hb').
    { apply picks_app; [done|by apply picks_table]. }
    exists b'. rewrite app_assoc. split; [|done]. destruct (lookup_entry k es) as [e|]; [|exact Hrun].
    destruct b as [b|]; [|exact Hrun]. cbn [better] in Hrun. by destruct (seq_of b <? seq_of e).
Qed.

Lemma base_ascending V s ess n os i : base V s ess n os i -> Forall ascending ess.
Proof.
  intros B. rewrite Forall_lookup. intros j es Hj.
  destruct (Forall2_lookup_r _ _ _ _ _ (dr_tables _ _ _ _ (ba_dir _ _ _ _ _ _ B)) Hj) as (f & _ & (q & c & _ & _ & Ht)).
  by destruct (table_file_fits c es Ht) as (_ & ? & _).
Qed.

Lemma Get_run V db w m key : holds_map V (db, w) m -> exists r, Get key (db, w) = (r, (db, w)) /\ answers r (m !! bs key).
Proof.
  intros (ess & n & os & i & B & (mes & Hr & Hm) & Hcon). cbn [fst] in Hr.
  pose proof (ba_ledger _ _ _ _ _ _ B) as L. cbn [fst] in L. unfold Get.
  rewrite (M_bind_Ok _ _ _ _ _ (get_run closed db w)). pose proof (ba_open _ _ _ _ _ _ B) as Hop. cbn [fst] in Hop. rewrite Hop.
  rewrite (M_bind_Ok _ _ _ _ _ (get_run mem db w)).
  rewrite (M_bind_Ok _ _ _ (SkipList.lookup_entry (bs key) mes) (db, w)) by
    (unfold lift, MemTable.Get; by rewrite (SkipList.Get_spec _ _ key Hr)).
  pose proof (mh_picks _ _ Hm (bs key)) as Hp.
  assert (Hans: forall (s : slice) (d : bool), answers (if d then Err ErrNotFound else Ok (Clone s))
    (visible_value (Some (SSTable.mkEntry None s 0 d)))) by (intros s []; [done|by exists s; rewrite Clone_id]).
  destruct (SkipList.lookup_entry (bs key) mes) as [e|].
  - exists (if SkipList.Deleted e then Err ErrNotFound else Ok (Clone (SkipList.Value e))).
    split; [by destruct (SkipList.Deleted e)|].
    rewrite (Hcon (bs key) (Some (mem_entry e))); [exact (Hans (SkipList.Value e) (SkipList.Deleted e))|].
    destruct Hp as (Hin & Hk & Hmax). split_and!; [unfold all_entries; rewrite elem_of_app; by right|done|].
    intros x [Hx|Hx]%elem_of_app Hkx; [|by apply Hmax]. pose proof (lg_split _ _ _ _ _ L) as Hold. rewrite Forall_forall in Hold.
    specialize (Hold x Hx). destruct (lg_log _ _ _ _ _ L) as [_ Hok].
    destruct Hold as [Hold|Hold]; [|by apply Hmax].
    destruct (log_seqs_in os n Hok) as [_ Hs]. rewrite Forall_forall in Hs. specialize (Hs _ Hin). lia.
  - rewrite (M_bind_Ok _ _ _ _ _ (get_run tables db w)).
    destruct (get_loop_run w (Wal.f (wal db)) i (bs key) (rev (tables db)) (rev ess) [] None) as (b & Hrun & Hb).
    { apply Forall2_rev, (ba_tables _ _ _ _ _ _ B). }
    { apply Forall_rev, (base_ascending _ _ _ _ _ _ B). }
    { by intros x ?%not_elem_of_nil. }
    rewrite (M_bind_Ok _ _ _ _ _ (db_io_run _ db w _ _ Hrun)).
    exists (match b with None => Err ErrNotFound | Some b => if SSTable.Deleted b then Err ErrNotFound else Ok (Clone (SSTable.Value b)) end).
    split; [destruct b as [b|]; [by destruct (SSTable.Deleted b)|done]|].
    rewrite (Hcon (bs key) b); [destruct b as [b|]; [exact (Hans (SSTable.Value b) (SSTable.Deleted b))|done]|].
    change b with (better b None). apply (picks_ext (([] ++ concat (rev ess)) ++ log_entries n os)); [|by apply picks_app].
    intros x. unfold all_entries. cbn [app]. rewrite !elem_of_app, !elem_of_concat.
    assert (Hrev: forall l, l ∈ rev ess <-> l ∈ ess) by (intros l; by rewrite !list_elem_of_In, <- in_rev).
    setoid_rewrite Hrev. done.
Qed.

Lemma Has_run V db w m key :
  holds_map V (db, w) m -> Has key (db, w) = (Ok (bool_decide (is_Some (m !! bs key))), (db, w)).
Proof.
  intros Hm. destruct (Get_run V db w m key Hm) as (r & Hget & Hr). unfold Has.
  destruct (m !! bs key) as [v|]; cbn in Hr.
  - destruct Hr as (s & -> & _). rewrite (M_bind_Ok _ _ _ (inl s) (db, w)) by (unfold try_; by rewrite Hget).
    by rewrite bool_decide_true.
  - subst r. rewrite (M_bind_Ok _ _ _ (inr ErrNotFound) (db, w)) by (unfold try_; by rewrite Hget).
    rewrite (bool_decide_true (ErrNotFound = ErrNotFound)) by done. by rewrite bool_decide_false by apply is_Some_None.
Qed.
End refine.
