(* ===== verification/DbIter.v ===== *)
(** * DbIter: the iterators of a database list its map

    [collectMerged] gathers the newest entries of the memtable and the tables
    and sorts the keys that are not deleted. *)

From Stdlib Require Import ZArith Lia Strings.Byte.
From stdpp Require Import base decidable list gmap strings numbers sorting sets.
From S2P Require Import Prelude Bloom ByteUtil Os OsFacts Wal SkipList SSTable SSTableFacts SSTableWriter SSTableSpec Manifest ManifestFacts ManifestProps FileLock Compact CompactFacts CompactMerge Db DbSpec DbFiles DbLedger DbState.
#[local] Open Scope Z_scope.

(** [x] is the item of the entry [e]. *)
Definition item_is (x : iterItem) (e : entry) : Prop :=
  bs (iKey x) = key_of e /\ bs (iValue x) = bs (SSTable.Value e) /\ iDeleted x = SSTable.Deleted e /\ iSeq x = seq_of e.

(** The map [M] has the newest entry of every key of [E]. *)
Definition gathers (M : gmap (list byte) iterItem) (E : list entry) : Prop :=
  forall k, exists o, picks E k o /\
    match M !! k, o with Some x, Some e => item_is x e | None, None => True | _, _ => False end.

Lemma gathers_empty : gathers ∅ [].
Proof. intros k. exists None. split; [by intros e ?%not_elem_of_nil|by rewrite lookup_empty]. Qed.

Lemma gathers_update M E e k v :
  gathers M E -> bs k = key_of e -> bs v = bs (SSTable.Value e) ->
  gathers (update M k v (seq_of e) (SSTable.Deleted e)) (E ++ [e]).
Proof.
  intros HM Hk Hv j. destruct (HM j) as (o & Ho & Hx). unfold update. rewrite Hk.
  set (c := mkItem (Clone k) (Clone v) (SSTable.Deleted e) (seq_of e)).
  assert (item_is c e) as Hc by (unfold c; rewrite !Clone_id; by split_and!).
  destruct (decide (j = key_of e)) as [->|Hne].
  - exists (better o (Some e)). split; [apply picks_app; [done|]|].
    { split_and!; [by left|done|]. intros x ->%list_elem_of_singleton _. done. }
    destruct (M !! key_of e) as [cur|] eqn:Hcur; destruct o as [b|]; try done; cbn [better].
    + pose proof Hx as (_ & _ & _ & Hseq). rewrite Hseq. destruct (Z.leb_spec (seq_of e) (seq_of b)).
      * rewrite (proj2 (Z.ltb_ge _ _)) by lia. by rewrite Hcur.
      * rewrite (proj2 (Z.ltb_lt _ _)) by lia. by rewrite lookup_insert_eq.
    + by rewrite lookup_insert_eq.
  - exists o. split.
    + change o with (better o None). apply picks_app; [done|]. intros x ->%list_elem_of_singleton. congruence.
    + assert (forall y, <[key_of e := y]> M !! j = M !! j) as Hins by (intros y; by apply lookup_insert_ne).
      destruct (M !! key_of e) as [cur|]; [destruct (_ <=? _)|]; by rewrite ?Hins.
Qed.

Lemma gathers_mem es : forall M E,
  gathers M E ->
  gathers (fold_left (fun M e => update M (SkipList.Key e) (SkipList.Value e) (SkipList.Seq e) (SkipList.Deleted e)) es M)
    (E ++ (mem_entry <$> es)).
Proof.
  induction es as [|e es IH]; intros M E HM; cbn [fold_left fmap list_fmap]; [by rewrite app_nil_r|].
  replace (E ++ mem_entry e :: (mem_entry <$> es)) with ((E ++ [mem_entry e]) ++ (mem_entry <$> es)) by (by rewrite <- app_assoc).
  apply IH. by apply (gathers_update M E (mem_entry e)).
Qed.

Section iterate.
Context {TA : TableAccess} {F : Type} `{Float64 F} {J : Manifest.Json} {JO : JsonOk J} {E : FileLock.Env}.

Lemma merge_table_run r (w : World) es : forall fuel it M E0,
  reading r w es it -> (length es <= fuel)%nat -> gathers M E0 ->
  exists M', merge_table fuel r it M w = (Ok M', w) /\ gathers M' (E0 ++ es).
Proof.
  induction es as [|e es IH]; intros fuel it M E0 Hr Hf HM.
  - exists M. split; [|by rewrite app_nil_r]. destruct fuel; cbn [merge_table]; by rewrite (access_Valid _ _ _ _ Hr).
  - cbn [length] in Hf. destruct fuel as [|fuel]; [lia|]. cbn [merge_table]. rewrite (access_Valid _ _ _ _ Hr). cbv zeta.
    pose proof (item_of_tag r w e es it 0 Hr) as Htag. unfold item_of, tag in Htag. injection Htag as Hk Hv Hs Hd.
    rewrite Hk, Hv, Hs, Hd.
    destruct (access_Next _ _ _ _ _ Hr) as (it' & Hn & Hr'). rewrite (M_bind_Ok _ _ _ _ _ Hn).
    destruct (IH fuel it' (update M (SSTable.Key e) (SSTable.Value e) (seq_of e) (SSTable.Deleted e)) (E0 ++ [e]) Hr' ltac:(lia))
      as (M' & Hrun & HM'); [by apply gathers_update|].
    exists M'. by rewrite <- app_assoc in HM'.
Qed.

Lemma merge_tables_run w fl i ts ess : Forall2 (serving w fl i) ts ess -> forall M E0,
  gathers M E0 -> exists M', merge_tables ts M w = (Ok M', w) /\ gathers M' (E0 ++ concat ess).
Proof.
  induction 1 as [|t es ts ess [[Hop Hfuel _] _] _ IH]; intros M E0 HM.
  - exists M. cbn. by rewrite app_nil_r.
  - cbn [merge_tables concat]. destruct (access_NewIterator t w es Hop) as (it & Hit & Hr).
    rewrite (M_bind_Ok _ _ _ _ _ Hit). destruct (merge_table_run t w es (reader_fuel t) it M E0 Hr Hfuel HM) as (M1 & H1 & HM1).
    rewrite (M_bind_Ok _ _ _ _ _ H1). destruct (IH M1 (E0 ++ es) HM1) as (M2 & H2 & HM2). exists M2. by rewrite app_assoc.
Qed.

(** The pairs an iterator lists. *)
Definition pair_of (x : iterItem) : list byte * list byte := (bs (iKey x), bs (iValue x)).

Lemma sorted_items_spec M E0 m :
  gathers M E0 -> contents E0 m -> coherent E0 ->
  StronglySorted blt ((pair_of <$> sorted_items M).*1) /\
  forall k v, (k, v) ∈ pair_of <$> sorted_items M <-> m !! k = Some v.
Proof.
  intros HM Hm Hc. unfold sorted_items. set (alive := filter (fun kc => iDeleted kc.2 = false) M).
  set (ks := merge_sort ble (map_to_list alive).*1).
  assert (Hks: forall k, k ∈ ks <-> is_Some (alive !! k)).
  { intros k. unfold ks. rewrite merge_sort_Permutation. rewrite list_elem_of_fmap. split.
    - intros ([k' x] & -> & Hx). apply elem_of_map_to_list in Hx. by eexists.
    - intros [x Hx]. exists (k, x). split; [done|]. by apply elem_of_map_to_list. }
  assert (Hal: forall k x, alive !! k = Some x <-> M !! k = Some x /\ iDeleted x = false) by
    (intros k x; unfold alive; by rewrite map_lookup_filter_Some).
  assert (Hkey: forall k x, M !! k = Some x -> bs (iKey x) = k).
  { intros k x Hx. destruct (HM k) as (o & Ho & Hi). rewrite Hx in Hi. destruct o as [e|]; [|done].
    destruct Hi as (-> & _). by destruct Ho as (_ & ? & _). }
  assert (pair_of <$> omap (M !!.) ks = omap (fun k => pair_of <$> M !! k) ks) as Hpairs.
  { clear. induction ks as [|k ks IH]; [done|]. cbn. destruct (M !! k); cbn; by rewrite IH. }
  assert ((pair_of <$> omap (M !!.) ks).*1 = ks) as Hfst.
  { rewrite Hpairs. assert (Forall (fun k => is_Some (M !! k)) ks) as Hall.
    { rewrite Forall_forall. intros k Hk. apply Hks in Hk as [x Hx]. apply Hal in Hx as [Hx _]. by eexists. }
    clear -Hall Hkey. induction Hall as [|k ks [x Hx] _ IH]; [done|]. cbn. rewrite Hx. cbn. rewrite IH. f_equal. by apply Hkey. }
  split.
  - rewrite Hfst. assert (NoDup ks) as Hnd by (unfold ks; rewrite merge_sort_Permutation; apply NoDup_fst_map_to_list).
    pose proof (StronglySorted_merge_sort ble (map_to_list alive).*1) as Hs. fold ks in Hs.
    clear -Hs Hnd. induction Hs as [|k ks Hs IH Hf]; [constructor|]. inversion Hnd as [|? ? Hnin Hnd']; subst.
    constructor; [by apply IH|]. rewrite Forall_forall in *. intros x Hx. specialize (Hf x Hx).
    apply ble_alt in Hf as [Hf|Hf]; [done|]. by subst.
  - intros k v. rewrite list_elem_of_fmap. split.
    + intros (x & Hp & Hx). injection Hp as -> ->. apply list_elem_of_omap in Hx as (k & Hk & Hx). rewrite (Hkey k x Hx).
      apply Hks in Hk as [x' Hx']. apply Hal in Hx' as [Hx' Hdel]. assert (x' = x) as -> by congruence.
      destruct (HM k) as (o & Ho & Hi). rewrite Hx in Hi. destruct o as [e|]; [|done]. destruct Hi as (_ & Hv & Hd & _).
      rewrite (Hm k _ Ho). cbn. by rewrite <- Hd, Hdel, Hv.
    + intros Hv. destruct (HM k) as (o & Ho & Hi). rewrite (Hm k o Ho) in Hv.
      destruct o as [e|]; [|done]. cbn in Hv. destruct (SSTable.Deleted e) eqn:Hdel; [done|]. injection Hv as Hv.
      destruct (M !! k) as [x|] eqn:Hx; [|done]. pose proof Hi as (_ & Hvx & Hd & _). exists x. split.
      * unfold pair_of. by rewrite (Hkey k x Hx), Hvx, Hv.
      * apply list_elem_of_omap. exists k. split; [|done]. apply Hks. exists x. apply Hal. split; [done|congruence].
Qed.

(** A new iterator lists the map, in the order of its keys. *)
Lemma NewIterator_run V db w m :
  holds_map V (db, w) m ->
  exists l, Iterator.NewIterator (db, w) = (Ok (Iterator.mkIterator l (-1) true), (db, w)) /\
    StronglySorted blt ((pair_of <$> l).*1) /\ forall k v, (k, v) ∈ pair_of <$> l <-> m !! k = Some v.
Proof.
  intros (ess & n & os & i & B & (mes & Hr & Hm) & Hcon). cbn [fst] in Hr.
  pose proof (lg_coherent _ _ _ _ _ (ba_ledger _ _ _ _ _ _ B)) as Hcoh.
  destruct (contents_flush mes (log_entries n os) (concat ess) m Hm Hcoh Hcon) as [Hcon' Hcoh'].
  pose proof (gathers_mem mes ∅ [] gathers_empty) as HM0. cbn [app] in HM0.
  set (M0 := fold_left _ mes ∅) in *.
  destruct (merge_tables_run w (Wal.f (wal db)) i (tables db) ess (ba_tables _ _ _ _ _ _ B) M0 _ HM0) as (M & Hrun & HM).
  assert (gathers M (concat ess ++ (mem_entry <$> mes))) as HM'.
  { intros k. destruct (HM k) as (o & Ho & Hx). exists o. split; [|done]. eapply picks_ext; [|exact Ho].
    intros e. rewrite !elem_of_app. tauto. }
  destruct (sorted_items_spec M _ m HM' Hcon' Hcoh') as [Hs Hall]. exists (sorted_items M). split; [|done].
  unfold Iterator.NewIterator, collectMerged.
  rewrite (M_bind_Ok _ _ _ (sorted_items M) (db, w)); [done|].
  rewrite (M_bind_Ok _ _ _ _ _ (get_run mem db w)).
  rewrite (M_bind_Ok _ _ _ mes (db, w)) by (unfold lift, MemTable.Snapshot; by rewrite (SkipList.Snapshot_repr _ _ Hr)).
  cbv zeta. fold M0. rewrite (M_bind_Ok _ _ _ _ _ (get_run tables db w)).
  by rewrite (M_bind_Ok _ _ _ _ _ (db_io_run _ db w _ _ Hrun)).
Qed.
End iterate.

(** ** Walking an iterator *)

Lemma sorted_lookup ks a b x y :
  StronglySorted blt ks -> ks !! a = Some x -> ks !! b = Some y -> (a < b)%nat -> blt x y.
Proof.
  intros Hs Hx Hy Hab. rewrite <- (take_drop b ks) in Hs. eapply (StronglySorted_app_1_elem_of _ _ _ x y Hs).
  - apply (list_elem_of_lookup_2 _ a). by rewrite lookup_take_lt.
  - apply (list_elem_of_lookup_2 _ 0). by rewrite lookup_drop, Nat.add_0_r.
Qed.


(** [for it.Valid() { ... it.Key() ... it.Value() ...; it.Next() }] *)
Fixpoint walk (fuel : nat) (it : Iterator.Iterator) : outcome (list (list byte * list byte)) :=
  if Iterator.Valid it then
    match fuel with
    | O => Stuck
    | S fuel =>
        k ← Iterator.Key it;
        v ← Iterator.Value it;
        rest ← walk fuel (Iterator.Next it);
        Ok ((bs k, bs v) :: rest)
    end
  else Ok [].

Section walk.
Context (l : list iterItem) (h : bool).

Definition at_item (j : nat) : Iterator.Iterator :=
  Iterator.mkIterator l (if (j <? length l)%nat then Z.of_nat j else -1) h.

Lemma at_item_Valid j : Iterator.Valid (at_item j) = (j <? length l)%nat.
Proof.
  unfold at_item, Iterator.Valid. cbn [Iterator.idx Iterator.items]. destruct (Nat.ltb_spec j (length l)); [|done].
  rewrite (proj2 (Z.leb_le _ _)), (proj2 (Z.ltb_lt _ _)) by lia. done.
Qed.
Lemma at_item_Next j : (j < length l)%nat -> Iterator.Next (at_item j) = at_item (S j).
Proof.
  intros Hj. unfold at_item, Iterator.Next. rewrite (proj2 (Nat.ltb_lt _ _) Hj). cbn [Iterator.idx Iterator.items Iterator.held].
  rewrite (proj2 (Z.ltb_ge _ _)) by lia. f_equal. destruct (Nat.ltb_spec (S j) (length l)).
  - rewrite (proj2 (Z.leb_gt _ _)); lia.
  - rewrite (proj2 (Z.leb_le _ _)); lia.
Qed.

Lemma walk_at fuel : forall j, (length l <= j + fuel)%nat -> walk fuel (at_item j) = Ok (drop j (pair_of <$> l)).
Proof.
  assert (Hend: forall j, (length l <= j)%nat -> drop j (pair_of <$> l) = []).
  { intros j Hj. apply drop_ge. by rewrite length_fmap. }
  induction fuel as [|fuel IH]; intros j Hj; cbn [walk]; rewrite at_item_Valid; destruct (Nat.ltb_spec j (length l)) as [Hlt|Hge];
    try (by rewrite Hend); [lia|].
  destruct (lookup_lt_is_Some_2 l j Hlt) as [x Hx]. assert (Prelude.index l (Z.of_nat j) = Ok x) as Hidx.
  { apply index_lookup. rewrite Nat2Z.id. split; [lia|done]. }
  pose proof (proj2 (Nat.ltb_lt _ _) Hlt) as Hltb.
  assert (Iterator.Key (at_item j) = Ok (Clone (iKey x)) /\ Iterator.Value (at_item j) = Ok (Clone (iValue x))) as [-> ->].
  { unfold Iterator.Key, Iterator.Value. rewrite at_item_Valid, Hltb. cbn [negb]. unfold at_item. rewrite Hltb.
    cbn [Iterator.idx Iterator.items]. by rewrite Hidx, !outcome_bind_Ok. }
  rewrite !outcome_bind_Ok.
  rewrite at_item_Next, IH, outcome_bind_Ok by (done || lia). f_equal.
  assert ((pair_of <$> l) !! j = Some (pair_of x)) as Hp by (by rewrite list_lookup_fmap, Hx).
  rewrite (drop_S _ _ _ Hp). unfold pair_of. by rewrite !Clone_id.
Qed.

Lemma SeekToFirst_at i : Iterator.SeekToFirst (Iterator.mkIterator l i h) = at_item 0.
Proof. unfold Iterator.SeekToFirst, at_item. cbn. by destruct l. Qed.

(** [Seek] goes to the first key that is not below the target. *)
Lemma Seek_at target i : StronglySorted blt ((pair_of <$> l).*1) ->
  exists j, Iterator.Seek target (Iterator.mkIterator l i h) = Ok (at_item j) /\
    filter (fun kv => ble target kv.1) (pair_of <$> l) = drop j (pair_of <$> l).
Proof.
  intros Hs. set (f := fun i => match l !! i with Some x => 0 <=? bytes_Compare (bs (iKey x)) target | None => false end).
  assert (Hf: forall j x, l !! j = Some x -> f j = bool_decide (ble target (bs (iKey x)))).
  { intros j x Hx. unfold f. rewrite Hx. case_bool_decide as Hb.
    - apply Z.leb_le. destruct (Z.ltb_spec (bytes_Compare (bs (iKey x)) target) 0) as [Hlt%compare_lt|]; [|lia]. by apply not_blt in Hb.
    - apply Z.leb_gt. by apply compare_lt, not_ble. }
  assert (Hkeys: forall j x, l !! j = Some x -> (pair_of <$> l).*1 !! j = Some (bs (iKey x))).
  { intros j x Hx. by rewrite !list_lookup_fmap, Hx. }
  destruct (sort_Search_loop_spec (length l) f (length l) 0 (length l)) as (r & Hr & Hle & Hlo & Hhi); try lia.
  { intros a b Hab Ha. destruct (lookup_lt_is_Some_2 l a) as [x Hx]; [lia|]. destruct (lookup_lt_is_Some_2 l b) as [y Hy]; [lia|].
    rewrite (Hf _ _ Hx) in Ha. apply bool_decide_eq_true in Ha. rewrite (Hf _ _ Hy). apply bool_decide_eq_true.
    destruct (decide (a = b)) as [->|Hne]; [by simplify_eq|]. apply ble_alt. left. eapply ble_blt_trans; [exact Ha|].
    eapply sorted_lookup; [exact Hs|by apply Hkeys|by apply Hkeys|lia]. }
  exists r. split.
  - unfold Iterator.Seek, sort_Search. cbn [Iterator.items Iterator.held]. fold f. rewrite Hr, outcome_bind_Ok. cbv zeta. unfold at_item. do 2 f_equal.
    destruct (Nat.ltb_spec r (length l)); [rewrite (proj2 (Z.leb_gt _ _)) by lia|rewrite (proj2 (Z.leb_le _ _)) by lia]; done.
  - clear Hr Hs. rewrite <- (take_drop r (pair_of <$> l)) at 1. rewrite filter_app.
    assert (forall j kv, (pair_of <$> l) !! j = Some kv -> (j < length l)%nat /\ f j = bool_decide (ble target kv.1)) as Hp.
    { intros j kv Hj. rewrite list_lookup_fmap in Hj. destruct (l !! j) as [x|] eqn:Hx; [|done]. injection Hj as <-.
      split; [by eapply lookup_lt_Some|by apply Hf]. }
    rewrite (filter_none _ (take r _)), filter_all; [done|..]; rewrite Forall_lookup; intros j kv Hj.
    + rewrite lookup_drop in Hj. destruct (Hp _ _ Hj) as [Hlt Hb]. rewrite Hhi in Hb by lia. symmetry in Hb. by apply bool_decide_eq_true in Hb.
    + apply lookup_take_Some in Hj as [Hj Hjr]. destruct (Hp _ _ Hj) as [Hlt Hb]. rewrite Hlo in Hb by lia.
      symmetry in Hb. by apply bool_decide_eq_false in Hb.
Qed.
End walk.
