(* ===== verification/DbCompact.v ===== *)
(** * DbCompact: a compaction keeps the map

    The tables chosen by the plan are merged into one, which replaces them in
    the manifest and among the open tables; the database holds the same map. *)

From Stdlib Require Import ZArith Lia Strings.Byte.
From stdpp Require Import base decidable list gmap strings numbers sorting sets.
From S2P Require Import Prelude Bloom ByteUtil Os OsFacts Wal SkipList SSTable SSTableFacts SSTableWriter SSTableSpec Manifest ManifestFacts ManifestProps FileLock Compact CompactFacts CompactMerge CompactProps Db DbSpec DbFiles DbLedger DbState DbFlush DbRefine.
#[local] Open Scope Z_scope.

(** ** Selections

    A choice among the elements of a list, as a list of booleans: the tables,
    their entries and their records in the manifest are chosen alike. *)

Fixpoint mask {A} (b : list bool) (l : list A) : list A :=
  match b, l with
  | c :: b, x :: l => if c then x :: mask b l else mask b l
  | _, _ => []
  end.

Lemma mask_fmap {A B} (g : A -> B) l : forall b, mask b (g <$> l) = g <$> mask b l.
Proof. induction l as [|x l IH]; intros [|c b]; cbn; try done. destruct c; cbn; by rewrite <- IH. Qed.

Lemma mask_Forall2 {A B} (R : A -> B -> Prop) l k : Forall2 R l k -> forall b, Forall2 R (mask b l) (mask b k).
Proof. induction 1 as [|x y l k Hxy _ IH]; intros [|c b]; cbn; try constructor. destruct c; [by constructor|done]. Qed.

Lemma mask_sublist {A} (l : list A) : forall b, mask b l `sublist_of` l.
Proof. induction l as [|x l IH]; intros [|c b]; cbn; try apply sublist_nil_l. destruct c; by constructor. Qed.

Lemma mask_Forall {A} (P : A -> Prop) l b : Forall P l -> Forall P (mask b l).
Proof. rewrite !Forall_forall. intros Hl x Hx. by apply Hl, (elem_of_sublist _ _ _ (mask_sublist l b)). Qed.

Lemma mask_perm {A} (l : list A) : forall b, length b = length l -> mask b l ++ mask (negb <$> b) l ≡ₚ l.
Proof.
  induction l as [|x l IH]; intros [|c b] Hl; try done. injection Hl as Hl. specialize (IH b Hl). cbn.
  destruct c; cbn; [by rewrite IH|]. rewrite <- Permutation_middle. by rewrite IH.
Qed.

Lemma filter_mask {A} (P : A -> Prop) `{forall x, Decision (P x)} l : filter P l = mask ((fun x => bool_decide (P x)) <$> l) l.
Proof. induction l as [|x l IH]; [done|]. rewrite filter_cons. cbn. rewrite IH. by case_bool_decide; case_decide. Qed.

(** What is chosen determines the choice, when the list has no duplicates. *)
Lemma mask_elem {A} `{EqDecision A} (l : list A) : forall b, NoDup l -> length b = length l ->
  (fun x => bool_decide (x ∈ mask b l)) <$> l = b.
Proof.
  induction l as [|x l IH]; intros [|c b] Hnd Hl; try done. injection Hl as Hl.
  apply NoDup_cons in Hnd as [Hx Hnd]. cbn [fmap list_fmap mask]. f_equal.
  - destruct c; case_bool_decide as Hin; try done; [by destruct Hin; left|].
    destruct Hx. by apply (elem_of_sublist _ _ _ (mask_sublist l b)).
  - transitivity ((fun y => bool_decide (y ∈ mask b l)) <$> l); [|by apply IH].
    apply list_fmap_ext. intros j y Hy%list_elem_of_lookup_2. apply bool_decide_ext. destruct c; [|done].
    rewrite elem_of_cons. split; [|by right]. intros [->|?]; done.
Qed.

(** What is chosen and what is not have nothing in common. *)
Lemma mask_apart {A B} (g : A -> B) l b x y : NoDup (g <$> l) -> length b = length l ->
  x ∈ mask b l -> y ∈ mask (negb <$> b) l -> g x <> g y.
Proof.
  intros Hnd Hl Hx Hy Heq. rewrite <- (mask_perm l b Hl), fmap_app in Hnd. apply NoDup_app in Hnd as (_ & Hd & _).
  apply (Hd (g x)); [by apply list_elem_of_fmap_2|]. rewrite Heq. by apply list_elem_of_fmap_2.
Qed.

Lemma mask_concat {A} (ls : list (list A)) b : length b = length ls ->
  concat ls ≡ₚ concat (mask b ls) ++ concat (mask (negb <$> b) ls).
Proof. intros Hl. rewrite <- concat_app. by rewrite (mask_perm ls b Hl). Qed.

(** ** The plan *)

Lemma plan_loop_paths files : iPath <$> plan_loop files [] = mask ((fun f => fLevel f =? 0) <$> files) (fPath <$> files).
Proof.
  rewrite plan_loop_spec. cbn [app]. induction files as [|f files IH]; [done|]. rewrite filter_cons. cbn [fmap list_fmap mask].
  destruct (Z.eqb_spec (fLevel f) 0); [rewrite decide_True by done|by rewrite decide_False]. cbn. by rewrite IH.
Qed.

(** The inputs of [CompactDir] are some of its files, in their order. *)
Lemma plan_inputs (files : list FileRef) : (2 <= length files)%nat ->
  exists inputs b,
    (forall S, (if len (PlanLevel0 files 2) =? 0 then
        match files with
        | f0 :: f1 :: _ => mret [mkInput (fPath f0) (fLevel f0); mkInput (fPath f1) (fLevel f1)]
        | _ => throw ErrNoInputs
        end
      else mret (PlanLevel0 files 2) : M S (list Input)) = mret inputs) /\
    length b = length files /\ (2 <= length inputs)%nat /\ iPath <$> inputs = mask b (fPath <$> files).
Proof.
  intros Hl. destruct (Z.eqb_spec (len (PlanLevel0 files 2)) 0) as [Hz|Hz].
  - destruct files as [|f0 [|f1 rest]]; cbn in Hl; try lia.
    exists [mkInput (fPath f0) (fLevel f0); mkInput (fPath f1) (fLevel f1)], (true :: true :: ((fun _ => false) <$> rest)).
    split_and!; [done|cbn; by rewrite length_fmap|cbn; lia|]. cbn. do 2 f_equal.
    clear. induction rest as [|f rest IH]; [done|]. cbn. exact IH.
  - exists (PlanLevel0 files 2), ((fun f => fLevel f =? 0) <$> files).
    split_and!; [done|by rewrite length_fmap| |]; unfold PlanLevel0 in *; cbn in *; case_match eqn:Hlt; try done;
      [apply Z.ltb_ge in Hlt; lia|apply plan_loop_paths].
Qed.

(** ** The name of a table, from its path *)

Lemma after_slash_last a : forall b acc,
  Forall (fun x => x <> x2f) (to_bytes b) ->
  after_slash (a ++ String slash b) acc = b.
Proof.
  assert (Hb: forall b acc, Forall (fun x => x <> x2f) (to_bytes b) -> after_slash b acc = acc).
  { induction b as [|c b IH]; intros acc Hb; [done|]. cbn in Hb. apply Forall_cons in Hb as [Hc Hb]. cbn.
    destruct (Ascii.eqb_spec c slash) as [->|]; [by destruct Hc|by apply IH]. }
  intros b acc Hnb. revert acc. induction a as [|c a IH]; intros acc; [exact (Hb b b Hnb)|apply IH].
Qed.

Lemma table_name_noslash k : Forall (fun x => x <> x2f) (to_bytes (table_name k)).
Proof.
  unfold table_name. rewrite to_of_bytes. apply Forall_app. split; [|by repeat constructor].
  generalize (Nat.max 6 (ndigits 20 k)). intros u. revert k. induction u as [|u IH]; intros k; cbn [digits]; [constructor|].
  apply Forall_app. split; [apply IH|]. apply Forall_singleton. intros Hd. apply (f_equal b2z) in Hd. revert Hd. unfold digit.
  pose proof (Z.mod_pos_bound k 10). rewrite b2z_z2b, u8_small by lia. change (b2z x2f) with 47. lia.
Qed.

Lemma Base_table d k : filepath_Base (filepath_Join d (table_name k)) = table_name k.
Proof.
  unfold filepath_Base. destruct (String.eqb_spec (filepath_Join d (table_name k)) "") as [He|_]; [by destruct d|].
  exact (after_slash_last d (table_name k) _ (table_name_noslash k)).
Qed.

(** ** Steps of a compaction *)

Definition merged_in (removed : list string) (ts : list Reader) : list bool :=
  (fun t => bool_decide (SSTable.Path t ∈ removed)) <$> ts.

(** The merged tables are closed; the descriptors of others stay. *)
Lemma close_merged_run removed ts : forall w, calm w ->
  exists ts' w', close_merged ts removed w =
      (Ok (ts', filepath_Base <$> mask (merged_in removed ts) (SSTable.Path <$> ts), mask (negb <$> merged_in removed ts) ts), w') /\
    calm w' /\ names w' = names w /\ inodes w' = inodes w /\ length (fds w') = length (fds w) /\
    forall g, (forall t, t ∈ mask (merged_in removed ts) ts -> rf t <> Some g) -> fds w' !! g = fds w !! g.
Proof.
  induction ts as [|t ts IH]; intros w Hc; [by exists [], w|]. cbn [close_merged merged_in fmap list_fmap mask].
  fold (merged_in removed ts). case_bool_decide as Hin; cbn [negb].
  - destruct (close_reader_calm t w Hc) as (w1 & H1 & Hc1 & Hn1 & Hi1 & Hl1 & Hf1).
    destruct (IH w1 Hc1) as (ts' & w2 & H2 & Hc2 & Hn2 & Hi2 & Hl2 & Hf2).
    exists (closed_reader t :: ts'), w2. rewrite (M_bind_Ok _ _ _ _ _ H1), (M_bind_Ok _ _ _ _ _ H2).
    split_and!; [done|done|congruence..|]. intros g Hg. rewrite Hf2, Hf1; [done|apply Hg; by left|].
    intros x Hx. apply Hg. by right.
  - destruct (IH w Hc) as (ts' & w2 & H2 & Hrest). exists (t :: ts'), w2. by rewrite (M_bind_Ok _ _ _ _ _ H2).
Qed.

(** Files the manifest does not name are removed. *)
Lemma remove_files_run {J : Json} {JO : JsonOk J} ps mf ess i : forall w,
  directory w mf ess i ->
  (forall p, p ∈ ps -> p <> at_ (Manifest.dir mf) RManifest /\ p <> at_ (Manifest.dir mf) RLog /\
    forall f, f ∈ Manifest.files (Manifest.state mf) -> p <> table_path (Manifest.dir mf) f) ->
  exists w', remove_files ps w = (Ok tt, w') /\ directory w' mf ess i /\ inodes w' = inodes w /\ fds w' = fds w /\
    forall q, q ∉ ps -> names w' !! q = names w !! q.
Proof.
  induction ps as [|p ps IH]; intros w D Hps; [by exists w|]. cbn [remove_files].
  destruct (dr_calm _ _ _ _ D) as [Hc _].
  assert (exists o w1, try_ (Remove p) w = (Ok o, w1) /\ directory w1 mf ess i /\ inodes w1 = inodes w /\ fds w1 = fds w /\
    forall q, q <> p -> names w1 !! q = names w !! q) as (o & w1 & H1 & D1 & Hi1 & Hf1 & Hn1).
  { unfold try_, Remove. rewrite syscall_calm by done. destruct (names w !! p) as [j|] eqn:Hj.
    - eexists _, _. split; [done|]. split_and!; [|done|done|intros q Hq; cbn; by rewrite lookup_delete_ne].
      destruct (Hps p ltac:(by left)) as (P1 & P2 & P3). by eapply directory_remove.
    - by eexists _, w. }
  destruct (IH w1 D1) as (w2 & H2 & D2 & Hi2 & Hf2 & Hn2); [intros q Hq; apply Hps; by right|].
  exists w2. rewrite (M_bind_Ok _ _ _ _ _ H1). split_and!; [done|done|congruence..|].
  intros q Hq. apply not_elem_of_cons in Hq as [Hq1 Hq2]. by rewrite Hn2, Hn1.
Qed.

Section compact.
Context {TA : TableAccess} {F : Type} `{Float64 F} {J : Manifest.Json} {JO : JsonOk J} {E : FileLock.Env}.

Context (cap : Z) (Hcap : blooms_fit (F := F) cap).

(** What a merge of some of the tables can write. *)
Lemma ledger_mergeable V st ess n os b :
  ledger V st ess n os -> V <= 64 * cap ->
  mergeable (F := F) (Some (Compact.mkOptions false 0 0)) (mask b ess).
Proof.
  intros L HV. destruct L as [L0 _ _ _ _ _ _ L6 L7 _ _ _]. unfold all_entries in L6, L7.
  apply Forall_app in L6 as [L6 _]. rewrite tsize_app in L7. pose proof (tsize_len (log_entries n os)) as Hlog.
  assert (concat (mask b ess) `sublist_of` concat ess) as Hsub.
  { clear. revert b. induction ess as [|es ess IH]; intros [|c b]; cbn; try apply sublist_nil_l.
    destruct c; cbn; [by apply sublist_app|by apply sublist_inserts_l]. }
  pose proof (tsize_sublist _ _ Hsub) as Hsz. pose proof (tsize_len (concat (mask b ess))) as Hl.
  assert (forall e, e ∈ concat (mask b ess) -> entry_ok e /\ esize e <= 2 ^ 29) as Hall.
  { intros e He. apply (elem_of_sublist _ _ _ Hsub) in He. rewrite Forall_forall in L6. by destruct (L6 e He) as (? & ? & _). }
  split.
  - split; [| |lia]; rewrite Forall_forall; intros e He; by apply Hall.
  - by vm_compute.
  - intros m Hm. apply Hcap. lia.
Qed.

(** The state after a merge of the tables chosen by [b]: a new table with the
    entries [es], next to those it merges; the manifest has allocated its name. *)
Record merge_done (V : Z) (db : DB) (mf : Manifest.Manifest) (w : World) ess n os i (b : list bool) (es : list entry) (meta : Meta) : Prop := {
  md_base : base V (set_manif mf db, w) ess n os i;
  md_next : Manifest.NextFile (Manifest.state mf) = Manifest.NextFile (Manifest.state (manif db)) + 1;
  md_number : 0 <= Manifest.NextFile (Manifest.state (manif db)) < 2 ^ 64;
  md_files : Manifest.files (Manifest.state mf) = Manifest.files (Manifest.state (manif db));
  md_logseq : Manifest.LogSeq_ (Manifest.state mf) = Manifest.LogSeq_ (Manifest.state (manif db));
  md_choice : length b = length (tables db);
  md_merged : merged false (mask b ess) es;
  md_maxseq : mMaxSeq meta = max_seq es;
  md_entries : mEntries meta = len es;
  md_size : 0 <= mFileSize meta < 2 ^ 62;
  md_output : holds w (at_ (Db.dir db) (RTable (Manifest.NextFile (Manifest.state (manif db))))) es
}.

(** The merge. *)
Lemma merge_run V V' db w ess n os i refs (k := Manifest.NextFile (Manifest.state (manif db))) (out := at_ (Db.dir db) (RTable k)) :
  base V (db, w) ess n os i -> V + 1 <= V' -> room cap V' -> (2 <= length (tables db))%nat ->
  fPath <$> refs = SSTable.Path <$> tables db ->
  exists b es meta kept dropped mf1 w2,
    CompactDir (F := F) (Db.dir db) refs Manifest.AllocFileName (Some (Compact.mkOptions false 0 0)) (manif db, w) =
      (Ok (mkResult out meta (mask b (SSTable.Path <$> tables db)) kept dropped), (mf1, w2)) /\
    (2 <= length (mask b (tables db)))%nat /\ merge_done V' db mf1 w2 ess n os i b es meta.
Proof.
  intros B HV Hroom Hlen Hrefs. assert (length refs = length (tables db)) as Hlr.
  { apply (f_equal length) in Hrefs. by rewrite !length_fmap in Hrefs. }
  destruct (plan_inputs refs ltac:(lia)) as (inputs & b & Hplan & Hb & Htwo & Hin). rewrite Hrefs in Hin.
  assert (inputs <> []) as Hne by (intros ->; cbn in Htwo; lia).
  destruct (alloc_run cap V V' db w ess n os i B HV Hroom) as
    (mf1 & w1 & Halloc & B1 & Hnf & Hk & Hfs & Hls & Hdir1 & Hnone). fold k in Halloc, Hnf, Hk, Hnone. fold out in Hnone.
  pose proof (ba_dir _ _ _ _ _ _ B1) as D1. cbn [fst snd] in D1. destruct (dr_calm _ _ _ _ D1) as [Hc1 Hn1].
  pose proof (ba_same _ _ _ _ _ _ B1) as Hsame. cbn [fst] in Hsame. change (Db.dir db = Manifest.dir mf1) in Hsame.
  pose proof (ba_paths _ _ _ _ _ _ B1) as Hpaths. cbn [fst] in Hpaths.
  change (SSTable.Path <$> tables db = table_path (Db.dir db) <$> Manifest.files (Manifest.state mf1)) in Hpaths.
  assert (Forall2 (fun x es => holds w1 (iPath x) es) inputs (mask b ess)) as Hholds.
  { apply (Forall2_fmap_l iPath (holds w1)). rewrite Hin, Hpaths, mask_fmap, Forall2_fmap_l.
    apply mask_Forall2. rewrite Hsame. exact (dr_tables _ _ _ _ D1). }
  destruct (MergeFiles_run inputs (mask b ess) out (Some (Compact.mkOptions false 0 0)) w1 Hc1 Hn1 Hne Hholds Hnone) as
    (es & meta & w2 & Hrun & Hmg & _ & _ & _ & Hseq & Hent & Hsz & Hc2 & Hn2 & Hnm2 & Hi2 & Hf2 & Hh2).
  { eapply ledger_mergeable; [exact (ba_ledger _ _ _ _ _ _ B1)|apply Hroom]. }
  assert (grows w1 w2) as G2 by by split.
  exists b, es, meta, (tombs es), (len (concat (mask b ess)) - len es), mf1, w2. split_and!.
  2: { apply (f_equal length) in Hin. rewrite mask_fmap, !length_fmap in Hin. lia. }
  - unfold CompactDir. cbv zeta. rewrite Hplan. rewrite (M_bind_Ok _ _ _ inputs (manif db, w)) by done.
    rewrite (M_bind_Ok _ _ _ _ _ Halloc). change (filepath_Join (Db.dir db) (table_name k)) with out.
    rewrite <- Hin. by rewrite (M_bind_Ok _ _ _ _ _ (try_Ok _ _ _ _ (manif_io_run _ mf1 w1 _ _ Hrun))).
  - split; try done; [|lia]. apply (base_table V' (set_manif mf1 db) w1 w2 ess n os i k B1); try done; cbn [set_manif manif]; lia.
Qed.

(** The manifest names the merged table instead of those merged. *)
Lemma filter_removed fs b :
  NoDup (Manifest.Name <$> fs) -> length b = length fs ->
  filter (fun f => Manifest.Name f ∉ (Manifest.Name <$> mask b fs)) fs = mask (negb <$> b) fs.
Proof.
  intros Hnd Hb. set (rm := Manifest.Name <$> mask b fs). rewrite filter_mask. f_equal.
  rewrite <- (mask_elem _ b Hnd) by (by rewrite length_fmap). rewrite <- !list_fmap_compose.
  apply list_fmap_ext. intros j f _. cbn. rewrite mask_fmap. fold rm. apply bool_decide_not.
Qed.

(** The bounds of a merged table, from those of the tables it replaces. *)
Lemma merged_within ess es : merged false ess es -> es ⊆ concat ess /\ tsize es <= tsize (concat ess).
Proof.
  intros [_ _ (all & Hsub & Hperm)]. split.
  - intros e He. rewrite <- Hperm. by apply (elem_of_sublist _ _ _ Hsub).
  - rewrite <- (tsize_perm _ _ Hperm). by apply tsize_sublist.
Qed.

Lemma merged_bounds V st ess n os b es :
  ledger V st ess n os -> merged false (mask b ess) es -> length b = length ess -> 0 <= Manifest.LogSeq_ st ->
  0 <= max_seq es < 2 ^ 64 /\ max_seq es <= Manifest.LogSeq_ st /\ len es <= tsize (all_entries ess n os).
Proof.
  intros L [Hin Hszes]%merged_within Hb H0. pose proof (mask_concat ess b Hb) as Hsplit.
  assert (forall e, e ∈ es -> e ∈ concat ess) as Hes.
  { intros e He. rewrite Hsplit, elem_of_app. left. by apply Hin. }
  pose proof (lg_entries _ _ _ _ _ L) as Hents. unfold all_entries in *. apply Forall_app in Hents as [Hents _].
  pose proof (lg_old _ _ _ _ _ L) as Hold. rewrite Forall_forall in Hents, Hold.
  rewrite tsize_app, (tsize_perm _ _ Hsplit), tsize_app.
  pose proof (tsize_len es). pose proof (tsize_len (log_entries n os)). pose proof (tsize_len (concat (mask (negb <$> b) ess))).
  split_and!; [apply max_seq_range; rewrite Forall_forall; intros e He; by apply Hents, Hes..| |lia].
  apply max_seq_le; [lia|]. intros e He. by apply Hold, Hes.
Qed.

Lemma replace_run V V' db mf1 w2 ess n os i b es m mn mx sz lv (st := Manifest.state (manif db)) (k := Manifest.NextFile st)
    (fm := Manifest.mkFileMeta (table_name k) lv mn mx (max_seq es) (len es) sz) :
  ledger V st ess n os -> merged false (mask b ess) es -> Forall ascending ess ->
  contents (all_entries ess n os) m -> V + 1 <= V' -> room cap V' -> 0 <= sz < 2 ^ 62 -> 0 <= lv < 2 ^ 63 ->
  directory w2 mf1 ess i -> 0 <= k < 2 ^ 64 -> Manifest.NextFile (Manifest.state mf1) = k + 1 ->
  numbered st -> Manifest.files (Manifest.state mf1) = Manifest.files st ->
  Manifest.LogSeq_ (Manifest.state mf1) = Manifest.LogSeq_ st -> length b = length ess ->
  holds w2 (table_path (Manifest.dir mf1) fm) es ->
  let ess' := mask (negb <$> b) ess ++ [es] in
  exists mf w3, Manifest.Replace (Manifest.Name <$> mask b (Manifest.files st)) [fm] (max_seq es) (mf1, w2) = (Ok tt, (mf, w3)) /\
    steady (manifest_names (Manifest.dir mf1)) w2 w3 /\ directory w3 mf ess' i /\ ledger V' (Manifest.state mf) ess' n os /\
    contents (all_entries ess' n os) m /\ Manifest.dir mf = Manifest.dir mf1 /\
    Manifest.files (Manifest.state mf) = mask (negb <$> b) (Manifest.files st) ++ [fm].
Proof.
  intros L Hmg Hasc Hcon HV Hroom Hsz Hlv D Hk Hnext Hnames Hfs Hls Hb Hh ess'. pose proof Hroom as [HV1 HV2].
  pose proof (dr_sound _ _ _ _ D) as Hs. pose proof (so_seq _ (sn_state _ _ Hs)) as Hlsr. rewrite Hls in Hlsr.
  destruct (merged_bounds V st ess n os b es L Hmg Hb (proj1 Hlsr)) as (Hseq & Hmax & Hlen).
  destruct (merged_within _ _ Hmg) as [Hin Hszes]. destruct Hmg as [Ha Hlk _].
  pose proof (lg_size _ _ _ _ _ L) as Htsz.
  assert (meta_ok fm) as Hmeta by (split; cbn; [apply ascii_table|lia|done|lia|lia]).
  assert (length (Manifest.files st) = length ess) as Hlf by (rewrite <- Hfs; by eapply Forall2_length, (dr_tables _ _ _ _ D)).
  pose proof (dr_nodup _ _ _ _ D) as Hnd. rewrite Hfs in Hnd.
  set (rm := Manifest.Name <$> mask b (Manifest.files st)).
  set (g := fun st => Manifest.bump (max_seq es)
    (Manifest.set_files (filter (fun f => Manifest.Name f ∉ rm) (Manifest.files st) ++ [fm]) st)).
  assert (Hg: g (Manifest.state mf1) = Manifest.set_files (mask (negb <$> b) (Manifest.files st) ++ [fm]) (Manifest.state mf1)).
  { unfold g, Manifest.bump. cbn [Manifest.LogSeq_ Manifest.set_files]. rewrite Hls, (proj2 (Z.ltb_ge _ _)) by lia.
    rewrite Hfs. unfold rm. rewrite filter_removed by congruence. done. }
  destruct (update_reopen g mf1 w2 Hs) as (mf & w3 & Hrun & H2 & Hdir & Hpath & Hs' & Hd' & _ & R).
  { rewrite Hg. apply set_files_ok; [|apply (sn_state _ _ Hs)]. apply Forall_app. split; [|by constructor].
    apply mask_Forall. rewrite <- Hfs. apply so_files, (sn_state _ _ Hs). }
  rewrite Hg in H2.
  assert (Manifest.files (Manifest.state mf) = mask (negb <$> b) (Manifest.files st) ++ [fm]) as Hfiles by (by rewrite H2).
  assert (Manifest.NextFile (Manifest.state mf) = k + 1) as Hnf by (by rewrite H2).
  assert (Manifest.LogSeq_ (Manifest.state mf) = Manifest.LogSeq_ st) as Hlseq by (by rewrite H2).
  destruct (ledger_merge V V' st (Manifest.state mf) ess (mask b ess) (mask (negb <$> b) ess) es n os m L) as [L' Hcon']; try done.
  { by apply mask_concat. }
  { by apply mask_Forall. }
  { intros x. rewrite Hlk. destruct (newest x (mask b ess)) as [e|]; [|done]. cbn. by rewrite andb_false_r. }
  { rewrite Hfiles. apply Forall_app. split; [apply mask_Forall, (lg_seq _ _ _ _ _ L)|by apply Forall_singleton]. }
  { by rewrite H2. }
  exists mf, w3. split_and!; try done; [by eapply renewed_steady|].
  eapply directory_update; [exact D|exact Hs'|done|done|done|..].
  - unfold numbered. rewrite Hfiles, Hnf. apply named_below_app; [by apply mask_Forall|done|lia].
  - rewrite Hfiles. apply (named_below_NoDup k); [by apply mask_Forall|done|done|].
    eapply sublist_NoDup; [exact Hnd|apply fmap_sublist, mask_sublist].
  - lia.
  - rewrite Hfiles. apply Forall2_app; [apply mask_Forall2; rewrite <- Hfs; apply (dr_tables _ _ _ _ D)|]. by constructor.
Qed.

Lemma base_paths V s ess n os i : base V s ess n os i -> NoDup (SSTable.Path <$> tables (fst s)).
Proof.
  intros B. rewrite (ba_paths _ _ _ _ _ _ B). change (table_path (Db.dir (fst s))) with (filepath_Join (Db.dir (fst s)) ∘ Manifest.Name).
  rewrite list_fmap_compose. apply NoDup_fmap_2_strong; [intros x y _ _; apply join_inj|].
  apply (dr_nodup _ _ _ _ (ba_dir _ _ _ _ _ _ B)).
Qed.

(** The state afterwards: [r] is the new table, the others not in [b] are kept. *)
Lemma compact_base V V' db db2 mf1 mf w1 w5 ess n os i b es r fm c L :
  base V (set_manif mf1 db, w1) ess n os i -> length b = length (tables db) ->
  db2 = set_tables (mask (negb <$> b) (tables db) ++ [r]) (set_manif mf (set_tables L (set_manif mf1 db))) ->
  kept w1 w5 (at_ (Db.dir db) RLog) -> kept w1 w5 (at_ (Db.dir db) RLock) ->
  (forall t, t ∈ mask (negb <$> b) (tables db) -> kept w1 w5 (SSTable.Path t)) ->
  (forall g d, (forall t, t ∈ mask b (tables db) -> rf t <> Some g) -> fds w1 !! g = Some d -> fds w5 !! g = Some d) ->
  directory w5 mf (mask (negb <$> b) ess ++ [es]) i -> ledger V' (Manifest.state mf) (mask (negb <$> b) ess ++ [es]) n os ->
  Manifest.dir mf = Manifest.dir mf1 ->
  Manifest.files (Manifest.state mf) = mask (negb <$> b) (Manifest.files (Manifest.state mf1)) ++ [fm] ->
  serving w5 (Wal.f (wal db)) i r es -> SSTable.Path r = table_path (Db.dir db) fm ->
  rf r = Some c -> (length (fds w1) <= c)%nat ->
  base V' (db2, w5) (mask (negb <$> b) ess ++ [es]) n os i.
Proof.
  intros [B1 B2 B3 B4 B5 B6 B7 B8 B9 B10] Hb -> Hlog Hlk Htk Hfd D L' Hdir Hfs Hsv Hrp Hrf Hc.
  cbn [fst snd set_manif manif tables Db.dir wal lock closed] in *. set (nb := negb <$> b) in *.
  destruct (dr_calm _ _ _ _ D) as [Hc5 _].
  assert (Forall2 (fun t es' => t ∈ mask nb (tables db) /\ serving w1 (Wal.f (wal db)) i t es') (mask nb (tables db)) (mask nb ess)) as Hserv.
  { apply Forall2_same_length_lookup_2; [by eapply Forall2_length, mask_Forall2|]. intros j t es' Ht Hes. split; [by eapply list_elem_of_lookup_2|].
    by apply (Forall2_lookup_lr _ _ _ _ _ _ (mask_Forall2 _ _ _ B7 nb) Ht Hes). }
  assert (forall t, t ∈ tables db -> rf t <> Some c) as Hnew.
  { intros t Ht Heq. pose proof (serving_fds _ _ _ _ _ _ _ B7 Ht Heq). lia. }
  split; cbn [fst snd set_tables set_manif manif tables Db.dir wal lock closed]; try done.
  - by rewrite Hdir.
  - destruct B5 as (C1 & C2 & [C3 C3'] & C4). cbn [fst snd] in C1, C2, C3, C3', C4. split_and!; try done. cbn [fst snd].
    split; [|apply (Hlog i _); [rewrite B4; apply (dr_log _ _ _ _ B1)|done]].
    apply Hfd; [|done]. intros t Ht Heq. apply (elem_of_sublist _ _ _ (mask_sublist _ b)) in Ht.
    apply list_elem_of_lookup in Ht as [j Hj]. destruct (Forall2_lookup_l _ _ _ _ _ B7 Hj) as (es' & _ & [_ (g & d0 & F1 & F2 & _) _]).
    by simplify_eq.
  - apply Forall2_app; [|by constructor]. eapply Forall2_impl; [exact Hserv|]. intros t es' [Ht Hs].
    apply (serving_frame w1); [done|by apply Htk| |done]. intros g d Hg. apply Hfd. intros t' Ht'. rewrite <- Hg.
    by eapply (mask_apart rf).
  - rewrite Hfs, !fmap_app, <- !mask_fmap, B8. cbn. by rewrite Hrp.
  - rewrite fmap_app, <- mask_fmap. apply NoDup_app. split_and!; [by eapply sublist_NoDup; [|apply mask_sublist]| |apply NoDup_singleton].
    intros x Hx Hr. cbn in Hr. apply list_elem_of_singleton in Hr as ->. rewrite mask_fmap in Hx.
    apply list_elem_of_fmap in Hx as (t & Ht & Hin'). apply (elem_of_sublist _ _ _ (mask_sublist _ nb)) in Hin'. apply (Hnew t Hin'). congruence.
  - eapply (owns_lock_frame w1); [done| |exact B10]. intros g d0 Hts _ Hg. rewrite Forall_forall in Hts. split.
    + apply Hfd; [|done]. intros t Ht. by apply Hts, (elem_of_sublist _ _ _ (mask_sublist _ b)).
    + apply Forall_app. split; [rewrite Forall_forall; intros t Ht; by apply Hts, (elem_of_sublist _ _ _ (mask_sublist _ nb))|].
      apply Forall_singleton. rewrite Hrf. intros [= <-]. apply lookup_lt_Some in Hg. lia.
Qed.

(** The merged files go: their names are those the manifest gave up, and no
    other file of the directory is touched. *)
Lemma merged_names d fs b k : named_below k fs ->
  filepath_Base <$> mask b (table_path d <$> fs) = Manifest.Name <$> mask b fs.
Proof.
  intros Hn. rewrite mask_fmap, <- list_fmap_compose. apply list_fmap_ext. intros j f Hf%list_elem_of_lookup_2.
  apply (elem_of_sublist _ _ _ (mask_sublist _ b)) in Hf. destruct (named_below_in _ _ _ Hn Hf) as (q & Hq & _). cbn. unfold table_path. by rewrite Hq, Base_table.
Qed.

Lemma merged_path d fs b k p : named_below k fs -> p ∈ mask b (table_path d <$> fs) ->
  exists f j, f ∈ mask b fs /\ p = table_path d f /\ p = at_ d (RTable j) /\ Manifest.Name f = table_name j /\ 0 <= j < k.
Proof.
  intros Hn Hp. rewrite mask_fmap in Hp. apply list_elem_of_fmap in Hp as (f & -> & Hf).
  apply (elem_of_sublist _ _ _ (mask_sublist _ b)) in Hf as Hf'. destruct (named_below_in _ _ _ Hn Hf') as (j & Hj & Hlt). exists f, j. split_and!; try done; try lia. unfold table_path. by rewrite Hj.
Qed.

Lemma drop_merged mf w ess i fs b k fm (d := Manifest.dir mf) :
  directory w mf ess i -> named_below k fs -> 0 <= k < 2 ^ 64 -> NoDup (Manifest.Name <$> fs) -> length b = length fs ->
  Manifest.files (Manifest.state mf) = mask (negb <$> b) fs ++ [fm] -> Manifest.Name fm = table_name k ->
  exists w', remove_files (remove_dups (mask b (table_path d <$> fs))) w = (Ok tt, w') /\ directory w' mf ess i /\
    inodes w' = inodes w /\ fds w' = fds w /\ (forall r, role_ok r -> (forall j, r <> RTable j) -> names w' !! at_ d r = names w !! at_ d r) /\
    forall q, q ∉ mask b (table_path d <$> fs) -> names w' !! q = names w !! q.
Proof.
  intros D Hn Hk Hnd Hb Hfs Hfm.
  destruct (remove_files_run (remove_dups (mask b (table_path d <$> fs))) mf ess i w D) as (w' & Hrun & D' & Hi & Hf & Hnm).
  - intros p Hp. rewrite elem_of_remove_dups in Hp. destruct (merged_path _ _ _ _ _ Hn Hp) as (f & j & Hf & Hp1 & Hp2 & Hj & Hlt).
    split_and!; [rewrite Hp2; apply at_ne; [cbn; lia|done|done]..|]. intros f' Hf'. rewrite Hp1. intros Heq%join_inj.
    rewrite Hfs in Hf'. apply elem_of_app in Hf' as [Hf'|Hf']; [by apply (mask_apart Manifest.Name _ b f f' Hnd Hb Hf Hf')|].
    apply list_elem_of_singleton in Hf' as ->. rewrite Hj, Hfm in Heq. apply table_name_inj in Heq; lia.
  - exists w'. split_and!; try done; [|intros q Hq; apply Hnm; by rewrite elem_of_remove_dups].
    intros r Hr Hnt. apply Hnm. rewrite elem_of_remove_dups. intros Hp.
    destruct (merged_path _ _ _ _ _ Hn Hp) as (f & j & _ & _ & Heq & Hj & Hlt).
    apply (at_inj d r (RTable j)) in Heq; [by eapply Hnt|done|cbn; lia].
Qed.

(** With the merge done: the merged tables are closed, the new one is opened,
    the manifest is replaced. *)
Lemma finish_steps V V' db mf1 w1 ess n os i b es meta m (d := Db.dir db) (fl := Wal.f (wal db)) (nb := negb <$> b)
    (k := Manifest.NextFile (Manifest.state (manif db))) (paths := mask b (SSTable.Path <$> tables db))
    (fm := Manifest.mkFileMeta (table_name k) 1 (Clone (SSTable.MinKey meta)) (Clone (SSTable.MaxKey meta)) (max_seq es) (len es) (mFileSize meta)) :
  ledger V (Manifest.state (manif db)) ess n os -> numbered (Manifest.state (manif db)) ->
  contents (all_entries ess n os) m -> V + 1 <= V' -> room cap V' -> merge_done V' db mf1 w1 ess n os i b es meta ->
  exists ts' w2 r w3 mf w4,
    (close_merged (tables db) paths w1 = (Ok (ts', filepath_Base <$> paths, mask nb (tables db)), w2) /\
     calm w2 /\ names w2 = names w1 /\ inodes w2 = inodes w1 /\ length (fds w2) = length (fds w1) /\
     forall g, (forall t, t ∈ mask b (tables db) -> rf t <> Some g) -> fds w2 !! g = fds w1 !! g) /\
    (SSTable.Open (at_ d (RTable k)) w2 = (Ok r, w3) /\ directory w3 mf1 ess i /\ serving w3 fl i r es /\
     SSTable.Path r = at_ d (RTable k) /\ grows w2 w3 /\ names w3 = names w2 /\ inodes w3 = inodes w2 /\ rf r = Some (length (fds w2))) /\
    (Manifest.Replace (filepath_Base <$> paths) [fm] (max_seq es) (mf1, w3) = (Ok tt, (mf, w4)) /\
     steady (manifest_names d) w3 w4 /\ directory w4 mf (mask nb ess ++ [es]) i /\ ledger V' (Manifest.state mf) (mask nb ess ++ [es]) n os /\
     contents (all_entries (mask nb ess ++ [es]) n os) m /\ Manifest.dir mf = d /\
     Manifest.files (Manifest.state mf) = mask nb (Manifest.files (Manifest.state (manif db))) ++ [fm]) /\
    paths = mask b (table_path d <$> Manifest.files (Manifest.state (manif db))) /\
    length b = length (Manifest.files (Manifest.state (manif db))) /\ NoDup (Manifest.Name <$> Manifest.files (Manifest.state (manif db))).
Proof.
  intros L Hnum Hcon HV Hroom [B Hnf Hk Hfs Hls Hb Hmg Hseq Hent Hsz Hh]. fold k in Hnf, Hk, Hh. fold d in Hh.
  pose proof (base_paths _ _ _ _ _ _ B) as Hnd. pose proof (base_ascending _ _ _ _ _ _ B) as Hasc.
  pose proof B as [B1 B2 B3 B4 B5 B6 B7 B8 B9 B10]. cbn [fst snd set_manif manif tables Db.dir wal lock closed] in *. fold d in B4, B8. fold fl in B7.
  assert (merged_in paths (tables db) = b) as Hmask.
  { etransitivity; [|apply (mask_elem _ b Hnd); by rewrite length_fmap]. unfold merged_in, paths. by rewrite <- list_fmap_compose. }
  destruct (dr_calm _ _ _ _ B1) as [Hc1 Hn1].
  destruct (close_merged_run paths (tables db) w1 Hc1) as (ts' & w2 & Hclose & Hc2 & Hnm2 & Hi2 & Hl2 & Hf2). rewrite Hmask in Hclose, Hf2.
  fold paths in Hclose. fold nb in Hclose. assert (directory w2 mf1 ess i) as D2 by by eapply directory_fds.
  pose proof B5 as (C1 & C2 & C3%has_file_fd & C4). cbn [fst snd] in C1, C2, C3, C4.
  destruct (open_table w2 mf1 ess i fl k es D2) as (r & w3 & Hopen & D3 & Hsv & Hrp & G3 & Hnm3 & Hin3 & Hrf);
    [by rewrite Hl2|done|rewrite <- B4; by eapply holds_ext|]. rewrite <- B4 in Hopen, Hrp.
  assert (length b = length ess) as Hbl by (rewrite Hb; by eapply Forall2_length).
  destruct (replace_run V V' db mf1 w3 ess n os i b es m (Clone (SSTable.MinKey meta)) (Clone (SSTable.MaxKey meta)) (mFileSize meta) 1
    L Hmg Hasc Hcon HV Hroom Hsz ltac:(lia) D3 Hk Hnf Hnum Hfs Hls Hbl) as (mf & w4 & Hrep & G4 & D4 & L4 & Hcon4 & Hdir4 & Hfs4).
  { unfold table_path. rewrite <- B4. eapply holds_ext; [| |exact Hh]; congruence. }
  assert (paths = mask b (table_path d <$> Manifest.files (Manifest.state (manif db)))) as Hpaths by (unfold paths; by rewrite B8, Hfs).
  exists ts', w2, r, w3, mf, w4. split; [done|]. split; [done|]. split; [|split_and!; [done| |rewrite <- Hfs; apply (dr_nodup _ _ _ _ B1)]].
  - rewrite Hpaths, (merged_names d _ b k Hnum). rewrite B4. by split_and!.
  - rewrite <- Hfs, Hbl. symmetry. eapply Forall2_length, (dr_tables _ _ _ _ B1).
Qed.

(** What [Compact] does after a merge. *)
Definition finish (d : string) (ts : list Reader) (res : Result) : MD unit :=
  '(ts', removeNames, kept) ← io (close_merged ts (Compact.Removed res));
  upd (set_tables ts');;
  r ← io (SSTable.Open (Compact.OutputPath res));
  let kept := kept ++ [r] in
  let meta := Compact.rMeta res in
  let add := [Manifest.mkFileMeta (filepath_Base (Compact.OutputPath res)) 1
    (Clone (SSTable.MinKey meta)) (Clone (SSTable.MaxKey meta)) (SSTable.mMaxSeq meta) (SSTable.mEntries meta)
    (SSTable.mFileSize meta)] in
  on_manif (Manifest.Replace removeNames add (SSTable.mMaxSeq meta));;
  io (remove_files (remove_dups (Compact.Removed res)));;
  upd (set_tables kept).

Lemma compact_finish V V' db mf1 w1 ess n os i b es meta cnt dropped m
    (out := at_ (Db.dir db) (RTable (Manifest.NextFile (Manifest.state (manif db)))))
    (res := mkResult out meta (mask b (SSTable.Path <$> tables db)) cnt dropped) :
  ledger V (Manifest.state (manif db)) ess n os -> numbered (Manifest.state (manif db)) ->
  contents (all_entries ess n os) m -> in_mem db (log_entries n os) -> V + 1 <= V' -> room cap V' ->
  merge_done V' db mf1 w1 ess n os i b es meta ->
  exists s', finish (Db.dir db) (tables db) res (set_manif mf1 db, w1) = (Ok tt, s') /\ holds_map V' s' m /\ opts (fst s') = opts db /\
    length (tables (fst s')) = S (length (mask (negb <$> b) (tables db))).
Proof.
  intros L Hnum Hcon Hmem HV Hroom Hd. pose proof Hd as [B Hnf Hk Hfs Hls Hb Hmg Hseq Hent Hsz Hh].
  destruct (finish_steps V V' db mf1 w1 ess n os i b es meta m L Hnum Hcon HV Hroom Hd) as (ts' & w2 & r & w3 & mf & w4 &
    (Hclose & Hc2 & Hnm2 & Hi2 & Hl2 & Hf2) & (Hopen & D3 & Hsv & Hrp & G3 & Hnm3 & Hin3 & Hrf) &
    (Hrep & S4 & D4 & L4 & Hcon4 & Hdir4 & Hfs4) & Hpaths & Hbf & Hndf). clear Hd.
  unfold finish. subst res. cbn [Removed OutputPath rMeta]. set (d := Db.dir db) in *. set (fl := Wal.f (wal db)) in *. set (nb := negb <$> b) in *.
  set (k := Manifest.NextFile (Manifest.state (manif db))) in *. set (db2 := set_tables ts' (set_manif mf1 db)).
  rewrite (M_bind_Ok _ _ _ _ _ (db_io_run _ _ w1 _ _ Hclose)), (M_bind_Ok _ _ _ tt (db2, w2)) by done.
  rewrite (M_bind_Ok _ _ _ _ _ (db_io_run _ db2 w2 _ _ Hopen)). cbv zeta. cbn [on_manif].
  unfold out at 1. change (at_ d (RTable k)) with (filepath_Join d (table_name k)). rewrite Base_table, Hseq, Hent.
  rewrite (M_bind_Ok _ _ _ _ _ (on_manif_run _ db2 w3 _ _ _ Hrep)), Hpaths.
  destruct (drop_merged mf w4 (mask nb ess ++ [es]) i _ b k _ D4 Hnum Hk Hndf Hbf Hfs4 eq_refl) as (w5 & Hremove & D5 & Hi5 & Hf5 & Hnr5 & Hnm5).
  rewrite Hdir4 in Hremove, Hnm5, Hnr5. rewrite (M_bind_Ok _ _ _ _ _ (db_io_run _ (set_manif mf db2) w4 _ _ Hremove)).
  destruct (apart_manifest _ _ _ _ _ _ _ B) as (A1 & A2 & A3). cbn [Db.dir set_manif tables] in A1, A2, A3. fold d in A1, A2, A3.
  assert (Hkept: forall p, p ∉ manifest_names d -> names w5 !! p = names w4 !! p -> kept w1 w5 p).
  { intros p Hp Hnp j c0. rewrite <- Hnm2, <- Hnm3, <- Hi2, <- Hin3, Hi5, Hnp. by apply (kept_steady _ _ _ _ S4 Hp). }
  eexists. split; [done|]. split; [|split; [done|by cbn; rewrite length_app, Nat.add_1_r]]. exists (mask nb ess ++ [es]), n, os, i. split; [|by split].
  eapply (compact_base V' V' db _ mf1 mf w1 w5 ess n os i b es r); [exact B|done|reflexivity|..]; try done.
  - by apply Hkept; [|rewrite Hnr5].
  - by apply Hkept; [|rewrite Hnr5].
  - intros t Ht. apply (elem_of_sublist _ _ _ (mask_sublist _ nb)) in Ht as Ht'. rewrite Forall_forall in A3. apply Hkept; [by apply A3|].
    apply Hnm5. rewrite <- Hpaths, mask_fmap. intros (t' & Heq & Hin)%list_elem_of_fmap.
    by apply (mask_apart SSTable.Path _ b t' t (base_paths _ _ _ _ _ _ B) Hb Hin Ht).
  - intros g d0 Hg Hd0. rewrite Hf5. apply (st_fds _ _ _ S4), G3. by rewrite Hf2.
  - rewrite Hdir4. apply (ba_same _ _ _ _ _ _ B).
  - by rewrite Hfs4, Hfs.
  - destruct (dr_calm _ _ _ _ D4) as [Hc4 _]. destruct (dr_calm _ _ _ _ D5) as [Hc5 _].
    apply (serving_frame w4); [done|..].
    + rewrite Hrp. intros j c Hj Hcj. rewrite Hi5, Hnm5; [done|]. intros Hp.
      destruct (merged_path _ _ _ _ _ Hnum Hp) as (f & q & _ & _ & Hpq & _ & Hlt). apply (at_inj d) in Hpq; [|cbn; lia..]. injection Hpq as Hpq. lia.
    + by rewrite Hf5.
    + eapply serving_steady; [exact S4|done| |done]. rewrite Hrp. by apply table_apart.
  - by rewrite Hrp.
  - by rewrite Hl2.
Qed.

(** With fewer than two tables there is nothing to merge. *)
Lemma CompactDir_few {T} d refs (alloc : M (T * World) string) o s : (length refs < 2)%nat ->
  CompactDir (F := F) d refs alloc o s = (Err ErrNoInputs, s).
Proof.
  intros Hl. unfold CompactDir. cbv zeta. assert (PlanLevel0 refs 2 = []) as ->.
  { unfold PlanLevel0. cbn. rewrite plan_loop_spec. cbn [app].
    case_match eqn:Hlt; [done|]. apply Z.ltb_ge in Hlt. rewrite length_fmap in Hlt.
    pose proof (length_filter (fun f => fLevel f = 0) refs). lia. }
  destruct refs as [|f0 [|f1 rest]]; [done|done|cbn in Hl; lia].
Qed.

(** There are fewer tables if there were two and as many as the threshold. *)
Definition shrinks (db : DB) (s : DB * World) : Prop :=
  if decide (CompactThreshold (opts db) <= len (tables db) /\ 2 <= len (tables db))
  then (1 <= length (tables (fst s)) < length (tables db))%nat else fst s = db.

Lemma Compact_run V V' db w m :
  holds_map V (db, w) m -> ReadOnly (opts db) = false -> V + 1 <= V' -> room cap V' ->
  exists s', Db.Compact (F := F) (db, w) = (Ok tt, s') /\ holds_map V' s' m /\ opts (fst s') = opts db /\ shrinks db s'.
Proof.
  intros Hold Hro HV Hroom. unfold Db.Compact. rewrite writable_run by (done || by eapply holds_map_open in Hold).
  assert (~ (CompactThreshold (opts db) <= len (tables db) /\ 2 <= len (tables db)) ->
    exists s', (Ok tt, (db, w)) = (Ok tt, s') /\ holds_map V' s' m /\ opts (fst s') = opts db /\ shrinks db s') as Hsame.
  { intros Hno. exists (db, w). split_and!; [done| |done|unfold shrinks; by case_decide]. eapply holds_map_mono; [exact Hold|lia|apply Hroom]. }
  rewrite (M_bind_Ok _ _ _ _ _ (get_run tables db w)), (M_bind_Ok _ _ _ _ _ (get_run (fun db => CompactThreshold (opts db)) db w)).
  destruct (Z.ltb_spec (len (tables db)) (CompactThreshold (opts db))); [apply Hsame; lia|].
  rewrite (M_bind_Ok _ _ _ _ _ (get_run Db.dir db w)), (M_bind_Ok _ _ _ _ _ (get_run (fun db => Manifest.Files (manif db)) db w)).
  cbv zeta. set (refs := file_ref _ <$> tables db).
  assert (fPath <$> refs = SSTable.Path <$> tables db) as Hrefs by (unfold refs; rewrite <- list_fmap_compose; done).
  assert (length refs = length (tables db)) as Hlr by apply length_fmap.
  destruct (decide (length (tables db) < 2)%nat) as [Hfew|Hmany].
  { rewrite (M_bind_Ok _ _ _ (inr ErrNoInputs) (db, w)).
    - rewrite bool_decide_true by done. apply Hsame. lia.
    - unfold try_, on_manif, zoom. cbn [fst snd]. rewrite CompactDir_few by lia. by destruct db. }
  destruct Hold as (ess & n & os & i & B & Hmem & Hcon).
  destruct (merge_run V V' db w ess n os i refs B HV Hroom ltac:(lia) Hrefs) as
    (b & es & meta & cnt & dropped & mf1 & w2 & Hrun & Htwo & Hd).
  rewrite (M_bind_Ok _ _ _ _ _ (try_Ok _ _ _ _ (on_manif_run _ db w _ _ _ Hrun))).
  destruct (compact_finish V V' db mf1 w2 ess n os i b es meta cnt dropped m) as (s' & H1 & H2 & H3 & H4); try done.
  { exact (ba_ledger _ _ _ _ _ _ B). }
  { exact (dr_numbered _ _ _ _ (ba_dir _ _ _ _ _ _ B)). }
  exists s'. split_and!; try done. unfold shrinks. rewrite decide_True by lia. rewrite H4.
  pose proof (Permutation_length (mask_perm (tables db) b (md_choice _ _ _ _ _ _ _ _ _ _ _ Hd))) as Hl. rewrite length_app in Hl. lia.
Qed.
End compact.
