(* ===== verification/DbOpen.v ===== *)
(** * DbOpen: closing and opening keep the map

    What a closed database leaves in its directory, also when the process died
    while it appended to the log; opening such a directory, or an empty one,
    and the lock file that decides whether it is opened; and closing. *)

From Stdlib Require Import ZArith Lia Strings.Byte.
From stdpp Require Import base decidable list gmap strings numbers sorting sets.
From S2P Require Import Prelude Bloom ByteUtil Os OsFacts Wal SkipList SSTable SSTableFacts SSTableWriter SSTableSpec Manifest ManifestFacts ManifestProps FileLock Compact CompactFacts CompactMerge CompactProps Db DbSpec DbFiles DbLedger DbState DbFlush DbRefine.
#[local] Open Scope Z_scope.

Lemma scoped_Ok {S T A} (m : M (T * S) A) t s a t' s' : m (t, s) = (Ok a, (t', s')) -> scoped m t s = (Ok (a, t'), s').
Proof. unfold scoped. by intros ->. Qed.

Lemma MaxSeqAmongFiles_le mf b : 0 <= b -> Forall (fun f => Manifest.MaxSeq f <= b) (Manifest.files (Manifest.state mf)) ->
  Manifest.MaxSeqAmongFiles mf <= b.
Proof.
  unfold Manifest.MaxSeqAmongFiles. generalize 0. intros q Hq Hf. revert q Hq. induction Hf as [|f fs Hf _ IH]; intros q Hq; [done|].
  cbn. apply IH. by case_match.
Qed.

(** The log file of any sync policy. *)
Lemma wal_name o : Wal.FileName (Wal.normalize (walOpts o)) = "wal.log"%string.
Proof. by destruct o as [? [] ? ? ?]. Qed.

(** ** What stays *)

(** Calls that leave the directory, the options and the lock of the database alone. *)
Definition same_setup (s s' : DB * World) : Prop :=
  Db.dir (fst s') = Db.dir (fst s) /\ opts (fst s') = opts (fst s) /\ lock (fst s') = lock (fst s).
#[export] Instance same_setup_preorder : PreOrder same_setup.
Proof. unfold same_setup. split; [done|]. intros x y z (H1 & H2 & H3) (H4 & H5 & H6). by rewrite H4, H5, H6. Qed.

Lemma get_setup {A} (g : DB -> A) : steps same_setup (get g).
Proof. by intros s. Qed.
Lemma io_setup {A} (x : M World A) : steps same_setup (io x).
Proof. intros [db w]. unfold io, zoom. cbn. by destruct (x w). Qed.
Lemma manif_setup {A} (x : M (Manifest.Manifest * World) A) : steps same_setup (on_manif x).
Proof. intros [db w]. unfold on_manif, zoom. cbn. by destruct (x (manif db, w)) as [r [mf w']]. Qed.
Lemma wal_setup {A} (x : M (Wal.Log * World) A) : steps same_setup (on_wal x).
Proof. intros [db w]. unfold on_wal, zoom. cbn. by destruct (x (wal db, w)) as [r [mf w']]. Qed.
Lemma upd_setup (g : DB -> DB) : (forall db, Db.dir (g db) = Db.dir db /\ opts (g db) = opts db /\ lock (g db) = lock db) ->
  steps same_setup (upd g).
Proof. intros Hg [db w]. apply Hg. Qed.
#[export] Hint Resolve get_setup io_setup manif_setup wal_setup upd_setup : steps.

(** ** The tables *)

Section open.
Context {TA : TableAccess} {F : Type} `{Float64 F} {J : Manifest.Json} {JO : JsonOk J} {E : FileLock.Env}.
Context (seed : nat -> Z).

Lemma open_tables_run d fl i files : forall ess ts w,
  calm w -> (fl < length (fds w))%nat -> Forall2 (fun f es => holds w (table_path d f) es) files ess ->
  Forall (fun f => names w !! table_path d f <> Some i) files ->
  exists ts' w', open_tables d files ts w = (Ok (ts ++ ts'), w') /\ calm w' /\ grows w w' /\
    names w' = names w /\ inodes w' = inodes w /\ Forall2 (serving w' fl i) ts' ess /\
    SSTable.Path <$> ts' = table_path d <$> files /\ NoDup (rf <$> ts') /\
    Forall (fun t => exists g, rf t = Some g /\ (length (fds w) <= g)%nat) ts'.
Proof.
  induction files as [|f files IH]; intros ess ts w Hc Hfl Hh Hi; inversion Hh as [|? es ? ess' Hf Hh']; subst.
  { exists [], w. rewrite app_nil_r. split_and!; try done; constructor. }
  apply Forall_cons in Hi as [Hfi Hi]. cbn [open_tables].
  destruct (serving_open w fl i (table_path d f) es Hc Hf Hfi Hfl) as (r & w1 & Ho & Hs & Hp & G1 & Hc1 & Hn1 & Hi1 & Hrf).
  assert (length (fds w) < length (fds w1))%nat as Hlt.
  { pose proof Hs as [[_ _ (g & d0 & E1 & E2 & _)] _ _]. rewrite Hrf in E1. injection E1 as <-. by apply lookup_lt_Some in E2. }
  destruct (IH ess' (ts ++ [r]) w1 Hc1) as (ts' & w2 & Hrun & Hc2 & G2 & Hn2 & Hi2 & Hs2 & Hp2 & Hnd & Hge).
  { lia. }
  { eapply Forall2_impl; [exact Hh'|]. intros x y. by apply holds_ext. }
  { by rewrite Hn1. }
  exists (r :: ts'), w2. change (table_path d f) with (filepath_Join d (Manifest.Name f)) in Ho.
  rewrite (M_bind_Ok _ _ _ _ _ (try_Ok _ _ _ _ Ho)). split; [by rewrite Hrun, <- app_assoc|].
  split_and!; [done|by transitivity w1|congruence|congruence|..].
  - constructor; [by eapply serving_grows|done].
  - cbn. by rewrite Hp, Hp2.
  - cbn. constructor; [|done]. intros (t & Heq & Ht)%list_elem_of_fmap. rewrite Forall_forall in Hge.
    destruct (Hge t Ht) as (g & Hg & Hle). rewrite Hrf, Hg in Heq. injection Heq as Heq. lia.
  - constructor; [by exists (length (fds w))|]. eapply Forall_impl; [exact Hge|]. cbn. intros t (g & Hg & Hle). exists g. split; [done|lia].
Qed.

(** ** The log *)

Lemma replay_run recs : forall db W s,
  in_mem db W -> ordered (rec_entry <$> recs) -> (forall e e', e ∈ W -> e' ∈ rec_entry <$> recs -> seq_of e < seq_of e') ->
  Forall (fun e => key_of e <> []) (rec_entry <$> recs) ->
  exists mt, Wal.call_all replay_record recs (mem db, s) = (Ok tt, (mt, s)) /\
    in_mem (set_mem mt db) (W ++ (rec_entry <$> recs)).
Proof.
  induction recs as [|r recs IH]; intros db W s Hm Ho Hlt Hk.
  - exists (mem db). cbn. rewrite app_nil_r. by split.
  - cbn [fmap list_fmap] in *. apply Forall_cons in Hk as [Hkr Hk].
    destruct (writes_split _ _ _ Hlt Ho) as (Hnew & Ho' & Hlt').
    destruct (in_mem_set db W (Wal.Key r) (if Wal.Deleted r then None else Wal.Value r) (Wal.Seq r) (Wal.Deleted r) Hm Hkr) as (s' & Hs & Hin).
    { intros e He. by apply Hnew. }
    set (mt := MemTable.mkMemTable s' (MemTable.maxBytes (mem db))) in *.
    assert (SSTable.mkEntry (Some (bs (Wal.Key r))) (Some (bs (if Wal.Deleted r then None else Wal.Value r))) (Wal.Seq r) (Wal.Deleted r) = rec_entry r) as Hrec
      by (unfold rec_entry; by destruct (Wal.Deleted r)).
    rewrite Hrec in Hin.
    assert (replay_record r (mem db) = (Ok tt, mt)) as Hrun.
    { assert ((if Wal.Deleted r then MemTable.Delete (Wal.Key r) (Wal.Seq r) (mem db)
         else MemTable.Put (Wal.Key r) (Wal.Value r) (Wal.Seq r) (mem db)) = Ok mt) as Hset.
      - transitivity (MemTable.with_sl (mem db) (SkipList.set (Wal.Key r) (if Wal.Deleted r then None else Wal.Value r)
          (Wal.Seq r) (Wal.Deleted r) (MemTable.sl (mem db)))); [by destruct (Wal.Deleted r)|].
        unfold MemTable.with_sl. by rewrite Hs.
      - unfold replay_record. by rewrite Hset. }
    destruct (IH (set_mem mt db) (W ++ [rec_entry r]) s Hin Ho' Hlt' Hk) as (mt' & Hcall & Hin').
    exists mt'. split; [|by rewrite <- app_assoc in Hin'].
    cbn [Wal.call_all]. rewrite (M_bind_Ok _ _ _ tt (mt, s)) by (unfold zoom; cbn [fst]; by rewrite Hrun). exact Hcall.
Qed.

(** The counter after the log has been read and the manifest consulted: an
    empty log starts after the sequence numbers of the tables. *)
Lemma ledger_restart V mf ess n os q :
  ledger V (Manifest.state mf) ess n os -> 0 <= Manifest.LogSeq mf -> q = Wal.last_seq 0 n os ->
  exists n', (if q <? Manifest.LogSeq mf then Manifest.LogSeq mf else q) = n' + Wal.log_count os /\
    ledger V (Manifest.state mf) ess n' os /\ Wal.log_bytes n' os = Wal.log_bytes n os /\ log_entries n' os = log_entries n os.
Proof.
  intros L H0 ->. unfold Manifest.LogSeq in *. set (q := Manifest.LogSeq_ (Manifest.state mf)) in *. destruct os as [|o os].
  - exists q. cbn [Wal.last_seq Wal.log_count]. split_and!; [destruct (Z.ltb_spec 0 q); lia| |done|done].
    destruct L as [L0 L1 L2 L3 [L4 L4'] Lsp L5 L6 L7 L8 L9 L10]. fold q in L4, L4', L3. cbn in L4', L8. split; try done; try (cbn; lia).
    + split; [done|cbn; lia].
    + eapply Forall_impl; [exact L3|]. cbn. intros e He. by left.
  - exists n. split_and!; [|done..]. unfold Wal.last_seq. destruct (lg_log _ _ _ _ _ L) as [_ Hok].
    pose proof (log_count_nonneg _ _ Hok). pose proof (proj2 (lg_seq _ _ _ _ _ L)) as Hq. fold q in Hq.
    by rewrite (proj2 (Z.ltb_ge _ _)) by lia.
Qed.

(** The two phases as calls on the database: the tables of the manifest are
    opened, and the records of the log applied to the empty memtable. *)
Lemma openTables_run db w ess i :
  directory w (manif db) ess i -> Db.dir db = Manifest.dir (manif db) -> tables db = [] -> (Wal.f (wal db) < length (fds w))%nat ->
  exists ts w', openTables (db, w) = (Ok tt, (set_tables ts db, w')) /\ directory w' (manif db) ess i /\ grows w w' /\
    names w' = names w /\ Forall2 (serving w' (Wal.f (wal db)) i) ts ess /\
    SSTable.Path <$> ts = table_path (Db.dir db) <$> Manifest.files (Manifest.state (manif db)) /\ NoDup (rf <$> ts) /\
    Forall (fun t => exists g, rf t = Some g /\ (length (fds w) <= g)%nat) ts.
Proof.
  intros D Hd Ht Hfl. destruct (dr_calm _ _ _ _ D) as [Hc _].
  destruct (open_tables_run (Db.dir db) (Wal.f (wal db)) i (Manifest.files (Manifest.state (manif db))) ess [] w Hc Hfl) as
    (ts & w1 & Htabs & Hc1 & G1 & Hnm1 & Hi1 & Hts & Hpath & Hnd & Hge).
  - rewrite Hd. apply (dr_tables _ _ _ _ D).
  - rewrite Forall_forall. intros f Hf Heq%(dr_own _ _ _ _ D). destruct (dr_table _ _ _ _ _ D Hf) as (k & Hk1 & Hk2 & Hp).
    rewrite Hd, Hp in Heq. apply at_inj in Heq; [done|cbn; lia|done].
  - exists ts, w1. split_and!; try done; [|by eapply directory_fds].
    unfold openTables. rewrite (M_bind_Ok _ _ _ _ _ (get_run Db.dir db w)), (M_bind_Ok _ _ _ _ _ (get_run (fun db => Manifest.Files (manif db)) db w)).
    rewrite Files_files. by rewrite (M_bind_Ok _ _ _ _ _ (db_io_run _ db w _ _ Htabs)).
Qed.

Lemma replayWAL_run V db w st ess n os i :
  ledger V st ess n os -> Wal.log_on (wal db, w) i (Wal.log_bytes n os) -> in_mem db [] ->
  exists mt, replayWAL (db, w) = (Ok tt, (set_mem mt db, w)) /\ in_mem (set_mem mt db) (log_entries n os).
Proof.
  intros L Hon Hmem. destruct (lg_log _ _ _ _ _ L) as [Hn0 Hok].
  pose proof (lg_entries _ _ _ _ _ L) as Hents. unfold all_entries in Hents. apply Forall_app in Hents as [_ Hents].
  destruct (replay_run (Wal.log_records n os) db [] (wal db, w) Hmem) as (mt & Hcall & Hmt).
  { apply (log_seqs_in os n Hok). }
  { by intros e e' ?%not_elem_of_nil. }
  { eapply Forall_impl; [exact Hents|]. by intros e (_ & _ & ?). }
  exists mt. split; [|done]. unfold replayWAL, zoom. cbn [fst snd].
  pose proof (lg_bytes _ _ _ _ _ L). pose proof (lg_limit _ _ _ _ _ L).
  rewrite (Wal.Replay_spec replay_record _ (wal db) w i n os Hon Hok) by lia. by rewrite Hcall.
Qed.

(** The rest of [Open], with the lock taken and the manifest and the log read:
    its steps, and their composition. *)
Lemma open_steps V o lk mf l w ess n os i m (d := Manifest.dir mf) :
  directory w mf ess i -> ledger V (Manifest.state mf) ess n os -> contents (all_entries ess n os) m ->
  Wal.log_on (l, w) i (Wal.log_bytes n os) -> Wal.nextSeq l = Wal.last_seq 0 n os ->
  owns_lock w (Wal.f l) i d [] (Some lk) ->
  let maxSeq := Manifest.MaxSeqAmongFiles mf in
  let maxSeq := if maxSeq <? Manifest.LogSeq mf then Manifest.LogSeq mf else maxSeq in
  exists l1 db1 mt w1, let db := mkDB d o (Some lk) l1 (MemTable.NewMemTable seed (MemtableBytes o)) mf [] false in
    (forall fs, scoped (Wal.SetNextSeq maxSeq) l (set_faults fs w) = (Ok (tt, l1), set_faults fs w)) /\
    openTables (db, w) = (Ok tt, (db1, w1)) /\ replayWAL (db1, w1) = (Ok tt, (set_mem mt db1, w1)) /\
    calm w1 /\ holds_map V (set_mem mt db1, w1) m /\ opts db1 = o /\ Db.dir db1 = d.
Proof.
  intros D L Hcon Hon Hseq Hlk. pose proof (dr_calm _ _ _ _ D) as [Hc Hn].
  assert (0 <= Manifest.LogSeq mf) as H0 by apply (so_seq _ (sn_state _ _ (dr_sound _ _ _ _ D))).
  assert ((if Manifest.MaxSeqAmongFiles mf <? Manifest.LogSeq mf then Manifest.LogSeq mf else Manifest.MaxSeqAmongFiles mf) = Manifest.LogSeq mf) as Hmax.
  { pose proof (MaxSeqAmongFiles_le mf _ H0 (proj1 (lg_seq _ _ _ _ _ L))). case_match eqn:Hlt; [done|]. apply Z.ltb_ge in Hlt. lia. }
  cbv zeta. rewrite Hmax.
  destruct (ledger_restart V mf ess n os (Wal.nextSeq l) L H0 Hseq) as (n' & Hn' & L' & Hb & He).
  set (l1 := if Wal.nextSeq l <? Manifest.LogSeq mf then Wal.set_nextSeq (Manifest.LogSeq mf) l else l). exists l1.
  assert (Wal.nextSeq l1 = n' + Wal.log_count os) as Hseq1 by (rewrite <- Hn'; unfold l1; by case_match).
  assert (Wal.f l1 = Wal.f l) as Hf1 by (unfold l1; by case_match).
  assert (Wal.log_on (l1, w) i (Wal.log_bytes n' os)) as Hon1.
  { rewrite Hb. unfold l1. case_match; [|done]. destruct Hon as (? & ? & ? & ?). by split_and!. }
  set (db0 := mkDB _ _ _ _ _ _ _ _).
  assert (Wal.f l1 < length (fds w))%nat as Hfl by (destruct Hon1 as (_ & _ & Hf & _); by apply has_file_fd in Hf).
  destruct (openTables_run db0 w ess i D eq_refl eq_refl Hfl) as (ts & w1 & Hopen & D1 & G1 & Hnm1 & Hts & Hpath & Hnd & Hge).
  set (db1 := set_tables ts db0) in *. destruct (dr_calm _ _ _ _ D1) as [Hc1 _].
  assert (Wal.log_on (l1, w1) i (Wal.log_bytes n' os)) as Hon2.
  { destruct Hon1 as (_ & ? & ? & ?). split_and!; try done. by eapply grows_has_file. }
  destruct (replayWAL_run V db1 w1 _ ess n' os i L' Hon2) as (mt & Hreplay & Hmem).
  { exists []. split; [apply SkipList.repr_New|apply mem_holds_nil]. }
  exists db1, mt, w1. split_and!; try done.
  exists ess, n', os, i. split; [|split; [exact Hmem|]].
  2: { unfold all_entries in *. by rewrite He. }
  split; cbn [fst snd manif closed Db.dir wal tables lock set_mem db1 set_tables db0]; try done.
  eapply (owns_lock_grows w); [done|by rewrite Hnm1|]. rewrite Hf1.
  destruct Hlk as (lk' & g & j & c & H1 & H2 & H3 & H4 & H5 & H6 & H7 & H8 & H9).
  exists lk', g, j, c. split_and!; try done. eapply Forall_impl; [exact Hge|]. cbn. intros t (g' & Hg' & Hle) Heq.
  rewrite Hg' in Heq. injection Heq as ->. apply has_file_fd in H5. lia.
Qed.

(** The rest of [Open] as a program. *)
Definition open_rest (o : Db.Options) (lk : FileLock.Lock) (mf : Manifest.Manifest) (l : Wal.Log) : M World DB :=
  let maxSeq := Manifest.MaxSeqAmongFiles mf in
  let maxSeq := if maxSeq <? Manifest.LogSeq mf then Manifest.LogSeq mf else maxSeq in
  '(_, l) ← scoped (Wal.SetNextSeq maxSeq) l;
  let db := mkDB (Manifest.dir mf) o (Some lk) l (MemTable.NewMemTable seed (MemtableBytes o)) mf [] false in
  '(_, db) ← scoped (
    r ← try_ openTables;
    match r with
    | inr e => _ ← try_ (on_wal Wal.Close); _ ← try_ (on_lock FileLock.Release); throw e
    | inl _ =>
        r ← try_ replayWAL;
        match r with
        | inr e => _ ← try_ (closeUnlocked (F := F)); throw e
        | inl _ => mret tt
        end
    end) db;
  mret db.

Lemma open_finish V o lk mf l w ess n os i m :
  directory w mf ess i -> ledger V (Manifest.state mf) ess n os -> contents (all_entries ess n os) m ->
  Wal.log_on (l, w) i (Wal.log_bytes n os) -> Wal.nextSeq l = Wal.last_seq 0 n os ->
  owns_lock w (Wal.f l) i (Manifest.dir mf) [] (Some lk) ->
  exists db w', open_rest o lk mf l w = (Ok db, w') /\ holds_map V (db, w') m /\ opts db = o /\ Db.dir db = Manifest.dir mf.
Proof.
  intros D L Hcon Hon Hseq Hlk. destruct (open_steps V o lk mf l w ess n os i m D L Hcon Hon Hseq Hlk) as (l1 & db1 & mt & w1 & H1 & H2 & H3 & _ & H4 & H5 & H6).
  cbv zeta in *. exists (set_mem mt db1), w1. split; [|done]. unfold open_rest. cbv zeta.
  specialize (H1 (faults w)). replace (set_faults (faults w) w) with w in H1 by by destruct w.
  rewrite (M_bind_Ok _ _ _ _ _ H1). cbv beta iota. rewrite (M_bind_Ok _ _ _ (tt, set_mem mt db1) w1); [done|]. apply scoped_Ok.
  rewrite (M_bind_Ok _ _ _ _ _ (try_Ok _ _ _ _ H2)). by rewrite (M_bind_Ok _ _ _ _ _ (try_Ok _ _ _ _ H3)).
Qed.

(** ** A closed database

    The directory [d], with the lock file of a dead process or without one, the
    log with what a crash may have left of an append. *)
Record at_rest (V : Z) (w : World) (d : string) (m : kvmap) (mf : Manifest.Manifest) (ess : list (list entry)) (n : Z)
    (os : list Wal.op) (i : nat) (junk : list byte) : Prop := {
  ar_dir : directory w mf ess i;
  ar_same : Manifest.dir mf = d;
  ar_ledger : ledger V (Manifest.state mf) ess n os;
  ar_log : inodes w !! i = Some (Wal.log_bytes n os ++ junk);
  ar_torn : Wal.torn junk;
  ar_short : len (Wal.log_bytes n os ++ junk) < 2 ^ 61;
  ar_contents : contents (all_entries ess n os) m
}.
Definition stored (V : Z) (w : World) (d : string) (m : kvmap) : Prop :=
  exists mf ess n os i junk, at_rest V w d m mf ess n os i junk.

(** The lock file of [d] is not there, or old enough to be taken over; or it is
    there and young; and the directory once somebody has removed it. *)
Definition vacant (d : string) (w : World) : Prop :=
  names w !! at_ d RLock = None \/ FileLock.defaultStaleAge <= FileLock.since w (at_ d RLock).
Definition blocked (d : string) (w : World) : Prop :=
  is_Some (names w !! at_ d RLock) /\ FileLock.since w (at_ d RLock) < FileLock.defaultStaleAge.
Definition unlock (d : string) (w : World) : World := set_names (delete (at_ d RLock) (names w)) w.

Lemma unlock_vacant d w : vacant d (unlock d w).
Proof. left. apply lookup_delete_eq. Qed.

Lemma stored_calm V w d m : stored V w d m -> calm w.
Proof. intros (mf & ess & n & os & i & junk & A). apply (dr_calm _ _ _ _ (ar_dir _ _ _ _ _ _ _ _ _ _ A)). Qed.

(** The lock file is no part of what the directory holds. *)
Lemma stored_unlock V w d m : stored V w d m -> stored V (unlock d w) d m.
Proof.
  intros (mf & ess & n & os & i & junk & [D <- L Hlog Ht Hl Hcon]). exists mf, ess, n, os, i, junk. split; try done.
  destruct (dr_calm _ _ _ _ D) as [Hc _]. eapply directory_remove; [exact D|done|done|done|by apply at_ne..|].
  intros f Hf. destruct (dr_table _ _ _ _ _ D Hf) as (k & Hk1 & Hk2 & ->). apply at_ne; [done|cbn; lia|done].
Qed.

(** A young lock file: the directory is not opened, and nothing changes. *)
Lemma Open_blocked w d o : calm w -> d <> ""%string -> blocked d w -> Db.Open (F := F) seed d o w = (Err FileLock.ErrLocked, w).
Proof.
  intros Hc Hd [[j Hj] Hage]. unfold Db.Open. cbv zeta. rewrite (proj2 (String.eqb_neq _ _)) by done.
  rewrite (M_bind_Ok _ _ _ tt w) by (unfold MkdirAll; by rewrite syscall_calm).
  rewrite (M_bind_Err _ _ _ FileLock.ErrLocked w); [done|]. eapply Acquire_refused; [done..|].
  by apply (tryOnce_locked _ (FileLock.mkLock d (lock_path d None) None false FileLock.getpid FileLock.Hostname) w j).
Qed.

(** Taking the lock of a directory. *)
Lemma lock_run w d : calm w -> names_ok w -> d <> ""%string -> vacant d w ->
  exists lk w1, FileLock.Acquire 1 d None w = (Ok lk, w1) /\ calm w1 /\ names_ok w1 /\ grows w w1 /\
    names w1 = <[at_ d RLock := length (inodes w)]> (names w) /\
    FileLock.held lk = true /\ FileLock.f lk = Some (length (fds w)) /\ FileLock.path lk = at_ d RLock /\
    exists c, has_file w1 (length (fds w)) (length (inodes w)) (len c) c.
Proof.
  intros Hc Hn Hd Hv. set (l0 := FileLock.mkLock d (lock_path d None) None false getpid Hostname).
  assert (exists w' fd, tryOnce (FileLock.normalize None) (l0, w) = (Ok tt, (FileLock.set_file (Some fd) true l0, w')) /\ calm w' /\
    fd = length (fds w) /\ names w' = <[at_ d RLock := length (inodes w)]> (names w) /\ grows w w' /\
    length (inodes w') = S (length (inodes w)) /\ exists c, has_file w' fd (length (inodes w)) (len c) c)
    as (w1 & fd & Hrun & Hc1 & -> & Hn1 & G & Hl & c & Hf).
  { destruct (names w !! at_ d RLock) as [j|] eqn:Hj; [|by apply tryOnce_free].
    apply (tryOnce_stale _ l0 w j); try done. by destruct Hv as [Hv|Hv]; [congruence|]. }
  eexists _, w1. split; [by eapply Acquire_once|]. split_and!; try done; [|by exists c].
  unfold names_ok. rewrite Hn1, Hl. apply map_Forall_insert_2; [lia|]. eapply map_Forall_impl; [exact Hn|]. cbn. intros; lia.
Qed.

(** The lock stays while other files change. *)
Lemma own_lock w w1 i d lk c fl g j :
  has_file w g j (len c) c -> preserves i w w1 -> j <> i -> names w1 !! at_ d RLock = Some j -> g <> fl ->
  FileLock.held lk = true -> FileLock.f lk = Some g -> FileLock.path lk = at_ d RLock ->
  owns_lock w1 fl i d [] (Some lk).
Proof.
  intros [Hf1 Hf2] [P1 P2] Hj Hl Hg H1 H2 H3. exists lk, g, j, c. split_and!; try done. split; [by apply P2|by apply P1].
Qed.

(** Opening the manifest, and the log with a torn tail. *)
Lemma open_manifest V w mf ess n os i :
  directory w mf ess i -> ledger V (Manifest.state mf) ess n os -> Manifest.Open (Manifest.dir mf) w = (Ok mf, w).
Proof.
  intros D L. destruct (dr_calm _ _ _ _ D) as [Hc _].
  rewrite (Open_on_disk (Manifest.dir mf) mf w Hc); [by destruct mf|apply (dr_path _ _ _ _ D)|apply (dr_disk _ _ _ _ D)|
    apply (sn_state _ _ (dr_sound _ _ _ _ D))|apply (lg_version _ _ _ _ _ L)].
Qed.

Lemma open_log V o w mf ess n os i junk lk g j c :
  directory w mf ess i -> ledger V (Manifest.state mf) ess n os -> inodes w !! i = Some (Wal.log_bytes n os ++ junk) ->
  Wal.torn junk -> len (Wal.log_bytes n os ++ junk) < 2 ^ 61 ->
  has_file w g j (len c) c -> j <> i -> names w !! at_ (Manifest.dir mf) RLock = Some j ->
  FileLock.held lk = true -> FileLock.f lk = Some g -> FileLock.path lk = at_ (Manifest.dir mf) RLock ->
  exists l w', Wal.Open (Manifest.dir mf) (walOpts (Db.normalize o)) w = (Ok l, w') /\ directory w' mf ess i /\
    Wal.log_on (l, w') i (Wal.log_bytes n os) /\ Wal.nextSeq l = Wal.last_seq 0 n os /\
    owns_lock w' (Wal.f l) i (Manifest.dir mf) [] (Some lk).
Proof.
  intros D L Hlog Htorn Hlen Hfile Hj Hlk H1 H2 H3. destruct (dr_calm _ _ _ _ D) as [Hc _]. destruct (lg_log _ _ _ _ _ L) as [Hn0 Hok].
  destruct (Wal.Open_spec w (Manifest.dir mf) (walOpts (Db.normalize o)) i n os junk Hc) as (l & w2 & Hwal & Hon & Hseq & Hfl & Hnm2 & Hl2 & Hpr); try done.
  { rewrite wal_name. apply (dr_log _ _ _ _ D). }
  exists l, w2. split_and!; try done.
  - eapply directory_other; [exact D|apply Hon|done|done|]. intros k c0 Hk. by apply Hpr.
  - eapply (own_lock w); [exact Hfile|exact Hpr|done|by rewrite Hnm2|apply has_file_fd in Hfile; lia|done..].
Qed.

(** [Open] of a directory that holds a database. *)
Lemma Open_run V w d o m : stored V w d m -> vacant d w -> d <> ""%string ->
  exists db w', Db.Open (F := F) seed d o w = (Ok db, w') /\ holds_map V (db, w') m /\ opts db = Db.normalize o /\ Db.dir db = d.
Proof.
  intros (mf & ess & n & os & i & junk & [D <- L Hlog Htorn Hlen Hcon]) Hnl Hd.
  pose proof (dr_calm _ _ _ _ D) as [Hc Hn]. unfold Db.Open. cbv zeta. rewrite (proj2 (String.eqb_neq _ _)) by done.
  rewrite (M_bind_Ok _ _ _ tt w) by (unfold MkdirAll; by rewrite syscall_calm).
  destruct (lock_run w _ Hc Hn Hd Hnl) as (lk & w1 & Hacq & Hc1 & Hn1 & G1 & Hnm1 & Hh & Hf & Hp & c & Hfile).
  rewrite (M_bind_Ok _ _ _ _ _ Hacq).
  assert (directory w1 mf ess i) as D1 by by eapply (directory_new w w1 mf ess i RLock D Hc1 Hn1 G1); auto.
  rewrite (M_bind_Ok _ _ _ _ _ (try_Ok _ _ _ _ (open_manifest V w1 mf ess n os i D1 L))).
  destruct (open_log V o w1 mf ess n os i junk lk _ _ c D1 L ltac:(by apply G1) Htorn Hlen Hfile) as (l & w2 & Hwal & D2 & Hon & Hseq & Hown); try done.
  { intros Heq. by apply (own_fresh _ _ _ _ D). }
  { by rewrite Hnm1, lookup_insert_eq. }
  rewrite (M_bind_Ok _ _ _ _ _ (try_Ok _ _ _ _ Hwal)). by apply (open_finish V (Db.normalize o) lk mf l w2 ess n os i m).
Qed.

(** An empty directory. *)
Definition empty_dir (w : World) (d : string) : Prop := forall r, role_ok r -> names w !! at_ d r = None.

(** A manifest made for it. *)
Lemma fresh_manifest w d : calm w -> names_ok w -> names w !! at_ d RManifest = None -> names w !! at_ d RTmp = None ->
  exists mf w', Manifest.Open d w = (Ok mf, w') /\ sound mf w' /\ on_disk w' mf /\ renewed (at_ d RManifest) w w' /\
    Manifest.dir mf = d /\ Manifest.files (Manifest.state mf) = [] /\ Manifest.NextFile (Manifest.state mf) = 1 /\
    Manifest.LogSeq_ (Manifest.state mf) = 0 /\ Manifest.Version (Manifest.state mf) <> 0.
Proof.
  intros Hc Hn Hm Ht. set (m0 := Manifest.mkManifest d (at_ d RManifest) (Manifest.mkState versionJSON 1 0 [] (Manifest.now w))).
  rewrite <- at_tmp in Ht. destruct (persist_run m0 w Hc Hn (unshared_none _ _ Ht)) as (w1 & Hp & Hc1 & Hn1 & R & Hdisk). cbv zeta in Hp, Hdisk.
  cbn [path m0] in R. set (mf := Manifest.mkManifest _ _ _) in *. exists mf, w1. split_and!; try done.
  - unfold Manifest.Open. rewrite (M_bind_Ok _ _ _ tt w) by (unfold MkdirAll; by rewrite syscall_calm). cbv zeta.
    change (filepath_Join d Manifest.fileName) with (at_ d RManifest).
    rewrite (M_bind_Ok _ _ _ (inr (os_error ErrNotExist)) w) by (unfold try_, ReadFile; by rewrite syscall_calm, Hm).
    change (IsNotExist (os_error ErrNotExist)) with true. cbv iota.
    rewrite (M_bind_Ok _ _ _ (Manifest.now w) w) by done. by rewrite (M_bind_Ok _ _ _ _ _ (scoped_Ok _ _ _ _ _ _ Hp)).
  - split; [split; [done|done|]|done|].
    + apply unshared_none, (rn_tmp _ _ _ R).
    + split; cbn; try (unfold versionJSON; lia); [constructor|apply now_ascii].
Qed.

(** The directory once the log has been created in it. *)
Lemma directory_first w w' mf (d := Manifest.dir mf) (i := length (inodes w)) :
  sound mf w -> on_disk w mf -> Manifest.files (Manifest.state mf) = [] -> calm w' -> preserves i w w' ->
  length (inodes w') = S i -> names w' = <[at_ d RLog := i]> (names w) ->
  (forall k, 0 <= k < 2 ^ 64 -> names w !! at_ d (RTable k) = None) -> directory w' mf [] i.
Proof.
  intros Hs (j & Hj & Hcj) Hfs Hc Hpr Hl Hn Hfree. pose proof Hs as [[_ Hok Htmp] Hpath Hst]. fold d in Hpath.
  assert (Hrole: forall r, role_ok r -> r <> RLog -> names w' !! at_ d r = names w !! at_ d r).
  { intros r Hr Hne. rewrite Hn. apply lookup_insert_ne. by apply at_ne. }
  split; try done.
  - split; [|done|done]. split; [done| |].
    + unfold names_ok. rewrite Hn, Hl. apply map_Forall_insert_2; [lia|]. eapply map_Forall_impl; [exact Hok|]. cbn. intros; lia.
    + rewrite Hpath in Htmp |- *. rewrite at_tmp in Htmp |- *. intros t q. rewrite Hrole, Hn by done.
      intros Ht [[<- <-]|[_ Hq]]%lookup_insert_Some; [|by apply (Htmp t)]. apply Hok in Ht. cbn in Ht. lia.
  - exists j. rewrite Hpath in Hj |- *. change (filepath_Join d Manifest.fileName) with (at_ d RManifest). rewrite Hrole by done. split; [done|]. apply Hpr; [|done]. apply lookup_lt_Some in Hcj. lia.
  - unfold numbered. rewrite Hfs. constructor.
  - rewrite Hfs. constructor.
  - rewrite Hfs. constructor.
  - intros k Hk. pose proof (so_next _ Hst). fold d. rewrite Hrole by first [done|cbn; lia]. apply Hfree. lia.
  - fold d. by rewrite Hn, lookup_insert_eq.
  - intros p Hp. destruct (decide (p = at_ d RLog)) as [|Hne]; [done|]. rewrite Hn, lookup_insert_ne in Hp by done.
    apply Hok in Hp. lia.
Qed.

(** [Open] of an empty directory. *)
Lemma Open_empty V w d o : calm w -> names_ok w -> empty_dir w d -> d <> ""%string -> 0 <= V < 2 ^ 40 ->
  exists db w', Db.Open (F := F) seed d o w = (Ok db, w') /\ holds_map V (db, w') ∅ /\ opts db = Db.normalize o /\ Db.dir db = d.
Proof.
  intros Hc Hn He Hd HV. unfold Db.Open. cbv zeta. rewrite (proj2 (String.eqb_neq _ _)) by done.
  rewrite (M_bind_Ok _ _ _ tt w) by (unfold MkdirAll; by rewrite syscall_calm).
  destruct (lock_run w d Hc Hn Hd) as (lk & w1 & Hacq & Hc1 & Hn1 & G1 & Hnm1 & Hh & Hf & Hp & c & Hfile); [by left; apply He|].
  rewrite (M_bind_Ok _ _ _ _ _ Hacq).
  assert (Hfree1: forall r, role_ok r -> r <> RLock -> names w1 !! at_ d r = None).
  { intros r Hr Hne. rewrite Hnm1, lookup_insert_ne; [by apply He|]. by apply at_ne. }
  destruct (fresh_manifest w1 d Hc1 Hn1) as (mf & w2 & Hmf & Hs & Hdisk & R & Hdir & Hfs & Hnf & Hls & Hver); [by apply Hfree1..|].
  rewrite (M_bind_Ok _ _ _ _ _ (try_Ok _ _ _ _ Hmf)).
  destruct R as [S Hno _]. change (at_ d RManifest) with (filepath_Join d Manifest.fileName) in S, Hno. rewrite at_tmp in S, Hno.
  change (filepath_Join d Manifest.fileName) with (at_ d RManifest) in S.
  assert (Hfree2: forall r, role_ok r -> r <> RLock -> r <> RManifest -> names w2 !! at_ d r = None).
  { intros r Hr Hne1 Hne2. destruct (decide (at_ d r = at_ d RTmp)) as [->|Hne3]; [done|]. rewrite (st_names _ _ _ S); [by apply Hfree1|].
    rewrite !not_elem_of_cons. split_and!; [by apply at_ne|done|apply not_elem_of_nil]. }
  assert (Hlk: at_ d RLock ∉ [at_ d RManifest; at_ d RTmp]) by (apply (at_not_in d RLock [RManifest; RTmp]); [done|by repeat constructor|set_solver]).
  assert (names w1 !! at_ d RLock = Some (length (inodes w))) as Hlk1 by by rewrite Hnm1, lookup_insert_eq.
  pose proof (sn_dir _ _ Hs) as [Hc2 Hn2 Htmp2].
  destruct (Wal.Open_fresh w2 d (walOpts (Db.normalize o)) Hc2) as (l & w3 & Hwal & Hon & Hseq & Hfl & Hnm3 & Hi3 & Hpr);
    [rewrite wal_name; by apply (Hfree2 RLog)|]. rewrite wal_name in Hnm3. change (filepath_Join d "wal.log") with (at_ d RLog) in Hnm3.
  rewrite (M_bind_Ok _ _ _ _ _ (try_Ok _ _ _ _ Hwal)). set (i := length (inodes w2)) in *.
  assert (directory w3 mf [] i) as D3.
  { apply (directory_first w2 w3 mf); rewrite ?Hdir; try done; [apply Hon|by rewrite Hi3, length_app, Nat.add_1_r|].
    intros k Hk. by apply Hfree2. }
  assert (ledger V (Manifest.state mf) [] 0 []) as L3.
  { split; rewrite ?Hfs, ?Hls, ?Hnf; try done; try lia; cbn; try lia; first [split; (constructor || lia)|by intros ? ? ?%not_elem_of_nil]. }
  assert (owns_lock w3 (Wal.f l) i (Manifest.dir mf) [] (Some lk)) as Hown.
  { rewrite Hdir. assert (has_file w2 (length (fds w)) (length (inodes w)) (len c) c) as Hfile2.
    { destruct Hfile as [Hf1 Hf2]. split; [by apply (st_fds _ _ _ S)|by apply (st_files _ _ _ S (at_ d RLock))]. }
    apply (own_lock w2 w3 i d lk c (Wal.f l) (length (fds w)) (length (inodes w)) Hfile2 Hpr); try done.
    - destruct Hfile2 as [_ Hino%lookup_lt_Some]. unfold i. lia.
    - by rewrite Hnm3, lookup_insert_ne, (st_names _ _ _ S) by (done || by apply at_ne).
    - rewrite Hfl. apply has_file_fd in Hfile2. lia. }
  rewrite <- Hdir. by apply (open_finish V (Db.normalize o) lk mf l w3 [] 0 [] i ∅ D3 L3 contents_nil).
Qed.

(** ** Closing *)

(** The calls of a flush do not look whether the database is closed. *)
Definition set_open (c : bool) (s : DB * World) : DB * World := (set_closed c (fst s), snd s).
Definition blind {A} (x : MD A) : Prop :=
  forall c s, x (set_open c s) = match x s with (r, s') => (r, set_open c s') end.

Lemma blind_bind {A B} (x : MD A) (k : A -> MD B) : blind x -> (forall a, blind (k a)) -> blind (x ≫= k).
Proof.
  intros Hx Hk c s. unfold mbind, M_bind. rewrite Hx. destruct (x s) as [[a|e|p|] s']; [|done..]. apply Hk.
Qed.
Lemma blind_try {A} (x : MD A) : blind x -> blind (try_ x).
Proof. intros Hx c s. unfold try_. rewrite Hx. by destruct (x s) as [[a|e|p|] s']. Qed.
Lemma blind_get {A} (g : DB -> A) : (forall c db, g (set_closed c db) = g db) -> blind (get g).
Proof. intros Hg c s. unfold get, gets. cbn. by rewrite Hg. Qed.
Lemma blind_upd (g : DB -> DB) : (forall c db, g (set_closed c db) = set_closed c (g db)) -> blind (upd g).
Proof. intros Hg c s. unfold upd, modify, set_open. cbn. by rewrite Hg. Qed.
Lemma blind_io {A} (x : M World A) : blind (io x).
Proof. intros c [db w]. unfold io, zoom, set_open. cbn. by destruct (x w) as [r w']. Qed.
Lemma blind_manif {A} (x : M (Manifest.Manifest * World) A) : blind (on_manif x).
Proof. intros c [db w]. unfold on_manif, zoom, set_open. cbn. by destruct (x (manif db, w)) as [r [mf w']]. Qed.
Lemma blind_wal {A} (x : M (Wal.Log * World) A) : blind (on_wal x).
Proof. intros c [db w]. unfold on_wal, zoom, set_open. cbn. by destruct (x (wal db, w)) as [r [mf w']]. Qed.
Lemma blind_lift {A} (o : outcome A) : blind (lift o).
Proof. by intros c s. Qed.
Lemma blind_throw {A} e : blind (throw e : MD A).
Proof. by intros c s. Qed.
Lemma blind_ret {A} (a : A) : blind (mret a).
Proof. by intros c s. Qed.

Create HintDb blind.
#[local] Hint Resolve blind_try blind_get blind_upd blind_io blind_manif blind_wal blind_lift blind_throw blind_ret : blind.

Lemma flush_blind : blind (flushLocked (F := F)).
Proof.
  unfold flushLocked.
  repeat first [progress cbv zeta | solve [eauto with blind] | apply blind_bind; [|intros ?] | case_match].
Qed.

Lemma flush_setup : steps same_setup (flushLocked (F := F)).
Proof. unfold flushLocked. steps_tac. Qed.

Lemma File_Close_open w g d : calm w -> fds w !! g = Some d -> is_open d = true ->
  File_Close g w = (Ok tt, set_fds (<[g := Os.mkFd (Os.ino d) (Os.pos d) false]> (fds w)) w).
Proof.
  intros Hc Hd Ho. unfold File_Close. rewrite (M_bind_Ok _ _ _ d w) by (unfold open_fd; by rewrite Hd, Ho).
  rewrite (M_bind_Ok _ _ _ tt (set_fds (<[g := Os.mkFd (Os.ino d) (Os.pos d) false]> (fds w)) w)) by done. by rewrite syscall_calm.
Qed.

(** The tables are closed. *)
Lemma close_tables_run ts : forall first w, calm w -> NoDup (rf <$> ts) ->
  Forall (fun t => exists g d, rf t = Some g /\ fds w !! g = Some d /\ is_open d = true) ts ->
  exists ts' w', close_tables ts first w = (Ok (ts', first), w') /\ calm w' /\ names w' = names w /\ inodes w' = inodes w /\
    forall g, Forall (fun t => rf t <> Some g) ts -> fds w' !! g = fds w !! g.
Proof.
  induction ts as [|t ts IH]; intros first w Hc Hnd Hop; [by exists [], w|].
  apply Forall_cons in Hop as [(g & d & Hg & Hd & Ho) Hop]. cbn [fmap list_fmap] in Hnd. apply NoDup_cons in Hnd as [Hnin Hnd].
  cbn [close_tables]. unfold SSTable.Close. cbn [fst snd]. rewrite Hg, (File_Close_open w g d) by done. set (w1 := set_fds _ w).
  set (t' := SSTable.mkReader _ _ _ _ _ _ _ _ _).
  destruct (IH first w1) as (ts' & w2 & Hrun & Hc2 & Hn2 & Hi2 & Hf2); [done|done| |].
  - rewrite Forall_forall in Hop |- *. intros x Hx. destruct (Hop x Hx) as (g' & d' & H1 & H2 & H3). exists g', d'.
    split_and!; [done| |done]. cbn. rewrite list_lookup_insert_ne; [done|]. intros ->. apply Hnin.
    rewrite Hg, <- H1. by apply list_elem_of_fmap_2.
  - exists (t' :: ts'), w2. rewrite (M_bind_Ok _ _ _ (inl tt) w1) by done.
    assert (first_err first (inl tt : () + error) = first) as -> by by destruct first.
    rewrite (M_bind_Ok _ _ _ _ _ Hrun). split_and!; try done. intros g' Hg'. apply Forall_cons in Hg' as [Hne Hg'].
    rewrite Hf2 by done. cbn. apply list_lookup_insert_ne. congruence.
Qed.

(** The flush of [Close]. *)
Lemma close_flush cap V V' db w m (b : bool) : blooms_fit (F := F) cap -> holds_map V (db, w) m -> V + 1 <= V' -> room cap V' ->
  exists s', (if b then r ← try_ (flushLocked (F := F)); mret (first_err None r) else mret None)
    (set_closed true db, w) = (Ok None, set_open true s') /\ holds_map V' s' m /\ Db.dir (fst s') = Db.dir db.
Proof.
  intros Hcap Hm HV Hroom. destruct b.
  - destruct (flush_run cap Hcap V V' db w m Hm HV Hroom) as (s' & Hrun & Hs' & _). exists s'.
    pose proof (flush_blind true (db, w)) as Hb. unfold set_open in Hb at 1. cbn [fst snd] in Hb. rewrite Hrun in Hb.
    rewrite (M_bind_Ok _ _ _ _ _ (try_Ok _ _ _ _ Hb)). split_and!; [done|done|].
    pose proof (flush_setup (db, w)) as [Hd _]. by rewrite Hrun in Hd.
  - exists (db, w). split_and!; [done| |done]. eapply holds_map_mono; [exact Hm|lia|apply Hroom].
Qed.

Lemma Close_run cap V V' db w m : blooms_fit (F := F) cap -> holds_map V (db, w) m -> V + 1 <= V' -> room cap V' ->
  exists db' w', Db.Close (F := F) (db, w) = (Ok tt, (db', w')) /\ stored V' w' (Db.dir db) m /\ Db.dir db' = Db.dir db /\
    names w' !! at_ (Db.dir db) RLock = None.
Proof.
  intros Hcap Hm HV Hroom. unfold Db.Close, closeUnlocked. pose proof (holds_map_open _ _ _ Hm) as Hop. cbn [fst] in Hop.
  rewrite (M_bind_Ok _ _ _ _ _ (get_run closed db w)), Hop.
  rewrite (M_bind_Ok _ _ _ tt (set_closed true db, w)) by done.
  rewrite (M_bind_Ok _ _ _ _ _ (get_run (fun db => ReadOnly (opts db)) (set_closed true db) w)).
  rewrite (M_bind_Ok _ _ _ _ _ (get_run (fun db => MemTable.Len (mem db)) (set_closed true db) w)).
  destruct (close_flush cap V V' db w m (negb (ReadOnly (opts (set_closed true db))) && (0 <? MemTable.Len (mem (set_closed true db))))
    Hcap Hm HV Hroom) as ([db2 w2] & Hfl & (ess & n & os & i & B & Hmem & Hcon) & Hdir).
  rewrite (M_bind_Ok _ _ _ _ _ Hfl). unfold set_open. cbn [fst snd] in *. set (db3 := set_closed true db2).
  destruct B as [B1 B2 B3 B4 B5 B6 B7 B8 B9 (lk & g & j & c & K1 & K2 & K3 & K4 & K5 & K6 & K7 & K8 & K9)]. cbn [fst snd] in *.
  destruct (Wal.log_Close_spec (wal db2) w2 i _ B5) as (l & w3 & Hwal & Hc3 & Ht3 & Hi3).
  rewrite (M_bind_Ok _ _ _ _ _ (try_Ok _ _ _ _ (on_wal_run _ db3 w2 _ _ _ Hwal))). cbn [first_err]. cbv zeta.
  rewrite (M_bind_Ok _ _ _ _ _ (get_run tables _ w3)). cbn [tables set_wal db3 set_closed].
  pose proof Ht3 as (T1 & T2 & T3 & T4 & _).
  assert (forall g', g' <> Wal.f (wal db2) -> fds w3 !! g' = fds w2 !! g') as Hfd3 by done.
  destruct (close_tables_run (tables db2) None w3 Hc3 B9) as (ts' & w4 & Hts & Hc4 & Hn4 & Hi4 & Hf4).
  { rewrite Forall_lookup. intros q t Ht. destruct (Forall2_lookup_l _ _ _ _ _ B7 Ht) as (es & _ & [_ (g1 & d1 & F1 & F2 & _) (g0 & d0 & O1 & O2 & O3 & _)]).
    exists g0, d0. assert (g1 = g0) as -> by congruence. by rewrite Hfd3. }
  rewrite (M_bind_Ok _ _ _ _ _ (db_io_run _ (set_wal l db3) w3 _ _ Hts)). cbv beta iota.
  set (db4 := set_tables ts' (set_wal l db3)). rewrite (M_bind_Ok _ _ _ tt (db4, w4)) by done.
  rewrite (M_bind_Ok _ _ _ _ _ (get_run lock db4 w4)). change (lock db4) with (lock db2). rewrite K1.
  assert (has_file w4 g j (len c) c) as Hlkf.
  { destruct K5 as [K5 K5']. split; [by rewrite Hf4, Hfd3|by rewrite Hi4, Hi3]. }
  assert (names w4 !! FileLock.path lk = Some j) as Hq4 by (rewrite K4; congruence).
  destruct (Release_held lk w4 g j c j Hc4 K2 K3 Hlkf Hq4) as (w5 & Hrel & Hc5 & Hn5 & Hi5).
  assert (on_lock FileLock.Release (db4, w4) = (Ok tt, (set_lock (Some (FileLock.set_file None false lk)) db4, w5))) as Hrun.
  { unfold on_lock, zoom. cbn [fst snd]. change (lock db4) with (lock db2). by rewrite K1, Hrel. }
  rewrite (M_bind_Ok _ _ _ None (set_lock (Some (FileLock.set_file None false lk)) db4, w5)).
  2: { by rewrite (M_bind_Ok _ _ _ _ _ (try_Ok _ _ _ _ Hrun)). }
  eexists _, w5. split; [done|]. split; [|split; [by rewrite <- Hdir|rewrite Hn5, K4, Hdir; apply lookup_delete_eq]].
  exists (manif db2), ess, n, os, i, []. destruct B5 as (_ & _ & [_ Hino] & _). cbn [fst snd] in Hino.
  split; rewrite ?app_nil_r; try done.
  - assert (directory w4 (manif db2) ess i) as D4 by (eapply directory_fds; [exact B1|done|congruence|congruence]).
    eapply directory_remove; [exact D4|done|exact Hn5|done|..]; rewrite K4, B4; [by apply at_ne..|].
    intros f Hf. destruct (dr_table _ _ _ _ _ B1 Hf) as (k & Hk1 & Hk2 & ->). apply at_ne; [done|cbn; lia|done].
  - congruence.
  - rewrite Hi5, Hi4, Hi3. done.
  - by left.
  - pose proof (lg_bytes _ _ _ _ _ B2). pose proof (lg_limit _ _ _ _ _ B2). lia.
Qed.

(** ** A crash

    The process dies while [b] has been appended to the log.  Every file stays,
    the lock file among them, which nobody holds any more. *)
Record crashed (w w' : World) (d : string) (b : list byte) : Prop := {
  cr_calm : calm w';
  cr_names : names w' = names w;
  cr_log : exists i, names w !! at_ d RLog = Some i /\ inodes w' = alter (fun c => c ++ b) i (inodes w)
}.

Lemma crash_directory w w' mf ess i b :
  directory w mf ess i -> crashed w w' (Manifest.dir mf) b ->
  directory w' mf ess i /\ inodes w' !! i = (fun c => c ++ b) <$> inodes w !! i.
Proof.
  intros D [Hc Hn (i' & Hi' & Hin)]. assert (i' = i) as -> by (pose proof (dr_log _ _ _ _ D); congruence).
  split; [|by rewrite Hin, list_lookup_alter_eq].
  eapply directory_other; [exact D|done|done|by rewrite Hin, length_alter|]. intros j c Hj Hcj. by rewrite Hin, list_lookup_alter_ne.
Qed.

(** An append cut after [k] bytes leaves the old map, or the new one if it was
    complete. *)
Lemma crash_stored V V' db w m op k w' (fr := Wal.op_frame (Wal.nextSeq (wal db)) op) :
  holds_map V (db, w) m -> loggable op -> V + op_cost op + 64 <= V' -> V' < 2 ^ 40 ->
  crashed w w' (Db.dir db) (take k fr) ->
  stored V' w' (Db.dir db) (if decide (k < length fr)%nat then m else op_map op m).
Proof.
  intros (ess & n & os & i & B & _ & Hcon) Hop HV HV' Hcr. pose proof (ba_ledger _ _ _ _ _ _ B) as L. cbn [fst] in L.
  pose proof (ba_same _ _ _ _ _ _ B) as Hsame. pose proof (ba_dir _ _ _ _ _ _ B) as D. cbn [fst snd] in D, Hsame.
  rewrite Hsame in Hcr.
  destruct (crash_directory w w' _ ess i _ D Hcr) as [D' Hlog].
  destruct (ba_log _ _ _ _ _ _ B) as (_ & _ & [_ Hino] & _). cbn [fst snd] in Hino. rewrite Hino in Hlog. cbn [fmap option_fmap option_map] in Hlog.
  destruct (ledger_newer V _ ess n os op L Hop) as (Hnew & [Hord _] & Hok); [lia|].
  pose proof (ba_seq _ _ _ _ _ _ B) as Hseq. cbn [fst] in Hseq. subst fr.
  rewrite Hseq in Hlog |- *. set (fr := Wal.op_frame (n + Wal.log_count os) op) in *.
  pose proof (frame_cost (n + Wal.log_count os) op) as Hfc. fold fr in Hfc. pose proof (lg_bytes _ _ _ _ _ L) as Hlb. pose proof (op_count_cost op) as Hoc.
  case_decide as Hk.
  - exists (manif db), ess, n, os, i, (take k fr). split; try done.
    + by eapply ledger_mono; [exact L|lia|].
    + right. exists (Wal.op_type op), (Wal.op_payload (n + Wal.log_count os) op), (drop k fr).
      split; [symmetry; apply take_drop|]. split; [|apply Hok].
      intros Hd%(f_equal length). rewrite length_drop in Hd. cbn [length] in Hd. lia.
    + rewrite length_app, length_take. lia.
  - rewrite take_ge in Hlog by lia.
    exists (manif db), ess, n, (os ++ [op]), i, [].
    assert (Wal.log_bytes n (os ++ [op]) = Wal.log_bytes n os ++ Wal.op_frame (n + Wal.log_count os) op) as Hb by
      (rewrite Wal.log_bytes_app; cbn [Wal.log_bytes]; by rewrite app_nil_r).
    split; rewrite ?app_nil_r, ?Hb; try done.
    + by apply (ledger_append V).
    + by left.
    + fold fr. rewrite length_app. lia.
    + rewrite all_entries_app, <- (fold_writes (n + Wal.log_count os) op m), <- log_entries_one.
      apply contents_writes; [exact Hnew|exact Hord|exact Hcon].
Qed.
End open.
#[export] Hint Resolve flush_setup : steps.
