(* ===== verification/DbRun.v ===== *)
(** * DbRun: the theorems about lsmkv as a map

    Whatever sequence of calls a client makes, the database answers as a finite
    map would: through flushes and compactions, after closing and opening
    again, and after a crash in the middle of a write. *)

From Stdlib Require Import ZArith Lia QArith Strings.Byte.
From stdpp Require Import base decidable list gmap strings numbers sorting sets.
From S2P Require Import Prelude Bloom ByteUtil Os OsFacts Wal SkipList SSTable SSTableFacts SSTableWriter SSTableProps SSTableSpec Manifest ManifestFacts ManifestProps FileLock Compact CompactProps Db DbSpec DbFiles DbLedger DbState DbFlush DbRefine DbIter DbCompact DbOpen.
#[local] Open Scope Z_scope.

(** ** Calls of a client *)

Inductive call :=
  | CPut (key value : slice)
  | CDelete (key : slice)
  | CWrite (b : WriteBatch.WriteBatch)
  | CFlush
  | CCompact
  | CReopen.

(** What a call means for the map. *)
Definition call_map (m : kvmap) (c : call) : kvmap :=
  match c with
  | CPut key value => <[bs key := bs value]> m
  | CDelete key => delete (bs key) m
  | CWrite b => op_map (Wal.OpBatch (WriteBatch.entries b)) m
  | CFlush | CCompact | CReopen => m
  end.

(** The operation a call logs. *)
Definition call_op (c : call) : option Wal.op :=
  match c with
  | CPut key value => Some (Wal.OpPut key value)
  | CDelete key => Some (Wal.OpDelete key)
  | CWrite b => Some (Wal.OpBatch (WriteBatch.entries b))
  | CFlush | CCompact | CReopen => None
  end.

(** Keys are not empty, and an operation has at most 256 MB. *)
Definition call_ok (c : call) : Prop :=
  match call_op c with
  | Some o => Forall (fun k => bs k <> []) (op_keys o) /\ op_cost o + 64 <= 2 ^ 28
  | None => True
  end.
Definition call_cost (c : call) : Z := match call_op c with Some o => op_cost o + 65 | None => 1 end.
Definition total_cost (cs : list call) : Z := foldr (fun c n => call_cost c + n) 0 cs.

Section calls.
Context {F : Type} `{Float64 F} {J : Manifest.Json} {E : FileLock.Env}.
Context (seed : nat -> Z) (o : option Db.Options).

(** Closing the database, and opening its directory again. *)
Definition reopen : MD unit :=
  d ← get Db.dir;
  Db.Close (F := F);;
  db ← io (Db.Open (F := F) seed d o);
  upd (fun _ => db).

Definition run_call (c : call) : MD unit :=
  match c with
  | CPut key value => Db.Put (F := F) key value
  | CDelete key => Db.Delete (F := F) key
  | CWrite b => Db.Write (F := F) (Some b)
  | CFlush => Db.Flush (F := F)
  | CCompact => Db.Compact (F := F)
  | CReopen => reopen
  end.
Fixpoint run_calls (cs : list call) : MD unit :=
  match cs with [] => mret tt | c :: cs => run_call c;; run_calls cs end.
End calls.

Section refinement.
Context {TA : TableAccess} {F : Type} `{Float64 F} {J : Manifest.Json} {JO : JsonOk J} {E : FileLock.Env}.
Context (seed : nat -> Z) (o : option Db.Options).

(** A writable database in directory [d] that holds [m]. *)
Record serves (d : string) (V : Z) (s : DB * World) (m : kvmap) : Prop := {
  sr_holds : holds_map V s m;
  sr_opts : opts (fst s) = Db.normalize o;
  sr_dir : Db.dir (fst s) = d
}.

(** Every answer a client can get. *)
Record answers_as (s : DB * World) (m : kvmap) : Prop := {
  aa_get key : exists r, Db.Get key s = (r, s) /\ answers r (m !! bs key);
  aa_has key : Db.Has key s = (Ok (bool_decide (is_Some (m !! bs key))), s);
  aa_list : exists l, Iterator.NewIterator s = (Ok (Iterator.mkIterator l (-1) true), s) /\
    StronglySorted blt ((pair_of <$> l).*1) /\ forall k v, (k, v) ∈ pair_of <$> l <-> m !! k = Some v
}.

Lemma serves_answers d V s m : serves d V s m -> answers_as s m.
Proof.
  intros [Hm _ _]. destruct s as [db w]. split.
  - intros key. by eapply Get_run.
  - intros key. by eapply Has_run.
  - by eapply NewIterator_run.
Qed.

(** Every call leaves the directory and the options alone. *)
Lemma on_mem_setup g : steps same_setup (on_mem g).
Proof. unfold on_mem. steps_tac. Qed.
#[local] Hint Resolve on_mem_setup : steps.
Lemma apply_entries_setup es first : forall j, steps same_setup (apply_entries es first j).
Proof. induction es as [|e es IH]; intros j; cbn [apply_entries]; steps_tac. Qed.
#[local] Hint Resolve apply_entries_setup : steps.
Lemma maybe_flush_setup : steps same_setup (maybe_flush (F := F)).
Proof. unfold maybe_flush. steps_tac. Qed.
#[local] Hint Resolve maybe_flush_setup : steps.

Lemma Put_setup key value : steps same_setup (Db.Put (F := F) key value).
Proof. unfold Db.Put, Db.writable. steps_tac. Qed.
Lemma Delete_setup key : steps same_setup (Db.Delete (F := F) key).
Proof. unfold Db.Delete, Db.writable. steps_tac. Qed.
Lemma Write_setup b : steps same_setup (Db.Write (F := F) b).
Proof. unfold Db.Write, Db.writable. steps_tac. Qed.
Lemma Flush_setup : steps same_setup (Db.Flush (F := F)).
Proof. unfold Db.Flush, Db.writable. steps_tac. Qed.
Lemma Compact_setup : steps same_setup (Db.Compact (F := F)).
Proof. unfold Db.Compact, Db.writable. steps_tac. Qed.

Lemma setup_dir {A} (x : MD A) s r s' : steps same_setup x -> x s = (r, s') -> Db.dir (fst s') = Db.dir (fst s).
Proof. intros Hx Hr. specialize (Hx s) as [Hd _]. by rewrite Hr in Hd. Qed.

Context (cap : Z) (Hcap : blooms_fit (F := F) cap) (Hro : ReadOnly (Db.normalize o) = false).

(** One call. *)
Lemma run_call_refines d V V' s m c :
  serves d V s m -> d <> ""%string -> call_ok c -> V + call_cost c <= V' -> room cap V' ->
  exists s', run_call (F := F) seed o c s = (Ok tt, s') /\ serves d V' s' (call_map m c).
Proof.
  intros [Hm Ho Hd] Hne Hok HV Hroom. destruct s as [db w]. cbn [fst] in *.
  assert (ReadOnly (opts db) = false) as Hr by by rewrite Ho.
  assert (Hdone: forall (x : MD unit) m', steps same_setup x ->
    (exists s', x (db, w) = (Ok tt, s') /\ holds_map V' s' m' /\ opts (fst s') = opts db) ->
    exists s', x (db, w) = (Ok tt, s') /\ serves d V' s' m').
  { intros x m' Hx (s' & Hrun & Hm' & Ho'). exists s'. split; [done|]. split; [done|congruence|].
    rewrite (setup_dir x _ _ _ Hx Hrun). done. }
  destruct c as [key value|key|b| | |]; unfold call_cost, call_ok in *; cbn [call_op run_call call_map] in *.
  - destruct Hok as [[Hk _]%Forall_cons Hsz]. apply Hdone; [apply Put_setup|]. eapply Put_run; try done; cbn [op_cost] in *. lia.
  - destruct Hok as [[Hk _]%Forall_cons Hsz]. apply Hdone; [apply Delete_setup|]. eapply Delete_run; try done; cbn [op_cost] in *; lia.
  - destruct Hok as [Hk Hsz]. cbn [op_keys] in Hk. rewrite Forall_fmap in Hk. apply Hdone; [apply Write_setup|]. eapply Write_run; try done. lia.
  - apply Hdone; [apply Flush_setup|]. destruct (Flush_run cap Hcap V V' db w m Hm Hr HV Hroom) as (s' & H1 & H2 & H3 & _). by exists s'.
  - apply Hdone; [apply Compact_setup|]. destruct (Compact_run cap Hcap V V' db w m Hm Hr HV Hroom) as (s' & H1 & H2 & H3 & _). by exists s'.
  - unfold reopen. rewrite (M_bind_Ok _ _ _ _ _ (get_run Db.dir db w)).
    destruct (Close_run cap V V' db w m Hcap Hm HV Hroom) as (db1 & w1 & Hclose & Hst & _ & Hlk).
    rewrite (M_bind_Ok _ _ _ _ _ Hclose). rewrite Hd in Hst, Hlk |- *.
    destruct (Open_run seed V' w1 d o m Hst (or_introl Hlk) Hne) as (db2 & w2 & Hopen & Hm2 & Ho2 & Hd2).
    rewrite (M_bind_Ok _ _ _ _ _ (db_io_run _ db1 w1 _ _ Hopen)). exists (db2, w2). split; [done|]. by split.
Qed.

Lemma call_cost_nonneg c : 1 <= call_cost c.
Proof. unfold call_cost. destruct (call_op c) as [op|]; [pose proof (op_cost_nonneg op)|]; lia. Qed.

Lemma total_cost_nonneg cs : 0 <= total_cost cs.
Proof.
  induction cs as [|c cs IH]; [done|]. cbn [total_cost foldr]. fold (total_cost cs). pose proof (call_cost_nonneg c). lia.
Qed.

Lemma run_calls_refine d cs : forall V V' s m,
  serves d V s m -> d <> ""%string -> Forall call_ok cs -> V + total_cost cs <= V' -> room cap V' ->
  exists s', run_calls (F := F) seed o cs s = (Ok tt, s') /\ serves d V' s' (fold_left call_map cs m).
Proof.
  induction cs as [|c cs IH]; intros V V' s m Hs Hne Hok HV Hroom; cbn [total_cost foldr] in HV.
  - exists s. split; [done|]. destruct Hs as [Hm ? ?]. split; [|done|done]. eapply holds_map_mono; [exact Hm|lia|apply Hroom].
  - apply Forall_cons in Hok as [Hc Hok]. fold (total_cost cs) in HV.
    pose proof (total_cost_nonneg cs) as Hpos.
    destruct (run_call_refines d V (V + call_cost c) s m c Hs Hne Hc ltac:(lia)) as (s1 & Hrun & Hs1).
    { destruct Hroom. split; lia. }
    destruct (IH (V + call_cost c) V' s1 _ Hs1 Hne Hok ltac:(lia) Hroom) as (s2 & Hrun2 & Hs2).
    exists s2. cbn [run_calls fold_left]. by rewrite (M_bind_Ok _ _ _ _ _ Hrun).
Qed.
End refinement.

(** ** Opening after a process has died

    The lock file of a dead process stays in the directory.  A later process,
    with a clock and an identity of its own, is refused and changes nothing
    while that file is younger than its age limit.  Once the file is old enough,
    or somebody has removed it, [Open] succeeds with a database that holds a map
    in [P], and which goes on to perform any calls ([V] bounds what was ever
    written to it). *)
Definition reopens {F : Type} `{Float64 F} {J : Manifest.Json} (seed : nat -> Z) (o : option Db.Options) (cap V : Z)
    (d : string) (w : World) (P : kvmap -> Prop) : Prop :=
  forall E : FileLock.Env,
    (blocked d w -> Db.Open (F := F) seed d o w = (Err FileLock.ErrLocked, w)) /\
    forall w0, (w0 = w /\ vacant d w) \/ w0 = unlock d w ->
      exists db w' m, Db.Open (F := F) seed d o w0 = (Ok db, w') /\ P m /\ answers_as (db, w') m /\
        forall cs, Forall call_ok cs -> room cap (V + total_cost cs) ->
          exists s, run_calls (F := F) seed o cs (db, w') = (Ok tt, s) /\ answers_as s (fold_left call_map cs m).

Lemma stored_reopens {F : Type} `{Float64 F} {J : Manifest.Json} {JO : JsonOk J} (seed : nat -> Z) (o : option Db.Options) (cap V : Z) (d : string) (w : World) (m : kvmap) (P : kvmap -> Prop) :
  blooms_fit (F := F) cap -> ReadOnly (Db.normalize o) = false ->
  stored V w d m -> d <> ""%string -> P m -> reopens (F := F) seed o cap V d w P.
Proof.
  intros Hcap Hro Hst Hd HP E. split; [intros Hb; apply Open_blocked; [by eapply stored_calm|done|done]|].
  intros w0 Hw0. assert (stored V w0 d m /\ vacant d w0) as [Hst0 Hv].
  { destruct Hw0 as [[-> Hv]| ->]; [done|]. split; [by apply stored_unlock|apply unlock_vacant]. }
  destruct (Open_run seed V w0 d o m Hst0 Hv Hd) as (db & w' & Hopen & Hm & Ho & Hdir).
  assert (serves o d V (db, w') m) as Hs by done. exists db, w', m. split; [done|]. split; [done|]. split; [by eapply serves_answers|].
  intros cs Hcs Hroom. destruct (run_calls_refine seed o cap Hcap Hro d cs V (V + total_cost cs) (db, w') m Hs Hd Hcs ltac:(lia) Hroom) as (s & Hrun & Hs').
  exists s. split; [done|]. by eapply serves_answers.
Qed.

(** * Theorems *)

Section theorems.
Context {F : Type} `{Float64 F} {J : Manifest.Json} {JO : JsonOk J} {E : FileLock.Env}.
Context (seed : nat -> Z) (o : option Db.Options).

Lemma start_serves cap cs w d :
  blooms_fit (F := F) cap -> calm w -> names_ok w -> empty_dir w d -> d <> ""%string ->
  ReadOnly (Db.normalize o) = false -> Forall call_ok cs -> room cap (total_cost cs) ->
  exists db w1 s, Db.Open (F := F) seed d o w = (Ok db, w1) /\ run_calls (F := F) seed o cs (db, w1) = (Ok tt, s) /\
    serves o d (total_cost cs) s (fold_left call_map cs ∅).
Proof.
  intros Hcap Hw Hn He Hd Hro Hcs Hroom. pose proof (total_cost_nonneg cs) as Hpos.
  destruct (Open_empty seed 0 w d o Hw Hn He Hd) as (db & w1 & Hopen & Hm & Ho & Hdir); [lia|].
  assert (serves o d 0 (db, w1) ∅) as Hs by by split.
  destruct (run_calls_refine seed o cap Hcap Hro d cs 0 (total_cost cs) (db, w1) ∅ Hs Hd Hcs ltac:(lia) Hroom) as (s & Hrun & Hs').
  by exists db, w1, s.
Qed.

(** C1: A database is a map.  Opened in an empty directory, it performs any
    sequence of puts, deletes, batches, flushes, compactions, and closings
    followed by opening again, each call succeeding; afterwards [Get] and [Has]
    answer for every key, and a new iterator lists, in the order of the keys,
    what the same writes make of the empty map. *)
Theorem database_is_map cap cs w d (Hcap : blooms_fit (F := F) cap) (Hw : calm w) (Hn : names_ok w) (He : empty_dir w d)
  (Hd : d <> ""%string) (Hro : ReadOnly (Db.normalize o) = false) (Hcs : Forall call_ok cs) (Hroom : room cap (total_cost cs)) :
  exists db w1 s, Db.Open (F := F) seed d o w = (Ok db, w1) /\ run_calls (F := F) seed o cs (db, w1) = (Ok tt, s) /\
    answers_as s (fold_left call_map cs ∅).
Proof.
  destruct (start_serves cap cs w d Hcap Hw Hn He Hd Hro Hcs Hroom) as (db & w1 & s & H1 & H2 & H3).
  exists db, w1, s. split; [done|]. split; [done|]. by eapply serves_answers.
Qed.

(** C2: A write that was acknowledged survives a crash, and a write is in the
    database wholly or not at all.  Let the process die after any calls,
    having appended the first [k] bytes of the frame of a further operation to
    the log; every file stays, its lock file included.  As long as that lock file
    is younger than 24 hours, opening the directory is refused with [ErrLocked]
    and changes nothing; once it is older, or somebody has removed it, opening
    succeeds and the database holds what the calls made, and the effect of the
    further operation exactly if its frame was complete; and any further calls
    succeed and have their effect. *)
Theorem crash_keeps_writes cap cs w d op k (Hcap : blooms_fit (F := F) cap) (Hw : calm w) (Hn : names_ok w) (He : empty_dir w d)
  (Hd : d <> ""%string) (Hro : ReadOnly (Db.normalize o) = false) (Hcs : Forall call_ok cs) (Hroom : room cap (total_cost cs))
  (Hop : loggable op) (Hlim : total_cost cs + op_cost op + 64 < 2 ^ 40) :
  exists db w1 db2 w2, Db.Open (F := F) seed d o w = (Ok db, w1) /\ run_calls (F := F) seed o cs (db, w1) = (Ok tt, (db2, w2)) /\
    let frame := Wal.op_frame (Wal.nextSeq (wal db2)) op in
    let m := fold_left call_map cs ∅ in
    forall w3, crashed w2 w3 d (take k frame) ->
    reopens (F := F) seed o cap (total_cost cs + op_cost op + 64) d w3 (eq (if decide (k < length frame)%nat then m else op_map op m)).
Proof.
  destruct (start_serves cap cs w d Hcap Hw Hn He Hd Hro Hcs Hroom) as (db & w1 & [db2 w2] & H1 & H2 & [Hm Ho Hdir]).
  exists db, w1, db2, w2. split; [done|]. split; [done|]. intros frame m w3 Hcr. cbn [fst] in Hdir. rewrite <- Hdir in Hcr.
  pose proof (crash_stored _ (total_cost cs + op_cost op + 64) db2 w2 _ op k w3 Hm Hop ltac:(lia) ltac:(lia) Hcr) as Hst.
  rewrite Hdir in Hst. by eapply stored_reopens.
Qed.

(** C13: [Close] and [Open] are inverse: closing succeeds and gives the lock up, and
    opening the directory again, with any options, yields a database with the
    same contents. *)
Theorem Close_Open_restores cap d V V' s m o' (Hs : serves o d V s m) (Hcap : blooms_fit (F := F) cap)
  (Hd : d <> ""%string) (HV : V + 1 <= V') (Hroom : room cap V') :
  exists s1 db w2, Db.Close (F := F) s = (Ok tt, s1) /\ names (snd s1) !! lock_path d None = None /\
    Db.Open (F := F) seed d o' (snd s1) = (Ok db, w2) /\ opts db = Db.normalize o' /\ answers_as (db, w2) m.
Proof.
  destruct Hs as [Hm Ho Hdir], s as [db w]. cbn [fst] in Hdir.
  destruct (Close_run cap V V' db w m Hcap Hm HV Hroom) as (db1 & w1 & Hclose & Hst & _ & Hlk). rewrite Hdir in Hst, Hlk.
  destruct (Open_run seed V' w1 d o' m Hst (or_introl Hlk) Hd) as (db2 & w2 & Hopen & Hm2 & Ho2 & Hd2).
  exists (db1, w1), db2, w2. split_and!; try done. by apply (serves_answers o' d V').
Qed.

(** C15: [Flush] moves the memtable to a table: it succeeds, leaves the memtable and
    the log empty, adds one table exactly if the memtable had entries, and does
    not change any answer. *)
Theorem Flush_moves_memtable cap d V V' s m (Hs : serves o d V s m) (Hcap : blooms_fit (F := F) cap)
  (Hro : ReadOnly (Db.normalize o) = false) (HV : V + 1 <= V') (Hroom : room cap V') :
  exists s', Db.Flush (F := F) s = (Ok tt, s') /\
    sMemtableBytes (Stats_ (fst s')) = 0 /\ MemtableKeys (Stats_ (fst s')) = 0 /\ WALSize (Stats_ (fst s')) = 0 /\
    SSTFiles (Stats_ (fst s')) = SSTFiles (Stats_ (fst s)) + (if 0 <? MemtableKeys (Stats_ (fst s)) then 1 else 0) /\
    answers_as s m /\ answers_as s' m.
Proof.
  pose proof (serves_answers _ _ _ _ _ Hs) as Ha. destruct Hs as [Hm Ho Hdir], s as [db w]. cbn [fst] in *.
  destruct (Flush_run cap Hcap V V' db w m Hm) as (s' & Hrun & Hm' & Ho' & (Hc1 & Hc2 & Hc3) & Hl); [by rewrite Ho|done|done|].
  exists s'. assert (answers_as s' m) as Ha' by (apply (serves_answers o (Db.dir (fst s')) V'); split; [done|congruence|done]).
  split_and!; try done.
  - unfold Stats_. cbn [SSTFiles MemtableKeys]. rewrite Hl. case_match; lia.
Qed.

(** C14: [Compact] merges tables without changing any answer: it succeeds, and if
    there are at least two tables and as many as the threshold, there are fewer
    afterwards; otherwise the database is as before. *)
Theorem Compact_merges_tables cap d V V' s m (Hs : serves o d V s m) (Hcap : blooms_fit (F := F) cap)
  (Hro : ReadOnly (Db.normalize o) = false) (HV : V + 1 <= V') (Hroom : room cap V') :
  exists s', Db.Compact (F := F) s = (Ok tt, s') /\
    (if decide (CompactThreshold (Db.normalize o) <= TableCount (fst s) /\ 2 <= TableCount (fst s))
     then 1 <= TableCount (fst s') < TableCount (fst s) else fst s' = fst s) /\
    answers_as s m /\ answers_as s' m.
Proof.
  pose proof (serves_answers _ _ _ _ _ Hs) as Ha. destruct Hs as [Hm Ho Hdir], s as [db w]. cbn [fst] in *.
  destruct (Compact_run cap Hcap V V' db w m Hm) as (s' & Hrun & Hm' & Ho' & Hsh); [by rewrite Ho|done|done|].
  exists s'. assert (answers_as s' m) as Ha' by (apply (serves_answers o (Db.dir (fst s')) V'); split; [done|congruence|done]).
  split_and!; try done. unfold shrinks in Hsh. rewrite Ho in Hsh. unfold TableCount. case_decide; [lia|done].
Qed.

(** C16: An iterator walks the map.  From [SeekToFirst], [Next] visits exactly the
    keys of the map in ascending order, with their values, and then the
    iterator is no longer valid; [Seek] goes to the first key that is not below
    the target, from where the keys from the target on are visited. *)
Theorem Iterator_walks d V s m (Hs : serves o d V s m) :
  exists it l, Iterator.NewIterator s = (Ok it, s) /\
    StronglySorted blt (l.*1) /\ (forall k v, (k, v) ∈ l <-> m !! k = Some v) /\
    walk (length l) (Iterator.SeekToFirst it) = Ok l /\
    forall target, exists it', Iterator.Seek target it = Ok it' /\
      walk (length l) it' = Ok (filter (fun kv => ble target kv.1) l).
Proof.
  destruct (serves_answers _ _ _ _ _ Hs) as [_ _ (l & Hit & Hsort & Hin)].
  exists (Iterator.mkIterator l (-1) true), (pair_of <$> l). split_and!; [done|done|done|..]; rewrite length_fmap.
  - rewrite SeekToFirst_at, walk_at by lia. done.
  - intros target. destruct (Seek_at l true target (-1) Hsort) as (j & Hj & Hf). exists (at_item l true j).
    split; [done|]. rewrite walk_at by lia. by rewrite Hf.
Qed.
End theorems.

(** ** Witnesses *)

#[local] Existing Instances Codec.codec Codec.codec_ok Q_Float64.
#[local] Instance quiet : FileLock.Env := FileLock.demo_env 0.

Definition demo_seed (i : nat) : Z := Z.of_nat i.
Definition demo_key (b : byte) : slice := Some [b].

(** Two tables with an overwritten and a deleted key, merged; a batch that waits
    in the log while the database is closed and opened. *)
Definition demo_calls : list call := [
  CPut (demo_key x61) (demo_key x31); CPut (demo_key x62) (demo_key x32); CFlush;
  CPut (demo_key x61) (demo_key x33); CDelete (demo_key x62); CFlush; CCompact;
  CWrite (WriteBatch.Put (demo_key x63) (demo_key x34) (WriteBatch.Delete (demo_key x64) WriteBatch.NewWriteBatch)); CReopen;
  CPut (demo_key x65) None].
Definition demo_map : kvmap := fold_left call_map demo_calls ∅.

Lemma demo_blooms : blooms_fit (F := Q) 64.
Proof.
  set (qs := [default_fp; Builder.fp (Builder.NewBuilder (BloomFP (SSTable.normalize (F := Q) None)));
    Builder.fp (Builder.NewBuilder (BloomFP (SSTable.normalize (out_options (F := Q) (Some (Compact.mkOptions false 0 0))))))]).
  assert (forallb (fun n => forallb (fun q => OptimalBits (Z.max 1 (Z.of_nat n)) q <=? 2 ^ 50) qs) (List.seq 0 65) = true) as Hb
    by by vm_compute.
  rewrite forallb_forall in Hb. intros n Hn. specialize (Hb (Z.to_nat n)). rewrite in_seq, forallb_forall, Z2Nat.id in Hb by lia.
  split; intros q [->| ->]; apply Z.leb_le, Hb; first [lia|by left|by right; left|by right; right; left].
Qed.

Lemma demo_start : blooms_fit (F := Q) 64 /\ calm empty_world /\ names_ok empty_world /\ empty_dir empty_world "d" /\
  Forall call_ok demo_calls /\ room 64 (total_cost demo_calls).
Proof.
  split; [exact demo_blooms|]. split; [done|]. split; [by apply map_Forall_empty|]. split; [by intros r _|]. split.
  - repeat (constructor; [unfold call_ok; cbn; repeat split; try done; by repeat constructor|]). constructor.
  - split; by vm_compute.
Qed.

Lemma database_is_map_witness :
  exists db w1 s, Db.Open (F := Q) demo_seed "d" None empty_world = (Ok db, w1) /\
    run_calls (F := Q) demo_seed None demo_calls (db, w1) = (Ok tt, s) /\ answers_as s demo_map.
Proof.
  destruct demo_start as (H1 & H2 & H3 & H4 & H5 & H6). by apply (database_is_map demo_seed None 64 demo_calls empty_world "d").
Defined.

(** The same, computed: what the database answers for five keys. *)
Example demo_answers_computed :
  let answers_of s := (fun b => match fst (Db.Get (demo_key b) s) with Ok v => Some (bs v) | _ => None end) <$> [x61; x62; x63; x64; x65] in
  match Db.Open (F := Q) demo_seed "d" None empty_world with
  | (Ok db, w) => option_map answers_of (match run_calls (F := Q) demo_seed None demo_calls (db, w) with (Ok _, s) => Some s | _ => None end)
  | _ => None
  end = Some [Some [x33]; None; Some [x34]; None; Some []].
Proof. by vm_compute. Qed.

Lemma demo_serves : exists db w1 s, Db.Open (F := Q) demo_seed "d" None empty_world = (Ok db, w1) /\
  run_calls (F := Q) demo_seed None demo_calls (db, w1) = (Ok tt, s) /\ serves None "d" (total_cost demo_calls) s demo_map.
Proof. destruct demo_start as (H1 & H2 & H3 & H4 & H5 & H6). by apply (start_serves demo_seed None 64). Qed.

Lemma serves_crash d V s m b : serves None d V s m -> exists w', crashed (snd s) w' d b.
Proof.
  intros [(ess & n & os & i & B & _) _ Hd]. pose proof (ba_dir _ _ _ _ _ _ B) as D. pose proof (ba_same _ _ _ _ _ _ B) as Hs.
  exists (mkWorld (names (snd s)) (alter (fun c => c ++ b) i (inodes (snd s))) [] []). split; [done|done|]. exists i. split; [|done].
  rewrite <- Hd, Hs. apply (dr_log _ _ _ _ D).
Qed.

Lemma demo_crash db w1 db2 w2 b : Db.Open (F := Q) demo_seed "d" None empty_world = (Ok db, w1) ->
  run_calls (F := Q) demo_seed None demo_calls (db, w1) = (Ok tt, (db2, w2)) -> exists w3, crashed w2 w3 "d" b.
Proof.
  destruct demo_serves as (db' & w1' & s & H1 & H2 & Hs). rewrite H1. intros [= <- <-]. rewrite H2. intros [= ->].
  by apply (serves_crash "d" _ _ _ b) in Hs.
Qed.

Lemma crash_keeps_writes_witness :
  let op := Wal.OpPut (demo_key x61) (demo_key x35) in
  exists db w1 db2 w2, Db.Open (F := Q) demo_seed "d" None empty_world = (Ok db, w1) /\
    run_calls (F := Q) demo_seed None demo_calls (db, w1) = (Ok tt, (db2, w2)) /\
    let frame := Wal.op_frame (Wal.nextSeq (wal db2)) op in
    exists w3, crashed w2 w3 "d" (take 7 frame) /\
      reopens (F := Q) demo_seed None 64 (total_cost demo_calls + op_cost op + 64) "d" w3
        (eq (if decide (7 < length frame)%nat then demo_map else op_map op demo_map)).
Proof.
  destruct demo_start as (H1 & H2 & H3 & H4 & H5 & H6).
  destruct (crash_keeps_writes demo_seed None 64 demo_calls empty_world "d" (Wal.OpPut (demo_key x61) (demo_key x35)) 7 H1 H2 H3 H4
    ltac:(done) eq_refl H5 H6 ltac:(split; [by apply Forall_singleton|done|done]) eq_refl) as (db & w1 & db2 & w2 & Hopen & Hrun & Hcr).
  destruct (demo_crash db w1 db2 w2 (take 7 (Wal.op_frame (Wal.nextSeq (wal db2)) (Wal.OpPut (demo_key x61) (demo_key x35)))) Hopen Hrun) as [w3 H3'].
  exists db, w1, db2, w2. split; [exact Hopen|]. split; [exact Hrun|]. exists w3. split; [exact H3'|]. exact (Hcr w3 H3').
Defined.

Lemma demo_room : room 64 (total_cost demo_calls + 1).
Proof. by split; vm_compute. Qed.

Lemma Close_Open_restores_witness :
  exists db w1 s s1 db2 w2, Db.Open (F := Q) demo_seed "d" None empty_world = (Ok db, w1) /\
    run_calls (F := Q) demo_seed None demo_calls (db, w1) = (Ok tt, s) /\
    Db.Close (F := Q) s = (Ok tt, s1) /\
    Db.Open (F := Q) demo_seed "d" (Some (Db.mkOptions 0 SyncBatch 0 0 true)) (snd s1) = (Ok db2, w2) /\ answers_as (db2, w2) demo_map.
Proof.
  destruct demo_serves as (db & w1 & s & H1 & H2 & H3).
  destruct (Close_Open_restores demo_seed None 64 "d" _ _ s demo_map (Some (Db.mkOptions 0 SyncBatch 0 0 true)) H3 demo_blooms
    ltac:(done) (Z.le_refl _) demo_room) as (s1 & db2 & w2 & H4 & _ & H5 & _ & H6).
  exists db, w1, s, s1, db2, w2. repeat (split; [assumption|]). assumption.
Defined.

Lemma Flush_moves_memtable_witness :
  exists db w1 s s', Db.Open (F := Q) demo_seed "d" None empty_world = (Ok db, w1) /\
    run_calls (F := Q) demo_seed None demo_calls (db, w1) = (Ok tt, s) /\
    Db.Flush (F := Q) s = (Ok tt, s') /\ WALSize (Stats_ (fst s')) = 0 /\ answers_as s' demo_map.
Proof.
  destruct demo_serves as (db & w1 & s & H1 & H2 & H3).
  destruct (Flush_moves_memtable None 64 "d" _ _ s demo_map H3 demo_blooms eq_refl (Z.le_refl _) demo_room)
    as (s' & H4 & _ & _ & H5 & _ & _ & H6).
  exists db, w1, s, s'. repeat (split; [assumption|]). assumption.
Defined.

Lemma Compact_merges_tables_witness :
  exists db w1 s s', Db.Open (F := Q) demo_seed "d" None empty_world = (Ok db, w1) /\
    run_calls (F := Q) demo_seed None demo_calls (db, w1) = (Ok tt, s) /\
    Db.Compact (F := Q) s = (Ok tt, s') /\ answers_as s' demo_map.
Proof.
  destruct demo_serves as (db & w1 & s & H1 & H2 & H3).
  destruct (Compact_merges_tables None 64 "d" _ _ s demo_map H3 demo_blooms eq_refl (Z.le_refl _) demo_room)
    as (s' & H4 & _ & _ & H6).
  exists db, w1, s, s'. repeat (split; [assumption|]). assumption.
Defined.

Lemma Iterator_walks_witness :
  exists db w1 s it l, Db.Open (F := Q) demo_seed "d" None empty_world = (Ok db, w1) /\
    run_calls (F := Q) demo_seed None demo_calls (db, w1) = (Ok tt, s) /\
    Iterator.NewIterator s = (Ok it, s) /\ walk (length l) (Iterator.SeekToFirst it) = Ok l /\
    forall k v, (k, v) ∈ l <-> demo_map !! k = Some v.
Proof.
  destruct demo_serves as (db & w1 & s & H1 & H2 & H3).
  destruct (Iterator_walks None "d" _ s demo_map H3) as (it & l & H4 & _ & H5 & H6 & _).
  exists db, w1, s, it, l. repeat (split; [assumption|]). assumption.
Defined.
