(* ===== verification/DbCrash.v ===== *)
(** * DbCrash: calls that fail, and the process that dies after them

    A write or a flush may fail at any of its calls of package os, at each stage
    leaving another set of files: a name that was never used, a table that the
    manifest does not name, a manifest that was not renamed, a table that is
    recorded while the log keeps its entries.  What every one of them leaves in
    the directory can be opened, once the dead process's lock file does not count
    any more, and holds the map from before or after the call. *)

From Stdlib Require Import ZArith Lia QArith Strings.Byte.
From stdpp Require Import base decidable list gmap strings numbers sorting sets.
From S2P Require Import Prelude Bloom ByteUtil Os OsFacts OsFaults Wal SkipList SSTable SSTableFacts SSTableWriter SSTableProps SSTableSpec Manifest ManifestFacts ManifestProps Faults FileLock Compact CompactProps Db DbSpec DbFiles DbLedger DbState DbFlush DbRefine DbOpen DbRun.
#[local] Open Scope Z_scope.

(** ** A client that stops at the first error *)

(** The calls whose failures lose nothing. *)
Definition writes (c : call) : bool := match c with CCompact | CReopen => false | _ => true end.

(** How many calls succeeded, and the state after the one that did not. *)
Fixpoint run_until {F} `{Float64 F} {J : Manifest.Json} {E : FileLock.Env} (seed : nat -> Z) (o : option Db.Options)
    (cs : list call) (s : DB * World) : nat * (DB * World) :=
  match cs with
  | [] => (0%nat, s)
  | c :: cs =>
      match run_call (F := F) seed o c s with
      | (Ok _, s') => let '(n, s'') := run_until seed o cs s' in (S n, s'')
      | (_, s') => (0%nat, s')
      end
  end.

(** ** The process dies *)

(** What is left of a world for the next process: every file, the lock file of
    the dead process and a temporary manifest among them, but no descriptors. *)
Definition killed (w : World) : World := mkWorld (names w) (inodes w) [] [].

(** Besides the file [i] (if any), only the names [ps] and the file named [t] may
    have changed, and no two names have come to share a file. *)
Record spared (t : string) (ps : list string) (i : option nat) (w w' : World) : Prop := {
  sp_ok : names_ok w';
  sp_names p : p ∉ ps -> names w' !! p = names w !! p;
  sp_apart p q j : p ∈ ps -> q <> p -> names w' !! p = Some j -> names w' !! q = Some j ->
    names w !! p = Some j /\ names w !! q = Some j;
  sp_files p j c : p ∉ ps -> p <> t -> names w !! p = Some j -> names w !! t <> Some j -> i <> Some j ->
    inodes w !! j = Some c -> inodes w' !! j = Some c
}.
Definition spares t ps i (w w' : World) : Prop := names_ok w -> spared t ps i w w'.

#[export] Instance spares_preorder t ps i : PreOrder (spares t ps i).
Proof.
  split; [by intros w Hok|]. intros w1 w2 w3 H1 H2 Hok. destruct (H1 Hok) as [O1 N1 A1 F1]. destruct (H2 O1) as [O2 N2 A2 F2]. split; [done|..].
  - intros p Hp. by rewrite N2, N1.
  - intros p q j Hp Hq Hj Hj'. destruct (A2 p q j Hp Hq Hj Hj'). by apply A1.
  - intros p j c Hp Ht Hj Hne Hi Hc. apply (F2 p); try done; [by rewrite N1| |by apply (F1 p)].
    intros Htj. destruct (decide (t ∈ ps)) as [Hin|Hin]; [|by rewrite N1 in Htj].
    assert (names w2 !! p = Some j) as Hpj by by rewrite N1. by destruct (A1 t p j Hin Ht Htj Hpj) as [Hw _].
Qed.

Lemma spares_more t ps qs i w w' : ps ⊆ qs -> spares t ps None w w' -> spares t qs i w w'.
Proof.
  intros Hpq H Hok. destruct (H Hok) as [O N A Fi]. assert (forall p, p ∉ qs -> p ∉ ps) as Hn by (intros p Hp ?%Hpq; done).
  split; [done|intros p Hp; by apply N, Hn| |intros p j c Hp Ht Hj Htj _; by apply (Fi p j c (Hn p Hp))].
  intros p q j _ Hq Hj Hj'. destruct (decide (p ∈ ps)) as [Hp|Hp]; [by apply (A p q)|].
  destruct (decide (q ∈ ps)) as [Hq'|Hq']; [by destruct (A q p j Hq' (not_eq_sym Hq) Hj' Hj)|]. by rewrite <- !N.
Qed.

Lemma same_spares t ps i w w' : same_files w w' -> spares t ps i w w'.
Proof. intros [Hn Hi] Hok. split; rewrite ?Hn, ?Hi; [unfold names_ok; by rewrite Hn, Hi|done..]. Qed.

Lemma within_spares t ps p w w' : p ∈ ps -> within [p] w w' -> spares t ps None w w'.
Proof.
  intros Hp W. apply (spares_more t [p]); [set_solver|]. intros Hok. pose proof (within_names_ok _ _ _ W Hok) as Hok'. destruct W as [N M G].
  split; [done|done| |intros q j c _ _ _ _ _; apply G].
  intros p' q j ->%list_elem_of_singleton Hq Hj Hj'. rewrite N in Hj' by (by rewrite list_elem_of_singleton). split; [|done].
  destruct (M p j) as [|Hge]; [by left|done|done|]. apply Hok in Hj'. cbn in Hj'. lia.
Qed.

Lemma within_nil_spares t ps i w w' : within [] w w' -> spares t ps i w w'.
Proof.
  intros W. apply (spares_more t []); [set_solver|]. intros Hok. pose proof (within_names_ok _ _ _ W Hok). destruct W as [N _ G].
  split; [done|done|by intros p q j ?%not_elem_of_nil|]. intros q j c _ _ _ _ _. apply G.
Qed.

Lemma aside_spares t ps w w' : t ∈ ps -> aside t w w' -> spares t ps None w w'.
Proof.
  intros Ht [O N Fi]. apply (spares_more t [t]); [set_solver|]. intros Hok. split; [by apply O|intros p Hp; apply N; set_solver|..].
  - intros p q j ->%list_elem_of_singleton Hq Hj Hj'. rewrite N in Hj' by done. split; [|done].
    destruct (decide (names w !! t = Some j)) as [|Hne]; [done|]. by destruct (Fi q j Hq Hj' Hne).
  - intros p j c _ Hp Hj Hne _ Hc. by destruct (Fi p j Hp Hj Hne) as [_ ->].
Qed.

Lemma touches_spares t f i w w' : touches f i w w' -> spares t [] (Some i) w w'.
Proof.
  intros (Hn & Hi & _ & Hl & _) Hok. split; rewrite ?Hn; [unfold names_ok; by rewrite Hn, Hl|done|by intros p q j ?%not_elem_of_nil|].
  intros q j c _ _ _ _ Hj. rewrite Hi; [done|congruence].
Qed.

Section killed.
Context {J : Manifest.Json} {JO : JsonOk J}.

(** Names that nothing depends on: the temporary manifest, the lock file, and
    tables whose numbers are taken but which the manifest does not name. *)
Definition idle (mf : Manifest.Manifest) (p : string) : Prop :=
  (p = at_ (Manifest.dir mf) RTmp \/ p = at_ (Manifest.dir mf) RLock) \/ exists k, 0 <= k < Manifest.NextFile (Manifest.state mf) /\
    p = at_ (Manifest.dir mf) (RTable k) /\ forall f, f ∈ Manifest.files (Manifest.state mf) -> table_path (Manifest.dir mf) f <> p.

Lemma idle_tmp mf : Forall (idle mf) [at_ (Manifest.dir mf) RTmp].
Proof. apply Forall_singleton. left. by left. Qed.

(** A name that is not idle is none of [ps]. *)
Lemma idle_other mf ps r : Forall (idle mf) ps -> 0 <= Manifest.NextFile (Manifest.state mf) < 2 ^ 64 -> role_ok r -> r <> RTmp -> r <> RLock ->
  (forall k, r = RTable k -> Manifest.NextFile (Manifest.state mf) <= k) -> at_ (Manifest.dir mf) r ∉ ps.
Proof.
  rewrite Forall_forall. intros Hps Hnx Hr H1 H2 H3 [[Heq|Heq]|(k & Hk & Heq & _)]%Hps; apply at_inj in Heq; try done; [|cbn; lia].
  specialize (H3 k Heq). lia.
Qed.
Lemma idle_table mf ps f k : Forall (idle mf) ps -> f ∈ Manifest.files (Manifest.state mf) -> 0 <= k < 2 ^ 64 ->
  table_path (Manifest.dir mf) f = at_ (Manifest.dir mf) (RTable k) -> table_path (Manifest.dir mf) f ∉ ps.
Proof.
  rewrite Forall_forall. intros Hps Hf Hk Hp [[Heq|Heq]|(j & _ & _ & Hj)]%Hps; [rewrite Hp in Heq; apply at_inj in Heq; [done|cbn; lia|done]..|].
  by apply (Hj f Hf).
Qed.

(** A directory whose other files were spared is as before. *)
Lemma killed_directory ps w w' mf ess i :
  directory w mf ess i -> Forall (idle mf) ps -> spares (at_ (Manifest.dir mf) RTmp) ps (Some i) w w' -> directory (killed w') mf ess i.
Proof.
  set (d := Manifest.dir mf). intros D Hps Hs. destruct (dr_calm _ _ _ _ D) as [_ Hok]. destruct (Hs Hok) as [Hok' N A Fi].
  pose proof (so_next _ (sn_state _ _ (dr_sound _ _ _ _ D))) as Hnx. pose proof (dr_tmp _ _ _ _ D) as Htmp. fold d in Htmp.
  assert (Hother: forall r, role_ok r -> r <> RTmp -> r <> RLock -> (forall k, r = RTable k -> Manifest.NextFile (Manifest.state mf) <= k) ->
    names w' !! at_ d r = names w !! at_ d r) by (intros r Hr H1 H2 H3; by apply N, (idle_other mf)).
  assert (Hkeep: forall r, role_ok r -> r <> RTmp -> r <> RLog -> at_ d r ∉ ps -> kept w (killed w') (at_ d r)).
  { intros r Hr H1 H2 Hp j c Hj Hc. cbn. rewrite N by done. split; [done|]. apply (Fi (at_ d r)); try done; [by apply at_ne|..].
    - intros Ht. pose proof (Htmp j _ Ht Hj) as Heq. by apply at_inj in Heq.
    - intros [= <-]. apply (dr_own _ _ _ _ D) in Hj. by apply at_inj in Hj. }
  apply (directory_step w); try done; fold d.
  - apply Hkeep; try done. by apply (idle_other mf).
  - intros f Hf. destruct (dr_table _ _ _ _ _ D Hf) as (q & Hq1 & Hq2 & Hp). fold d in Hp |- *. rewrite Hp.
    apply Hkeep; [cbn; lia|done..|]. rewrite <- Hp. eapply idle_table; [done|done| |exact Hp]. lia.
  - intros j q Hj Hq. cbn in Hj, Hq. destruct (decide (q = at_ d RTmp)) as [|Hne]; [done|]. apply (Htmp j q).
    + destruct (decide (at_ d RTmp ∈ ps)) as [Hin|Hin]; [by apply (A _ q j)|]. by rewrite <- N.
    + destruct (decide (q ∈ ps)) as [Hin|Hin]; [by apply (A q (at_ d RTmp) j Hin (not_eq_sym Hne))|]. by rewrite <- N.
  - intros q Hq. cbn. rewrite Hother by first [done | cbn; lia | intros k [= ->]; lia]. by apply (dr_fresh _ _ _ _ D).
  - cbn. rewrite Hother by done. apply (dr_log _ _ _ _ D).
  - intros p Hp. cbn in Hp. apply (dr_own _ _ _ _ D). destruct (decide (p ∈ ps)) as [Hin|Hin]; [|by rewrite <- N].
    destruct (decide (p = at_ d RLog)) as [->|Hne]; [apply (dr_log _ _ _ _ D)|].
    apply (A p (at_ d RLog) i Hin (not_eq_sym Hne) Hp). rewrite Hother by done. apply (dr_log _ _ _ _ D).
Qed.

(** What the next process finds: the log as it was. *)
Lemma killed_rest V ps w w' d m mf ess n os i junk :
  directory w mf ess i -> Manifest.dir mf = d -> Forall (idle mf) ps -> spares (at_ d RTmp) ps (Some i) w w' ->
  ledger V (Manifest.state mf) ess n os -> contents (all_entries ess n os) m -> inodes w' !! i = Some (Wal.log_bytes n os ++ junk) ->
  Wal.torn junk -> len (Wal.log_bytes n os ++ junk) < 2 ^ 61 -> stored V (killed w') d m.
Proof.
  intros D <- Hps Hsp L Hcon Hlog Ht Hl. exists mf, ess, n, os, i, junk. split; try done. by eapply killed_directory.
Qed.

Lemma killed_stored V ps w w' d mf ess n os i m :
  directory w mf ess i -> Manifest.dir mf = d -> Forall (idle mf) ps -> spares (at_ d RTmp) ps (Some i) w w' ->
  ledger V (Manifest.state mf) ess n os -> contents (all_entries ess n os) m -> inodes w' !! i = Some (Wal.log_bytes n os) ->
  stored V (killed w') d m.
Proof.
  intros D Hd Hps Hsp L Hcon Hlog. eapply (killed_rest V ps w w' d m mf ess n os i []); rewrite ?app_nil_r; try done; [by left|].
  pose proof (lg_bytes _ _ _ _ _ L). pose proof (lg_limit _ _ _ _ _ L). lia.
Qed.

(** The same, of files that were left alone. *)
Lemma killed_spared V ps w w' d mf ess n os i m :
  directory w mf ess i -> Manifest.dir mf = d -> Forall (idle mf) ps -> spares (at_ d RTmp) ps None w w' ->
  ledger V (Manifest.state mf) ess n os -> contents (all_entries ess n os) m -> inodes w !! i = Some (Wal.log_bytes n os) ->
  stored V (killed w') d m.
Proof.
  intros D <- Hps Hs L Hcon Hi. destruct (dr_calm _ _ _ _ D) as [_ Hok]. pose proof (so_next _ (sn_state _ _ (dr_sound _ _ _ _ D))) as Hnx.
  eapply (killed_stored V ps w w'); try done; [by apply (spares_more _ ps)|].
  apply (sp_files _ _ _ _ _ (Hs Hok) (at_ (Manifest.dir mf) RLog)); try done; [by apply (idle_other mf)|by apply at_ne|apply (dr_log _ _ _ _ D)|].
  intros Ht. apply (dr_own _ _ _ _ D) in Ht. by apply at_inj in Ht.
Qed.
End killed.

(** ** An interrupted flush *)

Section flush.
Context {TA : TableAccess} {F : Type} `{Float64 F} {J : Manifest.Json} {JO : JsonOk J} {E : FileLock.Env}.
Context (cap : Z) (Hcap : blooms_fit (F := F) cap).

Lemma on_manif_inv {A} (x : M (Manifest.Manifest * World) A) db w r s' :
  on_manif x (db, w) = (r, s') -> exists mf w', s' = (set_manif mf db, w') /\ x (manif db, w) = (r, (mf, w')).
Proof. unfold on_manif, zoom. cbn. destruct (x (manif db, w)) as [r0 [mf w0]]. intros [= <- <-]. by eexists _, _. Qed.
Lemma on_wal_inv {A} (x : M (Wal.Log * World) A) db w r s' :
  on_wal x (db, w) = (r, s') -> exists l w', s' = (set_wal l db, w') /\ x (wal db, w) = (r, (l, w')).
Proof. unfold on_wal, zoom. cbn. destruct (x (wal db, w)) as [r0 [l w0]]. intros [= <- <-]. by eexists _, _. Qed.

(** Nothing of the database was touched. *)
Lemma base_within V db w w' ess n os i m ps :
  base V (db, calmed w) ess n os i -> contents (all_entries ess n os) m -> Forall (idle (manif db)) ps -> spares (at_ (Db.dir db) RTmp) ps None w w' ->
  stored V (killed w') (Db.dir db) m.
Proof.
  intros B Hcon Hps Hs. destruct (ba_log _ _ _ _ _ _ B) as (_ & _ & [_ Hi] & _). pose proof (ba_same _ _ _ _ _ _ B) as Hd. cbn [fst snd] in Hi, Hd.
  apply (killed_spared V ps (calmed w) w' _ (manif db) ess n os i); try done.
  - apply (ba_dir _ _ _ _ _ _ B).
  - transitivity w; [by apply same_spares|done].
  - apply (ba_ledger _ _ _ _ _ _ B).
Qed.

Lemma dir_tmp w mf ess i : directory w mf ess i -> (Manifest.path mf ++ Manifest.tmpSuffix)%string = at_ (Manifest.dir mf) RTmp.
Proof. intros D. by rewrite (sn_path _ _ (dr_sound _ _ _ _ D)), at_tmp. Qed.

(** The table is recorded: the log is emptied, or not. *)
Lemma recorded_interrupted V db w3 mf ess n os i es p path q m r db' w' :
  directory (calmed w3) mf (ess ++ [es]) i -> Manifest.dir mf = Db.dir db ->
  ledger V (Manifest.state mf) (ess ++ [es]) n os -> contents (all_entries (ess ++ [es]) n os) m ->
  ledger V (Manifest.state mf) (ess ++ [es]) (n + Wal.log_count os) [] ->
  contents (all_entries (ess ++ [es]) (n + Wal.log_count os) []) m ->
  Wal.closed (wal db) = false -> has_file w3 (Wal.f (wal db)) i p (Wal.log_bytes n os) ->
  (r ← io (SSTable.Open path); upd (fun db => set_tables (tables db ++ [r]) db);;
    upd (fun db => set_mem (MemTable.Clear (mem db)) db);; on_wal Wal.Reset;; on_wal (Wal.SetNextSeq q))
    (db, w3) = (r, (db', w')) ->
  stored V (killed w') (Db.dir db) m.
Proof.
  intros D Hd L1 C1 L2 C2 Hcl Hf Hrun.
  set (t := at_ (Db.dir db) RTmp).
  assert (Hfull: forall w', spares t [] (Some i) w3 w' -> inodes w' !! i = Some (Wal.log_bytes n os) -> stored V (killed w') (Db.dir db) m).
  { intros w0 S Hi. eapply (killed_stored V [] (calmed w3) w0 _ mf _ n os); try done. by transitivity w3; [apply same_spares|]. }
  assert (Hempty: forall w', spares t [] (Some i) w3 w' -> inodes w' !! i = Some [] -> stored V (killed w') (Db.dir db) m).
  { intros w0 S Hi. eapply (killed_stored V [] (calmed w3) w0 _ mf _ _ []); try done. by transitivity w3; [apply same_spares|]. }
  apply bind_inv in Hrun as [(rd & s4 & (w4 & -> & H4)%io_inv & Hrun)|(r0 & (w4 & [= -> ->] & H4)%io_inv & _)];
    pose proof (SSTable_Open_within _ _ _ _ H4) as W4; pose proof (grows_has_file _ _ _ _ _ _ (wi_grows _ _ _ W4) Hf) as Hf4.
  2: { apply Hfull; [by apply within_nil_spares|apply Hf4]. }
  rewrite (M_bind_Ok _ _ _ tt (set_tables (tables db ++ [rd]) db, w4)) in Hrun by done. set (db4 := set_tables _ db) in *.
  rewrite (M_bind_Ok _ _ _ tt (set_mem (MemTable.Clear (mem db4)) db4, w4)) in Hrun by done. set (db5 := set_mem _ db4) in *.
  assert (forall (l : Wal.Log) w5 r0, Wal.Reset (wal db, w4) = (r0, (l, w5)) -> stored V (killed w5) (Db.dir db) m) as Hreset.
  { intros l w5 r0 Hr. destruct (Reset_any _ _ _ _ _ _ _ _ Hcl Hf4 Hr) as [T [Hi|Hi]]; [apply Hfull|apply Hempty]; try done;
      (transitivity w4; [by apply within_nil_spares|by eapply touches_spares]). }
  apply bind_inv in Hrun as [(u & s5 & (l & w5 & -> & H5)%on_wal_inv & Hrun)|(r0 & (l & w5 & [= -> ->] & H5)%on_wal_inv & _)];
    apply Hreset in H5; [|done].
  apply on_wal_inv in Hrun as (l' & w6 & [= -> ->] & H6). unfold Wal.SetNextSeq, Wal.upd_log, modify in H6. by injection H6 as _ _ <-.
Qed.

(** The table whose name is allocated is written, and recorded. *)
Lemma written_interrupted V V' db mf1 w1 ess n os i mes mn mx m r db' w' (k := Manifest.NextFile (Manifest.state (manif db))) :
  let es := mem_entry <$> mes in
  let db1 := set_manif mf1 db in
  ledger V (Manifest.state (manif db)) ess n os -> mem_holds mes (log_entries n os) -> contents (all_entries ess n os) m ->
  2 * V + 1 <= V' -> room cap V' -> base V' (db1, calmed w1) ess n os i -> Manifest.NextFile (Manifest.state mf1) = k + 1 ->
  0 <= k < 2 ^ 64 -> named_below k (Manifest.files (Manifest.state (manif db))) ->
  Manifest.files (Manifest.state mf1) = Manifest.files (Manifest.state (manif db)) ->
  Manifest.LogSeq_ (Manifest.state mf1) = Manifest.LogSeq_ (Manifest.state (manif db)) ->
  names w1 !! at_ (Db.dir db) (RTable k) = None ->
  (meta ← io (SSTable.WriteFile (F := F) (at_ (Db.dir db) (RTable k)) (raw_entry <$> mes) None);
   let fm := Manifest.mkFileMeta (table_name k) 0 mn mx (max_seq es) (len es) (SSTable.mFileSize meta) in
   r ← try_ (on_manif (Manifest.AddFile fm (max_seq es)));
   match r with
   | inr e => _ ← try_ (io (Remove (at_ (Db.dir db) (RTable k)))); throw e
   | inl _ =>
       r ← io (SSTable.Open (at_ (Db.dir db) (RTable k)));
       upd (fun db => set_tables (tables db ++ [r]) db);;
       upd (fun db => set_mem (MemTable.Clear (mem db)) db);;
       on_wal Wal.Reset;;
       on_wal (Wal.SetNextSeq (max_seq es))
   end) (db1, w1) = (r, (db', w')) ->
  stored V' (killed w') (Db.dir db) m.
Proof.
  intros es db1 L Hm Hcon HV Hroom B1 Hnf Hk Hnum Hfs Hls Hnone Hrun. pose proof (lg_count _ _ _ _ _ L) as Hcnt.
  destruct (lg_log _ _ _ _ _ L) as [Hn0 Hok]. pose proof (log_count_nonneg _ _ Hok) as Hc0.
  set (p := at_ (Db.dir db) (RTable k)) in *. pose proof (ba_same _ _ _ _ _ _ B1) as Hd1. cbn [fst] in Hd1.
  change (Db.dir db = Manifest.dir mf1) in Hd1.
  pose proof (ba_dir _ _ _ _ _ _ B1) as D1. cbn [fst snd] in D1. change (directory (calmed w1) mf1 ess i) in D1.
  assert (Forall (idle mf1) [at_ (Db.dir db) RTmp; p]) as Hidle.
  { apply Forall_cons. split; [left; left; by rewrite Hd1|]. apply Forall_singleton. right. exists k. split; [lia|]. split; [by unfold p; rewrite Hd1|].
    rewrite Hfs, <- Hd1. intros f Hf Heq. destruct (named_below_in _ _ _ Hnum Hf) as (q & Hq & Hlt). unfold table_path in Heq. rewrite Hq in Heq.
    apply (at_inj _ (RTable q) (RTable k)) in Heq; [injection Heq as ->; lia|cbn; lia..]. }
  set (t := at_ (Db.dir db) RTmp) in *.
  assert (Hlost: forall w2, spares t [t; p] None w1 w2 -> stored V' (killed w2) (Db.dir db) m).
  { intros w2 Hw. apply (base_within V' db1 w1 w2 ess n os i m _ B1 Hcon Hidle Hw). }
  destruct (flush_table cap Hcap V V' db db1 (calmed w1) ess n os i mes L Hroom ltac:(lia) Hm B1 Hnf Hk eq_refl Hnone) as
    (W2 & meta0 & Hwrite & G2 & Hh2 & B2 & Hsz & _). fold es in Hh2. fold k in Hwrite, Hh2. fold p in Hwrite, Hh2.
  apply bind_inv in Hrun as [(meta & s2 & (w2 & -> & H2)%io_inv & Hrun)|(r0 & (w2 & [= -> ->] & H2)%io_inv & _)];
    pose proof (within_spares t [t; p] p _ _ ltac:(set_solver) (table_within _ _ _ _ _ _ Hnone H2)) as Hw2.
  2: { by apply Hlost. }
  apply follows_table in H2. rewrite Hwrite in H2. injection H2 as <- ->. cbv zeta in Hrun. set (fm := Manifest.mkFileMeta _ _ _ _ _ _ _) in *.
  pose proof (ba_dir _ _ _ _ _ _ B2) as D2. cbn [fst snd] in D2. change (directory (calmed w2) mf1 ess i) in D2.
  pose proof (dir_tmp _ _ _ _ D2) as Htmp. destruct (dr_calm _ _ _ _ D2) as [_ Hok2].
  destruct (add_file_run cap V V' db mf1 (calmed w2) ess n os i mes m mn mx _ L Hm Hcon ltac:(lia) Hroom Hsz D2 Hk Hnf Hnum Hfs Hls) as
    (mf & W3 & Hadd & S3 & D3 & L3 & Hcon3 & Hdir3 & Hfs3 & Hrec); [by rewrite <- Hd1|].
  change (Manifest.AddFile fm (max_seq es) (mf1, calmed w2) = (Ok tt, (mf, W3))) in Hadd.
  apply try_bind_inv in Hrun as [(u & s3 & (mf3 & w3 & -> & H3)%on_manif_inv & Hrun)|(r3 & s3 & (mf3 & w3 & -> & H3)%on_manif_inv & Hr3 & Hrun)].
  - apply follows_AddFile in H3. unfold calmed2 in H3. cbn [fst snd] in H3. change (manif db1) with mf1 in H3. rewrite Hadd in H3. injection H3 as <- <- ->.
    destruct (ba_log _ _ _ _ _ _ B2) as (_ & Hcl & [Hf1 Hf2] & _). rewrite <- Hd1 in S3.
    assert (has_file w3 (Wal.f (wal db1)) i (len (Wal.log_bytes n os)) (Wal.log_bytes n os)) as Hf.
    { split; [by apply (st_fds _ _ _ S3)|apply (st_files _ _ _ S3 (at_ (Db.dir db) RLog)); [|rewrite Hd1; apply (dr_log _ _ _ _ D2)|done]].
      apply (apart_manifest _ _ _ _ _ _ _ B2). }
    destruct (Hrec HV) as [L4 C4]. eapply (recorded_interrupted V' (set_manif mf db1)); [exact D3|..]; try done. cbn. congruence.
  - change (manif db1) with mf1 in H3. assert (spares t [t; p] None w3 w') as Hw4.
    { apply (within_spares t _ p); [set_solver|]. destruct Hrun as [[e Hrun]|[= _ <-]]; [|done].
      apply bind_inv in Hrun as [(x & s4 & Hx & [= _ ->])|(x & Hx & _)]; apply try_inv in Hx as [x0 (w4 & [= _ ->] & H4)%io_inv];
        by apply within_Remove in H4. }
    apply AddFile_aside in H3; [|done|by apply Hr3]. rewrite Htmp, <- Hd1 in H3. fold t in H3.
    apply Hlost. etrans; [exact Hw2|]. etrans; [|exact Hw4]. apply aside_spares; [by left|exact H3].
Qed.

Lemma flush_interrupted V V' db w m r db' w' :
  holds_map V (db, calmed w) m -> 2 * V + 1 <= V' -> room cap V' -> flushLocked (F := F) (db, w) = (r, (db', w')) ->
  stored V' (killed w') (Db.dir db) m.
Proof.
  intros Hold HV Hroom Hrun. pose proof Hold as (ess & n & os & i & B & (mes & Hr & Hm) & Hcon). cbn [fst] in Hr.
  pose proof (ba_ledger _ _ _ _ _ _ B) as L. cbn [fst] in L. pose proof (lg_count _ _ _ _ _ L) as Hcnt.
  destruct (lg_log _ _ _ _ _ L) as [Hn0 Hok]. pose proof (log_count_nonneg _ _ Hok) as Hc0. destruct (Hroom) as [HV1 _].
  unfold flushLocked in Hrun. rewrite (M_bind_Ok _ _ _ _ _ (get_run mem db w)) in Hrun.
  rewrite (M_bind_Ok _ _ _ mes (db, w)) in Hrun by (unfold lift, MemTable.Snapshot; by rewrite (SkipList.Snapshot_repr _ _ Hr)).
  pose proof (ba_dir _ _ _ _ _ _ B) as D. cbn [fst snd] in D. pose proof (dir_tmp _ _ _ _ D) as Htmp.
  destruct (dr_calm _ _ _ _ D) as [_ Hokw]. set (t := at_ (Db.dir db) RTmp). pose proof (ba_same _ _ _ _ _ _ B) as Hsame. cbn [fst] in Hsame.
  assert (Hlost: forall w2, spares t [t] None w w2 -> stored V' (killed w2) (Db.dir db) m).
  { intros w2 Hw. destruct (holds_map_mono V V' _ _ Hold ltac:(lia) HV1) as (ess' & n' & os' & i' & B' & _ & Hcon').
    eapply base_within; [exact B'|exact Hcon'| |exact Hw]. unfold t. rewrite Hsame. apply idle_tmp. }
  destruct (Z.eqb_spec (len mes) 0) as [Hz|Hz]; [injection Hrun as _ _ <-; by apply Hlost|].
  destruct (alloc_run cap V V' db (calmed w) ess n os i B ltac:(lia) Hroom) as
    (mf1 & W1 & Halloc & B1 & Hnf & Hk & Hfs & Hls & Hdir1 & Hnone).
  set (k := Manifest.NextFile (Manifest.state (manif db))) in *.
  apply bind_inv in Hrun as [(name & s1 & (mf & w1 & -> & H1)%on_manif_inv & Hrun)|(r1 & (mf & w1 & [= -> ->] & H1)%on_manif_inv & Hr1 & _)].
  2: { apply Hlost, aside_spares; [by left|]. unfold t. rewrite Hsame, <- Htmp. by eapply AllocFileName_aside. }
  apply follows_AllocFileName in H1. unfold calmed2 in H1. cbn [fst snd] in H1. rewrite Halloc in H1. injection H1 as <- <- ->.
  rewrite (M_bind_Ok _ _ _ _ _ (get_run Db.dir (set_manif mf1 db) w1)) in Hrun. cbv zeta in Hrun.
  destruct (flush_fold mes [] 0 None None) as (mn & mx & Hfold). rewrite Hfold in Hrun. cbn [app] in Hrun. fold (max_seq (raw_entry <$> mes)) in Hrun.
  rewrite !Clone_id, <- (max_seq_stored (raw_entry <$> mes)), (raw_stored mes (mh_keys _ _ Hm)), length_fmap in Hrun.
  replace (len mes) with (len (mem_entry <$> mes)) in Hrun by (by rewrite length_fmap).
  apply (written_interrupted V V' db mf1 w1 ess n os i mes mn mx m r db' w' L Hm Hcon HV Hroom B1 Hnf Hk); try done.
  apply (dr_numbered _ _ _ _ D).
Qed.

(** ** Interrupted writes *)

(** An append that failed has logged the operation, or not. *)
Lemma append_interrupted V V' db w m op r l w' :
  holds_map V (db, calmed w) m -> loggable op -> V + op_cost op + 64 <= V' -> V' < 2 ^ 40 ->
  Wal.append_op op (wal db, w) = (r, (l, w')) ->
  exists m', (m' = m \/ m' = op_map op m) /\ stored V' (killed w') (Db.dir db) m'.
Proof.
  intros Hm Hop HV HV' Hrun. pose proof Hm as (ess & n & os & i & B & _).
  pose proof (ba_ledger _ _ _ _ _ _ B) as L. pose proof (ba_dir _ _ _ _ _ _ B) as D. pose proof (ba_same _ _ _ _ _ _ B) as Hd. cbn [fst snd] in L, D, Hd.
  destruct (ledger_newer V _ ess n os op L Hop ltac:(lia)) as (_ & _ & Hok).
  pose proof (ba_seq _ _ _ _ _ _ B) as Hseq. cbn [fst] in Hseq. rewrite <- Hseq in Hok.
  destruct (ba_log _ _ _ _ _ _ B) as (_ & Hcl & Hf & _). cbn [fst snd] in Hcl, Hf.
  destruct (append_op_any op (wal db) w i _ r l w' Hcl Hf Hok Hrun) as (k & (Hn & Hi & _ & Hl & _) & Hk).
  set (frame := Wal.op_frame (Wal.nextSeq (wal db)) op) in *.
  exists (if decide (k < length frame)%nat then m else op_map op m). split; [case_decide; auto|].
  apply (crash_stored V V' db (calmed w)); [done..|]. split; [done| |].
  - exact Hn.
  - exists i. rewrite Hd. split; [apply (dr_log _ _ _ _ D)|]. cbn. apply list_eq. intros j.
    destruct Hf as [_ Hf]. cbn in Hf. destruct (decide (j = i)) as [->|Hj].
    + by rewrite list_lookup_alter_eq, Hf, Hk.
    + by rewrite list_lookup_alter_ne, Hi.
Qed.

Lemma maybe_flush_interrupted V V' db w m r db' w' :
  holds_map V (db, calmed w) m -> 2 * V + 1 <= V' -> room cap V' -> maybe_flush (F := F) (db, w) = (r, (db', w')) ->
  stored V' (killed w') (Db.dir db) m.
Proof.
  intros Hm HV Hroom. unfold maybe_flush. rewrite (M_bind_Ok _ _ _ _ _ (get_run (fun db => MemTable.ShouldFlush (mem db)) db w)).
  destruct (MemTable.ShouldFlush (mem db)); intros Hrun; [by eapply flush_interrupted|].
  pose proof Hm as (ess & n & os & i & B & _). pose proof (ba_ledger _ _ _ _ _ _ B) as L.
  pose proof (lg_count _ _ _ _ _ L). destruct (lg_log _ _ _ _ _ L) as [Hn0 Hok]. pose proof (log_count_nonneg _ _ Hok).
  destruct (holds_map_mono V V' _ _ Hm ltac:(lia) (proj1 Hroom)) as (ess' & n' & os' & i' & B' & _ & Hcon').
  injection Hrun as _ _ <-. by apply (base_within V' db w w ess' n' os' i' m []).
Qed.

(** Logging an operation and entering it in the memtable. *)
Lemma logged_interrupted V V' db w m op k r db' w' (V1 := V + op_cost op + 64) :
  holds_map V (db, calmed w) m -> loggable op -> enters (F := F) op k -> 2 * V1 + 1 <= V' -> room cap V' ->
  (q ← on_wal (Wal.append_op op); k q) (db, w) = (r, (db', w')) ->
  exists m', (m' = m \/ m' = op_map op m) /\ stored V' (killed w') (Db.dir db) m'.
Proof.
  intros Hm Hop Hk HV Hroom Hrun. pose proof Hm as (ess & n & os & i & B & _). pose proof (ba_ledger _ _ _ _ _ _ B) as L.
  pose proof (lg_count _ _ _ _ _ L) as Hcnt. destruct (lg_log _ _ _ _ _ L) as [Hn0 Hok]. pose proof (log_count_nonneg _ _ Hok) as Hc0.
  pose proof (op_cost_nonneg op) as Hoc. destruct (Hroom) as [HV1 HV2].
  apply bind_inv in Hrun as [(q & s1 & (l & w1 & -> & H1)%on_wal_inv & Hrun)|(r0 & (l & w1 & [= -> ->] & H1)%on_wal_inv & _)].
  2: { apply (append_interrupted V V' db w m op r0 l w1 Hm Hop); [lia|lia|exact H1]. }
  apply follows_append_op in H1. unfold calmed2 in H1. cbn [fst snd] in H1. apply (on_wal_run (Wal.append_op op)) in H1.
  destruct (log_op V V1 db (calmed w) m op Hm Hop ltac:(lia) ltac:(lia)) as (l0 & w0 & N & W & Hlog & Hnx & H0 & HN & Hmem & Hle & Hcont).
  rewrite H1 in Hlog. pose proof (f_equal (fun x => wal (fst (snd x))) Hlog) as Hl. cbn in Hl. subst l0. injection Hlog as -> <-.
  destruct (Hk (set_wal l db) w1 N W Hmem Hle H0 HN Hnx) as (mt & Hin & Heq). rewrite Heq in Hrun.
  exists (op_map op m). split; [by right|]. by apply (maybe_flush_interrupted V1 V' _ w1 _ r db' w' (Hcont mt Hin)).
Qed.
End flush.

(** ** Calls that succeed *)

Section follow.
Context {F : Type} `{Float64 F} {J : Manifest.Json} {JO : JsonOk J} {E : FileLock.Env}.

Lemma follows_get {A} (g : DB -> A) : follows calmed2 (get g).
Proof. by apply follows_gets. Qed.
Lemma follows_upd g : follows calmed2 (upd g).
Proof. by apply follows_modify. Qed.
Lemma follows_on_manif {A} (x : M (Manifest.Manifest * World) A) : follows calmed2 x -> follows calmed2 (on_manif x).
Proof.
  intros Hx [db w] a s' (mf & w' & -> & Hr)%on_manif_inv. apply Hx in Hr. by apply (on_manif_run _ db (calmed w)) in Hr.
Qed.
Lemma follows_on_wal {A} (x : M (Wal.Log * World) A) : follows calmed2 x -> follows calmed2 (on_wal x).
Proof.
  intros Hx [db w] a s' (l & w' & -> & Hr)%on_wal_inv. apply Hx in Hr. by apply (on_wal_run _ db (calmed w)) in Hr.
Qed.
Hint Resolve follows_get follows_upd follows_on_manif follows_on_wal : follows.
Lemma follows_on_mem g : follows calmed2 (on_mem g).
Proof. unfold on_mem. follows_tac. Qed.
Hint Resolve follows_on_mem follows_AllocFileName follows_AddFile follows_table follows_append_op : follows.

Hint Resolve follows_table_Open follows_Reset follows_SetNextSeq : follows.
Lemma follows_flush : follows calmed2 (flushLocked (F := F)).
Proof. unfold flushLocked. follows_tac. Qed.
Hint Resolve follows_flush : follows.
Lemma follows_maybe_flush : follows calmed2 (maybe_flush (F := F)).
Proof. unfold maybe_flush. follows_tac. Qed.
Lemma follows_apply es first : forall j, follows calmed2 (apply_entries es first j).
Proof. induction es as [|e es IH]; intros j; cbn [apply_entries]; follows_tac. Qed.
Hint Resolve follows_maybe_flush follows_apply : follows.
Lemma follows_writable {A} (x : MD A) : follows calmed2 x -> follows calmed2 (Db.writable x).
Proof. intros Hx. unfold Db.writable. follows_tac. Qed.

(** A write that succeeds is that of a world without failures. *)
Lemma follows_call seed o c : writes c = true -> follows calmed2 (run_call (F := F) seed o c).
Proof.
  destruct c as [key value|key|b| | |]; [| | | |done..]; intros _; cbn [run_call]; unfold Put, Delete, Write, Flush; try case_match;
    try apply follows_throw; try apply follows_ret; apply follows_writable; [| | |apply follows_flush].
  - apply follows_bind; [apply follows_on_wal, (follows_append_op (Wal.OpPut key value))|follows_tac].
  - apply follows_bind; [apply follows_on_wal, (follows_append_op (Wal.OpDelete key))|follows_tac].
  - apply follows_bind; [apply follows_on_wal, (follows_append_op (Wal.OpBatch (WriteBatch.entries b)))|follows_tac].
Qed.
End follow.

(** ** Calls that fail *)

Section interrupted.
Context {TA : TableAccess} {F : Type} `{Float64 F} {J : Manifest.Json} {JO : JsonOk J} {E : FileLock.Env}.
Context (seed : nat -> Z) (o : option Db.Options) (cap : Z) (Hcap : blooms_fit (F := F) cap) (Hro : ReadOnly (Db.normalize o) = false).

Lemma holds_map_nonneg V s m : holds_map V s m -> 0 <= V.
Proof.
  intros (ess & n & os & i & B & _). pose proof (ba_ledger _ _ _ _ _ _ B) as L. pose proof (lg_count _ _ _ _ _ L).
  destruct (lg_log _ _ _ _ _ L) as [Hn Hok]. pose proof (log_count_nonneg _ _ Hok). lia.
Qed.

(** What an open database leaves when its process dies. *)
Lemma holds_killed V db w m : holds_map V (db, calmed w) m -> stored V (killed w) (Db.dir db) m.
Proof. intros (ess & n & os & i & B & _ & Hcon). by apply (base_within V db w w ess n os i m []). Qed.

Lemma call_interrupted V V' db w m c r db' w' :
  holds_map V (db, calmed w) m -> ReadOnly (opts db) = false -> writes c = true -> call_ok c ->
  2 * (V + call_cost c) <= V' -> room cap V' -> run_call (F := F) seed o c (db, w) = (r, (db', w')) ->
  exists m', (m' = m \/ m' = call_map m c) /\ stored V' (killed w') (Db.dir db) m'.
Proof.
  intros Hm Hr Hw Hok HV Hroom Hrun. pose proof (holds_map_open _ _ _ Hm) as Hop. cbn [fst] in Hop.
  pose proof (holds_map_nonneg _ _ _ Hm) as H0. destruct (Hroom) as [HV1 HV2].
  destruct c as [key value|key|b| | |]; try done; unfold call_ok, call_cost in *; cbn [call_op run_call call_map] in *.
  - destruct Hok as [[Hk _]%Forall_cons Hsz]. unfold Put in Hrun. rewrite nonempty_len, writable_run in Hrun by done.
    eapply (logged_interrupted cap Hcap V V' db w m (Wal.OpPut key value)); [exact Hm|by apply (loggable_one key value false)|..|exact Hrun]; [|lia|done].
    by apply (set_enters (MemTable.Put key value) key value false).
  - destruct Hok as [[Hk _]%Forall_cons Hsz]. unfold Delete in Hrun. rewrite nonempty_len, writable_run in Hrun by done.
    eapply (logged_interrupted cap Hcap V V' db w m (Wal.OpDelete key)); [exact Hm|by apply (loggable_one key None true)|..|exact Hrun]; [|lia|done].
    by apply (set_enters (MemTable.Delete key) key None true).
  - destruct Hok as [Hk Hsz]. cbn [op_keys] in Hk. rewrite Forall_fmap in Hk. unfold Write in Hrun. set (es := WriteBatch.entries b) in *.
    pose proof (op_cost_nonneg (Wal.OpBatch es)). destruct (Z.eqb_spec (len es) 0) as [Hz|Hz].
    + injection Hrun as _ -> ->. exists m. split; [by left|]. apply holds_killed. eapply holds_map_mono; [exact Hm|lia|done].
    + rewrite writable_run in Hrun by done.
      eapply (logged_interrupted cap Hcap V V' db w m (Wal.OpBatch es)); [exact Hm| |by apply batch_enters|lia|done|exact Hrun].
      apply loggable_batch; [by intros He; rewrite He in Hz|done|done].
  - unfold Flush in Hrun. rewrite writable_run in Hrun by done. exists m. split; [by left|]. eapply flush_interrupted; [done|exact Hm|lia|done|exact Hrun].
Qed.

(** Calls up to the first one that fails. *)
Lemma run_until_interrupted d V' cs : forall V db w m n db' w',
  serves o d V (db, calmed w) m -> d <> ""%string -> Forall (fun c => writes c = true /\ call_ok c) cs ->
  2 * (V + total_cost cs) <= V' -> room cap V' -> run_until (F := F) seed o cs (db, w) = (n, (db', w')) ->
  exists m', (m' = fold_left call_map (take n cs) m \/ m' = fold_left call_map (take (S n) cs) m) /\ stored V' (killed w') d m'.
Proof.
  induction cs as [|c cs IH]; intros V db w m n db' w' Hs Hd Hok HV Hroom Hrun; pose proof Hs as [Hm Ho Hdir]; cbn [fst] in Ho, Hdir;
    pose proof (holds_map_nonneg _ _ _ Hm) as H0; cbn [run_until total_cost foldr] in *.
  - injection Hrun as <- <- <-. exists m. split; [by left|]. rewrite <- Hdir. apply holds_killed.
    eapply holds_map_mono; [exact Hm|lia|apply Hroom].
  - apply Forall_cons in Hok as [[Hw Hc] Hok]. fold (total_cost cs) in HV. pose proof (total_cost_nonneg cs). pose proof (call_cost_nonneg c).
    destruct (run_call (F := F) seed o c (db, w)) as [r [db1 w1]] eqn:Hcall.
    assert ((exists u, r = Ok u) \/ (n, (db', w')) = (0%nat, (db1, w1))) as [[[] ->]|[= -> -> ->]] by (destruct r; eauto).
    + apply (follows_call seed o c Hw) in Hcall. unfold calmed2 in Hcall. cbn [fst snd] in Hcall.
      destruct (run_call_refines seed o cap Hcap Hro d V (V + call_cost c) (db, calmed w) m c Hs Hd Hc ltac:(lia)) as (s1 & Hrun1 & Hs1).
      { destruct Hroom. split; lia. }
      rewrite Hcall in Hrun1. injection Hrun1 as <-.
      destruct (run_until seed o cs (db1, w1)) as [n1 s1] eqn:Hun. injection Hrun as <- ->.
      apply (IH (V + call_cost c) db1 w1 _ n1 db' w' Hs1 Hd Hok ltac:(lia) Hroom Hun).
    + rewrite <- Hdir. cbn [take fold_left]. rewrite take_0. cbn [fold_left].
      eapply (call_interrupted V V' db w m c); [exact Hm|by rewrite Ho|done|done|lia|done|exact Hcall].
Qed.
End interrupted.

(** * Theorem *)

Section theorem.
Context {F : Type} `{Float64 F} {J : Manifest.Json} {JO : JsonOk J} {E : FileLock.Env}.
Context (seed : nat -> Z) (o : option Db.Options).

(** C3: Calls may fail at any of their steps, and no acknowledged write is lost.
    After any calls on a database opened in an empty directory, let further
    puts, deletes, batches and flushes run under any schedule [fs] of failing
    and short calls of package os, up to the first call that does not succeed,
    and let the process die.  Every file stays as it is, the lock file and an
    unfinished MANIFEST.tmp or table included.  While the lock file is younger
    than 24 hours, opening is refused with [ErrLocked] and changes nothing; once
    it is older, or somebody has removed it, opening succeeds and the database
    holds what the calls that succeeded made, and at most the one that failed in
    addition: a failed call has its whole effect or none.  Any further calls,
    flushes and compactions included, then succeed and have their effect. *)
Theorem interrupted_calls cap cs0 cs fs w d (Hcap : blooms_fit (F := F) cap) (Hw : calm w) (Hn : names_ok w) (He : empty_dir w d)
  (Hd : d <> ""%string) (Hro : ReadOnly (Db.normalize o) = false) (Hcs0 : Forall call_ok cs0)
  (Hcs : Forall (fun c => writes c = true /\ call_ok c) cs) (Hroom : room cap (2 * (total_cost cs0 + total_cost cs))) :
  exists db w1 db2 w2, Db.Open (F := F) seed d o w = (Ok db, w1) /\ run_calls (F := F) seed o cs0 (db, w1) = (Ok tt, (db2, w2)) /\
    forall n db3 w3, run_until (F := F) seed o cs (db2, set_faults fs w2) = (n, (db3, w3)) ->
    let m := fold_left call_map cs0 ∅ in
    reopens (F := F) seed o cap (2 * (total_cost cs0 + total_cost cs)) d (killed w3) (fun m' =>
      m' = fold_left call_map (take n cs) m \/ m' = fold_left call_map (take (S n) cs) m).
Proof.
  pose proof (total_cost_nonneg cs0) as H0. pose proof (total_cost_nonneg cs) as H1. destruct (Hroom) as [HV1 HV2].
  destruct (start_serves seed o cap cs0 w d Hcap Hw Hn He Hd Hro Hcs0) as (db & w1 & [db2 w2] & Hopen & Hrun & Hs); [split; lia|].
  exists db, w1, db2, w2. split; [done|]. split; [done|]. intros n db3 w3 Hun.
  assert (calm w2) as Hc2. { destruct Hs as [(ess & q & os & i & B & _) _ _]. apply (base_calm _ _ _ _ _ _ B). }
  assert (calmed (set_faults fs w2) = w2) as Hcalm by by apply (calmed_calm w2).
  destruct (run_until_interrupted seed o cap Hcap Hro d _ cs (total_cost cs0) db2 (set_faults fs w2) _ n db3 w3 ltac:(by rewrite Hcalm) Hd Hcs
    (Z.le_refl _) Hroom Hun) as (m' & Hm' & Hst).
  cbv zeta. by eapply stored_reopens.
Qed.
End theorem.

(** ** Witness *)

#[local] Existing Instances Codec.codec Codec.codec_ok Q_Float64.
#[local] Instance quiet_env : FileLock.Env := FileLock.demo_env 0.

Definition demo_writes : list call :=
  [CPut (demo_key x66) (demo_key x36); CDelete (demo_key x63); CFlush; CPut (demo_key x61) (demo_key x37)].
(** The call [j] of package os fails. *)
Definition demo_faults (j : nat) : list (option nat) := replicate j None ++ [Some 0%nat].

Lemma interrupted_calls_witness :
  exists db w1 db2 w2, Db.Open (F := Q) demo_seed "d" None empty_world = (Ok db, w1) /\
    run_calls (F := Q) demo_seed None demo_calls (db, w1) = (Ok tt, (db2, w2)) /\
    forall n db3 w3, run_until (F := Q) demo_seed None demo_writes (db2, set_faults (demo_faults 12) w2) = (n, (db3, w3)) ->
    reopens (F := Q) demo_seed None 64 (2 * (total_cost demo_calls + total_cost demo_writes)) "d" (killed w3) (fun m' =>
      m' = fold_left call_map (take n demo_writes) demo_map \/ m' = fold_left call_map (take (S n) demo_writes) demo_map).
Proof.
  destruct demo_start as (H1 & H2 & H3 & H4 & H5 & _).
  apply (interrupted_calls demo_seed None 64 demo_calls demo_writes (demo_faults 12) empty_world "d"); try done.
  repeat (constructor; [split; [done|]; unfold call_ok; cbn; repeat split; try done; by repeat constructor|]). constructor.
Defined.

(** The same, computed: how many of the calls succeed, what opening says while the
    lock file is there, and then, after it has been removed: whether a
    MANIFEST.tmp is found, how many tables there are, and what the database
    answers for three keys. *)
Definition demo_recover (j : nat) : option (nat * bool * bool * Z * list (option (list byte))) :=
  match Db.Open (F := Q) demo_seed "d" None empty_world with
  | (Ok db, w) =>
      match run_calls (F := Q) demo_seed None demo_calls (db, w) with
      | (Ok _, (db2, w2)) =>
          let '(n, (db3, w3)) := run_until (F := Q) demo_seed None demo_writes (db2, set_faults (demo_faults j) w2) in
          let locked := match Db.Open (F := Q) demo_seed "d" None (killed w3) with (Err e, _) => bool_decide (e = FileLock.ErrLocked) | _ => false end in
          match Db.Open (F := Q) demo_seed "d" None (unlock "d" (killed w3)) with
          | (Ok db4, w4) =>
              Some (n, locked, bool_decide (is_Some (names w3 !! at_ "d" RTmp)), TableCount db4,
                (fun b => match fst (Db.Get (demo_key b) (db4, w4)) with Ok v => Some (bs v) | _ => None end) <$> [x61; x63; x66])
          | _ => None
          end
      | _ => None
      end
  | _ => None
  end.

(** A failed append; an append whose sync failed, which took effect; a manifest
    that could not be renamed, which leaves MANIFEST.tmp behind; a flush that could
    not write its table; one whose table could not be opened after it had been
    recorded. *)
Example demo_recover_computed : demo_recover <$> [1; 2; 12; 16; 38]%nat =
  [Some (0%nat, true, false, 2, [Some [x33]; Some [x34]; None]); Some (0%nat, true, false, 2, [Some [x33]; Some [x34]; Some [x36]]);
   Some (2%nat, true, true, 2, [Some [x33]; None; Some [x36]]); Some (2%nat, true, false, 2, [Some [x33]; None; Some [x36]]);
   Some (2%nat, true, false, 3, [Some [x33]; None; Some [x36]])].
Proof. by vm_compute. Qed.
