(* ===== verification/DbReopen.v ===== *)
(** * DbReopen: a process killed while it opens or closes a database

    Opening reads the manifest and the tables and recovers the log; closing
    flushes.  A process killed in the middle of either leaves files that can be
    opened, with the same map, once its lock file does not count any more. *)

From Stdlib Require Import ZArith Lia Strings.Byte.
From stdpp Require Import base decidable list gmap strings numbers sorting sets.
From S2P Require Import Prelude Bloom ByteUtil Os OsFacts OsFaults Kill Wal SkipList SSTable SSTableFacts SSTableWriter SSTableSpec Manifest ManifestFacts ManifestProps Faults FileLock Compact CompactProps KillParts Db DbSpec DbFiles DbLedger DbState DbFlush DbRefine DbCompact DbOpen DbCrash.
#[local] Open Scope Z_scope.

(** ** The database's programs *)

Lemma mortal_on_manif {A} (x : M (Manifest.Manifest * World) A) : mortal x -> mortal (on_manif x).
Proof. by apply mortal_zoom. Qed.
Lemma mortal_upd g : mortal (upd g).
Proof. by apply mortal_modify. Qed.
Lemma mortal_db_io {A} (m : M World A) : mortal m -> mortal (Db.io m).
Proof. apply mortal_io. Qed.
Lemma mortal_close_merged rm ts : mortal (close_merged ts rm).
Proof. induction ts as [|t ts IH]; cbn [close_merged]; mortal_tac. Qed.
Lemma mortal_remove_files ps : mortal (remove_files ps).
Proof. induction ps as [|p ps IH]; cbn [remove_files]; mortal_tac. Qed.
#[export] Hint Resolve mortal_on_manif mortal_upd mortal_db_io mortal_close_merged mortal_remove_files : mortal.

Lemma mortal_finish {J : Manifest.Json} {JO : JsonOk J} d ts res : mortal (finish d ts res).
Proof. unfold finish. mortal_tac. Qed.

Lemma mortal_get {A} (g : DB -> A) : mortal (get g).
Proof. by apply mortal_gets. Qed.
Lemma mortal_on_wal {A} (x : M (Wal.Log * World) A) : mortal x -> mortal (on_wal x).
Proof. by apply mortal_zoom. Qed.
Lemma mortal_on_lock {A} (x : M (option FileLock.Lock * World) A) : mortal x -> mortal (on_lock x).
Proof. by apply mortal_zoom. Qed.
#[export] Hint Resolve mortal_get mortal_on_wal mortal_on_lock : mortal.
Lemma mortal_replayWAL : mortal replayWAL.
Proof. apply mortal_zoom; try done. apply mortal_Replay. Qed.
#[export] Hint Resolve mortal_replayWAL : mortal.

Lemma mortal_reader_Close : mortal SSTable.Close.
Proof.
  apply (mortal_ext (r ← gets fst; match rf r with
    | None => mret tt
    | Some f => zoom snd (fun w _ => (mkReader None (rpath r) (rindex r) (rbloom r) (rmaxSeq r) (rentries r) (rminKey r)
        (rmaxKey r) (rfileSize r), w)) (File_Close f)
    end)).
  - intros [r w]. rewrite (M_bind_Ok _ _ _ r (r, w)) by done. unfold SSTable.Close. cbn [fst snd]. by destruct (rf r).
  - apply mortal_bind; [by apply mortal_gets|]. intros r. destruct (rf r) as [f|]; [|auto with mortal]. apply mortal_zoom; auto with mortal.
Qed.
Lemma close_tables_cons t ts first w : close_tables (t :: ts) first w =
  ('(r, t') ← scoped (try_ SSTable.Close) t; '(ts', first) ← close_tables ts (first_err first r); mret (t' :: ts', first)) w.
Proof. cbn [close_tables]. unfold scoped, try_, mbind, M_bind, lift. by destruct (SSTable.Close (t, w)) as [[u|e|q|] [t' w']]. Qed.
Lemma mortal_close_tables ts : forall first, mortal (close_tables ts first).
Proof.
  induction ts as [|t ts IH]; intros first; [apply mortal_ret|]. eapply mortal_ext; [apply close_tables_cons|].
  pose proof mortal_reader_Close. mortal_tac.
Qed.
Lemma disk_close_tables ts : forall first, steps same_disk (close_tables ts first).
Proof.
  induction ts as [|t ts IH]; intros first w; [done|]. rewrite close_tables_cons. revert w.
  match goal with |- forall w, same_disk w (snd (?m w)) => enough (steps same_disk m) as Hm by exact Hm end.
  assert (steps same_disk (scoped (try_ SSTable.Close) t)) as Hc by (apply disk_scoped, (steps_try same_disk); auto with steps). steps_tac.
Qed.
Lemma mortal_open_tables d fs : forall ts, mortal (open_tables d fs ts).
Proof. induction fs as [|f fs IH]; intros ts; cbn [open_tables]; mortal_tac. Qed.
#[export] Hint Resolve mortal_close_tables mortal_open_tables : mortal.
Lemma mortal_openTables : mortal openTables.
Proof. unfold openTables. mortal_tac. Qed.
#[export] Hint Resolve mortal_openTables : mortal.

Section programs.
Context {F : Type} `{Float64 F} {J : Manifest.Json} {JO : JsonOk J} {E : FileLock.Env} {CO : ClockOk E}.

Lemma mortal_flush : mortal (flushLocked (F := F)).
Proof. unfold flushLocked. mortal_tac. Qed.
Hint Resolve mortal_flush : mortal.
Lemma mortal_close : mortal (closeUnlocked (F := F)).
Proof. unfold closeUnlocked. mortal_tac. Qed.
Hint Resolve mortal_close : mortal.
Lemma mortal_release (lk : FileLock.Lock) : mortal (fun w => match FileLock.Release (Some lk, w) with (_, (_, w')) => (Ok tt, w') end).
Proof.
  apply (mortal_ext (fun w => let (_, w') := scoped FileLock.Release (Some lk) w in (Ok tt, w'))).
  - intros w. unfold scoped. by destruct (FileLock.Release (Some lk, w)) as [[u|e|q|] [l w']].
  - apply (mortal_map _ (fun _ => Ok tt)), mortal_scoped, mortal_Release.
Qed.
Hint Resolve mortal_release : mortal.

Context (seed : nat -> Z) (o : option Db.Options).

Lemma mortal_Open d : mortal (Db.Open (F := F) seed d o).
Proof. unfold Db.Open. mortal_tac. Qed.
End programs.

(** ** Closing *)

Section reopen.
Context {TA : TableAccess} {F : Type} `{Float64 F} {J : Manifest.Json} {JO : JsonOk J} {E : FileLock.Env} {CO : ClockOk E}.

Lemma killed_disk w w' : disk w' = disk w -> killed w' = killed w.
Proof. unfold disk, killed. cbn. intros [= -> ->]. done. Qed.

(** The database's lock is that of its directory, and what a dead process would
    leave holds the map. *)
Definition resting (V : Z) (d : string) (m : kvmap) (s : DB * World) : Prop :=
  stored V (killed (snd s)) d m /\ forall l, lock (fst s) = Some l -> FileLock.path l = at_ d RLock.

Section resting.
Context (V : Z) (d : string) (m : kvmap).

Lemma resting_io {A} (x : M World A) : steps same_disk x -> steps (keeping (resting V d m)) (Db.io x).
Proof.
  intros Hx [db w] [Hk Hl]. specialize (Hx w). unfold Db.io, zoom. cbn in *. destruct (x w) as [r w']. cbn in *.
  split; [|done]. cbn. by rewrite (killed_disk w).
Qed.
Lemma resting_wal {A} (x : M (Wal.Log * World) A) : steps same_disk x -> steps (keeping (resting V d m)) (on_wal x).
Proof.
  intros Hx [db w] [Hk Hl]. specialize (Hx (wal db, w)). unfold on_wal, zoom. cbn in *. destruct (x (wal db, w)) as [r [l w']]. cbn in *.
  split; [|done]. cbn. by rewrite (killed_disk w).
Qed.
Lemma resting_get {A} (g : DB -> A) : steps (keeping (resting V d m)) (get g).
Proof. apply (steps_gets (keeping (resting V d m))). Qed.
Lemma resting_upd g : (forall db, lock (g db) = lock db) -> steps (keeping (resting V d m)) (upd g).
Proof. intros Hg. apply steps_modify. intros [db w] [Hk Hl]. split; [done|]. cbn. by rewrite Hg. Qed.

(** Giving the lock up removes its file at most. *)
Lemma stored_Remove w r w' : Remove (at_ d RLock) w = (r, w') -> stored V (killed w) d m -> stored V (killed w') d m.
Proof.
  intros Hrun Hst. apply syscall_cases in Hrun as [(_ & Hs & _)|(w1 & Hs & _ & Hrun)]; [by rewrite (killed_disk w); [|destruct Hs as [Hn Hi]; unfold disk; cbn; rewrite Hn, Hi]|].
  assert (killed w1 = killed w) as Hk by (apply killed_disk; destruct Hs as [Hn Hi]; unfold disk; cbn; by rewrite Hn, Hi).
  rewrite <- Hk in Hst. cbn in Hrun. destruct (names w1 !! at_ d RLock); injection Hrun as _ <-; [|done].
  exact (stored_unlock V (killed w1) d m Hst).
Qed.
(** The lock while it is given up. *)
Definition releases (s : FileLock.Lock * World) : Prop := stored V (killed (snd s)) d m /\ FileLock.path (fst s) = at_ d RLock.
Lemma releases_io {A} (x : M World A) : (forall w r w', x w = (r, w') -> stored V (killed w) d m -> stored V (killed w') d m) ->
  steps (keeping releases) (FileLock.io x).
Proof. intros Hm [l w] [Hw Hp]. unfold FileLock.io, zoom. cbn in *. destruct (x w) as [r w'] eqn:Hr. split; [by eapply Hm|done]. Qed.
Lemma releases_path {A} (g : string -> FileLock.ML A) : steps (keeping releases) (g (at_ d RLock)) ->
  steps (keeping releases) (FileLock.get_l FileLock.path ≫= g).
Proof. intros Hk [l w] [Hw Hp]. cbn in Hp. rewrite (M_bind_Ok _ _ _ (at_ d RLock) (l, w)) by (by rewrite <- Hp). by apply Hk. Qed.

Lemma resting_Release : steps (keeping (resting V d m)) (on_lock FileLock.Release).
Proof.
  intros [db w] [Hk Hl]. cbn [fst snd] in *. unfold on_lock, zoom. cbn [fst snd]. destruct (lock db) as [l|] eqn:Hlk; [|cbn; split; [done|cbn; congruence]].
  unfold FileLock.Release. match goal with |- context [?x (l, w)] => set (body := x) end. enough (steps (keeping releases) body) as Hm.
  { specialize (Hm (l, w) (conj Hk (Hl l eq_refl))). destruct (body (l, w)) as [r [l' w']]. destruct Hm as [Hk' Hp]. split; [done|]. cbn. by intros l0 [= <-]. }
  assert (forall g, (forall l, FileLock.path (g l) = FileLock.path l) -> steps (keeping releases) (FileLock.upd_l g)) as Hu.
  { intros g Hg. apply steps_modify. intros [l0 w0] [H1 H2]. split; [done|]. cbn in *. by rewrite Hg. }
  assert (forall fd, steps (keeping releases) (FileLock.io (File_Close fd))) as Hc.
  { intros fd. apply releases_io. intros w0 r w1 Hr Hst. by rewrite (killed_disk w0); [|apply (same_disk_eq _ _ _ _ (disk_Close fd) Hr)]. }
  assert (steps (keeping releases) (FileLock.io (Remove (at_ d RLock)))) as Hr by (apply releases_io; apply stored_Remove).
  assert (forall A (g : FileLock.Lock -> A), steps (keeping releases) (FileLock.get_l g)) as Hg by (intros; apply (steps_gets (keeping releases))).
  unfold body, FileLock.ML in *. steps_bind_tac; [apply Hg|]. case_match; [steps_tac|]. steps_bind_tac; [apply Hg|].
  steps_bind_tac; [case_match; steps_tac; by apply Hu|]. apply releases_path. steps_tac; by apply Hu.
Qed.
End resting.

(** The rest of [Close] once the memtable has been flushed. *)
Lemma Close_interrupted cap (Hcap : blooms_fit (F := F) cap) V V' db w m r db' w' :
  holds_map V (db, calmed w) m -> 2 * V + 1 <= V' -> room cap V' -> closeUnlocked (F := F) (db, w) = (r, (db', w')) ->
  stored V' (killed w') (Db.dir db) m.
Proof.
  intros Hold HV Hroom Hrun. pose proof (holds_map_open _ _ _ Hold) as Hop. cbn [fst] in Hop.
  unfold closeUnlocked in Hrun. rewrite (M_bind_Ok _ _ _ _ _ (get_run closed db w)), Hop in Hrun.
  rewrite (M_bind_Ok _ _ _ tt (set_closed true db, w)) in Hrun by done.
  rewrite (M_bind_Ok _ _ _ _ _ (get_run (fun db => ReadOnly (opts db)) (set_closed true db) w)) in Hrun.
  rewrite (M_bind_Ok _ _ _ _ _ (get_run (fun db => MemTable.Len (mem db)) (set_closed true db) w)) in Hrun.
  set (b := negb _ && _) in Hrun. clearbody b.
  assert (Hfl: forall r1 s1, (if b then r ← try_ (flushLocked (F := F)); mret (first_err None r) else mret None) (set_closed true db, w) = (r1, s1) ->
    stored V' (killed (snd s1)) (Db.dir db) m /\ lock (fst s1) = lock db).
  { intros r1 s1 H1. destruct b.
    - assert (exists r0, flushLocked (F := F) (set_closed true db, w) = (r0, s1)) as [r0 H0].
      { apply try_bind_inv in H1 as [(a & s2 & H2 & [= _ <-])|(r2 & s2 & H2 & _ & [[e [= _ <-]]| ->])]; by eexists. }
      pose proof (flush_blind true (db, w)) as Hb. unfold set_open in Hb. cbn [fst snd] in Hb. rewrite H0 in Hb.
      pose proof (flush_setup (db, w)) as (_ & _ & Hlk). destruct (flushLocked (db, w)) as [r3 [db3 w3]] eqn:H3. injection Hb as -> ->. cbn [fst snd] in *.
      split; [|exact Hlk]. by eapply flush_interrupted.
    - injection H1 as _ <-. split; [|done]. apply holds_killed. eapply holds_map_mono; [exact Hold|pose proof (holds_map_nonneg _ _ _ Hold); lia|apply Hroom]. }
  apply bind_inv in Hrun as [(first & s1 & H1 & Hrun)|(r1 & H1 & _)]; destruct (Hfl _ _ H1) as [Hst Hlk]; [|exact Hst]. clear Hfl H1.
  assert (resting V' (Db.dir db) m s1) as Hres.
  { split; [done|]. destruct Hold as (ess & n & os & i & B & _). destruct (ba_lock _ _ _ _ _ _ B) as (lk & g & j & c & H1 & _ & _ & H2 & _).
    cbn [fst snd] in H1, H2. intros l Hl. rewrite Hlk, H1 in Hl. by injection Hl as <-. }
  match type of Hrun with ?x s1 = _ => enough (steps (keeping (resting V' (Db.dir db) m)) x) as Hk end.
  { specialize (Hk s1 Hres). rewrite Hrun in Hk. apply Hk. }
  pose proof (fun A => resting_get V' (Db.dir db) m (A := A)) as Hg. pose proof (resting_Release V' (Db.dir db) m) as Hr. clear Hrun Hres.
  pose proof (resting_upd V' (Db.dir db) m) as Hu.
  assert (steps (keeping (resting V' (Db.dir db) m)) (on_wal Wal.Close)) as Hw by (apply resting_wal; auto with steps).
  assert (forall ts f, steps (keeping (resting V' (Db.dir db) m)) (Db.io (close_tables ts f))) as Ht by (intros; apply resting_io, disk_close_tables).
  steps_tac.
Qed.

(** ** Opening *)

Lemma disk_open_tables d fs : forall ts, steps same_disk (open_tables d fs ts).
Proof. induction fs as [|f fs IH]; intros ts; cbn [open_tables]; steps_tac. Qed.
Lemma disk_openTables : steps same_disk openTables.
Proof.
  pose proof disk_open_tables as Ho. unfold openTables, Db.io, get, upd.
  repeat steps_bind_tac; try apply (steps_gets same_disk); [apply disk_io, Ho|by apply disk_modify].
Qed.
Lemma disk_replayWAL : steps same_disk replayWAL.
Proof. apply disk_zoom; [done..|]. apply disk_Replay. Qed.

(** A manifest that is there is only read. *)
Lemma manifest_Open_disk d i w r w' : names w !! at_ d RManifest = Some i -> Manifest.Open d w = (r, w') -> disk w' = disk w.
Proof.
  intros Hi Hrun. unfold Manifest.Open in Hrun. cbv zeta in Hrun. change (filepath_Join d Manifest.fileName) with (at_ d RManifest) in Hrun.
  apply bind_inv in Hrun as [(u & w1 & H1 & Hrun)|(r1 & H1 & _)]; apply (same_disk_eq _ _ _ _ (disk_MkdirAll d)) in H1; [|done].
  rewrite <- H1. assert (names w1 !! at_ d RManifest = Some i) as Hi1 by (revert H1; unfold disk; cbn; by intros [= -> _]). clear w H1 Hi.
  unfold mbind at 1, M_bind at 1, try_ in Hrun. destruct (ReadFile (at_ d RManifest) w1) as [r2 w2] eqn:H2.
  pose proof (same_disk_eq _ _ _ _ (disk_ReadFile (at_ d RManifest)) H2) as Hd. rewrite <- Hd. destruct r2 as [b|e|p|]; [..|by injection Hrun as _ <-|by injection Hrun as _ <-].
  - apply bind_inv in Hrun as [(x & w3 & [= _ <-] & Hrun)|(r3 & [= _ ->] & _)]; [|done].
    apply bind_inv in Hrun as [(y & w4 & [= _ <-] & [= _ <-])|(r4 & [= _ ->] & _)]; done.
  - enough (e = io_error) as -> by by injection Hrun as _ <-.
    apply syscall_cases in H2 as [([= ->] & _)|(w3 & [Hn _] & _ & Hx)]; [done|]. cbn in Hx. by rewrite Hn, Hi1 in Hx.
Qed.

Context (seed : nat -> Z).
#[local] Hint Resolve mortal_close mortal_release : mortal.

(** The rest of [Open] once the log has been read. *)
Lemma mortal_open_rest o lk mf l : mortal (open_rest (F := F) seed o lk mf l).
Proof. unfold open_rest. cbv zeta. mortal_tac. Qed.

Lemma open_rest_survives (Q : World -> Prop) (HQ : forall w w', disk w' = disk w -> Q w -> Q w') V o lk mf l w ess n os i m :
  directory w mf ess i -> ledger V (Manifest.state mf) ess n os -> contents (all_entries ess n os) m ->
  Wal.log_on (l, w) i (Wal.log_bytes n os) -> Wal.nextSeq l = Wal.last_seq 0 n os ->
  owns_lock w (Wal.f l) i (Manifest.dir mf) [] (Some lk) -> Q w -> surviving Q (open_rest (F := F) seed o lk mf l) w.
Proof.
  intros D L Hcon Hon Hseq Hlk Hw. destruct (dr_calm _ _ _ _ D) as [Hc _].
  destruct (open_steps seed V o lk mf l w ess n os i m D L Hcon Hon Hseq Hlk) as (l1 & db1 & mt & w1 & H1 & H2 & H3 & Hc1 & _).
  cbv zeta in *. unfold open_rest. cbv zeta. apply (surviving_step Q _ _ w (tt, l1) w); [exact H1|]. cbv beta iota. set (db := mkDB _ _ _ _ _ _ _ _) in *.
  assert (forall s s' : DB * World, disk s' = disk s -> Q (snd s) -> Q (snd s')) as HQ2 by (intros s s'; apply HQ).
  assert (Q w1) as Hw1 by by apply (HQ2 (db, w) (db1, w1)), Hw; apply (same_disk_eq _ _ _ _ disk_openTables H2).
  apply (surviving_bind Q HQ); [mortal_tac|intros [? ?]; mortal_tac| |].
  - apply surviving_scoped.
    apply (surviving_run _ HQ2 _ _ _ (inl tt) (db1, w1)); [mortal_tac|intros [?|?]; mortal_tac| |
      apply reading_survives; [done|apply (steps_try same_disk), disk_openTables|done]|].
    { change (sched [] (db, w)) with (db, calmed w). rewrite calmed_calm by done. by apply try_Ok. }
    apply (surviving_run _ HQ2 _ _ _ (inl tt) (set_mem mt db1, w1)); [mortal_tac|intros [?|?]; mortal_tac| |
      apply reading_survives; [done|apply (steps_try same_disk), disk_replayWAL|done]|].
    { change (sched [] (db1, w1)) with (db1, calmed w1). rewrite calmed_calm by done. by apply try_Ok. }
    apply reading_survives; [done|apply (steps_ret same_disk)|done].
  - intros [[] db2] w2 Hrun. change (sched [] w) with (calmed w) in Hrun. rewrite calmed_calm in Hrun by done.
    rewrite (scoped_Ok _ _ _ tt (set_mem mt db1) w1) in Hrun.
    + injection Hrun as _ <-. apply reading_survives; [done|apply (steps_ret same_disk)|done].
    + rewrite (M_bind_Ok _ _ _ _ _ (try_Ok _ _ _ _ H2)). by rewrite (M_bind_Ok _ _ _ _ _ (try_Ok _ _ _ _ H3)).
Qed.

(** A process killed while it opens a directory leaves what it found. *)
Lemma Open_survives V w d o m : stored V w d m -> vacant d w -> d <> ""%string ->
  surviving (fun w' => stored V (killed w') d m) (Db.Open (F := F) seed d o) w.
Proof.
  intros (mf & ess & n & os & i & junk & [D <- L Hlog Htorn Hlen Hcon]) Hnl Hd. set (d := Manifest.dir mf) in *.
  pose proof (dr_calm _ _ _ _ D) as [Hc Hn]. destruct (lg_log _ _ _ _ _ L) as [Hn0 Hok].
  set (Q := fun w' => stored V (killed w') d m).
  assert (forall w w', disk w' = disk w -> Q w -> Q w') as HQ by (intros w1 w2 Heq; unfold Q; by rewrite (killed_disk w1 w2 Heq)).
  assert (Hlost: forall w', within [at_ d RLock] w w' -> Q w').
  { intros w' Hw. apply (killed_rest V [at_ d RLock] w w' d m mf ess n os i junk); try done.
    - apply Forall_singleton. left. by right.
    - apply (spares_more _ [at_ d RLock]); [done|]. by apply (within_spares _ _ (at_ d RLock)); [left|].
    - by apply (wi_grows _ _ _ Hw). }
  unfold Db.Open. cbv zeta. rewrite (proj2 (String.eqb_neq _ _)) by done.
  apply (surviving_run Q HQ _ _ _ tt w); [mortal_tac|intros ?; mortal_tac| |apply reading_survives; [done|auto with steps|by apply Hlost]|].
  { change (sched [] w) with (calmed w). rewrite calmed_calm by done. unfold MkdirAll. by rewrite syscall_calm. }
  destruct (lock_run w d Hc Hn Hd Hnl) as (lk & w1 & Hacq & Hc1 & Hn1 & G1 & Hnm1 & Hh & Hf & Hp & c & Hfile).
  assert (Hacqs: forall fs r w', FileLock.Acquire 1 d None (set_faults fs w) = (r, w') -> Q w').
  { intros fs r w' Hr. apply Hlost. etrans; [apply (within_faults _ w fs)|]. by apply Acquire_within in Hr. }
  assert (Q w1) as Hw1 by by apply (Hacqs (faults w) (Ok lk)); destruct w.
  apply (surviving_run Q HQ _ _ _ lk w1); [mortal_tac|intros ?; mortal_tac| | |].
  { change (sched [] w) with (calmed w). by rewrite calmed_calm. }
  { apply tolerating_surviving. intros fs. destruct (FileLock.Acquire 1 d None (sched fs w)) as [r w'] eqn:Hr. by apply (Hacqs _ _ _ Hr). }
  assert (directory w1 mf ess i) as D1 by by eapply (directory_new w w1 mf ess i RLock D Hc1 Hn1 G1); auto.
  apply (surviving_run Q HQ _ _ _ (inl mf) w1); [mortal_tac|intros [?|?]; mortal_tac| | |].
  { change (sched [] w1) with (calmed w1). rewrite calmed_calm by done. by apply try_Ok, (open_manifest V w1 mf ess n os i). }
  { apply surviving_try, tolerating_surviving. intros fs. destruct (Manifest.Open d (sched fs w1)) as [r w'] eqn:Hr.
    destruct (dr_disk _ _ _ _ D1) as (j & Hj & _). rewrite (dr_path _ _ _ _ D1) in Hj. eapply HQ, Hw1. by apply (manifest_Open_disk d j (set_faults fs w1) _ _ Hj) in Hr. }
  destruct (open_log V o w1 mf ess n os i junk lk _ _ c D1 L ltac:(by apply G1) Htorn Hlen Hfile) as (l & w2 & Hwal & D2 & Hon & Hseq & Hown); try done.
  { intros Heq. by apply (own_fresh _ _ _ _ D). }
  { by rewrite Hnm1, lookup_insert_eq. }
  assert (Hcut: forall w' w3, directory w' mf ess i -> spares (at_ d RTmp) [] (Some i) w' w3 -> inodes w3 !! i = Some (Wal.log_bytes n os) -> Q w3).
  { intros w' w3 D' Hs Hi. by apply (killed_stored V [] w' w3 d mf ess n os i m). }
  apply (surviving_run Q HQ _ _ _ (inl l) w2); [mortal_tac|intros [?|?]; mortal_tac| | |].
  { change (sched [] w1) with (calmed w1). rewrite calmed_calm by done. by apply try_Ok. }
  { assert (inodes w1 !! i = Some (Wal.log_bytes n os ++ junk)) as Hi1 by by apply G1.
    apply surviving_try, (wal_Open_survives Q HQ d i n os junk); try done; [rewrite wal_name; apply (dr_log _ _ _ _ D1)|].
    apply (Hcut w1); [done| |cbn; apply list_lookup_insert_eq; by eapply lookup_lt_Some].
    intros Hok1. split; cbn; [unfold names_ok; cbn; by rewrite length_insert|done|by intros p q j ?%not_elem_of_nil|].
    intros p j b _ _ _ _ Hj. rewrite list_lookup_insert_ne; [done|congruence]. }
  apply (open_rest_survives Q HQ V (Db.normalize o) lk mf l w2 ess n os i m); try done.
  apply (Hcut w2); [done|done|]. by destruct Hon as (_ & _ & [_ Hi] & _).
Qed.
End reopen.
