(* ===== verification/DbKill.v ===== *)
(** * DbKill: a process killed at any call

    A process that uses a database is killed at a call of package os, in the
    middle of any method, a compaction included, or while it opens the
    directory.  The files it leaves, its lock file among them, can be opened as soon as
    that lock file is stale or removed, and hold the map from before the method or
    after it; so a database survives any number of kills. *)

From Stdlib Require Import ZArith Lia QArith Strings.Byte.
From stdpp Require Import base decidable list gmap strings numbers sorting sets.
From S2P Require Import Prelude Bloom ByteUtil Os OsFacts OsFaults Kill Wal SkipList SSTable SSTableFacts SSTableWriter SSTableProps SSTableSpec Manifest ManifestFacts ManifestProps Faults FileLock Compact CompactProps KillParts Db DbSpec DbFiles DbLedger DbState DbFlush DbRefine DbCompact DbOpen DbRun DbCrash DbReopen.
#[local] Open Scope Z_scope.

(** ** A compaction *)

Section compact.
Context {TA : TableAccess} {F : Type} `{Float64 F} {J : Manifest.Json} {JO : JsonOk J} {E : FileLock.Env}.
Context (cap : Z) (Hcap : blooms_fit (F := F) cap).

(** What the process leaves holds the map [m]. *)
Definition leaves (V : Z) (d : string) (m : kvmap) (s : DB * World) : Prop := stored V (killed (snd s)) d m.
Lemma leaves_disk V d m s s' : disk s' = disk s -> leaves V d m s -> leaves V d m s'.
Proof. unfold leaves, killed, disk. cbn. intros [= -> ->]. done. Qed.

(** The choice of inputs and the allocation of a name, then the merge. *)
Lemma CompactDir_leaves V V' db w m refs o r mf w' :
  holds_map V (db, calmed w) m -> V + 1 <= V' -> room cap V' ->
  CompactDir (F := F) (Db.dir db) refs Manifest.AllocFileName o (manif db, w) = (r, (mf, w')) ->
  stored V' (killed w') (Db.dir db) m.
Proof.
  intros Hold HV Hroom Hrun. pose proof Hold as (ess & n & os & i & B & _ & Hcon). destruct (Hroom) as [HV1 _].
  pose proof (ba_dir _ _ _ _ _ _ B) as D. cbn [fst snd] in D. pose proof (dir_tmp _ _ _ _ D) as Htmp.
  destruct (dr_calm _ _ _ _ D) as [_ Hokw]. set (t := at_ (Db.dir db) RTmp). pose proof (ba_same _ _ _ _ _ _ B) as Hsame. cbn [fst] in Hsame.
  assert (Hlost: forall w2, spares t [t] None w w2 -> stored V' (killed w2) (Db.dir db) m).
  { intros w2 Hw. destruct (holds_map_mono V V' _ _ Hold ltac:(lia) HV1) as (ess' & n' & os' & i' & B' & _ & Hcon').
    eapply base_within; [exact B'|exact Hcon'| |exact Hw]. unfold t. rewrite Hsame. apply idle_tmp. }
  unfold CompactDir in Hrun. cbv zeta in Hrun.
  apply bind_inv in Hrun as [(inputs & s1 & H1 & Hrun)|(r1 & H1 & _)].
  2: { apply Hlost. enough (w' = w) as -> by done. revert H1. clear. repeat case_match; by intros [= _ _ <-]. }
  assert (s1 = (manif db, w)) as -> by (revert H1; clear; repeat case_match; by intros [= _ <-]). clear H1.
  destruct (alloc_run cap V V' db (calmed w) ess n os i B HV Hroom) as (mf1 & W1 & Halloc & B1 & Hnf & Hk & Hfs & Hls & Hdir1 & Hnone).
  set (k := Manifest.NextFile (Manifest.state (manif db))) in *.
  apply bind_inv in Hrun as [(name & [mf2 w1] & H1 & Hrun)|(r1 & H1 & Hr1 & _)].
  2: { apply Hlost, aside_spares; [by left|]. unfold t. rewrite Hsame, <- Htmp. by eapply AllocFileName_aside. }
  apply follows_AllocFileName in H1. unfold calmed2 in H1. cbn [fst snd] in H1. rewrite Halloc in H1. injection H1 as <- <- ->.
  change (filepath_Join (Db.dir db) (table_name k)) with (at_ (Db.dir db) (RTable k)) in Hrun. set (out := at_ (Db.dir db) (RTable k)) in *.
  assert (Hgood: forall w2, within [out] w1 w2 -> stored V' (killed w2) (Db.dir db) m).
  { intros w2 Hw. apply (base_within V' (set_manif mf1 db) w1 w2 ess n os i m [out] B1 Hcon); [|by apply (within_spares _ _ out); [left|]]. apply Forall_singleton. right.
    pose proof (ba_same _ _ _ _ _ _ B1) as Hd. cbn [fst set_manif manif] in Hd |- *. change (Db.dir db = Manifest.dir mf1) in Hd.
    exists k. rewrite <- Hd. split; [lia|]. split; [done|]. rewrite Hfs. intros f Hf Heq.
    destruct (named_below_in _ _ _ (dr_numbered _ _ _ _ D) Hf) as (q & Hq & Hlt). unfold table_path in Heq. rewrite Hq in Heq.
    apply (at_inj _ (RTable q) (RTable k)) in Heq; [injection Heq as ->; lia|cbn; lia..]. }
  apply try_bind_inv in Hrun as [(res & s2 & (w2 & -> & H2)%io_inv & [= _ _ <-])|(r2 & s2 & (w2 & -> & H2)%io_inv & _ & Hrun)];
    apply (MergeFiles_within out w1 Hnone) in H2; try done; [by apply Hgood|].
  apply Hgood. destruct Hrun as [[e Hrun]|[= _ ->]]; [|done]. etrans; [exact H2|].
  apply bind_inv in Hrun as [(x & s4 & Hx & [= _ ->])|(x & Hx & _)]; apply try_inv in Hx as [x0 (w4 & [= _ ->] & H4)%io_inv];
    by apply within_Remove in H4.
Qed.

(** Closing readers touches no file. *)
Lemma close_merged_disk rm ts : forall w r w', close_merged ts rm w = (r, w') -> disk w' = disk w.
Proof.
  assert (Hc: forall t w r w', close_reader t w = (r, w') -> disk w' = disk w).
  { intros t w r w'. unfold close_reader, SSTable.Close. cbn. destruct (rf t) as [f|]; [|by intros [= _ <-]].
    destruct (File_Close f w) as [r1 w1] eqn:Hcl. intros [= _ <-]. apply Close_same in Hcl as [-> ->]. done. }
  induction ts as [|t ts IH]; intros w r w' Hrun; cbn [close_merged] in Hrun; [by injection Hrun as _ <-|].
  case_match; cbv beta in Hrun.
  - apply bind_inv in Hrun as [(t' & w1 & H1 & Hrun)|(r1 & H1 & _)]; apply Hc in H1; [|done].
    apply bind_inv in Hrun as [([[ts' rm'] kept'] & w2 & H2 & [= _ <-])|(r2 & H2 & _)]; apply IH in H2; congruence.
  - apply bind_inv in Hrun as [([[ts' rm'] kept'] & w2 & H2 & [= _ <-])|(r2 & H2 & _)]; apply IH in H2; congruence.
Qed.

(** Removing files changes no other name. *)
Lemma remove_files_spares t qs ps : forall w r w', ps ⊆ qs -> remove_files ps w = (r, w') -> spares t qs None w w'.
Proof.
  induction ps as [|p ps IH]; intros w r w' Hps Hrun; cbn [remove_files] in Hrun; [by injection Hrun as _ <-|].
  assert (Hr: forall x w1, try_ (Remove p) w = (x, w1) -> spares t qs None w w1).
  { intros x w1 Hx. apply try_inv in Hx as [r0 H0]. apply within_Remove in H0. apply (within_spares _ _ p); [set_solver|done]. }
  apply bind_inv in Hrun as [(x & w1 & H1 & Hrun)|(r1 & H1 & _)]; apply Hr in H1; [|done].
  etrans; [exact H1|]. eapply IH; [set_solver|exact Hrun].
Qed.

(** The merged tables are named no more. *)
Lemma merged_idle mf fs b k fm : named_below k fs -> 0 <= k < Manifest.NextFile (Manifest.state mf) -> k < 2 ^ 64 -> NoDup (Manifest.Name <$> fs) -> length b = length fs ->
  Manifest.files (Manifest.state mf) = mask (negb <$> b) fs ++ [fm] -> Manifest.Name fm = table_name k ->
  Forall (idle mf) (mask b (table_path (Manifest.dir mf) <$> fs)).
Proof.
  intros Hn Hk Hk2 Hnd Hb Hfs Hfm. apply Forall_forall. intros p Hp. destruct (merged_path _ _ _ _ _ Hn Hp) as (f & j & Hf & Hp1 & Hp2 & Hj & Hlt).
  right. exists j. split; [lia|]. split; [done|]. intros f' Hf'. rewrite Hp1. intros Heq%join_inj.
  rewrite Hfs in Hf'. apply elem_of_app in Hf' as [Hf'|Hf']; [by apply (mask_apart Manifest.Name _ b f f' Hnd Hb Hf Hf')|].
  apply list_elem_of_singleton in Hf' as ->. rewrite Hj, Hfm in Heq. apply table_name_inj in Heq; lia.
Qed.

Lemma tolerating_io Q {A} (x : M World A) db w :
  (forall fs r w', x (set_faults fs w) = (r, w') -> Q (db, w')) -> tolerating Q (Db.io x) (db, w).
Proof. intros Hx fs. unfold Db.io, zoom. cbn. destruct (x (set_faults fs w)) as [r w'] eqn:Heq. by eapply Hx. Qed.
Lemma tolerating_manif Q {A} (x : M (Manifest.Manifest * World) A) db w :
  (forall fs r mf w', x (manif db, set_faults fs w) = (r, (mf, w')) -> Q (set_manif mf db, w')) -> tolerating Q (on_manif x) (db, w).
Proof. intros Hx fs. unfold on_manif, zoom. cbn. destruct (x (manif db, set_faults fs w)) as [r [mf w']] eqn:Heq. by eapply Hx. Qed.

Lemma tolerating_upd V d m {A} (x : MD A) g s : tolerating (leaves V d m) x s -> tolerating (leaves V d m) (x;; upd g) s.
Proof.
  intros Hx fs. specialize (Hx fs). unfold mbind, M_bind. by destruct (x (sched fs s)) as [[a|e|p|] s'].
Qed.

(** An open database whose manifest is being replaced leaves its map. *)
Lemma base_leaves V db w ess n os i m (x : DB) w0 w' (t := at_ (Db.dir db) RTmp) :
  base V (db, w) ess n os i -> contents (all_entries ess n os) m -> disk w0 = disk w -> spares t [t] None w0 w' ->
  leaves V (Db.dir db) m (x, w').
Proof.
  intros B Hcon [= Hn0 Hi0] Hw. pose proof (ba_dir _ _ _ _ _ _ B) as D. pose proof (ba_same _ _ _ _ _ _ B) as Hd. cbn [fst snd] in D, Hd.
  destruct (ba_log _ _ _ _ _ _ B) as (_ & _ & [_ Hlog] & _). cbn [fst snd] in Hlog.
  apply (killed_spared V [t] w w' (Db.dir db) (manif db) ess n os i m); try done.
  - unfold t. rewrite Hd. apply idle_tmp.
  - transitivity w0; [by apply same_spares|done].
  - apply (ba_ledger _ _ _ _ _ _ B).
Qed.

Lemma finish_survives V V'  db mf1 w1 ess n os i b es meta cnt dropped m
    (out := at_ (Db.dir db) (RTable (Manifest.NextFile (Manifest.state (manif db)))))
    (res := mkResult out meta (mask b (SSTable.Path <$> tables db)) cnt dropped) :
  ledger V (Manifest.state (manif db)) ess n os -> numbered (Manifest.state (manif db)) ->
  contents (all_entries ess n os) m -> V + 1 <= V' -> room cap V' -> merge_done V' db mf1 w1 ess n os i b es meta ->
  surviving (leaves V' (Db.dir db) m) (finish (Db.dir db) (tables db) res) (set_manif mf1 db, w1).
Proof.
  intros L Hnum Hcon HV Hroom Hd. pose proof Hd as [B Hnf Hk Hfs Hls Hb _ Hseq Hent _ _].
  destruct (finish_steps cap V V' db mf1 w1 ess n os i b es meta m L Hnum Hcon HV Hroom Hd) as (ts' & w2 & r & w3 & mf & w4 &
    (Hclose & Hc2 & Hnm2 & Hi2 & _ & _) & (Hopen & D3 & _ & _ & G3 & Hnm3 & Hin3 & _) &
    (Hrep & S4 & D4 & L4 & Hcon4 & Hdir4 & Hfs4) & Hpaths & Hbf & Hndf).
  set (d := Db.dir db) in *. set (k := Manifest.NextFile (Manifest.state (manif db))) in *. set (nb := negb <$> b) in *.
  pose proof (ba_log _ _ _ _ _ _ B) as (Hc1 & _ & [_ Hlog] & _). cbn [fst snd] in Hc1, Hlog.
  pose proof (ba_same _ _ _ _ _ _ B) as Hd1. change (d = Manifest.dir mf1) in Hd1.
  pose proof (ba_ledger _ _ _ _ _ _ B) as L1. cbn [fst set_manif manif] in L1.
  set (t := at_ d RTmp). assert (Hbefore: forall (x : DB) w0 w, disk w0 = disk w1 -> spares t [t] None w0 w -> leaves V' d m (x, w)).
  { intros x w0 w Hdisk Hw. by apply (base_leaves V' (set_manif mf1 db) w1 ess n os i m x w0 w B). }
  assert (Hafter: forall (x : DB) w, spares t (mask b (SSTable.Path <$> tables db)) None w4 w -> leaves V' d m (x, w)).
  { intros x w Hw. apply (killed_spared V' (mask b (SSTable.Path <$> tables db)) w4 w d mf (mask nb ess ++ [es]) n os i m D4); try done.
    - rewrite Hpaths, <- Hdir4. eapply merged_idle; try done; [|lia].
      destruct (named_below_in _ _ (Manifest.mkFileMeta (table_name k) 1 (Clone (SSTable.MinKey meta)) (Clone (SSTable.MaxKey meta))
        (max_seq es) (len es) (mFileSize meta)) (dr_numbered _ _ _ _ D4)) as (j & Hj & Hlt); [rewrite Hfs4; apply elem_of_app; right; by left|].
      pose proof (so_next _ (sn_state _ _ (dr_sound _ _ _ _ D4))). apply table_name_inj in Hj; lia.
    - apply (st_files _ _ _ S4 (at_ d RLog)); [apply (apart_manifest _ _ _ _ _ _ _ B)| |by rewrite Hin3, Hi2].
      rewrite Hd1. apply (dr_log _ _ _ _ D3). }
  unfold finish. subst res. cbn [Removed OutputPath rMeta]. set (paths := mask b (SSTable.Path <$> tables db)) in *.
  apply (surviving_bind _ (leaves_disk V' d m)); [auto with mortal|intros [[? ?] ?]; mortal_tac| |].
  { apply tolerating_surviving, tolerating_io. intros fs r0 w' Hrun%close_merged_disk. by apply (Hbefore _ w'). }
  intros a s1 Hrun. change (sched [] (set_manif mf1 db, w1)) with (set_manif mf1 db, calmed w1) in Hrun. rewrite calmed_calm in Hrun by done.
  rewrite (db_io_run _ _ w1 _ _ Hclose) in Hrun. injection Hrun as <- <-.
  set (db2 := set_tables ts' (set_manif mf1 db)). apply (surviving_step _ _ _ _ tt (db2, w2)); [done|].
  apply (surviving_bind _ (leaves_disk V' d m)); [auto with mortal|intros ?; mortal_tac| |].
  { apply tolerating_surviving, tolerating_io. intros fs r0 w' Hrun%SSTable_Open_within. apply (Hbefore _ (set_faults fs w2)); [cbn; by rewrite Hnm2, Hi2|by apply within_nil_spares]. }
  intros a s1 Hrun. change (sched [] (db2, w2)) with (db2, calmed w2) in Hrun. rewrite calmed_calm in Hrun by done.
  rewrite (db_io_run _ _ w2 _ _ Hopen) in Hrun. injection Hrun as <- <-. cbv zeta. cbn [on_manif].
  unfold out. change (at_ d (RTable k)) with (filepath_Join d (table_name k)). rewrite Base_table, Hseq, Hent.
  destruct (dr_calm _ _ _ _ D3) as [Hc3 Hn3].
  apply (surviving_bind _ (leaves_disk V' d m)); [auto with mortal|intros ?; mortal_tac| |].
  { apply tolerating_surviving, tolerating_manif. intros fs r0 mf0 w' Hrun. change (manif db2) with mf1 in Hrun.
    assert (r0 = Ok tt \/ r0 <> Ok tt) as [-> | Hr0] by (destruct r0 as [[]|e|q|]; [by left|by right..]).
    - apply follows_Replace in Hrun. unfold calmed2 in Hrun. cbn [fst snd] in Hrun. change (calmed (set_faults fs w3)) with (calmed w3) in Hrun.
      rewrite (calmed_calm w3), Hrep in Hrun by done. injection Hrun as <- Hw'. apply Hafter. rewrite Hw'. by apply same_spares.
    - pose proof (dir_tmp _ _ _ _ D3) as Htmp.
      apply Replace_aside in Hrun; [|exact Hn3|done]. rewrite Htmp, <- Hd1 in Hrun. apply (Hbefore _ (set_faults fs w3)); [|apply aside_spares; [by left|exact Hrun]].
      cbn. by rewrite Hnm3, Hnm2, Hin3, Hi2. }
  intros a s1 Hrun. change (sched [] (db2, w3)) with (db2, calmed w3) in Hrun. rewrite calmed_calm in Hrun by done.
  rewrite (on_manif_run _ db2 w3 _ _ _ Hrep) in Hrun. injection Hrun as <- <-.
  apply tolerating_surviving, tolerating_upd, tolerating_io. intros fs r0 w' Hr. apply Hafter. transitivity (set_faults fs w4); [by apply same_spares|].
  eapply remove_files_spares, Hr. intros p Hp. by apply elem_of_remove_dups.
Qed.

Lemma Compact_survives V V' db w m :
  holds_map V (db, w) m -> ReadOnly (opts db) = false -> V + 1 <= V' -> room cap V' ->
  surviving (leaves V' (Db.dir db) m) (Db.Compact (F := F)) (db, w).
Proof.
  intros Hold Hro HV Hroom. pose proof (holds_map_open _ _ _ Hold) as Hop. cbn [fst] in Hop.
  assert (calm w) as Hc. { destruct Hold as (ess & n & os & i & B & _). apply (base_calm _ _ _ _ _ _ B). }
  assert (forall w', disk w' = disk w -> leaves V' (Db.dir db) m (db, w')) as Hsame.
  { intros w' Hd. apply (leaves_disk _ _ _ (db, w)); [exact Hd|]. apply holds_killed. rewrite calmed_calm by done.
    eapply holds_map_mono; [exact Hold|lia|apply Hroom]. }
  set (fps := fold_left (fun m f => <[filepath_Join (Db.dir db) (Manifest.Name f) := f]> m) (Manifest.Files (manif db)) (∅ : gmap string Manifest.FileMeta)).
  set (refs := file_ref fps <$> tables db).
  destruct (decide (len (tables db) < CompactThreshold (opts db))) as [Hlt|Hge].
  { apply tolerating_surviving. intros fs. change (sched fs (db, w)) with (db, set_faults fs w). unfold Db.Compact. rewrite writable_run by done.
    rewrite (M_bind_Ok _ _ _ _ _ (get_run tables db _)), (M_bind_Ok _ _ _ _ _ (get_run (fun db => CompactThreshold (opts db)) db _)).
    rewrite (proj2 (Z.ltb_lt _ _)) by done. by apply Hsame. }
  apply (surviving_ext _ _ (res ← try_ (on_manif (CompactDir (F := F) (Db.dir db) refs Manifest.AllocFileName (Some (Compact.mkOptions false 0 0))));
    match res with
    | inr e => if bool_decide (e = Compact.ErrNoInputs) then mret tt else throw e
    | inl res => finish (Db.dir db) (tables db) res
    end)).
  { intros fs. change (sched fs (db, w)) with (db, set_faults fs w). unfold Db.Compact. rewrite writable_run by done.
    rewrite (M_bind_Ok _ _ _ _ _ (get_run tables db _)), (M_bind_Ok _ _ _ _ _ (get_run (fun db => CompactThreshold (opts db)) db _)).
    by rewrite (proj2 (Z.ltb_ge _ _)) by lia. }
  apply (surviving_bind _ (leaves_disk V' (Db.dir db) m)).
  - apply mortal_try, mortal_on_manif, mortal_CompactDir, mortal_AllocFileName.
  - intros [res|e]; [apply mortal_finish|case_bool_decide; auto with mortal].
  - apply tolerating_surviving. intros fs. unfold try_, on_manif, zoom. cbn. destruct (CompactDir _ _ _ _ _) as [r [mf w']] eqn:Hrun.
    assert (leaves V' (Db.dir db) m (db, w')) as Hl.
    { eapply (CompactDir_leaves V V' db (set_faults fs w)); [|done|done|exact Hrun]. change (calmed (set_faults fs w)) with (calmed w). by rewrite calmed_calm. }
    by destruct r.
  - intros a s1 Hrun. change (sched [] (db, w)) with (db, calmed w) in Hrun. rewrite calmed_calm in Hrun by done.
    assert (length refs = length (tables db)) as Hlr by apply length_fmap.
    destruct (decide (length (tables db) < 2)%nat) as [Hfew|Hmany].
    { unfold try_, on_manif, zoom in Hrun. cbn [fst snd] in Hrun. rewrite CompactDir_few in Hrun by lia. injection Hrun as <- <-.
      rewrite bool_decide_true by done. apply tolerating_surviving. intros fs. by apply Hsame. }
    pose proof Hold as (ess & n & os & i & B & _ & Hcon).
    destruct (merge_run cap Hcap V V' db w ess n os i refs B HV Hroom ltac:(lia)) as (b & es & meta & cnt & dropped & mf1 & w2 & Hm & _ & Hd).
    { unfold refs. by rewrite <- list_fmap_compose. }
    rewrite (try_Ok _ _ _ _ (on_manif_run _ db w _ _ _ Hm)) in Hrun. injection Hrun as <- <-.
    eapply finish_survives; try done; [exact (ba_ledger _ _ _ _ _ _ B)|exact (dr_numbered _ _ _ _ (ba_dir _ _ _ _ _ _ B))].
Qed.
End compact.

(** ** Calls *)

Section calls.
Context {TA : TableAccess} {F : Type} `{Float64 F} {J : Manifest.Json} {JO : JsonOk J} {E : FileLock.Env} {CO : ClockOk E}.
Context (seed : nat -> Z) (o : option Db.Options) (cap : Z) (Hcap : blooms_fit (F := F) cap) (Hro : ReadOnly (Db.normalize o) = false).

Lemma reopen_survives V V' db w m : holds_map V (db, w) m -> 2 * V + 1 <= V' -> room cap V' -> Db.dir db <> ""%string ->
  surviving (leaves V' (Db.dir db) m) (reopen (F := F) seed o) (db, w).
Proof.
  intros Hm HV Hroom Hd. pose proof (holds_map_nonneg _ _ _ Hm) as H0. set (d := Db.dir db) in *.
  assert (calm w) as Hcw. { destruct Hm as (ess & n & os & i & B & _). apply (base_calm _ _ _ _ _ _ B). }
  unfold reopen. apply (surviving_step _ _ _ _ d (db, w)); [done|].
  destruct (Close_run cap V V' db w m Hcap Hm ltac:(lia) Hroom) as (db1 & w1 & Hclose & Hst & _ & Hlk). fold d in Hst, Hlk.
  pose proof (stored_calm _ _ _ _ Hst) as Hc1.
  apply (surviving_run _ (leaves_disk V' d m) _ _ _ tt (db1, w1)); [apply mortal_close|intros ?; pose proof mortal_Open; mortal_tac| | |].
  { change (sched [] (db, w)) with (db, calmed w). by rewrite calmed_calm. }
  { apply tolerating_surviving. intros fs. destruct (Db.Close (sched fs (db, w))) as [r [db' w']] eqn:Hrun.
    eapply (Close_interrupted cap Hcap V V' db (set_faults fs w)); [|done|done|exact Hrun]. change (calmed (set_faults fs w)) with (calmed w). by rewrite calmed_calm. }
  destruct (Open_run seed V' w1 d o m Hst (or_introl Hlk) Hd) as (db2 & w2 & Hopen & Hm2 & _ & Hd2).
  apply (surviving_run _ (leaves_disk V' d m) _ _ _ db2 (db1, w2)); [apply mortal_db_io, mortal_Open|intros ?; mortal_tac| | |].
  { change (sched [] (db1, w1)) with (db1, calmed w1). rewrite calmed_calm by done. by apply db_io_run. }
  { apply surviving_io. apply (Open_survives seed V' w1 d o m); [done|by left|done]. }
  apply reading_survives; [apply leaves_disk|by apply disk_modify|]. unfold leaves. cbn [snd]. rewrite <- Hd2. apply holds_killed.
  rewrite calmed_calm; [done|]. destruct Hm2 as (ess & n & os & i & B & _). apply (base_calm _ _ _ _ _ _ B).
Qed.

(** However a call is killed, what is left holds the map from before it or after it. *)
Lemma call_survives d V s m c : serves o d V s m -> d <> ""%string -> call_ok c -> room cap (2 * (V + call_cost c)) ->
  surviving (fun s' => exists m', (m' = m \/ m' = call_map m c) /\ leaves (2 * (V + call_cost c)) d m' s') (run_call (F := F) seed o c) s.
Proof.
  destruct s as [db w]. intros [Hm Ho Hd] Hne Hok Hroom. cbn [fst] in *. subst d.
  pose proof (holds_map_nonneg _ _ _ Hm) as H0. pose proof (call_cost_nonneg c) as H1.
  assert (calm w) as Hcw. { destruct Hm as (ess & n & os & i & B & _). apply (base_calm _ _ _ _ _ _ B). }
  assert (Hsame: forall x : MD unit, surviving (leaves (2 * (V + call_cost c)) (Db.dir db) m) x (db, w) ->
    surviving (fun s' => exists m', (m' = m \/ m' = call_map m c) /\ leaves (2 * (V + call_cost c)) (Db.dir db) m' s') x (db, w)).
  { intros x Hs j k. destruct (Hs j k) as [N HN]. exists N. intros n Hn. exists m. split; [by left|]. by apply HN. }
  destruct (writes c) eqn:Hw; [|destruct c; try done; apply Hsame].
  - apply tolerating_surviving. intros fs. destruct (run_call seed o c (sched fs (db, w))) as [r [db' w']] eqn:Hrun.
    eapply (call_interrupted seed o cap Hcap V _ db (set_faults fs w) m c); [|by rewrite Ho|done|done|done|done|exact Hrun].
    change (calmed (set_faults fs w)) with (calmed w). by rewrite calmed_calm.
  - apply (Compact_survives cap Hcap V); [done|by rewrite Ho|lia|done].
  - apply (reopen_survives V); [done|lia|done|done].
Qed.
End calls.

(** ** Histories *)

(** A call that returns; or one in which the process is killed, at call number
    [j] of package os, having written [k] bytes in it.  Then other processes
    open the directory; those of the list [rs] are killed, too, while they do,
    and the next one is not. *)
Inductive event := ECall (c : call) | EKill (c : call) (j k : nat) (rs : list (nat * nat)).

Section histories.
Context {F : Type} `{Float64 F} {J : Manifest.Json} (seed : nat -> Z) (o : option Db.Options).

(** What is left by a process that is killed. *)
Definition killing {E : FileLock.Env} (c : call) (j k n : nat) (s : DB * World) : World :=
  killed (snd (snd (run_call (F := F) seed o c (fst s, set_faults (killed_at j k n) (snd s))))).
Definition killing_Open {E : FileLock.Env} (d : string) (j k n : nat) (w : World) : World :=
  killed (snd (Db.Open (F := F) seed d o (set_faults (killed_at j k n) w))).

(** Processes open the directory after a kill, each with a clock and an identity
    of its own.  While the lock file of the dead process is young, opening is
    refused and changes nothing.  Once it is old, or somebody has removed it, the
    processes of the list are killed while they open the directory, and the next
    one succeeds with a state in which [P]; [n] is as large as the number of
    calls in vain that a dead process makes. *)
Fixpoint recovers (d : string) (rs : list (nat * nat)) (w : World) (P : FileLock.Env -> DB * World -> Prop) : Prop :=
  forall E : FileLock.Env, ClockOk E ->
    (blocked d w -> Db.Open (F := F) seed d o w = (Err FileLock.ErrLocked, w)) /\
    forall w0, (w0 = w /\ vacant d w) \/ w0 = unlock d w ->
      match rs with
      | [] => exists db w', Db.Open (F := F) seed d o w0 = (Ok db, w') /\ P E (db, w')
      | (j, k) :: rs => exists N, forall n, (N <= n)%nat -> recovers d rs (killing_Open d j k n w0) P
      end.

(** The database gets through the events, and holds the map [m] at their
    beginning: every call returns without an error, the directory is opened
    again after a kill, and the call in which the process was killed has its
    whole effect on the map or none.  At the end, the database answers as the
    map. *)
Fixpoint withstands (E : FileLock.Env) (d : string) (es : list event) (s : DB * World) (m : kvmap) : Prop :=
  match es with
  | [] => answers_as s m
  | ECall c :: es => exists s', run_call (F := F) seed o c s = (Ok tt, s') /\ withstands E d es s' (call_map m c)
  | EKill c j k rs :: es => exists N, forall n, (N <= n)%nat ->
      exists m', (m' = m \/ m' = call_map m c) /\ recovers d rs (killing c j k n s) (fun E' s' => withstands E' d es s' m')
  end.
End histories.

Definition event_ok (e : event) : Prop := match e with ECall c | EKill c _ _ _ => call_ok c end.
(** A bound for what is written: a flush that was killed may have written to a
    table what the log still holds. *)
Definition event_cost (V : Z) (e : event) : Z :=
  match e with ECall c => V + call_cost c | EKill c _ _ _ => 2 * (V + call_cost c) end.

Lemma event_cost_mono V e : 0 <= V -> V <= event_cost V e.
Proof. intros HV. destruct e as [c|c j k rs]; cbn; pose proof (call_cost_nonneg c); lia. Qed.
Lemma events_cost_mono es : forall V, 0 <= V -> V <= fold_left event_cost es V.
Proof.
  induction es as [|e es IH]; intros V HV; cbn [fold_left]; [lia|]. pose proof (event_cost_mono V e HV). pose proof (IH (event_cost V e)). lia.
Qed.
Lemma room_le cap V V' : V <= V' -> room cap V' -> room cap V.
Proof. intros HV [H1 H2]. split; lia. Qed.

Section surviving_histories.
Context {TA : TableAccess} {F : Type} `{Float64 F} {J : Manifest.Json} {JO : JsonOk J}.
Context (seed : nat -> Z) (o : option Db.Options) (cap : Z) (Hcap : blooms_fit (F := F) cap) (Hro : ReadOnly (Db.normalize o) = false).

Lemma stored_recovers V d m (P : FileLock.Env -> DB * World -> Prop) rs : forall w, stored V w d m -> d <> ""%string ->
  (forall E s, ClockOk E -> serves o d V s m -> P E s) -> recovers (F := F) seed o d rs w P.
Proof.
  induction rs as [|[j k] rs IH]; intros w Hst Hd HP; cbn [recovers]; intros E CO;
    (split; [intros Hb; apply Open_blocked; [by eapply stored_calm|done|done]|]);
    intros w0 Hw0; (assert (stored V w0 d m /\ vacant d w0) as [Hst0 Hv];
    [destruct Hw0 as [[-> Hv]| ->]; [done|]; split; [by apply stored_unlock|apply unlock_vacant]|]).
  - destruct (Open_run seed V w0 d o m Hst0 Hv Hd) as (db & w' & Hopen & Hm & Ho & Hdir). exists db, w'. split; [done|]. by apply HP.
  - destruct (Open_survives seed V w0 d o m Hst0 Hv Hd j k) as [N HN]. exists N. intros n Hn. by apply IH; [apply HN|..].
Qed.

Lemma serves_withstands d es : forall E V s m, ClockOk E ->
  serves o d V s m -> d <> ""%string -> Forall event_ok es -> room cap (fold_left event_cost es V) -> withstands (F := F) seed o E d es s m.
Proof.
  induction es as [|e es IH]; intros E V s m CO Hs Hd Hok Hroom; cbn [fold_left] in *; [by eapply serves_answers|].
  apply Forall_cons in Hok as [He Hok]. pose proof (holds_map_nonneg _ _ _ (sr_holds _ _ _ _ _ Hs)) as H0.
  pose proof (event_cost_mono V e H0) as H1. pose proof (events_cost_mono es (event_cost V e) ltac:(lia)) as H2.
  pose proof (room_le _ _ _ H2 Hroom) as Hroom1. destruct e as [c|c j k rs]; cbn [event_cost event_ok withstands] in *.
  - destruct (run_call_refines seed o cap Hcap Hro d V (V + call_cost c) s m c Hs Hd He ltac:(lia) Hroom1) as (s1 & Hrun & Hs1).
    exists s1. split; [done|]. by eapply IH.
  - destruct (call_survives seed o cap Hcap Hro d V s m c Hs Hd He Hroom1 j k) as [N HN]. exists N. intros n Hn.
    destruct (HN n Hn) as (m1 & Hm1 & Hst). exists m1. split; [done|].
    apply (stored_recovers (2 * (V + call_cost c)) d m1); [exact Hst|done|]. intros E' s1 CO' Hs1. by eapply IH.
Qed.
End surviving_histories.

(** ** The theorem *)

Section theorem.
Context {TA : TableAccess} {F : Type} `{Float64 F} {J : Manifest.Json} {JO : JsonOk J} {E : FileLock.Env} {CO : ClockOk E}.
Context (seed : nat -> Z) (o : option Db.Options).

(** C4: A database survives kills.  Let processes use a database opened in an empty
    directory, and be killed any number of times, each time in the middle of any
    put, deletion, batch, flush, compaction or closing, or while the directory is
    opened again: at any call of package os, of which a write may still write a
    part of its data.  A killed process leaves every file as it is, its lock file
    included.  While the lock file is younger than 24 hours, opening the directory
    is refused with [ErrLocked] and changes nothing; once it is older, or
    somebody has removed it, the next process that opens the directory succeeds
    if it is not killed itself.  The call in which a process died has its whole
    effect or none, every other call succeeds, and in the end the database
    answers as the map that results. *)
Theorem kills_survived cap es w d (Hcap : blooms_fit (F := F) cap) (Hw : calm w) (Hn : names_ok w) (He : empty_dir w d)
  (Hd : d <> ""%string) (Hro : ReadOnly (Db.normalize o) = false) (Hes : Forall event_ok es) (Hroom : room cap (fold_left event_cost es 0)) :
  exists db w1, Db.Open (F := F) seed d o w = (Ok db, w1) /\ withstands (F := F) seed o E d es (db, w1) ∅.
Proof.
  destruct (Open_empty seed 0 w d o Hw Hn He Hd) as (db & w1 & Hopen & Hm & Ho & Hdir); [lia|].
  exists db, w1. split; [done|]. by apply (serves_withstands seed o cap Hcap Hro d es E 0).
Qed.
End theorem.

(** ** Witness *)

#[local] Existing Instances Codec.codec Codec.codec_ok Q_Float64.
#[local] Instance quiet_process : FileLock.Env := FileLock.demo_env 0.

(** A kill in a put, in the middle of the frame that it appends to the log, and
    one while the next process cuts that off; a kill in a compaction, and
    one while the database is closed. *)
Definition demo_events : list event := [
  ECall (CPut (demo_key x61) (demo_key x31)); ECall CFlush; ECall (CPut (demo_key x62) (demo_key x32));
  EKill (CDelete (demo_key x61)) 0 9 [(9%nat, 0%nat)]; ECall CFlush; EKill CCompact 30 0 []; EKill CReopen 2 0 []].

Lemma demo_events_ok : Forall event_ok demo_events /\ room 64 (fold_left event_cost demo_events 0).
Proof.
  split; [|by split; vm_compute].
  repeat (constructor; [unfold event_ok, call_ok; cbn; repeat split; try done; by repeat constructor|]). constructor.
Qed.

Lemma kills_survived_witness :
  exists db w1, Db.Open (F := Q) demo_seed "d" None empty_world = (Ok db, w1) /\
    withstands (F := Q) demo_seed None quiet_process "d" demo_events (db, w1) ∅.
Proof.
  destruct demo_start as (H1 & H2 & H3 & H4 & _ & _). destruct demo_events_ok as [H5 H6].
  by apply (kills_survived demo_seed None 64 demo_events empty_world "d").
Defined.

(** The same, computed: what the next process sees of a directory once the lock
    file has been removed: how many tables and files there are, and the answers
    for two keys. *)
Definition demo_look (w : World) : option (Z * nat * list (option (list byte))) :=
  match Db.Open (F := Q) demo_seed "d" None (unlock "d" w) with
  | (Ok db, w) => Some (TableCount db, base.size (Os.names w),
      (fun b => match fst (Db.Get (demo_key b) (db, w)) with Ok v => Some (bs v) | _ => None end) <$> [x61; x62])
  | _ => None
  end.
(** A database with two tables is compacted, and the process killed at call [j]. *)
Definition demo_kill (c : call) (j k : nat) (rs : list (nat * nat)) : option (Z * nat * list (option (list byte))) :=
  match Db.Open (F := Q) demo_seed "d" None empty_world with
  | (Ok db, w) =>
      match run_calls (F := Q) demo_seed None (take 6 demo_calls) (db, w) with
      | (Ok _, s) =>
          demo_look (fold_left (fun w r => killing_Open (F := Q) demo_seed None "d" (fst r) (snd r) 200 (unlock "d" w)) rs
            (killing (F := Q) demo_seed None c j k 200 s))
      | _ => None
      end
  | _ => None
  end.

(** With a MANIFEST.tmp; before there is a merged table; with one that no manifest
    names; before the manifest is replaced, with both; after that; between the two
    removals; and after them. *)
Example demo_kill_computed : (fun j => demo_kill CCompact j 3 []) <$> [3; 10; 30; 49; 50; 54; 60]%nat =
  (fun p => Some (p, [Some [x33]; None])) <$> [(2, 6%nat); (2, 5%nat); (2, 6%nat); (2, 7%nat); (1, 6%nat); (1, 5%nat); (1, 4%nat)].
Proof. by vm_compute. Qed.

(** A put is killed in the middle of its frame, and then two processes that open
    the directory: before they cut the frame off, while they do, and afterwards. *)
Example demo_recovery_computed : (fun j => demo_kill (CPut (demo_key x62) (demo_key x35)) 0 9 [(j, 0%nat); (j, 0%nat)]) <$> [0; 12; 20]%nat =
  replicate 3 (Some (2, 5%nat, [Some [x33]; None])).
Proof. by vm_compute. Qed.
