(* ===== verification/DbEnds.v ===== *)
(** * DbEnds: no call on a database runs for ever

    Whatever the files of a directory contain and whichever calls fail, opening
    it and every method of the database come to an end, a panic perhaps: none of
    the loops over corrupt tables, logs or manifests runs for ever. *)

From Stdlib Require Import ZArith Lia QArith Strings.Byte.
From stdpp Require Import base decidable list gmap strings numbers.
From S2P Require Import Prelude Bloom ByteUtil Os OsFacts Wal SkipList SSTable SSTableProps Manifest ManifestFacts ManifestProps FileLock Compact TableEnds Db DbRun.
#[local] Open Scope Z_scope.

(** ** Files stay small *)

Section small.

Lemma small_next_fault : returns small next_fault.
Proof. intros w Hw. unfold next_fault. by case_match. Qed.
Lemma small_open_fd f : returns small (open_fd f).
Proof. intros w Hw. unfold open_fd. by repeat case_match. Qed.
Hint Resolve small_next_fault small_open_fd : returns.
Lemma small_syscall {A} (m : M World A) : returns small m -> returns small (syscall m).
Proof. intros Hm. unfold syscall. returns_tac. Qed.
Hint Resolve small_syscall : returns.

Lemma small_OpenFile p fl : returns small (OpenFile p fl).
Proof.
  intros w Hw. split; [apply OpenFile_ends|]. destruct (OpenFile p fl w) as [r w'] eqn:E. by eapply OpenFile_small.
Qed.
Lemma small_Sync f : returns small (File_Sync f).
Proof. unfold File_Sync. returns_tac. Qed.
Lemma small_Close f : returns small (File_Close f).
Proof.
  unfold File_Close. apply returns_bind; [auto with returns|]. intros d. apply returns_bind; [by apply returns_modify|].
  auto with returns.
Qed.
Lemma small_Remove p : returns small (Remove p).
Proof. apply small_syscall. intros w Hw. by case_match. Qed.
Lemma small_Rename p q : returns small (Rename p q).
Proof. apply small_syscall. intros w Hw. by case_match. Qed.
Lemma small_ReadFile p : returns small (ReadFile p).
Proof. apply small_syscall. intros w Hw. by case_match. Qed.
Lemma small_Stat p : returns small (Stat p).
Proof. apply small_syscall. intros w Hw. by case_match. Qed.
Hint Resolve small_OpenFile small_Sync small_Close small_Remove small_Rename small_ReadFile small_Stat : returns.

(** Writing a short text through a descriptor that was just opened. *)
Definition at_start (f : nat) (w : World) : Prop := forall d, fds w !! f = Some d -> pos d = 0.

Lemma OpenFile_at_start p fl w f w' : OpenFile p fl w = (Ok f, w') -> at_start f w'.
Proof.
  assert (Hnew: forall i w, new_fd i w = (Ok f, w') -> at_start f w').
  { clear. intros i w [= <- <-] d. cbn. rewrite list_lookup_middle by done. by intros [= <-]. }
  unfold OpenFile, syscall, mbind, M_bind. destruct (next_fault w) as [[[k|]|e|q|] w1]; [done| |done..].
  destruct (names w1 !! p) as [i|].
  - destruct (_ && _); [done|]. apply Hnew.
  - destruct (O_CREATE fl); [|done]. apply Hnew.
Qed.

Lemma small_Write f b w : len b < 2 ^ 61 -> at_start f w -> small w -> ends (fst (File_Write f b w)) /\ small (snd (File_Write f b w)).
Proof.
  intros Hb Hat Hw. split; [apply Write_ends|]. unfold File_Write, mbind at 1, M_bind at 1, open_fd.
  destruct (fds w !! f) as [d|] eqn:Hd; [|done]. destruct (is_open d); [|done]. rewrite (Hat d Hd).
  assert (Hsmall: forall b' w1, len b' <= len b -> small w1 ->
    small (set_fds (<[f := mkFd (ino d) (0 + len b') (is_open d)]> (fds w1))
      (set_inodes (<[ino d := write_at (content (ino d) w1) 0 b']> (inodes w1)) w1))).
  { intros b' w1 Hl Hw1. unfold small in *. cbn. apply Forall_insert; [done|]. unfold write_at, content.
    destruct (inodes w1 !! ino d) as [c|] eqn:Hc; cbn [default].
    - rewrite Forall_lookup in Hw1. specialize (Hw1 _ _ Hc). cbn beta in Hw1. destruct b' as [|x b']; [done|]. rewrite take_0, !length_app, length_drop. cbn [length] in *. change (id c) with c. lia.
    - destruct b' as [|x b']; [done|]. cbn in *. rewrite app_nil_r. lia. }
  unfold mbind, M_bind, next_fault. destruct (faults w) as [|[k|] fs]; cbn; [by apply Hsmall| |by apply (Hsmall b (set_faults fs w))].
  apply (Hsmall (take k b) (set_faults fs w)); [rewrite length_take; lia|done].
Qed.

Lemma small_WriteFile p b : len b < 2 ^ 61 -> returns small (Os.WriteFile p b).
Proof.
  intros Hb w Hw. split; [apply WriteFile_ends|]. unfold Os.WriteFile. unfold mbind at 1, M_bind at 1.
  pose proof (proj2 (small_OpenFile p (mkFlags true false true) w Hw)) as H1.
  destruct (OpenFile _ _ w) as [[f|e|q|] w1] eqn:E; [|done..]. apply OpenFile_at_start in E.
  destruct (small_Write f b w1 Hb E H1) as [He H2]. unfold mbind, M_bind, try_. destruct (File_Write f b w1) as [[n|e|q|] w2]; cbn in H2; try done.
  - pose proof (proj2 (small_Close f w2 H2)) as H3. by destruct (File_Close f w2) as [[?|?|?|] w3].
  - pose proof (proj2 (small_Close f w2 H2)) as H3. by destruct (File_Close f w2) as [[?|?|?|] w3].
Qed.
End small.
#[export] Hint Resolve small_syscall small_OpenFile small_Sync small_Close small_Remove small_Rename small_ReadFile small_Stat : returns.

(** ** Opening *)

Section opening.
Context {F : Type} `{Float64 F} {J : Manifest.Json} {E : FileLock.Env}.

(** The texts of a lock file and of a new manifest are not absurdly long. *)
Definition short_texts : Prop :=
  (forall l w, FileLock.hostname l = FileLock.Hostname -> FileLock.pid l = FileLock.getpid -> len (FileLock.lock_content l w) < 2 ^ 61) /\
  (forall w, len (Manifest.MarshalIndent (Manifest.mkState Manifest.versionJSON 1 0 [] (Manifest.now w))) < 2 ^ 61).
Context (Hshort : short_texts).

(** A part of a state next to the world. *)
Lemma small_io {L A} (m : M World A) : returns small m -> returns (fun s : L * World => small (snd s)) (zoom snd (fun w s => (fst s, w)) m).
Proof. intros Hm. by apply (returns_zoom _ small). Qed.
Lemma small_scoped {L A} (m : M (L * World) A) l : returns (fun s => small (snd s)) m -> returns small (scoped m l).
Proof. intros Hm w Hw. destruct (Hm (l, w) Hw) as [He Hs]. unfold scoped. by destruct (m (l, w)) as [[a|e|q|] [l' w']]. Qed.
Hint Resolve small_io : returns.

(** The lock of this process, next to small files. *)
Definition ours (s : FileLock.Lock * World) : Prop :=
  small (snd s) /\ FileLock.hostname (fst s) = FileLock.Hostname /\ FileLock.pid (fst s) = FileLock.getpid.

Lemma small_lock_io {A} (m : M World A) : returns small m -> returns ours (FileLock.io m).
Proof. intros Hm. apply (returns_zoom _ small); [by intros ? [? _]| |done]. by intros s w [_ ?]. Qed.
Lemma small_get_l {A} (g : FileLock.Lock -> A) : returns ours (FileLock.get_l g).
Proof. apply returns_gets. Qed.
Lemma small_set_file fd h : returns ours (FileLock.upd_l (FileLock.set_file fd h)).
Proof. by apply returns_modify. Qed.
Hint Resolve small_lock_io small_get_l small_set_file : returns.

Lemma small_fill l w f : ours (l, w) -> at_start f w -> returns_at ours (FileLock.fill f) (l, w).
Proof.
  intros Hw Hat. unfold FileLock.fill. apply returns_at_bind; [by split|]. intros p s1 [= <- <-] _.
  apply returns_at_bind; [by split|]. intros content s1 [= <- <-] _. apply returns_at_bind.
  - apply returns_at_try. unfold returns_at, FileLock.io, zoom. cbn [fst snd].
    destruct (small_Write f (FileLock.lock_content l w) w) as [H1 H2]; [apply (proj1 Hshort); apply Hw|done|apply Hw|].
    destruct (File_Write f _ w). split; [done|]. split; [done|apply Hw].
  - intros r s' _ Hs'. apply returns_at_of; [returns_tac|done].
Qed.

Lemma small_try_create l w p : ours (l, w) ->
  returns_at ours (try_ (FileLock.io (OpenFile p FileLock.create_flags))) (l, w) /\
  forall f s', try_ (FileLock.io (OpenFile p FileLock.create_flags)) (l, w) = (Ok (inl f), s') -> returns_at ours (FileLock.fill f) s'.
Proof.
  intros Hw. split; [apply returns_at_of; [returns_tac|done]|]. intros f s'. unfold try_, FileLock.io, zoom. cbn [fst snd].
  pose proof (small_OpenFile p FileLock.create_flags w (proj1 Hw)) as [_ Hs]. destruct (OpenFile _ _ w) as [[f0|e|q|] w1] eqn:Eo; try done.
  intros [= -> <-]. apply small_fill; [split; [done|apply Hw]|by eapply OpenFile_at_start].
Qed.

Lemma small_maybeRemoveStale p age : returns small (FileLock.maybeRemoveStale p age).
Proof. unfold FileLock.maybeRemoveStale, FileLock.is_stale. returns_tac. Qed.
Hint Resolve small_maybeRemoveStale : returns.

Lemma small_tryOnce o : returns ours (FileLock.tryOnce o).
Proof.
  unfold FileLock.tryOnce. apply returns_bind; [auto with returns|]. intros [|]; [returns_tac|].
  apply returns_bind; [auto with returns|]. intros p [l w] Hw. destruct (small_try_create l w p Hw) as [H1 H2].
  apply (returns_at_bind ours); [done|]. intros [f|e] s' Hr Hs'; [by apply H2|]. apply returns_at_of; [|done].
  case_match; [returns_tac|]. apply returns_bind; [auto with returns|]. intros [|]; [|returns_tac].
  clear -Hshort. intros [l w] Hw. destruct (small_try_create l w p Hw) as [H1 H2].
  apply (returns_at_bind ours); [done|]. intros [f|e] s' Hr Hs'; [by apply H2|]. apply returns_at_of; [returns_tac|done].
Qed.
Hint Resolve small_scoped small_tryOnce : returns.

Lemma small_Acquire fuel d : returns small (FileLock.Acquire fuel d None).
Proof.
  unfold FileLock.Acquire, MkdirAll. cbv zeta. case_match; [auto with returns|]. apply returns_bind; [auto with returns|]. intros [].
  change (FileLock.Timeout (FileLock.normalize None) <=? 0) with true. cbv iota.
  apply returns_bind; [|intros [[] l]; auto with returns]. intros w Hw. set (l := FileLock.mkLock _ _ _ _ _ _).
  destruct (small_tryOnce (FileLock.normalize None) (l, w)) as [He Hs]; [by split|]. unfold scoped.
  destruct (FileLock.tryOnce _ (l, w)) as [[[]|e|q|] [l' w']]; (split; [done|apply Hs]).
Qed.

(** ** The manifest *)

Abbreviation small3 := (fun s : Manifest.Manifest * World => small (snd s)).
Lemma decode_ends data t : ends (Manifest.decode data t).
Proof.
  unfold Manifest.decode. apply ends_bind; [ends_tac|]. intros [|]; [|ends_tac].
  by destruct (decodeBinary_total data t) as [-> |(st & -> & _)].
Qed.

Lemma sync_dir_ends : always_ends Manifest.sync_dir.
Proof. unfold Manifest.sync_dir. m_ends. Qed.
Hint Resolve sync_dir_ends : ends.
Lemma persist_ends : always_ends Manifest.persistLocked.
Proof. unfold Manifest.persistLocked, Manifest.upd_state, Manifest.get_state, Manifest.io. m_ends. Qed.
Hint Resolve persist_ends : ends.

Lemma small_manif_io {A} (m : M World A) : returns small m -> returns small3 (Manifest.io m).
Proof. apply small_io. Qed.
Lemma small_sync_dir : returns small Manifest.sync_dir.
Proof. unfold Manifest.sync_dir. returns_tac. Qed.
Hint Resolve small_manif_io small_sync_dir : returns.

(** A new manifest is written. *)
Lemma small_new_manifest d p t w : small w ->
  returns_at small3 Manifest.persistLocked (Manifest.mkManifest d p (Manifest.mkState Manifest.versionJSON 1 0 [] t), w).
Proof.
  intros Hw. unfold Manifest.persistLocked. apply returns_at_bind; [by split|]. intros t' s1 [= <- <-] _.
  apply returns_at_bind; [by split|]. intros [] s1 [= <-] _. apply returns_at_bind; [by split|]. intros data s1 [= <- <-] _.
  apply returns_at_bind; [by split|]. intros q s1 [= <- <-] _. cbv zeta. apply returns_at_bind.
  - apply returns_at_of; [|done]. apply small_manif_io, small_WriteFile. apply (proj2 Hshort w).
  - intros [] s1 _ Hs1. apply returns_at_of; [|done]. returns_tac.
Qed.

Lemma small_manifest_Open d : returns small (Manifest.Open d).
Proof.
  unfold Manifest.Open, MkdirAll. apply returns_bind; [auto with returns|]. intros []. cbv zeta.
  apply returns_bind; [auto with returns|]. intros [data|e].
  - apply returns_bind; [auto with returns|]. intros t. apply returns_bind; [apply returns_lift, decode_ends|auto with returns].
  - case_match; [|auto with returns]. intros w Hw. apply (returns_at_bind small); [by split|]. intros t w1 [= <- <-] _.
    apply returns_at_bind; [|intros [[] m] w1 _ Hw1; by split].
    pose proof (small_new_manifest d (filepath_Join d Manifest.fileName) (Manifest.now w) w Hw) as [He Hs].
    unfold returns_at, scoped. by destruct (Manifest.persistLocked _) as [[a|e'|q|] [l' w']].
Qed.

(** ** Methods *)

(** The memtable is a skip list. *)
Definition tame (s : DB * World) : Prop := exists es, repr (MemTable.sl (mem (fst s))) es.

Lemma tame_io {A} (m : M World A) : always_ends m -> returns tame (Db.io m).
Proof. by apply returns_part. Qed.
Lemma tame_get {A} (g : DB -> A) : returns tame (get g).
Proof. apply returns_gets. Qed.
Lemma tame_upd g : (forall db, mem (g db) = mem db) -> returns tame (upd g).
Proof. intros Hg. apply returns_modify. intros [db w]. unfold tame. cbn. by rewrite Hg. Qed.
Lemma tame_wal {A} (m : M (Wal.Log * World) A) : always_ends m -> returns tame (on_wal m).
Proof. by apply returns_part. Qed.
Lemma tame_manif {A} (m : M (Manifest.Manifest * World) A) : always_ends m -> returns tame (on_manif m).
Proof. by apply returns_part. Qed.
Lemma tame_lock {A} (m : M (option FileLock.Lock * World) A) : always_ends m -> returns tame (on_lock m).
Proof. by apply returns_part. Qed.
Hint Resolve tame_io tame_get tame_wal tame_manif tame_lock : returns.
Hint Extern 2 (returns tame (upd _)) => (apply tame_upd; done) : returns.

(** A write to the memtable. *)
Definition keeps_repr (g : MemTable.MemTable -> outcome MemTable.MemTable) : Prop :=
  forall m es, repr (MemTable.sl m) es -> exists m' es', g m = Ok m' /\ repr (MemTable.sl m') es'.

Lemma Put_repr key value seq : keeps_repr (MemTable.Put key value seq).
Proof.
  intros m es Hr. destruct (set_spec (MemTable.sl m) es key value seq false Hr) as (s & Hs & Hr').
  unfold MemTable.Put, MemTable.with_sl, SkipList.Put. rewrite Hs. eexists _, _. split; [done|exact Hr'].
Qed.
Lemma Delete_repr key seq : keeps_repr (MemTable.Delete key seq).
Proof.
  intros m es Hr. destruct (set_spec (MemTable.sl m) es key None seq true Hr) as (s & Hs & Hr').
  unfold MemTable.Delete, MemTable.with_sl, SkipList.Delete. rewrite Hs. eexists _, _. split; [done|exact Hr'].
Qed.
Lemma tame_on_mem g : keeps_repr g -> returns tame (on_mem g).
Proof.
  intros Hg [db w] [es Hr]. destruct (Hg _ _ Hr) as (m' & es' & Hm & Hr'). cbn [fst] in Hm. unfold on_mem.
  rewrite (M_bind_Ok _ _ _ (mem db) (db, w)) by done. rewrite (M_bind_Ok _ _ _ m' (db, w)) by (unfold lift; by rewrite Hm).
  split; [done|]. by exists es'.
Qed.

(** Looking into the memtable. *)
Lemma tame_mem {A B} (g : MemTable.MemTable -> outcome A) (k : A -> MD B) :
  (forall m es, repr (MemTable.sl m) es -> ends (g m)) -> (forall a, returns tame (k a)) ->
  returns tame (m ← get mem; a ← lift (g m); k a).
Proof.
  intros Hg Hk s Hs. apply (returns_at_bind tame); [by split|]. intros m s1 [= <- <-] _. destruct Hs as [es Hr].
  apply (returns_at_bind tame).
  - split; [by eapply Hg|by exists es].
  - intros a s' _ Hs'. by apply Hk.
Qed.
Lemma Snapshot_ends m es : repr (MemTable.sl m) es -> ends (MemTable.Snapshot m).
Proof. intros Hr. unfold MemTable.Snapshot. by rewrite (Snapshot_repr _ _ Hr). Qed.
Lemma mem_Get_ends key m es : repr (MemTable.sl m) es -> ends (MemTable.Get key m).
Proof. intros Hr. unfold MemTable.Get. by rewrite (Get_spec _ _ _ Hr). Qed.

Lemma Alloc_ends : always_ends Manifest.AllocFileName.
Proof. unfold Manifest.AllocFileName, Manifest.get_state, Manifest.upd_state. m_ends. Qed.
Lemma AddFile_ends m q : always_ends (Manifest.AddFile m q).
Proof. unfold Manifest.AddFile, Manifest.upd_state. m_ends. Qed.
Lemma Replace_ends rm add q : always_ends (Manifest.Replace rm add q).
Proof. unfold Manifest.Replace, Manifest.upd_state. m_ends. Qed.
Hint Resolve Alloc_ends AddFile_ends Replace_ends table_WriteFile_ends table_Open_ends : ends.

Lemma wal_Reset_ends : always_ends Wal.Reset.
Proof. unfold Wal.Reset, Wal.unless_closed, Wal.get_log, Wal.upd_log, Wal.io. m_ends. Qed.
Lemma SetNextSeq_ends q : always_ends (Wal.SetNextSeq q).
Proof. apply modify_ends. Qed.
Hint Resolve wal_Reset_ends SetNextSeq_ends : ends.

Lemma tame_flush : returns tame (flushLocked (F := F)).
Proof.
  unfold flushLocked. apply tame_mem; [apply Snapshot_ends|]. intros snap. case_match; [auto with returns|].
  apply returns_bind; [auto with returns ends|]. intros name. apply returns_bind; [auto with returns|]. intros d. cbv zeta.
  destruct (fold_left flush_step snap _) as [[[entries q] mn] mx]. apply returns_bind; [auto with returns ends|]. intros meta.
  apply returns_bind; [apply returns_try; auto with returns ends|]. intros [u|e].
  - apply returns_bind; [auto with returns ends|]. intros r. apply returns_bind; [auto with returns|]. intros _.
    apply returns_bind; [apply returns_modify; intros s Hs; eexists; apply repr_Clear|]. intros _.
    apply returns_bind; auto with returns ends.
  - apply returns_bind; [apply returns_try; auto with returns ends|auto with returns].
Qed.
Hint Resolve tame_flush : returns.

Lemma wal_Close_ends : always_ends Wal.Close.
Proof. unfold Wal.Close, Wal.get_log, Wal.upd_log, Wal.io. m_ends. Qed.
Lemma Release_ends : always_ends FileLock.Release.
Proof.
  assert (Hm: forall (m : FileLock.ML unit) l w, always_ends m ->
    ends (fst (match m (l, w) with (o, (l', w')) => (o, (Some l', w')) end))).
  { intros m l w Hm. specialize (Hm (l, w)). by destruct (m (l, w)) as [o [l' w']]. }
  intros [[l|] w]; [|done]. apply Hm. unfold FileLock.get_l, FileLock.upd_l, FileLock.io. m_ends.
Qed.
Lemma table_Close_ends : always_ends SSTable.Close.
Proof.
  intros [r w]. unfold SSTable.Close. cbn [fst snd]. destruct (rf r) as [f|]; [|done]. pose proof (Close_ends f w).
  by destruct (File_Close f w).
Qed.
Lemma close_tables_ends ts : forall first, always_ends (close_tables ts first).
Proof.
  induction ts as [|t ts IH]; intros first; cbn [close_tables]; [m_ends|]. intros w.
  pose proof (table_Close_ends (t, w)) as He. destruct (SSTable.Close (t, w)) as [r [t' w']]. cbn in He. revert w'.
  apply mbind_ends; [by apply try_ends, lift_ends|]. intros r'. apply mbind_ends; [apply IH|]. m_ends.
Qed.
Hint Resolve wal_Close_ends Release_ends close_tables_ends : ends.

Lemma tame_close : returns tame (closeUnlocked (F := F)).
Proof.
  unfold closeUnlocked. apply returns_bind; [auto with returns|]. intros [|]; [auto with returns|].
  apply returns_bind; [auto with returns|]. intros _. apply returns_bind; [auto with returns|]. intros ro.
  apply returns_bind; [auto with returns|]. intros n. apply returns_bind; [case_match; returns_tac|]. intros first.
  apply returns_bind; [apply returns_try; auto with returns ends|]. intros r. cbv zeta.
  apply returns_bind; [auto with returns|]. intros ts. apply returns_bind; [auto with returns ends|]. intros [ts' first'].
  apply returns_bind; [auto with returns|]. intros _. apply returns_bind; [auto with returns|]. intros l.
  apply returns_bind; [|returns_tac].
  case_match; [apply returns_bind; [apply returns_try; auto with returns ends|auto with returns]|auto with returns].
Qed.
Hint Resolve tame_close : returns.

Lemma tame_writable {A} (m : MD A) : returns tame m -> returns tame (Db.writable m).
Proof. intros Hm. unfold Db.writable. returns_tac. Qed.
Lemma tame_maybe_flush : returns tame (maybe_flush (F := F)).
Proof. unfold maybe_flush. returns_tac. Qed.
Hint Resolve tame_maybe_flush tame_on_mem Put_repr Delete_repr : returns.

Lemma writeFrame_ends t b : always_ends (Wal.writeFrame t b).
Proof. unfold Wal.writeFrame, Wal.get_log, Wal.upd_log, Wal.io. m_ends. Qed.
Lemma maybeSync_ends : always_ends Wal.maybeSyncLocked.
Proof. unfold Wal.maybeSyncLocked, Wal.get_log, Wal.io. m_ends. Qed.
Lemma allocSeq_ends : always_ends Wal.allocSeq.
Proof. unfold Wal.allocSeq, Wal.get_log, Wal.upd_log. m_ends. Qed.
Hint Resolve writeFrame_ends maybeSync_ends allocSeq_ends : ends.
Lemma batch_loop_ends es : forall b q, always_ends (Wal.batch_loop es b q).
Proof. induction es as [|e es IH]; intros b q; cbn [Wal.batch_loop]; m_ends. Qed.
Hint Resolve batch_loop_ends : ends.
Lemma append_op_ends op : always_ends (Wal.append_op op).
Proof.
  destruct op; cbn [Wal.append_op]; unfold Wal.AppendPut, Wal.AppendDelete, Wal.AppendBatch, Wal.unless_closed, Wal.get_log; m_ends.
Qed.
Lemma wal_Sync_ends : always_ends Wal.Sync.
Proof. unfold Wal.Sync, Wal.unless_closed, Wal.get_log, Wal.io. m_ends. Qed.
Hint Resolve wal_Sync_ends : ends.

Lemma tame_apply es first : forall i, returns tame (apply_entries es first i).
Proof.
  induction es as [|e es IH]; intros i; cbn [apply_entries]; [auto with returns|]. apply returns_bind; [|done].
  apply tame_on_mem. destruct (Wal.bDeleted e); auto with returns.
Qed.
Hint Resolve tame_apply : returns.

Lemma close_reader_ends r : always_ends (Compact.close_reader r).
Proof. intros w. unfold Compact.close_reader. by destruct (SSTable.Close (r, w)) as [? []]. Qed.
Hint Resolve close_reader_ends : ends.
Lemma close_merged_ends rm ts : always_ends (close_merged ts rm).
Proof. induction ts as [|t ts IH]; cbn [close_merged]; [m_ends|]. destruct (bool_decide _); m_ends. Qed.
Lemma remove_files_ends ps : always_ends (remove_files ps).
Proof. induction ps as [|q ps IH]; cbn [remove_files]; m_ends. Qed.

Lemma tame_call c : c <> CReopen -> forall seed o, returns tame (run_call (F := F) seed o c).
Proof.
  destruct c as [key value|key|b| | |]; [| | | | |done]; intros _ seed o; cbn [run_call].
  - unfold Put. case_match; [auto with returns|]. apply tame_writable.
    apply returns_bind; [apply tame_wal, (append_op_ends (Wal.OpPut key value))|]. returns_tac.
  - unfold Delete. case_match; [auto with returns|]. apply tame_writable.
    apply returns_bind; [apply tame_wal, (append_op_ends (Wal.OpDelete key))|]. returns_tac.
  - unfold Write. cbv zeta. case_match; [auto with returns|]. apply tame_writable.
    apply returns_bind; [apply tame_wal, (append_op_ends (Wal.OpBatch (WriteBatch.entries b)))|]. returns_tac.
  - apply tame_writable. returns_tac.
  - apply tame_writable. apply returns_bind; [auto with returns|]. intros ts. apply returns_bind; [auto with returns|]. intros th.
    case_match; [auto with returns|]. apply returns_bind; [auto with returns|]. intros d. apply returns_bind; [auto with returns|]. intros files.
    cbv zeta. apply returns_bind; [apply returns_try, tame_manif, CompactDir_ends; auto with ends|]. intros [res|e]; [|returns_tac].
    apply returns_bind; [apply tame_io, close_merged_ends|]. intros [[ts' rm] kept]. apply returns_bind; [auto with returns|]. intros _.
    apply returns_bind; [auto with returns ends|]. intros out. cbv zeta. apply returns_bind; [auto with returns ends|]. intros _.
    apply returns_bind; [apply tame_io, remove_files_ends|auto with returns].
Qed.

(** ** Reading *)

Lemma get_loop_ends ts key : forall best, always_ends (get_loop ts key best).
Proof. induction ts as [|t ts IH]; intros best; cbn [get_loop]; [m_ends|]. apply mbind_ends; [apply SSTableProps.Get_ends|]. m_ends. Qed.
Hint Resolve get_loop_ends : ends.
Lemma tame_Get key : returns tame (Db.Get key).
Proof.
  unfold Db.Get. apply returns_bind; [auto with returns|]. intros [|]; [auto with returns|]. apply tame_mem; [apply mem_Get_ends|].
  intros [e|]; [case_match; auto with returns|]. apply returns_bind; [auto with returns|]. intros ts.
  apply returns_bind; [auto with returns ends|]. returns_tac.
Qed.
Hint Resolve tame_Get : returns.

Lemma merge_table_ends fuel r : forall it m, iter_ok it -> (SSTable.Iterator.Valid it = true -> TableEnds.left r it < Z.of_nat fuel) ->
  always_ends (merge_table fuel r it m).
Proof.
  induction fuel as [|fuel IH]; intros it m Hok Hf; cbn [merge_table]; (destruct (SSTable.Iterator.Valid it); [|m_ends]); specialize (Hf eq_refl);
    [pose proof (left_nonneg r it); lia|]. cbv zeta. intros w. apply mbind_ends_at; [by apply Next_ends_ok|]. intros it' w' Hn.
  apply Next_left in Hn as [Hok' Hlt]; [|done]. apply IH; [done|]. intros Hv. specialize (Hlt Hv). lia.
Qed.
Lemma merge_tables_ends ts : forall m, always_ends (merge_tables ts m).
Proof.
  induction ts as [|t ts IH]; intros m; cbn [merge_tables]; [m_ends|]. intros w. apply mbind_ends_at; [by apply Next_ends_ok|].
  intros it w' Hn. apply NewIterator_ok in Hn as [Hok Hv]. revert w'. apply mbind_ends; [by apply merge_table_ends|done].
Qed.
Hint Resolve merge_tables_ends : ends.
Lemma tame_NewIterator : returns tame Db.Iterator.NewIterator.
Proof.
  unfold Db.Iterator.NewIterator, collectMerged. apply returns_bind; [|auto with returns].
  apply tame_mem; [apply Snapshot_ends|]. intros snap. cbv zeta. apply returns_bind; [auto with returns|]. intros ts.
  apply returns_bind; [auto with returns ends|auto with returns].
Qed.

(** ** Opening a database *)

(** What replaying the log needs besides. *)
Definition replayable (s : DB * World) : Prop := tame s /\ 0 <= Wal.size (wal (fst s)) < 2 ^ 61.

Lemma open_tables_ends d fs : forall ts, always_ends (open_tables d fs ts).
Proof. induction fs as [|f fs IH]; intros ts; cbn [open_tables]; m_ends. apply close_all_ends. Qed.
Lemma openTables_returns : returns replayable openTables.
Proof.
  unfold openTables. apply returns_bind; [apply returns_gets|]. intros d. apply returns_bind; [apply returns_gets|]. intros fs.
  apply returns_bind; [apply returns_part; [done|apply open_tables_ends]|]. intros ts. by apply returns_modify.
Qed.

Lemma replay_record_returns rec : returns (fun m => exists es, repr (MemTable.sl m) es) (replay_record rec).
Proof.
  intros m [es Hr]. unfold replay_record.
  assert (exists m' es', (if Wal.Deleted rec then MemTable.Delete (Wal.Key rec) (Wal.Seq rec) m
    else MemTable.Put (Wal.Key rec) (Wal.Value rec) (Wal.Seq rec) m) = Ok m' /\ repr (MemTable.sl m') es') as (m' & es' & -> & Hr').
  { destruct (Wal.Deleted rec); [by eapply Delete_repr|by eapply Put_repr]. }
  split; [done|]. by exists es'.
Qed.
Lemma replayWAL_returns s : replayable s -> returns_at tame replayWAL s.
Proof.
  intros [[es Hr] Hs]. destruct s as [db w]. cbn [fst snd] in *.
  destruct (Replay_returns _ replay_record replay_record_returns (mem db) (wal db) w (ex_intro _ es Hr) Hs) as [He Hi].
  unfold returns_at, replayWAL, zoom, tame. cbn [fst snd]. by destruct (Wal.Replay _ _) as [r [m' [l' w']]].
Qed.

Lemma scoped_at {L A} (I : L * World -> Prop) (m : M (L * World) A) l w :
  returns_at I m (l, w) -> ends (fst (scoped m l w)) /\ forall a l' w', scoped m l w = (Ok (a, l'), w') -> I (l', w').
Proof.
  unfold returns_at, scoped. intros [He Hi]. destruct (m (l, w)) as [[a|e|q|] [l1 w1]]; cbn in *; split; try done. by intros a0 l' w' [= <- <- <-].
Qed.

(** Opening returns, and what it returns is a database with a memtable. *)
Definition opens (x : M World DB) (w : World) : Prop :=
  ends (fst (x w)) /\ forall db w', x w = (Ok db, w') -> tame (db, w').
Lemma opens_bind {A} (I : World -> Prop) (m : M World A) k w :
  returns_at I m w -> (forall a w', m w = (Ok a, w') -> I w' -> opens (k a) w') -> opens (m ≫= k) w.
Proof.
  intros [He Hi] Hk. unfold opens, mbind, M_bind. destruct (m w) as [[a|e|q|] w'] eqn:Em; try done. by apply Hk.
Qed.
Lemma opens_fail {A} (m : M World A) (k : A -> M World DB) w : always_ends m -> (forall a w db w', k a w <> (Ok db, w')) ->
  (forall a, always_ends (k a)) -> opens (m ≫= k) w.
Proof.
  intros Hm Hk He. split; [by apply mbind_ends|]. intros db w' Hrun. apply M_bind_inv in Hrun as (a & w1 & _ & Hrun). by apply Hk in Hrun.
Qed.

Lemma recovered_returns s : replayable s ->
  returns_at tame (r ← try_ openTables;
    match r with
    | inr e => _ ← try_ (on_wal Wal.Close); _ ← try_ (on_lock FileLock.Release); throw e
    | inl _ => r ← try_ replayWAL; match r with inr e => _ ← try_ (closeUnlocked (F := F)); throw e | inl _ => mret tt end
    end) s.
Proof.
  intros Hs. apply (returns_at_bind_to replayable tame); [by apply returns_at_try, openTables_returns|by intros s1 [? _]|].
  intros [u|e] s1 _ Hs1.
  - apply (returns_at_bind tame); [by apply returns_at_try, replayWAL_returns|]. intros [v|e] s2 _ Hs2; [by split|].
    apply returns_at_of; [returns_tac|done].
  - apply returns_at_of; [|apply Hs1]. apply returns_bind; [apply returns_try; auto with returns ends|]. intros _.
    apply returns_bind; [apply returns_try; auto with returns ends|auto with returns].
Qed.

Lemma Open_returns seed d o w : small w -> opens (Db.Open (F := F) seed d o) w.
Proof.
  intros Hw. unfold Db.Open. cbv zeta. destruct (String.eqb d ""); [done|].
  apply (opens_bind small); [by apply returns_at_of; [apply small_syscall, returns_ret|]|]. intros [] w1 _ Hw1.
  apply (opens_bind small); [by apply small_Acquire|]. intros lk w2 _ Hw2.
  assert (Hrel: always_ends (fun w => match FileLock.Release (Some lk, w) with (_, (_, w')) => (Ok tt, w') end)).
  { intros w0. by destruct (FileLock.Release (Some lk, w0)) as [? []]. }
  apply (opens_bind small); [apply returns_at_try; by apply small_manifest_Open|]. intros [mf|e] w3 _ Hw3; [|by apply opens_fail].
  apply (opens_bind (fun _ => True)).
  { split; [|done]. apply try_ends_at. by apply Wal.Open_ends. }
  intros [l|e] w4 Hl _; [|by apply opens_fail].
  assert (0 <= Wal.size l < 2 ^ 61) as Hsz.
  { unfold try_ in Hl. destruct (Wal.Open d (walOpts (normalize o)) w3) as [[l0|e|q|] w0] eqn:Eo; try done. injection Hl as -> _.
    by apply (Wal.Open_size _ _ _ _ _ Hw3) in Eo. }
  set (maxSeq := if _ <? _ then _ else _). set (l' := if Wal.nextSeq l <? maxSeq then Wal.set_nextSeq maxSeq l else l).
  assert (Wal.size l' = Wal.size l) as Hl' by (unfold l'; by case_match).
  apply (opens_bind (fun _ => True)); [by split|]. intros [u l1] w5 [= _ <- <-] _. cbv zeta. fold l'.
  set (db := mkDB d _ _ l' _ mf [] false). assert (replayable (db, w4)) as Hrp.
  { split; [eexists; apply repr_New|]. cbn. by rewrite Hl'. }
  destruct (scoped_at tame _ db w4 (recovered_returns _ Hrp)) as [He Ht]. split.
  - apply mbind_ends_at; [exact He|]. by intros [? ?].
  - intros db' w' Hrun. apply M_bind_inv in Hrun as ([v db1] & w6 & Hsc & [= <- <-]). by eapply Ht.
Qed.

(** ** Sessions *)

Inductive request := ROp (c : call) | RGet (key : slice) | RHas (key : slice) | RIter | RSync | RClose.
Definition request_ok (r : request) : Prop := r <> ROp CReopen.

Definition run_request (seed : nat -> Z) (o : option Db.Options) (r : request) : MD unit :=
  match r with
  | ROp c => run_call (F := F) seed o c
  | RGet key => _ ← Db.Get key; mret tt
  | RHas key => _ ← Db.Has key; mret tt
  | RIter => _ ← Db.Iterator.NewIterator; mret tt
  | RSync => Db.Sync
  | RClose => Db.Close (F := F)
  end.

(** The outcomes of a client's calls, up to a panic, which ends the process. *)
Fixpoint outcomes (seed : nat -> Z) (o : option Db.Options) (rs : list request) (s : DB * World) : list (outcome unit) :=
  match rs with
  | [] => []
  | r :: rs =>
      let '(x, s') := run_request seed o r s in
      x :: match x with Ok _ | Err _ => outcomes seed o rs s' | _ => [] end
  end.

Lemma tame_request seed o r : request_ok r -> returns tame (run_request seed o r).
Proof.
  destruct r as [c|key|key| | |]; cbn [run_request]; intros Hr.
  - apply tame_call. by intros ->.
  - returns_tac.
  - apply returns_bind; [unfold Db.Has; returns_tac|auto with returns].
  - apply returns_bind; [apply tame_NewIterator|auto with returns].
  - unfold Db.Sync. apply returns_bind; [auto with returns|]. intros [|]; auto with returns ends.
  - apply tame_close.
Qed.

(** C28: No call on a database runs for ever.  In a directory with any files, some
    of them perhaps corrupt, and under any schedule of failing calls of package
    os, [Open] comes to an end, be it with a database, an error or a panic; and
    so does each call that a client then makes on the database, in any order,
    [Close] included, up to the first one that panics, as corrupt files can make
    them do. *)
Theorem calls_end seed d o w rs (Hw : small w) (Hrs : Forall request_ok rs) :
  ends (fst (Db.Open (F := F) seed d o w)) /\
  forall db w1, Db.Open (F := F) seed d o w = (Ok db, w1) -> Forall ends (outcomes seed o rs (db, w1)).
Proof.
  destruct (Open_returns seed d o w Hw) as [He Ht]. split; [done|]. intros db w1 Hopen. apply Ht in Hopen. revert Hopen.
  generalize (db, w1). clear db w1 He Ht. induction Hrs as [|r rs Hr _ IH]; intros s Hs; cbn [outcomes]; [constructor|].
  destruct (tame_request seed o r Hr s Hs) as [He Ht]. destruct (run_request seed o r s) as [x s']. constructor; [done|].
  destruct x; try constructor; by apply IH.
Qed.
End opening.

(** ** Witness *)

#[local] Existing Instances Codec.codec Q_Float64.
#[local] Instance ends_env : FileLock.Env := FileLock.demo_env 0.

Lemma demo_short : short_texts (J := Codec.codec).
Proof.
  split.
  - intros [d p fd h i n] w Hn Hp. unfold FileLock.lock_content. rewrite Hn, Hp. by vm_compute.
  - intros w. by vm_compute.
Qed.

(** What a session leaves behind, with a byte of a block of the table turned
    into another one and junk at the end of the log; some calls fail. *)
Definition corrupted (p : string) (g : list byte -> list byte) (w : World) : World :=
  match names w !! p with Some i => set_inodes (alter g i (inodes w)) w | None => w end.
Definition junk_world : World :=
  match (db ← Db.Open (F := Q) (fun _ => 0) "d" None;
    '(_, db) ← scoped (run_calls (F := Q) (fun _ => 0) None [CPut (Some [x61]) (Some [x62]); CPut (Some [x62]) None; CFlush] ;;
      Db.Close (F := Q)) db; mret tt) empty_world with
  | (Ok _, w) => set_faults (replicate 40 None ++ [Some 3%nat; None; Some 0%nat])
      (corrupted "d/wal.log" (fun c => c ++ [x01; x00; x00]) (corrupted "d/000001.sst" (<[2%nat := x77]>) w))
  | _ => empty_world
  end.

Definition demo_requests : list request :=
  [RGet (Some [x61]); RIter; ROp (CPut (Some [x63]) (Some [x62])); ROp CFlush; ROp (CDelete (Some [x61])); RHas (Some [x61]);
   ROp CFlush; ROp CCompact; RClose; RSync].

Lemma small_test w : forallb (fun c => len c <? 2 ^ 61) (inodes w) = true -> small w.
Proof.
  unfold small. intros Hb. apply Forall_forall. intros c Hc. apply Z.ltb_lt. rewrite forallb_forall in Hb.
  by apply Hb.
Qed.
Lemma demo_requests_ok : small junk_world /\ Forall request_ok demo_requests.
Proof. split; [apply small_test; by vm_compute|by repeat constructor]. Qed.

Lemma calls_end_witness :
  ends (fst (Db.Open (F := Q) (fun _ => 0) "d" None junk_world)) /\
  forall db w1, Db.Open (F := Q) (fun _ => 0) "d" None junk_world = (Ok db, w1) ->
    Forall ends (outcomes (F := Q) (fun _ => 0) None demo_requests (db, w1)).
Proof.
  apply (calls_end demo_short); [exact (proj1 demo_requests_ok)|exact (proj2 demo_requests_ok)].
Defined.

(** The session, computed: which calls return a result. *)
Definition session (rs : list request) (w : World) : option (list bool) :=
  match Db.Open (F := Q) (fun _ => 0) "d" None w with
  | (Ok db, w1) => Some (is_ok <$> outcomes (F := Q) (fun _ => 0) None rs (db, w1))
  | _ => None
  end.
Example demo_session : session demo_requests junk_world = Some [false; true; true; false; false; false; true; true; true; false].
Proof. by vm_compute. Qed.
