(* ===== verification/DbSteps.v ===== *)
(** * DbSteps: the methods of a database step by step

    What a method of lsmkv/db.go does between taking the lock and releasing it,
    cut where another goroutine could run: at every call of another package and
    every access to a field.  Run without interruption, the steps are the
    method of Db. *)

From Stdlib Require Import ZArith Lia Strings.Byte.
From stdpp Require Import base decidable list gmap strings numbers.
From S2P Require Import Prelude Bloom ByteUtil Os Wal SkipList SSTable Manifest FileLock Compact Db.
#[local] Open Scope Z_scope.

(** ** Code *)

(** A computation that can be interrupted: its next step and what follows, by
    the step's outcome. *)
Inductive code (A : Type) : Type :=
  | Done (o : outcome A)
  | Step {B : Type} (x : MD B) (k : outcome B -> code A).
Arguments Done {A} o.
Arguments Step {A B} x k.

Fixpoint run_code {A} (p : code A) : MD A := fun s =>
  match p with
  | Done o => (o, s)
  | Step x k => match x s with (o, s') => run_code (k o) s' end
  end.

(** A step whose error is passed on. *)
Definition next {A B} (x : MD B) (k : B -> code A) : code A :=
  Step x (fun o => match o with Ok b => k b | Err e => Done (Err e) | Panic p => Done (Panic p) | Stuck => Done Stuck end).

(** [p] and then a result that depends on its outcome. *)
Fixpoint finish {A B} (p : code A) (f : outcome A -> B) : code B :=
  match p with Done o => Done (Ok (f o)) | Step x k => Step x (fun o => finish (k o) f) end.

Definition implements {A} (p : code A) (x : MD A) : Prop := forall s, run_code p s = x s.

Lemma implements_next {A B} (x : MD B) (k : B -> code A) (g : B -> MD A) :
  (forall b, implements (k b) (g b)) -> implements (next x k) (x ≫= g).
Proof. intros Hk s. cbn. unfold mbind, M_bind. destruct (x s) as [[b|e|p|] s']; [apply Hk|done..]. Qed.
Lemma implements_last {A} (x : MD A) : implements (Step x Done) x.
Proof. intros s. cbn. by destruct (x s). Qed.
Lemma implements_ret {A} (a : A) : implements (Done (Ok a)) (mret a).
Proof. by intros s. Qed.
Lemma implements_throw {A} e : implements (Done (A := A) (Err e)) (throw e).
Proof. by intros s. Qed.

Create HintDb implements.
#[export] Hint Resolve implements_last implements_ret implements_throw : implements.
Ltac implements_tac := repeat first [ solve [eauto with implements]
  | match goal with
    | |- forall _, _ => intros ?
    | |- implements (next _ _) _ => apply implements_next
    end | progress cbv zeta | case_match ].

Lemma finish_run {A B} (p : code A) (f : outcome A -> B) : forall s,
  run_code (finish p f) s = match run_code p s with (o, s') => (Ok (f o), s') end.
Proof. induction p as [o|B' x k IH]; intros s; cbn; [done|]. by destruct (x s) as [o s']. Qed.

(** ** Methods that write *)

Section steps.
Context {F : Type} `{Float64 F} {J : Manifest.Json}.

Definition flush_code : code unit :=
  next (get mem) (fun m =>
  next (lift (MemTable.Snapshot m)) (fun snap =>
  if len snap =? 0 then Done (Ok tt)
  else
    next (on_manif Manifest.AllocFileName) (fun name =>
    next (get dir) (fun d =>
    let path := filepath_Join d name in
    let '(entries, maxSeq, minKey, maxKey) := fold_left flush_step snap ([], 0, None, None) in
    next (io (SSTable.WriteFile (F := F) path entries None)) (fun meta =>
    let fm := Manifest.mkFileMeta name 0 (Clone minKey) (Clone maxKey) maxSeq (len entries) (SSTable.mFileSize meta) in
    next (try_ (on_manif (Manifest.AddFile fm maxSeq))) (fun r =>
    match r with
    | inr e => next (try_ (io (Remove path))) (fun _ => Done (Err e))
    | inl _ =>
        next (io (SSTable.Open path)) (fun r =>
        next (upd (fun db => set_tables (tables db ++ [r]) db)) (fun _ =>
        next (upd (fun db => set_mem (MemTable.Clear (mem db)) db)) (fun _ =>
        next (on_wal Wal.Reset) (fun _ =>
        Step (on_wal (Wal.SetNextSeq maxSeq)) Done))))
    end)))))).

Definition writable_code (p : code unit) : code unit :=
  next (get closed) (fun c => if (c : bool) then Done (Err ErrClosed) else
  next (get (fun db => ReadOnly (opts db))) (fun ro => if (ro : bool) then Done (Err ErrReadOnly) else p)).

Definition maybe_flush_code : code unit :=
  next (get (fun db => MemTable.ShouldFlush (mem db))) (fun full => if (full : bool) then flush_code else Done (Ok tt)).

Definition Put_code (key value : slice) : code unit := writable_code (
  next (on_wal (Wal.AppendPut key value)) (fun seq =>
  next (on_mem (MemTable.Put key value seq)) (fun _ => maybe_flush_code))).

Definition Delete_code (key : slice) : code unit := writable_code (
  next (on_wal (Wal.AppendDelete key)) (fun seq =>
  next (on_mem (MemTable.Delete key seq)) (fun _ => maybe_flush_code))).

(** The loop over the batch, and then [p]. *)
Fixpoint apply_code (es : list Wal.BatchEntry) (first i : Z) (p : code unit) : code unit :=
  match es with
  | [] => p
  | e :: es =>
      let seq := u64 (first + i) in
      next (on_mem (if Wal.bDeleted e then MemTable.Delete (Wal.bKey e) seq
                    else MemTable.Put (Wal.bKey e) (Wal.bValue e) seq)) (fun _ =>
      apply_code es first (i + 1) p)
  end.

Definition Write_code (es : list Wal.BatchEntry) : code unit := writable_code (
  next (on_wal (Wal.AppendBatch es)) (fun _ =>
  next (get (fun db => Wal.NextSeq (wal db))) (fun nxt =>
  let last := u64 (nxt - 1) in
  let first := u64 (u64 (last - len es) + 1) in
  apply_code es first 0 maybe_flush_code))).

Definition Flush_code : code unit := writable_code flush_code.

Definition Compact_code : code unit := writable_code (
  next (get tables) (fun ts =>
  next (get (fun db => CompactThreshold (opts db))) (fun th =>
  if len ts <? th then Done (Ok tt)
  else
    next (get dir) (fun d =>
    next (get (fun db => Manifest.Files (manif db))) (fun files =>
    let byPath : gmap string Manifest.FileMeta :=
      fold_left (fun m f => <[filepath_Join d (Manifest.Name f) := f]> m) files ∅ in
    let refs := file_ref byPath <$> ts in
    next (try_ (on_manif (Compact.CompactDir (F := F) d refs Manifest.AllocFileName (Some (Compact.mkOptions false 0 0))))) (fun res =>
    match res with
    | inr e => if bool_decide (e = Compact.ErrNoInputs) then Done (Ok tt) else Done (Err e)
    | inl res =>
        next (io (close_merged ts (Compact.Removed res))) (fun '(ts', removeNames, kept) =>
        next (upd (set_tables ts')) (fun _ =>
        next (io (SSTable.Open (Compact.OutputPath res))) (fun out =>
        let kept := kept ++ [out] in
        let meta := Compact.rMeta res in
        let add := [Manifest.mkFileMeta (filepath_Base (Compact.OutputPath res)) 1
          (Clone (SSTable.MinKey meta)) (Clone (SSTable.MaxKey meta)) (SSTable.mMaxSeq meta) (SSTable.mEntries meta)
          (SSTable.mFileSize meta)] in
        next (on_manif (Manifest.Replace removeNames add (SSTable.mMaxSeq meta))) (fun _ =>
        next (io (remove_files (remove_dups (Compact.Removed res)))) (fun _ =>
        Step (upd (set_tables kept)) Done)))))
    end)))))).

(** Run without interruption, they are the methods. *)
Lemma implements_flush : implements flush_code (flushLocked (F := F)).
Proof. unfold flush_code, flushLocked. implements_tac. Qed.
Hint Resolve implements_flush : implements.
Lemma implements_writable p x : implements p x -> implements (writable_code p) (Db.writable x).
Proof. intros Hp. unfold writable_code, Db.writable. implements_tac. Qed.
Lemma implements_maybe_flush : implements maybe_flush_code (maybe_flush (F := F)).
Proof. unfold maybe_flush_code, maybe_flush. implements_tac. Qed.
Hint Resolve implements_maybe_flush : implements.
Lemma implements_apply es first p x : implements p x -> forall i,
  implements (apply_code es first i p) (apply_entries es first i;; x).
Proof.
  intros Hp. induction es as [|e es IH]; intros i s; cbn [apply_code apply_entries].
  - rewrite Hp. by rewrite (M_bind_Ok _ _ _ tt s).
  - cbn. unfold mbind at 1 2, M_bind at 1 2. destruct (on_mem _ s) as [[u|e'|q|] s']; [apply IH|done..].
Qed.
Hint Resolve implements_apply : implements.
Lemma implements_Put key value : len (bs key) <> 0 -> implements (Put_code key value) (Put (F := F) key value).
Proof. intros Hk. unfold Put. rewrite (proj2 (Z.eqb_neq _ _)) by done. apply implements_writable. implements_tac. Qed.
Lemma implements_Delete key : len (bs key) <> 0 -> implements (Delete_code key) (Delete (F := F) key).
Proof. intros Hk. unfold Delete. rewrite (proj2 (Z.eqb_neq _ _)) by done. apply implements_writable. implements_tac. Qed.
Lemma implements_Write b : len (WriteBatch.entries b) <> 0 -> implements (Write_code (WriteBatch.entries b)) (Write (F := F) (Some b)).
Proof. intros Hk. unfold Write. rewrite (proj2 (Z.eqb_neq _ _)) by done. apply implements_writable. implements_tac. Qed.
Lemma implements_Flush : implements Flush_code (Flush (F := F)).
Proof. apply implements_writable, implements_flush. Qed.
Lemma implements_Compact : implements Compact_code (Compact (F := F)).
Proof. apply implements_writable. implements_tac. Qed.
End steps.

(** ** Methods that read *)

(** The end of [Get]. *)
Definition found (best : option SSTable.Entry) : outcome slice :=
  match best with
  | None => Err ErrNotFound
  | Some b => if SSTable.Deleted b then Err ErrNotFound else Ok (Clone (SSTable.Value b))
  end.
Fixpoint get_loop_code (ts : list SSTable.Reader) (key : list byte) (best : option SSTable.Entry) : code slice :=
  match ts with
  | [] => Done (found best)
  | t :: ts =>
      next (io (SSTable.Get t key)) (fun e =>
      match e with
      | None => get_loop_code ts key best
      | Some e =>
          let better := match best with None => true | Some b => SSTable.Seq b <? SSTable.Seq e end in
          get_loop_code ts key (if better then Some e else best)
      end)
  end.
Definition Get_code (key : slice) : code slice :=
  next (get closed) (fun c => if (c : bool) then Done (Err ErrClosed) else
  next (get mem) (fun m =>
  next (lift (MemTable.Get key m)) (fun e =>
  match e with
  | Some e => if SkipList.Deleted e then Done (Err ErrNotFound) else Done (Ok (Clone (SkipList.Value e)))
  | None => next (get tables) (fun ts => get_loop_code (rev ts) (bs key) None)
  end))).

Fixpoint merge_code (ts : list SSTable.Reader) (m : gmap (list byte) iterItem) : code Iterator.Iterator :=
  match ts with
  | [] => Done (Ok (Iterator.mkIterator (sorted_items m) (-1) true))
  | t :: ts => next (io (it ← SSTable.Iterator.NewIterator t; merge_table (reader_fuel t) t it m)) (merge_code ts)
  end.
Definition NewIterator_code : code Iterator.Iterator :=
  next (get mem) (fun mt =>
  next (lift (MemTable.Snapshot mt)) (fun snap =>
  next (get tables) (fun ts =>
  merge_code ts (fold_left (fun m e => update m (SkipList.Key e) (SkipList.Value e) (SkipList.Seq e) (SkipList.Deleted e)) snap ∅)))).

Lemma io_bind {A B} (x : M World A) (k : A -> M World B) (s : DB * World) : io (x ≫= k) s = (io x ≫= fun a => io (k a)) s.
Proof. unfold io, zoom, mbind, M_bind. cbn. by destruct (x (snd s)) as [[a|e|p|] w']. Qed.

Lemma implements_get_loop ts key : forall best,
  implements (get_loop_code ts key best) (b ← io (get_loop ts key best);
    match b with
    | None => throw ErrNotFound
    | Some b => if SSTable.Deleted b then throw ErrNotFound else mret (Clone (SSTable.Value b))
    end).
Proof.
  induction ts as [|t ts IH]; intros best s; cbn [get_loop_code get_loop].
  - rewrite (M_bind_Ok _ _ _ best s) by (destruct s; done). destruct best as [b|]; [|done]. cbn. by destruct (SSTable.Deleted b).
  - cbn. unfold mbind at 1, M_bind at 1. rewrite io_bind. unfold mbind at 1, M_bind at 1.
    destruct (io (SSTable.Get t key) s) as [[[e|]|e|p|] s']; [apply IH|apply IH|done..].
Qed.
Lemma implements_Get key : implements (Get_code key) (Get key).
Proof.
  unfold Get_code, Get. apply implements_next. intros []; [auto with implements|]. apply implements_next. intros mt.
  apply implements_next. intros [e|]; [by destruct (SkipList.Deleted e); auto with implements|].
  apply implements_next. intros ts. apply implements_get_loop.
Qed.

Lemma implements_merge ts : forall m,
  implements (merge_code ts m) (m ← io (merge_tables ts m); mret (Iterator.mkIterator (sorted_items m) (-1) true)).
Proof.
  induction ts as [|t ts IH]; intros m s; [by destruct s|]. cbn [merge_code merge_tables run_code next].
  unfold io, zoom, mbind, M_bind. cbn [fst snd]. destruct (SSTable.Iterator.NewIterator t (snd s)) as [[it|e|p|] w1]; [|done..].
  destruct (merge_table (reader_fuel t) t it m w1) as [[m'|e|p|] w2]; [|done..]. rewrite IH. done.
Qed.
Lemma implements_NewIterator : implements NewIterator_code Iterator.NewIterator.
Proof.
  intros [db w]. unfold NewIterator_code, Iterator.NewIterator, collectMerged. cbn [run_code next].
  unfold mbind, M_bind, get, gets, lift. cbn [fst snd].
  destruct (MemTable.Snapshot (mem db)) as [snap|e|p|]; [|done..]. unfold next. cbn [run_code fst].
  rewrite implements_merge. unfold mbind, M_bind. by destruct (io _ (db, w)) as [[m|e|p|] s'].
Qed.
