(* ===== verification/DbThreads.v ===== *)
(** * DbThreads: goroutines that share a database

    Goroutines call the methods of one DB and iterate over it.  The methods run
    step by step (DbSteps) and interleave as the read-write mutex [db.mu]
    allows: a writing method holds it exclusively, [Get] shares it, and an
    iterator shares it from [NewIterator] until its [Close].  Every interleaving
    is equivalent to running the calls one after the other. *)

From Stdlib Require Import ZArith Lia QArith Strings.Byte.
From stdpp Require Import base decidable list gmap strings numbers sorting relations.
From S2P Require Import Prelude Bloom ByteUtil Os OsFacts Wal SkipList SSTable SSTableFacts SSTableSpec Manifest ManifestFacts ManifestProps FileLock Compact CompactFacts CompactMerge CompactProps Db DbSpec DbFiles DbLedger DbState DbFlush DbRefine DbIter DbOpen DbRun DbSteps.
#[local] Open Scope Z_scope.

(** ** Goroutines *)

(** What a goroutine does with the database. *)
Inductive action := ACall (c : call) | AGet (key : slice) | AIter | AClose.
Inductive answer := RGet (o : outcome slice) | RIter (o : outcome Iterator.Iterator).
Inductive event := ECall (c : call) (o : outcome unit) | ERead (a : action) (r : answer) | EClose.

Definition event_action (e : event) : action := match e with ECall c _ => ACall c | ERead a _ => a | EClose => AClose end.

(** Between its calls, waiting for the lock, in a writing method, or in a
    reading one. *)
Inductive activity :=
  | Idle
  | Waiting (c : call) (p : code unit)
  | Writing (c : call) (p : code unit)
  | Reading (a : action) (p : code answer).

(** What is left to do, the open iterators, the last one first, and what the
    goroutine is doing. *)
Record thread := mkThread { acts : list action; its : list Iterator.Iterator; now : activity }.

(** A sync.RWMutex: the read locks, the write lock, and the calls of Lock that
    wait, which exclude new read locks. *)
Record mutex := mkMutex { readers : Z; writer : bool; waiting : Z }.

Record config := mkConfig { shared : DB * World; mu : mutex; threads : list thread; history : list (nat * event) }.

Definition start (s : DB * World) (programs : list (list action)) : config :=
  mkConfig s (mkMutex 0 false 0) ((fun p => mkThread p [] Idle) <$> programs) [].

Section step.
Context {F : Type} `{Float64 F} {J : Manifest.Json}.

(** A method returns before it takes the lock, or runs under it. *)
Definition call_code (c : call) : outcome unit + code unit :=
  match c with
  | CPut key value => if len (bs key) =? 0 then inl (Err ErrInvalid) else inr (Put_code (F := F) key value)
  | CDelete key => if len (bs key) =? 0 then inl (Err ErrInvalid) else inr (Delete_code (F := F) key)
  | CWrite b => if len (WriteBatch.entries b) =? 0 then inl (Ok tt) else inr (Write_code (F := F) (WriteBatch.entries b))
  | CFlush => inr (Flush_code (F := F))
  | CCompact => inr (Compact_code (F := F))
  | CReopen => inl (Err ErrInvalid)
  end.
Definition read_code (a : action) : option (code answer) :=
  match a with
  | AGet key => Some (finish (Get_code key) RGet)
  | AIter => Some (finish NewIterator_code RIter)
  | _ => None
  end.

Definition put_thread (i : nat) (t : thread) (s : DB * World) (u : mutex) (g : config) : config :=
  mkConfig s u (<[i := t]> (threads g)) (history g).
Definition record (i : nat) (e : event) (g : config) : config :=
  mkConfig (shared g) (mu g) (threads g) (history g ++ [(i, e)]).

Inductive cstep (g : config) : config -> Prop :=
  | c_return i t c o l : threads g !! i = Some t -> now t = Idle -> acts t = ACall c :: l -> call_code c = inl o ->
      cstep g (record i (ECall c o) (put_thread i (mkThread l (its t) Idle) (shared g) (mu g) g))
  | c_lock i t c p l : threads g !! i = Some t -> now t = Idle -> acts t = ACall c :: l -> call_code c = inr p ->
      cstep g (put_thread i (mkThread (acts t) (its t) (Waiting c p)) (shared g)
        (mkMutex (readers (mu g)) (writer (mu g)) (waiting (mu g) + 1)) g)
  | c_enter i t c p : threads g !! i = Some t -> now t = Waiting c p -> writer (mu g) = false -> readers (mu g) = 0 ->
      cstep g (put_thread i (mkThread (acts t) (its t) (Writing c p)) (shared g)
        (mkMutex 0 true (waiting (mu g) - 1)) g)
  | c_write i t c B (x : MD B) k o s : threads g !! i = Some t -> now t = Writing c (Step x k) -> x (shared g) = (o, s) ->
      cstep g (put_thread i (mkThread (acts t) (its t) (Writing c (k o))) s (mu g) g)
  | c_unlock i t c o a l : threads g !! i = Some t -> now t = Writing c (Done o) -> acts t = a :: l ->
      cstep g (record i (ECall c o) (put_thread i (mkThread l (its t) Idle) (shared g)
        (mkMutex (readers (mu g)) false (waiting (mu g))) g))
  | c_rlock i t a p l : threads g !! i = Some t -> now t = Idle -> acts t = a :: l -> read_code a = Some p ->
      writer (mu g) = false -> waiting (mu g) = 0 ->
      cstep g (put_thread i (mkThread (acts t) (its t) (Reading a p)) (shared g)
        (mkMutex (readers (mu g) + 1) false 0) g)
  | c_read i t a B (x : MD B) k o s : threads g !! i = Some t -> now t = Reading a (Step x k) -> x (shared g) = (o, s) ->
      cstep g (put_thread i (mkThread (acts t) (its t) (Reading a (k o))) s (mu g) g)
  | c_runlock i t a o b l : threads g !! i = Some t -> now t = Reading a (Done (Ok (RGet o))) -> acts t = b :: l ->
      cstep g (record i (ERead a (RGet o)) (put_thread i (mkThread l (its t) Idle) (shared g)
        (mkMutex (readers (mu g) - 1) (writer (mu g)) (waiting (mu g))) g))
  | c_opened i t a it b l : threads g !! i = Some t -> now t = Reading a (Done (Ok (RIter (Ok it)))) -> acts t = b :: l ->
      cstep g (record i (ERead a (RIter (Ok it))) (put_thread i (mkThread l (it :: its t) Idle) (shared g) (mu g) g))
  | c_close i t it k l : threads g !! i = Some t -> now t = Idle -> acts t = AClose :: l -> its t = it :: k ->
      cstep g (record i EClose (put_thread i (mkThread l k Idle) (shared g)
        (mkMutex (readers (mu g) - 1) (writer (mu g)) (waiting (mu g))) g)).

(** The step of thread [i], if it can make one. *)
Definition step_thread (i : nat) (g : config) : option config :=
  t ← threads g !! i;
  let u := mu g in
  match now t with
  | Idle =>
      match acts t with
      | [] => None
      | ACall c :: l =>
          match call_code c with
          | inl o => Some (record i (ECall c o) (put_thread i (mkThread l (its t) Idle) (shared g) u g))
          | inr p => Some (put_thread i (mkThread (acts t) (its t) (Waiting c p)) (shared g)
              (mkMutex (readers u) (writer u) (waiting u + 1)) g)
          end
      | AClose :: l =>
          match its t with
          | [] => None
          | _ :: k => Some (record i EClose (put_thread i (mkThread l k Idle) (shared g)
              (mkMutex (readers u - 1) (writer u) (waiting u)) g))
          end
      | a :: _ =>
          p ← read_code a;
          if negb (writer u) && (waiting u =? 0)
          then Some (put_thread i (mkThread (acts t) (its t) (Reading a p)) (shared g) (mkMutex (readers u + 1) false 0) g)
          else None
      end
  | Waiting c p =>
      if negb (writer u) && (readers u =? 0)
      then Some (put_thread i (mkThread (acts t) (its t) (Writing c p)) (shared g) (mkMutex 0 true (waiting u - 1)) g)
      else None
  | Writing c (Step x k) =>
      let (o, s) := x (shared g) in Some (put_thread i (mkThread (acts t) (its t) (Writing c (k o))) s u g)
  | Writing c (Done o) =>
      match acts t with
      | [] => None
      | _ :: l => Some (record i (ECall c o) (put_thread i (mkThread l (its t) Idle) (shared g)
          (mkMutex (readers u) false (waiting u)) g))
      end
  | Reading a (Step x k) =>
      let (o, s) := x (shared g) in Some (put_thread i (mkThread (acts t) (its t) (Reading a (k o))) s u g)
  | Reading a (Done r) =>
      match acts t, r with
      | _ :: l, Ok (RGet o) => Some (record i (ERead a (RGet o)) (put_thread i (mkThread l (its t) Idle) (shared g)
          (mkMutex (readers u - 1) (writer u) (waiting u)) g))
      | _ :: l, Ok (RIter (Ok it)) =>
          Some (record i (ERead a (RIter (Ok it))) (put_thread i (mkThread l (it :: its t) Idle) (shared g) u g))
      | _, _ => None
      end
  end.

(** The steps of the threads are the steps of the relation. *)
Lemma step_thread_sound i g g' : step_thread i g = Some g' -> cstep g g'.
Proof.
  unfold step_thread. destruct (threads g !! i) as [t|] eqn:Hi; [|done]. cbn [mbind option_bind]. cbv zeta.
  destruct (now t) as [|c p|c [o|B x k]|a [r|B x k]] eqn:Hn.
  - destruct (acts t) as [|[c|key| |] l] eqn:Ha; [done| | | |].
    + destruct (call_code c) as [o|p] eqn:Hc; intros [= <-]; [by eapply c_return|]. rewrite <- Ha. by eapply c_lock.
    + destruct (writer (mu g)) eqn:Hw; [done|]. destruct (Z.eqb_spec (waiting (mu g)) 0); [|done]. intros [= <-]. rewrite <- Ha. by eapply c_rlock.
    + destruct (writer (mu g)) eqn:Hw; [done|]. destruct (Z.eqb_spec (waiting (mu g)) 0); [|done]. intros [= <-]. rewrite <- Ha. by eapply c_rlock.
    + destruct (its t) as [|it k] eqn:Hit; intros [= <-]. by eapply c_close.
  - destruct (writer (mu g)) eqn:Hw; [done|]. destruct (Z.eqb_spec (readers (mu g)) 0); [|done]. intros [= <-]. by eapply c_enter.
  - destruct (acts t) as [|a l] eqn:Ha; intros [= <-]. by eapply c_unlock.
  - destruct (x (shared g)) as [o s] eqn:Hx. intros [= <-]. by eapply c_write.
  - destruct (acts t) as [|b l] eqn:Ha; [done|]. destruct r as [[o|[it|e|q|]]|e|q|]; intros [= <-]; [by eapply c_runlock|by eapply c_opened].
  - destruct (x (shared g)) as [o s] eqn:Hx. intros [= <-]. by eapply c_read.
Qed.
Lemma step_thread_complete g g' : cstep g g' -> exists i, step_thread i g = Some g'.
Proof.
  intros Hs; destruct Hs as [i t c r l Hi Hn Ha Hc|i t c p l Hi Hn Ha Hc|i t c p Hi Hn Hw Hr|i t c B x k r s Hi Hn Hx|i t c r a l Hi Hn Ha
    |i t a p l Hi Hn Ha Hc Hw Hwt|i t a B x k r s Hi Hn Hx|i t a r b l Hi Hn Ha|i t a it b l Hi Hn Ha|i t it k l Hi Hn Ha Hit];
    exists i; unfold step_thread; rewrite Hi; cbn [mbind option_bind]; cbv zeta; rewrite Hn, ?Ha, ?Hc, ?Hx; try done.
  - by rewrite Hw, Hr.
  - destruct a; try done; injection Hc as <-; cbn; by rewrite Hw, Hwt.
  - by rewrite Hit.
Qed.
End step.

(** ** Histories of a map *)

Definition lists (it : Iterator.Iterator) (m : kvmap) : Prop :=
  StronglySorted blt ((pair_of <$> Iterator.items it).*1) /\ forall k v, (k, v) ∈ pair_of <$> Iterator.items it <-> m !! k = Some v.

Definition correct (m : kvmap) (a : action) (r : answer) : Prop :=
  match a, r with
  | AGet key, RGet o => answers o (m !! bs key)
  | AIter, RIter (Ok it) => lists it m
  | _, _ => False
  end.

(** One after the other, the events take the map [m] to [m']. *)
Fixpoint legal (m : kvmap) (es : list event) (m' : kvmap) : Prop :=
  match es with
  | [] => m' = m
  | ECall c o :: es => o = Ok tt /\ legal (call_map m c) es m'
  | ERead a r :: es => correct m a r /\ legal m es m'
  | EClose :: es => legal m es m'
  end.

Definition events_of (i : nat) (h : list (nat * event)) : list event :=
  omap (fun x => if bool_decide (fst x = i) then Some (snd x) else None) h.

Lemma legal_app es es' : forall m m1 m', legal m es m1 -> legal m1 es' m' -> legal m (es ++ es') m'.
Proof.
  induction es as [|[c o|a r|] es IH]; intros m m1 m' H1 H2; cbn in *.
  - by subst.
  - destruct H1 as [? H1]. split; [done|]. by eapply IH.
  - destruct H1 as [? H1]. split; [done|]. by eapply IH.
  - by eapply IH.
Qed.

Lemma events_of_app i h h' : events_of i (h ++ h') = events_of i h ++ events_of i h'.
Proof. apply omap_app. Qed.

(** ** Counting *)

Definition total (f : thread -> Z) (ts : list thread) : Z := foldr (fun t n => f t + n) 0 ts.

Lemma total_update f ts : forall i t t', ts !! i = Some t -> total f (<[i := t']> ts) = total f ts - f t + f t'.
Proof.
  induction ts as [|u ts IH]; intros [|i] t t' Hi; [done|done|injection Hi as ->; cbn; lia|].
  change (f u + total f (<[i := t']> ts) = f u + total f ts - f t + f t'). rewrite (IH i t t' Hi). lia.
Qed.
Lemma total_ge f ts : (forall t, 0 <= f t) -> 0 <= total f ts /\ forall i t, ts !! i = Some t -> f t <= total f ts.
Proof.
  intros Hf. induction ts as [|u ts [IH1 IH2]]; [split; [done|by intros i t]|]. pose proof (Hf u) as Hu.
  change (0 <= f u + total f ts /\ forall i t, (u :: ts) !! i = Some t -> f t <= f u + total f ts).
  split; [lia|]. intros [|i] t Ht; [injection Ht as ->; lia|]. specialize (IH2 i t Ht). lia.
Qed.
Lemma total_two f ts : (forall t, 0 <= f t) -> forall i j t u, ts !! i = Some t -> ts !! j = Some u -> i <> j -> f t + f u <= total f ts.
Proof.
  intros Hf. induction ts as [|x ts IH]; intros [|i] [|j] t u Hi Hj Hne; try done; pose proof (total_ge f ts Hf) as [_ Hge];
    change (total f (x :: ts)) with (f x + total f ts); cbn in Hi, Hj.
  - injection Hi as ->. specialize (Hge j u Hj). lia.
  - injection Hj as ->. specialize (Hge i t Hi). lia.
  - pose proof (Hf x). specialize (IH i j t u Hi Hj ltac:(congruence)). lia.
Qed.

Definition n_readers (t : thread) : Z := len (its t) + match now t with Reading _ _ => 1 | _ => 0 end.
Definition n_writers (t : thread) : Z := match now t with Writing _ _ => 1 | _ => 0 end.
Definition n_waiting (t : thread) : Z := match now t with Waiting _ _ => 1 | _ => 0 end.
Definition cost_left (t : thread) : Z := total_cost (omap (fun a => match a with ACall c => Some c | _ => None end) (acts t)).

Lemma n_readers_nonneg t : 0 <= n_readers t.
Proof. unfold n_readers. destruct (now t); lia. Qed.
Lemma n_writers_nonneg t : 0 <= n_writers t.
Proof. unfold n_writers. destruct (now t); lia. Qed.
Lemma n_waiting_nonneg t : 0 <= n_waiting t.
Proof. unfold n_waiting. destruct (now t); lia. Qed.
Lemma cost_left_nonneg t : 0 <= cost_left t.
Proof. apply total_cost_nonneg. Qed.

(** Steps that leave the state alone. *)
Fixpoint quiet {A} (s : DB * World) (p : code A) : Prop :=
  match p with Done _ => True | Step x k => snd (x s) = s /\ quiet s (k (fst (x s))) end.

Lemma quiet_next {A B} (x : MD B) (k : B -> code A) s : 
  snd (x s) = s -> (forall b, x s = (Ok b, s) -> quiet s (k b)) -> quiet s (next x k).
Proof.
  intros Hs Hk. split; [done|]. destruct (x s) as [[b|e|p|] s'] eqn:Hx; cbn in *; subst; try done. by apply Hk.
Qed.
Lemma quiet_finish {A B} (p : code A) (f : outcome A -> B) s : quiet s p -> quiet s (finish p f).
Proof. induction p as [r|B' x k IH]; cbn; [done|]. intros [Hx Hk]. split; [done|by apply IH]. Qed.

(** ** Reading methods *)

Section reading.
Context {TA : TableAccess} {F : Type} `{Float64 F} {J : Manifest.Json} {JO : JsonOk J} {E : FileLock.Env}.

Lemma quiet_get_loop db w fl i key ts ess : Forall2 (serving w fl i) ts ess -> forall best, quiet (db, w) (get_loop_code ts key best).
Proof.
  induction 1 as [|t es ts ess Hs _ IH]; intros best; cbn [get_loop_code]; [done|].
  pose proof (db_io_run _ db w _ _ (access_Get t w es key (iu_opened _ _ _ (sv_use _ _ _ _ _ Hs)))) as Hrun.
  apply quiet_next; [by rewrite Hrun|]. intros [e|] _; apply IH.
Qed.

Lemma quiet_Get V db w m key : holds_map V (db, w) m -> quiet (db, w) (Get_code key).
Proof.
  intros (ess & n & os & i & B & _). unfold Get_code. apply quiet_next; [done|]. intros [] _; [done|].
  apply quiet_next; [done|]. intros mt _. apply quiet_next; [done|]. intros [e|] _; [by destruct (SkipList.Deleted e)|].
  apply quiet_next; [done|]. intros ts [= <-]. eapply quiet_get_loop. apply Forall2_rev, (ba_tables _ _ _ _ _ _ B).
Qed.

Lemma quiet_merge db w fl i ts ess : Forall2 (serving w fl i) ts ess -> forall M E0, gathers M E0 -> quiet (db, w) (merge_code ts M).
Proof.
  induction 1 as [|t es ts ess [[Hop Hfuel _] _] _ IH]; intros M E0 HM; cbn [merge_code]; [done|].
  destruct (access_NewIterator t w es Hop) as (it & Hit & Hr).
  destruct (merge_table_run t w es (reader_fuel t) it M E0 Hr Hfuel HM) as (M1 & H1 & HM1).
  pose proof (db_io_run (it ← SSTable.Iterator.NewIterator t; merge_table (reader_fuel t) t it M) db w (Ok M1) w) as Hrun.
  rewrite (M_bind_Ok _ _ _ _ _ Hit) in Hrun. specialize (Hrun H1).
  apply quiet_next; [by rewrite Hrun|]. rewrite Hrun. intros M2 [= <-]. by eapply IH.
Qed.

Lemma quiet_NewIterator V db w m : holds_map V (db, w) m -> quiet (db, w) NewIterator_code.
Proof.
  intros (ess & n & os & i & B & (mes & Hr & Hm) & _). unfold NewIterator_code. apply quiet_next; [done|]. intros mt [= <-].
  apply quiet_next; [done|]. cbn [fst] in *. unfold lift, MemTable.Snapshot. rewrite (SkipList.Snapshot_repr _ _ Hr). intros snap [= <-].
  apply quiet_next; [done|]. intros ts [= <-]. eapply quiet_merge; [apply (ba_tables _ _ _ _ _ _ B)|]. apply (gathers_mem mes ∅ [] gathers_empty).
Qed.

(** A read that begins will answer for the map, in this state. *)
Lemma read_begins V s m a p : holds_map V s m -> read_code a = Some p ->
  quiet s p /\ exists r, fst (run_code p s) = Ok r /\ correct m a r.
Proof.
  intros Hm Hp. destruct s as [db w], a as [c|key| |]; cbn [read_code] in Hp; try done.
  - assert (p = finish (Get_code key) RGet) as -> by congruence. split; [by eapply quiet_finish, quiet_Get|].
    rewrite finish_run, (implements_Get key). destruct (Get_run V db w m key Hm) as (r & -> & Ha). by exists (RGet r).
  - assert (p = finish NewIterator_code RIter) as -> by congruence. split; [by eapply quiet_finish, quiet_NewIterator|].
    rewrite finish_run, implements_NewIterator. destruct (NewIterator_run V db w m Hm) as (l & -> & Hl). by eexists.
Qed.

(** ** Writing methods *)

Lemma call_code_inl c o : c <> CReopen -> call_ok c -> call_code (F := F) c = inl o -> o = Ok tt /\ forall m, call_map m c = m.
Proof.
  destruct c as [key value|key|b| | |]; intros Hne Hok; unfold call_ok in Hok; cbn [call_code call_op op_keys] in *; try done.
  - destruct Hok as [[Hk _]%Forall_cons _]. by rewrite nonempty_len.
  - destruct Hok as [[Hk _]%Forall_cons _]. by rewrite nonempty_len.
  - destruct (Z.eqb_spec (len (WriteBatch.entries b)) 0) as [Hz|]; [|done]. intros [= <-]. split; [done|]. intros m. cbn [call_map].
    by destruct (WriteBatch.entries b).
Qed.

Lemma call_code_inr seed o c p : call_code (F := F) c = inr p -> implements p (run_call (F := F) seed o c).
Proof.
  destruct c as [key value|key|b| | |]; cbn [call_code run_call]; try case_match; try done; intros [= <-].
  - apply implements_Put. by apply Z.eqb_neq.
  - apply implements_Delete. by apply Z.eqb_neq.
  - apply implements_Write. by apply Z.eqb_neq.
  - apply implements_Flush.
  - apply implements_Compact.
Qed.
End reading.

(** ** The invariant *)

Definition action_ok (a : action) : Prop := match a with ACall c => c <> CReopen /\ call_ok c | _ => True end.

Section invariant.
Context {TA : TableAccess} {F : Type} `{Float64 F} {J : Manifest.Json} {JO : JsonOk J} {E : FileLock.Env}.
Context (seed : nat -> Z) (o : option Db.Options) (d : string) (cap Vmax : Z) (programs : list (list action)).

Record thread_ok (V : Z) (m : kvmap) (s : DB * World) (t : thread) : Prop := {
  to_acts : Forall action_ok (acts t);
  to_its : Forall (fun it => lists it m) (its t);
  to_now : match now t with
    | Idle => True
    | Waiting c p => (exists l, acts t = ACall c :: l) /\ call_code (F := F) c = inr p
    | Writing c p => (exists l, acts t = ACall c :: l) /\
        exists s', run_code p s = (Ok tt, s') /\ serves o d (V + call_cost c) s' (call_map m c)
    | Reading a p => (exists l, acts t = a :: l) /\ quiet s p /\ exists r, fst (run_code p s) = Ok r /\ correct m a r
    end
}.

(** [m]: the map after the calls that have returned. *)
Record inv (V : Z) (m : kvmap) (g : config) : Prop := {
  iv_threads : Forall (thread_ok V m (shared g)) (threads g);
  iv_readers : readers (mu g) = total n_readers (threads g);
  iv_writer : (if writer (mu g) then 1 else 0) = total n_writers (threads g);
  iv_waiting : waiting (mu g) = total n_waiting (threads g);
  iv_excl : writer (mu g) = true -> readers (mu g) = 0;
  iv_idle : writer (mu g) = false -> serves o d V (shared g) m;
  iv_room : 0 <= V /\ V + total cost_left (threads g) <= Vmax;
  iv_legal : legal ∅ (history g).*2 m;
  iv_order : forall i t, threads g !! i = Some t -> programs !! i = Some ((event_action <$> events_of i (history g)) ++ acts t)
}.

(** The other threads, when the state or the map changes: none of them reads. *)
Lemma others_ok V V' m m' s s' ts i t' :
  Forall (thread_ok V m s) ts -> (forall j u, j <> i -> ts !! j = Some u -> n_readers u = 0 /\ n_writers u = 0) ->
  thread_ok V' m' s' t' -> Forall (thread_ok V' m' s') (<[i := t']> ts).
Proof.
  intros Hall Ho Ht. rewrite Forall_lookup in Hall |- *. intros j u Hj.
  apply list_lookup_insert_Some in Hj as [(-> & -> & _)|[Hne Hj]]; [done|].
  specialize (Hall j u Hj) as [H1 H2 H3]. destruct (Ho j u (not_eq_sym Hne) Hj) as [Hr Hw].
  unfold n_readers in Hr. unfold n_writers in Hw. split; [done| |destruct (now u); try done; lia].
  destruct (its u) as [|it l]; [constructor|]. destruct (now u); cbn in Hr; lia.
Qed.

Lemma same_ok V m s ts i t' : Forall (thread_ok V m s) ts -> thread_ok V m s t' -> Forall (thread_ok V m s) (<[i := t']> ts).
Proof. intros Hall Ht. by apply Forall_insert. Qed.

(** The order of a thread's events. *)
Lemma order_keep h (ts : list thread) i t t' : (forall j u, ts !! j = Some u -> programs !! j = Some ((event_action <$> events_of j h) ++ acts u)) ->
  ts !! i = Some t -> acts t' = acts t -> forall j u, <[i := t']> ts !! j = Some u -> programs !! j = Some ((event_action <$> events_of j h) ++ acts u).
Proof.
  intros Ho Hi Ha j u Hj. apply list_lookup_insert_Some in Hj as [(<- & <- & _)|[Hne Hj]]; [|by apply Ho].
  rewrite Ha. by apply Ho.
Qed.
Lemma order_record h (ts : list thread) i t t' e : (forall j u, ts !! j = Some u -> programs !! j = Some ((event_action <$> events_of j h) ++ acts u)) ->
  ts !! i = Some t -> acts t = event_action e :: acts t' -> forall j u, <[i := t']> ts !! j = Some u ->
  programs !! j = Some ((event_action <$> events_of j (h ++ [(i, e)])) ++ acts u).
Proof.
  intros Ho Hi Ha j u Hj. rewrite events_of_app, fmap_app, <- app_assoc. unfold events_of at 2. cbn [omap list_omap fst snd].
  apply list_lookup_insert_Some in Hj as [(<- & <- & _)|[Hne Hj]].
  - rewrite bool_decide_true by done. cbn. rewrite <- Ha. by apply Ho.
  - rewrite bool_decide_false by done. cbn. by apply Ho.
Qed.

(** ** Steps keep the invariant *)

Context (Hcap : blooms_fit (F := F) cap) (Hro : ReadOnly (Db.normalize o) = false) (Hd : d <> ""%string) (Hroom : room cap Vmax).

(** Inside a writing method nobody reads, and nobody else writes. *)
Lemma alone V m g i t c p : inv V m g -> threads g !! i = Some t -> now t = Writing c p ->
  writer (mu g) = true /\ forall j u, j <> i -> threads g !! j = Some u -> n_readers u = 0 /\ n_writers u = 0.
Proof.
  intros I Hi Hn. pose proof (iv_writer _ _ _ I) as Hw. destruct (total_ge n_writers (threads g) n_writers_nonneg) as [_ Hge].
  specialize (Hge i t Hi). assert (n_writers t = 1) as H1 by (unfold n_writers; by rewrite Hn).
  assert (writer (mu g) = true) as Hwt by (destruct (writer (mu g)); [done|lia]). split; [done|]. intros j u Hne Hj.
  pose proof (iv_excl _ _ _ I Hwt) as Hr. rewrite (iv_readers _ _ _ I) in Hr.
  destruct (total_ge n_readers (threads g) n_readers_nonneg) as [_ Hgr]. specialize (Hgr j u Hj).
  pose proof (total_two n_writers _ n_writers_nonneg i j t u Hi Hj (not_eq_sym Hne)) as H2.
  rewrite Hwt in Hw. pose proof (n_readers_nonneg u). pose proof (n_writers_nonneg u). lia.
Qed.

(** With the write lock free, nobody is inside a writing method. *)
Lemma no_writers V m g i t : inv V m g -> writer (mu g) = false -> threads g !! i = Some t -> n_writers t = 0.
Proof.
  intros I Hw Hi. pose proof (iv_writer _ _ _ I) as Ht. rewrite Hw in Ht.
  destruct (total_ge n_writers (threads g) n_writers_nonneg) as [_ Hge]. specialize (Hge i t Hi). pose proof (n_writers_nonneg t). lia.
Qed.

Lemma thread_at V m g i t : inv V m g -> threads g !! i = Some t -> thread_ok V m (shared g) t.
Proof. intros I Hi. pose proof (iv_threads _ _ _ I) as Hall. rewrite Forall_lookup in Hall. by eapply Hall. Qed.

(** With a read lock taken, the write lock is free. *)
Lemma read_locked V m g i t : inv V m g -> threads g !! i = Some t -> 0 < n_readers t ->
  writer (mu g) = false /\ n_readers t <= readers (mu g).
Proof.
  intros I Hi Hr. destruct (total_ge n_readers (threads g) n_readers_nonneg) as [_ Hge]. specialize (Hge i t Hi).
  rewrite <- (iv_readers _ _ _ I) in Hge. split; [|done]. destruct (writer (mu g)) eqn:Hw; [|done]. pose proof (iv_excl _ _ _ I Hw). lia.
Qed.

Lemma cost_other t l a k : acts t = a :: l -> match a with ACall _ => False | _ => True end -> cost_left t = cost_left (mkThread l k Idle).
Proof. intros Ha Hn. unfold cost_left. rewrite Ha. by destruct a. Qed.

Lemma cost_room V m g i t c l : inv V m g -> threads g !! i = Some t -> acts t = ACall c :: l ->
  cost_left t = call_cost c + cost_left (mkThread l (its t) Idle) /\ 0 <= V /\ V + call_cost c <= Vmax /\ call_ok c /\ c <> CReopen.
Proof.
  intros I Hi Ha. pose proof (thread_at _ _ _ _ _ I Hi) as [Hok _ _]. rewrite Ha in Hok. apply Forall_cons in Hok as [[H1 H2] _].
  destruct (iv_room _ _ _ I) as [H0 HV]. destruct (total_ge cost_left (threads g) cost_left_nonneg) as [_ Hge]. specialize (Hge i t Hi).
  assert (cost_left t = call_cost c + cost_left (mkThread l (its t) Idle)) as Hc by (unfold cost_left; by rewrite Ha).
  pose proof (cost_left_nonneg (mkThread l (its t) Idle)). split_and!; try done; lia.
Qed.

Lemma inv_update V V' m m' g i t t' s u h :
  inv V m g -> threads g !! i = Some t -> Forall (thread_ok V' m' s) (<[i := t']> (threads g)) ->
  readers u = readers (mu g) - n_readers t + n_readers t' ->
  (if writer u then 1 else 0) = (if writer (mu g) then 1 else 0) - n_writers t + n_writers t' ->
  waiting u = waiting (mu g) - n_waiting t + n_waiting t' ->
  (writer u = true -> readers u = 0) -> (writer u = false -> serves o d V' s m') ->
  0 <= V' /\ V' + cost_left t' <= V + cost_left t -> legal ∅ h.*2 m' ->
  (forall j v, <[i := t']> (threads g) !! j = Some v -> programs !! j = Some ((event_action <$> events_of j h) ++ acts v)) ->
  inv V' m' (mkConfig s u (<[i := t']> (threads g)) h).
Proof.
  intros [I1 I2 I3 I4 I5 I6 I7 I8 I9] Hi Hall Hr Hw Hwt Hex Hid HV Hl Ho.
  split; cbn [shared mu threads history]; try done; rewrite ?(total_update _ _ i t t' Hi); lia.
Qed.

(** The steps that only change what a thread is doing. *)
Lemma inv_move V m g i t a s u :
  inv V m g -> threads g !! i = Some t ->
  Forall (thread_ok V m s) (<[i := mkThread (acts t) (its t) a]> (threads g)) ->
  readers u = readers (mu g) - n_readers t + n_readers (mkThread (acts t) (its t) a) ->
  (if writer u then 1 else 0) = (if writer (mu g) then 1 else 0) - n_writers t + n_writers (mkThread (acts t) (its t) a) ->
  waiting u = waiting (mu g) - n_waiting t + n_waiting (mkThread (acts t) (its t) a) ->
  (writer u = true -> readers u = 0) -> (writer u = false -> serves o d V s m) ->
  inv V m (put_thread i (mkThread (acts t) (its t) a) s u g).
Proof.
  intros I Hi Hall Hr Hw Hwt Hex Hid. apply (inv_update V V m m g i t); try done.
  - destruct (iv_room _ _ _ I). by split.
  - apply (iv_legal _ _ _ I).
  - eapply order_keep; [apply (iv_order _ _ _ I)|exact Hi|done].
Qed.

(** The steps that end an action. *)
Lemma inv_end V V' m m' g i t t' e s u :
  inv V m g -> threads g !! i = Some t -> acts t = event_action e :: acts t' -> legal m [e] m' ->
  Forall (thread_ok V' m' s) (<[i := t']> (threads g)) ->
  readers u = readers (mu g) - n_readers t + n_readers t' ->
  (if writer u then 1 else 0) = (if writer (mu g) then 1 else 0) - n_writers t + n_writers t' ->
  waiting u = waiting (mu g) - n_waiting t + n_waiting t' ->
  (writer u = true -> readers u = 0) -> (writer u = false -> serves o d V' s m') ->
  0 <= V' /\ V' + cost_left t' <= V + cost_left t ->
  inv V' m' (record i e (put_thread i t' s u g)).
Proof.
  intros I Hi Ha Hl Hall Hr Hw Hwt Hex Hid HV. apply (inv_update V V' m m' g i t t' s u); try done.
  - rewrite fmap_app. eapply legal_app; [apply (iv_legal _ _ _ I)|exact Hl].
  - eapply order_record; [apply (iv_order _ _ _ I)|exact Hi|exact Ha].
Qed.

Lemma run_Step {A B} (x : MD B) (k : outcome B -> code A) s r s1 : x s = (r, s1) -> run_code (Step x k) s = run_code (k r) s1.
Proof. cbn. by intros ->. Qed.

Ltac counting := unfold n_readers, n_writers, n_waiting; match goal with H : now _ = _ |- _ => rewrite H end; cbn; lia.

Lemma cstep_inv V m g g' : inv V m g -> cstep (F := F) g g' -> exists V' m', inv V' m' g'.
Proof.
  intros I Hstep. destruct Hstep as [i t c r l Hi Hn Ha Hc|i t c p l Hi Hn Ha Hc|i t c p Hi Hn Hw Hr|i t c B x k r s Hi Hn Hx|i t c r b l Hi Hn Ha
    |i t a p l Hi Hn Ha Hc Hw Hwt|i t a B x k r s Hi Hn Hx|i t a r b l Hi Hn Ha|i t a it b l Hi Hn Ha|i t it k l Hi Hn Ha Hit];
    pose proof (thread_at _ _ _ _ _ I Hi) as [T1 T2 T3]; rewrite Hn in T3.
  - (* a method that returns at once *)
    destruct (cost_room _ _ _ _ _ _ _ I Hi Ha) as (Hcost & H0 & HV & Hok & Hne). destruct (call_code_inl c r Hne Hok Hc) as [-> Hm].
    pose proof (call_cost_nonneg c). exists V, m. apply (inv_end V V m m g i t); try done; try (by apply I); try counting.
    2: lia.
    apply same_ok; [apply I|]. rewrite Ha in T1. apply Forall_cons in T1 as [_ T1]. by split.
  - (* a method waits for the lock *)
    exists V, m. apply (inv_move V m g i t); try done; try (by apply I); try counting.
    apply same_ok; [apply I|]. split; [done|done|]. split; [by exists l|done].
  - (* it gets the lock *)
    destruct T3 as [[l Ha] Hc]. destruct (cost_room _ _ _ _ _ _ _ I Hi Ha) as (_ & H0 & HV & Hok & _). destruct Hroom as [HV1 HV2].
    destruct (run_call_refines seed o cap Hcap Hro d V (V + call_cost c) (shared g) m c (iv_idle _ _ _ I Hw) Hd Hok (Z.le_refl _))
      as (s' & Hrun & Hs'); [split; lia|].
    exists V, m. apply (inv_move V m g i t); try done; try rewrite Hw; try counting.
    apply same_ok; [apply I|]. split; [done|done|]. split; [by exists l|]. exists s'. by rewrite (call_code_inr seed o c p Hc).
  - (* a step under the lock *)
    destruct T3 as [Hl (s' & Hrun & Hs')]. rewrite (run_Step _ _ _ _ _ Hx) in Hrun. destruct (alone _ _ _ _ _ _ _ I Hi Hn) as [Hw Ho].
    exists V, m. apply (inv_move V m g i t); try done; try (by apply I); try counting; [|congruence].
    eapply others_ok; [apply I|exact Ho|]. split; [done|done|]. split; [done|]. by exists s'.
  - (* it returns *)
    destruct T3 as [[l' Ha'] (s' & [= -> <-] & Hs')]. rewrite Ha in Ha'. injection Ha' as -> <-. destruct (alone _ _ _ _ _ _ _ I Hi Hn) as [Hw Ho].
    destruct (cost_room _ _ _ _ _ _ _ I Hi Ha) as (Hcost & H0 & HV & Hok & _). pose proof (call_cost_nonneg c).
    exists (V + call_cost c), (call_map m c). apply (inv_end V _ m _ g i t); try done; try rewrite Hw; try counting; [|lia].
    eapply others_ok; [apply I|exact Ho|]. rewrite Ha in T1. apply Forall_cons in T1 as [_ T1].
    destruct (its t) as [|it k] eqn:Hit; [by split|]. exfalso. pose proof (iv_excl _ _ _ I Hw) as Hr. rewrite (iv_readers _ _ _ I) in Hr.
    destruct (total_ge n_readers (threads g) n_readers_nonneg) as [_ Hge]. specialize (Hge i t Hi). unfold n_readers in Hge.
    rewrite Hit, Hn in Hge. cbn in Hge. unfold n_readers in Hr. lia.
  - (* a read begins *)
    destruct (read_begins V (shared g) m a p (sr_holds _ _ _ _ _ (iv_idle _ _ _ I Hw)) Hc) as [Hq Hr].
    exists V, m. apply (inv_move V m g i t); try done; try rewrite Hw; try rewrite Hwt; try counting; [|intros _; by apply I].
    apply same_ok; [apply I|]. split; [done|done|]. by split; [exists l|].
  - (* a step of a read *)
    destruct T3 as (Hl & [Hs Hq] & Hr). rewrite Hx in Hs, Hq. cbn [fst snd] in Hs, Hq. subst s. rewrite (run_Step _ _ _ _ _ Hx) in Hr.
    exists V, m. apply (inv_move V m g i t); try done; try (by apply I); try counting.
    apply same_ok; [apply I|]. by split.
  - (* a read returns *)
    destruct T3 as ([l' Ha'] & _ & r' & [= <-] & Hr). rewrite Ha in Ha'. injection Ha' as -> <-. destruct (read_locked V m g i t I Hi) as [Hw _]; [unfold n_readers; rewrite Hn; lia|].
    exists V, m. apply (inv_end V V m m g i t); try done; try (by apply I); try counting.
    2: cbn; congruence.
    + apply same_ok; [apply I|]. rewrite Ha in T1. apply Forall_cons in T1 as [_ T1]. by split.
    + destruct (iv_room _ _ _ I). destruct a; try done. by rewrite (cost_other t l (AGet key) (its t)).
  - (* an iterator is open *)
    destruct T3 as ([l' Ha'] & _ & r' & [= <-] & Hr). rewrite Ha in Ha'. injection Ha' as -> <-. exists V, m. apply (inv_end V V m m g i t); try done; try (by apply I); try counting.
    + apply same_ok; [apply I|]. rewrite Ha in T1. apply Forall_cons in T1 as [_ T1]. destruct a; try done. split; [done|by constructor|done].
    + destruct (iv_room _ _ _ I). destruct a; try done. by rewrite (cost_other t l AIter (it :: its t)).
  - (* and is closed *)
    destruct (read_locked V m g i t I Hi) as [Hw _]; [unfold n_readers; rewrite Hit, Hn; cbn; lia|].
    exists V, m. apply (inv_end V V m m g i t); try done; try (by apply I); try (cbn; congruence); try (unfold n_readers; rewrite ?Hit; counting).
    + apply same_ok; [apply I|]. rewrite Ha in T1. apply Forall_cons in T1 as [_ T1]. rewrite Hit in T2. apply Forall_cons in T2 as [_ T2]. by split.
    + destruct (iv_room _ _ _ I). by rewrite (cost_other t l AClose k).
Qed.

Lemma reachable_inv g g' : rtc (cstep (F := F)) g g' -> forall V m, inv V m g -> exists V' m', inv V' m' g'.
Proof.
  induction 1 as [g|g1 g2 g3 Hs _ IH]; intros V m I; [by exists V, m|]. destruct (cstep_inv V m g1 g2 I Hs) as (V' & m' & I').
  by eapply IH.
Qed.

(** The programs have not begun. *)
Lemma start_inv s : serves o d 0 s ∅ -> Forall (Forall action_ok) programs ->
  total cost_left ((fun p => mkThread p [] Idle) <$> programs) <= Vmax -> inv 0 ∅ (start s programs).
Proof.
  intros Hs Hok HV. assert (Hz: forall f, f (mkThread [] [] Idle) = 0 -> (forall p, f (mkThread p [] Idle) = 0) ->
    total f ((fun p => mkThread p [] Idle) <$> programs) = 0).
  { intros f _ Hf. clear -Hf. induction programs as [|p l IH]; [done|]. cbn. rewrite Hf. exact IH. }
  split; cbn [start shared mu threads history readers writer waiting]; try done; try (by rewrite Hz).
  - apply Forall_fmap. eapply Forall_impl; [exact Hok|]. intros p Hp. by split; [|constructor|].
  - intros i t Hi. rewrite list_lookup_fmap in Hi. destruct (programs !! i) as [p|]; [|done]. by injection Hi as <-.
Qed.

(** ** Deadlocks *)

(** A goroutine that, between [NewIterator] and the iterator's [Close], calls no
    other method. *)
Fixpoint tidy (opened : bool) (l : list action) : bool :=
  match l with
  | [] => negb opened
  | AIter :: l => negb opened && tidy true l
  | AClose :: l => opened && tidy false l
  | _ :: l => negb opened && tidy false l
  end.
Definition brackets (t : thread) : Prop :=
  match its t with [] => tidy false (acts t) = true | [_] => now t = Idle /\ tidy true (acts t) = true | _ => False end.

Lemma tidy_other a l : tidy false (a :: l) = true -> a <> AIter -> tidy false l = true.
Proof. by destruct a. Qed.

Lemma brackets_step V m g g' : inv V m g -> Forall brackets (threads g) -> cstep (F := F) g g' -> Forall brackets (threads g').
Proof.
  intros I Hb Hstep. destruct Hstep as [i t c r l Hi Hn Ha Hc|i t c p l Hi Hn Ha Hc|i t c p Hi Hn Hw Hr|i t c B x k r s Hi Hn Hx|i t c r b l Hi Hn Ha
    |i t a p l Hi Hn Ha Hc Hw Hwt|i t a B x k r s Hi Hn Hx|i t a r b l Hi Hn Ha|i t a it b l Hi Hn Ha|i t it k l Hi Hn Ha Hit];
    pose proof (thread_at _ _ _ _ _ I Hi) as [_ _ T3]; rewrite Hn in T3; apply Forall_insert; try exact Hb;
    rewrite Forall_lookup in Hb; specialize (Hb i t Hi); unfold brackets in *; cbn [its acts now]; destruct (its t) as [|it' [|it2 k']] eqn:Hits;
    rewrite ?Ha in *; try done; try (by destruct Hb).
  all: try (destruct Hb; congruence).
  - destruct T3 as [[l' [= -> <-]] _]. by apply (tidy_other (ACall c)).
  - destruct Hb as [_ Hb]. by destruct a.
  - destruct T3 as ([l' [= -> <-]] & _ & r' & [= <-] & Hr). by destruct a.
  - destruct T3 as ([l' [= -> <-]] & _ & r' & [= <-] & Hr). by destruct a.
  - injection Hit as -> <-. by destruct Hb.
Qed.

(** Some thread has the property, or none. *)
Lemma some_thread (f : thread -> bool) (ts : list thread) : (exists i t, ts !! i = Some t /\ f t = true) \/ forall i t, ts !! i = Some t -> f t = false.
Proof.
  destruct (existsb f ts) eqn:Hf.
  - left. apply existsb_exists in Hf as (t & Hin & Hft). apply list_elem_of_In, list_elem_of_lookup in Hin as [i Hi]. by exists i, t.
  - right. intros i t Hi. destruct (f t) eqn:Hft; [|done]. assert (existsb f ts = true); [|congruence].
    apply existsb_exists. exists t. split; [|done]. apply list_elem_of_In. by eapply list_elem_of_lookup_2.
Qed.

Lemma total_zero f (ts : list thread) : (forall i t, ts !! i = Some t -> f t = 0) -> total f ts = 0.
Proof.
  induction ts as [|u ts IH]; intros Hz; [done|]. change (total f (u :: ts)) with (f u + total f ts).
  rewrite (Hz 0%nat u eq_refl), IH; [done|]. intros i t Hi. by apply (Hz (S i)).
Qed.

(** A thread inside a method can go on. *)
Lemma inside_steps V m g i t : inv V m g -> threads g !! i = Some t -> (match now t with Writing _ _ | Reading _ _ => true | _ => false end) = true ->
  exists g', cstep (F := F) g g'.
Proof.
  intros I Hi Hn. pose proof (thread_at _ _ _ _ _ I Hi) as [_ _ T3]. destruct (now t) as [| |c [r|B x k]|a [r|B x k]] eqn:Hnow; try done.
  - destruct T3 as [[l Ha] _]. eexists. by eapply c_unlock.
  - destruct (x (shared g)) as [r s] eqn:Hx. eexists. by eapply c_write.
  - destruct T3 as ([l Ha] & _ & r' & [= ->] & Hr). destruct a, r' as [r|[it|e|q|]]; try done; eexists; [by eapply c_runlock|by eapply c_opened].
  - destruct (x (shared g)) as [r s] eqn:Hx. eexists. by eapply c_read.
Qed.

Lemma no_deadlock V m g : inv V m g -> Forall brackets (threads g) ->
  (exists g', cstep (F := F) g g') \/ Forall (fun t => acts t = [] /\ its t = [] /\ now t = Idle) (threads g).
Proof.
  intros I Hb. rewrite Forall_lookup in Hb.
  destruct (some_thread (fun t => match now t with Writing _ _ | Reading _ _ => true | _ => false end) (threads g)) as [(i & t & Hi & Hn)|H1].
  { left. by eapply inside_steps. }
  destruct (some_thread (fun t => match its t with [] => false | _ => true end) (threads g)) as [(i & t & Hi & Hn)|H2].
  { left. specialize (Hb i t Hi). unfold brackets in Hb. destruct (its t) as [|it [|]] eqn:Hit; try done. destruct Hb as [Hid Ht].
    destruct (acts t) as [|[c|key| |] l] eqn:Ha; try done. eexists. by eapply c_close. }
  assert (readers (mu g) = 0) as Hr.
  { rewrite (iv_readers _ _ _ I). apply total_zero. intros i t Hi. specialize (H1 i t Hi). specialize (H2 i t Hi). unfold n_readers.
    destruct (its t); [|done]. by destruct (now t). }
  assert (writer (mu g) = false) as Hw.
  { pose proof (iv_writer _ _ _ I) as Hw. rewrite (total_zero n_writers) in Hw; [by destruct (writer (mu g))|]. intros i t Hi.
    specialize (H1 i t Hi). unfold n_writers. by destruct (now t). }
  destruct (some_thread (fun t => match now t with Waiting _ _ => true | _ => false end) (threads g)) as [(i & t & Hi & Hn)|H3].
  { left. destruct (now t) as [|c p| |] eqn:Hnow; try done. eexists. by eapply c_enter. }
  assert (waiting (mu g) = 0) as Hwt.
  { rewrite (iv_waiting _ _ _ I). apply total_zero. intros i t Hi. specialize (H3 i t Hi). unfold n_waiting. by destruct (now t). }
  assert (Hidle: forall i t, threads g !! i = Some t -> now t = Idle /\ its t = []).
  { intros i t Hi. specialize (H1 i t Hi). specialize (H2 i t Hi). specialize (H3 i t Hi). by destruct (now t), (its t). }
  destruct (some_thread (fun t => match acts t with [] => false | _ => true end) (threads g)) as [(i & t & Hi & Hn)|H4].
  - left. destruct (Hidle i t Hi) as [Hid Hit]. specialize (Hb i t Hi). unfold brackets in Hb. rewrite Hit in Hb.
    destruct (acts t) as [|[c|key| |] l] eqn:Ha; try done.
    + destruct (call_code (F := F) c) as [r|p] eqn:Hc; eexists; [by eapply c_return|by eapply c_lock].
    + eexists. by eapply c_rlock.
    + eexists. by eapply c_rlock.
  - right. rewrite Forall_lookup. intros i t Hi. destruct (Hidle i t Hi) as [Hid Hit]. specialize (H4 i t Hi). by destruct (acts t).
Qed.

(** A method waits for ever for the iterators of its own goroutine. *)
Lemma stuck_step V m g g' i t c p : inv V m g -> threads g !! i = Some t -> now t = Waiting c p -> its t <> [] ->
  cstep (F := F) g g' -> threads g' !! i = Some t.
Proof.
  intros I Hi Hn Hits Hstep. destruct (read_locked V m g i t I Hi) as [Hw Hr].
  { unfold n_readers. destruct (its t); [done|]. destruct (now t); cbn; lia. }
  assert (0 < readers (mu g)) as Hr0. { unfold n_readers in Hr. rewrite Hn in Hr. destruct (its t); [done|]. cbn in Hr. lia. }
  assert (Hne: forall j u s v, threads g !! j = Some u -> now u <> Waiting c p \/ False -> forall t', 
    threads (put_thread j t' s v g) !! i = Some t).
  { intros j u s v Hj [Hnu|[]] t'. cbn. rewrite list_lookup_insert_ne; [done|]. intros ->. congruence. }
  destruct Hstep as [j u c' r l Hj Hm|j u c' q l Hj Hm|j u c' q Hj Hm Hw' Hr'|j u c' B x k r s Hj Hm|j u c' r b l Hj Hm
    |j u a q l Hj Hm|j u a B x k r s Hj Hm|j u a r b l Hj Hm|j u a it b l Hj Hm|j u it k l Hj Hm];
    try (apply (Hne j u); [done|left; congruence]); lia.
Qed.
End invariant.

(** ** Schedules *)

(** The threads take steps in the order of the schedule; one that cannot is
    passed over. *)
Fixpoint exec {F} `{Float64 F} {J : Manifest.Json} (schedule : list nat) (g : config) : config :=
  match schedule with
  | [] => g
  | i :: l => exec l (default g (step_thread (F := F) i g))
  end.

Lemma exec_reachable {F} `{Float64 F} {J : Manifest.Json} l : forall g, rtc (cstep (F := F)) g (exec (F := F) l g).
Proof.
  induction l as [|i l IH]; intros g; cbn [exec]; [done|]. destruct (step_thread i g) as [g'|] eqn:Hs; [|apply IH].
  eapply rtc_l; [by eapply step_thread_sound|apply IH].
Qed.

(** * Theorems *)

Definition programs_cost (programs : list (list action)) : Z := total cost_left ((fun p => mkThread p [] Idle) <$> programs).

Section theorems.
Context {F : Type} `{Float64 F} {J : Manifest.Json} {JO : JsonOk J} {E : FileLock.Env}.
Context (seed : nat -> Z) (o : option Db.Options).

Lemma threads_start cap programs w d : blooms_fit (F := F) cap -> calm w -> names_ok w -> empty_dir w d -> d <> ""%string ->
  ReadOnly (Db.normalize o) = false -> Forall (Forall action_ok) programs -> room cap (programs_cost programs) ->
  exists db w1, Db.Open (F := F) seed d o w = (Ok db, w1) /\
    forall g, rtc (cstep (F := F)) (start (db, w1) programs) g -> exists V m, inv (F := F) o d (programs_cost programs) programs V m g.
Proof.
  intros Hcap Hw Hn He Hd Hro Hok Hroom.
  destruct (Open_empty seed 0 w d o Hw Hn He Hd) as (db & w1 & Hopen & Hm & Ho & Hdir); [lia|].
  exists db, w1. split; [done|]. intros g Hg.
  apply (reachable_inv seed o d cap (programs_cost programs) programs Hcap Hro Hd Hroom _ g Hg 0 ∅). by apply start_inv.
Qed.

(** C5: Goroutines that share a database are serialized.  Whatever the interleaving
    of the steps of puts, deletes, batches, flushes, compactions, lookups and
    iterations that the lock allows, the calls that have returned are a history
    of one map: in the order in which they returned every write succeeded, and
    every lookup and every new iterator answered for the map of that moment;
    each goroutine's calls are in the order of its program.  When no writing
    method is running the database answers as that map, and at all times an
    open iterator lists exactly that map. *)
Theorem goroutines_serialized cap programs w d (Hcap : blooms_fit (F := F) cap) (Hw : calm w) (Hn : names_ok w) (He : empty_dir w d)
  (Hd : d <> ""%string) (Hro : ReadOnly (Db.normalize o) = false) (Hok : Forall (Forall action_ok) programs)
  (Hroom : room cap (programs_cost programs)) :
  exists db w1, Db.Open (F := F) seed d o w = (Ok db, w1) /\
    forall g, rtc (cstep (F := F)) (start (db, w1) programs) g ->
    exists m, legal ∅ (history g).*2 m /\
      (forall i t, threads g !! i = Some t -> programs !! i = Some ((event_action <$> events_of i (history g)) ++ acts t)) /\
      (writer (mu g) = false -> answers_as (shared g) m) /\
      Forall (fun t => Forall (fun it => lists it m) (its t)) (threads g).
Proof.
  destruct (threads_start cap programs w d Hcap Hw Hn He Hd Hro Hok Hroom) as (db & w1 & Hopen & Hinv).
  exists db, w1. split; [done|]. intros g Hg. destruct (Hinv g Hg) as (V & m & I). exists m.
  split; [apply I|]. split; [apply I|]. split.
  - intros Hwr. eapply serves_answers. by apply I.
  - eapply Forall_impl; [apply I|]. by intros t [_ ? _].
Qed.

(** C26: No deadlock: when goroutines call nothing between [NewIterator] and the
    iterator's [Close], then in every state that can be reached some goroutine
    can make a step, until all have finished. *)
Theorem goroutines_progress cap programs w d (Hcap : blooms_fit (F := F) cap) (Hw : calm w) (Hn : names_ok w) (He : empty_dir w d)
  (Hd : d <> ""%string) (Hro : ReadOnly (Db.normalize o) = false) (Hok : Forall (Forall action_ok) programs)
  (Htidy : Forall (fun p => tidy false p = true) programs) (Hroom : room cap (programs_cost programs)) :
  exists db w1, Db.Open (F := F) seed d o w = (Ok db, w1) /\
    forall g, rtc (cstep (F := F)) (start (db, w1) programs) g ->
    (exists i g', step_thread (F := F) i g = Some g') \/ Forall (fun t => acts t = [] /\ its t = [] /\ now t = Idle) (threads g).
Proof.
  destruct (threads_start cap programs w d Hcap Hw Hn He Hd Hro Hok Hroom) as (db & w1 & Hopen & Hinv).
  exists db, w1. split; [done|]. intros g Hg. destruct (Hinv g Hg) as (V & m & I).
  assert (Forall brackets (threads g)) as Hb.
  { revert g Hg I. intros g Hg _. revert g Hg. apply (rtc_ind_r (fun g => Forall brackets (threads g))); [|intros g1 g2 Hg Hs IH].
    - cbn. apply Forall_fmap. eapply Forall_impl; [exact Htidy|]. by intros p Hp.
    - destruct (Hinv g1 Hg) as (V' & m' & I'). eapply brackets_step; [exact I'|exact IH|exact Hs]. }
  destruct (no_deadlock _ _ _ _ _ _ g I Hb) as [[g' Hs]|Hdone]; [left|by right].
  apply step_thread_complete in Hs as [i Hs]. by exists i, g'.
Qed.

(** C36: An iterator keeps the read lock.  A goroutine that calls a writing method
    while it has an iterator open never gets the lock: whatever the others do,
    it stays where it is. *)
Theorem iterator_blocks_writes cap programs w d (Hcap : blooms_fit (F := F) cap) (Hw : calm w) (Hn : names_ok w) (He : empty_dir w d)
  (Hd : d <> ""%string) (Hro : ReadOnly (Db.normalize o) = false) (Hok : Forall (Forall action_ok) programs)
  (Hroom : room cap (programs_cost programs)) :
  exists db w1, Db.Open (F := F) seed d o w = (Ok db, w1) /\
    forall g i t c p, rtc (cstep (F := F)) (start (db, w1) programs) g ->
    threads g !! i = Some t -> now t = Waiting c p -> its t <> [] ->
    forall g', rtc (cstep (F := F)) g g' -> threads g' !! i = Some t.
Proof.
  destruct (threads_start cap programs w d Hcap Hw Hn He Hd Hro Hok Hroom) as (db & w1 & Hopen & Hinv).
  exists db, w1. split; [done|]. intros g i t c p Hg Hi Hnow Hits.
  apply (rtc_ind_r (fun g' => threads g' !! i = Some t)); [done|]. intros g1 g2 Hg1 Hs IH.
  destruct (Hinv g1) as (V & m & I); [by transitivity g|]. by eapply stuck_step.
Qed.
End theorems.

(** ** Witnesses *)

#[local] Existing Instances Codec.codec Codec.codec_ok Q_Float64.
#[local] Instance threads_env : FileLock.Env := FileLock.demo_env 0.

(** One goroutine writes, looks up and flushes, the other iterates and deletes. *)
Definition demo_programs : list (list action) := [
  [ACall (CPut (demo_key x61) (demo_key x31)); AGet (demo_key x61); ACall CFlush; AGet (demo_key x61)];
  [AIter; AClose; ACall (CDelete (demo_key x61)); ACall (CPut (demo_key x62) (demo_key x32)); AIter; AClose]].

Lemma demo_programs_ok : Forall (Forall action_ok) demo_programs /\ room 64 (programs_cost demo_programs).
Proof.
  split; [|by split; vm_compute].
  repeat (constructor; [repeat (constructor; [first [exact I|split; [done|unfold call_ok; cbn; repeat split; try done; by repeat constructor]]|]); constructor|]).
  constructor.
Qed.

Lemma goroutines_serialized_witness :
  exists db w1, Db.Open (F := Q) demo_seed "d" None empty_world = (Ok db, w1) /\
    forall g, rtc (cstep (F := Q)) (start (db, w1) demo_programs) g ->
    exists m, legal ∅ (history g).*2 m /\ (writer (mu g) = false -> answers_as (shared g) m).
Proof.
  destruct demo_start as (H1 & H2 & H3 & H4 & _), demo_programs_ok as [H5 H6].
  destruct (goroutines_serialized demo_seed None 64 demo_programs empty_world "d" H1 H2 H3 H4 ltac:(done) ltac:(done) H5 H6) as (db & w1 & Ho & Hg).
  exists db, w1. split; [exact Ho|]. intros g Hr. destruct (Hg g Hr) as (m & Hl & _ & Ha & _). exists m. split; [exact Hl|exact Ha].
Defined.

Lemma goroutines_progress_witness :
  exists db w1, Db.Open (F := Q) demo_seed "d" None empty_world = (Ok db, w1) /\
    forall g, rtc (cstep (F := Q)) (start (db, w1) demo_programs) g ->
    (exists i g', step_thread (F := Q) i g = Some g') \/ Forall (fun t => acts t = [] /\ its t = [] /\ now t = Idle) (threads g).
Proof.
  destruct demo_start as (H1 & H2 & H3 & H4 & _), demo_programs_ok as [H5 H6].
  apply (goroutines_progress demo_seed None 64 demo_programs empty_world "d" H1 H2 H3 H4 ltac:(done) ltac:(done) H5); [by repeat constructor|exact H6].
Defined.

(** What a history shows of an event. *)
Definition shown (e : event) : option (list (list byte)) :=
  match e with
  | ECall _ (Ok _) => Some []
  | ERead _ (RGet (Ok v)) => Some [bs v]
  | ERead _ (RIter (Ok it)) => Some ((bs ∘ iKey) <$> Iterator.items it)
  | _ => None
  end.
Definition run_demo (programs : list (list action)) (schedule : list nat) : option config :=
  match Db.Open (F := Q) demo_seed "d" None empty_world with
  | (Ok db, w) => Some (exec (F := Q) schedule (start (db, w) programs))
  | _ => None
  end.
Definition demo_history (schedule : list nat) : option (list (nat * option (list (list byte)))) :=
  (fun g => (fun x => (fst x, shown (snd x))) <$> history g) <$> run_demo demo_programs schedule.
(** Taking turns; and the first goroutine to its end before the second starts. *)
Example demo_history_turns : demo_history (concat (replicate 60 [0; 1]%nat)) =
  Some [(0%nat, Some []); (1%nat, Some [[x61]]); (0%nat, Some [[x31]]); (1%nat, None); (0%nat, Some []);
    (1%nat, Some []); (0%nat, None); (1%nat, Some []); (1%nat, Some [[x62]]); (1%nat, None)].
Proof. by vm_compute. Qed.
Example demo_history_sequential : demo_history (replicate 60 0%nat ++ replicate 60 1%nat) =
  Some [(0%nat, Some []); (0%nat, Some [[x31]]); (0%nat, Some []); (0%nat, Some [[x31]]); (1%nat, Some [[x61]]); (1%nat, None);
    (1%nat, Some []); (1%nat, Some []); (1%nat, Some [[x62]]); (1%nat, None)].
Proof. by vm_compute. Qed.

(** Writing inside an iteration. *)
Definition blocked_programs : list (list action) := [[AIter; ACall (CPut (demo_key x61) (demo_key x31))]; [AGet (demo_key x61)]].
Definition blocked (g : config) : bool :=
  match threads g !! 0%nat with
  | Some t => match now t, its t with Waiting _ _, _ :: _ => true | _, _ => false end
  | None => false
  end.

Lemma blocked_spec g : blocked g = true -> exists t c p, threads g !! 0%nat = Some t /\ now t = Waiting c p /\ its t <> [].
Proof.
  unfold blocked. destruct (threads g !! 0%nat) as [t|]; [|done]. intros Hb. exists t.
  destruct (now t) as [|c p| |]; try done. exists c, p. by destruct (its t).
Qed.
Lemma run_demo_blocked db w1 programs schedule : Db.Open (F := Q) demo_seed "d" None empty_world = (Ok db, w1) ->
  blocked <$> run_demo programs schedule = Some true -> blocked (exec (F := Q) schedule (start (db, w1) programs)) = true.
Proof. unfold run_demo. intros ->. by intros [= ?]. Qed.

Lemma iterator_blocks_writes_witness :
  exists db w1 g t, Db.Open (F := Q) demo_seed "d" None empty_world = (Ok db, w1) /\
    rtc (cstep (F := Q)) (start (db, w1) blocked_programs) g /\ its t <> [] /\
    forall g', rtc (cstep (F := Q)) g g' -> threads g' !! 0%nat = Some t.
Proof.
  destruct demo_start as (H1 & H2 & H3 & H4 & _).
  assert (Forall (Forall action_ok) blocked_programs) as H5.
  { repeat (constructor; [repeat (constructor; [first [exact I|split; [done|unfold call_ok; cbn; repeat split; try done; by repeat constructor]]|]); constructor|]).
    constructor. }
  destruct (iterator_blocks_writes demo_seed None 64 blocked_programs empty_world "d" H1 H2 H3 H4 ltac:(done) ltac:(done) H5
    ltac:(by split; vm_compute)) as (db & w1 & Ho & Hg).
  assert (blocked <$> run_demo blocked_programs (replicate 20 0%nat) = Some true) as Hb by by vm_compute.
  apply (run_demo_blocked db w1 _ _ Ho) in Hb. apply blocked_spec in Hb as (t & c & p & Ht & Hn & Hi).
  pose proof (exec_reachable (F := Q) (replicate 20 0%nat) (start (db, w1) blocked_programs)) as Hr.
  exists db, w1, (exec (F := Q) (replicate 20 0%nat) (start (db, w1) blocked_programs)), t.
  split; [exact Ho|]. split; [exact Hr|]. split; [exact Hi|]. exact (Hg _ 0%nat t c p Hr Ht Hn Hi).
Defined.
